(* ===== verification/_CoqProject ===== *)
-Q . S2P
Prelude.v
PeersState.v
PeersSpecFacts.v
PeersTheorems.v
ProtocolNames.v
Peerset.v
PeersetFacts.v
PeersetRun.v
PeersetTheorems.v
Notifications.v
NotificationsFacts.v
NotificationsSteps.v
NotificationsPoll.v
NotificationsTheorems.v
Wire.v
LruSet.v
Scale.v
Substream.v
SubstreamTheorems.v
Handler.v
HandlerFacts.v
Connection.v
HandlerTheorems.v
RequestResponses.v
RequestResponsesFacts.v
RequestResponsesTheorems.v
Config.v
ConfigTheorems.v
SyncMessages.v
SyncMessagesTheorems.v
NodeInfo.v
Protocol.v
NetBehaviour.v
Discovery.v
DiscoveryTheorems.v
PeerInfo.v
PeerInfoTheorems.v
Backend.v
SocketText.v
Python.v
PyExecutor.v
PyExecutorTheorems.v
MockTypes.v
Mockchain.v
MockchainTheorems.v
Service.v
ServiceTheorems.v
NodeSwarm.v
NodeTheorems.v
Substrate.v
SubstratePython.v
SubstrateTheorems.v
Heuristics.v
HeuristicsTheorems.v
Filter.v
FilterTheorems.v
PyFilter.v
PyFilterTheorems.v
LinkGraph.v
Overseer.v
OverseerFacts.v
OverseerTheorems.v
System.v
SystemTheorems.v
MockSystem.v
Rpc.v
RpcTheorems.v
