(* ===== verification/Prelude.v ===== *)
(** * swarm-host: a verification development

    swarm-host lets a user put programmable interfaces into a peer-to-peer
    network. Each interface is a network node run by a backend (substrate or
    the mock chain); what it receives is passed by the overseer to the filter
    of the interface and to the filters of linked interfaces; a filter runs
    user code in an executor, which decides what is forwarded, requested or
    answered; the heuristics backend keeps statistics for a front-end, and an
    RPC server passes the commands of the user on to the overseer. The
    substrate node has a peer set manager, which decides whom to accept and
    when to disconnect, a notifications behaviour, which carries these
    decisions out on the connections of libp2p, a request-response behaviour,
    and discovery, which finds the addresses of peers; the network service runs
    them and talks to the interface.

    This library models these parts in the style of the code and proves the
    theorems that make them correct. The files, in the order of the build, and
    the sources under [src/src] they model:

    - [Prelude.v] (this file): computations that may panic, machine integers,
      time, loops and their rules, iteration order of hash maps, counting in
      finite maps.
    - [PeersState.v] ([backend/substrate/network/peerset/peersstate.rs]): the
      table of peers with their reputation and their membership in each set,
      one definition per method. [Module Spec] is the abstract view (per set, a
      map from peer to membership and the peers that take no slot; a map of
      reputations); [PeersSpecFacts.v] proves that each method refines its
      counterpart there, [PeersTheorems.v] states
      C1 and C2: any sequence of
      calls runs without a panic and refines the specification, slots stay
      within the limits; and [highest_not_connected_peer] is maximal.
    - [ProtocolNames.v] ([.../common/protocol.rs]): the two kinds of names of
      protocols, which are equal if their texts are; elsewhere a name is its
      text.
    - [Peerset.v] ([backend/substrate/network/peerset/mod.rs]): the manager, its
      handle, the decay of reputations over time and its [Stream]
      implementation. [PeersetFacts.v] and [PeersetRun.v] carry the invariant
      [pinv] through every handler; [PeersetTheorems.v]:
      C3, no panics; C4, reserved peers;
      further theorems are about what polling delivers, when an incoming
      connection is accepted, bans and their end, changes of the reserved
      peers, dropped peers and the accounting of time.
    - [Notifications.v] ([.../protocol/notifications/behaviour.rs]), in
      [Module Behaviour]: the state machine of [Notifications] per peer and set,
      with swarm events, events of the connection handlers, messages of the
      manager, timers and [poll]. [NotificationsFacts.v] has the sessions the
      API sees and the command protocol of a connection handler,
      [NotificationsSteps.v] and [NotificationsPoll.v] the effect of each
      handler on both; [NotificationsTheorems.v]: C5,
      sessions are well formed; C6, handlers get legal
      commands only; C7, the invariant between peer states
      and connection states; C8, [poll] terminates; back-off is
      respected; and three runs in which the code goes wrong.
    - [Wire.v]: bytes, byte streams with their errors, and the variable-length
      integers in front of messages, as an interface with laws and an instance.
    - [LruSet.v] ([.../common/utils.rs]): the bounded set of discovery.
      It holds the elements inserted last.
    - [Scale.v]: codecs and the combinators by which the derived SCALE codecs
      are built, with the law that decoding undoes encoding.
    - [Substream.v] ([.../notifications/upgrade/notifications.rs], [collec.rs]),
      in [Module Upgrade]: the two handshakes, the inbound substream with its
      handshake state machine, the outbound one, and the choice among several
      upgrades. [SubstreamTheorems.v]: C14, what a
      substream does to its socket in any order of calls, and when it reads
      (after the handshake was flushed, or after a failure); the handshake
      crosses the wire unchanged or is refused for its length.
    - [Handler.v] ([.../notifications/handler.rs]), in [Module Handler]: the
      handler of one connection, with the events of the swarm, the commands of
      the behaviour, [poll], and the sink given to the user. [HandlerFacts.v]
      has the effect of each operation on the phase of a protocol;
      [Connection.v] puts the handler, the behaviour's view of it (that of
      [NotificationsFacts.v]) and the queues between them into one system.
      [HandlerTheorems.v]: C12, both sides agree in every
      interleaving; C13, what [poll] sends: the
      notifications of every open protocol, in order, and when it closes the
      connection; a full sink closes once.
    - [RequestResponses.v] ([backend/substrate/network/request_responses.rs],
      [common/request_responses.rs]): the behaviour that runs one libp2p
      request-response behaviour per protocol, and its codec.
      [RequestResponsesFacts.v] states the contract of the libp2p behaviour and
      carries the invariant through every operation;
      [RequestResponsesTheorems.v]: C15, no panics
      and [poll] returns; C16, every request gets one
      reply; C17, how requests of remotes are served,
      each after its own query for the reputation of its sender;
      and the round trip of the codec.
    - [Config.v] ([backend/substrate/network/common/config.rs], [config.rs],
      [common/protocol/role.rs]): roles, addresses with a peer identity, the
      configuration of sets and of the network, and the key of the node, kept in
      a file. [ConfigTheorems.v]: C18, addresses survive being
      printed and parsed; C19, a node keeps its key from start
      to start and never overwrites a file.
    - [SyncMessages.v] ([.../common/sync/message.rs], [.../protocol/message.rs]):
      the messages of block synchronisation, with the codecs written by hand for
      older versions, and the enum of all messages. [SyncMessagesTheorems.v]:
      C23, what is encoded is decoded;
      C24, so is every kind of message but one, which
      shares its number with another; C25, what older and
      newer peers send is understood or refused as the versions say.
    - [NodeInfo.v] ([.../common/service/signature.rs], [network_state.rs],
      [common/sync.rs], [common/sync/warp.rs], [metrics.rs]): signatures with
      the identity of the node, which identify the signer, and the data by which
      a node reports its network and its synchronisation.
    - [Protocol.v] ([.../protocol.rs]) builds the manager and the notifications
      behaviour from the configuration and gives their events the names of
      protocols; [NetBehaviour.v] ([.../behaviour.rs]) combines it with requests
      and discovery.
    - [Discovery.v] ([.../discovery.rs]): the configuration, the book of
      addresses, swarm and handler events, and [poll] with the random walk and
      the loops over Kademlia and mDNS, which are interfaces; an instance of the
      interface [NetBehaviour.v] uses. [DiscoveryTheorems.v]: C21,
      every call returns without a panic and keeps the state well formed;
      C22, the addresses follow a specification; random
      walks start on schedule.
    - [PeerInfo.v] ([.../peer_info.rs]): what is known of the peers of the node.
      [PeerInfoTheorems.v]: C20, the cache follows
      the connections and forgets only peers that have been away for long
      enough; and a run with two equal endpoints.
    - [Backend.v] ([error.rs], [types.rs], [backend/mod.rs], [executor/mod.rs]):
      errors, events, channels, and the traits [NetworkBackend], [Executor],
      [PacketSink] and [Interface] as classes.
    - [SocketText.v]: the parser of socket addresses of the standard library,
      which the RPC server and the main program use, and its round trip.
    - [Python.v]: Python objects and the interpreter as interfaces, and objects
      as data. [PyExecutor.v] ([executor/pyo3/mod.rs], [conversion.rs]): what is
      read from the results of filter code, and the executor.
      [PyExecutorTheorems.v]: C31, every call runs
      the function of the code that was installed for it, then [poll] of that
      code, and returns the events of the latter; C32, the
      events a filter returns are those the host acts on, or an error.
    - [MockTypes.v] ([backend/mockchain/types.rs]) and [Mockchain.v]
      ([backend/mockchain/mod.rs], [masquerade.rs]): the messages of the mock
      chain with their codecs, samples and Python objects; the task of a peer,
      sinks, handles and the backend. [MockchainTheorems.v]:
      C30, a session is reported as its connection and its
      messages, in order, until it ends; messages are identified by their
      hashes, interfaces have different numbers; and three defects.
    - [Service.v] ([.../service.rs]): the network service, [new] and the event
      loop, against the interface [Swarm], which [NetBehaviour.v] implements.
      [ServiceTheorems.v]: C26 and
      C27, requests of remotes and of the interface
      have numbers of their own and are answered at most once, to the right one.
    - [NodeSwarm.v]: the behaviour of the node keeps what the service asks of its
      swarm, that no call panics.
    - [NodeTheorems.v]: service, protocols and notifications behaviour as one
      system ([node_step]). C28, the interface and the
      service see the streams of a peer as the behaviour does, with what it has
      still to report; the network starts as configured and its loop runs.
    - [Substrate.v] ([backend/substrate/mod.rs]): interfaces, the task that
      relays the events of their network, sinks and handles; [SubstratePython.v]
      has its conversions to and from Python objects, as an instance of the
      class of [PyExecutor.v]. [SubstrateTheorems.v]:
      C29, an interface with its network, seen by the
      overseer: events arrive in order, streams are well formed, and the task
      catches up with the network.
    - [Heuristics.v] ([heuristics/mod.rs]): counters per peer and protocol and
      the loop that publishes them. [HeuristicsTheorems.v]:
      C33, every counter is the sum, length or set
      the event log prescribes; and updates are faithful, rate limited and
      fresh.
    - [Filter.v] ([filter/mod.rs]): the filter of an interface.
      [FilterTheorems.v]: C35, events are processed by
      a plan that does not depend on failing sinks; C36,
      the heuristics are told exactly the traffic;
      C37, requests are answered at most once; only
      registered peers are sent anything, notifications are forwarded by
      default; and two defects.
    - [PyFilter.v]: [PyO3Executor] as the executor of a filter.
      [PyFilterTheorems.v]: C34, what becomes of a
      notification for everything the Python code may return.
    - [LinkGraph.v]: the part of the graph library the overseer uses, as an
      interface with its documented laws, and an implementation of it.
    - [Overseer.v] ([overseer.rs]): interfaces, links, peers, routing and the
      dispatch of events. [OverseerFacts.v] carries the invariant through every
      handler; [OverseerTheorems.v]: C38,
      notifications are routed along links exactly once; C39,
      linking and unlinking; no panics in any reachable state; discovered peers
      are announced once; and two defects of unlinking.
    - [System.v]: the overseer and the tasks of its filters side by side, with
      the commands and events between them in any interleaving.
      [SystemTheorems.v]: C9, no task panics and every filter
      has processed the first of its commands in order; C10,
      filters that are scheduled catch up and then know the peers the overseer
      knows; C11, what happens when the code of
      a filter does panic.
    - [MockSystem.v]: the mock chain as the backend of the overseer, with two
      defects that appear in the composition.
    - [Rpc.v] ([rpc.rs], [main.rs], the texts of [error.rs]): the methods of the
      server, what the main program starts, and the host: the system of
      [System.v] with the calls made to it. [RpcTheorems.v]:
      C40, every call is answered once, with the result of the
      operation it asks for; a caller that goes away stops the overseer, and so
      does a filter that panics, with the next event of its interface; the
      addresses and the hash a user writes are read as meant.

    Conventions. Code that may panic has type [outcome]; the models are of a
    debug build on a 64-bit target, so that overflow, failed debug assertions
    and indexing out of range are panics. A [Result] is [result], and a handler
    that changes the state and then fails returns both. Mutable state is passed
    explicitly; the guards of [peersstate.rs], which borrow the table, carry it.
    Executors and backends may panic; theorems on filters and the overseer that
    need them not to say so with [ExecutorRuns] and [InterfacesRun], and
    C34 and C11 are
    about those that do. Sinks do not panic in the model ([Backend.PacketSink]),
    while those of the mock chain do on requests and responses.
    Log output is left out.

    Restrictions. Some theorems exclude inputs on which the code does panic or
    lose its state; each says so, and a theorem or a finding shows the excluded
    case. [PeersSpecFacts.calls_ok] bounds the number of peers by [u32]
    (C1); [NotificationsTheorems.run] and the runs
    built on it exclude steps after which an entry is poisoned (below);
    [OverseerFacts.input_ok] excludes callers of the RPC that go away before
    they are answered, and upgrades on interfaces that do not exist
    (C9, C10, C40);
    [ServiceTheorems.fed] excludes the end of the streams of requests and
    commands, on which the service panics explicitly
    (C26), and this theorem also assumes that the
    overseer keeps the event stream, which it drops when the filter of a new
    interface is refused.

    Parameters. Where the code reads the environment, the model takes an
    argument: the values [Instant::now] returns, in order ([clock]); whether a
    timer has fired ([delay_ready], the list of fired timers of [poll]); the
    random back-off ([ban_sample]) and random values ([Rng]); the iteration
    order of hash maps and sets ([HashOrder]); the executor, the sinks and the
    backend; the JSON printer; the graph library; framed sockets ([Socket]),
    variable-length integers ([Varint]), channels ([SinkChannel],
    [MpscSender]), the request-response behaviour of libp2p ([SubBehaviour]),
    Kademlia and mDNS ([Kademlia], [Mdns]), tests on IP addresses ([IpNetwork]),
    ordered sets ([LinkedHashSet]), multiaddresses ([Multiaddr], [AddressIter],
    [PeerText]), Ed25519 keys ([NodeKeys]), the codecs of numbers and block
    types ([Scale]), CBOR ([Cbor]), Python ([PyObjects], [Python]), the
    parameters of an RPC ([RpcParams]), texts of errors of other crates
    ([ErrorTexts]), [hex] ([Hex]), ping and identify ([InfoBehaviour]) and the
    hash function ([digest]). Hypotheses on them are stated where they are used
    (a clock that does not go back, the laws of [LinkGraphLaws]), and the
    witness of each theorem instantiates them.

    Fuel. [Peerset.poll_next] loops at most once per queued action and once
    more, which is the fuel it starts with ([S (length rx)]);
    C3 proves that it never runs out. The loop of
    [Notifications.poll] over the messages of the manager takes its fuel as an
    argument; C8 proves that enough fuel exists and that more
    does not change the result. The handshake loops of a substream make at most
    five rounds ([handshake_rank] drops in each); they run for
    [handshake_rounds]. The loop that empties a sink runs once per queued
    message and once more. [RequestResponses.poll] takes its rounds as an
    argument; C15 gives a number that suffices, and
    so do C20 for [PeerInfo.poll] and
    C21 for [Discovery.poll] ([poll_bound]). All other loops are
    structural.

    Not modelled: the construction of transports and of the swarm, which are
    calls of libp2p; the traits of [common/sync.rs] and [common/service.rs],
    declarations taken over from substrate that nothing in the repository
    implements but the forwarding through [Arc]; the second copy of the
    configuration in [common/config.rs], which repeats [config.rs]; the WebSocket
    server of the heuristics, the HTTP server of the RPC and the command line.
    The interleaving of tasks is modelled by the order of inputs to each event
    loop, and for the node, an interface, the overseer with its filters and the
    host by steps in any order. Channels are unbounded in the model: the code
    gives them 50,000 places and waits for room in a full one, so that an
    overseer waiting for a filter and that filter waiting for the overseer are
    outside of it. Agreement between the peer set manager and the notifications
    behaviour on who is connected is proved for each side against its own
    specification, not for the two together. The swarm of
    libp2p is represented by the calls it makes: a new connection has a new
    identifier (a premise of C5,
    C6, C7,
    C28 and C29), and these
    theorems are about runs in which no entry of the behaviour is poisoned,
    which [NotificationsTheorems.v] shows can happen. *)

From stdpp Require Export base gmap list strings.
From Stdlib Require Export ZArith Lia.

#[global] Open Scope Z_scope.

(** ** Computations that may panic

    Rust code of the repository is modelled as it runs in a debug build: an
    out-of-range index, an arithmetic overflow, a failed [debug_assert!],
    [assert!], [expect], [unreachable!], [todo!] or [panic!] aborts the
    computation. *)
Inductive panic :=
  | IndexOutOfBounds
  | ArithmeticOverflow
  | DebugAssertion
  | AssertFailed
  | ExpectFailed
  | UnreachableCode
  | NotYetImplemented
  | ExplicitPanic.

Inductive outcome (A : Type) :=
  | Done (a : A)
  | Panicked (why : panic).
Arguments Done {A} a.
Arguments Panicked {A} why.

#[export] Instance outcome_ret : MRet outcome := @Done.
#[export] Instance outcome_bind : MBind outcome := λ A B f m,
  match m with Done a => f a | Panicked w => Panicked w end.
#[export] Instance outcome_fmap : FMap outcome := λ A B f m,
  match m with Done a => Done (f a) | Panicked w => Panicked w end.

(** Rust's [Result]. *)
Inductive result (A E : Type) :=
  | Ok (a : A)
  | Err (e : E).
Arguments Ok {A E} a.
Arguments Err {A E} e.

Definition is_ok {A E} (r : result A E) : bool :=
  match r with Ok _ => true | Err _ => false end.

Definition debug_assert (b : bool) : outcome unit :=
  if b then Done tt else Panicked DebugAssertion.

Definition rust_assert (b : bool) : outcome unit :=
  if b then Done tt else Panicked AssertFailed.

Definition expect {A} (o : option A) : outcome A :=
  match o with Some a => Done a | None => Panicked ExpectFailed end.

(** [v[i]] on a vector. *)
Definition index {A} (l : list A) (i : nat) : outcome A :=
  match l !! i with Some a => Done a | None => Panicked IndexOutOfBounds end.

(** [v[i] = x] on a vector: out of range it panics, it does not extend. *)
Definition index_set {A} (l : list A) (i : nat) (x : A) : outcome (list A) :=
  match l !! i with Some _ => Done (<[i:=x]> l) | None => Panicked IndexOutOfBounds end.

(** A [for] loop over a list of items, threading a state. *)
Fixpoint for_each {A S} (f : S → A → outcome S) (l : list A) (s : S) : outcome S :=
  match l with
  | [] => Done s
  | a :: l' => s' ← f s a; for_each f l' s'
  end.

(** [std::task::Poll]. *)
Inductive Poll (A : Type) :=
  | Pending
  | Ready (a : A).
Arguments Pending {A}.
Arguments Ready {A} a.

(** A [loop] whose body goes round again ([inl]) or leaves with a result
    ([inr]), run for a number of rounds; [None] when they do not suffice. *)
Fixpoint loop {S R} (body : S → S + R) (rounds : nat) (s : S) : option R :=
  match rounds with
  | O => None
  | Datatypes.S rounds =>
      match body s with
      | inl s' => loop body rounds s'
      | inr r => Some r
      end
  end.

(** A rank that every round lowers bounds the number of rounds. *)
Lemma loop_ranked {S R} (body : S → S + R) (rank : S → nat) :
  (∀ s s', body s = inl s' → (rank s' < rank s)%nat) →
  ∀ rounds s, (rank s < rounds)%nat → is_Some (loop body rounds s).
Proof.
  intros Hrank rounds. induction rounds as [|n IH]; intros s Hs; [lia|]. simpl.
  destruct (body s) as [s'|r] eqn:E; [|done]. apply IH. pose proof (Hrank _ _ E). lia.
Qed.

(** What holds before the loop and is kept by each round holds of the state in
    which it leaves. *)
Lemma loop_inv {S R} (body : S → S + R) (I : S → Prop) (Q : R → Prop) :
  (∀ s, I s → match body s with inl s' => I s' | inr r => Q r end) →
  ∀ rounds s r, I s → loop body rounds s = Some r → Q r.
Proof.
  intros Hbody rounds. induction rounds as [|n IH]; intros s r Hs; [done|]. simpl.
  pose proof (Hbody s Hs) as Hb. destruct (body s) as [s'|r']; [by apply IH|]. by intros [= <-].
Qed.

(** More rounds than needed change nothing. *)
Lemma loop_more {S R} (body : S → S + R) n m s r :
  (n ≤ m)%nat → loop body n s = Some r → loop body m s = Some r.
Proof.
  revert m s. induction n as [|n IH]; intros m s Hm; [done|]. destruct m as [|m]; [lia|]. simpl.
  destruct (body s); [|done]. apply IH. lia.
Qed.

(** ** Machine integers *)
Definition u32_max : Z := 2 ^ 32 - 1.
Definition i32_min : Z := - 2 ^ 31.
Definition i32_max : Z := 2 ^ 31 - 1.
Definition u64_max : Z := 2 ^ 64 - 1.

Definition is_u32 (z : Z) : Prop := 0 ≤ z ≤ u32_max.
Definition is_i32 (z : Z) : Prop := i32_min ≤ z ≤ i32_max.
Definition is_u64 (z : Z) : Prop := 0 ≤ z ≤ u64_max.

Definition u32_add (a b : Z) : outcome Z :=
  if a + b <=? u32_max then Done (a + b) else Panicked ArithmeticOverflow.
Definition u32_sub (a b : Z) : outcome Z :=
  if b <=? a then Done (a - b) else Panicked ArithmeticOverflow.
Definition u64_add (a b : Z) : outcome Z :=
  if a + b <=? u64_max then Done (a + b) else Panicked ArithmeticOverflow.
Definition u64_sub (a b : Z) : outcome Z :=
  if b <=? a then Done (a - b) else Panicked ArithmeticOverflow.

(** [i32::saturating_add] and [i32::saturating_sub]. *)
Definition i32_clamp (z : Z) : Z := Z.max i32_min (Z.min i32_max z).
Definition i32_saturating_add (a b : Z) : Z := i32_clamp (a + b).
Definition i32_saturating_sub (a b : Z) : Z := i32_clamp (a - b).

(** [Instant] and [Duration], in nanoseconds. Instants count from the epoch of
    the monotonic clock; the difference of two instants saturates at zero. *)
Definition Instant := Z.
Definition Duration := Z.
Definition from_secs (s : Z) : Duration := s * 1000000000.
Definition as_secs (d : Duration) : Z := d / 1000000000.
Definition instant_sub (a b : Instant) : Duration := Z.max 0 (a - b).

(** ** Postconditions

    [runs m Q]: the computation [m] does not panic and its result satisfies
    [Q]. *)
Definition runs {A} (m : outcome A) (Q : A → Prop) : Prop :=
  match m with Done a => Q a | Panicked _ => False end.

Lemma runs_ret {A} (a : A) (Q : A → Prop) : Q a → runs (mret a) Q.
Proof. done. Qed.

Lemma runs_bind {A B} (m : outcome A) (f : A → outcome B) (Q : B → Prop) :
  runs m (λ a, runs (f a) Q) → runs (m ≫= f) Q.
Proof. by destruct m. Qed.

Lemma runs_fmap {A B} (m : outcome A) (f : A → B) (Q : B → Prop) :
  runs m (λ a, Q (f a)) → runs (f <$> m) Q.
Proof. by destruct m. Qed.

Lemma runs_mono {A} (m : outcome A) (P Q : A → Prop) :
  runs m P → (∀ a, P a → Q a) → runs m Q.
Proof. destruct m; simpl; auto. Qed.

Lemma runs_conj {A} (m : outcome A) (P Q : A → Prop) :
  runs m P → runs m Q → runs m (λ a, P a ∧ Q a).
Proof. destruct m; simpl; auto. Qed.

Lemma runs_Done {A} (m : outcome A) (Q : A → Prop) :
  runs m Q ↔ ∃ a, m = Done a ∧ Q a.
Proof. destruct m; simpl; naive_solver. Qed.

Lemma runs_eq {A} (m : outcome A) (Q : A → Prop) a :
  runs m Q → m = Done a → Q a.
Proof. by intros H ->. Qed.

(** The loop rule: an invariant indexed by the items still to visit. *)
Lemma runs_for_each {A S} (f : S → A → outcome S) (I : list A → S → Prop) l s :
  I l s →
  (∀ a l' s', I (a :: l') s' → runs (f s' a) (I l')) →
  runs (for_each f l s) (I []).
Proof.
  intros HI Hstep. revert s HI; induction l as [|a l IH]; intros s HI; [done|].
  simpl. apply runs_bind. eapply runs_mono; [by apply Hstep|]. auto.
Qed.

Lemma runs_for_each_inv {A S} (f : S → A → outcome S) (I : S → Prop) (l : list A) s :
  I s →
  (∀ a s', a ∈ l → I s' → runs (f s' a) I) →
  runs (for_each f l s) I.
Proof.
  revert s; induction l as [|a l IH]; intros s HI Hstep; [done|].
  simpl. apply runs_bind. eapply runs_mono; [apply Hstep; [set_solver|done]|].
  intros s' HI'. apply IH; [done|]. intros; apply Hstep; [set_solver|done].
Qed.

Lemma for_each_app {A S} (f : S → A → outcome S) l1 l2 s :
  for_each f (l1 ++ l2) s = (for_each f l1 s ≫= for_each f l2).
Proof.
  revert s; induction l1 as [|a l1 IH]; intros s; [done|].
  simpl. destruct (f s a); simpl; [apply IH|done].
Qed.

(** Primitive operations as rules. *)
Lemma runs_debug_assert b (Q : unit → Prop) : b = true → Q tt → runs (debug_assert b) Q.
Proof. by intros ->. Qed.

Lemma runs_rust_assert b (Q : unit → Prop) : b = true → Q tt → runs (rust_assert b) Q.
Proof. by intros ->. Qed.

Lemma runs_expect {A} (o : option A) a (Q : A → Prop) : o = Some a → Q a → runs (expect o) Q.
Proof. by intros ->. Qed.

Lemma runs_index {A} (l : list A) i a (Q : A → Prop) : l !! i = Some a → Q a → runs (index l i) Q.
Proof. unfold index. by intros ->. Qed.

Lemma runs_index_set {A} (l : list A) i x (Q : list A → Prop) :
  is_Some (l !! i) → Q (<[i:=x]> l) → runs (index_set l i x) Q.
Proof. unfold index_set. by intros [? ->]. Qed.

Lemma runs_u32_add a b (Q : Z → Prop) : a + b ≤ u32_max → Q (a + b) → runs (u32_add a b) Q.
Proof. unfold u32_add. intros H ?. by rewrite (proj2 (Z.leb_le _ _) H). Qed.

Lemma runs_u32_sub a b (Q : Z → Prop) : b ≤ a → Q (a - b) → runs (u32_sub a b) Q.
Proof. unfold u32_sub. intros H ?. by rewrite (proj2 (Z.leb_le _ _) H). Qed.

Lemma runs_u64_add a b (Q : Z → Prop) : a + b ≤ u64_max → Q (a + b) → runs (u64_add a b) Q.
Proof. unfold u64_add. intros H ?. by rewrite (proj2 (Z.leb_le _ _) H). Qed.

Lemma runs_u64_sub a b (Q : Z → Prop) : b ≤ a → Q (a - b) → runs (u64_sub a b) Q.
Proof. unfold u64_sub. intros H ?. by rewrite (proj2 (Z.leb_le _ _) H). Qed.

Lemma i32_clamp_range z : is_i32 (i32_clamp z).
Proof. unfold is_i32, i32_clamp, i32_min, i32_max. lia. Qed.

Lemma i32_clamp_id z : is_i32 z → i32_clamp z = z.
Proof. unfold is_i32, i32_clamp, i32_min, i32_max. lia. Qed.

(** [wp]: work through a [runs] goal, one monadic step at a time. *)
Create HintDb rust.
#[export] Hint Resolve i32_clamp_range : rust.

Ltac wp :=
  lazymatch goal with
  | |- runs (mret _) _ => apply runs_ret
  | |- runs (Done _) _ => apply runs_ret
  | |- runs (mbind _ _) _ => apply runs_bind
  | |- runs (fmap _ _) _ => apply runs_fmap
  | |- runs (match ?o with Some _ => _ | None => _ end) _ => destruct o eqn:?
  | |- runs (if ?b then _ else _) _ => destruct b eqn:?
  end.
Ltac wps := repeat (wp; simpl).

(** [ensures m Q]: the result of [m] satisfies [Q] unless [m] panics. *)
Definition ensures {A} (m : outcome A) (Q : A → Prop) : Prop :=
  match m with Done a => Q a | Panicked _ => True end.

Lemma ensures_bind {A B} (m : outcome A) (f : A → outcome B) (Q : B → Prop) :
  ensures m (λ a, ensures (f a) Q) → ensures (m ≫= f) Q.
Proof. by destruct m. Qed.
Lemma ensures_fmap {A B} (m : outcome A) (f : A → B) (Q : B → Prop) :
  ensures m (λ a, Q (f a)) → ensures (f <$> m) Q.
Proof. by destruct m. Qed.
Lemma ensures_mono {A} (m : outcome A) (P Q : A → Prop) :
  ensures m P → (∀ a, P a → Q a) → ensures m Q.
Proof. destruct m; simpl; auto. Qed.
Lemma ensures_debug_assert b (Q : unit → Prop) : (b = true → Q tt) → ensures (debug_assert b) Q.
Proof. destruct b; simpl; auto. Qed.
Lemma ensures_Done {A} (m : outcome A) (Q : A → Prop) a : ensures m Q → m = Done a → Q a.
Proof. by intros ? ->. Qed.
Lemma ensures_true {A} (m : outcome A) (Q : A → Prop) : (∀ a, Q a) → ensures m Q.
Proof. destruct m; simpl; auto. Qed.
Lemma ensures_for_each {A S} (f : S → A → outcome S) (I : S → Prop) (l : list A) s :
  I s → (∀ a s', I s' → ensures (f s' a) I) → ensures (for_each f l s) I.
Proof.
  revert s; induction l as [|a l IH]; intros s HI Hf; [done|]. simpl.
  apply ensures_bind. eapply ensures_mono; [by apply Hf|]. auto.
Qed.

(** ** Finite maps *)

(** The iteration order of a [HashMap] or [HashSet] is unspecified: it is a
    parameter, some enumeration of the keys. *)
Class HashOrder (K : Type) `{Countable K} := {
  hash_keys : gset K → list K;
  hash_keys_perm (s : gset K) : hash_keys s ≡ₚ elements s;
}.

Section hash_order.
Context `{HashOrder K}.

Lemma elem_of_hash_keys (s : gset K) k : k ∈ hash_keys s ↔ k ∈ s.
Proof. by rewrite hash_keys_perm, elem_of_elements. Qed.

Lemma NoDup_hash_keys (s : gset K) : NoDup (hash_keys s).
Proof. rewrite hash_keys_perm. apply NoDup_elements. Qed.

(** The entries of a map, in iteration order. *)
Definition hash_iter {A} (m : gmap K A) : list (K * A) :=
  omap (λ k, pair k <$> m !! k) (hash_keys (dom m)).

Lemma elem_of_hash_iter {A} (m : gmap K A) k a : (k, a) ∈ hash_iter m ↔ m !! k = Some a.
Proof.
  unfold hash_iter. rewrite list_elem_of_omap. split.
  - intros (k' & _ & Heq). destruct (m !! k') eqn:E; simplify_eq/=. done.
  - intros Hk. exists k. rewrite elem_of_hash_keys, elem_of_dom, Hk. eauto.
Qed.

Lemma hash_iter_fst {A} (m : gmap K A) : (hash_iter m).*1 = hash_keys (dom m).
Proof.
  assert (∀ l, Forall (λ k, k ∈ dom m) l → (omap (λ k, pair k <$> m !! k) l).*1 = l) as Hl.
  { induction 1 as [|k l Hk Hl IH]; [done|]. apply elem_of_dom in Hk as [a Ha]. simpl.
    rewrite Ha. simpl. f_equal. exact IH. }
  apply Hl, Forall_forall. intros k. apply elem_of_hash_keys.
Qed.

Lemma hash_iter_keys {A} (m : gmap K A) : (hash_iter m).*1 ≡ₚ elements (dom m).
Proof. rewrite hash_iter_fst. apply hash_keys_perm. Qed.
End hash_order.

(** One admissible order, for executing the model. *)
Definition canonical_order K `{Countable K} : HashOrder K :=
  {| hash_keys := elements; hash_keys_perm := λ s, reflexivity _ |}.

(** Number of entries of a map that satisfy a predicate. *)
Section map_count.
Context `{Countable K} {A : Type}.
Implicit Types (P Q : K → A → bool) (m : gmap K A).

Definition map_count P m : Z :=
  Z.of_nat (size (filter (λ ka, P ka.1 ka.2 = true) m)).

Lemma map_count_empty P : map_count P ∅ = 0.
Proof. unfold map_count. by rewrite map_filter_empty, map_size_empty. Qed.

Lemma map_count_nonneg P m : 0 ≤ map_count P m.
Proof. unfold map_count. lia. Qed.

Lemma map_count_insert_new P m k a :
  m !! k = None → map_count P (<[k:=a]> m) = map_count P m + Z.b2z (P k a).
Proof.
  intros Hk. unfold map_count. destruct (P k a) eqn:HP; simpl.
  - rewrite map_filter_insert_True by done.
    rewrite map_size_insert_None; [lia|]. apply map_lookup_filter_None; auto.
  - rewrite map_filter_insert_False by (simpl; congruence).
    rewrite delete_id by done. lia.
Qed.

Lemma map_count_delete P m k a :
  m !! k = Some a → map_count P (delete k m) = map_count P m - Z.b2z (P k a).
Proof.
  intros Hk. rewrite <- (insert_delete_id m k a) at 2 by done.
  rewrite map_count_insert_new by apply lookup_delete_eq. lia.
Qed.

Lemma map_count_insert P m k a b :
  m !! k = Some b →
  map_count P (<[k:=a]> m) = map_count P m - Z.b2z (P k b) + Z.b2z (P k a).
Proof.
  intros Hk. rewrite <- insert_delete_eq, map_count_insert_new by apply lookup_delete_eq.
  by rewrite (map_count_delete _ _ _ b).
Qed.

Lemma map_count_ext P Q m :
  (∀ k a, m !! k = Some a → P k a = Q k a) → map_count P m = map_count Q m.
Proof.
  intros HPQ. unfold map_count. do 2 f_equal. apply map_filter_ext; simpl.
  intros k a Hk. by rewrite (HPQ k a Hk).
Qed.

(** Two predicates that agree except at one key. *)
Lemma map_count_change P Q m k :
  (∀ k' a, k' ≠ k → P k' a = Q k' a) →
  map_count Q m = map_count P m + match m !! k with
                                  | Some a => Z.b2z (Q k a) - Z.b2z (P k a)
                                  | None => 0
                                  end.
Proof.
  intros HPQ. destruct (m !! k) as [a|] eqn:Hk.
  - pose proof (map_count_delete P m k a Hk). pose proof (map_count_delete Q m k a Hk).
    assert (map_count P (delete k m) = map_count Q (delete k m)).
    { apply map_count_ext. intros k' ? [??]%lookup_delete_Some. auto. }
    lia.
  - rewrite Z.add_0_r. symmetry. apply map_count_ext. intros k' a Hk'. apply HPQ. congruence.
Qed.

Lemma map_count_pos P m k a : m !! k = Some a → P k a = true → 1 ≤ map_count P m.
Proof.
  intros Hk HP. pose proof (map_count_delete P m k a Hk) as Hd. rewrite HP in Hd.
  simpl in Hd. pose proof (map_count_nonneg P (delete k m)). lia.
Qed.

Lemma map_count_le_size P m : map_count P m ≤ Z.of_nat (size m).
Proof.
  unfold map_count. apply inj_le. apply map_subseteq_size, map_filter_subseteq.
Qed.

Lemma map_count_lt P m k a :
  m !! k = Some a → P k a = false → map_count P m < Z.of_nat (size m).
Proof.
  intros Hk HP. pose proof (map_count_delete P m k a Hk) as Hd. rewrite HP in Hd.
  pose proof (map_count_le_size P (delete k m)) as Hle.
  rewrite map_size_delete, Hk in Hle.
  assert (size m ≠ 0%nat) by (intros ?%map_size_empty_inv; simplify_map_eq). simpl in *. lia.
Qed.
End map_count.
