(* ===== verification/PeersState.v ===== *)
(** * Slots and reputations: the state behind the peerset

    Model of [network/peerset/peersstate.rs]: which peers are known, their
    reputation, the membership of each peer in each set, and the number of
    slots taken in each set. The borrowing handles of the source
    ([ConnectedPeer], [NotConnectedPeer], [UnknownPeer], [Reputation]) are
    records that own the state they borrow; a method of a handle returns the
    handle that the source returns, and dropping a handle gives its state
    back. Each reading of [Instant::now] is an argument [now]. *)

From S2P Require Import Prelude.

(** ** Data *)

(** Whether we are connected to a node in the context of a specific set. *)
Inductive MembershipState :=
  | MS_NotMember
  | MS_In
  | MS_Out
  | MS_NotConnected (last_connected : Instant).

#[export] Instance MembershipState_eq_dec : EqDecision MembershipState.
Proof. solve_decision. Defined.

Definition is_connected (m : MembershipState) : bool :=
  match m with
  | MS_In | MS_Out => true
  | MS_NotMember | MS_NotConnected _ => false
  end.

Definition is_not_connected (m : MembershipState) : bool :=
  match m with MS_NotConnected _ => true | _ => false end.

Definition is_not_member (m : MembershipState) : bool :=
  match m with MS_NotMember => true | _ => false end.

(** State of a single node: one membership per set, and a reputation. *)
Record Node := mkNode {
  node_sets : list MembershipState;
  node_reputation : Z;
}.

Definition Node_new (num_sets : nat) : Node :=
  {| node_sets := replicate num_sets MS_NotMember; node_reputation := 0 |}.

(** Configuration of a single set. *)
Record SetConfig := mkSetConfig {
  in_peers : Z;
  out_peers : Z;
}.

Section peersstate.
Context {PeerId : Type} `{Countable PeerId}.

(** State of a single set. *)
Record SetInfo := mkSetInfo {
  num_in : Z;
  num_out : Z;
  max_in : Z;
  max_out : Z;
  no_slot_nodes : gset PeerId;
}.

Record PeersState := mkPeersState {
  nodes : gmap PeerId Node;
  sets : list SetInfo;
}.

Definition set_num_in (n : Z) (s : SetInfo) : SetInfo :=
  {| num_in := n; num_out := num_out s; max_in := max_in s; max_out := max_out s;
     no_slot_nodes := no_slot_nodes s |}.
Definition set_num_out (n : Z) (s : SetInfo) : SetInfo :=
  {| num_in := num_in s; num_out := n; max_in := max_in s; max_out := max_out s;
     no_slot_nodes := no_slot_nodes s |}.
Definition set_no_slot_nodes (x : gset PeerId) (s : SetInfo) : SetInfo :=
  {| num_in := num_in s; num_out := num_out s; max_in := max_in s; max_out := max_out s;
     no_slot_nodes := x |}.
Definition with_nodes (m : gmap PeerId Node) (st : PeersState) : PeersState :=
  {| nodes := m; sets := sets st |}.

(** [self.sets[set]] replaced by [s], in bounds. *)
Definition update_set (st : PeersState) (set : nat) (s : SetInfo) : outcome PeersState :=
  l ← index_set (sets st) set s; mret {| nodes := nodes st; sets := l |}.

(** [node.sets[set] = m]. *)
Definition set_membership (n : Node) (set : nat) (m : MembershipState) : outcome Node :=
  l ← index_set (node_sets n) set m;
  mret {| node_sets := l; node_reputation := node_reputation n |}.

Definition with_reputation (r : Z) (n : Node) : Node :=
  {| node_sets := node_sets n; node_reputation := r |}.

(** ** Handles *)

Record ConnectedPeer := mkConnectedPeer {
  cp_state : PeersState; cp_set : nat; cp_peer_id : PeerId }.
Record NotConnectedPeer := mkNotConnectedPeer {
  ncp_state : PeersState; ncp_set : nat; ncp_peer_id : PeerId }.
Record UnknownPeer := mkUnknownPeer {
  up_parent : PeersState; up_set : nat; up_peer_id : PeerId }.

Inductive Peer :=
  | Peer_Connected (p : ConnectedPeer)
  | Peer_NotConnected (p : NotConnectedPeer)
  | Peer_Unknown (p : UnknownPeer).

(** Access to the reputation of a peer: an occupied entry of [nodes]. *)
Record Reputation := mkReputation { rep_state : PeersState; rep_peer_id : PeerId }.

Definition into_connected (p : Peer) : option ConnectedPeer :=
  match p with Peer_Connected c => Some c | _ => None end.
Definition into_not_connected (p : Peer) : option NotConnectedPeer :=
  match p with Peer_NotConnected c => Some c | _ => None end.
Definition into_unknown (p : Peer) : option UnknownPeer :=
  match p with Peer_Unknown c => Some c | _ => None end.

(** ** [impl PeersState] *)

Definition PeersState_new (cfg : list SetConfig) : PeersState :=
  {| nodes := ∅;
     sets := (λ c, {| num_in := 0; num_out := 0; max_in := in_peers c; max_out := out_peers c;
                      no_slot_nodes := ∅ |}) <$> cfg |}.

Definition num_sets (st : PeersState) : nat := length (sets st).

Definition peer_reputation (st : PeersState) (peer_id : PeerId) : Reputation :=
  let st' := match nodes st !! peer_id with
             | Some _ => st
             | None => with_nodes (<[peer_id := Node_new (length (sets st))]> (nodes st)) st
             end in
  {| rep_state := st'; rep_peer_id := peer_id |}.

Definition peer (st : PeersState) (set : nat) (peer_id : PeerId) : outcome Peer :=
  _ ← rust_assert (bool_decide (set < length (sets st))%nat);
  m ← match nodes st !! peer_id with
      | Some n => Some <$> index (node_sets n) set
      | None => mret None
      end;
  mret match m with
       | None | Some MS_NotMember =>
           Peer_Unknown {| up_parent := st; up_set := set; up_peer_id := peer_id |}
       | Some MS_In | Some MS_Out =>
           Peer_Connected {| cp_state := st; cp_set := set; cp_peer_id := peer_id |}
       | Some (MS_NotConnected _) =>
           Peer_NotConnected {| ncp_state := st; ncp_set := set; ncp_peer_id := peer_id |}
       end.

Definition has_free_outgoing_slot (st : PeersState) (set : nat) : outcome bool :=
  s ← index (sets st) set; mret (num_out s <? max_out s).

Definition add_no_slot_node (st : PeersState) (set : nat) (peer_id : PeerId) : outcome PeersState :=
  s ← index (sets st) set;
  if bool_decide (peer_id ∈ no_slot_nodes s) then mret st
  else
    let s := set_no_slot_nodes ({[peer_id]} ∪ no_slot_nodes s) s in
    match nodes st !! peer_id with
    | Some p =>
        m ← index (node_sets p) set;
        match m with
        | MS_In => n ← u32_sub (num_in s) 1; update_set st set (set_num_in n s)
        | MS_Out => n ← u32_sub (num_out s) 1; update_set st set (set_num_out n s)
        | MS_NotConnected _ | MS_NotMember => update_set st set s
        end
    | None => update_set st set s
    end.

Definition remove_no_slot_node (st : PeersState) (set : nat) (peer_id : PeerId) : outcome PeersState :=
  s ← index (sets st) set;
  if bool_decide (peer_id ∈ no_slot_nodes s) then
    let s := set_no_slot_nodes (no_slot_nodes s ∖ {[peer_id]}) s in
    match nodes st !! peer_id with
    | Some p =>
        m ← index (node_sets p) set;
        match m with
        | MS_In => n ← u32_add (num_in s) 1; update_set st set (set_num_in n s)
        | MS_Out => n ← u32_add (num_out s) 1; update_set st set (set_num_out n s)
        | MS_NotConnected _ | MS_NotMember => update_set st set s
        end
    | None => update_set st set s
    end
  else mret st.

(** ** [impl ConnectedPeer] *)

Definition disconnect (now : Instant) (c : ConnectedPeer) : outcome NotConnectedPeer :=
  let st := cp_state c in
  let set := cp_set c in
  let peer_id := cp_peer_id c in
  s ← index (sets st) set;
  let is_no_slot_occupy := bool_decide (peer_id ∈ no_slot_nodes s) in
  match nodes st !! peer_id with
  | Some node =>
      st ← (if is_no_slot_occupy then mret st
            else
              m ← index (node_sets node) set;
              match m with
              | MS_In => n ← u32_sub (num_in s) 1; update_set st set (set_num_in n s)
              | MS_Out => n ← u32_sub (num_out s) 1; update_set st set (set_num_out n s)
              | MS_NotMember | MS_NotConnected _ => Panicked DebugAssertion
              end);
      node ← set_membership node set (MS_NotConnected now);
      mret {| ncp_state := with_nodes (<[peer_id := node]> (nodes st)) st;
              ncp_set := set; ncp_peer_id := peer_id |}
  | None => Panicked DebugAssertion
  end.

Definition ConnectedPeer_add_reputation (modifier : Z) (c : ConnectedPeer) : outcome ConnectedPeer :=
  let st := cp_state c in
  match nodes st !! cp_peer_id c with
  | Some node =>
      let node := with_reputation (i32_saturating_add (node_reputation node) modifier) node in
      mret {| cp_state := with_nodes (<[cp_peer_id c := node]> (nodes st)) st;
              cp_set := cp_set c; cp_peer_id := cp_peer_id c |}
  | None => Panicked DebugAssertion
  end.

Definition ConnectedPeer_reputation (c : ConnectedPeer) : Z :=
  match nodes (cp_state c) !! cp_peer_id c with Some p => node_reputation p | None => 0 end.

(** ** [impl NotConnectedPeer] *)

Definition bump_last_connected_or_discovered (now : Instant) (c : NotConnectedPeer) :
    outcome NotConnectedPeer :=
  let st := ncp_state c in
  match nodes st !! ncp_peer_id c with
  | None => mret c
  | Some node =>
      m ← index (node_sets node) (ncp_set c);
      match m with
      | MS_NotConnected _ =>
          node ← set_membership node (ncp_set c) (MS_NotConnected now);
          mret {| ncp_state := with_nodes (<[ncp_peer_id c := node]> (nodes st)) st;
                  ncp_set := ncp_set c; ncp_peer_id := ncp_peer_id c |}
      | _ => mret c
      end
  end.

Definition last_connected_or_discovered (now : Instant) (c : NotConnectedPeer) : outcome Instant :=
  match nodes (ncp_state c) !! ncp_peer_id c with
  | None => mret now
  | Some node =>
      m ← index (node_sets node) (ncp_set c);
      mret match m with MS_NotConnected last_connected => last_connected | _ => now end
  end.

Definition try_outgoing (c : NotConnectedPeer) : outcome (result ConnectedPeer NotConnectedPeer) :=
  let st := ncp_state c in
  let set := ncp_set c in
  let peer_id := ncp_peer_id c in
  s ← index (sets st) set;
  let is_no_slot_occupy := bool_decide (peer_id ∈ no_slot_nodes s) in
  free ← has_free_outgoing_slot st set;
  if negb free && negb is_no_slot_occupy then mret (Err c)
  else
    match nodes st !! peer_id with
    | Some node =>
        node ← set_membership node set MS_Out;
        let st := with_nodes (<[peer_id := node]> (nodes st)) st in
        st ← (if is_no_slot_occupy then mret st
              else n ← u32_add (num_out s) 1; update_set st set (set_num_out n s));
        mret (Ok {| cp_state := st; cp_set := set; cp_peer_id := peer_id |})
    | None => Panicked DebugAssertion
    end.

Definition try_accept_incoming (c : NotConnectedPeer) :
    outcome (result ConnectedPeer NotConnectedPeer) :=
  let st := ncp_state c in
  let set := ncp_set c in
  let peer_id := ncp_peer_id c in
  s ← index (sets st) set;
  let is_no_slot_occupy := bool_decide (peer_id ∈ no_slot_nodes s) in
  if (max_in s <=? num_in s) && negb is_no_slot_occupy then mret (Err c)
  else
    match nodes st !! peer_id with
    | Some node =>
        node ← set_membership node set MS_In;
        let st := with_nodes (<[peer_id := node]> (nodes st)) st in
        st ← (if is_no_slot_occupy then mret st
              else n ← u32_add (num_in s) 1; update_set st set (set_num_in n s));
        mret (Ok {| cp_state := st; cp_set := set; cp_peer_id := peer_id |})
    | None => Panicked DebugAssertion
    end.

Definition NotConnectedPeer_reputation (c : NotConnectedPeer) : Z :=
  match nodes (ncp_state c) !! ncp_peer_id c with Some p => node_reputation p | None => 0 end.

(** A node that carries no information any more: no reputation, no set. *)
Definition collectable (n : Node) : bool :=
  (node_reputation n =? 0) && forallb is_not_member (node_sets n).

Definition forget_peer (c : NotConnectedPeer) : outcome UnknownPeer :=
  let st := ncp_state c in
  match nodes st !! ncp_peer_id c with
  | Some node =>
      m ← index (node_sets node) (ncp_set c);
      _ ← debug_assert (negb (is_not_member m));
      node ← set_membership node (ncp_set c) MS_NotMember;
      let ns := if collectable node then delete (ncp_peer_id c) (nodes st)
                else <[ncp_peer_id c := node]> (nodes st) in
      mret {| up_parent := with_nodes ns st; up_set := ncp_set c; up_peer_id := ncp_peer_id c |}
  | None => Panicked DebugAssertion
  end.

(** ** [impl UnknownPeer] *)

Definition discover (now : Instant) (c : UnknownPeer) : outcome NotConnectedPeer :=
  let st := up_parent c in
  let node := default (Node_new (length (sets st))) (nodes st !! up_peer_id c) in
  node ← set_membership node (up_set c) (MS_NotConnected now);
  mret {| ncp_state := with_nodes (<[up_peer_id c := node]> (nodes st)) st;
          ncp_set := up_set c; ncp_peer_id := up_peer_id c |}.

(** ** [impl Reputation] *)

Definition Reputation_reputation (r : Reputation) : outcome Z :=
  n ← expect (nodes (rep_state r) !! rep_peer_id r); mret (node_reputation n).

Definition Reputation_set_reputation (value : Z) (r : Reputation) : outcome Reputation :=
  let st := rep_state r in
  n ← expect (nodes st !! rep_peer_id r);
  mret {| rep_state := with_nodes (<[rep_peer_id r := with_reputation value n]> (nodes st)) st;
          rep_peer_id := rep_peer_id r |}.

Definition Reputation_add_reputation (modifier : Z) (r : Reputation) : outcome Reputation :=
  old ← Reputation_reputation r;
  Reputation_set_reputation (i32_saturating_add old modifier) r.

(** [Drop for Reputation]: an entry that carries no information is removed. *)
Definition Reputation_drop (r : Reputation) : outcome PeersState :=
  let st := rep_state r in
  n ← expect (nodes st !! rep_peer_id r);
  mret (if collectable n then with_nodes (delete (rep_peer_id r) (nodes st)) st else st).

(** ** Iterations over the known peers *)

Context `{!HashOrder PeerId}.

Definition peers (st : PeersState) : list PeerId := hash_keys (dom (nodes st)).

(** [Iterator::filter] with a closure that may panic. *)
Fixpoint filter_panicking {A} (f : A → outcome bool) (l : list A) : outcome (list A) :=
  match l with
  | [] => mret []
  | a :: l' =>
      b ← f a;
      rest ← filter_panicking f l';
      mret (if b : bool then a :: rest else rest)
  end.

Definition connected_peers (st : PeersState) (set : nat) : outcome (list PeerId) :=
  _ ← rust_assert (bool_decide (set < length (sets st))%nat);
  l ← filter_panicking (λ pn, is_connected <$> index (node_sets pn.2) set) (hash_iter (nodes st));
  mret (l.*1).

(** The fold of [highest_not_connected_peer]: the current best is kept unless
    the next node has a strictly greater reputation. *)
Definition keep_highest (cur : option (PeerId * Node)) (to_try : PeerId * Node) :
    option (PeerId * Node) :=
  match cur with
  | Some c => if node_reputation to_try.2 <=? node_reputation c.2 then Some c else Some to_try
  | None => Some to_try
  end.

Definition highest_not_connected_peer (st : PeersState) (set : nat) :
    outcome (option NotConnectedPeer) :=
  _ ← rust_assert (bool_decide (set < length (sets st))%nat);
  l ← filter_panicking (λ pn, is_not_connected <$> index (node_sets pn.2) set)
        (hash_iter (nodes st));
  mret ((λ pn, {| ncp_state := st; ncp_set := set; ncp_peer_id := pn.1 |}) <$>
        foldl keep_highest None l).

End peersstate.

Arguments SetInfo PeerId {_ _}.
Arguments PeersState PeerId {_ _}.
Arguments ConnectedPeer PeerId {_ _}.
Arguments NotConnectedPeer PeerId {_ _}.
Arguments UnknownPeer PeerId {_ _}.
Arguments Peer PeerId {_ _}.
Arguments Reputation PeerId {_ _}.

(** ** Abstract specification

    What the rest of the program may rely on: one table of members per set, a
    set of peers that take no slot, slot limits, and a table of non-zero
    reputations. There are no counters, no per-node vectors and no garbage
    collection here: the number of slots in use is the number of members
    that take one. *)
Module Spec.
Section spec.
Context {PeerId : Type} `{Countable PeerId}.

Record table := mkTable {
  members : gmap PeerId MembershipState;
  slotless : gset PeerId;
  limit_in : Z;
  limit_out : Z;
}.

Record t := mk {
  tables : list table;
  reputations : gmap PeerId Z;
}.

(** Slots in use, by direction. *)
Definition takes_slot (d : MembershipState) (T : table) (p : PeerId) (m : MembershipState) : bool :=
  bool_decide (m = d) && bool_decide (p ∉ slotless T).
Definition occupied (d : MembershipState) (T : table) : Z :=
  map_count (takes_slot d T) (members T).

Definition set_members (ms : gmap PeerId MembershipState) (T : table) : table :=
  {| members := ms; slotless := slotless T; limit_in := limit_in T; limit_out := limit_out T |}.
Definition set_slotless (x : gset PeerId) (T : table) : table :=
  {| members := members T; slotless := x; limit_in := limit_in T; limit_out := limit_out T |}.

Definition on_table (i : nat) (f : table → table) (a : t) : t :=
  {| tables := alter f i (tables a); reputations := reputations a |}.

(** Peer [p] becomes [m] in set [i]; [MS_NotMember] means it leaves the set. *)
Definition put_member (p : PeerId) (m : MembershipState) (T : table) : table :=
  set_members (if is_not_member m then delete p (members T) else <[p := m]> (members T)) T.
Definition assign (i : nat) (p : PeerId) (m : MembershipState) : t → t :=
  on_table i (put_member p m).

Definition reserve (i : nat) (p : PeerId) : t → t :=
  on_table i (λ T, set_slotless ({[p]} ∪ slotless T) T).
Definition unreserve (i : nat) (p : PeerId) : t → t :=
  on_table i (λ T, set_slotless (slotless T ∖ {[p]}) T).

Definition set_reputation (p : PeerId) (r : Z) (a : t) : t :=
  {| tables := tables a;
     reputations := if r =? 0 then delete p (reputations a) else <[p := r]> (reputations a) |}.

Definition member (a : t) (i : nat) (p : PeerId) : option MembershipState :=
  T ← tables a !! i; members T !! p.
Definition reputation (a : t) (p : PeerId) : Z := default 0 (reputations a !! p).
Definition is_slotless (a : t) (i : nat) (p : PeerId) : bool :=
  match tables a !! i with Some T => bool_decide (p ∈ slotless T) | None => false end.

(** May [p] be connected in direction [d] in set [i]? *)
Definition may_connect (d : MembershipState) (limit : table → Z) (a : t) (i : nat) (p : PeerId) : bool :=
  match tables a !! i with
  | Some T => bool_decide (p ∈ slotless T) || (occupied d T <? limit T)
  | None => false
  end.
End spec.
Arguments table PeerId {_ _}.
Arguments t PeerId {_ _}.
End Spec.

(** ** Abstraction and well-formedness *)
Section refinement.
Context {PeerId : Type} `{Countable PeerId}.
Implicit Types (st : PeersState PeerId) (p : PeerId) (i : nat) (s : SetInfo PeerId) (n : Node).

Definition member_of (i : nat) (n : Node) : option MembershipState :=
  m ← node_sets n !! i; if is_not_member m then None else Some m.
Definition nonzero_reputation (n : Node) : option Z :=
  if node_reputation n =? 0 then None else Some (node_reputation n).

Definition abs_table (ns : gmap PeerId Node) (i : nat) (s : SetInfo PeerId) : Spec.table PeerId :=
  {| Spec.members := omap (member_of i) ns;
     Spec.slotless := no_slot_nodes s;
     Spec.limit_in := max_in s;
     Spec.limit_out := max_out s |}.

Definition abs (st : PeersState PeerId) : Spec.t PeerId :=
  {| Spec.tables := imap (abs_table (nodes st)) (sets st);
     Spec.reputations := omap nonzero_reputation (nodes st) |}.

(** [n] counts against the slots of set [i] in direction [d]. *)
Definition counts (d : MembershipState) (i : nat) (s : SetInfo PeerId) (p : PeerId) (n : Node) : bool :=
  bool_decide (node_sets n !! i = Some d) && bool_decide (p ∉ no_slot_nodes s).

Record node_wf (k : nat) (n : Node) : Prop := {
  node_wf_length : length (node_sets n) = k;
  node_wf_reputation : is_i32 (node_reputation n);
}.

Record set_wf (ns : gmap PeerId Node) (i : nat) (s : SetInfo PeerId) : Prop := {
  set_wf_in : num_in s = map_count (counts MS_In i s) ns;
  set_wf_out : num_out s = map_count (counts MS_Out i s) ns;
  set_wf_num_in : is_u32 (num_in s);
  set_wf_num_out : is_u32 (num_out s);
  set_wf_max_in : is_u32 (max_in s);
  set_wf_max_out : is_u32 (max_out s);
}.

(** The representation invariant. *)
Record wf (st : PeersState PeerId) : Prop := {
  wf_nodes : map_Forall (λ _, node_wf (length (sets st))) (nodes st);
  wf_sets : ∀ i s, sets st !! i = Some s → set_wf (nodes st) i s;
}.

(** No entry of [nodes] is kept without need. *)
Definition tidy (st : PeersState PeerId) : Prop :=
  map_Forall (λ _ n, collectable n = false) (nodes st).

(** *** Lookups through the abstraction *)

Lemma abs_tables_lookup st i : Spec.tables (abs st) !! i = abs_table (nodes st) i <$> sets st !! i.
Proof. simpl. apply list_lookup_imap. Qed.

Lemma member_of_new k i : member_of i (Node_new k) = None.
Proof.
  unfold member_of, Node_new; simpl.
  destruct (replicate k MS_NotMember !! i) eqn:E; simpl; [|done].
  by apply lookup_replicate in E as [-> _].
Qed.

(** The node of a peer, or the node the code would create for it. *)
Definition node_at (st : PeersState PeerId) (p : PeerId) : Node :=
  default (Node_new (length (sets st))) (nodes st !! p).

Lemma node_at_wf st p : wf st → node_wf (length (sets st)) (node_at st p).
Proof.
  intros Hwf. unfold node_at. destruct (nodes st !! p) eqn:E; simpl.
  - by eapply (wf_nodes _ Hwf).
  - split; simpl; [by rewrite length_replicate|]. unfold is_i32, i32_min, i32_max. lia.
Qed.

Lemma node_at_lookup st p i s :
  wf st → sets st !! i = Some s → ∃ m, node_sets (node_at st p) !! i = Some m.
Proof.
  intros Hwf Hi. apply lookup_lt_is_Some. rewrite (node_wf_length _ _ (node_at_wf st p Hwf)).
  by eapply lookup_lt_Some.
Qed.

Lemma node_sets_lookup st p n i s :
  wf st → nodes st !! p = Some n → sets st !! i = Some s → ∃ m, node_sets n !! i = Some m.
Proof.
  intros Hwf Hn Hi. destruct (node_at_lookup st p i s Hwf Hi) as [m Hm].
  unfold node_at in Hm. rewrite Hn in Hm. eauto.
Qed.

Lemma member_abs st i s p :
  sets st !! i = Some s →
  Spec.member (abs st) i p = (n ← nodes st !! p; member_of i n).
Proof.
  intros Hi. unfold Spec.member. rewrite abs_tables_lookup, Hi; simpl.
  rewrite lookup_omap. done.
Qed.

Lemma reputation_abs st p :
  Spec.reputation (abs st) p = match nodes st !! p with Some n => node_reputation n | None => 0 end.
Proof.
  unfold Spec.reputation; simpl. rewrite lookup_omap.
  destruct (nodes st !! p) as [n|]; simpl; [|done].
  unfold nonzero_reputation. destruct (node_reputation n =? 0) eqn:E; simpl; lia.
Qed.

Lemma slotless_abs st i s p :
  sets st !! i = Some s → Spec.is_slotless (abs st) i p = bool_decide (p ∈ no_slot_nodes s).
Proof. intros Hi. unfold Spec.is_slotless. by rewrite abs_tables_lookup, Hi. Qed.

(** The counters are the numbers of occupied slots of the specification. *)
Lemma map_count_omap {A B} (f : A → option B) (P : PeerId → B → bool) (m : gmap PeerId A) :
  map_count P (omap f m) = map_count (λ p a, match f a with Some b => P p b | None => false end) m.
Proof.
  induction m as [|p a m Hp _ IH] using map_first_key_ind.
  - by rewrite omap_empty, !map_count_empty.
  - rewrite map_count_insert_new by done. rewrite <- IH, omap_insert.
    destruct (f a) as [b|].
    + rewrite map_count_insert_new; [lia|]. by rewrite lookup_omap, Hp.
    + rewrite delete_id; [simpl; lia|]. by rewrite lookup_omap, Hp.
Qed.

Lemma occupied_abs (ns : gmap PeerId Node) i s d :
  d ≠ MS_NotMember →
  Spec.occupied d (abs_table ns i s) = map_count (counts d i s) ns.
Proof.
  intros Hd. unfold Spec.occupied; simpl. rewrite map_count_omap.
  apply map_count_ext. intros p n _. unfold member_of, counts, Spec.takes_slot; simpl.
  destruct (node_sets n !! i) as [m|]; simpl; [|done].
  destruct m; simpl; repeat case_bool_decide; naive_solver.
Qed.

(** *** One membership changes *)

Definition put (st : PeersState PeerId) (i : nat) (p : PeerId) (m : MembershipState)
    (s : SetInfo PeerId) : PeersState PeerId :=
  let n := node_at st p in
  {| nodes := <[p := {| node_sets := <[i := m]> (node_sets n);
                        node_reputation := node_reputation n |}]> (nodes st);
     sets := <[i := s]> (sets st) |}.

Definition slot_use (d : MembershipState) (s : SetInfo PeerId) (p : PeerId) (m : MembershipState) : Z :=
  Z.b2z (bool_decide (m = d) && bool_decide (p ∉ no_slot_nodes s)).

Lemma counts_new d k i s p : d ≠ MS_NotMember → counts d i s p (Node_new k) = false.
Proof.
  intros Hd. unfold counts, Node_new; simpl.
  rewrite bool_decide_eq_false_2; [done|]. intros [? _]%lookup_replicate. congruence.
Qed.

Lemma count_put st d i p s n' :
  d ≠ MS_NotMember →
  map_count (counts d i s) (<[p := n']> (nodes st)) =
    map_count (counts d i s) (nodes st) - Z.b2z (counts d i s p (node_at st p))
    + Z.b2z (counts d i s p n').
Proof.
  intros Hd. unfold node_at. destruct (nodes st !! p) as [n|] eqn:Hp; simpl.
  - by apply map_count_insert.
  - rewrite map_count_insert_new by done. rewrite counts_new by done. simpl. lia.
Qed.

Lemma counts_at d i s p n m :
  node_sets n !! i = Some m → Z.b2z (counts d i s p n) = slot_use d s p m.
Proof.
  intros Hm. unfold counts, slot_use. rewrite Hm. f_equal. f_equal.
  apply bool_decide_ext. naive_solver.
Qed.

Lemma set_wf_put st i p m m' s s' :
  wf st →
  sets st !! i = Some s →
  node_sets (node_at st p) !! i = Some m →
  no_slot_nodes s' = no_slot_nodes s → max_in s' = max_in s → max_out s' = max_out s →
  num_in s' = num_in s - slot_use MS_In s p m + slot_use MS_In s p m' →
  num_out s' = num_out s - slot_use MS_Out s p m + slot_use MS_Out s p m' →
  is_u32 (num_in s') → is_u32 (num_out s') →
  set_wf (nodes (put st i p m' s')) i s'.
Proof.
  intros Hwf Hi Hm Hns Hmi Hmo Hin Hout Huin Huout.
  pose proof (wf_sets _ Hwf i s Hi) as [Hci Hco _ _ Hmi' Hmo'].
  assert (∀ d, counts d i s' = counts d i s) as Hc by (intros; unfold counts; by rewrite Hns).
  assert (i < length (node_sets (node_at st p)))%nat by (by eapply lookup_lt_Some).
  split; rewrite ?Hmi, ?Hmo; try done; simpl; rewrite Hc, (count_put st _ i p) by done.
  - rewrite Hin, Hci, (counts_at _ _ _ _ _ m) by done.
    erewrite (counts_at _ _ _ _ {| node_sets := _ |}); [done|]. by apply list_lookup_insert_eq.
  - rewrite Hout, Hco, (counts_at _ _ _ _ _ m) by done.
    erewrite (counts_at _ _ _ _ {| node_sets := _ |}); [done|]. by apply list_lookup_insert_eq.
Qed.

Lemma set_wf_put_other st i j p m' s s' :
  wf st → j ≠ i → sets st !! j = Some s → set_wf (nodes (put st i p m' s')) j s.
Proof.
  intros Hwf Hne Hj. pose proof (wf_sets _ Hwf j s Hj) as [Hci Hco ????].
  assert (∀ d r, counts d j s p {| node_sets := <[i:=m']> (node_sets (node_at st p));
                                   node_reputation := r |}
                 = counts d j s p (node_at st p)) as Hsame.
  { intros d r. unfold counts; simpl. by rewrite list_lookup_insert_ne. }
  split; try done; simpl; rewrite (count_put st _ j p), Hsame by done; lia.
Qed.

Lemma wf_put st i p m m' s s' :
  wf st →
  sets st !! i = Some s →
  node_sets (node_at st p) !! i = Some m →
  no_slot_nodes s' = no_slot_nodes s → max_in s' = max_in s → max_out s' = max_out s →
  num_in s' = num_in s - slot_use MS_In s p m + slot_use MS_In s p m' →
  num_out s' = num_out s - slot_use MS_Out s p m + slot_use MS_Out s p m' →
  is_u32 (num_in s') → is_u32 (num_out s') →
  wf (put st i p m' s').
Proof.
  intros Hwf Hi Hm. intros. pose proof (node_at_wf st p Hwf) as [Hlen Hrep].
  split.
  - simpl. rewrite length_insert. apply map_Forall_insert_2; [|apply Hwf].
    split; simpl; [by rewrite length_insert|done].
  - intros j s0. simpl. destruct (decide (j = i)) as [->|Hne].
    + rewrite list_lookup_insert_eq by (by eapply lookup_lt_Some). intros [= <-].
      by apply (set_wf_put st i p m m' s s').
    + rewrite list_lookup_insert_ne by done. intros Hj. by apply (set_wf_put_other st i j p m' s0 s').
Qed.

Lemma abs_put st i p m' s s' :
  wf st → sets st !! i = Some s →
  no_slot_nodes s' = no_slot_nodes s → max_in s' = max_in s → max_out s' = max_out s →
  abs (put st i p m' s') = Spec.assign i p m' (abs st).
Proof.
  intros Hwf Hi Hns Hmi Hmo.
  destruct (node_at_lookup st p i s Hwf Hi) as [m Hm].
  assert (i < length (node_sets (node_at st p)))%nat by (by eapply lookup_lt_Some).
  assert (∀ j, omap (member_of j) (nodes st) !! p = member_of j (node_at st p)) as Hold.
  { intros j. rewrite lookup_omap. unfold node_at. destruct (nodes st !! p); simpl; [done|].
    by rewrite member_of_new. }
  unfold abs, Spec.assign, Spec.on_table. f_equal.
  - apply list_eq. intros j. rewrite list_lookup_imap. simpl.
    destruct (decide (i = j)) as [<-|Hne].
    + rewrite list_lookup_insert_eq by (by eapply lookup_lt_Some).
      rewrite list_lookup_alter_eq, list_lookup_imap, Hi. simpl.
      unfold Spec.put_member, Spec.set_members, abs_table; simpl.
      rewrite Hns, Hmi, Hmo. do 2 f_equal. rewrite omap_insert.
      unfold member_of at 1; simpl. rewrite list_lookup_insert_eq by done. simpl.
      by destruct (is_not_member m').
    + rewrite list_lookup_insert_ne by done. rewrite list_lookup_alter_ne, list_lookup_imap by done.
      destruct (sets st !! j) as [sj|]; simpl; [|done]. unfold abs_table.
      erewrite (map_eq (omap _ (<[p:=_]> _))); [done|]. intros q. destruct (decide (p = q)) as [<-|Hpq].
      * rewrite Hold, lookup_omap, lookup_insert_eq; simpl. unfold member_of; simpl.
        by rewrite list_lookup_insert_ne.
      * by rewrite !lookup_omap, lookup_insert_ne.
  - simpl. apply map_eq. intros q. rewrite !lookup_omap. destruct (decide (p = q)) as [<-|Hpq].
    + rewrite lookup_insert_eq; simpl. unfold node_at.
      by destruct (nodes st !! p).
    + by rewrite lookup_insert_ne.
Qed.

(** *** The slotless peers of a set change *)

Lemma wf_abs_slotless st i p s s' x :
  wf st → sets st !! i = Some s →
  no_slot_nodes s' = x → (∀ q, q ≠ p → q ∈ x ↔ q ∈ no_slot_nodes s) →
  max_in s' = max_in s → max_out s' = max_out s →
  num_in s' = num_in s + (match nodes st !! p with
                          | Some n => Z.b2z (counts MS_In i s' p n) - Z.b2z (counts MS_In i s p n)
                          | None => 0 end) →
  num_out s' = num_out s + (match nodes st !! p with
                            | Some n => Z.b2z (counts MS_Out i s' p n) - Z.b2z (counts MS_Out i s p n)
                            | None => 0 end) →
  is_u32 (num_in s') → is_u32 (num_out s') →
  wf {| nodes := nodes st; sets := <[i := s']> (sets st) |} ∧
  abs {| nodes := nodes st; sets := <[i := s']> (sets st) |} =
    Spec.on_table i (Spec.set_slotless x) (abs st).
Proof.
  intros Hwf Hi Hns Hq Hmi Hmo Hin Hout Huin Huout.
  assert (i < length (sets st))%nat as Hlt by (by eapply lookup_lt_Some).
  pose proof (wf_sets _ Hwf i s Hi) as [Hci Hco _ _ Hmi' Hmo'].
  assert (∀ d q n, q ≠ p → counts d i s q n = counts d i s' q n) as Hsame.
  { intros d q n Hne. unfold counts. f_equal. apply bool_decide_ext. rewrite Hns, Hq; done. }
  split; [split|].
  - simpl. rewrite length_insert. apply Hwf.
  - intros j s0. simpl. destruct (decide (j = i)) as [->|Hne].
    + rewrite list_lookup_insert_eq by done. intros [= <-]. split; rewrite ?Hmi, ?Hmo; try done.
      * rewrite (map_count_change (counts MS_In i s) _ _ p), <- Hci by auto. done.
      * rewrite (map_count_change (counts MS_Out i s) _ _ p), <- Hco by auto. done.
    + rewrite list_lookup_insert_ne by done. apply (wf_sets _ Hwf).
  - unfold abs, Spec.on_table; simpl. f_equal. apply list_eq. intros j.
    rewrite list_lookup_imap. destruct (decide (i = j)) as [<-|Hne].
    + rewrite list_lookup_insert_eq, list_lookup_alter_eq, list_lookup_imap, Hi by done. simpl.
      unfold abs_table, Spec.set_slotless; simpl. by rewrite Hns, Hmi, Hmo.
    + by rewrite list_lookup_insert_ne, list_lookup_alter_ne, list_lookup_imap.
Qed.

(** *** A reputation changes, or a node without information goes away *)

Definition put_reputation (st : PeersState PeerId) (p : PeerId) (r : Z) : PeersState PeerId :=
  with_nodes (<[p := with_reputation r (node_at st p)]> (nodes st)) st.

Lemma wf_same_sets st ns :
  wf st → map_Forall (λ _, node_wf (length (sets st))) ns →
  (∀ d i s, d ≠ MS_NotMember → sets st !! i = Some s →
     map_count (counts d i s) ns = map_count (counts d i s) (nodes st)) →
  wf (with_nodes ns st).
Proof.
  intros Hwf Hns Hc. split; [done|]. intros i s Hi.
  destruct (wf_sets _ Hwf i s Hi). split; try done; simpl; by rewrite Hc.
Qed.

Lemma abs_same_members st ns a' :
  (∀ p i, (n ← ns !! p; member_of i n) = (n ← nodes st !! p; member_of i n)) →
  omap nonzero_reputation ns = a' →
  abs (with_nodes ns st) = {| Spec.tables := Spec.tables (abs st); Spec.reputations := a' |}.
Proof.
  intros Hm Hr. unfold abs; simpl. rewrite Hr. f_equal. apply list_eq. intros i.
  rewrite !list_lookup_imap. destruct (sets st !! i) as [s|]; simpl; [|done].
  unfold abs_table. erewrite (map_eq (omap _ ns)); [done|].
  intros p. rewrite !lookup_omap. apply Hm.
Qed.

Lemma wf_put_reputation st p r : wf st → is_i32 r → wf (put_reputation st p r).
Proof.
  intros Hwf Hr. destruct (node_at_wf st p Hwf) as [Hlen _]. apply wf_same_sets; [done| |].
  - apply map_Forall_insert_2; [by split|apply Hwf].
  - intros d i s Hd Hi. rewrite count_put by done. unfold counts, with_reputation; simpl. lia.
Qed.

Lemma abs_put_reputation st p r :
  abs (put_reputation st p r) = Spec.set_reputation p r (abs st).
Proof.
  unfold Spec.set_reputation. apply abs_same_members.
  - intros q i. destruct (decide (p = q)) as [<-|Hne]; [|by rewrite lookup_insert_ne].
    rewrite lookup_insert_eq; simpl. unfold member_of, with_reputation, node_at; simpl.
    destruct (nodes st !! p) as [n|]; simpl; [done|].
    pose proof (member_of_new (length (sets st)) i) as Hnew. by unfold member_of in Hnew.
  - apply map_eq. intros q. rewrite lookup_omap. unfold Spec.set_reputation; simpl.
    destruct (decide (p = q)) as [<-|Hne].
    + rewrite lookup_insert_eq; simpl. unfold nonzero_reputation; simpl.
      destruct (r =? 0); by rewrite ?lookup_delete_eq, ?lookup_insert_eq.
    + rewrite lookup_insert_ne by done.
      by destruct (r =? 0); rewrite ?lookup_delete_ne, ?lookup_insert_ne, lookup_omap.
Qed.

Lemma collectable_member_of n i : collectable n = true → member_of i n = None.
Proof.
  unfold collectable. intros [_ Hall]%andb_prop. unfold member_of.
  destruct (node_sets n !! i) as [m|] eqn:E; simpl; [|done].
  rewrite forallb_forall in Hall. rewrite Hall; [done|].
  apply list_elem_of_In. by eapply list_elem_of_lookup_2.
Qed.

Lemma collectable_reputation n : collectable n = true → nonzero_reputation n = None.
Proof. unfold collectable, nonzero_reputation. intros [-> _]%andb_prop. done. Qed.

Lemma collectable_counts n d i s p :
  d ≠ MS_NotMember → collectable n = true → counts d i s p n = false.
Proof.
  intros Hd Hc. pose proof (collectable_member_of n i Hc) as Hm. unfold member_of in Hm.
  unfold counts. rewrite bool_decide_eq_false_2; [done|]. intros E. rewrite E in Hm. by destruct d.
Qed.

Lemma collect_wf st p n :
  wf st → nodes st !! p = Some n → collectable n = true →
  wf (with_nodes (delete p (nodes st)) st).
Proof.
  intros Hwf Hp Hc. apply wf_same_sets; [done|by apply map_Forall_delete, Hwf|].
  intros d i s Hd _. rewrite (map_count_delete _ _ _ n) by done.
  rewrite collectable_counts by done. simpl. lia.
Qed.

Lemma collect_abs st p n :
  nodes st !! p = Some n → collectable n = true →
  abs (with_nodes (delete p (nodes st)) st) = abs st.
Proof.
  intros Hp Hc. erewrite abs_same_members; [done| |].
  - intros q i. destruct (decide (p = q)) as [<-|Hne]; [|by rewrite lookup_delete_ne].
    rewrite lookup_delete_eq, Hp; simpl. by rewrite collectable_member_of.
  - apply map_eq. intros q. rewrite !lookup_omap.
    destruct (decide (p = q)) as [<-|Hne]; [|by rewrite lookup_delete_ne].
    rewrite lookup_delete_eq, Hp; simpl. by rewrite collectable_reputation.
Qed.

(** *** Representation *)

(** [st] is a well-formed, garbage-free representation of [a]. *)
Record represents (st : PeersState PeerId) (a : Spec.t PeerId) : Prop := {
  rep_wf : wf st;
  rep_tidy : tidy st;
  rep_abs : abs st = a;
}.

Lemma represents_table st a i T :
  represents st a → Spec.tables a !! i = Some T →
  ∃ s, sets st !! i = Some s ∧ T = abs_table (nodes st) i s.
Proof.
  intros [_ _ <-] HT. rewrite abs_tables_lookup in HT.
  destruct (sets st !! i) as [s|]; simplify_eq/=. eauto.
Qed.

Lemma represents_num_sets st a : represents st a → num_sets st = length (Spec.tables a).
Proof. intros [_ _ <-]. unfold num_sets; simpl. by rewrite length_imap. Qed.

Lemma member_of_not_member i n m : member_of i n = Some m → is_not_member m = false.
Proof.
  unfold member_of. destruct (node_sets n !! i) as [m'|]; simpl; [|done].
  destruct (is_not_member m') eqn:E; [done|]. by intros [= ->].
Qed.

Lemma member_of_node_sets i n m : member_of i n = Some m → node_sets n !! i = Some m.
Proof.
  unfold member_of. destruct (node_sets n !! i) as [m'|]; simpl; [|done].
  by destruct (is_not_member m').
Qed.

(** A member of the specification is a node of the code. *)
Lemma represents_member st a i p m :
  represents st a → Spec.member a i p = Some m →
  ∃ s n, sets st !! i = Some s ∧ nodes st !! p = Some n ∧ node_sets n !! i = Some m ∧
         is_not_member m = false.
Proof.
  intros Hr Hm. unfold Spec.member in Hm.
  destruct (Spec.tables a !! i) as [T|] eqn:HT; simpl in Hm; [|done].
  destruct (represents_table _ _ _ _ Hr HT) as (s & Hi & ->). simpl in Hm.
  rewrite lookup_omap in Hm. destruct (nodes st !! p) as [n|] eqn:Hn; simpl in Hm; [|done].
  exists s, n. split_and!; eauto using member_of_node_sets, member_of_not_member.
Qed.

Lemma tidy_put st i p m' s :
  tidy st → is_not_member m' = false → (i < length (node_sets (node_at st p)))%nat →
  tidy (put st i p m' s).
Proof.
  intros Ht Hm Hlt. apply map_Forall_insert_2; [|done].
  unfold collectable; simpl. apply andb_false_iff; right.
  destruct (forallb _ _) eqn:E; [|done]. rewrite forallb_forall in E.
  rewrite (E m') in Hm; [done|]. apply list_elem_of_In. eapply list_elem_of_lookup_2.
  by apply list_lookup_insert_eq.
Qed.

Lemma put_Some st i p n m s :
  nodes st !! p = Some n →
  put st i p m s =
    {| nodes := <[p := {| node_sets := <[i := m]> (node_sets n); node_reputation := node_reputation n |}]> (nodes st);
       sets := <[i := s]> (sets st) |}.
Proof. intros Hn. unfold put, node_at. by rewrite Hn. Qed.

Lemma put_same_set st i p m s :
  sets st !! i = Some s →
  put st i p m s =
    with_nodes (<[p := {| node_sets := <[i := m]> (node_sets (node_at st p));
                          node_reputation := node_reputation (node_at st p) |}]> (nodes st)) st.
Proof. intros Hi. unfold put, with_nodes. by rewrite (list_insert_id _ _ _ Hi). Qed.

Lemma slot_use_bounds d s p m : 0 ≤ slot_use d s p m ≤ 1.
Proof. unfold slot_use. destruct (_ && _); simpl; lia. Qed.

(** A connected member that takes a slot is counted. *)
Lemma counter_pos st i s p n :
  wf st → sets st !! i = Some s → nodes st !! p = Some n → p ∉ no_slot_nodes s →
  (node_sets n !! i = Some MS_In → 1 ≤ num_in s) ∧ (node_sets n !! i = Some MS_Out → 1 ≤ num_out s).
Proof.
  intros Hwf Hi Hn Hp. destruct (wf_sets _ Hwf i s Hi) as [-> -> _ _ _ _].
  split; intros Hm; eapply map_count_pos; try exact Hn; unfold counts; rewrite Hm;
    by rewrite !bool_decide_eq_true_2.
Qed.

(** The generic step: the membership of [p] in set [i] goes from [m] to [m'],
    and the counters follow. *)
Lemma represents_put st a i p m m' s s' :
  represents st a →
  sets st !! i = Some s →
  node_sets (node_at st p) !! i = Some m →
  is_not_member m' = false →
  no_slot_nodes s' = no_slot_nodes s → max_in s' = max_in s → max_out s' = max_out s →
  num_in s' = num_in s - slot_use MS_In s p m + slot_use MS_In s p m' →
  num_out s' = num_out s - slot_use MS_Out s p m + slot_use MS_Out s p m' →
  is_u32 (num_in s') → is_u32 (num_out s') →
  represents (put st i p m' s') (Spec.assign i p m' a).
Proof.
  intros [Hwf Ht <-] Hi Hm Hm'. intros. split.
  - by apply (wf_put st i p m m' s s').
  - apply tidy_put; [done..|]. by eapply lookup_lt_Some.
  - by apply (abs_put st i p m' s s').
Qed.

(** ** Every operation implements the specification *)

Lemma PeersState_new_represents (cfg : list SetConfig) :
  Forall (λ c, is_u32 (in_peers c) ∧ is_u32 (out_peers c)) cfg →
  represents (PeersState_new cfg)
    {| Spec.tables := (λ c, {| Spec.members := ∅; Spec.slotless := ∅;
                               Spec.limit_in := in_peers c; Spec.limit_out := out_peers c |}) <$> cfg;
       Spec.reputations := ∅ |}.
Proof.
  intros Hcfg. split.
  - split; [by apply map_Forall_empty|]. intros i s. simpl. rewrite list_lookup_fmap.
    destruct (cfg !! i) as [c|] eqn:Hc; simpl; [|done]. intros [= <-].
    rewrite Forall_lookup in Hcfg. destruct (Hcfg _ _ Hc).
    split; simpl; rewrite ?map_count_empty; try done; unfold is_u32, u32_max; lia.
  - by apply map_Forall_empty.
  - unfold abs, PeersState_new; simpl. f_equal. apply list_eq. intros i.
    rewrite list_lookup_imap, !list_lookup_fmap. destruct (cfg !! i); simpl; [|done].
    unfold abs_table; simpl. by rewrite omap_empty.
Qed.

Lemma peer_spec st a i p :
  represents st a → (i < length (Spec.tables a))%nat →
  peer st i p = Done
    match Spec.member a i p with
    | None => Peer_Unknown {| up_parent := st; up_set := i; up_peer_id := p |}
    | Some m => if is_connected m
                then Peer_Connected {| cp_state := st; cp_set := i; cp_peer_id := p |}
                else Peer_NotConnected {| ncp_state := st; ncp_set := i; ncp_peer_id := p |}
    end.
Proof.
  intros Hr Hlt. rewrite <- (represents_num_sets _ _ Hr) in Hlt.
  destruct (lookup_lt_is_Some_2 (sets st) i Hlt) as [s Hi].
  unfold peer, rust_assert. rewrite bool_decide_eq_true_2 by done. simpl.
  rewrite <- (rep_abs _ _ Hr), (member_abs st i s p Hi).
  destruct (nodes st !! p) as [n|] eqn:Hn; simpl; [|done].
  destruct (node_sets_lookup st p n i s (rep_wf _ _ Hr) Hn Hi) as [m Hm].
  unfold index, member_of. rewrite Hm. simpl. by destruct m.
Qed.

Lemma slot_use_slotless d s p m : p ∈ no_slot_nodes s → slot_use d s p m = 0.
Proof. intros. unfold slot_use. rewrite (bool_decide_eq_false_2 (p ∉ _)) by auto. by rewrite andb_false_r. Qed.

Lemma slot_use_slot d s p m : p ∉ no_slot_nodes s → slot_use d s p m = Z.b2z (bool_decide (m = d)).
Proof. intros. unfold slot_use. rewrite (bool_decide_eq_true_2 (p ∉ _)) by auto. by rewrite andb_true_r. Qed.

(** Close an arithmetic goal about counters and slots. *)
Ltac slot_arith :=
  rewrite ?slot_use_slot by done; simpl; unfold is_u32, u32_max in *;
  repeat case_bool_decide; simplify_eq/=; lia.

Lemma set_wf_u32 st i s :
  wf st → sets st !! i = Some s → is_u32 (num_in s) ∧ is_u32 (num_out s) ∧ is_u32 (max_in s) ∧ is_u32 (max_out s).
Proof. intros Hwf Hi. by destruct (wf_sets _ Hwf i s Hi). Qed.

(** The node and the set behind a member of the specification. *)
Ltac known_peer Hr Hm :=
  lazymatch type of Hr with
  | represents ?st _ =>
    lazymatch type of Hm with
    | Spec.member _ ?i ?p = Some ?m =>
      let s := fresh "s" in let n := fresh "n" in
      destruct (represents_member _ _ _ _ _ Hr Hm) as (s & n & Hi & Hn & Hmi & Hnm);
      pose proof (rep_wf _ _ Hr) as Hwf;
      pose proof (set_wf_u32 st i s Hwf Hi) as (Hu1 & Hu2 & Hu3 & Hu4);
      assert (node_at st p = n) as Hat by (unfold node_at; by rewrite Hn)
    end
  end.

Lemma disconnect_spec now st a i p m :
  represents st a → Spec.member a i p = Some m → is_connected m = true →
  runs (disconnect now {| cp_state := st; cp_set := i; cp_peer_id := p |}) (λ c,
    ncp_set c = i ∧ ncp_peer_id c = p ∧
    represents (ncp_state c) (Spec.assign i p (MS_NotConnected now) a)).
Proof.
  intros Hr Hm Hc. known_peer Hr Hm.
  unfold disconnect; simpl. apply runs_bind. eapply runs_index; [exact Hi|]. rewrite Hn.
  apply runs_bind. case_bool_decide as Hp; simpl.
  - apply runs_bind. unfold set_membership. apply runs_bind. apply runs_index_set; [by eauto|].
    simpl. split_and!; [done..|]. rewrite <- Hat, <- (put_same_set st i p _ s Hi).
    apply (represents_put st a i p m _ s s); rewrite ?Hat; try done;
      rewrite !slot_use_slotless by done; lia.
  - pose proof (counter_pos st i s p n Hwf Hi Hn Hp) as [Hpi Hpo].
    apply runs_bind. eapply runs_index; [exact Hmi|].
    unfold u32_max, is_u32 in *.
    destruct m; try done; [specialize (Hpi Hmi)|specialize (Hpo Hmi)];
      (apply runs_bind, runs_u32_sub; [done|]);
      unfold update_set; (apply runs_bind, runs_index_set; [by eauto|]); simpl;
      apply runs_bind; unfold set_membership; apply runs_bind;
      (apply runs_index_set; [by eauto|]); simpl; (split_and!; [done..|]);
      unfold with_nodes; simpl; rewrite <- (put_Some st i p n _ _ Hn);
      [apply (represents_put st a i p MS_In _ s)|apply (represents_put st a i p MS_Out _ s)];
      rewrite ?Hat; try done; slot_arith.
Qed.

(** Both ways of connecting a known peer. The slot limit applies to every peer
    that takes a slot, and the check is on the number of slots in use. *)
Lemma try_accept_incoming_spec st a i p m :
  represents st a → Spec.member a i p = Some m → is_connected m = false →
  runs (try_accept_incoming {| ncp_state := st; ncp_set := i; ncp_peer_id := p |}) (λ r,
    if Spec.may_connect MS_In Spec.limit_in a i p then
      ∃ c, r = Ok c ∧ cp_set c = i ∧ cp_peer_id c = p ∧
           represents (cp_state c) (Spec.assign i p MS_In a)
    else r = Err {| ncp_state := st; ncp_set := i; ncp_peer_id := p |}).
Proof.
  intros Hr Hm Hc. known_peer Hr Hm.
  assert (Spec.may_connect MS_In Spec.limit_in a i p =
          bool_decide (p ∈ no_slot_nodes s) || (num_in s <? max_in s)) as ->.
  { unfold Spec.may_connect. rewrite <- (rep_abs _ _ Hr), abs_tables_lookup, Hi; simpl.
    by rewrite occupied_abs, <- (set_wf_in _ _ _ (wf_sets _ Hwf i s Hi)). }
  unfold try_accept_incoming; simpl. apply runs_bind. eapply runs_index; [exact Hi|].
  case_bool_decide as Hp; simpl; rewrite ?andb_false_r, ?andb_true_r; simpl.
  - rewrite Hn. apply runs_bind. unfold set_membership. apply runs_bind, runs_index_set; [by eauto|].
    simpl. eexists. split_and!; [done..|]. simpl. rewrite <- Hat, <- (put_same_set st i p _ s Hi).
    apply (represents_put st a i p m _ s s); rewrite ?Hat; try done;
      rewrite !slot_use_slotless by done; lia.
  - destruct (Z.leb_spec (max_in s) (num_in s)) as [Hle|Hlt].
    { rewrite (proj2 (Z.ltb_ge _ _)) by done. by apply runs_ret. }
    rewrite (proj2 (Z.ltb_lt _ _)) by done. rewrite Hn.
    unfold is_u32, u32_max in *.
    apply runs_bind. unfold set_membership. apply runs_bind, runs_index_set; [by eauto|]. simpl.
    apply runs_bind, runs_bind, runs_u32_add; [unfold u32_max; lia|].
    unfold update_set. apply runs_bind, runs_index_set; [by eauto|]. simpl.
    eexists. split_and!; [done..|]. simpl. rewrite <- (put_Some st i p n _ _ Hn).
    apply (represents_put st a i p m _ s); rewrite ?Hat; try done; slot_arith.
Qed.

Lemma try_outgoing_spec st a i p m :
  represents st a → Spec.member a i p = Some m → is_connected m = false →
  runs (try_outgoing {| ncp_state := st; ncp_set := i; ncp_peer_id := p |}) (λ r,
    if Spec.may_connect MS_Out Spec.limit_out a i p then
      ∃ c, r = Ok c ∧ cp_set c = i ∧ cp_peer_id c = p ∧
           represents (cp_state c) (Spec.assign i p MS_Out a)
    else r = Err {| ncp_state := st; ncp_set := i; ncp_peer_id := p |}).
Proof.
  intros Hr Hm Hc. known_peer Hr Hm.
  assert (Spec.may_connect MS_Out Spec.limit_out a i p =
          bool_decide (p ∈ no_slot_nodes s) || (num_out s <? max_out s)) as ->.
  { unfold Spec.may_connect. rewrite <- (rep_abs _ _ Hr), abs_tables_lookup, Hi; simpl.
    by rewrite occupied_abs, <- (set_wf_out _ _ _ (wf_sets _ Hwf i s Hi)). }
  unfold try_outgoing, has_free_outgoing_slot; simpl.
  apply runs_bind. eapply runs_index; [exact Hi|].
  apply runs_bind, runs_bind. eapply runs_index; [exact Hi|]. simpl.
  case_bool_decide as Hp; simpl; rewrite ?andb_false_r, ?andb_true_r; simpl.
  - rewrite Hn. apply runs_bind. unfold set_membership. apply runs_bind, runs_index_set; [by eauto|].
    simpl. eexists. split_and!; [done..|]. simpl. rewrite <- Hat, <- (put_same_set st i p _ s Hi).
    apply (represents_put st a i p m _ s s); rewrite ?Hat; try done;
      rewrite !slot_use_slotless by done; lia.
  - destruct (Z.ltb_spec (num_out s) (max_out s)) as [Hlt|Hle]; simpl; [|done].
    rewrite Hn. unfold is_u32, u32_max in *.
    apply runs_bind. unfold set_membership. apply runs_bind, runs_index_set; [by eauto|]. simpl.
    apply runs_bind, runs_bind, runs_u32_add; [unfold u32_max; lia|].
    unfold update_set. apply runs_bind, runs_index_set; [by eauto|]. simpl.
    eexists. split_and!; [done..|]. simpl. rewrite <- (put_Some st i p n _ _ Hn).
    apply (represents_put st a i p m _ s); rewrite ?Hat; try done; slot_arith.
Qed.

Lemma on_table_ext (a : Spec.t PeerId) i T f g :
  Spec.tables a !! i = Some T → f T = g T → Spec.on_table i f a = Spec.on_table i g a.
Proof.
  intros HT Hfg. unfold Spec.on_table. f_equal. apply list_alter_ext; [|done].
  intros T' HT'. by simplify_eq.
Qed.

Lemma on_table_id (a : Spec.t PeerId) i T f :
  Spec.tables a !! i = Some T → f T = T → Spec.on_table i f a = a.
Proof.
  intros HT Hf. destruct a as [ts rs]. unfold Spec.on_table. f_equal. simpl in *.
  apply list_eq. intros j. destruct (decide (i = j)) as [<-|Hne].
  - by rewrite list_lookup_alter_eq, HT; simpl; rewrite Hf.
  - by rewrite list_lookup_alter_ne.
Qed.

(** The membership of a peer that may be unknown to the code. *)
Definition membership_at (st : PeersState PeerId) (i : nat) (p : PeerId) : MembershipState :=
  default MS_NotMember (node_sets (node_at st p) !! i).

Lemma membership_at_None st i p : nodes st !! p = None → membership_at st i p = MS_NotMember.
Proof.
  intros Hn. unfold membership_at, node_at. rewrite Hn; simpl.
  destruct (replicate _ _ !! i) eqn:E; [|done]. by apply lookup_replicate in E as [-> _].
Qed.

Lemma membership_at_Some st i p n m :
  nodes st !! p = Some n → node_sets n !! i = Some m → membership_at st i p = m.
Proof. intros Hn Hm. unfold membership_at, node_at. by rewrite Hn; simpl; rewrite Hm. Qed.

(** The generic step on the slotless peers of a set. *)
Lemma represents_slotless st a i p s s' x :
  represents st a → sets st !! i = Some s →
  no_slot_nodes s' = x → (∀ q, q ≠ p → q ∈ x ↔ q ∈ no_slot_nodes s) →
  max_in s' = max_in s → max_out s' = max_out s →
  num_in s' = num_in s + slot_use MS_In s' p (membership_at st i p) - slot_use MS_In s p (membership_at st i p) →
  num_out s' = num_out s + slot_use MS_Out s' p (membership_at st i p) - slot_use MS_Out s p (membership_at st i p) →
  is_u32 (num_in s') → is_u32 (num_out s') →
  runs (update_set st i s') (λ st', represents st' (Spec.on_table i (Spec.set_slotless x) a)).
Proof.
  intros Hr Hi Hns Hq Hmi Hmo Hci Hco Hui Huo. pose proof (rep_wf _ _ Hr) as Hwf.
  unfold update_set. apply runs_bind, runs_index_set; [by eauto|]. simpl.
  destruct (wf_abs_slotless st i p s s' x) as [Hwf' Habs]; try done.
  3: { split; [done|apply Hr|]. by rewrite Habs, (rep_abs _ _ Hr). }
  all: rewrite ?Hci, ?Hco; destruct (nodes st !! p) as [n|] eqn:Hn.
  1,3: destruct (node_sets_lookup st p n i s Hwf Hn Hi) as [m Hm];
    rewrite !(counts_at _ _ _ _ _ m Hm), (membership_at_Some _ _ _ n m) by done; lia.
  all: rewrite membership_at_None by done; unfold slot_use;
    rewrite !(bool_decide_eq_false_2 (MS_NotMember = _)) by done; simpl; lia.
Qed.

(** Marking a peer as slotless frees the slot it takes; nothing else changes. *)
Lemma add_no_slot_node_spec st a i p :
  represents st a → (i < length (Spec.tables a))%nat →
  runs (add_no_slot_node st i p) (λ st', represents st' (Spec.reserve i p a)).
Proof.
  intros Hr Hlt. destruct (lookup_lt_is_Some_2 _ _ Hlt) as [T HT].
  destruct (represents_table _ _ _ _ Hr HT) as (s & Hi & ->).
  pose proof (rep_wf _ _ Hr) as Hwf. pose proof (set_wf_u32 st i s Hwf Hi) as (Hu1 & Hu2 & _ & _).
  unfold add_no_slot_node. apply runs_bind. eapply runs_index; [exact Hi|].
  case_bool_decide as Hp.
  { apply runs_ret. unfold Spec.reserve. erewrite on_table_id; [done|exact HT|].
    unfold Spec.set_slotless, abs_table; simpl. f_equal. set_solver. }
  unfold Spec.reserve.
  rewrite (on_table_ext a i _ _ (Spec.set_slotless ({[p]} ∪ no_slot_nodes s)) HT) by done.
  destruct (nodes st !! p) as [n|] eqn:Hn.
  - destruct (node_sets_lookup st p n i s Hwf Hn Hi) as [m Hm].
    destruct (counter_pos st i s p n Hwf Hi Hn Hp) as [Hpi Hpo].
    apply runs_bind. eapply runs_index; [exact Hm|].
    destruct m; try (apply runs_bind, runs_u32_sub; [by auto|]);
      (apply (represents_slotless st a i p s); try done; [set_solver|..]);
      try specialize (Hpi Hm); try specialize (Hpo Hm);
      rewrite ?(membership_at_Some _ _ _ n _ Hn Hm), ?(slot_use_slotless _ (set_num_in _ _)),
        ?(slot_use_slotless _ (set_num_out _ _)), ?(slot_use_slotless _ (set_no_slot_nodes _ _))
        by set_solver; slot_arith.
  - apply (represents_slotless st a i p s); try done; [set_solver|..];
      rewrite membership_at_None, slot_use_slotless by set_solver; slot_arith.
Qed.

(** Number of peers in a set. *)
Definition population (a : Spec.t PeerId) (i : nat) : Z :=
  match Spec.tables a !! i with Some T => Z.of_nat (size (Spec.members T)) | None => 0 end.

Lemma occupied_lt_population d (T : Spec.table PeerId) p m :
  Spec.members T !! p = Some m → p ∈ Spec.slotless T →
  Spec.occupied d T < Z.of_nat (size (Spec.members T)).
Proof.
  intros Hp Hs. apply (map_count_lt _ _ p m Hp). unfold Spec.takes_slot.
  rewrite (bool_decide_eq_false_2 (p ∉ _)) by auto. apply andb_false_r.
Qed.

(** The converse: the peer takes a slot again, even beyond the limit. The
    counter is a [u32]: the set must have fewer than 2^32 members. *)
Lemma remove_no_slot_node_spec st a i p :
  represents st a → (i < length (Spec.tables a))%nat → population a i ≤ u32_max →
  runs (remove_no_slot_node st i p) (λ st', represents st' (Spec.unreserve i p a)).
Proof.
  intros Hr Hlt Hpop. destruct (lookup_lt_is_Some_2 _ _ Hlt) as [T HT].
  destruct (represents_table _ _ _ _ Hr HT) as (s & Hi & ->).
  unfold population in Hpop. rewrite HT in Hpop.
  pose proof (rep_wf _ _ Hr) as Hwf. pose proof (set_wf_u32 st i s Hwf Hi) as (Hu1 & Hu2 & _ & _).
  pose proof (wf_sets _ Hwf i s Hi) as [Hci Hco _ _ _ _].
  rewrite <- occupied_abs in Hci, Hco by done.
  unfold remove_no_slot_node. apply runs_bind. eapply runs_index; [exact Hi|].
  case_bool_decide as Hp.
  2: { apply runs_ret. unfold Spec.unreserve. erewrite on_table_id; [done|exact HT|].
    unfold Spec.set_slotless, abs_table; simpl. f_equal. set_solver. }
  unfold Spec.unreserve.
  rewrite (on_table_ext a i _ _ (Spec.set_slotless (no_slot_nodes s ∖ {[p]})) HT) by done.
  destruct (nodes st !! p) as [n|] eqn:Hn.
  - destruct (node_sets_lookup st p n i s Hwf Hn Hi) as [m Hm].
    assert (m ≠ MS_NotMember → num_in s < u32_max ∧ num_out s < u32_max) as Hroom.
    { intros Hne. assert (Spec.members (abs_table (nodes st) i s) !! p = Some m) as Hmem.
      { simpl. rewrite lookup_omap, Hn; simpl. unfold member_of. rewrite Hm; simpl. by destruct m. }
      pose proof (occupied_lt_population MS_In _ _ _ Hmem Hp).
      pose proof (occupied_lt_population MS_Out _ _ _ Hmem Hp). lia. }
    apply runs_bind. eapply runs_index; [exact Hm|].
    destruct m; try (destruct Hroom as [? ?]; [done|]);
      try (apply runs_bind, runs_u32_add; [simpl; lia|]);
      (apply (represents_slotless st a i p s); try done; [set_solver|..]);
      rewrite ?(membership_at_Some _ _ _ n _ Hn Hm), ?(slot_use_slotless _ s), ?slot_use_slot by set_solver;
      slot_arith.
  - apply (represents_slotless st a i p s); try done; [set_solver|..];
      rewrite membership_at_None, (slot_use_slotless _ s), slot_use_slot by set_solver; slot_arith.
Qed.

Lemma discover_spec now st a i p :
  represents st a → (i < length (Spec.tables a))%nat → Spec.member a i p = None →
  runs (discover now {| up_parent := st; up_set := i; up_peer_id := p |}) (λ c,
    ncp_set c = i ∧ ncp_peer_id c = p ∧
    represents (ncp_state c) (Spec.assign i p (MS_NotConnected now) a)).
Proof.
  intros Hr Hlt Hm. rewrite <- (represents_num_sets _ _ Hr) in Hlt.
  destruct (lookup_lt_is_Some_2 (sets st) i Hlt) as [s Hi].
  pose proof (rep_wf _ _ Hr) as Hwf. pose proof (set_wf_u32 st i s Hwf Hi) as (Hu1 & Hu2 & _ & _).
  destruct (node_at_lookup st p i s Hwf Hi) as [m Hmi].
  assert (m = MS_NotMember) as ->.
  { rewrite <- (rep_abs _ _ Hr), (member_abs st i s p Hi) in Hm.
    unfold node_at in Hmi. destruct (nodes st !! p) as [n|]; simpl in *.
    - unfold member_of in Hm. rewrite Hmi in Hm. by destruct m.
    - by apply lookup_replicate in Hmi as [-> _]. }
  unfold discover, set_membership; simpl. fold (node_at st p).
  apply runs_bind, runs_bind, runs_index_set; [by eauto|]. simpl. split_and!; [done..|].
  rewrite <- (put_same_set st i p _ s Hi).
  apply (represents_put st a i p MS_NotMember _ s s); try done; unfold slot_use;
    rewrite !(bool_decide_eq_false_2 (_ = MS_In)) || rewrite !(bool_decide_eq_false_2 (_ = MS_Out));
    simpl; lia || done.
Qed.

Lemma bump_last_connected_or_discovered_spec now st a i p t :
  represents st a → Spec.member a i p = Some (MS_NotConnected t) →
  runs (bump_last_connected_or_discovered now {| ncp_state := st; ncp_set := i; ncp_peer_id := p |}) (λ c,
    ncp_set c = i ∧ ncp_peer_id c = p ∧
    represents (ncp_state c) (Spec.assign i p (MS_NotConnected now) a)).
Proof.
  intros Hr Hm. known_peer Hr Hm.
  unfold bump_last_connected_or_discovered, set_membership; simpl. rewrite Hn.
  apply runs_bind. eapply runs_index; [exact Hmi|].
  apply runs_bind, runs_bind, runs_index_set; [by eauto|]. simpl. split_and!; [done..|].
  rewrite <- Hat, <- (put_same_set st i p _ s Hi).
  apply (represents_put st a i p (MS_NotConnected t) _ s s); rewrite ?Hat; try done; unfold slot_use;
    rewrite !(bool_decide_eq_false_2 (_ = MS_In)) || rewrite !(bool_decide_eq_false_2 (_ = MS_Out));
    simpl; lia || done.
Qed.

Lemma last_connected_or_discovered_spec now st a i p t :
  represents st a → Spec.member a i p = Some (MS_NotConnected t) →
  last_connected_or_discovered now {| ncp_state := st; ncp_set := i; ncp_peer_id := p |} = Done t.
Proof.
  intros Hr Hm. known_peer Hr Hm. unfold last_connected_or_discovered; simpl.
  rewrite Hn. unfold index. by rewrite Hmi.
Qed.

(** Forgetting removes the member; the entry itself goes away exactly when it
    carries nothing else. *)
Lemma forget_peer_spec st a i p t :
  represents st a → Spec.member a i p = Some (MS_NotConnected t) →
  runs (forget_peer {| ncp_state := st; ncp_set := i; ncp_peer_id := p |}) (λ c,
    up_set c = i ∧ up_peer_id c = p ∧
    represents (up_parent c) (Spec.assign i p MS_NotMember a)).
Proof.
  intros Hr Hm. known_peer Hr Hm.
  unfold forget_peer, set_membership; simpl. rewrite Hn.
  apply runs_bind. eapply runs_index; [exact Hmi|].
  apply runs_bind, runs_debug_assert; [done|].
  apply runs_bind, runs_bind, runs_index_set; [by eauto|]. simpl. split_and!; [done..|].
  assert (with_nodes (<[p := {| node_sets := <[i := MS_NotMember]> (node_sets n);
            node_reputation := node_reputation n |}]> (nodes st)) st = put st i p MS_NotMember s) as E.
  { rewrite put_same_set by done. by rewrite Hat. }
  assert (wf (put st i p MS_NotMember s)) as Hwf'.
  { apply (wf_put st i p (MS_NotConnected t) _ s s); rewrite ?Hat; try done; unfold slot_use;
      rewrite !(bool_decide_eq_false_2 (_ = MS_In)) || rewrite !(bool_decide_eq_false_2 (_ = MS_Out));
      simpl; lia || done. }
  assert (abs (put st i p MS_NotMember s) = Spec.assign i p MS_NotMember a) as Habs.
  { by rewrite (abs_put st i p MS_NotMember s s), (rep_abs _ _ Hr). }
  destruct (collectable _) eqn:Hc.
  - pose proof (collect_wf (put st i p MS_NotMember s) p) as Hw.
    pose proof (collect_abs (put st i p MS_NotMember s) p) as Ha.
    rewrite <- E in Hw, Ha, Hwf', Habs. simpl in Hw, Ha.
    rewrite delete_insert_eq in Hw, Ha.
    split.
    + eapply Hw; [done|apply lookup_insert_eq|done].
    + apply map_Forall_delete, (rep_tidy _ _ Hr).
    + rewrite <- Habs. eapply Ha; [apply lookup_insert_eq|done].
  - rewrite E. split; [done| |done]. rewrite <- E.
    apply map_Forall_insert_2; [done|apply (rep_tidy _ _ Hr)].
Qed.

Lemma ConnectedPeer_add_reputation_spec v st a i p m :
  represents st a → Spec.member a i p = Some m →
  runs (ConnectedPeer_add_reputation v {| cp_state := st; cp_set := i; cp_peer_id := p |}) (λ c,
    cp_set c = i ∧ cp_peer_id c = p ∧
    represents (cp_state c) (Spec.set_reputation p (i32_saturating_add (Spec.reputation a p) v) a)).
Proof.
  intros Hr Hm. known_peer Hr Hm. unfold ConnectedPeer_add_reputation; simpl. rewrite Hn.
  apply runs_ret. split_and!; [done..|]. simpl.
  rewrite <- (rep_abs _ _ Hr), reputation_abs, Hn.
  set (r := i32_saturating_add _ _).
  assert (with_nodes (<[p:=with_reputation r n]> (nodes st)) st = put_reputation st p r) as ->.
  { unfold put_reputation. by rewrite Hat. }
  split; [apply wf_put_reputation; [done|apply i32_clamp_range]| |apply abs_put_reputation].
  apply map_Forall_insert_2; [|apply (rep_tidy _ _ Hr)]. rewrite Hat.
  unfold collectable; simpl. apply andb_false_iff; right.
  destruct (forallb _ _) eqn:E; [|done]. rewrite forallb_forall in E.
  rewrite (E m) in Hnm; [done|]. apply list_elem_of_In. by eapply list_elem_of_lookup_2.
Qed.

Lemma ConnectedPeer_reputation_spec st a i p :
  represents st a →
  ConnectedPeer_reputation {| cp_state := st; cp_set := i; cp_peer_id := p |} = Spec.reputation a p.
Proof. intros Hr. by rewrite <- (rep_abs _ _ Hr), reputation_abs. Qed.

Lemma NotConnectedPeer_reputation_spec st a i p :
  represents st a →
  NotConnectedPeer_reputation {| ncp_state := st; ncp_set := i; ncp_peer_id := p |} = Spec.reputation a p.
Proof. intros Hr. by rewrite <- (rep_abs _ _ Hr), reputation_abs. Qed.

(** *** The reputation guard *)

(** While a [Reputation] is alive its entry exists, even with nothing in it. *)
Record guards (r : Reputation PeerId) (p : PeerId) (a : Spec.t PeerId) : Prop := {
  guard_peer : rep_peer_id r = p;
  guard_entry : is_Some (nodes (rep_state r) !! p);
  guard_wf : wf (rep_state r);
  guard_tidy : ∀ q n, q ≠ p → nodes (rep_state r) !! q = Some n → collectable n = false;
  guard_abs : abs (rep_state r) = a;
}.

Lemma peer_reputation_spec st a p : represents st a → guards (peer_reputation st p) p a.
Proof.
  intros [Hwf Ht <-]. unfold peer_reputation.
  destruct (nodes st !! p) as [n|] eqn:Hn.
  - split; simpl; [done|by eauto|done| |done]. intros. by eapply Ht.
  - assert (with_nodes (<[p:=Node_new (length (sets st))]> (nodes st)) st = put_reputation st p 0) as ->.
    { unfold put_reputation, node_at. by rewrite Hn. }
    split; simpl; [done|rewrite lookup_insert_eq; eauto| | |].
    + apply wf_put_reputation; [done|]. unfold is_i32, i32_min, i32_max. lia.
    + intros q n Hne. rewrite lookup_insert_ne by done. intros. by eapply Ht.
    + rewrite abs_put_reputation. unfold Spec.set_reputation; simpl.
      rewrite delete_id; [done|]. by rewrite lookup_omap, Hn.
Qed.

Lemma Reputation_reputation_spec r p a :
  guards r p a → Reputation_reputation r = Done (Spec.reputation a p).
Proof.
  intros [<- [n Hn] _ _ <-]. unfold Reputation_reputation. rewrite reputation_abs, Hn. done.
Qed.

Lemma Reputation_set_reputation_spec v r p a :
  guards r p a → is_i32 v →
  runs (Reputation_set_reputation v r) (λ r', guards r' p (Spec.set_reputation p v a)).
Proof.
  intros [<- [n Hn] Hwf Ht <-] Hv. unfold Reputation_set_reputation. rewrite Hn. simpl.
  assert (with_nodes (<[rep_peer_id r:=with_reputation v n]> (nodes (rep_state r))) (rep_state r) =
          put_reputation (rep_state r) (rep_peer_id r) v) as ->.
  { unfold put_reputation, node_at. by rewrite Hn. }
  split; simpl; [done|rewrite lookup_insert_eq; eauto|by apply wf_put_reputation| |apply abs_put_reputation].
  intros q n' Hne. rewrite lookup_insert_ne by done. by apply Ht.
Qed.

Lemma Reputation_add_reputation_spec v r p a :
  guards r p a →
  runs (Reputation_add_reputation v r) (λ r',
    guards r' p (Spec.set_reputation p (i32_saturating_add (Spec.reputation a p) v) a)).
Proof.
  intros Hg. unfold Reputation_add_reputation. rewrite (Reputation_reputation_spec _ _ _ Hg). simpl.
  apply Reputation_set_reputation_spec; [done|apply i32_clamp_range].
Qed.

Lemma Reputation_drop_spec r p a :
  guards r p a → runs (Reputation_drop r) (λ st, represents st a).
Proof.
  intros [<- [n Hn] Hwf Ht <-]. unfold Reputation_drop. rewrite Hn. simpl.
  destruct (collectable n) eqn:Hc.
  - split; [by eapply collect_wf| |by eapply collect_abs].
    intros q n'. simpl. intros [Hne Hq]%lookup_delete_Some. apply (Ht q n'); auto.
  - split; [done| |done]. intros q n' Hq.
    destruct (decide (q = rep_peer_id r)) as [->|Hne]; [congruence|by apply (Ht q)].
Qed.

(** *** Iterations *)

Context `{!HashOrder PeerId}.

Lemma filter_panicking_filter {A} (f : A → outcome bool) (g : A → bool) l :
  (∀ x, x ∈ l → f x = Done (g x)) → filter_panicking f l = Done (base.filter (λ x, g x = true) l).
Proof.
  induction l as [|x l IH]; intros Hf; [done|]. simpl.
  rewrite Hf by set_solver. simpl. rewrite IH by set_solver. simpl.
  rewrite filter_cons. by destruct (g x).
Qed.

(** Membership of a node in set [i]; total on well-formed nodes. *)
Definition node_membership (i : nat) (n : Node) : MembershipState :=
  default MS_NotMember (node_sets n !! i).

Lemma filter_memberships st a i (g : MembershipState → bool) :
  represents st a → (i < length (Spec.tables a))%nat →
  filter_panicking (λ pn, g <$> index (node_sets pn.2) i) (hash_iter (nodes st)) =
    Done (base.filter (λ pn, g (node_membership i pn.2) = true) (hash_iter (nodes st))).
Proof.
  intros Hr Hlt. rewrite <- (represents_num_sets _ _ Hr) in Hlt.
  destruct (lookup_lt_is_Some_2 (sets st) i Hlt) as [s Hi].
  apply (filter_panicking_filter _ (λ pn, g (node_membership i pn.2))). intros [p n] Hin.
  apply elem_of_hash_iter in Hin. simpl.
  destruct (node_sets_lookup st p n i s (rep_wf _ _ Hr) Hin Hi) as [m Hm].
  unfold index, node_membership. by rewrite Hm.
Qed.

Lemma node_membership_spec st a i p :
  represents st a → (i < length (Spec.tables a))%nat →
  Spec.member a i p = (n ← nodes st !! p;
    if is_not_member (node_membership i n) then None else Some (node_membership i n)).
Proof.
  intros Hr Hlt. rewrite <- (represents_num_sets _ _ Hr) in Hlt.
  destruct (lookup_lt_is_Some_2 (sets st) i Hlt) as [s Hi].
  rewrite <- (rep_abs _ _ Hr), (member_abs st i s p Hi).
  destruct (nodes st !! p) as [n|] eqn:Hn; simpl; [|done].
  unfold member_of, node_membership. by destruct (node_sets n !! i).
Qed.

Lemma elem_of_filter_fst (P : PeerId * Node → Prop) `{!∀ x, Decision (P x)} l p :
  p ∈ (base.filter P l).*1 ↔ ∃ n, (p, n) ∈ l ∧ P (p, n).
Proof.
  rewrite list_elem_of_fmap. split.
  - intros ([q n] & -> & [??]%list_elem_of_filter). eauto.
  - intros (n & ? & ?). exists (p, n). split; [done|]. by apply list_elem_of_filter.
Qed.

Lemma NoDup_hash_iter_fst {A} (m : gmap PeerId A) : NoDup (hash_iter m).*1.
Proof.
  unfold hash_iter.
  assert ((omap (λ k, pair k <$> m !! k) (hash_keys (dom m))).*1 = hash_keys (dom m)) as ->;
    [|apply NoDup_hash_keys].
  assert (∀ k, k ∈ hash_keys (dom m) → is_Some (m !! k)) as Hin.
  { intros k. by rewrite elem_of_hash_keys, elem_of_dom. }
  induction (hash_keys (dom m)) as [|k l IH]; [done|]. simpl.
  destruct (Hin k) as [x Hx]; [set_solver|]. rewrite Hx. simpl. f_equal. apply IH. set_solver.
Qed.

(** The connected peers of a set, each once, in some order. *)
Lemma connected_peers_spec st a i :
  represents st a → (i < length (Spec.tables a))%nat →
  runs (connected_peers st i) (λ l,
    NoDup l ∧ ∀ p, p ∈ l ↔ ∃ m, Spec.member a i p = Some m ∧ is_connected m = true).
Proof.
  intros Hr Hlt. unfold connected_peers, rust_assert.
  rewrite <- (represents_num_sets _ _ Hr) in Hlt. rewrite bool_decide_eq_true_2 by done.
  rewrite (represents_num_sets _ _ Hr) in Hlt. simpl.
  rewrite (filter_memberships st a) by done. simpl. split.
  - apply NoDup_fmap_fst; [|eapply NoDup_filter, NoDup_fmap_1, NoDup_hash_iter_fst].
    intros p n1 n2 [_ H1]%list_elem_of_filter [_ H2]%list_elem_of_filter.
    rewrite elem_of_hash_iter in H1, H2. congruence.
  - intros p. rewrite elem_of_filter_fst, (node_membership_spec st a i p) by done.
    setoid_rewrite elem_of_hash_iter. simpl. split.
    + intros (n & -> & Hc). simpl. by destruct (node_membership i n) eqn:E; simplify_eq/=; eauto.
    + intros (m & Hm & Hc). destruct (nodes st !! p) as [n|]; simplify_eq/=.
      exists n. split; [done|]. by destruct (node_membership i n); simplify_eq/=.
Qed.

Lemma keep_highest_fold (l : list (PeerId * Node)) cur :
  match foldl keep_highest cur l with
  | Some pn => (cur = Some pn ∨ pn ∈ l) ∧
               (∀ qn, (cur = Some qn ∨ qn ∈ l) → node_reputation qn.2 ≤ node_reputation pn.2)
  | None => cur = None ∧ l = []
  end.
Proof.
  revert cur. induction l as [|x l IH]; intros cur; simpl.
  - destruct cur; [|done]. split; [by left|]. intros ? [[= ->]|Hnil]; [done|by apply elem_of_nil in Hnil].
  - specialize (IH (keep_highest cur x)). destruct (foldl _ _ _) as [pn|].
    + destruct IH as [Hin Hmax]. unfold keep_highest in *. destruct cur as [c|]; simpl in *.
      * destruct (Z.leb_spec (node_reputation x.2) (node_reputation c.2)); split; try set_solver;
          intros qn [[= ->]|[->|Hq]%elem_of_cons]; auto.
        -- specialize (Hmax c (or_introl eq_refl)). lia.
        -- specialize (Hmax x (or_introl eq_refl)). lia.
      * split; [set_solver|]. intros qn [?|[->|?]%elem_of_cons]; auto. done.
    + destruct IH as [Hk _]. unfold keep_highest in Hk. by destruct cur; [case_match|].
Qed.

(** [highest_not_connected_peer] finds a disconnected member of maximal
    reputation, and [None] only if there is no disconnected member. *)
Lemma highest_not_connected_peer_spec st a i :
  represents st a → (i < length (Spec.tables a))%nat →
  runs (highest_not_connected_peer st i) (λ r,
    match r with
    | Some c =>
        ncp_state c = st ∧ ncp_set c = i ∧
        (∃ t, Spec.member a i (ncp_peer_id c) = Some (MS_NotConnected t)) ∧
        ∀ q t, Spec.member a i q = Some (MS_NotConnected t) →
               Spec.reputation a q ≤ Spec.reputation a (ncp_peer_id c)
    | None => ∀ q t, Spec.member a i q ≠ Some (MS_NotConnected t)
    end).
Proof.
  intros Hr Hlt. unfold highest_not_connected_peer, rust_assert.
  rewrite <- (represents_num_sets _ _ Hr) in Hlt. rewrite bool_decide_eq_true_2 by done.
  rewrite (represents_num_sets _ _ Hr) in Hlt. simpl.
  rewrite (filter_memberships st a) by done. simpl.
  set (l := base.filter _ _). pose proof (keep_highest_fold l None) as Hk.
  assert (∀ p n, (p, n) ∈ l ↔ nodes st !! p = Some n ∧ ∃ t, Spec.member a i p = Some (MS_NotConnected t)) as Hl.
  { intros p n. unfold l. rewrite list_elem_of_filter, elem_of_hash_iter; simpl.
    rewrite (node_membership_spec st a i p) by done. split.
    - intros [Hc ->]. simpl. by destruct (node_membership i n) eqn:E; simplify_eq/=; eauto.
    - intros [-> [t Ht]]. simpl in Ht. by destruct (node_membership i n); simplify_eq/=. }
  assert (∀ q t, Spec.member a i q = Some (MS_NotConnected t) → ∃ n, (q, n) ∈ l) as Hmem.
  { intros q t Hq. destruct (represents_member _ _ _ _ _ Hr Hq) as (s & n & _ & Hn & _).
    exists n. apply Hl. eauto. }
  assert (∀ p n, (p, n) ∈ l → Spec.reputation a p = node_reputation n) as Hrep.
  { intros p n [Hn _]%Hl. by rewrite <- (rep_abs _ _ Hr), reputation_abs, Hn. }
  destruct (foldl _ _ _) as [[p n]|]; simpl.
  - destruct Hk as [[?|Hin] Hmax]; [done|]. split_and!; [done..|by eapply Hl|].
    intros q t Hq. destruct (Hmem q t Hq) as [n' Hin'].
    rewrite (Hrep _ _ Hin), (Hrep _ _ Hin'). apply (Hmax (q, n')). auto.
  - destruct Hk as [_ Hnil]. intros q t Hq. destruct (Hmem q t Hq) as [n Hin].
    rewrite Hnil in Hin. by apply elem_of_nil in Hin.
Qed.

End refinement.
