(* ===== verification/PeersSpecFacts.v ===== *)
(** * Facts about the specification of the peers state

    Lookup lemmas for the operations of [PeersState.Spec], the theorem that
    every sequence of calls of [PeersState] implements the specification, and
    what the specification guarantees about slots. *)

From S2P Require Import Prelude PeersState.

Create HintDb spec.


Section lookups.
Context {PeerId : Type} `{Countable PeerId}.
Implicit Types (a : Spec.t PeerId) (T : Spec.table PeerId) (p q : PeerId) (i j : nat).

Lemma on_table_lookup i f a j :
  Spec.tables (Spec.on_table i f a) !! j = if decide (i = j) then f <$> Spec.tables a !! j else Spec.tables a !! j.
Proof.
  simpl. case_decide as Hij; [subst; apply list_lookup_alter_eq|by apply list_lookup_alter_ne].
Qed.

Lemma on_table_length i f a : length (Spec.tables (Spec.on_table i f a)) = length (Spec.tables a).
Proof. apply length_alter. Qed.

Lemma assign_length i p m a : length (Spec.tables (Spec.assign i p m a)) = length (Spec.tables a).
Proof. apply on_table_length. Qed.
Lemma reserve_length i p a : length (Spec.tables (Spec.reserve i p a)) = length (Spec.tables a).
Proof. apply on_table_length. Qed.
Lemma unreserve_length i p a : length (Spec.tables (Spec.unreserve i p a)) = length (Spec.tables a).
Proof. apply on_table_length. Qed.

Lemma put_member_lookup p m T q :
  Spec.members (Spec.put_member p m T) !! q =
    if decide (p = q) then (if is_not_member m then None else Some m) else Spec.members T !! q.
Proof.
  unfold Spec.put_member, Spec.set_members; simpl. case_decide as Hpq; [subst|].
  - by destruct (is_not_member m); rewrite ?lookup_delete_eq, ?lookup_insert_eq.
  - by destruct (is_not_member m); rewrite ?lookup_delete_ne, ?lookup_insert_ne.
Qed.

Lemma member_assign_eq i p m a :
  (i < length (Spec.tables a))%nat →
  Spec.member (Spec.assign i p m a) i p = if is_not_member m then None else Some m.
Proof.
  intros [T HT]%lookup_lt_is_Some_2. unfold Spec.member, Spec.assign.
  rewrite on_table_lookup, decide_True, HT by done.
  pose proof (put_member_lookup p m T p) as E. by rewrite decide_True in E.
Qed.

Lemma member_assign_ne i p m a j q :
  (i, p) ≠ (j, q) → Spec.member (Spec.assign i p m a) j q = Spec.member a j q.
Proof.
  intros Hne. unfold Spec.member, Spec.assign. rewrite on_table_lookup.
  case_decide as Hij; [subst|done]. destruct (Spec.tables a !! j) as [T|]; simpl; [|done].
  pose proof (put_member_lookup p m T q) as E. rewrite decide_False in E; [done|congruence].
Qed.

Lemma member_assign i p m a j q :
  (i < length (Spec.tables a))%nat →
  Spec.member (Spec.assign i p m a) j q =
    if decide ((i, p) = (j, q)) then (if is_not_member m then None else Some m) else Spec.member a j q.
Proof.
  intros Hlt. case_decide as Hd; [simplify_eq; by apply member_assign_eq|by apply member_assign_ne].
Qed.

Lemma member_on_table_slotless i f a j q :
  (∀ T, Spec.members (f T) = Spec.members T) →
  Spec.member (Spec.on_table i f a) j q = Spec.member a j q.
Proof.
  intros Hf. unfold Spec.member. rewrite on_table_lookup. case_decide; [subst|done].
  destruct (Spec.tables a !! j) as [T|]; simpl; [|done]. by rewrite Hf.
Qed.

Lemma member_reserve i p a j q : Spec.member (Spec.reserve i p a) j q = Spec.member a j q.
Proof. by apply member_on_table_slotless. Qed.
Lemma member_unreserve i p a j q : Spec.member (Spec.unreserve i p a) j q = Spec.member a j q.
Proof. by apply member_on_table_slotless. Qed.
Lemma member_set_reputation p r a j q : Spec.member (Spec.set_reputation p r a) j q = Spec.member a j q.
Proof. done. Qed.

Lemma member_Some i p m a : Spec.member a i p = Some m → (i < length (Spec.tables a))%nat.
Proof.
  unfold Spec.member. destruct (Spec.tables a !! i) eqn:E; simpl; [|done].
  intros _. by eapply lookup_lt_Some.
Qed.

Lemma reputation_set_eq p r a : Spec.reputation (Spec.set_reputation p r a) p = r.
Proof.
  unfold Spec.reputation, Spec.set_reputation; simpl.
  destruct (Z.eqb_spec r 0) as [->|]; by rewrite ?lookup_delete_eq, ?lookup_insert_eq.
Qed.
Lemma reputation_set_ne p r a q : p ≠ q → Spec.reputation (Spec.set_reputation p r a) q = Spec.reputation a q.
Proof.
  intros Hne. unfold Spec.reputation, Spec.set_reputation; simpl.
  by destruct (r =? 0); rewrite ?lookup_delete_ne, ?lookup_insert_ne.
Qed.
Lemma reputation_assign i p m a q : Spec.reputation (Spec.assign i p m a) q = Spec.reputation a q.
Proof. done. Qed.
Lemma reputation_reserve i p a q : Spec.reputation (Spec.reserve i p a) q = Spec.reputation a q.
Proof. done. Qed.
Lemma reputation_unreserve i p a q : Spec.reputation (Spec.unreserve i p a) q = Spec.reputation a q.
Proof. done. Qed.

(** The slotless peers of every set, as a list. *)
Definition slotless_list (a : Spec.t PeerId) : list (gset PeerId) := Spec.slotless <$> Spec.tables a.

Lemma slotless_list_assign i p m a : slotless_list (Spec.assign i p m a) = slotless_list a.
Proof.
  unfold slotless_list. apply list_eq. intros j. rewrite !list_lookup_fmap.
  unfold Spec.assign. rewrite on_table_lookup. case_decide; [|done].
  by destruct (Spec.tables a !! j).
Qed.
Lemma slotless_list_set_reputation p r a : slotless_list (Spec.set_reputation p r a) = slotless_list a.
Proof. done. Qed.
Lemma slotless_list_reserve i p a s :
  slotless_list a !! i = Some s → slotless_list (Spec.reserve i p a) = <[i := {[p]} ∪ s]> (slotless_list a).
Proof.
  unfold slotless_list. intros Hs. apply list_eq. intros j.
  rewrite list_lookup_fmap. unfold Spec.reserve. rewrite on_table_lookup.
  rewrite list_lookup_fmap in Hs. destruct (Spec.tables a !! i) as [T|] eqn:HT; simplify_eq/=.
  case_decide as Hij; [subst|].
  - rewrite HT, list_lookup_insert_eq; [done|]. rewrite length_fmap. by eapply lookup_lt_Some.
  - by rewrite list_lookup_insert_ne, list_lookup_fmap.
Qed.
Lemma slotless_list_unreserve i p a s :
  slotless_list a !! i = Some s → slotless_list (Spec.unreserve i p a) = <[i := s ∖ {[p]}]> (slotless_list a).
Proof.
  unfold slotless_list. intros Hs. apply list_eq. intros j.
  rewrite list_lookup_fmap. unfold Spec.unreserve. rewrite on_table_lookup.
  rewrite list_lookup_fmap in Hs. destruct (Spec.tables a !! i) as [T|] eqn:HT; simplify_eq/=.
  case_decide as Hij; [subst|].
  - rewrite HT, list_lookup_insert_eq; [done|]. rewrite length_fmap. by eapply lookup_lt_Some.
  - by rewrite list_lookup_insert_ne, list_lookup_fmap.
Qed.

Lemma is_slotless_list a i p s : slotless_list a !! i = Some s → Spec.is_slotless a i p = bool_decide (p ∈ s).
Proof.
  unfold slotless_list, Spec.is_slotless. rewrite list_lookup_fmap.
  by destruct (Spec.tables a !! i); intros; simplify_eq/=.
Qed.

End lookups.

#[export] Hint Rewrite @assign_length @reserve_length @unreserve_length
  @member_reserve @member_unreserve @member_set_reputation
  @reputation_assign @reputation_reserve @reputation_unreserve @reputation_set_eq
  @slotless_list_assign @slotless_list_set_reputation : spec.

(** ** Sequences of calls

    The calls the rest of the program makes on [PeersState], as one data type:
    each looks the peer up and proceeds if it is in the right state, as the
    [match] and [if let] of the callers do. *)
Section calls.
Context {PeerId : Type} `{Countable PeerId}.
Implicit Types (st : PeersState PeerId) (a : Spec.t PeerId) (T : Spec.table PeerId).

Inductive call :=
  | CallAddNoSlot (i : nat) (p : PeerId)
  | CallRemoveNoSlot (i : nat) (p : PeerId)
  | CallDiscover (now : Instant) (i : nat) (p : PeerId)
  | CallBump (now : Instant) (i : nat) (p : PeerId)
  | CallAccept (i : nat) (p : PeerId)
  | CallConnect (i : nat) (p : PeerId)
  | CallDisconnect (now : Instant) (i : nat) (p : PeerId)
  | CallForget (i : nat) (p : PeerId)
  | CallAddReputation (p : PeerId) (v : Z)
  | CallSetReputation (p : PeerId) (v : Z).

(** Run one call; the boolean tells whether a slot was granted. *)
Definition run_call (c : call) (st : PeersState PeerId) : outcome (bool * PeersState PeerId) :=
  match c with
  | CallAddNoSlot i p => pair false <$> add_no_slot_node st i p
  | CallRemoveNoSlot i p => pair false <$> remove_no_slot_node st i p
  | CallDiscover now i p =>
      e ← peer st i p;
      match e with
      | Peer_Unknown u => c ← discover now u; mret (false, ncp_state c)
      | _ => mret (false, st)
      end
  | CallBump now i p =>
      e ← peer st i p;
      match e with
      | Peer_NotConnected c => c ← bump_last_connected_or_discovered now c; mret (false, ncp_state c)
      | _ => mret (false, st)
      end
  | CallAccept i p =>
      e ← peer st i p;
      match e with
      | Peer_NotConnected c =>
          r ← try_accept_incoming c;
          mret match r with Ok c => (true, cp_state c) | Err c => (false, ncp_state c) end
      | _ => mret (false, st)
      end
  | CallConnect i p =>
      e ← peer st i p;
      match e with
      | Peer_NotConnected c =>
          r ← try_outgoing c;
          mret match r with Ok c => (true, cp_state c) | Err c => (false, ncp_state c) end
      | _ => mret (false, st)
      end
  | CallDisconnect now i p =>
      e ← peer st i p;
      match e with
      | Peer_Connected c => c ← disconnect now c; mret (false, ncp_state c)
      | _ => mret (false, st)
      end
  | CallForget i p =>
      e ← peer st i p;
      match e with
      | Peer_NotConnected c => c ← forget_peer c; mret (false, up_parent c)
      | _ => mret (false, st)
      end
  | CallAddReputation p v =>
      r ← Reputation_add_reputation v (peer_reputation st p);
      st ← Reputation_drop r; mret (false, st)
  | CallSetReputation p v =>
      r ← Reputation_set_reputation v (peer_reputation st p);
      st ← Reputation_drop r; mret (false, st)
  end.

Fixpoint run_calls (cs : list call) (st : PeersState PeerId) : outcome (list bool * PeersState PeerId) :=
  match cs with
  | [] => mret ([], st)
  | c :: cs =>
      r ← run_call c st;
      rs ← run_calls cs r.2;
      mret (r.1 :: rs.1, rs.2)
  end.

(** What each call means on the specification. *)
Definition connect_spec (d : MembershipState) (limit : Spec.table PeerId → Z) (i : nat) (p : PeerId)
    (a : Spec.t PeerId) : bool * Spec.t PeerId :=
  match Spec.member a i p with
  | Some (MS_NotConnected _) =>
      if Spec.may_connect d limit a i p then (true, Spec.assign i p d a) else (false, a)
  | _ => (false, a)
  end.

Definition spec_call (c : call) (a : Spec.t PeerId) : bool * Spec.t PeerId :=
  match c with
  | CallAddNoSlot i p => (false, Spec.reserve i p a)
  | CallRemoveNoSlot i p => (false, Spec.unreserve i p a)
  | CallDiscover now i p =>
      (false, match Spec.member a i p with
              | None => Spec.assign i p (MS_NotConnected now) a
              | _ => a
              end)
  | CallBump now i p =>
      (false, match Spec.member a i p with
              | Some (MS_NotConnected _) => Spec.assign i p (MS_NotConnected now) a
              | _ => a
              end)
  | CallAccept i p => connect_spec MS_In Spec.limit_in i p a
  | CallConnect i p => connect_spec MS_Out Spec.limit_out i p a
  | CallDisconnect now i p =>
      (false, match Spec.member a i p with
              | Some MS_In | Some MS_Out => Spec.assign i p (MS_NotConnected now) a
              | _ => a
              end)
  | CallForget i p =>
      (false, match Spec.member a i p with
              | Some (MS_NotConnected _) => Spec.assign i p MS_NotMember a
              | _ => a
              end)
  | CallAddReputation p v =>
      (false, Spec.set_reputation p (i32_saturating_add (Spec.reputation a p) v) a)
  | CallSetReputation p v => (false, Spec.set_reputation p v a)
  end.

Fixpoint spec_calls (cs : list call) (a : Spec.t PeerId) : list bool * Spec.t PeerId :=
  match cs with
  | [] => ([], a)
  | c :: cs => let r := spec_call c a in let rs := spec_calls cs r.2 in (r.1 :: rs.1, rs.2)
  end.

(** The set exists; a counter that is incremented without a limit fits. *)
Definition call_ok (c : call) (a : Spec.t PeerId) : Prop :=
  match c with
  | CallRemoveNoSlot i _ => (i < length (Spec.tables a))%nat ∧ population a i ≤ u32_max
  | CallAddNoSlot i _ | CallDiscover _ i _ | CallBump _ i _ | CallAccept i _ | CallConnect i _
  | CallDisconnect _ i _ | CallForget i _ => (i < length (Spec.tables a))%nat
  | CallAddReputation _ _ => True
  | CallSetReputation _ v => is_i32 v
  end.

(** Each call is fine in the state the calls before it lead to. The bound on the
    number of peers before a peer loses its exemption is that of a machine
    word: the counters are [u32], and no configured limit bounds this
    increment. *)
Fixpoint calls_ok (cs : list call) (a : Spec.t PeerId) : Prop :=
  match cs with
  | [] => True
  | c :: cs => call_ok c a ∧ calls_ok cs (spec_call c a).2
  end.

Lemma member_not_NotMember st a i p : represents st a → Spec.member a i p ≠ Some MS_NotMember.
Proof. intros Hr Hm. by destruct (represents_member _ _ _ _ _ Hr Hm) as (? & ? & _ & _ & _ & [=]). Qed.

Lemma run_call_refines c st a :
  represents st a → call_ok c a →
  runs (run_call c st) (λ r, r.1 = (spec_call c a).1 ∧ represents r.2 (spec_call c a).2).
Proof.
  intros Hr Hok. destruct c as [i p|i p|now i p|now i p|i p|i p|now i p|i p|p v|p v]; simpl in *.
  - apply runs_fmap. eapply runs_mono; [by apply add_no_slot_node_spec|done].
  - destruct Hok. apply runs_fmap. eapply runs_mono; [by apply remove_no_slot_node_spec|done].
  - rewrite (peer_spec st a i p Hr Hok). simpl.
    destruct (Spec.member a i p) as [m|] eqn:Hm; [by destruct (is_connected m)|].
    apply runs_bind. eapply runs_mono; [by apply discover_spec|]. by intros c (_ & _ & ?).
  - rewrite (peer_spec st a i p Hr Hok). simpl.
    destruct (Spec.member a i p) as [m|] eqn:Hm; [|done].
    destruct m as [| | |t]; simpl; try done; [by eapply member_not_NotMember in Hm|].
    apply runs_bind. eapply runs_mono; [by eapply bump_last_connected_or_discovered_spec|].
    by intros c (_ & _ & ?).
  - rewrite (peer_spec st a i p Hr Hok). unfold connect_spec.
    destruct (Spec.member a i p) as [m|] eqn:Hm; [|done].
    destruct m as [| | |t]; simpl; try done; [by eapply member_not_NotMember in Hm|].
    apply runs_bind. eapply runs_mono; [by eapply try_accept_incoming_spec|]. simpl.
    intros r Hres. destruct (Spec.may_connect _ _ _ _ _); [by destruct Hres as (c & -> & _ & _ & ?)|by subst].
  - rewrite (peer_spec st a i p Hr Hok). unfold connect_spec.
    destruct (Spec.member a i p) as [m|] eqn:Hm; [|done].
    destruct m as [| | |t]; simpl; try done; [by eapply member_not_NotMember in Hm|].
    apply runs_bind. eapply runs_mono; [by eapply try_outgoing_spec|]. simpl.
    intros r Hres. destruct (Spec.may_connect _ _ _ _ _); [by destruct Hres as (c & -> & _ & _ & ?)|by subst].
  - rewrite (peer_spec st a i p Hr Hok). simpl.
    destruct (Spec.member a i p) as [m|] eqn:Hm; [|done].
    destruct m as [| | |t]; simpl; try done;
      (apply runs_bind; eapply runs_mono; [by eapply disconnect_spec|]; by intros c (_ & _ & ?)).
  - rewrite (peer_spec st a i p Hr Hok). simpl.
    destruct (Spec.member a i p) as [m|] eqn:Hm; [|done].
    destruct m as [| | |t]; simpl; try done; [by eapply member_not_NotMember in Hm|].
    apply runs_bind. eapply runs_mono; [by eapply forget_peer_spec|]. by intros c (_ & _ & ?).
  - apply runs_bind. eapply runs_mono; [by apply Reputation_add_reputation_spec, peer_reputation_spec|].
    intros r Hg. apply runs_bind. eapply runs_mono; [eapply Reputation_drop_spec, Hg|]. done.
  - apply runs_bind.
    eapply runs_mono; [apply Reputation_set_reputation_spec; [by apply peer_reputation_spec|done]|].
    intros r Hg. apply runs_bind. eapply runs_mono; [eapply Reputation_drop_spec, Hg|]. done.
Qed.

Lemma run_calls_refines cs st a :
  represents st a → calls_ok cs a →
  runs (run_calls cs st) (λ r, r.1 = (spec_calls cs a).1 ∧ represents r.2 (spec_calls cs a).2).
Proof.
  revert st a. induction cs as [|c cs IH]; intros st a Hr Hok; [done|].
  destruct Hok as [Hc Hcs]. simpl. apply runs_bind. eapply runs_mono; [by apply run_call_refines|].
  intros [b st'] [Hb Hr']. apply runs_bind. eapply runs_mono; [by apply (IH st')|].
  simpl in *. intros [bs st''] [Hbs Hr'']. simpl in *. split; [by f_equal|done].
Qed.

(** ** Slots *)

Lemma occupied_put_member d T p m :
  d ≠ MS_NotMember →
  Spec.occupied d (Spec.put_member p m T) =
    Spec.occupied d T - match Spec.members T !! p with Some m0 => Z.b2z (Spec.takes_slot d T p m0) | None => 0 end
    + Z.b2z (Spec.takes_slot d T p m).
Proof.
  intros Hd. unfold Spec.occupied, Spec.put_member.
  assert (∀ ms, Spec.takes_slot d (Spec.set_members ms T) = Spec.takes_slot d T) as -> by done.
  simpl. destruct (is_not_member m) eqn:Hm.
  - assert (Spec.takes_slot d T p m = false) as ->.
    { unfold Spec.takes_slot. destruct m; try done. by rewrite bool_decide_eq_false_2. }
    destruct (Spec.members T !! p) as [m0|] eqn:Hp; simpl.
    + rewrite (map_count_delete _ _ _ m0 Hp). lia.
    + rewrite delete_id by done. lia.
  - destruct (Spec.members T !! p) as [m0|] eqn:Hp; simpl.
    + by apply map_count_insert.
    + rewrite map_count_insert_new by done. lia.
Qed.

Lemma occupied_reserve d T p :
  Spec.occupied d (Spec.set_slotless ({[p]} ∪ Spec.slotless T) T) ≤ Spec.occupied d T.
Proof.
  unfold Spec.occupied; simpl. set (T' := Spec.set_slotless _ T).
  rewrite (map_count_change (Spec.takes_slot d T) (Spec.takes_slot d T') _ p).
  - destruct (Spec.members T !! p) as [m|]; [|lia].
    assert (Spec.takes_slot d T' p m = false) as ->.
    { unfold Spec.takes_slot. rewrite (bool_decide_eq_false_2 (p ∉ _)); [apply andb_false_r|set_solver]. }
    destruct (Spec.takes_slot _ _ _ _); simpl; lia.
  - intros q m Hne. unfold Spec.takes_slot; simpl. f_equal. apply bool_decide_ext. set_solver.
Qed.

(** No more slots in use than the limits allow. *)
Definition within_limits (a : Spec.t PeerId) : Prop :=
  Forall (λ T, Spec.occupied MS_In T ≤ Spec.limit_in T ∧ Spec.occupied MS_Out T ≤ Spec.limit_out T)
    (Spec.tables a).

Definition keeps_slots (c : call) : bool :=
  match c with CallRemoveNoSlot _ _ => false | _ => true end.

Lemma within_limits_on_table i f a :
  within_limits a →
  (∀ T, Spec.tables a !! i = Some T →
     Spec.occupied MS_In T ≤ Spec.limit_in T → Spec.occupied MS_Out T ≤ Spec.limit_out T →
     Spec.occupied MS_In (f T) ≤ Spec.limit_in (f T) ∧ Spec.occupied MS_Out (f T) ≤ Spec.limit_out (f T)) →
  within_limits (Spec.on_table i f a).
Proof.
  unfold within_limits. rewrite !Forall_lookup. intros Hw Hf j T. rewrite on_table_lookup.
  case_decide as Hij; [subst|by apply Hw]. destruct (Spec.tables a !! j) as [T0|] eqn:HT; [|done].
  intros [= <-]. destruct (Hw _ _ HT). by apply Hf.
Qed.

Lemma takes_slot_other d T p m : m ≠ d → Spec.takes_slot d T p m = false.
Proof. intros. unfold Spec.takes_slot. by rewrite bool_decide_eq_false_2. Qed.

(** Leaving the connected state never uses more slots. *)
Lemma within_limits_assign_idle i p m a :
  within_limits a → is_connected m = false → within_limits (Spec.assign i p m a).
Proof.
  intros Hw Hm. apply within_limits_on_table; [done|]. intros T HT Hin Hout.
  rewrite !occupied_put_member by done. simpl.
  rewrite !takes_slot_other by (by intros ->).
  destruct (Spec.members T !! p) as [m0|]; simpl; [|lia].
  destruct (Spec.takes_slot MS_In T p m0), (Spec.takes_slot MS_Out T p m0); simpl; lia.
Qed.

Lemma within_limits_connect d limit i p a :
  (d = MS_In ∧ limit = Spec.limit_in) ∨ (d = MS_Out ∧ limit = Spec.limit_out) →
  within_limits a → within_limits (connect_spec d limit i p a).2.
Proof.
  intros Hd Hw. unfold connect_spec.
  destruct (Spec.member a i p) as [[| | |t]|] eqn:Hm; try done.
  destruct (Spec.may_connect d limit a i p) eqn:Hmay; [|done]. simpl.
  apply within_limits_on_table; [done|]. intros T HT Hin Hout.
  unfold Spec.member, Spec.may_connect in Hm, Hmay. rewrite HT in Hm, Hmay. simpl in Hm.
  rewrite !occupied_put_member, Hm by (by destruct Hd as [[-> ->]|[-> ->]]).
  cbn [Spec.limit_in Spec.limit_out Spec.put_member Spec.set_members].
  rewrite (takes_slot_other MS_In T p (MS_NotConnected t)), (takes_slot_other MS_Out T p (MS_NotConnected t)) by done.
  destruct Hd as [[-> ->]|[-> ->]];
    [rewrite (takes_slot_other MS_Out) by done|rewrite (takes_slot_other MS_In) by done];
    unfold Spec.takes_slot; destruct (decide (p ∈ Spec.slotless T)) as [Hp|Hp];
    rewrite ?(bool_decide_eq_true_2 (p ∈ _)), ?(bool_decide_eq_false_2 (p ∈ _)),
      ?(bool_decide_eq_true_2 (p ∉ _)), ?(bool_decide_eq_false_2 (p ∉ _)) in * by auto;
    rewrite ?andb_false_r, ?andb_true_r; simpl in *; rewrite ?bool_decide_eq_true_2 by done; simpl; lia.
Qed.

Lemma within_limits_call c a :
  keeps_slots c = true → within_limits a → within_limits (spec_call c a).2.
Proof.
  intros Hk Hw. destruct c as [i p|i p|now i p|now i p|i p|i p|now i p|i p|p v|p v]; simpl in *; try done.
  - apply within_limits_on_table; [done|]. intros T _ Hin Hout.
    pose proof (occupied_reserve MS_In T p). pose proof (occupied_reserve MS_Out T p). simpl. lia.
  - destruct (Spec.member a i p); [done|]. by apply within_limits_assign_idle.
  - destruct (Spec.member a i p) as [[]|]; try done. by apply within_limits_assign_idle.
  - apply within_limits_connect; auto.
  - apply within_limits_connect; auto.
  - destruct (Spec.member a i p) as [[]|]; try done; by apply within_limits_assign_idle.
  - destruct (Spec.member a i p) as [[]|]; try done. by apply within_limits_assign_idle.
Qed.

Lemma within_limits_calls cs a :
  forallb keeps_slots cs = true → within_limits a → within_limits (spec_calls cs a).2.
Proof.
  revert a. induction cs as [|c cs IH]; intros a Hk Hw; [done|].
  simpl in *. apply andb_prop in Hk as [Hc Hcs]. apply IH; [done|]. by apply within_limits_call.
Qed.

End calls.
