(* ===== verification/PeersTheorems.v ===== *)
(** * The peer table: theorems

    The claims about [PeersState], on states obtained from [PeersState_new] by
    any sequence of the operations its clients can call. *)

From S2P Require Import Prelude PeersState PeersSpecFacts.

Section theorems.
Context {PeerId : Type} `{Countable PeerId, !HashOrder PeerId}.
Implicit Types (st : PeersState PeerId) (cfg : list SetConfig) (cs : list (call (PeerId := PeerId))).

(** The limits of a configuration fit in a [u32]. *)
Definition limits_ok (cfg : list SetConfig) : Prop :=
  Forall (λ c, is_u32 (in_peers c) ∧ is_u32 (out_peers c)) cfg.

(** The specification state of a fresh table. *)
Definition spec_new (cfg : list SetConfig) : Spec.t PeerId :=
  {| Spec.tables := (λ c, {| Spec.members := ∅; Spec.slotless := ∅;
                             Spec.limit_in := in_peers c; Spec.limit_out := out_peers c |}) <$> cfg;
     Spec.reputations := ∅ |}.

Lemma calls_from_new cfg cs :
  limits_ok cfg → calls_ok cs (spec_new cfg) →
  runs (run_calls cs (PeersState_new cfg)) (λ r,
    r.1 = (spec_calls cs (spec_new cfg)).1 ∧ represents r.2 (spec_calls cs (spec_new cfg)).2).
Proof. intros Hl Hok. apply run_calls_refines; [by apply PeersState_new_represents|done]. Qed.

(** C1: any sequence of operations on a fresh [PeersState] runs without a panic,
    when the limits are [u32], the operations name existing sets, reputations are
    set to [i32] values, and a set has at most [2 ^ 32 - 1] peers whenever one
    of them loses its exemption from the slots ([remove_no_slot_node], whose
    counter no limit bounds): no index out of range, no counter overflow or
    underflow, no failed debug assertion. It grants exactly the slots that the
    specification grants; the resulting table abstracts to the specification
    state; its slot counters are the numbers of connected peers that occupy a
    slot; and it keeps no entry without need. *)
Theorem peersstate_implements_spec cfg cs :
  limits_ok cfg → calls_ok cs (spec_new cfg) →
  ∃ granted st, run_calls cs (PeersState_new cfg) = Done (granted, st) ∧
    granted = (spec_calls cs (spec_new cfg)).1 ∧
    abs st = (spec_calls cs (spec_new cfg)).2 ∧
    tidy st ∧
    ∀ i s T, sets st !! i = Some s → Spec.tables (abs st) !! i = Some T →
      num_in s = Spec.occupied MS_In T ∧ num_out s = Spec.occupied MS_Out T ∧
      is_u32 (num_in s) ∧ is_u32 (num_out s).
Proof.
  intros Hl Hok. destruct (proj1 (runs_Done _ _) (calls_from_new cfg cs Hl Hok)) as ([g st] & Hrun & Hg & [Hw Ht Ha]).
  exists g, st. split_and!; try done. intros i s T Hs. rewrite abs_tables_lookup, Hs. intros [= <-].
  destruct (wf_sets _ Hw i s Hs) as [Hin Hout Hu1 Hu2 _ _]. rewrite !occupied_abs by done. auto.
Qed.

(** C2: as long as no reserved peer is turned back into an ordinary one, the
    number of slots in use never exceeds the configured limits, in either
    direction and in any set. *)
Theorem slots_within_limits cfg cs granted st i s :
  limits_ok cfg → calls_ok cs (spec_new cfg) → forallb keeps_slots cs = true →
  run_calls cs (PeersState_new cfg) = Done (granted, st) → sets st !! i = Some s →
  0 ≤ num_in s ≤ max_in s ∧ 0 ≤ num_out s ≤ max_out s.
Proof.
  intros Hl Hok Hk Hrun Hs. pose proof (calls_from_new cfg cs Hl Hok) as Hr.
  rewrite Hrun in Hr. destruct Hr as [_ [Hw _ Ha]]. simpl in *.
  assert (within_limits (spec_new cfg)) as H0.
  { unfold within_limits, spec_new. simpl. apply Forall_fmap. eapply Forall_impl; [exact Hl|].
    intros c [[? _] [? _]]. simpl. unfold Spec.occupied. simpl. by rewrite !map_count_empty. }
  apply (within_limits_calls cs _ Hk) in H0. rewrite <- Ha in H0. unfold within_limits in H0.
  rewrite Forall_lookup in H0. specialize (H0 i (abs_table (nodes st) i s)).
  rewrite abs_tables_lookup, Hs in H0. destruct (H0 eq_refl) as [Hin Hout]. simpl in *.
  destruct (wf_sets _ Hw i s Hs) as [Ein Eout [? _] [? _] _ _].
  rewrite occupied_abs in Hin, Hout by done. rewrite <- Ein in Hin. rewrite <- Eout in Hout. lia.
Qed.

(** [highest_not_connected_peer] returns a disconnected member of the set
    whose reputation no other disconnected member exceeds, whatever the
    iteration order of the map, and nothing only if the set has no
    disconnected member. *)
Theorem highest_not_connected_peer_maximal cfg cs granted st i :
  limits_ok cfg → calls_ok cs (spec_new cfg) →
  run_calls cs (PeersState_new cfg) = Done (granted, st) → (i < num_sets st)%nat →
  ∃ found, highest_not_connected_peer st i = Done found ∧
    match found with
    | Some c =>
        (∃ t, Spec.member (abs st) i (ncp_peer_id c) = Some (MS_NotConnected t)) ∧
        ∀ q t, Spec.member (abs st) i q = Some (MS_NotConnected t) →
               Spec.reputation (abs st) q ≤ NotConnectedPeer_reputation c
    | None => ∀ q t, Spec.member (abs st) i q ≠ Some (MS_NotConnected t)
    end.
Proof.
  intros Hl Hok Hrun Hi. pose proof (calls_from_new cfg cs Hl Hok) as Hr.
  rewrite Hrun in Hr. destruct Hr as [_ Hr]. simpl in Hr. rewrite (rep_abs _ _ Hr).
  rewrite (represents_num_sets _ _ Hr) in Hi.
  destruct (proj1 (runs_Done _ _) (highest_not_connected_peer_spec st _ i Hr Hi)) as ([[st' i' p]|] & -> & Hf).
  - eexists; split; [done|]. simpl in Hf. destruct Hf as (-> & -> & Hm & Hmax). split; [done|].
    by rewrite (NotConnectedPeer_reputation_spec st _ i p Hr).
  - by eexists.
Qed.
End theorems.

(** ** Witnesses *)
Section witnesses.
#[local] Existing Instance canonical_order.

Definition example_config : list SetConfig :=
  [{| in_peers := 1; out_peers := 1 |}; {| in_peers := 0; out_peers := 2 |}].

(** Two peers ask for the only incoming slot of set 0; a third is reserved. *)
Definition example_calls : list (call (PeerId := nat)) :=
  [CallDiscover 0 0 1%nat; CallDiscover 0 0 2%nat; CallDiscover 0 0 3%nat; CallAddNoSlot 0 3%nat;
   CallAccept 0 1%nat; CallAccept 0 2%nat; CallAccept 0 3%nat; CallAddReputation 2%nat 100;
   CallDisconnect 5 0 1%nat; CallAddReputation 1%nat (-7)].

Lemma example_limits : limits_ok example_config.
Proof. unfold limits_ok, example_config, is_u32, u32_max. repeat constructor; simpl; lia. Defined.

Lemma example_calls_ok : calls_ok example_calls (spec_new example_config).
Proof. cbn [calls_ok call_ok example_calls]. repeat split; vm_compute; lia. Defined.

Lemma peersstate_implements_spec_witness :
  ∃ st, run_calls example_calls (PeersState_new example_config) =
    Done ([false; false; false; false; true; false; true; false; false; false], st) ∧ tidy st.
Proof.
  destruct (peersstate_implements_spec example_config example_calls example_limits example_calls_ok)
    as (g & st & Hrun & Hg & _ & Ht & _).
  exists st. split; [|exact Ht]. rewrite Hrun, Hg. reflexivity.
Defined.

Definition example_state : PeersState nat :=
  Eval vm_compute in
    match run_calls example_calls (PeersState_new example_config) with
    | Done r => r.2 | Panicked _ => PeersState_new [] end.

Lemma example_run :
  run_calls example_calls (PeersState_new example_config) =
    Done ([false; false; false; false; true; false; true; false; false; false], example_state).
Proof. vm_compute. reflexivity. Defined.

Lemma slots_within_limits_witness :
  ∃ s, sets example_state !! 0%nat = Some s ∧ 0 ≤ num_in s ≤ max_in s ∧ 0 ≤ num_out s ≤ max_out s.
Proof.
  eexists. split; [reflexivity|].
  apply (slots_within_limits example_config example_calls _ example_state 0
           _ example_limits example_calls_ok eq_refl example_run eq_refl).
Defined.

Lemma highest_not_connected_peer_maximal_witness :
  ∃ c, highest_not_connected_peer example_state 0 = Done (Some c) ∧ ncp_peer_id c = 2%nat ∧
    ∀ q t, Spec.member (abs example_state) 0 q = Some (MS_NotConnected t) →
           Spec.reputation (abs example_state) q ≤ NotConnectedPeer_reputation c.
Proof.
  destruct (highest_not_connected_peer_maximal example_config example_calls _ example_state 0
              example_limits example_calls_ok example_run ltac:(vm_compute; lia)) as (found & Hf & Hm).
  assert (highest_not_connected_peer example_state 0 =
            Done (Some {| ncp_state := example_state; ncp_set := 0; ncp_peer_id := 2%nat |})) as E
    by (vm_compute; reflexivity).
  rewrite Hf in E. injection E as ->. destruct Hm as [_ Hmax]. eexists. split; [exact Hf|]. split; [reflexivity|exact Hmax].
Defined.
End witnesses.
