(* ===== verification/ProtocolNames.v ===== *)
(** * Names of protocols

    Model of [network/common/protocol.rs]: a name is a static string or one on
    the heap, and the two kinds are compared, hashed and sent by their text
    alone. The other parts of the library take a name to be its text; the
    lemmas here justify it: equality of names is equality of texts, and hashing
    and borrowing respect it, which is what a [HashMap] asks of its keys. *)

From Stdlib Require Import Ascii.
From S2P Require Import Prelude.

Module ProtocolNames.

Inductive ProtocolName :=
  | Static (name : string)
  | OnHeap (name : string).

(** The three [From] implementations. *)
Definition from_static (name : string) : ProtocolName := Static name.
Definition from_arc (name : string) : ProtocolName := OnHeap name.
Definition from_string (name : string) : ProtocolName := OnHeap name.

Definition deref (p : ProtocolName) : string :=
  match p with Static name => name | OnHeap name => name end.
Definition borrow (p : ProtocolName) : string := deref p.
Definition eq (p q : ProtocolName) : bool := bool_decide (deref p = deref q).
Definition to_string (p : ProtocolName) : string := deref p.
Definition protocol_name (p : ProtocolName) : list ascii := String.list_ascii_of_string (deref p).

(** [Hash], for whatever a hasher does with a string. *)
Definition hash {H} (hash_str : string → H → H) (p : ProtocolName) (state : H) : H :=
  hash_str (deref p) state.
End ProtocolNames.

Section names.
Import ProtocolNames.

#[export] Instance ProtocolName_equiv : Equiv ProtocolName := λ p q, ProtocolNames.eq p q = true.

Lemma name_equiv p q : p ≡ q ↔ deref p = deref q.
Proof. unfold equiv, ProtocolName_equiv, ProtocolNames.eq. apply bool_decide_eq_true. Qed.

#[export] Instance ProtocolName_equivalence : Equivalence (≡@{ProtocolName}).
Proof. split; red; intros *; rewrite !name_equiv; congruence. Qed.

#[export] Instance deref_proper : Proper ((≡) ==> (=)) deref.
Proof. intros p q. apply name_equiv. Qed.
#[export] Instance borrow_proper : Proper ((≡) ==> (=)) borrow := deref_proper.
#[export] Instance to_string_proper : Proper ((≡) ==> (=)) to_string := deref_proper.
#[export] Instance protocol_name_proper : Proper ((≡) ==> (=)) protocol_name.
Proof. intros p q Hpq. unfold protocol_name. by rewrite Hpq. Qed.
#[export] Instance hash_proper {H} (hash_str : string → H → H) : Proper ((≡) ==> (=) ==> (=)) (hash hash_str).
Proof. intros p q Hpq s _ <-. unfold hash. by rewrite Hpq. Qed.

(** A name of either kind can stand for its text: it equals every name made
    from the text, hashes as the text does, and is sent as a name that only
    this text is sent as. *)
Theorem name_is_its_text {H} (hash_str : string → H → H) p q s :
  p ≡ from_string (to_string p) ∧ p ≡ from_static (to_string p) ∧
  hash hash_str p s = hash_str (borrow p) s ∧ (p ≡ q ↔ protocol_name p = protocol_name q).
Proof.
  rewrite !name_equiv. split_and!; [done..|]. split; unfold protocol_name; [by intros ->|].
  intros Heq. rewrite <- (String.string_of_list_ascii_of_string (deref p)), Heq.
  apply String.string_of_list_ascii_of_string.
Qed.
End names.
