(* ===== verification/Peerset.v ===== *)
(** * The peer set manager

    Model of [network/peerset/mod.rs]: the actions sent through
    [PeersetHandle], the messages emitted towards the network, the handlers
    of [Peerset] and its [Stream] implementation. [Instant::now] reads a
    clock, given as the successive values it returns; the peerset counts the
    readings. The channel of actions is the queue [rx], the channels that
    answer [Action::PeerReputation] are numbered and the answers recorded in
    [replies]. *)

From S2P Require Import Prelude PeersState.

(** ** Constants *)

(** We don't accept nodes whose reputation is under this value. *)
Definition BANNED_THRESHOLD : Z := 82 * (i32_min ÷ 100).
(** Reputation change for a node when we get disconnected from it. *)
Definition DISCONNECT_REPUTATION_CHANGE : Z := -256.
(** Time between a disconnection and the moment the node is forgotten. *)
Definition FORGET_AFTER : Duration := from_secs 3600.

(** ** Data *)

Abbreviation SetId := nat (only parsing).
Abbreviation IncomingIndex := Z (only parsing).

Record ReputationChange := mkReputationChange {
  change_value : Z;
  change_reason : string;
}.

Definition ReputationChange_new (value : Z) (reason : string) : ReputationChange :=
  {| change_value := value; change_reason := reason |}.
Definition ReputationChange_new_fatal (reason : string) : ReputationChange :=
  {| change_value := i32_min; change_reason := reason |}.

(** Reason for calling [dropped]. *)
Inductive DropReason := DR_Unknown | DR_Refused.

Section data.
Context {PeerId : Type} `{Countable PeerId}.

Inductive Action :=
  | AddReservedPeer (set_id : SetId) (peer_id : PeerId)
  | RemoveReservedPeer (set_id : SetId) (peer_id : PeerId)
  | SetReservedPeers (set_id : SetId) (peer_ids : gset PeerId)
  | SetReservedOnly (set_id : SetId) (reserved : bool)
  | ReportPeer (peer_id : PeerId) (score_diff : ReputationChange)
  | AddToPeersSet (set_id : SetId) (peer_id : PeerId)
  | RemoveFromPeersSet (set_id : SetId) (peer_id : PeerId)
  | PeerReputation (peer_id : PeerId) (pending_response : nat)
  | ConnectToPeer (peer : PeerId).

Inductive Message :=
  | Connect (set_id : SetId) (peer_id : PeerId)
  | Drop (set_id : SetId) (peer_id : PeerId)
  | Accept (index : IncomingIndex)
  | Reject (index : IncomingIndex).

(** Configuration of one set, as passed by the network. *)
Record PeersetSetConfig := mkPeersetSetConfig {
  cfg_in_peers : Z;
  cfg_out_peers : Z;
  cfg_bootnodes : list PeerId;
  cfg_reserved_nodes : gset PeerId;
  cfg_reserved_only : bool;
}.

Record Peerset := mkPeerset {
  data : PeersState PeerId;
  reserved_nodes : list (gset PeerId * bool);
  rx : list Action;
  message_queue : list Message;
  created : Instant;
  latest_time_update : Instant;
  next_periodic_alloc_slots : Instant;
  clock_reads : nat;
  replies : list (nat * Z);
}.

Definition with_data (d : PeersState PeerId) (ps : Peerset) : Peerset :=
  {| data := d; reserved_nodes := reserved_nodes ps; rx := rx ps; message_queue := message_queue ps;
     created := created ps; latest_time_update := latest_time_update ps;
     next_periodic_alloc_slots := next_periodic_alloc_slots ps;
     clock_reads := clock_reads ps; replies := replies ps |}.
Definition with_reserved (r : list (gset PeerId * bool)) (ps : Peerset) : Peerset :=
  {| data := data ps; reserved_nodes := r; rx := rx ps; message_queue := message_queue ps;
     created := created ps; latest_time_update := latest_time_update ps;
     next_periodic_alloc_slots := next_periodic_alloc_slots ps;
     clock_reads := clock_reads ps; replies := replies ps |}.
Definition with_rx (q : list Action) (ps : Peerset) : Peerset :=
  {| data := data ps; reserved_nodes := reserved_nodes ps; rx := q; message_queue := message_queue ps;
     created := created ps; latest_time_update := latest_time_update ps;
     next_periodic_alloc_slots := next_periodic_alloc_slots ps;
     clock_reads := clock_reads ps; replies := replies ps |}.
Definition with_queue (q : list Message) (ps : Peerset) : Peerset :=
  {| data := data ps; reserved_nodes := reserved_nodes ps; rx := rx ps; message_queue := q;
     created := created ps; latest_time_update := latest_time_update ps;
     next_periodic_alloc_slots := next_periodic_alloc_slots ps;
     clock_reads := clock_reads ps; replies := replies ps |}.
Definition with_time (latest periodic : Instant) (reads : nat) (ps : Peerset) : Peerset :=
  {| data := data ps; reserved_nodes := reserved_nodes ps; rx := rx ps; message_queue := message_queue ps;
     created := created ps; latest_time_update := latest;
     next_periodic_alloc_slots := periodic; clock_reads := reads; replies := replies ps |}.
Definition with_replies (r : list (nat * Z)) (ps : Peerset) : Peerset :=
  {| data := data ps; reserved_nodes := reserved_nodes ps; rx := rx ps; message_queue := message_queue ps;
     created := created ps; latest_time_update := latest_time_update ps;
     next_periodic_alloc_slots := next_periodic_alloc_slots ps;
     clock_reads := clock_reads ps; replies := r |}.

Definition push_back (m : Message) (ps : Peerset) : Peerset :=
  with_queue (message_queue ps ++ [m]) ps.

(** ** [PeersetHandle]: every method sends one action. *)
Definition unbounded_send (a : Action) (ps : Peerset) : Peerset := with_rx (rx ps ++ [a]) ps.

Definition handle_add_reserved_peer (set_id : SetId) (p : PeerId) : Peerset → Peerset :=
  unbounded_send (AddReservedPeer set_id p).
Definition handle_remove_reserved_peer (set_id : SetId) (p : PeerId) : Peerset → Peerset :=
  unbounded_send (RemoveReservedPeer set_id p).
Definition handle_set_reserved_only (set_id : SetId) (b : bool) : Peerset → Peerset :=
  unbounded_send (SetReservedOnly set_id b).
Definition handle_set_reserved_peers (set_id : SetId) (l : gset PeerId) : Peerset → Peerset :=
  unbounded_send (SetReservedPeers set_id l).
Definition handle_report_peer (p : PeerId) (c : ReputationChange) : Peerset → Peerset :=
  unbounded_send (ReportPeer p c).
Definition handle_connect_to_peer (p : PeerId) : Peerset → Peerset :=
  unbounded_send (ConnectToPeer p).
Definition handle_add_to_peers_set (set_id : SetId) (p : PeerId) : Peerset → Peerset :=
  unbounded_send (AddToPeersSet set_id p).
Definition handle_remove_from_peers_set (set_id : SetId) (p : PeerId) : Peerset → Peerset :=
  unbounded_send (RemoveFromPeersSet set_id p).
Definition handle_peer_reputation (p : PeerId) (reply_to : nat) : Peerset → Peerset :=
  unbounded_send (PeerReputation p reply_to).
End data.

Arguments Action PeerId {_ _}.
Arguments Message PeerId : clear implicits.
Arguments PeersetSetConfig PeerId {_ _}.
Arguments Peerset PeerId {_ _}.

#[export] Instance Message_eq_dec `{EqDecision PeerId} : EqDecision (Message PeerId).
Proof. solve_decision. Defined.

(** One second of decay: the reputation moves towards zero. *)
Definition reput_tick (reput : Z) : Z :=
  let diff := reput ÷ 50 in
  let diff := if (diff =? 0) && (reput <? 0) then -1
              else if (diff =? 0) && (0 <? reput) then 1
              else diff in
  i32_saturating_sub reput diff.

(** ** [impl Peerset] *)
Section peerset.
Context {PeerId : Type} `{Countable PeerId, !HashOrder PeerId}.

(** The successive values of [Instant::now]. *)
Context (clock : nat → Instant).

(** Whether a timer armed for [deadline] is reported as ready at [now]. *)
Context (delay_ready : Instant → Instant → bool).

Implicit Types (ps : Peerset PeerId) (peer_id : PeerId) (set_id : SetId).

Definition read_clock (ps : Peerset PeerId) : Instant * Peerset PeerId :=
  (clock (clock_reads ps),
   with_time (latest_time_update ps) (next_periodic_alloc_slots ps) (S (clock_reads ps)) ps).

(** The body of [alloc_slots] is commented out in the source: it does
    nothing. *)
Definition alloc_slots (_set_id : SetId) (ps : Peerset PeerId) : Peerset PeerId := ps.

Definition on_add_reserved_peer (set_id : SetId) (peer_id : PeerId) (ps : Peerset PeerId) :
    outcome (Peerset PeerId) :=
  r ← index (reserved_nodes ps) set_id;
  let newly_inserted := negb (bool_decide (peer_id ∈ r.1)) in
  if negb newly_inserted then mret ps
  else
    rs ← index_set (reserved_nodes ps) set_id ({[peer_id]} ∪ r.1, r.2);
    let ps := with_reserved rs ps in
    d ← add_no_slot_node (data ps) set_id peer_id;
    mret (alloc_slots set_id (with_data d ps)).

Definition on_remove_reserved_peer (set_id : SetId) (peer_id : PeerId) (ps : Peerset PeerId) :
    outcome (Peerset PeerId) :=
  r ← index (reserved_nodes ps) set_id;
  if negb (bool_decide (peer_id ∈ r.1)) then mret ps
  else
    rs ← index_set (reserved_nodes ps) set_id (r.1 ∖ {[peer_id]}, r.2);
    let ps := with_reserved rs ps in
    d ← remove_no_slot_node (data ps) set_id peer_id;
    let ps := with_data d ps in
    r ← index (reserved_nodes ps) set_id;
    if negb r.2 then mret ps
    else
      e ← peer (data ps) set_id peer_id;
      match e with
      | Peer_Connected c =>
          let (now, ps) := read_clock ps in
          c ← disconnect now c;
          mret (push_back (Drop set_id peer_id) (with_data (ncp_state c) ps))
      | _ => mret ps
      end.

Definition on_set_reserved_peers (set_id : SetId) (peer_ids : gset PeerId) (ps : Peerset PeerId) :
    outcome (Peerset PeerId) :=
  r ← index (reserved_nodes ps) set_id;
  let to_insert := hash_keys (peer_ids ∖ r.1) in
  let to_remove := hash_keys (r.1 ∖ peer_ids) in
  ps ← for_each (λ ps node, on_add_reserved_peer set_id node ps) to_insert ps;
  for_each (λ ps node, on_remove_reserved_peer set_id node ps) to_remove ps.

(** One iteration of the loop of [on_set_reserved_only]. *)
Definition disconnect_unless_reserved (set_id : SetId) (ps : Peerset PeerId) (peer_id : PeerId) :
    outcome (Peerset PeerId) :=
  r ← index (reserved_nodes ps) set_id;
  if bool_decide (peer_id ∈ r.1) then mret ps
  else
    e ← peer (data ps) set_id peer_id;
    c ← expect (into_connected e);
    let (now, ps) := read_clock ps in
    c ← disconnect now c;
    mret (push_back (Drop set_id peer_id) (with_data (ncp_state c) ps)).

Definition on_set_reserved_only (set_id : SetId) (reserved_only : bool) (ps : Peerset PeerId) :
    outcome (Peerset PeerId) :=
  r ← index (reserved_nodes ps) set_id;
  rs ← index_set (reserved_nodes ps) set_id (r.1, reserved_only);
  let ps := with_reserved rs ps in
  if reserved_only then
    l ← connected_peers (data ps) set_id;
    for_each (disconnect_unless_reserved set_id) l ps
  else mret (alloc_slots set_id ps).

Definition add_to_peers_set (set_id : SetId) (peer_id : PeerId) (ps : Peerset PeerId) :
    outcome (Peerset PeerId) :=
  e ← peer (data ps) set_id peer_id;
  match e with
  | Peer_Unknown c =>
      let (now, ps) := read_clock ps in
      c ← discover now c;
      mret (alloc_slots set_id (with_data (ncp_state c) ps))
  | _ => mret ps
  end.

Definition on_remove_from_peers_set (set_id : SetId) (peer_id : PeerId) (ps : Peerset PeerId) :
    outcome (Peerset PeerId) :=
  r ← index (reserved_nodes ps) set_id;
  if bool_decide (peer_id ∈ r.1) then mret ps
  else
    e ← peer (data ps) set_id peer_id;
    match e with
    | Peer_Connected c =>
        let ps := push_back (Drop set_id (cp_peer_id c)) ps in
        let (now, ps) := read_clock ps in
        c ← disconnect now c;
        c ← forget_peer c;
        mret (with_data (up_parent c) ps)
    | Peer_NotConnected c => c ← forget_peer c; mret (with_data (up_parent c) ps)
    | Peer_Unknown _ => mret ps
    end.

(** *** [update_time] *)

(** If a peer without reputation is disconnected for long enough, forget it. *)
Definition forget_if_old (now : Instant) (peer_id : PeerId) (d : PeersState PeerId) (set_index : nat) :
    outcome (PeersState PeerId) :=
  e ← peer d set_index peer_id;
  match e with
  | Peer_Connected _ => mret d
  | Peer_NotConnected c =>
      t ← last_connected_or_discovered now c;
      if t + FORGET_AFTER <? now then c ← forget_peer c; mret (up_parent c) else mret d
  | Peer_Unknown _ => mret d
  end.

(** One peer, one second. *)
Definition tick_peer (now : Instant) (d : PeersState PeerId) (peer_id : PeerId) :
    outcome (PeersState PeerId) :=
  let r := peer_reputation d peer_id in
  before ← Reputation_reputation r;
  let after := reput_tick before in
  r ← Reputation_set_reputation after r;
  d ← Reputation_drop r;
  if negb (after =? 0) then mret d
  else for_each (forget_if_old now peer_id) (seq 0 (num_sets d)) d.

(** One second: every known peer once. *)
Definition tick_second (now : Instant) (d : PeersState PeerId) (_ : nat) : outcome (PeersState PeerId) :=
  for_each (tick_peer now) (peers d) d.

(** Whole seconds since the previous update. *)
Definition elapsed_seconds (now : Instant) (ps : Peerset PeerId) : outcome Z :=
  let elapsed_latest := instant_sub (latest_time_update ps) (created ps) in
  let elapsed_now := instant_sub now (created ps) in
  u64_sub (as_secs elapsed_now) (as_secs elapsed_latest).

Definition update_time (ps : Peerset PeerId) : outcome (Peerset PeerId) :=
  let (now, ps) := read_clock ps in
  secs_diff ← elapsed_seconds now ps;
  let ps := with_time now (next_periodic_alloc_slots ps) (clock_reads ps) ps in
  d ← for_each (tick_second now) (seq 0 (Z.to_nat secs_diff)) (data ps);
  mret (with_data d ps).

(** *** Reports *)

(** One set of the loop of [on_report_peer]. *)
Definition drop_if_connected (peer_id : PeerId) (ps : Peerset PeerId) (set_index : nat) :
    outcome (Peerset PeerId) :=
  e ← peer (data ps) set_index peer_id;
  match e with
  | Peer_Connected c =>
      let (now, ps) := read_clock ps in
      c ← disconnect now c;
      let ps := push_back (Drop set_index (ncp_peer_id c)) (with_data (ncp_state c) ps) in
      mret (alloc_slots set_index ps)
  | _ => mret ps
  end.

Definition on_report_peer (peer_id : PeerId) (change : ReputationChange) (ps : Peerset PeerId) :
    outcome (Peerset PeerId) :=
  ps ← update_time ps;
  r ← Reputation_add_reputation (change_value change) (peer_reputation (data ps) peer_id);
  v ← Reputation_reputation r;
  d ← Reputation_drop r;
  let ps := with_data d ps in
  if BANNED_THRESHOLD <=? v then mret ps
  else for_each (drop_if_connected peer_id) (seq 0 (num_sets (data ps))) ps.

Definition on_peer_reputation (peer_id : PeerId) (pending_response : nat) (ps : Peerset PeerId) :
    outcome (Peerset PeerId) :=
  let r := peer_reputation (data ps) peer_id in
  v ← Reputation_reputation r;
  d ← Reputation_drop r;
  mret (with_replies (replies ps ++ [(pending_response, v)]) (with_data d ps)).

Definition connect_to_peer (peer_id : PeerId) (ps : Peerset PeerId) : Peerset PeerId :=
  push_back (Connect 0 peer_id) ps.

(** *** Calls made by the network *)

(** The answer to an incoming connection of a peer that is not connected. *)
Definition answer_incoming (idx : IncomingIndex) (not_connected : NotConnectedPeer PeerId)
    (ps : Peerset PeerId) : outcome (Peerset PeerId) :=
  if NotConnectedPeer_reputation not_connected <? BANNED_THRESHOLD then
    mret (push_back (Reject idx) (with_data (ncp_state not_connected) ps))
  else
    res ← try_accept_incoming not_connected;
    match res with
    | Ok c => mret (push_back (Accept idx) (with_data (cp_state c) ps))
    | Err c => mret (push_back (Reject idx) (with_data (ncp_state c) ps))
    end.

Definition incoming (set_id : SetId) (peer_id : PeerId) (idx : IncomingIndex) (ps : Peerset PeerId) :
    outcome (Peerset PeerId) :=
  ps ← update_time ps;
  r ← index (reserved_nodes ps) set_id;
  if r.2 && negb (bool_decide (peer_id ∈ r.1)) then mret (push_back (Reject idx) ps)
  else
    e ← peer (data ps) set_id peer_id;
    match e with
    | Peer_Connected _ => mret ps
    | Peer_NotConnected c =>
        let (now, ps) := read_clock ps in
        c ← bump_last_connected_or_discovered now c;
        answer_incoming idx c ps
    | Peer_Unknown c =>
        let (now, ps) := read_clock ps in
        c ← discover now c;
        answer_incoming idx c ps
    end.

Definition dropped (set_id : SetId) (peer_id : PeerId) (reason : DropReason) (ps : Peerset PeerId) :
    outcome (Peerset PeerId) :=
  ps ← update_time ps;
  e ← peer (data ps) set_id peer_id;
  ps ← match e with
       | Peer_Connected c =>
           c ← ConnectedPeer_add_reputation DISCONNECT_REPUTATION_CHANGE c;
           let (now, ps) := read_clock ps in
           c ← disconnect now c;
           mret (with_data (ncp_state c) ps)
       | Peer_NotConnected _ | Peer_Unknown _ => mret ps
       end;
  ps ← match reason with
       | DR_Refused => on_remove_from_peers_set set_id peer_id ps
       | DR_Unknown => mret ps
       end;
  mret (alloc_slots set_id ps).

Definition report_peer (peer_id : PeerId) (score_diff : ReputationChange) (ps : Peerset PeerId) :
    Peerset PeerId :=
  unbounded_send (ReportPeer peer_id score_diff) ps.

Definition num_discovered_peers (ps : Peerset PeerId) : nat := length (peers (data ps)).

Definition reserved_peers (set_id : SetId) (ps : Peerset PeerId) : outcome (list PeerId) :=
  r ← index (reserved_nodes ps) set_id; mret (hash_keys r.1).

(** *** Construction *)

Definition add_bootnode (set : nat) (ps : Peerset PeerId) (peer_id : PeerId) : outcome (Peerset PeerId) :=
  e ← peer (data ps) set peer_id;
  match e with
  | Peer_Unknown c =>
      let (now, ps) := read_clock ps in
      c ← discover now c;
      mret (with_data (ncp_state c) ps)
  | _ => mret ps
  end.

Definition configure_set (ps : Peerset PeerId) (sc : nat * PeersetSetConfig PeerId) : outcome (Peerset PeerId) :=
  let (set, set_config) := sc in
  d ← for_each (λ d node, add_no_slot_node d set node)
        (hash_keys (cfg_reserved_nodes set_config)) (data ps);
  for_each (add_bootnode set) (cfg_bootnodes set_config) (with_data d ps).

Definition from_config (config : list (PeersetSetConfig PeerId)) : outcome (Peerset PeerId) :=
  let now := clock 0 in
  let ps := {|
    data := PeersState_new ((λ c, {| in_peers := cfg_in_peers c; out_peers := cfg_out_peers c |}) <$> config);
    reserved_nodes := (λ c, (cfg_reserved_nodes c, cfg_reserved_only c)) <$> config;
    rx := []; message_queue := [];
    created := now; latest_time_update := now; next_periodic_alloc_slots := now;
    clock_reads := 1; replies := [] |} in
  ps ← for_each configure_set (imap pair config) ps;
  mret (foldl (λ ps set_index, alloc_slots set_index ps) ps (seq 0 (num_sets (data ps)))).

(** *** [impl Stream for Peerset] *)

Definition handle_action (action : Action PeerId) (ps : Peerset PeerId) : outcome (Peerset PeerId) :=
  match action with
  | AddReservedPeer set_id peer_id => on_add_reserved_peer set_id peer_id ps
  | RemoveReservedPeer set_id peer_id => on_remove_reserved_peer set_id peer_id ps
  | SetReservedPeers set_id peer_ids => on_set_reserved_peers set_id peer_ids ps
  | SetReservedOnly set_id reserved => on_set_reserved_only set_id reserved ps
  | ReportPeer peer_id score_diff => on_report_peer peer_id score_diff ps
  | AddToPeersSet set_id peer_id => add_to_peers_set set_id peer_id ps
  | RemoveFromPeersSet set_id peer_id => on_remove_from_peers_set set_id peer_id ps
  | PeerReputation peer_id pending_response => on_peer_reputation peer_id pending_response ps
  | ConnectToPeer peer_id => mret (connect_to_peer peer_id ps)
  end.

(** The periodic timer: re-armed for one second, then [alloc_slots] on every
    set. *)
Definition poll_periodic (ps : Peerset PeerId) : Peerset PeerId :=
  let (now, ps) := read_clock ps in
  if delay_ready (next_periodic_alloc_slots ps) now then
    let ps := with_time (latest_time_update ps) (now + from_secs 1) (clock_reads ps) ps in
    foldl (λ ps set_index, alloc_slots set_index ps) ps (seq 0 (num_sets (data ps)))
  else ps.

(** [Poll]: [None] is [Poll::Pending]. The loop of the source is bounded by
    [fuel] iterations; running out of fuel is a distinct outcome. *)
Inductive poll_result :=
  | Polled (msg : option (Message PeerId)) (ps : Peerset PeerId)
  | OutOfFuel.

Fixpoint poll_loop (fuel : nat) (ps : Peerset PeerId) : outcome poll_result :=
  match fuel with
  | O => mret OutOfFuel
  | S fuel =>
      match message_queue ps with
      | m :: q => mret (Polled (Some m) (with_queue q ps))
      | [] =>
          let ps := poll_periodic ps in
          match rx ps with
          | [] => mret (Polled None ps)
          | action :: q =>
              ps ← handle_action action (with_rx q ps);
              poll_loop fuel ps
          end
      end
  end.

Definition poll_next (ps : Peerset PeerId) : outcome poll_result :=
  poll_loop (S (length (rx ps))) ps.

End peerset.
