(* ===== verification/PeersetFacts.v ===== *)
(** * The peer set manager: invariant and behaviour of every handler

    Lemmas about [Peerset]: the invariant of the manager, what each handler
    does to the specification state of [PeersState.Spec], and which messages
    it emits. The claims built on them are in [PeersetTheorems]. *)

From S2P Require Import Prelude PeersState PeersSpecFacts Peerset.

(** ** The decay of reputations *)

Lemma reput_tick_i32 r : is_i32 (reput_tick r).
Proof. apply i32_clamp_range. Qed.

Ltac tick_arith :=
  unfold is_i32, reput_tick, i32_saturating_sub, i32_clamp, i32_min, i32_max in *;
  repeat case_match; Z.to_euclidean_division_equations; lia.

Lemma reput_tick_0 : reput_tick 0 = 0.
Proof. reflexivity. Qed.

Lemma reput_tick_mono r r' : is_i32 r → is_i32 r' → r ≤ r' → reput_tick r ≤ reput_tick r'.
Proof. intros. tick_arith. Qed.

Lemma reput_tick_towards_zero r :
  is_i32 r → (0 < r → 0 ≤ reput_tick r < r) ∧ (r < 0 → r < reput_tick r ≤ 0).
Proof. intros. split; intros; tick_arith. Qed.

(** [n] seconds of decay. *)
Definition decay (n : nat) (r : Z) : Z := Nat.iter n reput_tick r.

Lemma decay_S n r : decay (S n) r = decay n (reput_tick r).
Proof. unfold decay. by rewrite Nat.iter_succ_r. Qed.

Lemma decay_add m n r : decay (m + n) r = decay m (decay n r).
Proof. unfold decay. apply Nat.iter_add. Qed.

Lemma decay_0 n : decay n 0 = 0.
Proof. induction n as [|n IH]; [done|]. by rewrite decay_S, reput_tick_0. Qed.

Lemma decay_i32 n r : is_i32 r → is_i32 (decay n r).
Proof. intros Hr. destruct n; [done|]. apply reput_tick_i32. Qed.

Lemma decay_mono n r r' : is_i32 r → is_i32 r' → r ≤ r' → decay n r ≤ decay n r'.
Proof.
  intros Hr Hr' Hle. induction n as [|n IH]; [done|]. simpl.
  apply reput_tick_mono; [by apply decay_i32..|done].
Qed.

Section facts.
Context {PeerId : Type} `{Countable PeerId, !HashOrder PeerId}.
Context (clock : nat → Instant).
Implicit Types (ps : Peerset PeerId) (a : Spec.t PeerId) (d : PeersState PeerId)
  (T : Spec.table PeerId) (p q : PeerId) (i j : nat).

(** ** Ageing: what the passage of time does to the specification *)

(** Some disconnected members have been forgotten. *)
Record table_aged (T T' : Spec.table PeerId) : Prop := {
  ta_slotless : Spec.slotless T' = Spec.slotless T;
  ta_limit_in : Spec.limit_in T' = Spec.limit_in T;
  ta_limit_out : Spec.limit_out T' = Spec.limit_out T;
  ta_members : ∀ p, Spec.members T' !! p = Spec.members T !! p ∨
                    ((∃ t, Spec.members T !! p = Some (MS_NotConnected t)) ∧ Spec.members T' !! p = None);
}.

#[local] Instance table_aged_preorder : PreOrder table_aged.
Proof.
  split.
  - intros T. split; auto.
  - intros T1 T2 T3 [E1 E2 E3 E4] [F1 F2 F3 F4]. split; [congruence..|].
    intros p. destruct (E4 p) as [Ha|[Ht Hn]], (F4 p) as [Hb|[Ht' Hn']]; rewrite ?Ha, ?Hb in *; auto.
Qed.

Definition tables_aged (a a' : Spec.t PeerId) : Prop := Forall2 table_aged (Spec.tables a) (Spec.tables a').

#[local] Instance tables_aged_preorder : PreOrder tables_aged.
Proof.
  split.
  - intros a. unfold tables_aged. reflexivity.
  - intros a1 a2 a3 H1 H2. unfold tables_aged in *. by etrans.
Qed.

Lemma tables_aged_length a a' : tables_aged a a' → length (Spec.tables a') = length (Spec.tables a).
Proof. intros Ha. symmetry. by eapply Forall2_length. Qed.

Lemma tables_aged_slotless a a' : tables_aged a a' → slotless_list a' = slotless_list a.
Proof.
  unfold tables_aged, slotless_list. induction 1 as [|T T' ?? HT _ IH]; [done|].
  rewrite !fmap_cons, IH. by destruct HT as [-> _ _ _].
Qed.

Lemma tables_aged_member a a' i p :
  tables_aged a a' →
  Spec.member a' i p = Spec.member a i p ∨
  ((∃ t, Spec.member a i p = Some (MS_NotConnected t)) ∧ Spec.member a' i p = None).
Proof.
  intros Ha. unfold Spec.member, tables_aged in *.
  destruct (Spec.tables a !! i) as [T|] eqn:HT.
  - destruct (Forall2_lookup_l _ _ _ _ _ Ha HT) as (T' & -> & HTT'). simpl. apply HTT'.
  - left. apply lookup_ge_None in HT. rewrite (Forall2_length _ _ _ Ha) in HT.
    apply lookup_ge_None in HT. by rewrite HT.
Qed.

Lemma tables_aged_connected a a' i p m :
  tables_aged a a' → is_connected m = true →
  Spec.member a' i p = Some m ↔ Spec.member a i p = Some m.
Proof.
  intros Ha Hm. destruct (tables_aged_member a a' i p Ha) as [->|[[t ->] ->]]; [done|].
  by destruct m.
Qed.

Lemma occupied_aged dir T T' :
  is_connected dir = true → table_aged T T' → Spec.occupied dir T' = Spec.occupied dir T.
Proof.
  intros Hd [Hs _ _ Hm]. unfold Spec.occupied, map_count. do 2 f_equal.
  apply map_eq. intros p. apply option_eq. intros m. rewrite !map_lookup_filter_Some; simpl.
  unfold Spec.takes_slot. rewrite Hs.
  destruct (Hm p) as [->|[[t ->] ->]]; [done|]. split; [by intros []|].
  intros [[= <-] Hf]. apply andb_prop in Hf as [Hf%bool_decide_eq_true_1 _]. by subst.
Qed.

Lemma may_connect_aged dir limit a a' i p :
  is_connected dir = true → (∀ T T', table_aged T T' → limit T' = limit T) →
  tables_aged a a' → Spec.may_connect dir limit a' i p = Spec.may_connect dir limit a i p.
Proof.
  intros Hd Hl Ha. unfold Spec.may_connect.
  destruct (Spec.tables a !! i) as [T|] eqn:HT.
  - destruct (Forall2_lookup_l _ _ _ _ _ Ha HT) as (T' & -> & HTT').
    by rewrite (occupied_aged dir T T'), (Hl T T'), (ta_slotless T T').
  - destruct (Spec.tables a' !! i) eqn:HT'; [|done]. exfalso.
    destruct (Forall2_lookup_r _ _ _ _ _ Ha HT') as (? & ? & _). congruence.
Qed.

(** ** [update_time] *)

Lemma tables_aged_forget i p t a :
  Spec.member a i p = Some (MS_NotConnected t) → tables_aged a (Spec.assign i p MS_NotMember a).
Proof.
  intros Hm. unfold tables_aged. apply Forall2_same_length_lookup_2; [by rewrite assign_length|].
  intros j T T' HT. unfold Spec.assign. rewrite on_table_lookup, HT. case_decide as Hij; simpl; intros [= <-]; [|done].
  subst j. unfold Spec.member in Hm. rewrite HT in Hm. simpl in Hm.
  split; [done..|]. intros q. simpl. destruct (decide (p = q)) as [<-|Hne].
  - right. rewrite lookup_delete_eq. eauto.
  - left. by rewrite lookup_delete_ne.
Qed.

Lemma forget_if_old_spec now p d a i :
  represents d a → (i < length (Spec.tables a))%nat →
  runs (forget_if_old now p d i) (λ d', ∃ a', represents d' a' ∧ tables_aged a a' ∧
    Spec.reputations a' = Spec.reputations a).
Proof.
  intros Hr Hlt. unfold forget_if_old. rewrite (peer_spec d a i p Hr Hlt). simpl.
  destruct (Spec.member a i p) as [m|] eqn:Hm; [|by exists a].
  destruct (is_connected m) eqn:Hc; [by exists a|].
  destruct m as [| | |t]; try done; [by eapply member_not_NotMember in Hm|].
  rewrite (last_connected_or_discovered_spec now d a i p t Hr Hm). simpl.
  destruct (t + FORGET_AFTER <? now); [|by exists a].
  apply runs_bind. eapply runs_mono; [by eapply forget_peer_spec|].
  intros c (_ & _ & Hr'). eexists. split_and!; [exact Hr'|by eapply tables_aged_forget|done].
Qed.

Lemma tick_peer_spec now p d a :
  represents d a →
  runs (tick_peer now d p) (λ d', ∃ a', represents d' a' ∧ tables_aged a a' ∧
    ∀ q, Spec.reputation a' q = if decide (p = q) then reput_tick (Spec.reputation a q) else Spec.reputation a q).
Proof.
  intros Hr. unfold tick_peer. pose proof (peer_reputation_spec d a p Hr) as Hg.
  rewrite (Reputation_reputation_spec _ _ _ Hg). simpl. apply runs_bind.
  set (after := reput_tick _).
  eapply runs_mono; [by apply Reputation_set_reputation_spec; [|apply reput_tick_i32]|].
  intros r' Hg'. apply runs_bind. eapply runs_mono; [eapply Reputation_drop_spec, Hg'|].
  simpl. intros d1 Hr1. set (a1 := Spec.set_reputation p after a) in *.
  assert (∀ q, Spec.reputation a1 q =
            if decide (p = q) then reput_tick (Spec.reputation a q) else Spec.reputation a q) as Hrep.
  { intros q. unfold a1. case_decide; [subst; by rewrite reputation_set_eq|by apply reputation_set_ne]. }
  assert (tables_aged a a1) as Ha1 by (unfold tables_aged; simpl; reflexivity).
  destruct (after =? 0); simpl; [|by exists a1].
  eapply runs_mono.
  - apply (runs_for_each_inv _ (λ d', ∃ a', represents d' a' ∧ tables_aged a1 a' ∧
      Spec.reputations a' = Spec.reputations a1)); [by exists a1|].
    intros i d' Hin (a' & Hr' & Ha' & Hrs).
    eapply runs_mono; [apply forget_if_old_spec; [exact Hr'|]|].
    + apply elem_of_seq in Hin. rewrite (tables_aged_length _ _ Ha').
      rewrite (represents_num_sets _ _ Hr1) in Hin. lia.
    + intros d'' (a'' & Hr'' & Ha'' & Hrs'). exists a''. split_and!; [done|by etrans|congruence].
  - intros d' (a' & Hr' & Ha' & Hrs). exists a'. split_and!; [done|by etrans|].
    intros q. rewrite <- Hrep. unfold Spec.reputation. by rewrite Hrs.
Qed.

Lemma reputation_unknown d a p : represents d a → p ∉ peers d → Spec.reputation a p = 0.
Proof.
  intros Hr Hp. rewrite <- (rep_abs _ _ Hr), reputation_abs.
  unfold peers in Hp. rewrite elem_of_hash_keys, elem_of_dom in Hp.
  destruct (nodes d !! p); [|done]. destruct Hp. eauto.
Qed.

Lemma tick_second_spec now k d a :
  represents d a →
  runs (tick_second now d k) (λ d', ∃ a', represents d' a' ∧ tables_aged a a' ∧
    ∀ q, Spec.reputation a' q = reput_tick (Spec.reputation a q)).
Proof.
  intros Hr. unfold tick_second.
  eapply runs_mono.
  - apply (runs_for_each _ (λ l d', NoDup l ∧ (∀ q, q ∈ l → q ∈ peers d) ∧
      ∃ a', represents d' a' ∧ tables_aged a a' ∧
        ∀ q, Spec.reputation a' q =
          if decide (q ∈ l) then Spec.reputation a q else
          if decide (q ∈ peers d) then reput_tick (Spec.reputation a q) else Spec.reputation a q)
      (peers d) d).
    + split_and!; [apply NoDup_hash_keys|done|]. exists a. split_and!; [done..|].
      intros q. by repeat case_decide.
    + intros p l d' (Hnd & Hin & a' & Hr' & Ha' & Hrep). apply NoDup_cons in Hnd as [Hp Hnd].
      eapply runs_mono; [by apply tick_peer_spec|].
      intros d'' (a'' & Hr'' & Ha'' & Hrep''). split_and!; [done|set_solver|].
      exists a''. split_and!; [done|by etrans|]. intros q. rewrite Hrep'', Hrep.
      destruct (decide (p = q)) as [<-|Hne].
      * rewrite (decide_True (P := p ∈ p :: l)) by set_solver. rewrite (decide_False (P := p ∈ l)) by done.
        rewrite (decide_True (P := p ∈ peers d)) by (apply Hin; set_solver). done.
      * destruct (decide (q ∈ l)); [rewrite decide_True by set_solver; done|].
        rewrite (decide_False (P := q ∈ p :: l)) by set_solver. done.
  - intros d' (_ & _ & a' & Hr' & Ha' & Hrep). exists a'. split_and!; [done..|].
    intros q. rewrite Hrep, decide_False by set_solver. case_decide as Hq; [done|].
    by rewrite (reputation_unknown d a q).
Qed.

Lemma tick_seconds_spec now n k d a :
  represents d a →
  runs (for_each (tick_second now) (seq k n) d) (λ d', ∃ a', represents d' a' ∧ tables_aged a a' ∧
    ∀ q, Spec.reputation a' q = decay n (Spec.reputation a q)).
Proof.
  revert k d a. induction n as [|n IH]; intros k d a Hr; [by exists a|].
  simpl. apply runs_bind. eapply runs_mono; [by apply tick_second_spec|].
  intros d1 (a1 & Hr1 & Ha1 & Hrep1). eapply runs_mono; [by apply IH|].
  intros d2 (a2 & Hr2 & Ha2 & Hrep2). exists a2. split_and!; [done|by etrans|].
  intros q. rewrite Hrep2, Hrep1, <- decay_S. done.
Qed.

(** ** The invariant *)

(** Is [q] connected in set [j]? *)
Definition connected (a : Spec.t PeerId) (j : nat) (q : PeerId) : bool :=
  match Spec.member a j q with Some m => is_connected m | None => false end.

(** Sets that are being reconfigured: [on_set_reserved_only] sets the flag of a
    set before it disconnects the peers. Empty between two handlers. *)
Context (busy : nat → Prop).

(** The peers the manager ever hears of: there are fewer than [2 ^ 32], so that
    no counter overflows. *)
Context (U : gset PeerId).

Record pinv (ps : Peerset PeerId) (a : Spec.t PeerId) : Prop := {
  (** The data represents the specification state. *)
  pi_represents : represents (data ps) a;
  (** The reserved nodes are in sync with the nodes that take no slot. *)
  pi_reserved : (reserved_nodes ps).*1 = slotless_list a;
  (** In reserved-only mode, only reserved nodes are connected. *)
  pi_only : ∀ i r q, ¬ busy i → reserved_nodes ps !! i = Some r → r.2 = true →
            connected a i q = true → q ∈ r.1;
  (** Only peers of [U] are known. *)
  pi_universe : ∀ i q, Spec.member a i q ≠ None → q ∈ U;
  (** The clock has not gone back. *)
  pi_created : created ps ≤ latest_time_update ps;
  pi_latest : ∀ k, (clock_reads ps ≤ k)%nat → latest_time_update ps ≤ clock k;
}.

Lemma pinv_lookup ps a i :
  pinv ps a → (i < length (Spec.tables a))%nat →
  ∃ r T, reserved_nodes ps !! i = Some r ∧ Spec.tables a !! i = Some T ∧ Spec.slotless T = r.1 ∧
         slotless_list a !! i = Some r.1.
Proof.
  intros Hi Hlt. destruct (lookup_lt_is_Some_2 _ _ Hlt) as [T HT].
  assert (slotless_list a !! i = Some (Spec.slotless T)) as Hs.
  { unfold slotless_list. by rewrite list_lookup_fmap, HT. }
  rewrite <- (pi_reserved _ _ Hi), list_lookup_fmap in Hs.
  destruct (reserved_nodes ps !! i) as [r|] eqn:Hr; simplify_eq/=.
  exists r, T. split_and!; try done. unfold slotless_list. rewrite list_lookup_fmap, HT. simpl. congruence.
Qed.

Lemma pinv_read_clock ps a : pinv ps a → pinv (read_clock clock ps).2 a.
Proof. intros [????? Hl]. split; try done. simpl. intros k Hk. apply Hl. lia. Qed.

Lemma pinv_push_back m ps a : pinv ps a → pinv (push_back m ps) a.
Proof. by intros []. Qed.

Lemma pinv_with_data d ps a a' :
  pinv ps a → represents d a' → slotless_list a' = slotless_list a →
  (∀ i q, connected a' i q = true → connected a i q = true) →
  (∀ i q, Spec.member a' i q ≠ None → Spec.member a i q ≠ None ∨ q ∈ U) →
  pinv (with_data d ps) a'.
Proof.
  intros [Hr Hres Ho Hu Hc Hl] Hr' Hs Hconn Hk. split; simpl; try done; [congruence| |].
  - intros i r q Hx Hi Hb Hq. eapply Ho; eauto.
  - intros i q [?|?]%Hk; [by eapply Hu|done].
Qed.

(** Changing the membership of a known peer, or of a peer of [U]. *)
Lemma known_assign i p m a j q :
  (i < length (Spec.tables a))%nat → Spec.member a i p ≠ None ∨ p ∈ U →
  Spec.member (Spec.assign i p m a) j q ≠ None → Spec.member a j q ≠ None ∨ q ∈ U.
Proof.
  intros Hlt Hp. rewrite member_assign by done. case_decide as E; [|auto].
  injection E as <- <-. auto.
Qed.

(** ** Steps

    What a handler does to the outside: the messages it appends say exactly
    which connections it gave up, and it opens none. *)
Record drops (a a' : Spec.t PeerId) (msgs : list (Message PeerId)) : Prop := {
  drops_shrink : ∀ j q, connected a' j q = true → connected a j q = true;
  drops_spec : ∀ j q, Drop j q ∈ msgs ↔ connected a j q = true ∧ connected a' j q = false;
}.

Record step_ok (ps : Peerset PeerId) (a : Spec.t PeerId) (ps' : Peerset PeerId) (a' : Spec.t PeerId) : Prop := {
  so_inv : pinv ps' a';
  so_rx : rx ps' = rx ps;
  so_length : length (Spec.tables a') = length (Spec.tables a);
  so_msgs : ∃ msgs, message_queue ps' = message_queue ps ++ msgs ∧ drops a a' msgs;
}.

Lemma drops_refl a : drops a a [].
Proof. clear. split; [done|]. intros j q. rewrite elem_of_nil. destruct (connected a j q); naive_solver. Qed.

Lemma drops_trans a1 a2 a3 m1 m2 : drops a1 a2 m1 → drops a2 a3 m2 → drops a1 a3 (m1 ++ m2).
Proof.
  clear. intros [S1 D1] [S2 D2]. split; [auto|]. intros j q. rewrite elem_of_app, D1, D2.
  specialize (S1 j q). specialize (S2 j q).
  destruct (connected a1 j q), (connected a2 j q), (connected a3 j q); naive_solver.
Qed.

Lemma step_ok_refl ps a : pinv ps a → step_ok ps a ps a.
Proof. intros Hi. split; try done. exists []. rewrite app_nil_r. split; [done|apply drops_refl]. Qed.

Lemma step_ok_trans ps1 a1 ps2 a2 ps3 a3 :
  step_ok ps1 a1 ps2 a2 → step_ok ps2 a2 ps3 a3 → step_ok ps1 a1 ps3 a3.
Proof.
  intros [I1 R1 L1 (m1 & Q1 & D1)] [I2 R2 L2 (m2 & Q2 & D2)]. split; [done|congruence..|].
  exists (m1 ++ m2). rewrite Q2, Q1, app_assoc. split; [done|by eapply drops_trans].
Qed.

Lemma drops_same a a' : (∀ j q, connected a' j q = connected a j q) → drops a a' [].
Proof.
  clear. intros Hs. split; [intros ??; by rewrite Hs|]. intros j q. rewrite elem_of_nil, Hs.
  destruct (connected a j q); naive_solver.
Qed.

(** A step that changes no connection and emits nothing. *)
Lemma step_ok_quiet ps a ps' a' :
  pinv ps' a' → rx ps' = rx ps → length (Spec.tables a') = length (Spec.tables a) →
  message_queue ps' = message_queue ps → (∀ j q, connected a' j q = connected a j q) →
  step_ok ps a ps' a'.
Proof.
  intros. split; try done. exists []. rewrite app_nil_r. split; [done|by apply drops_same].
Qed.

Lemma connected_assign i p m a j q :
  (i < length (Spec.tables a))%nat →
  connected (Spec.assign i p m a) j q =
    if decide ((i, p) = (j, q)) then is_connected m else connected a j q.
Proof.
  intros Hlt. unfold connected. rewrite member_assign by done. case_decide; [|done].
  by destruct m.
Qed.

Lemma connected_member a i p m : Spec.member a i p = Some m → connected a i p = is_connected m.
Proof. unfold connected. by intros ->. Qed.

(** Disconnecting one peer and telling the network. *)
Lemma drop_one_step ps a i p t d :
  pinv ps a → connected a i p = true →
  represents d (Spec.assign i p (MS_NotConnected t) a) →
  step_ok ps a (push_back (Drop i p) (with_data d (read_clock clock ps).2))
    (Spec.assign i p (MS_NotConnected t) a).
Proof.
  intros Hi Hc Hd.
  assert (i < length (Spec.tables a))%nat as Hlt.
  { unfold connected in Hc. destruct (Spec.member a i p) eqn:Hm; [|done]. by eapply member_Some. }
  assert (∀ j q, connected (Spec.assign i p (MS_NotConnected t) a) j q =
                 if decide ((i, p) = (j, q)) then false else connected a j q) as Hca.
  { intros. by rewrite connected_assign. }
  split; [|done|apply assign_length|].
  - apply pinv_push_back. eapply pinv_with_data; [by apply pinv_read_clock|done| | |].
    + by rewrite slotless_list_assign.
    + intros j q. rewrite Hca. by case_decide.
    + intros j q. apply known_assign; [done|]. left. intros Hn. unfold connected in Hc. by rewrite Hn in Hc.
  - exists [Drop i p]. split; [done|]. split.
    + intros j q. rewrite Hca. by case_decide.
    + intros j q. rewrite list_elem_of_singleton, Hca.
      destruct (decide ((i, p) = (j, q))); [|destruct (connected a j q)]; naive_solver.
Qed.

(** ** The handlers *)

Lemma connected_reserve i p a j q : connected (Spec.reserve i p a) j q = connected a j q.
Proof. unfold connected. by rewrite member_reserve. Qed.
Lemma connected_unreserve i p a j q : connected (Spec.unreserve i p a) j q = connected a j q.
Proof. unfold connected. by rewrite member_unreserve. Qed.
Lemma connected_set_reputation p v a j q : connected (Spec.set_reputation p v a) j q = connected a j q.
Proof. done. Qed.

Lemma fst_insert (l : list (gset PeerId * bool)) i x b :
  (<[i := (x, b)]> l).*1 = <[i := x]> l.*1.
Proof. apply list_fmap_insert. Qed.

(** Writing the entry of a set in [reserved_nodes]. *)
Definition set_reserved (i : nat) (x : gset PeerId) (b : bool) (ps : Peerset PeerId) : Peerset PeerId :=
  with_reserved (<[i := (x, b)]> (reserved_nodes ps)) ps.

Lemma on_add_reserved_peer_spec i p ps a r :
  pinv ps a → reserved_nodes ps !! i = Some r → (i < length (Spec.tables a))%nat →
  runs (on_add_reserved_peer i p ps) (λ ps',
    step_ok ps a ps' (Spec.reserve i p a) ∧
    reserved_nodes ps' = <[i := ({[p]} ∪ r.1, r.2)]> (reserved_nodes ps) ∧
    message_queue ps' = message_queue ps).
Proof.
  intros Hi Hr Hlt. destruct (pinv_lookup ps a i Hi Hlt) as (r' & T & Hr' & HT & Hs & Hsl).
  rewrite Hr' in Hr. injection Hr as ->.
  unfold on_add_reserved_peer. apply runs_bind. eapply runs_index; [exact Hr'|].
  rewrite negb_involutive. case_bool_decide as Hp.
  - apply runs_ret. assert (Spec.reserve i p a = a) as ->.
    { unfold Spec.reserve. eapply on_table_id; [exact HT|]. unfold Spec.set_slotless.
      destruct T; simpl in *. f_equal. set_solver. }
    split_and!; [by apply step_ok_refl| |done]. symmetry. apply list_insert_id.
    rewrite Hr'. destruct r as [R b]. simpl in *. do 2 f_equal. set_solver.
  - apply runs_bind, runs_index_set; [by eauto|]. simpl. apply runs_bind.
    eapply runs_mono; [apply add_no_slot_node_spec; [apply Hi|done]|].
    simpl. intros d Hd. unfold alloc_slots. split_and!; [|done..].
    apply step_ok_quiet; simpl; try done; [|apply reserve_length|apply connected_reserve].
    destruct Hi as [_ Hres Ho Hu Hc Hl].
    split; simpl; try done; [| |by intros j q; rewrite member_reserve; apply Hu].
    + rewrite fst_insert, Hres. by rewrite (slotless_list_reserve i p a r.1).
    + intros j r' q Hx. rewrite connected_reserve. destruct (decide (i = j)) as [<-|Hne].
      * rewrite list_lookup_insert_eq by (by eapply lookup_lt_Some). intros [= <-] Hb Hq.
        simpl in *. apply elem_of_union_r. by eapply Ho.
      * rewrite list_lookup_insert_ne by done. by apply Ho.
Qed.

(** Removing a reservation; in reserved-only mode the peer is disconnected.
    [unreserved] is the state after the bookkeeping, before the possible
    disconnection. *)
Definition unreserved (i : nat) (p : PeerId) (r : gset PeerId * bool) (d : PeersState PeerId)
    (ps : Peerset PeerId) : Peerset PeerId :=
  with_data d (with_reserved (<[i := (r.1 ∖ {[p]}, r.2)]> (reserved_nodes ps)) ps).

Lemma unreserved_sync i p r d ps a :
  pinv ps a → slotless_list a !! i = Some r.1 →
  (reserved_nodes (unreserved i p r d ps)).*1 = slotless_list (Spec.unreserve i p a).
Proof.
  intros Hi Hsl. simpl. rewrite fst_insert, (pi_reserved _ _ Hi).
  by rewrite (slotless_list_unreserve i p a r.1).
Qed.

Lemma unreserved_only i p r d ps a j r' q :
  pinv ps a → reserved_nodes ps !! i = Some r → ¬ busy j →
  reserved_nodes (unreserved i p r d ps) !! j = Some r' → r'.2 = true → (j, q) ≠ (i, p) →
  connected a j q = true → q ∈ r'.1.
Proof.
  intros Hi Hr Hx. simpl. destruct (decide (i = j)) as [<-|Hne].
  - rewrite list_lookup_insert_eq by (by eapply lookup_lt_Some). intros [= <-] Hb Hne Hq. simpl in *.
    pose proof (pi_only _ _ Hi i r q Hx Hr Hb Hq). set_solver.
  - rewrite list_lookup_insert_ne by done. intros ?? _. by apply (pi_only _ _ Hi).
Qed.

Lemma unreserved_step i p r d ps a :
  pinv ps a → reserved_nodes ps !! i = Some r → slotless_list a !! i = Some r.1 →
  represents d (Spec.unreserve i p a) → (r.2 = true → connected a i p = false) →
  step_ok ps a (unreserved i p r d ps) (Spec.unreserve i p a).
Proof.
  intros Hi Hr Hsl Hd Hc.
  apply step_ok_quiet; try done; [|apply unreserve_length|apply connected_unreserve].
  split; try done; try apply Hi;
    [by apply unreserved_sync| |by intros j q; rewrite member_unreserve; apply Hi].
  intros j r' q Hx Hj Hb Hq. rewrite connected_unreserve in Hq.
  destruct (decide ((j, q) = (i, p))) as [E|Hne]; [|by eapply unreserved_only].
  injection E as -> ->. simpl in Hj. rewrite list_lookup_insert_eq in Hj by (by eapply lookup_lt_Some).
  simplify_eq/=. rewrite Hc in Hq; done.
Qed.

Lemma unreserved_drop_step i p r d d' t ps a :
  pinv ps a → reserved_nodes ps !! i = Some r → slotless_list a !! i = Some r.1 →
  (i < length (Spec.tables a))%nat → connected a i p = true →
  represents d' (Spec.assign i p (MS_NotConnected t) (Spec.unreserve i p a)) →
  step_ok ps a
    (push_back (Drop i p) (with_data d' (read_clock clock (unreserved i p r d ps)).2))
    (Spec.assign i p (MS_NotConnected t) (Spec.unreserve i p a)).
Proof.
  intros Hi Hr Hsl Hlt Hconn Hd'.
  assert (∀ j q, connected (Spec.assign i p (MS_NotConnected t) (Spec.unreserve i p a)) j q =
                 if decide ((i, p) = (j, q)) then false else connected a j q) as Hca.
  { intros. rewrite connected_assign by (by rewrite unreserve_length). by rewrite connected_unreserve. }
  split; [|done|by rewrite assign_length, unreserve_length|].
  - split; try apply Hi; try done.
    + rewrite slotless_list_assign. apply (unreserved_sync i p r d ps a Hi Hsl).
    + intros j r' q Hx Hj Hb. rewrite Hca. case_decide; [done|].
      intros. eapply (unreserved_only i p r d ps a j r'); eauto.
    + intros j q Hk. destruct (known_assign i p (MS_NotConnected t) (Spec.unreserve i p a) j q) as [Hn|]; try done;
        rewrite ?unreserve_length, ?member_unreserve in *; [done| |by eapply (pi_universe _ _ Hi)].
      left. intros Hn. unfold connected in Hconn. by rewrite Hn in Hconn.
    + intros k Hk. apply (pi_latest _ _ Hi). simpl in Hk. lia.
  - exists [Drop i p]. split; [done|]. split; intros j q; rewrite Hca; [by case_decide|].
    rewrite list_elem_of_singleton.
    destruct (decide ((i, p) = (j, q))) as [E|Hne]; [|destruct (connected a j q)]; naive_solver.
Qed.

Hypothesis U_small : Z.of_nat (size U) ≤ u32_max.

Lemma pinv_population ps a i : pinv ps a → population a i ≤ u32_max.
Proof.
  intros Hi. etrans; [|exact U_small]. unfold population.
  destruct (Spec.tables a !! i) as [T|] eqn:HT; [|lia].
  rewrite <- size_dom. apply inj_le, subseteq_size. intros q Hq%elem_of_dom.
  apply (pi_universe _ _ Hi i). unfold Spec.member. rewrite HT. simpl.
  destruct Hq as [? ->]. done.
Qed.

Lemma on_remove_reserved_peer_spec i p ps a r :
  pinv ps a → reserved_nodes ps !! i = Some r → (i < length (Spec.tables a))%nat →
  runs (on_remove_reserved_peer clock i p ps) (λ ps', ∃ a',
    step_ok ps a ps' a' ∧
    reserved_nodes ps' = <[i := (r.1 ∖ {[p]}, r.2)]> (reserved_nodes ps) ∧
    ∀ j q, connected a' j q =
      connected a j q && negb (r.2 && bool_decide (j = i) && bool_decide (q ∈ r.1 ∩ {[p]}))).
Proof.
  intros Hi Hr Hlt. pose proof (pinv_population ps a i Hi) as Hpop. destruct (pinv_lookup ps a i Hi Hlt) as (r' & T & Hr' & HT & Hs & Hsl).
  rewrite Hr in Hr'. injection Hr' as <-.
  unfold on_remove_reserved_peer. apply runs_bind. eapply runs_index; [exact Hr|].
  case_bool_decide as Hp; simpl.
  2: { exists a. split_and!; [by apply step_ok_refl| |].
    - symmetry. apply list_insert_id.
      rewrite Hr. destruct r as [R b]. simpl in *. do 2 f_equal. set_solver.
    - intros j q. rewrite (bool_decide_eq_false_2 (q ∈ _)) by set_solver. by rewrite !andb_false_r, andb_true_r. }
  apply runs_bind, runs_index_set; [by eauto|]. apply runs_bind.
  eapply runs_mono; [apply remove_no_slot_node_spec; [apply Hi|done..]|].
  simpl. intros d Hd. fold (unreserved i p r d ps).
  apply runs_bind. eapply (runs_index _ _ (r.1 ∖ {[p]}, r.2)).
  { simpl. apply list_lookup_insert_eq. by eapply lookup_lt_Some. }
  simpl. destruct r.2 eqn:Hb; simpl; cycle 1.
  { exists (Spec.unreserve i p a). split_and!; [|by rewrite Hb|].
    - apply unreserved_step; try done. by rewrite Hb.
    - intros. simpl. by rewrite connected_unreserve, andb_true_r. }
  rewrite (peer_spec d (Spec.unreserve i p a) i p Hd), member_unreserve by (by rewrite unreserve_length). simpl.
  destruct (connected a i p) eqn:Hconn; cycle 1.
  { assert (step_ok ps a (unreserved i p r d ps) (Spec.unreserve i p a)) as Hstep by (by apply unreserved_step).
    assert (∀ j q, connected (Spec.unreserve i p a) j q =
      connected a j q && negb (true && bool_decide (j = i) && bool_decide (q ∈ r.1 ∩ {[p]}))) as Hcu.
    { intros j q. rewrite connected_unreserve. repeat case_bool_decide; simpl; rewrite ?andb_true_r; try done.
      assert (q = p) as -> by set_solver. subst. by rewrite Hconn. }
    unfold connected in Hconn.
    destruct (Spec.member a i p) as [m|]; [rewrite Hconn|]; simpl; exists (Spec.unreserve i p a);
      (split_and!; [done|by rewrite Hb|done]). }
  unfold connected in Hconn. destruct (Spec.member a i p) as [m|] eqn:Hm; [|done]. rewrite Hconn.
  apply runs_bind. eapply runs_mono; [eapply disconnect_spec; [exact Hd|by rewrite member_unreserve|done]|].
  intros c (_ & _ & Hrc). eexists. split_and!; [|by simpl; rewrite Hb|].
  - eapply unreserved_drop_step; try done. by rewrite (connected_member _ _ _ _ Hm).
  - intros j q. rewrite connected_assign, connected_unreserve by (by rewrite unreserve_length).
    case_decide as E; simpl.
    + injection E as <- <-. rewrite !bool_decide_eq_true_2 by set_solver. by rewrite andb_false_r.
    + destruct (decide (j = i)) as [->|]; [|by rewrite (bool_decide_eq_false_2 (j = i)), andb_true_r].
      rewrite (bool_decide_eq_false_2 (q ∈ _)) by set_solver. by rewrite andb_false_r, andb_true_r.
Qed.

Lemma add_reserved_loop i l ps a r :
  pinv ps a → reserved_nodes ps !! i = Some r → (i < length (Spec.tables a))%nat →
  runs (for_each (λ ps node, on_add_reserved_peer i node ps) l ps) (λ ps', ∃ a',
    step_ok ps a ps' a' ∧
    reserved_nodes ps' = <[i := (list_to_set l ∪ r.1, r.2)]> (reserved_nodes ps) ∧
    ∀ j q, connected a' j q = connected a j q).
Proof.
  revert ps a r. induction l as [|p l IH]; intros ps a r Hi Hr Hlt; simpl.
  - exists a. split_and!; [by apply step_ok_refl| |done]. rewrite list_insert_id; [done|].
    rewrite Hr. destruct r; simpl. do 2 f_equal. set_solver.
  - apply runs_bind. eapply runs_mono; [by apply (on_add_reserved_peer_spec i p ps a r)|].
    intros ps1 (Hs1 & Hres1 & _). eapply runs_mono; [apply (IH ps1 (Spec.reserve i p a) ({[p]} ∪ r.1, r.2))|].
    + apply Hs1.
    + rewrite Hres1. apply list_lookup_insert_eq. by eapply lookup_lt_Some.
    + by rewrite reserve_length.
    + intros ps2 (a2 & Hs2 & Hres2 & Hc2). exists a2. split_and!.
      * by eapply step_ok_trans.
      * rewrite Hres2, Hres1, list_insert_insert_eq. simpl. do 2 f_equal. set_solver.
      * intros. by rewrite Hc2, connected_reserve.
Qed.

Lemma remove_reserved_loop i l ps a r :
  pinv ps a → reserved_nodes ps !! i = Some r → (i < length (Spec.tables a))%nat →
  runs (for_each (λ ps node, on_remove_reserved_peer clock i node ps) l ps) (λ ps', ∃ a',
    step_ok ps a ps' a' ∧
    reserved_nodes ps' = <[i := (r.1 ∖ list_to_set l, r.2)]> (reserved_nodes ps) ∧
    ∀ j q, connected a' j q =
      connected a j q && negb (r.2 && bool_decide (j = i) && bool_decide (q ∈ r.1 ∩ list_to_set l))).
Proof.
  revert ps a r. induction l as [|p l IH]; intros ps a r Hi Hr Hlt; simpl.
  - exists a. split_and!; [by apply step_ok_refl| |].
    + rewrite list_insert_id; [done|]. rewrite Hr. destruct r; simpl. do 2 f_equal. set_solver.
    + intros j q. rewrite (bool_decide_eq_false_2 (q ∈ _)) by set_solver. by rewrite andb_false_r, andb_true_r.
  - apply runs_bind. eapply runs_mono; [by apply (on_remove_reserved_peer_spec i p ps a r)|].
    intros ps1 (a1 & Hs1 & Hres1 & Hc1).
    eapply runs_mono; [apply (IH ps1 a1 (r.1 ∖ {[p]}, r.2))|].
    + apply Hs1.
    + rewrite Hres1. apply list_lookup_insert_eq. by eapply lookup_lt_Some.
    + by rewrite (so_length _ _ _ _ Hs1).
    + intros ps2 (a2 & Hs2 & Hres2 & Hc2). exists a2. split_and!; [by eapply step_ok_trans| |].
      * rewrite Hres2, Hres1, list_insert_insert_eq. simpl. do 2 f_equal. set_solver.
      * intros j q. rewrite Hc2, Hc1. destruct (connected a j q), r.2; simpl; try done.
        repeat case_bool_decide; simpl; try done; set_solver.
Qed.

(** The reserved peers of set [i] become exactly [l]; the others keep theirs. *)
Lemma on_set_reserved_peers_spec i l ps a r :
  pinv ps a → reserved_nodes ps !! i = Some r → (i < length (Spec.tables a))%nat →
  runs (on_set_reserved_peers clock i l ps) (λ ps', ∃ a',
    step_ok ps a ps' a' ∧ reserved_nodes ps' = <[i := (l, r.2)]> (reserved_nodes ps) ∧
    ∀ j q, connected a' j q =
      connected a j q && negb (r.2 && bool_decide (j = i) && bool_decide (q ∈ r.1 ∖ l))).
Proof.
  intros Hi Hr Hlt. unfold on_set_reserved_peers. apply runs_bind. eapply runs_index; [exact Hr|].
  apply runs_bind. eapply runs_mono; [by apply (add_reserved_loop i _ ps a r)|].
  intros ps1 (a1 & Hs1 & Hres1 & Hc1).
  assert (reserved_nodes ps1 !! i = Some (list_to_set (hash_keys (l ∖ r.1)) ∪ r.1, r.2)) as Hr1.
  { rewrite Hres1. apply list_lookup_insert_eq. by eapply lookup_lt_Some. }
  eapply runs_mono; [apply (remove_reserved_loop i _ ps1 a1 _ (so_inv _ _ _ _ Hs1) Hr1)|].
  - by rewrite (so_length _ _ _ _ Hs1).
  - intros ps2 (a2 & Hs2 & Hres2 & Hc2). exists a2. split_and!; [by eapply step_ok_trans| |].
    2: { intros j q. rewrite Hc2, Hc1. simpl. do 4 f_equal. apply bool_decide_ext.
         rewrite elem_of_intersection, elem_of_union, !elem_of_list_to_set, !elem_of_hash_keys, !elem_of_difference.
         naive_solver. }
    rewrite Hres2, Hres1, list_insert_insert_eq. simpl. do 2 f_equal. apply set_eq. intros q.
    rewrite elem_of_difference, elem_of_union, !elem_of_list_to_set, !elem_of_hash_keys, !elem_of_difference.
    destruct (decide (q ∈ l)), (decide (q ∈ r.1)); naive_solver.
Qed.

(** *** [on_set_reserved_only] *)

Lemma disconnect_unless_reserved_spec i p ps a r :
  pinv ps a → reserved_nodes ps !! i = Some r → connected a i p = true →
  runs (disconnect_unless_reserved clock i ps p) (λ ps', ∃ a',
    step_ok ps a ps' a' ∧ reserved_nodes ps' = reserved_nodes ps ∧
    ∀ j q, connected a' j q = connected a j q && (bool_decide ((j, q) ≠ (i, p)) || bool_decide (q ∈ r.1))).
Proof.
  intros Hi Hr Hconn. pose proof Hconn as Hc. unfold connected in Hc.
  destruct (Spec.member a i p) as [m|] eqn:Hm; [|done].
  pose proof (member_Some i p m a Hm) as Hlt.
  unfold disconnect_unless_reserved. apply runs_bind. eapply runs_index; [exact Hr|].
  case_bool_decide as Hp.
  - exists a. split_and!; [by apply step_ok_refl|done|]. intros j q.
    repeat case_bool_decide; simplify_eq; by rewrite ?andb_true_r.
  - rewrite (peer_spec _ a i p) by (try apply Hi; done). rewrite Hm, Hc. simpl.
    apply runs_bind. eapply runs_mono; [eapply disconnect_spec; [apply Hi|done..]|].
    intros c (_ & _ & Hrc). eexists. split_and!; [by apply drop_one_step|done|].
    intros j q. rewrite connected_assign by done.
    destruct (decide ((i, p) = (j, q))) as [E|Hne].
    + injection E as <- <-. rewrite Hconn, !bool_decide_eq_false_2 by auto. done.
    + rewrite (bool_decide_eq_true_2 ((j, q) ≠ (i, p))) by congruence. by rewrite andb_true_r.
Qed.

(** *** Membership *)

Lemma step_ok_with_data ps a d a' :
  pinv ps a → represents d a' → slotless_list a' = slotless_list a →
  length (Spec.tables a') = length (Spec.tables a) →
  (∀ j q, connected a' j q = connected a j q) →
  (∀ j q, Spec.member a' j q ≠ None → Spec.member a j q ≠ None ∨ q ∈ U) →
  step_ok ps a (with_data d ps) a'.
Proof.
  intros Hi Hd Hs Hl Hc Hk. apply step_ok_quiet; try done.
  eapply pinv_with_data; [exact Hi|done..| |done]. intros ??; by rewrite Hc.
Qed.

Lemma step_ok_read_clock ps a : pinv ps a → step_ok ps a (read_clock clock ps).2 a.
Proof. intros Hi. apply step_ok_quiet; try done. by apply pinv_read_clock. Qed.

Lemma connected_assign_idle i p m t a j q :
  Spec.member a i p = m → (match m with Some m => is_connected m = false | None => True end) →
  (i < length (Spec.tables a))%nat → is_connected t = false →
  connected (Spec.assign i p t a) j q = connected a j q.
Proof.
  intros Hm Hc Hlt Ht. rewrite connected_assign by done. case_decide as E; [|done].
  injection E as <- <-. unfold connected. rewrite Hm. by destruct m; rewrite ?Hc, ?Ht.
Qed.

Lemma add_to_peers_set_spec i p ps a :
  pinv ps a → (i < length (Spec.tables a))%nat → p ∈ U →
  runs (add_to_peers_set clock i p ps) (λ ps',
    step_ok ps a ps' (match Spec.member a i p with
                      | None => Spec.assign i p (MS_NotConnected (clock (clock_reads ps))) a
                      | Some _ => a
                      end) ∧
    reserved_nodes ps' = reserved_nodes ps).
Proof.
  intros Hi Hlt Hp. unfold add_to_peers_set. rewrite (peer_spec _ a i p) by (try apply Hi; done). simpl.
  destruct (Spec.member a i p) as [m|] eqn:Hm.
  { destruct (is_connected m); (split; [by apply step_ok_refl|done]). }
  apply runs_bind. eapply runs_mono; [apply discover_spec; [apply Hi|done..]|].
  intros c (_ & _ & Hr). unfold alloc_slots. split; [|done].
  eapply step_ok_trans; [by apply step_ok_read_clock|].
  apply step_ok_with_data; [by apply pinv_read_clock|done|apply slotless_list_assign|apply assign_length| |].
  - intros. by eapply connected_assign_idle.
  - intros j q. apply known_assign; auto.
Qed.

(** The peer leaves the set, unless it is reserved. *)
Lemma on_remove_from_peers_set_spec i p ps a r :
  pinv ps a → reserved_nodes ps !! i = Some r → (i < length (Spec.tables a))%nat →
  runs (on_remove_from_peers_set clock i p ps) (λ ps', ∃ a',
    step_ok ps a ps' a' ∧ reserved_nodes ps' = reserved_nodes ps ∧
    Spec.member a' i p = (if bool_decide (p ∈ r.1) then Spec.member a i p else None) ∧
    (∀ j q, (i, p) ≠ (j, q) → Spec.member a' j q = Spec.member a j q) ∧
    Spec.reputations a' = Spec.reputations a ∧
    message_queue ps' = message_queue ps ++
      (if connected a i p && negb (bool_decide (p ∈ r.1)) then [Drop i p] else [])).
Proof.
  intros Hi Hr Hlt. unfold on_remove_from_peers_set. apply runs_bind. eapply runs_index; [exact Hr|].
  case_bool_decide as Hp; simpl;
    [exists a; rewrite andb_false_r, app_nil_r; by split_and!; [by apply step_ok_refl|..]|].
  rewrite andb_true_r.
  rewrite (peer_spec _ a i p) by (try apply Hi; done). simpl. unfold connected at 1.
  destruct (Spec.member a i p) as [m|] eqn:Hm; [|by exists a; rewrite app_nil_r; split_and!; [by apply step_ok_refl|..]].
  destruct (is_connected m) eqn:Hc.
  - apply runs_bind. eapply runs_mono; [eapply disconnect_spec; [apply Hi|done..]|].
    intros c (Es & Ep & Hrc). destruct c as [st1 ? ?]. simpl in *. subst.
    assert (connected a i p = true) as Hconn by (by rewrite (connected_member _ _ _ _ Hm)).
    pose proof (drop_one_step ps a i p _ st1 Hi Hconn Hrc) as Hs1.
    set (a1 := Spec.assign i p _ a) in *.
    assert (i < length (Spec.tables a1))%nat as Hlt1 by (by unfold a1; rewrite assign_length).
    assert (Spec.member a1 i p = Some (MS_NotConnected (clock (clock_reads ps)))) as Hm1.
    { unfold a1. by rewrite member_assign_eq. }
    apply runs_bind. eapply runs_mono; [eapply forget_peer_spec; [exact Hrc|exact Hm1]|].
    intros c' (_ & _ & Hrc'). exists (Spec.assign i p MS_NotMember a1).
    split_and!; [|done|by rewrite member_assign_eq| |done|done].
    + eapply step_ok_trans; [exact Hs1|].
      change (with_data (up_parent c') _) with
        (with_data (up_parent c') (push_back (Drop i p) (with_data st1 (read_clock clock ps).2))).
      apply (step_ok_with_data _ a1); [apply Hs1|done|apply slotless_list_assign|apply assign_length| |].
      { intros. by eapply connected_assign_idle; [exact Hm1|..]. }
      intros j q. apply known_assign; [done|]. left. by rewrite Hm1.
    + intros j q Hne. unfold a1. by rewrite !member_assign_ne.
  - destruct m as [| | |t]; try done; [by eapply member_not_NotMember in Hm; [|apply Hi]|].
    apply runs_bind. eapply runs_mono; [eapply forget_peer_spec; [apply Hi|done]|].
    intros c (_ & _ & Hrc). exists (Spec.assign i p MS_NotMember a).
    split_and!; [|done|by rewrite member_assign_eq|by intros; apply member_assign_ne|done|by rewrite app_nil_r].
    apply step_ok_with_data; [done..|apply slotless_list_assign|apply assign_length| |].
    + intros. by eapply connected_assign_idle; [exact Hm|..].
    + intros j q. apply known_assign; [done|]. left. by rewrite Hm.
Qed.

(** *** The clock *)

Hypothesis clock_mono : ∀ m n, (m ≤ n)%nat → clock m ≤ clock n.

(** Whole seconds between the previous update and now. *)
Definition seconds_passed (ps : Peerset PeerId) : nat :=
  Z.to_nat (as_secs (clock (clock_reads ps) - created ps) - as_secs (latest_time_update ps - created ps)).

Lemma update_time_spec ps a :
  pinv ps a →
  runs (update_time clock ps) (λ ps', ∃ a',
    step_ok ps a ps' a' ∧ reserved_nodes ps' = reserved_nodes ps ∧ message_queue ps' = message_queue ps ∧
    created ps' = created ps ∧ latest_time_update ps' = clock (clock_reads ps) ∧
    tables_aged a a' ∧
    ∀ q, Spec.reputation a' q = decay (seconds_passed ps) (Spec.reputation a q)).
Proof.
  intros Hi. pose proof (pi_created _ _ Hi) as Hc. pose proof (pi_latest _ _ Hi _ (le_n _)) as Hl.
  unfold update_time, elapsed_seconds, read_clock; simpl. apply runs_bind.
  unfold instant_sub. rewrite !Z.max_r by lia.
  assert (as_secs (latest_time_update ps - created ps) ≤ as_secs (clock (clock_reads ps) - created ps)) as Hle.
  { unfold as_secs. apply Z.div_le_mono; lia. }
  apply runs_u64_sub; [done|]. simpl. apply runs_bind. fold (seconds_passed ps).
  eapply runs_mono; [apply tick_seconds_spec; apply Hi|].
  intros d (a' & Hr' & Ha' & Hrep). exists a'. split_and!; try done.
  assert (∀ j q, connected a' j q = connected a j q) as Hconn.
  { intros j q. unfold connected. destruct (tables_aged_member a a' j q Ha') as [->|[[t ->] ->]]; done. }
  apply step_ok_quiet; try done; [|by apply tables_aged_length].
  destruct Hi as [_ Hres Ho Hu _ _]. split; simpl; try done.
  - by rewrite (tables_aged_slotless a a').
  - intros j r q. rewrite Hconn. by apply Ho.
  - intros j q. destruct (tables_aged_member a a' j q Ha') as [->|[_ ->]]; [apply Hu|done].
  - lia.
  - intros k Hk. apply clock_mono. lia.
Qed.

(** *** Reports *)

Lemma drop_if_connected_spec p ps a i :
  pinv ps a → (i < length (Spec.tables a))%nat →
  runs (drop_if_connected clock p ps i) (λ ps', ∃ a',
    step_ok ps a ps' a' ∧ reserved_nodes ps' = reserved_nodes ps ∧
    connected a' i p = false ∧
    (∀ j q, (i, p) ≠ (j, q) → Spec.member a' j q = Spec.member a j q) ∧
    Spec.reputations a' = Spec.reputations a).
Proof.
  intros Hi Hlt. unfold drop_if_connected.
  rewrite (peer_spec _ a i p) by (try apply Hi; done). simpl.
  destruct (connected a i p) eqn:Hconn; pose proof Hconn as Hc; unfold connected in Hc.
  - destruct (Spec.member a i p) as [m|] eqn:Hm; [|done]. rewrite Hc.
    apply runs_bind. eapply runs_mono; [eapply disconnect_spec; [apply Hi|done..]|].
    intros c (_ & -> & Hrc). unfold alloc_slots. eexists.
    split_and!; [by apply drop_one_step|done| |by intros; apply member_assign_ne|done].
    rewrite connected_assign, decide_True by done. done.
  - assert (step_ok ps a ps a) by (by apply step_ok_refl).
    destruct (Spec.member a i p) as [m|]; [rewrite Hc|]; by exists a.
Qed.

Lemma drop_everywhere_spec p ps a n :
  pinv ps a → (n ≤ length (Spec.tables a))%nat →
  runs (for_each (drop_if_connected clock p) (seq 0 n) ps) (λ ps', ∃ a',
    step_ok ps a ps' a' ∧ reserved_nodes ps' = reserved_nodes ps ∧
    (∀ j, (j < n)%nat → connected a' j p = false) ∧
    (∀ j q, q ≠ p → Spec.member a' j q = Spec.member a j q) ∧
    Spec.reputations a' = Spec.reputations a).
Proof.
  revert ps a. induction n as [|n IH]; intros ps a Hi Hn.
  { exists a. split_and!; try done; [by apply step_ok_refl|]. intros j Hj. lia. }
  rewrite seq_S, for_each_app. apply runs_bind. eapply runs_mono; [apply IH; [exact Hi|lia]|].
  intros ps1 (a1 & Hs1 & Hres1 & Hc1 & Hm1 & Hrep1). simpl. apply runs_bind.
  eapply runs_mono; [apply (drop_if_connected_spec p ps1 a1 n); [apply Hs1|]|].
  { rewrite (so_length _ _ _ _ Hs1). lia. }
  intros ps2 (a2 & Hs2 & Hres2 & Hc2 & Hm2 & Hrep2). exists a2.
  split_and!; [by eapply step_ok_trans|congruence| | |congruence].
  - intros j Hj. destruct (decide (n = j)) as [<-|Hne]; [done|].
    unfold connected. rewrite Hm2 by congruence. apply Hc1. lia.
  - intros j q Hq. rewrite Hm2 by congruence. by apply Hm1.
Qed.

Lemma connected_out_of_range a j q : (length (Spec.tables a) ≤ j)%nat → connected a j q = false.
Proof.
  intros Hj. unfold connected, Spec.member. by rewrite (proj2 (lookup_ge_None _ _)).
Qed.

Lemma on_report_peer_spec p change ps a :
  pinv ps a →
  let v := i32_saturating_add (decay (seconds_passed ps) (Spec.reputation a p)) (change_value change) in
  runs (on_report_peer clock p change ps) (λ ps', ∃ a',
    step_ok ps a ps' a' ∧ reserved_nodes ps' = reserved_nodes ps ∧
    Spec.reputation a' p = v ∧
    (∀ q, q ≠ p → Spec.reputation a' q = decay (seconds_passed ps) (Spec.reputation a q)) ∧
    (∀ j q, q ≠ p → connected a' j q = connected a j q) ∧
    (∀ j, connected a' j p = if v <? BANNED_THRESHOLD then false else connected a j p)).
Proof.
  intros Hi v. unfold on_report_peer. apply runs_bind. eapply runs_mono; [by apply update_time_spec|].
  intros ps1 (a1 & Hs1 & Hres1 & Hq1 & _ & _ & Ha1 & Hrep1).
  apply runs_bind. eapply runs_mono;
    [apply Reputation_add_reputation_spec, peer_reputation_spec, (so_inv _ _ _ _ Hs1)|].
  intros r Hg. rewrite Hrep1 in Hg. fold v in Hg. set (a2 := Spec.set_reputation p v a1) in *.
  rewrite (Reputation_reputation_spec _ _ _ Hg). simpl.
  assert (Spec.reputation a2 p = v) as Hv by (unfold a2; apply reputation_set_eq).
  rewrite Hv. apply runs_bind. eapply runs_mono; [eapply Reputation_drop_spec, Hg|].
  simpl. intros d Hd.
  assert (step_ok ps a (with_data d ps1) a2) as Hs2.
  { eapply step_ok_trans; [exact Hs1|]. apply step_ok_with_data; try done; [apply Hs1|auto]. }
  assert (∀ q, q ≠ p → Spec.reputation a2 q = decay (seconds_passed ps) (Spec.reputation a q)) as Hother.
  { intros q Hq. unfold a2. by rewrite reputation_set_ne, Hrep1. }
  assert (∀ j q, connected a2 j q = connected a j q) as Hconn.
  { intros j q. unfold a2. rewrite connected_set_reputation. unfold connected.
    destruct (tables_aged_member a a1 j q Ha1) as [->|[[t ->] ->]]; done. }
  destruct (Z.leb_spec BANNED_THRESHOLD v) as [Hle|Hlt].
  { rewrite (proj2 (Z.ltb_ge _ _)) by done. exists a2. by split_and!. }
  rewrite (proj2 (Z.ltb_lt _ _)) by done.
  rewrite (represents_num_sets _ _ Hd).
  eapply runs_mono; [apply (drop_everywhere_spec p _ a2); [apply Hs2|done]|].
  intros ps3 (a3 & Hs3 & Hres3 & Hc3 & Hm3 & Hrep3). exists a3.
  split_and!; [by eapply step_ok_trans|by rewrite Hres3| | | |].
  - unfold Spec.reputation in *. by rewrite Hrep3.
  - intros q Hq. rewrite <- Hother by done. unfold Spec.reputation. by rewrite Hrep3.
  - intros j q Hq. rewrite <- Hconn. unfold connected. by rewrite Hm3.
  - intros j. destruct (decide (j < length (Spec.tables a2))%nat) as [Hj|Hj]; [by apply Hc3|].
    apply connected_out_of_range. rewrite (so_length _ _ _ _ Hs3). lia.
Qed.

Lemma on_peer_reputation_spec p k ps a :
  pinv ps a →
  runs (on_peer_reputation p k ps) (λ ps',
    step_ok ps a ps' a ∧ reserved_nodes ps' = reserved_nodes ps ∧
    replies ps' = replies ps ++ [(k, Spec.reputation a p)]).
Proof.
  intros Hi. unfold on_peer_reputation.
  pose proof (peer_reputation_spec _ _ p (pi_represents _ _ Hi)) as Hg.
  rewrite (Reputation_reputation_spec _ _ _ Hg). simpl.
  apply runs_bind. eapply runs_mono; [eapply Reputation_drop_spec, Hg|]. simpl. intros d Hd.
  split_and!; [|done..]. apply step_ok_quiet; try done. by destruct Hi.
Qed.

Lemma connect_to_peer_spec p ps a :
  pinv ps a → step_ok ps a (connect_to_peer p ps) a.
Proof.
  intros Hi. split; try done; [by apply pinv_push_back|].
  exists [Connect 0 p]. split; [done|]. split; [done|]. intros j q.
  rewrite list_elem_of_singleton. destruct (connected a j q); naive_solver.
Qed.

End facts.
