(* ===== verification/PeersetRun.v ===== *)
(** * The peer set manager: calls of the network and the event stream

    Lemmas about [incoming], [dropped], [on_set_reserved_only],
    [from_config], [handle_action] and the polling loop, continuing
    [PeersetFacts]. *)

From S2P Require Import Prelude PeersState PeersSpecFacts Peerset PeersetFacts.

Section run.
Context {PeerId : Type} `{Countable PeerId, !HashOrder PeerId}.
Context (clock : nat → Instant) (delay_ready : Instant → Instant → bool).
Context (U : gset PeerId).
Hypothesis clock_mono : ∀ m n, (m ≤ n)%nat → clock m ≤ clock n.
Hypothesis U_small : Z.of_nat (size U) ≤ u32_max.
Implicit Types (ps : Peerset PeerId) (a : Spec.t PeerId) (p q : PeerId) (i j : nat).

(** No set is being reconfigured between two handlers. *)
Definition idle : nat → Prop := λ _, False.
Lemma not_idle j : ¬ idle j.
Proof. by intros []. Qed.
Abbreviation inv := (pinv clock idle U).
Abbreviation step_ok := (step_ok clock idle U).

(** ** Incoming connections *)

(** Recording the last contact with a disconnected peer frees or takes no
    slot. *)
Lemma may_connect_assign_idle i p t a :
  connected a i p = false →
  Spec.may_connect MS_In Spec.limit_in (Spec.assign i p (MS_NotConnected t) a) i p =
  Spec.may_connect MS_In Spec.limit_in a i p.
Proof.
  intros Hc. unfold Spec.may_connect, Spec.assign. rewrite on_table_lookup, decide_True by done.
  unfold connected, Spec.member in Hc.
  destruct (Spec.tables a !! i) as [T|]; [|done]. simpl in *.
  rewrite occupied_put_member, (takes_slot_other MS_In T p (MS_NotConnected t)) by done. simpl.
  assert (match Spec.members T !! p with
          | Some m0 => Z.b2z (Spec.takes_slot MS_In T p m0) | None => 0 end = 0) as ->.
  { destruct (Spec.members T !! p) as [m|]; [|done].
    rewrite takes_slot_other; [done|]. by intros ->. }
  by replace (Spec.occupied MS_In T - 0 + 0) with (Spec.occupied MS_In T) by lia.
Qed.

(** The promise of [incoming]: the messages it answers with. *)
Definition incoming_answer (a : Spec.t PeerId) (r : gset PeerId * bool) (i : nat) (p : PeerId)
    (seconds : nat) (idx : Z) : list (Message PeerId) :=
  if r.2 && negb (bool_decide (p ∈ r.1)) then [Reject idx]
  else if connected a i p then []
  else if decay seconds (Spec.reputation a p) <? BANNED_THRESHOLD then [Reject idx]
  else if Spec.may_connect MS_In Spec.limit_in a i p then [Accept idx]
  else [Reject idx].

(** What an incoming connection leaves behind: the answer, and the peer
    connected exactly if it was accepted. *)
Record incoming_done (ps : Peerset PeerId) (a : Spec.t PeerId) (i : nat) (p : PeerId) (idx : Z)
    (answer : list (Message PeerId)) (ps' : Peerset PeerId) (a' : Spec.t PeerId) : Prop := {
  in_inv : inv ps' a';
  in_rx : rx ps' = rx ps;
  in_reserved : reserved_nodes ps' = reserved_nodes ps;
  in_length : length (Spec.tables a') = length (Spec.tables a);
  in_queue : message_queue ps' = message_queue ps ++ answer;
  in_member : answer = [Accept idx] → Spec.member a' i p = Some MS_In;
  in_connected : ∀ j q, connected a' j q =
    (bool_decide ((i, p) = (j, q)) && bool_decide (answer = [Accept idx])) || connected a j q;
}.

Lemma answer_incoming_spec i p t idx c ps a r :
  inv ps a → reserved_nodes ps !! i = Some r → (i < length (Spec.tables a))%nat → p ∈ U →
  connected a i p = false → (r.2 = true → p ∈ r.1) →
  ncp_set c = i → ncp_peer_id c = p →
  represents (ncp_state c) (Spec.assign i p (MS_NotConnected t) a) →
  let answer := if Spec.reputation a p <? BANNED_THRESHOLD then [Reject idx]
                else if Spec.may_connect MS_In Spec.limit_in a i p then [Accept idx] else [Reject idx] in
  runs (answer_incoming idx c ps) (λ ps', ∃ a', incoming_done ps a i p idx answer ps' a' ∧
    Spec.reputations a' = Spec.reputations a).
Proof.
  intros Hi Hr Hlt Hp Hc Hres Ei Ep Hrep answer. destruct c as [st ? ?]; simpl in *; subst.
  set (a1 := Spec.assign i p (MS_NotConnected t) a) in *.
  assert (i < length (Spec.tables a1))%nat as Hlt1 by (unfold a1; by rewrite assign_length).
  assert (∀ j q, connected a1 j q = connected a j q) as Hc1.
  { intros. unfold a1. rewrite connected_assign by done. case_decide as E; [|done]. by injection E as <- <-. }
  assert (∀ m, incoming_done ps a i p idx [Reject m] (push_back (Reject m) (with_data st ps)) a1) as Hrej.
  { intros m. split; try done; [|apply assign_length|].
    - apply pinv_push_back, (pinv_with_data clock idle U st ps a); try done;
        [apply slotless_list_assign|intros ??; by rewrite Hc1|].
      intros j q. apply known_assign; auto.
    - intros. rewrite (bool_decide_eq_false_2 (_ = [Accept idx])) by done.
      by rewrite andb_false_r, Hc1. }
  unfold answer_incoming. rewrite (NotConnectedPeer_reputation_spec st a1) by done.
  unfold answer. replace (Spec.reputation a1 p) with (Spec.reputation a p) by (symmetry; apply reputation_assign).
  destruct (Spec.reputation a p <? BANNED_THRESHOLD); [by exists a1|].
  apply runs_bind. eapply runs_mono.
  { apply (try_accept_incoming_spec st a1 i p (MS_NotConnected t)); try done.
    unfold a1. by rewrite member_assign_eq. }
  unfold a1 at 1. rewrite may_connect_assign_idle by done.
  destruct (Spec.may_connect _ _ a i p); intros res; [|intros ->; by exists a1].
  intros (c & -> & _ & _ & Hrc). exists (Spec.assign i p MS_In a1). split; [|done].
  assert (∀ j q, connected (Spec.assign i p MS_In a1) j q =
            bool_decide ((i, p) = (j, q)) || connected a j q) as Hc2.
  { intros. rewrite connected_assign, Hc1 by done. case_decide; case_bool_decide; done. }
  split; try done; [|unfold a1; by rewrite !assign_length|by rewrite member_assign_eq|].
  - destruct Hi as [_ Hs Ho Hu Hcr Hl]. split; try done; simpl.
    + unfold a1. by rewrite !slotless_list_assign.
    + intros j r' q Hb Hj Hr2. rewrite Hc2. case_bool_decide as E; simpl; [|by eapply Ho].
      injection E as <- <-. simplify_eq. auto.
    + intros j q Hk. destruct (known_assign U i p MS_In a1 j q) as [Hk'|]; auto.
      destruct (known_assign U i p (MS_NotConnected t) a j q) as [Hk''|]; eauto.
  - intros. rewrite Hc2, (bool_decide_eq_true_2 (_ = [Accept idx])) by done. by rewrite andb_true_r.
Qed.

Lemma incoming_done_trans ps a ps1 a1 i p idx answer ps' a' :
  step_ok ps a ps1 a1 → message_queue ps1 = message_queue ps → reserved_nodes ps1 = reserved_nodes ps →
  (∀ j q, connected a1 j q = connected a j q) →
  incoming_done ps1 a1 i p idx answer ps' a' → incoming_done ps a i p idx answer ps' a'.
Proof.
  intros Hs Hq Hr Hc [H1 H2 H3 H4 H5 H6 H7].
  pose proof (so_rx _ _ _ _ _ _ _ Hs). pose proof (so_length _ _ _ _ _ _ _ Hs).
  split; congruence || done.
Qed.

Lemma connected_aged a a' j q : tables_aged a a' → connected a' j q = connected a j q.
Proof.
  intros Ha. unfold connected. destruct (tables_aged_member a a' j q Ha) as [->|[[t ->] ->]]; done.
Qed.

Lemma incoming_spec i p idx ps a r :
  inv ps a → reserved_nodes ps !! i = Some r → (i < length (Spec.tables a))%nat → p ∈ U →
  let n := seconds_passed clock ps in
  runs (incoming clock i p idx ps) (λ ps', ∃ a',
    incoming_done ps a i p idx (incoming_answer a r i p n idx) ps' a' ∧
    ∀ q, Spec.reputation a' q = decay n (Spec.reputation a q)).
Proof.
  intros Hi Hr Hlt Hp n. unfold incoming. apply runs_bind.
  eapply runs_mono; [by apply (update_time_spec clock idle U)|].
  intros ps1 (a1 & Hs1 & Hres1 & Hq1 & _ & _ & Ha1 & Hrep1).
  assert (∀ j q, connected a1 j q = connected a j q) as Hc1 by (intros; by apply connected_aged).
  assert (i < length (Spec.tables a1))%nat as Hlt1 by (by rewrite (tables_aged_length _ _ Ha1)).
  assert (∀ answer ps' a', incoming_done ps1 a1 i p idx answer ps' a' →
            incoming_done ps a i p idx answer ps' a') as Htr.
  { intros. by eapply incoming_done_trans. }
  pose proof (so_inv _ _ _ _ _ _ _ Hs1) as Hi1. rewrite <- Hres1 in Hr.
  apply runs_bind. eapply runs_index; [exact Hr|]. unfold incoming_answer. rewrite <- (Hc1 i p).
  destruct (r.2 && negb (bool_decide (p ∈ r.1))) eqn:Hb.
  { exists a1. split; [|done]. apply Htr. split; try done; [by apply pinv_push_back|].
    intros. rewrite (bool_decide_eq_false_2 ([Reject _] = _)) by done. by rewrite andb_false_r. }
  assert (r.2 = true → p ∈ r.1) as Hres.
  { intros E. rewrite E in Hb. simpl in Hb. by apply negb_false_iff, bool_decide_eq_true in Hb. }
  rewrite (peer_spec _ a1 i p) by (try apply Hi1; done). simpl.
  assert (∀ c t, connected a1 i p = false → ncp_set c = i → ncp_peer_id c = p →
    represents (ncp_state c) (Spec.assign i p (MS_NotConnected t) a1) →
    runs (answer_incoming idx c (read_clock clock ps1).2) (λ ps', ∃ a', incoming_done ps a i p idx
      (if decay n (Spec.reputation a p) <? BANNED_THRESHOLD then [Reject idx]
       else if Spec.may_connect MS_In Spec.limit_in a i p then [Accept idx] else [Reject idx]) ps' a' ∧
      ∀ q, Spec.reputation a' q = decay n (Spec.reputation a q))) as Hans.
  { intros c t Hcf Ei Ep Hrc.
    eapply runs_mono; [by eapply (answer_incoming_spec i p t idx c _ a1 r); [apply pinv_read_clock|..]|].
    unfold n. rewrite <- Hrep1.
    rewrite <- (may_connect_aged MS_In Spec.limit_in a a1 i p); [|done|by intros ?? []|done].
    intros ps' (a' & [H1 H2 H3 H4 H5 H6 H7] & Hrs). exists a'. split; [by apply Htr|].
    intros q. rewrite <- Hrep1. unfold Spec.reputation. by rewrite Hrs. }
  destruct (Spec.member a1 i p) as [m|] eqn:Hm.
  - rewrite (connected_member _ _ _ _ Hm). destruct (is_connected m) eqn:Hcm.
    + exists a1. split; [|done]. apply Htr. split; try done; [by rewrite app_nil_r|].
      intros. rewrite (bool_decide_eq_false_2 ([] = _)) by done. by rewrite andb_false_r.
    + destruct m as [| | |t]; try done; [by eapply member_not_NotMember in Hm; [|apply Hi1]|].
      apply runs_bind. eapply runs_mono; [by eapply bump_last_connected_or_discovered_spec; [apply Hi1|]|].
      intros c (Ei & Ep & Hrc). eapply (Hans c); try done. by rewrite (connected_member _ _ _ _ Hm).
  - assert (connected a1 i p = false) as Hcf by (unfold connected; by rewrite Hm).
    rewrite Hcf. apply runs_bind. eapply runs_mono; [by apply discover_spec; [apply Hi1|..]|].
    intros c (Ei & Ep & Hrc). by eapply (Hans c).
Qed.

(** ** Disconnections reported by the network *)

(** What [dropped] leaves behind. Nothing is sent back to the network. *)
Record dropped_done (ps : Peerset PeerId) (a : Spec.t PeerId) (i : nat) (p : PeerId)
    (forgotten : bool) (ps' : Peerset PeerId) (a' : Spec.t PeerId) : Prop := {
  dd_inv : inv ps' a';
  dd_rx : rx ps' = rx ps;
  dd_reserved : reserved_nodes ps' = reserved_nodes ps;
  dd_length : length (Spec.tables a') = length (Spec.tables a);
  dd_queue : message_queue ps' = message_queue ps;
  dd_connected : ∀ j q, connected a' j q = negb (bool_decide ((i, p) = (j, q))) && connected a j q;
  dd_forgotten : forgotten = true → Spec.member a' i p = None;
  dd_reputation : ∀ q, Spec.reputation a' q =
    let v := decay (seconds_passed clock ps) (Spec.reputation a q) in
    if bool_decide (p = q) && connected a i p
    then i32_saturating_add v DISCONNECT_REPUTATION_CHANGE else v;
}.

(** The first half of [dropped]: the connection is written off. *)
Lemma dropped_disconnect i p c ps a m :
  inv ps a → Spec.member a i p = Some m → is_connected m = true →
  cp_set c = i → cp_peer_id c = p →
  represents (cp_state c)
    (Spec.set_reputation p (i32_saturating_add (Spec.reputation a p) DISCONNECT_REPUTATION_CHANGE) a) →
  runs (disconnect (clock (clock_reads ps)) c) (λ c', ∃ a',
    inv (with_data (ncp_state c') (read_clock clock ps).2) a' ∧
    length (Spec.tables a') = length (Spec.tables a) ∧
    (∀ j q, connected a' j q = negb (bool_decide ((i, p) = (j, q))) && connected a j q) ∧
    (∀ q, Spec.reputation a' q = if bool_decide (p = q)
       then i32_saturating_add (Spec.reputation a q) DISCONNECT_REPUTATION_CHANGE else Spec.reputation a q)).
Proof.
  intros Hi Hm Hc Ei Ep Hrc. destruct c as [st ? ?]; simpl in *; subst.
  set (a1 := Spec.set_reputation _ _ a) in *.
  assert (Spec.member a1 i p = Some m) as Hm1 by (unfold a1; by rewrite member_set_reputation).
  pose proof (member_Some _ _ _ _ Hm1) as Hlt.
  eapply runs_mono; [by eapply disconnect_spec|]. intros c' (_ & _ & Hrc').
  exists (Spec.assign i p (MS_NotConnected (clock (clock_reads ps))) a1).
  split_and!; [|by rewrite assign_length| |].
  - eapply pinv_with_data; [by apply pinv_read_clock|exact Hrc'|by rewrite slotless_list_assign| |].
    + intros j q. rewrite connected_assign by done. by case_decide.
    + intros j q Hk. apply (known_assign U i p _ a1 j q Hlt) in Hk; [done|]. left. by rewrite Hm1.
  - intros j q. rewrite connected_assign by done. by case_decide; case_bool_decide.
  - intros q. rewrite reputation_assign. unfold a1. case_bool_decide as E.
    + subst. by rewrite reputation_set_eq.
    + by rewrite reputation_set_ne.
Qed.

Lemma dropped_spec i p reason ps a r :
  inv ps a → reserved_nodes ps !! i = Some r → (i < length (Spec.tables a))%nat →
  let forgotten := match reason with DR_Refused => negb (bool_decide (p ∈ r.1)) | DR_Unknown => false end in
  runs (dropped clock i p reason ps) (λ ps', ∃ a', dropped_done ps a i p forgotten ps' a').
Proof.
  intros Hi Hr Hlt forgotten. unfold dropped. apply runs_bind.
  eapply runs_mono; [by apply (update_time_spec clock idle U)|].
  intros ps1 (a1 & Hs1 & Hres1 & Hq1 & _ & _ & Ha1 & Hrep1).
  assert (∀ j q, connected a1 j q = connected a j q) as Hc1 by (intros; by apply connected_aged).
  pose proof (tables_aged_length _ _ Ha1) as Hlen1.
  pose proof (so_inv _ _ _ _ _ _ _ Hs1) as Hi1. pose proof (so_rx _ _ _ _ _ _ _ Hs1) as Hrx1.
  rewrite (peer_spec _ a1 i p) by (try apply Hi1; lia). simpl. apply runs_bind.
  apply (runs_mono _ (λ ps2, ∃ a2, dropped_done ps a i p false ps2 a2)).
  - destruct (connected a1 i p) eqn:Hc; pose proof Hc as Hcm; unfold connected in Hcm; cycle 1.
    + assert (dropped_done ps a i p false ps1 a1) as Hd.
      { split; try done; intros.
        - rewrite Hc1. case_bool_decide as E; [injection E as <- <-; by rewrite <- Hc1, Hc|done].
        - rewrite Hrep1, <- Hc1, Hc, andb_false_r. done. }
      destruct (Spec.member a1 i p); [rewrite Hcm|]; by exists a1.
    + destruct (Spec.member a1 i p) as [m|] eqn:Hm; [|done]. rewrite Hcm.
      apply runs_bind. eapply runs_mono; [by eapply ConnectedPeer_add_reputation_spec; [apply Hi1|]|].
      intros c (Ei & Ep & Hrc). simpl. apply runs_bind.
      eapply runs_mono; [by apply (dropped_disconnect i p c ps1 a1 m)|].
      intros c' (a2 & Hi2 & Hlen2 & Hc2 & Hrep2). exists a2. split; try done; [congruence|..].
      * intros. by rewrite Hc2, Hc1.
      * intros. rewrite Hrep2, Hrep1, <- Hc1, Hc, andb_true_r. done.
  - intros ps2 (a2 & [I2 R2 S2 L2 Q2 C2 _ P2]). apply runs_bind. unfold forgotten, alloc_slots.
    destruct reason; [by exists a2|].
    eapply runs_mono; [apply (on_remove_from_peers_set_spec clock idle U i p ps2 a2 r); [done|congruence|lia]|].
    intros ps3 (a3 & Hs3 & Hres3 & Hm3 & Hm3' & Hrep3 & Hq3).
    assert (connected a2 i p = false) as Hcf by (rewrite C2, bool_decide_eq_true_2; done).
    rewrite Hcf, app_nil_r in Hq3. exists a3. split; [by destruct Hs3| | | | | | |]; try congruence.
    + rewrite (so_rx _ _ _ _ _ _ _ Hs3). congruence.
    + rewrite (so_length _ _ _ _ _ _ _ Hs3). congruence.
    + intros j q. rewrite <- C2. unfold connected. destruct (decide ((i, p) = (j, q))) as [E|E].
      * injection E as <- <-. rewrite Hm3. case_bool_decide; [done|]. unfold connected in Hcf. by rewrite Hcf.
      * by rewrite Hm3'.
    + intros Hf. rewrite Hm3. by destruct (bool_decide _).
    + intros q. rewrite <- P2. unfold Spec.reputation. by rewrite Hrep3.
Qed.

(** ** Reserved-only mode *)

Abbreviation reconfiguring i := (λ j : nat, j = i).

Lemma disconnect_loop i l ps a r :
  pinv clock (reconfiguring i) U ps a → reserved_nodes ps !! i = Some r → NoDup l →
  (∀ q, q ∈ l → connected a i q = true) →
  runs (for_each (disconnect_unless_reserved clock i) l ps) (λ ps', ∃ a',
    PeersetFacts.step_ok clock (reconfiguring i) U ps a ps' a' ∧ reserved_nodes ps' = reserved_nodes ps ∧
    ∀ j q, connected a' j q =
      connected a j q && (negb (bool_decide (j = i ∧ q ∈ l)) || bool_decide (q ∈ r.1))).
Proof.
  revert ps a. induction l as [|p l IH]; intros ps a Hi Hr Hnd Hl.
  { exists a. split_and!; [by apply step_ok_refl|done|]. intros j q.
    rewrite bool_decide_eq_false_2 by set_solver. by rewrite andb_true_r. }
  apply NoDup_cons in Hnd as [Hp Hnd]. simpl. apply runs_bind.
  eapply runs_mono; [apply (disconnect_unless_reserved_spec clock (reconfiguring i) U i p ps a r); [done..|set_solver]|].
  intros ps1 (a1 & Hs1 & Hres1 & Hc1).
  eapply runs_mono; [apply (IH ps1 a1); [apply Hs1|congruence|done|]|].
  { intros q Hq. rewrite Hc1, (Hl q) by set_solver. simpl.
    rewrite bool_decide_eq_true_2; [done|]. by intros [= ->]. }
  intros ps2 (a2 & Hs2 & Hres2 & Hc2). exists a2. split_and!; [by eapply step_ok_trans|congruence|].
  intros j q. rewrite Hc2, Hc1. destruct (connected a j q); simpl; [|done].
  repeat case_bool_decide; simpl; try done; set_solver.
Qed.

Lemma on_set_reserved_only_spec i b ps a r :
  inv ps a → reserved_nodes ps !! i = Some r → (i < length (Spec.tables a))%nat →
  runs (on_set_reserved_only clock i b ps) (λ ps', ∃ a', step_ok ps a ps' a' ∧
    reserved_nodes ps' = <[i := (r.1, b)]> (reserved_nodes ps) ∧
    ∀ j q, connected a' j q =
      connected a j q && (negb (b && bool_decide (j = i)) || bool_decide (q ∈ r.1))).
Proof.
  intros Hi Hr Hlt. unfold on_set_reserved_only. apply runs_bind. eapply runs_index; [exact Hr|].
  apply runs_bind, runs_index_set; [by eauto|]. fold (set_reserved i r.1 b ps).
  set (ps1 := set_reserved i r.1 b ps).
  assert ((reserved_nodes ps1).*1 = slotless_list a) as Hsync.
  { unfold ps1. simpl. rewrite fst_insert, (pi_reserved _ _ _ _ _ Hi). apply list_insert_id.
    rewrite <- (pi_reserved _ _ _ _ _ Hi), list_lookup_fmap, Hr. done. }
  assert (∀ j r', j ≠ i → reserved_nodes ps1 !! j = Some r' → reserved_nodes ps !! j = Some r') as Hother.
  { intros j r' Hne. unfold ps1. simpl. by rewrite list_lookup_insert_ne. }
  assert (reserved_nodes ps1 !! i = Some (r.1, b)) as Hself.
  { apply list_lookup_insert_eq. by eapply lookup_lt_Some. }
  assert (pinv clock (reconfiguring i) U ps1 a) as Hi1.
  { destruct Hi as [P1 P2 P3 P4 P5 P6]. split; try done.
    intros j r' q Hb Hj. apply (P3 j r' q); [apply not_idle|]. by apply Hother. }
  destruct b.
  - apply runs_bind. eapply runs_mono; [apply connected_peers_spec; [apply Hi1|done]|].
    intros l (Hnd & Hl). eapply runs_mono; [apply (disconnect_loop i l ps1 a _ Hi1 Hself Hnd)|].
    { intros q (m & Hm & Hc)%Hl. by rewrite (connected_member _ _ _ _ Hm). }
    intros ps2 (a2 & Hs2 & Hres2 & Hc2). exists a2.
    assert (∀ j q, connected a2 j q = connected a j q && (negb (bool_decide (j = i)) || bool_decide (q ∈ r.1))) as Hc.
    { intros j q. rewrite Hc2. simpl. destruct (connected a j q) eqn:E; [|done]. simpl.
      destruct (decide (j = i)) as [->|]; repeat case_bool_decide; try done; [|naive_solver].
      exfalso. unfold connected in E. destruct (Spec.member a i q) eqn:Em; [|done]. naive_solver. }
    split_and!; [|by rewrite Hres2|by intros; rewrite Hc].
    destruct Hs2 as [I2 R2 L2 (m2 & Q2 & D2)]. split; try done; [|by exists m2].
    destruct I2 as [P1 P2 P3 P4 P5 P6]. split; try done. intros j r' q _ Hj Hb Hq.
    destruct (decide (j = i)) as [->|Hne].
    + rewrite Hres2, Hself in Hj. injection Hj as <-. rewrite Hc, bool_decide_eq_true_2 in Hq by done.
      simpl in *. by apply andb_prop in Hq as [_ Hq%bool_decide_eq_true].
    + by apply (P3 j r' q).
  - unfold alloc_slots. exists a. split_and!; [|done|by intros; simpl; rewrite andb_true_r].
    apply step_ok_quiet; try done. destruct Hi as [P1 P2 P3 P4 P5 P6]. split; try done. intros j r' q Hb Hj Hr'.
    destruct (decide (j = i)) as [->|Hne].
    + by simplify_eq.
    + apply (P3 j r' q); [done|by apply Hother|done].
Qed.

(** ** Actions *)

(** An action that names an existing set and a peer of [U]. *)
Definition action_ok (n : nat) (x : Action PeerId) : Prop :=
  match x with
  | AddReservedPeer i _ | RemoveReservedPeer i _ | SetReservedPeers i _ | SetReservedOnly i _
  | RemoveFromPeersSet i _ => (i < n)%nat
  | AddToPeersSet i p => (i < n)%nat ∧ p ∈ U
  | ReportPeer _ _ | PeerReputation _ _ | ConnectToPeer _ => True
  end.

Lemma handle_action_spec x ps a :
  inv ps a → action_ok (length (Spec.tables a)) x →
  runs (handle_action clock x ps) (λ ps', ∃ a', step_ok ps a ps' a').
Proof.
  intros Hi Hx.
  assert (∀ i, (i < length (Spec.tables a))%nat → ∃ r, reserved_nodes ps !! i = Some r) as Hsets.
  { intros i Hlt. by destruct (pinv_lookup _ _ _ ps a i Hi Hlt) as (r & ? & ? & _); eauto. }
  destruct x as [i p|i p|i l|i b|p c|i p|i p|p k|p]; simpl in *.
  - destruct (Hsets i Hx) as [r Hr].
    eapply runs_mono; [by eapply (on_add_reserved_peer_spec clock idle U)|]. intros ? (? & _). eauto.
  - destruct (Hsets i Hx) as [r Hr].
    eapply runs_mono; [by eapply (on_remove_reserved_peer_spec clock idle U)|]. intros ? (? & ? & _). eauto.
  - destruct (Hsets i Hx) as [r Hr].
    eapply runs_mono; [by eapply (on_set_reserved_peers_spec clock idle U)|]. intros ? (? & ? & _). eauto.
  - destruct (Hsets i Hx) as [r Hr].
    eapply runs_mono; [by eapply on_set_reserved_only_spec|]. intros ? (? & ? & _). eauto.
  - eapply runs_mono; [by eapply (on_report_peer_spec clock idle U)|]. intros ? (? & ? & _). eauto.
  - destruct Hx. eapply runs_mono; [by eapply (add_to_peers_set_spec clock idle U)|]. intros ? (? & _). eauto.
  - destruct (Hsets i Hx) as [r Hr].
    eapply runs_mono; [by eapply (on_remove_from_peers_set_spec clock idle U)|]. intros ? (? & ? & _). eauto.
  - eapply runs_mono; [by eapply (on_peer_reputation_spec clock idle U)|]. intros ? (? & _). eauto.
  - exists a. by apply connect_to_peer_spec.
Qed.

(** ** Construction *)

Definition config_ok (c : PeersetSetConfig PeerId) : Prop :=
  is_u32 (cfg_in_peers c) ∧ is_u32 (cfg_out_peers c) ∧ ∀ p, p ∈ cfg_bootnodes c → p ∈ U.

(** Between the sets: nobody is connected, nothing is queued. *)
Record configuring (cfg : list (PeersetSetConfig PeerId)) (done : list (gset PeerId))
    (ps : Peerset PeerId) (a : Spec.t PeerId) : Prop := {
  cf_represents : represents (data ps) a;
  cf_slotless : slotless_list a = done;
  cf_reserved : reserved_nodes ps = (λ c, (cfg_reserved_nodes c, cfg_reserved_only c)) <$> cfg;
  cf_disconnected : ∀ j q, connected a j q = false;
  cf_universe : ∀ j q, Spec.member a j q ≠ None → q ∈ U;
  cf_empty : rx ps = [] ∧ message_queue ps = [] ∧ replies ps = [];
  cf_time : created ps = clock 0 ∧ latest_time_update ps = clock 0 ∧ (0 < clock_reads ps)%nat;
}.

Lemma add_no_slot_loop i l d a s :
  represents d a → slotless_list a !! i = Some s →
  (∀ j q, connected a j q = false) → (∀ j q, Spec.member a j q ≠ None → q ∈ U) →
  runs (for_each (λ d node, add_no_slot_node d i node) l d) (λ d', ∃ a',
    represents d' a' ∧ slotless_list a' = <[i := list_to_set l ∪ s]> (slotless_list a) ∧
    (∀ j q, connected a' j q = false) ∧ (∀ j q, Spec.member a' j q ≠ None → q ∈ U)).
Proof.
  revert d a s. induction l as [|p l IH]; intros d a s Hd Hs Hc Hu; simpl.
  { exists a. split_and!; try done. rewrite list_insert_id; [done|]. rewrite Hs. f_equal. set_solver. }
  assert (i < length (Spec.tables a))%nat as Hlt.
  { apply lookup_lt_Some in Hs. unfold slotless_list in Hs. by rewrite length_fmap in Hs. }
  apply runs_bind. eapply runs_mono; [by apply add_no_slot_node_spec|]. intros d1 Hd1.
  pose proof (slotless_list_reserve i p a s Hs) as Hsl.
  eapply runs_mono; [apply (IH d1 _ ({[p]} ∪ s) Hd1)|].
  - rewrite Hsl. apply list_lookup_insert_eq. by eapply lookup_lt_Some.
  - intros. by rewrite connected_reserve.
  - intros j q. rewrite member_reserve. apply Hu.
  - intros d2 (a2 & ? & Hs2 & ? & ?). exists a2. split_and!; try done.
    rewrite Hs2, Hsl, list_insert_insert_eq. f_equal. set_solver.
Qed.

Lemma add_bootnode_spec cfg dn i p ps a :
  configuring cfg dn ps a → (i < length (Spec.tables a))%nat → p ∈ U →
  runs (add_bootnode clock i ps p) (λ ps', ∃ a', configuring cfg dn ps' a').
Proof.
  intros [C1 C2 C3 C4 C5 C6 C7] Hlt Hp. unfold add_bootnode. rewrite (peer_spec _ a i p) by done. simpl.
  destruct (Spec.member a i p) as [m|] eqn:Hm; [destruct (is_connected m); by exists a|].
  apply runs_bind. eapply runs_mono; [by apply discover_spec|]. intros c (_ & _ & Hrc).
  eexists. split; [exact Hrc|by rewrite slotless_list_assign|done| | |done|simpl; destruct C7 as (? & ? & ?); split_and!; try done; lia].
  - intros j q. rewrite connected_assign by done. by case_decide.
  - intros j q Hk. apply (known_assign U) in Hk as [?|?]; eauto.
Qed.

Lemma configuring_length cfg dn ps a : configuring cfg dn ps a → length (Spec.tables a) = length dn.
Proof. intros Hc. rewrite <- (cf_slotless _ _ _ _ Hc). unfold slotless_list. by rewrite length_fmap. Qed.

Lemma configure_set_spec cfg dn i c ps a :
  configuring cfg dn ps a → dn !! i = Some ∅ → config_ok c →
  runs (configure_set clock ps (i, c)) (λ ps', ∃ a',
    configuring cfg (<[i := cfg_reserved_nodes c]> dn) ps' a').
Proof.
  intros Hc Hi (_ & _ & Hboot). pose proof (configuring_length _ _ _ _ Hc) as Hlen.
  destruct Hc as [C1 C2 C3 C4 C5 C6 C7].
  unfold configure_set. apply runs_bind.
  eapply runs_mono; [apply (add_no_slot_loop i _ _ a ∅ C1); [by rewrite C2|done..]|].
  intros d (a1 & Hd & Hs & Hc1 & Hu1).
  assert (configuring cfg (<[i := cfg_reserved_nodes c]> dn) (with_data d ps) a1) as Hcf.
  { split; try done. rewrite Hs, C2. f_equal. apply set_eq. intros q.
    rewrite elem_of_union, elem_of_list_to_set, elem_of_hash_keys. set_solver. }
  eapply runs_mono; [apply (runs_for_each_inv _ (λ ps', ∃ a', configuring cfg (<[i := cfg_reserved_nodes c]> dn) ps' a'))|done].
  - by exists a1.
  - intros p ps' Hp (a' & Hc'). eapply add_bootnode_spec; [exact Hc'| |by apply Hboot].
    rewrite (configuring_length _ _ _ _ Hc'), length_insert. by eapply lookup_lt_Some.
Qed.

Lemma configure_sets_spec cfg rest pre ps a :
  Forall config_ok rest →
  configuring cfg ((cfg_reserved_nodes <$> pre) ++ replicate (length rest) ∅) ps a →
  runs (for_each (configure_set clock) (imap (λ n c, ((length pre + n)%nat, c)) rest) ps) (λ ps', ∃ a',
    configuring cfg (cfg_reserved_nodes <$> (pre ++ rest)) ps' a').
Proof.
  revert pre ps a. induction rest as [|c rest IH]; intros pre ps a Hok Hc; simpl.
  { exists a. by rewrite !app_nil_r in *. }
  apply Forall_cons in Hok as [Hokc Hok]. rewrite Nat.add_0_r. apply runs_bind.
  assert (length pre = length (cfg_reserved_nodes <$> pre)) as Hl by (by rewrite length_fmap).
  eapply runs_mono; [apply (configure_set_spec _ _ _ c ps a Hc)|].
  { rewrite Hl. by apply list_lookup_middle. }
  { done. }
  intros ps1 (a1 & Hc1). rewrite Hl, insert_app_r_alt, Nat.sub_diag in Hc1 by done. simpl in Hc1.
  replace (pre ++ c :: rest) with ((pre ++ [c]) ++ rest) by (by rewrite <- app_assoc).
  rewrite (imap_ext _ (λ n x, ((length (pre ++ [c]) + n)%nat, x))).
  - eapply runs_mono; [apply (IH (pre ++ [c]) ps1 a1 Hok)|done].
    by rewrite fmap_app, <- app_assoc.
  - intros. simpl. f_equal. rewrite length_app; simpl. lia.
Qed.

Lemma from_config_spec cfg :
  Forall config_ok cfg →
  runs (from_config clock cfg) (λ ps, ∃ a, inv ps a ∧ length (Spec.tables a) = length cfg ∧
    reserved_nodes ps = (λ c, (cfg_reserved_nodes c, cfg_reserved_only c)) <$> cfg ∧
    (∀ j q, connected a j q = false) ∧ message_queue ps = [] ∧ rx ps = []).
Proof.
  intros Hok. unfold from_config. apply runs_bind.
  eapply runs_mono; [eapply (configure_sets_spec cfg cfg []); [done|]|].
  - split; simpl; [apply PeersState_new_represents| |done| | |done|split_and!; [done..|lia]].
    + apply Forall_fmap. eapply Forall_impl; [exact Hok|]. by intros c (? & ? & _).
    + unfold slotless_list; simpl. rewrite <- !list_fmap_compose. clear. induction cfg as [|c cfg IH]; [done|].
      simpl. by f_equal.
    + intros j q. unfold connected, Spec.member; simpl. rewrite !list_lookup_fmap.
      destruct (cfg !! j); simpl; by rewrite ?lookup_empty.
    + intros j q. unfold Spec.member; simpl. rewrite !list_lookup_fmap.
      destruct (cfg !! j); simpl; by rewrite ?lookup_empty.
  - intros ps (a & Hc). pose proof (configuring_length _ _ _ _ Hc) as Hlen.
    destruct Hc as [C1 C2 C3 C4 C5 (C6 & C6' & _) (C7 & C7' & C7'')].
    assert (∀ l, foldl (λ ps set_index, alloc_slots set_index ps) ps l = ps) as Hall.
    { induction l; by simpl. }
    apply runs_ret. rewrite Hall. exists a. split_and!; try done; [|by rewrite Hlen, length_fmap].
    split; try done.
    + rewrite C2, C3, <- list_fmap_compose. done.
    + intros j r q _ _ _. by rewrite C4.
    + by rewrite C7, C7'.
    + intros k Hk. rewrite C7'. apply clock_mono. lia.
Qed.

(** ** Polling *)

Lemma alloc_slots_all l ps : foldl (λ ps set_index, alloc_slots set_index ps) ps l = ps.
Proof. by induction l. Qed.

(** The timer changes nothing but the time of its next firing. *)
Lemma poll_periodic_spec ps a :
  inv ps a → inv (poll_periodic clock delay_ready ps) a ∧
  rx (poll_periodic clock delay_ready ps) = rx ps ∧
  message_queue (poll_periodic clock delay_ready ps) = message_queue ps.
Proof.
  intros Hi%pinv_read_clock. unfold poll_periodic. destruct (read_clock clock ps) as [now ps'] eqn:E.
  rewrite alloc_slots_all. unfold read_clock in E. injection E as <- <-.
  destruct (delay_ready _ _); (split_and!; [|done..]); by destruct Hi.
Qed.

(** Queued actions are well-formed. *)
Definition actions_ok (ps : Peerset PeerId) (a : Spec.t PeerId) : Prop :=
  Forall (action_ok (length (Spec.tables a))) (rx ps).

(** The outcome of polling: the oldest queued message if there is one;
    otherwise the queued actions are processed in order until one of them
    produces a message. What the network has not been told yet stays queued,
    and the messages told are exactly the connections given up. *)
Record polled (ps : Peerset PeerId) (a : Spec.t PeerId) (msg : option (Message PeerId))
    (ps' : Peerset PeerId) (a' : Spec.t PeerId) : Prop := {
  po_inv : inv ps' a';
  po_length : length (Spec.tables a') = length (Spec.tables a);
  po_rx : ∃ handled, rx ps = handled ++ rx ps';
  po_queue : ∃ msgs, message_queue ps ++ msgs = option_list msg ++ message_queue ps' ∧ drops a a' msgs;
  po_pending : msg = None → rx ps' = [] ∧ message_queue ps' = [];
  po_lazy : message_queue ps ≠ [] → rx ps' = rx ps;
}.

Lemma inv_with_queue ms ps a : inv ps a → inv (with_queue ms ps) a.
Proof. by intros []. Qed.
Lemma inv_with_rx xs ps a : inv ps a → inv (with_rx xs ps) a.
Proof. by intros []. Qed.

Lemma poll_loop_spec fuel ps a :
  inv ps a → actions_ok ps a → (length (rx ps) < fuel)%nat →
  runs (poll_loop clock delay_ready fuel ps) (λ r, ∃ msg ps' a',
    r = Polled msg ps' ∧ polled ps a msg ps' a').
Proof.
  revert ps a. induction fuel as [|fuel IH]; intros ps a Hi Hok Hf; [lia|]. simpl.
  destruct (message_queue ps) as [|m q] eqn:Hq.
  2: { exists (Some m), (with_queue q ps), a. split; [done|]. split; try done; [by apply inv_with_queue|by exists []|].
       exists []. rewrite app_nil_r, Hq. split; [done|apply drops_refl]. }
  destruct (poll_periodic_spec ps a Hi) as (Hi1 & Hrx1 & Hq1). set (ps1 := poll_periodic _ _ ps) in *.
  rewrite Hrx1. destruct (rx ps) as [|x q] eqn:Hrx.
  { exists None, ps1, a. split; [done|]. split; try done; rewrite ?Hrx, ?Hrx1, ?Hq1, ?Hq.
    - by exists [].
    - exists []. split; [done|apply drops_refl].
    - done. }
  unfold actions_ok in Hok. rewrite Hrx in Hok. apply Forall_cons in Hok as [Hx Hok].
  apply runs_bind. eapply runs_mono; [apply (handle_action_spec x (with_rx q ps1) a); [by apply inv_with_rx|done]|].
  intros ps2 (a2 & [I2 R2 L2 (m2 & Q2 & D2)]). simpl in *. rewrite Hq1, Hq in Q2. simpl in Q2.
  eapply runs_mono; [apply (IH ps2 a2 I2)|].
  - unfold actions_ok. by rewrite R2, L2.
  - rewrite R2. lia.
  - intros r (msg & ps' & a' & -> & [P1 P2 (h & P3) (m3 & P4 & P4') P5 P6]).
    exists msg, ps', a'. split; [done|]. split; try done; [congruence| |].
    + exists (x :: h). rewrite Hrx. simpl. by rewrite <- P3, R2.
    + exists (m2 ++ m3). split; [|by eapply drops_trans]. by rewrite Hq, <- P4, Q2.
Qed.

End run.
