(* ===== verification/PeersetTheorems.v ===== *)
(** * The peer set manager: theorems

    The claims about [Peerset], on every state reachable from [from_config] by
    the calls of the network and of the handles. *)

From S2P Require Import Prelude PeersState PeersSpecFacts Peerset PeersetFacts PeersetRun.

Section theorems.
Context {PeerId : Type} `{Countable PeerId, !HashOrder PeerId}.
Context (clock : nat → Instant) (delay_ready : Instant → Instant → bool).
(** The peers that are ever mentioned, and the configuration. *)
Context (U : gset PeerId) (cfg : list (PeersetSetConfig PeerId)).

(** The environment: a monotonic clock, fewer than [2 ^ 32] peers, limits that
    are [u32]. *)
Record environment : Prop := {
  env_clock : ∀ m n, (m ≤ n)%nat → clock m ≤ clock n;
  env_peers : Z.of_nat (size U) ≤ u32_max;
  env_config : Forall (config_ok U) cfg;
}.

(** The life of a manager. *)
Inductive reachable : Peerset PeerId → Prop :=
  | reach_new ps : from_config clock cfg = Done ps → reachable ps
  | reach_send ps x : reachable ps → action_ok U (length cfg) x → reachable (unbounded_send x ps)
  | reach_poll ps msg ps' :
      reachable ps → poll_next clock delay_ready ps = Done (Polled msg ps') → reachable ps'
  | reach_incoming ps i p idx ps' :
      reachable ps → (i < length cfg)%nat → p ∈ U → incoming clock i p idx ps = Done ps' → reachable ps'
  | reach_dropped ps i p reason ps' :
      reachable ps → (i < length cfg)%nat → dropped clock i p reason ps = Done ps' → reachable ps'.

Hypothesis env : environment.

(** The specification state of a manager. *)
Definition view (ps : Peerset PeerId) : Spec.t PeerId := abs (data ps).

Record reach_inv (ps : Peerset PeerId) : Prop := {
  ri_inv : pinv clock idle U ps (view ps);
  ri_length : length (Spec.tables (view ps)) = length cfg;
  ri_actions : Forall (action_ok U (length cfg)) (rx ps);
}.

Lemma inv_view ps a : pinv clock idle U ps a → view ps = a.
Proof. intros Hi. apply (rep_abs _ _ (pi_represents _ _ _ _ _ Hi)). Qed.

Lemma reach_inv_intro ps a :
  pinv clock idle U ps a → length (Spec.tables a) = length cfg →
  Forall (action_ok U (length cfg)) (rx ps) → reach_inv ps.
Proof. intros Hi ??. pose proof (inv_view ps a Hi) as E. split; by rewrite ?E. Qed.

Lemma reach_reserved ps i :
  reach_inv ps → (i < length cfg)%nat → ∃ r, reserved_nodes ps !! i = Some r.
Proof.
  intros [Hi Hl _] Hlt. rewrite <- Hl in Hlt.
  destruct (pinv_lookup _ _ _ ps _ i Hi Hlt) as (r & ? & ? & _); eauto.
Qed.

Lemma poll_next_spec ps :
  reach_inv ps →
  runs (poll_next clock delay_ready ps) (λ r, ∃ msg ps', r = Polled msg ps' ∧
    polled clock U ps (view ps) msg ps' (view ps')).
Proof.
  intros [Hi Hl Hx]. unfold poll_next.
  eapply runs_mono; [apply (poll_loop_spec clock delay_ready U (env_clock env) (env_peers env) _ ps (view ps) Hi)|].
  - unfold actions_ok. by rewrite Hl.
  - lia.
  - intros r (msg & ps' & a' & -> & Hp). exists msg, ps'. split; [done|].
    by rewrite (inv_view ps' a' (po_inv _ _ _ _ _ _ _ Hp)).
Qed.

Lemma reachable_inv ps : reachable ps → reach_inv ps.
Proof.
  induction 1 as [ps Hnew|ps x _ IH Hx|ps msg ps' _ IH Hpoll|ps i p idx ps' _ IH Hi Hp Hin|ps i p reason ps' _ IH Hi Hdr].
  - pose proof (from_config_spec clock U (env_clock env) (env_peers env) cfg (env_config env)) as Hr.
    rewrite Hnew in Hr. destruct Hr as (a & Hi & Hl & _ & _ & _ & Hrx).
    eapply reach_inv_intro; [done..|]. by rewrite Hrx.
  - destruct IH as [I1 I2 I3]. apply (reach_inv_intro _ (view ps)); [by destruct I1|done|].
    simpl. apply Forall_app; auto.
  - pose proof (poll_next_spec ps IH) as Hr. rewrite Hpoll in Hr.
    destruct Hr as (m & ps1 & [= <- <-] & [P1 P2 (h & P3) _ _ _]). destruct IH as [_ I2 I3].
    eapply reach_inv_intro; [done|congruence|]. rewrite P3 in I3. by apply Forall_app in I3 as [_ ?].
  - destruct (reach_reserved ps i IH Hi) as [r Hr]. destruct IH as [I1 I2 I3].
    assert (runs (incoming clock i p idx ps) (λ ps', reach_inv ps')) as Hd.
    { eapply runs_mono; [eapply (incoming_spec clock U (env_clock env) i p idx ps _ r I1 Hr); [by rewrite I2|done]|].
      intros ps1 (a & [J1 J2 _ J4 _ _ _] & _). eapply reach_inv_intro; [done|congruence|by rewrite J2]. }
    by rewrite Hin in Hd.
  - destruct (reach_reserved ps i IH Hi) as [r Hr]. destruct IH as [I1 I2 I3].
    assert (runs (dropped clock i p reason ps) (λ ps', reach_inv ps')) as Hd.
    { eapply runs_mono; [eapply (dropped_spec clock U (env_clock env) i p reason ps _ r I1 Hr); by rewrite I2|].
      intros ps1 (a & [J1 J2 _ J4 _ _ _ _]). eapply reach_inv_intro; [done|congruence|by rewrite J2]. }
    by rewrite Hdr in Hd.
Qed.
Lemma reach_set_exists ps i r :
  reach_inv ps → reserved_nodes ps !! i = Some r → (i < length (Spec.tables (view ps)))%nat.
Proof.
  intros [I1 _ _] Hr. apply lookup_lt_Some in Hr.
  rewrite <- (length_fmap fst), (pi_reserved _ _ _ _ _ I1) in Hr.
  unfold slotless_list in Hr. by rewrite length_fmap in Hr.
Qed.

(** C3: The peer set manager never panics. Let the clock be monotonic, the
    limits of the configuration be [u32], the boot nodes, the peers the handles
    add and the peers that connect belong to a set [U] of at most [2 ^ 32 - 1]
    peers, and the sets that are named exist. Then creating the manager from its
    configuration succeeds; and in every state it reaches, every incoming
    connection of a peer of [U] and every disconnection reported for an existing
    set is processed, and polling returns, after at most one iteration per
    queued action and one more. *)
Theorem peerset_never_panics :
  (∃ ps0, from_config clock cfg = Done ps0) ∧
  ∀ ps, reachable ps →
    (∃ msg ps', poll_next clock delay_ready ps = Done (Polled msg ps')) ∧
    ∀ i p, (i < length cfg)%nat →
      (∀ reason, ∃ ps', dropped clock i p reason ps = Done ps') ∧
      (p ∈ U → ∀ idx, ∃ ps', incoming clock i p idx ps = Done ps').
Proof.
  split.
  { pose proof (from_config_spec clock U (env_clock env) (env_peers env) cfg (env_config env)) as Hr.
    apply runs_Done in Hr as (ps0 & ? & _). eauto. }
  intros ps Hreach%reachable_inv. split.
  - pose proof (poll_next_spec ps Hreach) as Hr. apply runs_Done in Hr as (r & ? & msg & ps' & -> & _). eauto.
  - intros i p Hi. destruct (reach_reserved ps i Hreach Hi) as [r Hr]. destruct Hreach as [I1 I2 I3].
    rewrite <- I2 in Hi. split.
    + intros reason. pose proof (dropped_spec clock U (env_clock env) i p reason ps _ r I1 Hr Hi) as Hd.
      apply runs_Done in Hd as (? & ? & _). eauto.
    + intros Hp idx. pose proof (incoming_spec clock U (env_clock env) i p idx ps _ r I1 Hr Hi Hp) as Hd.
      apply runs_Done in Hd as (? & ? & _). eauto.
Qed.

(** What polling delivers. The messages come out in the order they were
    queued; actions are processed in the order they were sent, and only when
    no message is waiting; the messages produced meanwhile announce with
    [Drop] exactly the connections that were given up, and polling never opens
    a connection. [Pending] means that nothing is left to do. *)
Theorem poll_next_reports_disconnections ps msg ps' :
  reachable ps → poll_next clock delay_ready ps = Done (Polled msg ps') →
  (∃ handled, rx ps = handled ++ rx ps') ∧
  (∃ msgs, message_queue ps ++ msgs = option_list msg ++ message_queue ps' ∧
    ∀ j q, Drop j q ∈ msgs ↔ connected (view ps) j q = true ∧ connected (view ps') j q = false) ∧
  (∀ j q, connected (view ps') j q = true → connected (view ps) j q = true) ∧
  (msg = None → rx ps' = [] ∧ message_queue ps' = []) ∧
  (message_queue ps ≠ [] → rx ps' = rx ps).
Proof.
  intros Hreach%reachable_inv Hpoll. pose proof (poll_next_spec ps Hreach) as Hr. rewrite Hpoll in Hr.
  destruct Hr as (m & ps1 & [= <- <-] & [_ _ P3 (ms & P4 & [D1 D2]) P5 P6]).
  split_and!; try done. by exists ms.
Qed.

(** The answer to an incoming connection. In reserved-only mode strangers
    are rejected; a peer that is already connected gets no answer; a peer whose
    reputation, decayed to the present, is under the ban threshold is rejected;
    every other peer is accepted exactly if it is reserved or an incoming slot
    is free. The peer is connected afterwards exactly if it was before or was
    accepted, and no other connection changes. *)
Theorem incoming_decision ps i p idx r :
  reachable ps → reserved_nodes ps !! i = Some r → p ∈ U →
  ∃ ps', incoming clock i p idx ps = Done ps' ∧
    let answer := incoming_answer (view ps) r i p (seconds_passed clock ps) idx in
    message_queue ps' = message_queue ps ++ answer ∧
    (answer = [Accept idx] → Spec.member (view ps') i p = Some MS_In) ∧
    (∀ j q, connected (view ps') j q =
       (bool_decide ((i, p) = (j, q)) && bool_decide (answer = [Accept idx])) || connected (view ps) j q) ∧
    (∀ q, Spec.reputation (view ps') q = decay (seconds_passed clock ps) (Spec.reputation (view ps) q)).
Proof.
  intros Hreach%reachable_inv Hr Hp. pose proof (reach_set_exists ps i r Hreach Hr) as Hi.
  destruct Hreach as [I1 I2 I3].
  pose proof (incoming_spec clock U (env_clock env) i p idx ps _ r I1 Hr Hi Hp) as Hd.
  apply runs_Done in Hd as (ps' & -> & a' & [J1 _ _ _ J5 J6 J7] & Hrep).
  exists ps'. rewrite (inv_view ps' a' J1). by split_and!.
Qed.

(** A report changes the reputation of the peer, decayed to the present,
    by the reported amount (saturating). If the result is under the ban
    threshold the peer is disconnected from every set, and for each connection
    lost the network is sent one or more [Drop]; otherwise no connection
    changes. Other peers are not affected. *)
Theorem report_peer_bans ps p change :
  reachable ps →
  ∃ ps' msgs, handle_action clock (ReportPeer p change) ps = Done ps' ∧
    let v := i32_saturating_add (decay (seconds_passed clock ps) (Spec.reputation (view ps) p))
               (change_value change) in
    Spec.reputation (view ps') p = v ∧
    (∀ j, connected (view ps') j p = if v <? BANNED_THRESHOLD then false else connected (view ps) j p) ∧
    (∀ j q, q ≠ p → connected (view ps') j q = connected (view ps) j q) ∧
    message_queue ps' = message_queue ps ++ msgs ∧
    ∀ j q, Drop j q ∈ msgs ↔ q = p ∧ v < BANNED_THRESHOLD ∧ connected (view ps) j p = true.
Proof.
  intros [I1 I2 I3]%reachable_inv.
  pose proof (on_report_peer_spec clock idle U (env_clock env) p change ps _ I1) as Hd.
  apply runs_Done in Hd as (ps' & Hrun & a' & [J1 _ _ (ms & J4 & [_ J5])] & _ & Hv & _ & Ho & Hc).
  exists ps', ms. rewrite (inv_view ps' a' J1). split; [done|].
  set (v := i32_saturating_add _ _) in *. split_and!; [done..|].
  intros j q. rewrite J5. destruct (decide (q = p)) as [->|Hne].
  - rewrite Hc. destruct (Z.ltb_spec v BANNED_THRESHOLD); [naive_solver|].
    split; [intros [E1 E2]; congruence|lia].
  - rewrite Ho by done. split; [intros [E1 E2]; congruence|naive_solver].
Qed.

(** C4: in a reserved-only set only reserved peers are connected, in every
    reachable state: both switching the mode on and removing a reservation
    disconnect whom they must. *)
Theorem reserved_only_safe ps i r q :
  reachable ps → reserved_nodes ps !! i = Some r → r.2 = true →
  connected (view ps) i q = true → q ∈ r.1.
Proof. intros [I1 _ _]%reachable_inv. by apply (pi_only _ _ _ _ _ I1), not_idle. Qed.

(** [SetReservedPeers] makes the reserved peers of the set exactly the
    given ones, leaves the other sets alone, keeps the peers that take no slot
    in sync, and disconnects exactly the peers that lose their reservation in
    a reserved-only set. *)
Theorem set_reserved_peers_exact ps i l r :
  reachable ps → reserved_nodes ps !! i = Some r →
  ∃ ps' answer, handle_action clock (SetReservedPeers i l) ps = Done ps' ∧
    reserved_nodes ps' = <[i := (l, r.2)]> (reserved_nodes ps) ∧
    reserved_peers i ps' = Done answer ∧ NoDup answer ∧ (∀ q, q ∈ answer ↔ q ∈ l) ∧
    (∀ j q, Spec.is_slotless (view ps') j q =
       match reserved_nodes ps' !! j with Some r' => bool_decide (q ∈ r'.1) | None => false end) ∧
    ∀ j q, connected (view ps') j q =
      connected (view ps) j q && negb (r.2 && bool_decide (j = i) && bool_decide (q ∈ r.1 ∖ l)).
Proof.
  intros Hreach%reachable_inv Hr. pose proof (reach_set_exists ps i r Hreach Hr) as Hlt.
  destruct Hreach as [I1 I2 I3].
  pose proof (on_set_reserved_peers_spec clock idle U (env_peers env) i l ps _ r I1 Hr Hlt) as Hd.
  apply runs_Done in Hd as (ps' & Hrun & a' & [J1 _ J3 _] & Hres & Hc).
  exists ps', (hash_keys l). rewrite (inv_view ps' a' J1). split_and!; try done.
  - unfold reserved_peers, index. rewrite Hres, list_lookup_insert_eq by (by eapply lookup_lt_Some). done.
  - apply NoDup_hash_keys.
  - intros q. apply elem_of_hash_keys.
  - intros j q. pose proof (pi_reserved _ _ _ _ _ J1) as Hs.
    destruct (reserved_nodes ps' !! j) as [r'|] eqn:Hj.
    + apply is_slotless_list. by rewrite <- Hs, list_lookup_fmap, Hj.
    + unfold Spec.is_slotless. destruct (Spec.tables a' !! j) as [T|] eqn:HT; [|done].
      assert ((reserved_nodes ps').*1 !! j = Some (Spec.slotless T)) as E.
      { rewrite Hs. unfold slotless_list. by rewrite list_lookup_fmap, HT. }
      by rewrite list_lookup_fmap, Hj in E.
Qed.

(** [SetReservedOnly] keeps the reserved peers of the set; switched on, it
    disconnects exactly the connected peers of that set that are not reserved
    and announces each of them with [Drop]; switched off, it changes no
    connection. *)
Theorem set_reserved_only_disconnects ps i b r :
  reachable ps → reserved_nodes ps !! i = Some r →
  ∃ ps' msgs, handle_action clock (SetReservedOnly i b) ps = Done ps' ∧
    reserved_nodes ps' = <[i := (r.1, b)]> (reserved_nodes ps) ∧
    message_queue ps' = message_queue ps ++ msgs ∧
    (∀ j q, Drop j q ∈ msgs ↔ b = true ∧ j = i ∧ connected (view ps) i q = true ∧ q ∉ r.1) ∧
    ∀ j q, connected (view ps') j q =
      connected (view ps) j q && (negb (b && bool_decide (j = i)) || bool_decide (q ∈ r.1)).
Proof.
  intros Hreach%reachable_inv Hr. pose proof (reach_set_exists ps i r Hreach Hr) as Hlt.
  destruct Hreach as [I1 I2 I3].
  pose proof (on_set_reserved_only_spec clock U (env_clock env) (env_peers env) i b ps _ r I1 Hr Hlt) as Hd.
  apply runs_Done in Hd as (ps' & Hrun & a' & [J1 _ _ (ms & J4 & [_ J5])] & Hres & Hc).
  exists ps', ms. rewrite (inv_view ps' a' J1). split_and!; try done.
  intros j q. rewrite J5, Hc. destruct (connected (view ps) j q) eqn:E, b; simpl;
    repeat case_bool_decide; simpl; naive_solver.
Qed.

(** When the network reports a disconnection, the peer is no longer
    connected to the set, it loses 256 points of its decayed reputation if it
    was, a refusal makes an ordinary peer leave the set altogether, and nothing
    is sent back to the network. *)
Theorem dropped_behaviour ps i p reason r :
  reachable ps → reserved_nodes ps !! i = Some r →
  ∃ ps', dropped clock i p reason ps = Done ps' ∧
    message_queue ps' = message_queue ps ∧ reserved_nodes ps' = reserved_nodes ps ∧
    (∀ j q, connected (view ps') j q = negb (bool_decide ((i, p) = (j, q))) && connected (view ps) j q) ∧
    (reason = DR_Refused → p ∉ r.1 → Spec.member (view ps') i p = None) ∧
    ∀ q, Spec.reputation (view ps') q =
      let v := decay (seconds_passed clock ps) (Spec.reputation (view ps) q) in
      if bool_decide (p = q) && connected (view ps) i p then i32_saturating_add v (-256) else v.
Proof.
  intros Hreach%reachable_inv Hr. pose proof (reach_set_exists ps i r Hreach Hr) as Hlt.
  destruct Hreach as [I1 I2 I3].
  pose proof (dropped_spec clock U (env_clock env) i p reason ps _ r I1 Hr Hlt) as Hd.
  apply runs_Done in Hd as (ps' & Hrun & a' & [J1 J2 J3 J4 J5 J6 J7 J8]).
  exists ps'. rewrite (inv_view ps' a' J1). split_and!; try done.
  intros -> Hp. apply J7. by rewrite bool_decide_eq_false_2.
Qed.

(** No second is lost or counted twice by the decay. The seconds applied by
    one update plus those the next update will apply are the whole seconds
    between the states' clocks, counted from the creation of the manager, and
    the update applies exactly its seconds to every peer. *)
Theorem update_time_counts_every_second ps :
  reachable ps →
  ∃ ps', update_time clock ps = Done ps' ∧
    (∀ q, Spec.reputation (view ps') q = decay (seconds_passed clock ps) (Spec.reputation (view ps) q)) ∧
    (∀ j q, connected (view ps') j q = connected (view ps) j q) ∧
    Z.of_nat (seconds_passed clock ps) + Z.of_nat (seconds_passed clock ps') =
      as_secs (clock (clock_reads ps') - created ps) - as_secs (latest_time_update ps - created ps).
Proof.
  intros [I1 I2 I3]%reachable_inv.
  pose proof (update_time_spec clock idle U (env_clock env) ps _ I1) as Hd.
  apply runs_Done in Hd as (ps' & Hrun & a' & [J1 _ _ _] & _ & _ & Hcr & Hlat & Hag & Hrep).
  exists ps'. rewrite (inv_view ps' a' J1). split_and!; [done..|by intros; apply connected_aged|].
  pose proof (pi_latest _ _ _ _ _ I1 (clock_reads ps) (le_n _)) as Hl.
  pose proof (pi_latest _ _ _ _ _ J1 (clock_reads ps') (le_n _)) as Hl'.
  rewrite Hlat in Hl'. unfold seconds_passed. rewrite Hcr, Hlat. unfold as_secs.
  assert ((latest_time_update ps - created ps) / 1000000000 ≤ (clock (clock_reads ps) - created ps) / 1000000000)
    by (apply Z.div_le_mono; lia).
  assert ((clock (clock_reads ps) - created ps) / 1000000000 ≤ (clock (clock_reads ps') - created ps) / 1000000000)
    by (apply Z.div_le_mono; lia).
  lia.
Qed.
End theorems.

(** A ban is temporary. Whatever its reputation, a peer is back over the
    ban threshold after ten seconds without reports (nine are not enough after
    a fatal report), and its reputation is back to zero after 948 seconds and
    stays there. *)
Theorem bans_expire :
  (∀ r, is_i32 r → BANNED_THRESHOLD ≤ decay 10 r) ∧
  decay 9 (change_value (ReputationChange_new_fatal EmptyString)) < BANNED_THRESHOLD ∧
  (∀ r n, is_i32 r → (948 ≤ n)%nat → decay n r = 0).
Proof.
  split_and!.
  - intros r Hr. etrans; [|apply (decay_mono 10 i32_min r); unfold is_i32 in *; [unfold i32_min, i32_max; lia|lia|lia]].
    vm_compute. discriminate.
  - vm_compute. reflexivity.
  - intros r n Hr Hn. replace n with ((n - 948) + 948)%nat by lia. rewrite decay_add.
    enough (decay 948 r = 0) as -> by apply decay_0.
    assert (decay 948 i32_min = 0) as H1 by (vm_compute; reflexivity).
    assert (decay 948 i32_max = 0) as H2 by (vm_compute; reflexivity).
    assert (is_i32 i32_min ∧ is_i32 i32_max) as [Hm HM] by (unfold is_i32, i32_min, i32_max; lia).
    pose proof (decay_mono 948 i32_min r Hm Hr (proj1 Hr)).
    pose proof (decay_mono 948 r i32_max Hr HM (proj2 Hr)). lia.
Qed.

(** ** Witnesses *)
Section witnesses.
#[local] Existing Instance canonical_order.

(** A clock that advances one second per reading, timers that always fire. *)
Definition ex_clock (k : nat) : Instant := from_secs (Z.of_nat k).
Definition ex_ready (_ _ : Instant) : bool := true.
Definition ex_U : gset nat := {[1; 2; 3]}%nat.
Definition ex_cfg : list (PeersetSetConfig nat) :=
  [{| cfg_in_peers := 1; cfg_out_peers := 1; cfg_bootnodes := [1%nat];
      cfg_reserved_nodes := {[3%nat]}; cfg_reserved_only := false |};
   {| cfg_in_peers := 5; cfg_out_peers := 0; cfg_bootnodes := [];
      cfg_reserved_nodes := {[3%nat]}; cfg_reserved_only := true |}].

Definition ex_reserved : gset nat := {[3%nat]}.

Lemma ex_not_reserved : 2%nat ∉ ex_reserved.
Proof. unfold ex_reserved. set_solver. Defined.

Lemma ex_env : environment ex_clock ex_U ex_cfg.
Proof.
  split.
  - intros m n Hmn. unfold ex_clock, from_secs. lia.
  - vm_compute. discriminate.
  - unfold ex_cfg. repeat constructor; simpl; try (unfold u32_max; lia); set_solver.
Defined.

Definition get {A} (d : A) (m : outcome A) : A := match m with Done a => a | Panicked _ => d end.
Definition ex_dummy : Peerset nat :=
  {| data := PeersState_new []; reserved_nodes := []; rx := []; message_queue := [];
     created := 0; latest_time_update := 0; next_periodic_alloc_slots := 0; clock_reads := 0; replies := [] |}.

(** A fresh manager, after peers 2 and 3 have connected to set 0 and peer 3 to
    set 1, with a report queued. *)
Definition ex_ps0 : Peerset nat := Eval vm_compute in get ex_dummy (from_config ex_clock ex_cfg).
Definition ex_ps1 : Peerset nat := Eval vm_compute in get ex_dummy (incoming ex_clock 0 2%nat 7 ex_ps0).
Definition ex_ps2 : Peerset nat := Eval vm_compute in get ex_dummy (incoming ex_clock 0 3%nat 8 ex_ps1).
Definition ex_ps3 : Peerset nat := Eval vm_compute in get ex_dummy (incoming ex_clock 1 3%nat 9 ex_ps2).
Definition ex_ps4 : Peerset nat :=
  Eval vm_compute in handle_report_peer 3%nat (ReputationChange_new_fatal "misbehaved") ex_ps3.

Lemma ex_reach3 : reachable ex_clock ex_ready ex_U ex_cfg ex_ps3.
Proof.
  apply (reach_incoming _ _ _ _ ex_ps2 1 3%nat 9); [|vm_compute; lia|set_solver|vm_compute; reflexivity].
  apply (reach_incoming _ _ _ _ ex_ps1 0 3%nat 8); [|vm_compute; lia|set_solver|vm_compute; reflexivity].
  apply (reach_incoming _ _ _ _ ex_ps0 0 2%nat 7); [|vm_compute; lia|set_solver|vm_compute; reflexivity].
  apply reach_new. vm_compute. reflexivity.
Defined.

Lemma ex_reach4 : reachable ex_clock ex_ready ex_U ex_cfg ex_ps4.
Proof.
  apply (reach_send _ _ _ _ ex_ps3 (ReportPeer 3%nat (ReputationChange_new_fatal "misbehaved")));
    [apply ex_reach3|exact I].
Defined.

Lemma peerset_never_panics_witness :
  (∃ ps0, from_config ex_clock ex_cfg = Done ps0) ∧
  ∃ msg ps', poll_next ex_clock ex_ready ex_ps4 = Done (Polled msg ps').
Proof.
  destruct (peerset_never_panics ex_clock ex_ready ex_U ex_cfg ex_env) as [Hnew Hreach].
  split; [exact Hnew|]. apply (Hreach ex_ps4 ex_reach4).
Defined.

(** All messages are delivered before the report is processed. *)
Definition ex_ps5 : Peerset nat :=
  Eval vm_compute in with_queue (tail (message_queue ex_ps4)) ex_ps4.

Lemma poll_next_reports_disconnections_witness :
  poll_next ex_clock ex_ready ex_ps4 = Done (Polled (Some (Accept 7)) ex_ps5) ∧
  rx ex_ps5 = rx ex_ps4.
Proof.
  split; [vm_compute; reflexivity|].
  apply (poll_next_reports_disconnections ex_clock ex_ready ex_U ex_cfg ex_env ex_ps4 (Some (Accept 7)) ex_ps5);
    [apply ex_reach4|vm_compute; reflexivity|discriminate].
Defined.

Lemma incoming_decision_witness :
  ∃ ps', incoming ex_clock 0 1%nat 10 ex_ps3 = Done ps' ∧
    message_queue ps' = message_queue ex_ps3 ++ [Reject 10].
Proof.
  destruct (incoming_decision ex_clock ex_ready ex_U ex_cfg ex_env ex_ps3 0 1%nat 10 (ex_reserved, false)
              ex_reach3 ltac:(vm_compute; reflexivity) ltac:(set_solver)) as (ps' & Hin & Hq & _).
  exists ps'. split; [exact Hin|]. rewrite Hq. reflexivity.
Defined.

Lemma report_peer_bans_witness :
  ∃ ps' msgs, handle_action ex_clock (ReportPeer 3%nat (ReputationChange_new_fatal "misbehaved")) ex_ps3 = Done ps' ∧
    message_queue ps' = message_queue ex_ps3 ++ msgs ∧ Drop 0 3%nat ∈ msgs ∧ Drop 1 3%nat ∈ msgs.
Proof.
  destruct (report_peer_bans ex_clock ex_ready ex_U ex_cfg ex_env ex_ps3 3%nat
              (ReputationChange_new_fatal "misbehaved") ex_reach3)
    as (ps' & msgs & Hrun & _ & _ & _ & Hq & Hd).
  exists ps', msgs. split; [exact Hrun|]. split; [exact Hq|].
  split; apply Hd; (split; [reflexivity|split; vm_compute; reflexivity]).
Defined.

Lemma reserved_only_safe_witness : 3%nat ∈ ({[3%nat]} : gset nat).
Proof.
  apply (reserved_only_safe ex_clock ex_ready ex_U ex_cfg ex_env ex_ps3 1 (ex_reserved, true) 3%nat ex_reach3);
    vm_compute; reflexivity.
Defined.

Lemma set_reserved_peers_exact_witness :
  ∃ ps', handle_action ex_clock (SetReservedPeers 1 {[2%nat]}) ex_ps3 = Done ps' ∧
    connected (view ps') 1 3%nat = false ∧ connected (view ps') 0 3%nat = true.
Proof.
  destruct (set_reserved_peers_exact ex_clock ex_ready ex_U ex_cfg ex_env ex_ps3 1 {[2%nat]} (ex_reserved, true)
              ex_reach3 ltac:(vm_compute; reflexivity)) as (ps' & l & Hrun & _ & _ & _ & _ & _ & Hc).
  exists ps'. split; [exact Hrun|]. rewrite !Hc. split; vm_compute; reflexivity.
Defined.

Lemma set_reserved_only_disconnects_witness :
  ∃ ps' msgs, handle_action ex_clock (SetReservedOnly 0 true) ex_ps3 = Done ps' ∧
    message_queue ps' = message_queue ex_ps3 ++ msgs ∧ Drop 0 2%nat ∈ msgs.
Proof.
  destruct (set_reserved_only_disconnects ex_clock ex_ready ex_U ex_cfg ex_env ex_ps3 0 true (ex_reserved, false)
              ex_reach3 ltac:(vm_compute; reflexivity)) as (ps' & msgs & Hrun & _ & Hq & Hd & _).
  exists ps', msgs. split; [exact Hrun|]. split; [exact Hq|]. apply Hd.
  split; [reflexivity|]. split; [reflexivity|]. split; [vm_compute; reflexivity|exact ex_not_reserved].
Defined.

Lemma dropped_behaviour_witness :
  ∃ ps', dropped ex_clock 0 2%nat DR_Refused ex_ps3 = Done ps' ∧ Spec.member (view ps') 0 2%nat = None ∧
    Spec.reputation (view ps') 2%nat = -256.
Proof.
  destruct (dropped_behaviour ex_clock ex_ready ex_U ex_cfg ex_env ex_ps3 0 2%nat DR_Refused (ex_reserved, false)
              ex_reach3 ltac:(vm_compute; reflexivity)) as (ps' & Hrun & _ & _ & _ & Hm & Hrep).
  exists ps'. split; [exact Hrun|]. split; [apply Hm; [reflexivity|exact ex_not_reserved]|].
  rewrite Hrep. vm_compute. reflexivity.
Defined.

Lemma update_time_counts_every_second_witness :
  ∃ ps', update_time ex_clock ex_ps4 = Done ps' ∧
    ∀ j q, connected (view ps') j q = connected (view ex_ps4) j q.
Proof.
  destruct (update_time_counts_every_second ex_clock ex_ready ex_U ex_cfg ex_env ex_ps4 ex_reach4)
    as (ps' & Hrun & _ & Hc & _).
  exists ps'. split; [exact Hrun|exact Hc].
Defined.
End witnesses.
