(* ===== verification/Notifications.v ===== *)
(** * The notifications behaviour

    Model of [network/protocol/notifications/behaviour.rs]: the state machine
    that sits between the peer set manager, the swarm and the connection
    handlers. A peer has one [PeerState] per set of the peer set manager, and
    one [ConnectionState] per connection in it.

    The behaviour owns the [Peerset]; [Instant::now] reads the clock of the
    peer set manager, so that both see one sequence of readings. The duration
    of a ban is drawn by [rand]: the successive samples are a parameter. A
    timer is an entry of [delays]; which timers have fired when [poll] is
    called is an argument of [poll]. *)

From S2P Require Import Prelude PeersState Peerset.

(** ** Data *)

Abbreviation ConnectionId := nat (only parsing).
Abbreviation ProtocolName := string (only parsing).
Abbreviation DelayId := Z (only parsing).

Record ProtocolConfig := mkProtocolConfig {
  pc_name : ProtocolName;
  pc_fallback_names : list ProtocolName;
  pc_handshake : list Byte.byte;
  pc_max_notification_size : Z;
}.

Module Behaviour.
Section data.
Context {PeerId : Type} `{Countable PeerId} {NotificationsSink : Type}.

(** State of the handler of a single connection visible from this state
    machine. *)
Inductive ConnectionState :=
  | Closed
  | Closing
  | Opening
  | OpeningThenClosing
  | OpenDesiredByRemote
  | Open (sink : NotificationsSink).

#[local] Abbreviation connections := (list (ConnectionId * ConnectionState)).

(** State of a peer, per set. *)
Inductive PeerState :=
  | Poisoned
  | Backoff (timer : DelayId) (timer_deadline : Instant)
  | PendingRequest (timer : DelayId) (timer_deadline : Instant)
  | Requested
  | Disabled (backoff_until : option Instant) (conns : connections)
  | DisabledPendingEnable (timer : DelayId) (timer_deadline : Instant) (conns : connections)
  | Enabled (conns : connections)
  | Incoming (backoff_until : option Instant) (conns : connections).

Definition is_open_state (s : ConnectionState) : bool := match s with Open _ => true | _ => false end.
Definition is_opening (s : ConnectionState) : bool := match s with Opening => true | _ => false end.
Definition is_opening_or_open (s : ConnectionState) : bool := is_opening s || is_open_state s.
Definition is_closed (s : ConnectionState) : bool := match s with Closed => true | _ => false end.
Definition is_closing (s : ConnectionState) : bool := match s with Closing => true | _ => false end.
Definition is_opening_then_closing (s : ConnectionState) : bool :=
  match s with OpeningThenClosing => true | _ => false end.
Definition is_desired (s : ConnectionState) : bool :=
  match s with OpenDesiredByRemote => true | _ => false end.

(** [connections.iter().any(..)] *)
Definition any (f : ConnectionState → bool) (l : connections) : bool := existsb (λ c, f c.2) l.

(** The sink of the first open connection, with its position. *)
Fixpoint find_sink (l : connections) : option (nat * NotificationsSink) :=
  match l with
  | [] => None
  | (_, Open s) :: _ => Some (0%nat, s)
  | _ :: l => (λ r, (S r.1, r.2)) <$> find_sink l
  end.

Definition get_open (st : PeerState) : option NotificationsSink :=
  match st with Enabled l => snd <$> find_sink l | _ => None end.
Definition PeerState_is_open (st : PeerState) : bool :=
  match get_open st with Some _ => true | None => false end.

(** An "incoming" message sent to the peer set manager. *)
Record IncomingPeer := mkIncomingPeer {
  ip_peer_id : PeerId;
  ip_set_id : nat;
  ip_alive : bool;
  ip_incoming_id : Z;
}.

Inductive NotificationsOut :=
  | CustomProtocolOpen (peer_id : PeerId) (set_id : nat) (negotiated_fallback : option ProtocolName)
      (received_handshake : list Byte.byte) (notifications_sink : NotificationsSink)
  | CustomProtocolReplaced (peer_id : PeerId) (set_id : nat) (notifications_sink : NotificationsSink)
  | CustomProtocolClosed (peer_id : PeerId) (set_id : nat)
  | Notification (peer_id : PeerId) (set_id : nat) (message : list Byte.byte).

(** Commands to, and events from, the handler of a connection. *)
Inductive NotifsHandlerIn :=
  | In_Open (protocol_index : nat)
  | In_Close (protocol_index : nat).

Inductive NotifsHandlerOut :=
  | Out_OpenResultOk (protocol_index : nat) (negotiated_fallback : option ProtocolName)
      (received_handshake : list Byte.byte) (notifications_sink : NotificationsSink)
  | Out_OpenResultErr (protocol_index : nat)
  | Out_CloseResult (protocol_index : nat)
  | Out_OpenDesiredByRemote (protocol_index : nat)
  | Out_CloseDesired (protocol_index : nat)
  | Out_Notification (protocol_index : nat) (message : list Byte.byte).

(** [NetworkBehaviourAction]. *)
Inductive BehaviourAction :=
  | GenerateEvent (event : NotificationsOut)
  | Dial (peer_id : PeerId) (handler : list ProtocolConfig)
  | NotifyHandler (peer_id : PeerId) (handler : ConnectionId) (event : NotifsHandlerIn).

(** A timer: it yields its identifier after [delay_for]. *)
Record Delay := mkDelay {
  delay_id : DelayId;
  delay_peer : PeerId;
  delay_set : nat;
  delay_for : Duration;
}.

Record Notifications := mkNotifications {
  notif_protocols : list ProtocolConfig;
  peerset : Peerset PeerId;
  peers : gmap (PeerId * nat) PeerState;
  delays : list Delay;
  next_delay_id : DelayId;
  incoming_list : list IncomingPeer;
  next_incoming_index : Z;
  events : list BehaviourAction;
  samples : nat;
}.

Definition with_peerset (x : Peerset PeerId) (n : Notifications) : Notifications :=
  {| notif_protocols := notif_protocols n; peerset := x; peers := peers n; delays := delays n;
     next_delay_id := next_delay_id n; incoming_list := incoming_list n;
     next_incoming_index := next_incoming_index n; events := events n; samples := samples n |}.
Definition with_peers (x : gmap (PeerId * nat) PeerState) (n : Notifications) : Notifications :=
  {| notif_protocols := notif_protocols n; peerset := peerset n; peers := x; delays := delays n;
     next_delay_id := next_delay_id n; incoming_list := incoming_list n;
     next_incoming_index := next_incoming_index n; events := events n; samples := samples n |}.
Definition with_delays (x : list Delay) (i : DelayId) (n : Notifications) : Notifications :=
  {| notif_protocols := notif_protocols n; peerset := peerset n; peers := peers n; delays := x;
     next_delay_id := i; incoming_list := incoming_list n;
     next_incoming_index := next_incoming_index n; events := events n; samples := samples n |}.
Definition with_incoming (x : list IncomingPeer) (i : Z) (n : Notifications) : Notifications :=
  {| notif_protocols := notif_protocols n; peerset := peerset n; peers := peers n; delays := delays n;
     next_delay_id := next_delay_id n; incoming_list := x;
     next_incoming_index := i; events := events n; samples := samples n |}.
Definition with_events (x : list BehaviourAction) (n : Notifications) : Notifications :=
  {| notif_protocols := notif_protocols n; peerset := peerset n; peers := peers n; delays := delays n;
     next_delay_id := next_delay_id n; incoming_list := incoming_list n;
     next_incoming_index := next_incoming_index n; events := x; samples := samples n |}.
Definition with_samples (x : nat) (n : Notifications) : Notifications :=
  {| notif_protocols := notif_protocols n; peerset := peerset n; peers := peers n; delays := delays n;
     next_delay_id := next_delay_id n; incoming_list := incoming_list n;
     next_incoming_index := next_incoming_index n; events := events n; samples := x |}.

(** [*entry.into_mut() = st], [entry.remove()] and [self.events.push_back]. *)
Definition set_peer (p : PeerId) (s : nat) (st : PeerState) (n : Notifications) : Notifications :=
  with_peers (<[(p, s) := st]> (peers n)) n.
Definition remove_peer (p : PeerId) (s : nat) (n : Notifications) : Notifications :=
  with_peers (delete (p, s) (peers n)) n.
Definition push_events (l : list BehaviourAction) (n : Notifications) : Notifications :=
  with_events (events n ++ l) n.
Definition push_event (e : BehaviourAction) (n : Notifications) : Notifications := push_events [e] n.

(** [for (id, st) in connections.iter_mut().filter(test) { notify; *st = new }]:
    the connections afterwards and the notifications, in order. *)
Definition notify_filtered (test : ConnectionState → bool) (new : ConnectionState)
    (mk : ConnectionId → BehaviourAction) (l : connections) : connections * list BehaviourAction :=
  ((λ c, if test c.2 then (c.1, new) else c) <$> l,
   mk ∘ fst <$> filter (λ c, test c.2 = true) l).

Definition send_open (p : PeerId) (s : nat) (c : ConnectionId) : BehaviourAction :=
  NotifyHandler p c (In_Open s).
Definition send_close (p : PeerId) (s : nat) (c : ConnectionId) : BehaviourAction :=
  NotifyHandler p c (In_Close s).

(** [connections.iter_mut().find(test)], then an assignment to the state found:
    the position and identifier found and the updated connections. *)
Fixpoint update_first (test : ConnectionId → ConnectionState → bool) (new : ConnectionState)
    (l : connections) : option (ConnectionId * connections) :=
  match l with
  | [] => None
  | (c, st) :: l' =>
      if test c st then Some (c, (c, new) :: l')
      else (λ r, (r.1, (c, st) :: r.2)) <$> update_first test new l'
  end.

(** [connections.iter().position(|(c, _)| c == id)], with the state there. *)
Definition position (id : ConnectionId) (l : connections) : option (nat * ConnectionState) :=
  (λ r, (r.1, r.2.2)) <$> list_find (λ c, c.1 = id) l.

(** [self.incoming.iter_mut().find(|i| i.alive && ..)], then [alive = false]. *)
Fixpoint kill_incoming (p : PeerId) (s : nat) (l : list IncomingPeer) : option (list IncomingPeer) :=
  match l with
  | [] => None
  | i :: l' =>
      if bool_decide (ip_peer_id i = p) && bool_decide (ip_set_id i = s) && ip_alive i then
        Some ({| ip_peer_id := ip_peer_id i; ip_set_id := ip_set_id i; ip_alive := false;
                 ip_incoming_id := ip_incoming_id i |} :: l')
      else cons i <$> kill_incoming p s l'
  end.

(** [self.incoming.iter().position(|i| i.incoming_id == index)], then
    [remove]. *)
Fixpoint take_incoming (index : Z) (l : list IncomingPeer) : option (IncomingPeer * list IncomingPeer) :=
  match l with
  | [] => None
  | i :: l' =>
      if ip_incoming_id i =? index then Some (i, l')
      else (λ r, (r.1, i :: r.2)) <$> take_incoming index l'
  end.
End data.

Arguments ConnectionState NotificationsSink : clear implicits.
Arguments PeerState NotificationsSink : clear implicits.
Abbreviation connections Sink := (list (nat * ConnectionState Sink)).
Arguments IncomingPeer PeerId : clear implicits.
Arguments NotificationsOut PeerId NotificationsSink : clear implicits.
Arguments NotifsHandlerOut NotificationsSink : clear implicits.
Arguments BehaviourAction PeerId NotificationsSink : clear implicits.
Arguments Delay PeerId : clear implicits.
Arguments Notifications PeerId {_ _} NotificationsSink.

(** ** [impl Notifications] *)
Section behaviour.
Context {PeerId : Type} `{Countable PeerId, !HashOrder PeerId} {NotificationsSink : Type}.
Context (clock : nat → Instant) (delay_ready : Instant → Instant → bool).
(** The successive samples of [Uniform::new(5, 10)]. *)
Context (ban_sample : nat → Z).

Abbreviation Notifications := (Notifications PeerId NotificationsSink).
Abbreviation PeerState := (PeerState NotificationsSink).

(** [Instant::now()]. *)
Definition now (n : Notifications) : Instant * Notifications :=
  let (t, ps) := read_clock clock (peerset n) in (t, with_peerset ps n).

(** [Uniform::new(5, 10).sample(..)]. *)
Definition sample_ban (n : Notifications) : Z * Notifications :=
  (ban_sample (samples n), with_samples (S (samples n)) n).

(** A new timer for [(p, s)], and its identifier. *)
Definition push_delay (p : PeerId) (s : nat) (d : Duration) (n : Notifications) :
    outcome (DelayId * Notifications) :=
  let id := next_delay_id n in
  next ← u64_add id 1;
  mret (id, with_delays (delays n ++ [{| delay_id := id; delay_peer := p; delay_set := s; delay_for := d |}]) next n).

(** [self.peerset.dropped(..)] and [self.peerset.incoming(..)]. *)
Definition peerset_dropped (s : nat) (p : PeerId) (r : DropReason) (n : Notifications) : outcome Notifications :=
  ps ← dropped clock s p r (peerset n); mret (with_peerset ps n).
Definition peerset_incoming (s : nat) (p : PeerId) (i : Z) (n : Notifications) : outcome Notifications :=
  ps ← incoming clock s p i (peerset n); mret (with_peerset ps n).

Definition new (ps : Peerset PeerId) (protocols : list ProtocolConfig) : outcome Notifications :=
  rust_assert (negb (bool_decide (protocols = []))) ;;
  mret {| notif_protocols := protocols; peerset := ps; peers := ∅; delays := []; next_delay_id := 0;
          incoming_list := []; next_incoming_index := 0; events := []; samples := 0 |}.

Definition new_handler (n : Notifications) : list ProtocolConfig := notif_protocols n.

Definition open_peers (n : Notifications) : list PeerId :=
  (λ e, e.1.1) <$> filter (λ e, PeerState_is_open e.2 = true) (map_to_list (peers n)).

Definition is_open (p : PeerId) (s : nat) (n : Notifications) : bool :=
  match peers n !! (p, s) with Some st => PeerState_is_open st | None => false end.

(** *** [disconnect_peer] *)

(** The events and connections of an [Enabled] peer that is closed: the API is
    told first, then the handlers of the open and of the opening ones. *)
Definition closed_event (p : PeerId) (s : nat) (l : connections NotificationsSink) :
    list (BehaviourAction PeerId NotificationsSink) :=
  if any is_open_state l then [GenerateEvent (CustomProtocolClosed p s)] else [].

Definition disconnect_peer_inner (p : PeerId) (s : nat) (ban : option Duration) (n : Notifications) :
    outcome Notifications :=
  match peers n !! (p, s) with
  | None => mret n
  | Some (Disabled _ _) | Some Requested | Some (PendingRequest _ _) | Some (Backoff _ _) => mret n
  | Some (DisabledPendingEnable _ timer_deadline conns) =>
      n ← peerset_dropped s p DR_Unknown n;
      let (backoff, n) := match ban with
        | Some ban => let (t, n) := now n in (Z.max timer_deadline (t + ban), n)
        | None => (timer_deadline, n) end in
      mret (set_peer p s (Disabled (Some backoff) conns) n)
  | Some (Enabled conns) =>
      n ← peerset_dropped s p DR_Unknown n;
      let n := push_events (closed_event p s conns) n in
      let (conns, evs) := notify_filtered is_open_state Closing (send_close p s) conns in
      let n := push_events evs n in
      let (conns, evs) := notify_filtered is_opening OpeningThenClosing (send_close p s) conns in
      let n := push_events evs n in
      debug_assert (negb (any is_open_state conns)) ;;
      debug_assert (negb (any is_opening conns)) ;;
      let (backoff, n) := match ban with
        | Some ban => let (t, n) := now n in (Some (t + ban), n)
        | None => (None, n) end in
      mret (set_peer p s (Disabled backoff conns) n)
  | Some (Incoming backoff_until conns) =>
      match kill_incoming p s (incoming_list n) with
      | None => mret (set_peer p s Poisoned n)
      | Some inc =>
          let n := with_incoming inc (next_incoming_index n) n in
          let (conns, evs) := notify_filtered is_desired Closing (send_close p s) conns in
          let n := push_events evs n in
          let (backoff, n) := match backoff_until, ban with
            | Some a, Some b => let (t, n) := now n in (Some (Z.max a (t + b)), n)
            | Some a, None => (Some a, n)
            | None, Some b => let (t, n) := now n in (Some (t + b), n)
            | None, None => (None, n) end in
          debug_assert (negb (any is_desired conns)) ;;
          mret (set_peer p s (Disabled backoff conns) n)
      end
  | Some Poisoned => mret n
  end.

Definition disconnect_peer (p : PeerId) (s : nat) (n : Notifications) : outcome Notifications :=
  disconnect_peer_inner p s None n.

(** *** Instructions of the peer set manager *)

(** Disabled => Enabled | DisabledPendingEnable, the ban being over. *)
Definition enable_disabled (p : PeerId) (s : nat) (t : Instant) (backoff_until : option Instant)
    (conns : connections NotificationsSink) (n : Notifications) : outcome Notifications :=
  debug_assert (negb (any is_open_state conns)) ;;
  match update_first (λ _, is_closed) Opening conns with
  | Some (c, conns) => mret (set_peer p s (Enabled conns) (push_event (send_open p s c) n))
  | None =>
      let base := t + from_secs 5 in
      let timer_deadline := match backoff_until with Some b => Z.max base b | None => base end in
      debug_assert (t <? timer_deadline) ;;
      r ← push_delay p s (instant_sub timer_deadline t) n;
      mret (set_peer p s (DisabledPendingEnable r.1 timer_deadline conns) r.2)
  end.

(** Incoming => Enabled: the connections that the remote wants open are
    opened. *)
Definition enable_incoming (p : PeerId) (s : nat) (conns : connections NotificationsSink) (n : Notifications) :
    outcome Notifications :=
  debug_assert (any is_desired conns) ;;
  let (conns, evs) := notify_filtered is_desired Opening (send_open p s) conns in
  mret (set_peer p s (Enabled conns) (push_events evs n)).

Definition peerset_report_connect (p : PeerId) (s : nat) (n : Notifications) : outcome Notifications :=
  let handler := new_handler n in
  match peers n !! (p, s) with
  | None => mret (set_peer p s Requested (push_event (Dial p handler) n))
  | Some st =>
      let (t, n) := now n in
      match st with
      | Backoff timer timer_deadline =>
          if t <? timer_deadline then mret (set_peer p s (PendingRequest timer timer_deadline) n)
          else mret (set_peer p s Requested (push_event (Dial p handler) n))
      | Disabled (Some backoff) conns =>
          if t <? backoff then
            r ← push_delay p s (instant_sub backoff t) n;
            mret (set_peer p s (DisabledPendingEnable r.1 backoff conns) r.2)
          else enable_disabled p s t (Some backoff) conns n
      | Disabled None conns => enable_disabled p s t None conns n
      | Incoming _ conns =>
          let n := match kill_incoming p s (incoming_list n) with
                   | Some inc => with_incoming inc (next_incoming_index n) n
                   | None => n
                   end in
          enable_incoming p s conns n
      | Enabled _ | DisabledPendingEnable _ _ _ | Requested | PendingRequest _ _ => mret n
      | Poisoned => Panicked DebugAssertion
      end
  end.

Definition peerset_report_disconnect (p : PeerId) (s : nat) (n : Notifications) : outcome Notifications :=
  match peers n !! (p, s) with
  | None => mret n
  | Some (Disabled _ _) | Some (Backoff _ _) => mret n
  | Some (DisabledPendingEnable _ timer_deadline conns) =>
      debug_assert (negb (bool_decide (length conns = 0%nat))) ;;
      mret (set_peer p s (Disabled (Some timer_deadline) conns) n)
  | Some (Enabled conns) =>
      debug_assert (any is_opening_or_open conns) ;;
      let n := push_events (closed_event p s conns) n in
      let (conns, evs) := notify_filtered is_opening OpeningThenClosing (send_close p s) conns in
      let n := push_events evs n in
      let (conns, evs) := notify_filtered is_open_state Closing (send_close p s) conns in
      let n := push_events evs n in
      mret (set_peer p s (Disabled None conns) n)
  | Some Requested => mret (remove_peer p s n)
  | Some (PendingRequest timer timer_deadline) => mret (set_peer p s (Backoff timer timer_deadline) n)
  | Some (Incoming _ _) => Panicked DebugAssertion
  | Some Poisoned => Panicked DebugAssertion
  end.

Definition peerset_report_accept (index : Z) (n : Notifications) : outcome Notifications :=
  match take_incoming index (incoming_list n) with
  | None => mret n
  | Some (inc, rest) =>
      let n := with_incoming rest (next_incoming_index n) n in
      let p := ip_peer_id inc in
      let s := ip_set_id inc in
      if negb (ip_alive inc) then
        match peers n !! (p, s) with
        | Some (DisabledPendingEnable _ _ _) | Some (Enabled _) => mret n
        | _ => peerset_dropped s p DR_Unknown n
        end
      else
        match peers n !! (p, s) with
        | Some (Incoming _ conns) => enable_incoming p s conns n
        | _ => Panicked DebugAssertion
        end
  end.

Definition peerset_report_reject (index : Z) (n : Notifications) : outcome Notifications :=
  match take_incoming index (incoming_list n) with
  | None => mret n
  | Some (inc, rest) =>
      let n := with_incoming rest (next_incoming_index n) n in
      let p := ip_peer_id inc in
      let s := ip_set_id inc in
      if negb (ip_alive inc) then mret n
      else
        match peers n !! (p, s) with
        | None => Panicked DebugAssertion
        | Some (Incoming backoff_until conns) =>
            debug_assert (any is_desired conns) ;;
            let (conns, evs) := notify_filtered is_desired Closing (send_close p s) conns in
            mret (set_peer p s (Disabled backoff_until conns) (push_events evs n))
        | Some _ => mret (set_peer p s Poisoned n)
        end
  end.

(** *** [on_swarm_event] *)

(** [ConnectionEstablished], for one set. *)
Definition established_in_set (p : PeerId) (c : ConnectionId) (n : Notifications) (s : nat) :
    outcome Notifications :=
  mret match default Poisoned (peers n !! (p, s)) with
       | Requested | PendingRequest _ _ =>
           set_peer p s (Enabled [(c, Opening)]) (push_event (send_open p s c) n)
       | Poisoned => set_peer p s (Disabled None [(c, Closed)]) n
       | Backoff _ timer_deadline => set_peer p s (Disabled (Some timer_deadline) [(c, Closed)]) n
       | Incoming b conns => set_peer p s (Incoming b (conns ++ [(c, Closed)])) n
       | Disabled b conns => set_peer p s (Disabled b (conns ++ [(c, Closed)])) n
       | DisabledPendingEnable t d conns => set_peer p s (DisabledPendingEnable t d (conns ++ [(c, Closed)])) n
       | Enabled conns => set_peer p s (Enabled (conns ++ [(c, Closed)])) n
       end.

Definition on_connection_established (p : PeerId) (c : ConnectionId) (n : Notifications) : outcome Notifications :=
  for_each (established_in_set p c) (seq 0 (length (notif_protocols n))) n.

(** The last connection of a peer that is not enabled is gone: back off if a
    ban is pending, forget the peer otherwise. *)
Definition back_off_or_forget (p : PeerId) (s : nat) (backoff_until : option Instant) (n : Notifications) :
    outcome Notifications :=
  match backoff_until with
  | Some until =>
      let (t, n) := now n in
      if t <? until then
        r ← push_delay p s (instant_sub until t) n;
        mret (set_peer p s (Backoff r.1 until) r.2)
      else mret (remove_peer p s n)
  | None => mret (remove_peer p s n)
  end.

(** What the API is told when connection [pos], that was open, is gone from
    [conns]: its sink is replaced if it may be the one in use, or the channel is
    closed. *)
Definition sink_gone_events (p : PeerId) (s : nat) (pos : nat) (conns : connections NotificationsSink) :
    list (BehaviourAction PeerId NotificationsSink) :=
  match find_sink conns with
  | Some (replacement_pos, sink) =>
      if bool_decide (pos ≤ replacement_pos)%nat then [GenerateEvent (CustomProtocolReplaced p s sink)] else []
  | None => [GenerateEvent (CustomProtocolClosed p s)]
  end.

(** [ConnectionClosed] of an enabled peer. *)
Definition closed_enabled (p : PeerId) (c : ConnectionId) (s : nat) (conns : connections NotificationsSink)
    (n : Notifications) : outcome Notifications :=
  debug_assert (any is_opening_or_open conns) ;;
  match position c conns with
  | None => Panicked DebugAssertion
  | Some (pos, st) =>
      let conns := delete pos conns in
      let n := if is_open_state st then push_events (sink_gone_events p s pos conns) n else n in
      if bool_decide (length conns = 0%nat) then
        n ← peerset_dropped s p DR_Unknown n;
        let (ban_dur, n) := sample_ban n in
        r ← push_delay p s (from_secs ban_dur) n;
        mret (set_peer p s (Disabled None conns) r.2)
      else if negb (any is_opening_or_open conns) then
        n ← peerset_dropped s p DR_Unknown n;
        mret (set_peer p s (Disabled None conns) n)
      else mret (set_peer p s (Enabled conns) n)
  end.

(** [ConnectionClosed] of a peer in [Incoming]. *)
Definition closed_incoming (p : PeerId) (c : ConnectionId) (s : nat) (backoff_until : option Instant)
    (conns : connections NotificationsSink) (n : Notifications) : outcome Notifications :=
  debug_assert (any is_desired conns) ;;
  match position c conns with
  | None => Panicked DebugAssertion
  | Some (pos, _) =>
      let conns := delete pos conns in
      let no_desired_left := negb (any is_desired conns) in
      n ← if no_desired_left then
            match kill_incoming p s (incoming_list n) with
            | Some inc => mret (with_incoming inc (next_incoming_index n) n)
            | None => Panicked DebugAssertion
            end
          else mret n;
      if bool_decide (length conns = 0%nat) then back_off_or_forget p s backoff_until n
      else if no_desired_left then mret (set_peer p s (Disabled backoff_until conns) n)
      else mret (set_peer p s (Incoming backoff_until conns) n)
  end.

(** [ConnectionClosed], for one set. *)
Definition closed_in_set (p : PeerId) (c : ConnectionId) (n : Notifications) (s : nat) : outcome Notifications :=
  match peers n !! (p, s) with
  | None => Panicked DebugAssertion
  | Some (Disabled backoff_until conns) =>
      match position c conns with
      | None => Panicked DebugAssertion
      | Some (pos, _) =>
          let conns := delete pos conns in
          if bool_decide (length conns = 0%nat) then back_off_or_forget p s backoff_until n
          else mret (set_peer p s (Disabled backoff_until conns) n)
      end
  | Some (DisabledPendingEnable timer timer_deadline conns) =>
      match position c conns with
      | None => Panicked DebugAssertion
      | Some (pos, _) =>
          let conns := delete pos conns in
          if bool_decide (length conns = 0%nat) then
            n ← peerset_dropped s p DR_Unknown n;
            mret (set_peer p s (Backoff timer timer_deadline) n)
          else mret (set_peer p s (DisabledPendingEnable timer timer_deadline conns) n)
      end
  | Some (Incoming backoff_until conns) => closed_incoming p c s backoff_until conns n
  | Some (Enabled conns) => closed_enabled p c s conns n
  | Some Requested | Some (PendingRequest _ _) | Some (Backoff _ _) | Some Poisoned => Panicked DebugAssertion
  end.

Definition on_connection_closed (p : PeerId) (c : ConnectionId) (n : Notifications) : outcome Notifications :=
  for_each (closed_in_set p c) (seq 0 (length (notif_protocols n))) n.

(** [DialFailure] for a known peer, for one set. *)
Definition dial_failure_in_set (p : PeerId) (n : Notifications) (s : nat) : outcome Notifications :=
  let failed (deadline : option Instant) :=
    n ← peerset_dropped s p DR_Unknown n;
    let (t, n) := now n in
    let ban_duration := match deadline with
      | Some d => if t <? d then Z.max (instant_sub d t) (from_secs 5) else from_secs 5
      | None => from_secs 5 end in
    r ← push_delay p s ban_duration n;
    mret (set_peer p s (Backoff r.1 (t + ban_duration)) r.2) in
  match peers n !! (p, s) with
  | None => mret n
  | Some Requested => failed None
  | Some (PendingRequest _ timer_deadline) => failed (Some timer_deadline)
  | Some (Backoff _ _) | Some (Disabled _ _) | Some (Enabled _)
  | Some (DisabledPendingEnable _ _ _) | Some (Incoming _ _) => mret n
  | Some Poisoned => Panicked DebugAssertion
  end.

Definition on_dial_failure (p : option PeerId) (n : Notifications) : outcome Notifications :=
  match p with
  | Some p => for_each (dial_failure_in_set p) (seq 0 (length (notif_protocols n))) n
  | None => mret n
  end.

(** *** [on_connection_handler_event] *)

(** The remote wants to open a substream. *)
Definition on_open_desired (p : PeerId) (c : ConnectionId) (s : nat) (n : Notifications) : outcome Notifications :=
  match peers n !! (p, s) with
  | Some (Incoming backoff_until conns) =>
      debug_assert (any is_desired conns) ;;
      match position c conns with
      | None => Panicked DebugAssertion
      | Some (pos, Closed) => mret (set_peer p s (Incoming backoff_until (<[pos := (c, OpenDesiredByRemote)]> conns)) n)
      | Some (_, st) => debug_assert (is_opening_then_closing st || is_closing st) ;; mret n
      end
  | Some (Enabled conns) =>
      debug_assert (any is_opening_or_open conns) ;;
      match position c conns with
      | None => Panicked DebugAssertion
      | Some (pos, Closed) =>
          mret (set_peer p s (Enabled (<[pos := (c, Opening)]> conns)) (push_event (send_open p s c) n))
      | Some (_, st) => debug_assert (is_desired st || is_closing st || is_opening st) ;; mret n
      end
  | Some (Disabled backoff_until conns) =>
      match position c conns with
      | None => Panicked DebugAssertion
      | Some (pos, Closed) =>
          let conns := <[pos := (c, OpenDesiredByRemote)]> conns in
          let incoming_id := next_incoming_index n in
          next ← u64_add incoming_id 1;
          let n := with_incoming (incoming_list n) next n in
          n ← peerset_incoming s p incoming_id n;
          let n := with_incoming (incoming_list n ++
            [{| ip_peer_id := p; ip_set_id := s; ip_alive := true; ip_incoming_id := incoming_id |}])
            (next_incoming_index n) n in
          mret (set_peer p s (Incoming backoff_until conns) n)
      | Some (_, st) => debug_assert (is_opening_then_closing st || is_closing st) ;; mret n
      end
  | Some (DisabledPendingEnable timer timer_deadline conns) =>
      match position c conns with
      | None => Panicked DebugAssertion
      | Some (pos, Closed) =>
          mret (set_peer p s (Enabled (<[pos := (c, Opening)]> conns)) (push_event (send_open p s c) n))
      | Some (_, st) => debug_assert (is_opening_then_closing st || is_closing st) ;; mret n
      end
  | None | Some Requested | Some (PendingRequest _ _) | Some (Backoff _ _) | Some Poisoned =>
      Panicked DebugAssertion
  end.

(** The handler wants to close a substream. *)
Definition on_close_desired (p : PeerId) (c : ConnectionId) (s : nat) (n : Notifications) : outcome Notifications :=
  match peers n !! (p, s) with
  | None => Panicked DebugAssertion
  | Some (Enabled conns) =>
      debug_assert (any is_opening_or_open conns) ;;
      match position c conns with
      | None => Panicked DebugAssertion
      | Some (pos, st) =>
          if is_closing st then mret n
          else
            debug_assert (is_open_state st) ;;
            let conns := <[pos := (c, Closing)]> conns in
            let n := push_event (send_close p s c) n in
            match find_sink conns with
            | Some _ => mret (set_peer p s (Enabled conns) (push_events (sink_gone_events p s pos conns) n))
            | None =>
                n ← if negb (any is_opening conns) then
                      n ← peerset_dropped s p DR_Refused n;
                      mret (set_peer p s (Disabled None conns) n)
                    else mret (set_peer p s (Enabled conns) n);
                mret (push_events (sink_gone_events p s pos conns) n)
            end
      end
  | Some (Disabled _ _) | Some (DisabledPendingEnable _ _ _) => mret n
  | Some (Incoming _ _) | Some Requested | Some (PendingRequest _ _) | Some (Backoff _ _) | Some Poisoned =>
      mret (set_peer p s Poisoned n)
  end.

(** Rewriting the connections of a peer that has some. *)
Definition map_connections (f : connections NotificationsSink → outcome (connections NotificationsSink))
    (st : PeerState) : outcome PeerState :=
  match st with
  | Incoming b conns => Incoming b <$> f conns
  | DisabledPendingEnable t d conns => DisabledPendingEnable t d <$> f conns
  | Disabled b conns => Disabled b <$> f conns
  | Enabled conns => Enabled <$> f conns
  | Poisoned | Backoff _ _ | PendingRequest _ _ | Requested => Panicked DebugAssertion
  end.

(** Connection [c], found in state [test], goes to state [new]. *)
Definition move_connection (c : ConnectionId) (test : ConnectionState NotificationsSink → bool)
    (new : ConnectionState NotificationsSink) (conns : connections NotificationsSink) :
    outcome (connections NotificationsSink) :=
  match update_first (λ c' st, bool_decide (c' = c) && test st) new conns with
  | Some (_, conns) => mret conns
  | None => Panicked DebugAssertion
  end.

Definition on_close_result (p : PeerId) (c : ConnectionId) (s : nat) (n : Notifications) : outcome Notifications :=
  match peers n !! (p, s) with
  | Some st =>
      st ← map_connections (move_connection c is_closing Closed) st;
      mret (set_peer p s st n)
  | None => Panicked DebugAssertion
  end.

Definition on_open_result_ok (p : PeerId) (c : ConnectionId) (s : nat) (negotiated_fallback : option ProtocolName)
    (received_handshake : list Byte.byte) (sink : NotificationsSink) (n : Notifications) : outcome Notifications :=
  match peers n !! (p, s) with
  | Some (Enabled conns) =>
      debug_assert (any is_opening_or_open conns) ;;
      let any_open := any is_open_state conns in
      match update_first (λ c' st, bool_decide (c' = c) && is_opening st) (Open sink) conns with
      | Some (_, conns) =>
          let n := if negb any_open
                   then push_event (GenerateEvent
                          (CustomProtocolOpen p s negotiated_fallback received_handshake sink)) n
                   else n in
          mret (set_peer p s (Enabled conns) n)
      | None =>
          conns ← move_connection c is_opening_then_closing Closing conns;
          mret (set_peer p s (Enabled conns) n)
      end
  | Some (Incoming _ _ as st) | Some (DisabledPendingEnable _ _ _ as st) | Some (Disabled _ _ as st) =>
      st ← map_connections (move_connection c is_opening_then_closing Closing) st;
      mret (set_peer p s st n)
  | None | Some Requested | Some (PendingRequest _ _) | Some (Backoff _ _) | Some Poisoned =>
      Panicked DebugAssertion
  end.

Definition on_open_result_err (p : PeerId) (c : ConnectionId) (s : nat) (n : Notifications) : outcome Notifications :=
  match peers n !! (p, s) with
  | Some (Enabled conns) =>
      debug_assert (any is_opening_or_open conns) ;;
      conns ← match update_first (λ c' st, bool_decide (c' = c) && is_opening st) Closed conns with
              | Some (_, conns) => mret conns
              | None => move_connection c is_opening_then_closing Closing conns
              end;
      if negb (any is_opening_or_open conns) then
        n ← peerset_dropped s p DR_Refused n;
        let (ban_dur, n) := sample_ban n in
        let (t, n) := now n in
        mret (set_peer p s (Disabled (Some (t + from_secs ban_dur)) conns) n)
      else mret (set_peer p s (Enabled conns) n)
  | Some (Incoming _ _ as st) | Some (DisabledPendingEnable _ _ _ as st) | Some (Disabled _ _ as st) =>
      st ← map_connections (move_connection c is_opening_then_closing Closing) st;
      mret (set_peer p s st n)
  | None | Some Requested | Some (PendingRequest _ _) | Some (Backoff _ _) | Some Poisoned =>
      Panicked DebugAssertion
  end.

Definition on_notification (p : PeerId) (s : nat) (message : list Byte.byte) (n : Notifications) :
    outcome Notifications :=
  mret (if is_open p s n then push_event (GenerateEvent (Notification p s message)) n else n).

Definition on_connection_handler_event (p : PeerId) (c : ConnectionId) (event : NotifsHandlerOut NotificationsSink)
    (n : Notifications) : outcome Notifications :=
  match event with
  | Out_OpenDesiredByRemote s => on_open_desired p c s n
  | Out_CloseDesired s => on_close_desired p c s n
  | Out_CloseResult s => on_close_result p c s n
  | Out_OpenResultOk s fallback handshake sink => on_open_result_ok p c s fallback handshake sink n
  | Out_OpenResultErr s => on_open_result_err p c s n
  | Out_Notification s message => on_notification p s message n
  end.

(** *** [poll] *)

Definition on_peerset_message (m : Message PeerId) (n : Notifications) : outcome Notifications :=
  match m with
  | Accept index => peerset_report_accept index n
  | Reject index => peerset_report_reject index n
  | Connect s p => peerset_report_connect p s n
  | Drop s p => peerset_report_disconnect p s n
  end.

(** The loop over the messages of the peer set manager, at most [fuel] times;
    [None] when the fuel runs out. *)
Fixpoint poll_peerset (fuel : nat) (n : Notifications) : outcome (option Notifications) :=
  match fuel with
  | O => mret None
  | S fuel =>
      r ← poll_next clock delay_ready (peerset n);
      match r with
      | Polled (Some m) ps => n ← on_peerset_message m (with_peerset ps n); poll_peerset fuel n
      | Polled None ps => mret (Some (with_peerset ps n))
      | OutOfFuel => mret None
      end
  end.

(** A timer has fired. *)
Definition on_delay (d : Delay PeerId) (n : Notifications) : outcome Notifications :=
  let p := delay_peer d in
  let s := delay_set d in
  let handler := new_handler n in
  match peers n !! (p, s) with
  | Some (Backoff timer _) => mret (if timer =? delay_id d then remove_peer p s n else n)
  | Some (PendingRequest timer _) =>
      mret (if timer =? delay_id d then set_peer p s Requested (push_event (Dial p handler) n) else n)
  | Some (DisabledPendingEnable timer timer_deadline conns) =>
      if timer =? delay_id d then
        match update_first (λ _, is_closed) Opening conns with
        | Some (c, conns) => mret (set_peer p s (Enabled conns) (push_event (send_open p s c) n))
        | None =>
            let (t, n) := now n in
            let n := set_peer p s (DisabledPendingEnable timer (t + from_secs 5) conns) n in
            mret (with_delays (delays n ++ [{| delay_id := timer; delay_peer := p; delay_set := s;
                                               delay_for := from_secs 5 |}]) (next_delay_id n) n)
        end
      else mret n
  | _ => mret n
  end.

(** The loop over the timers that fire during this call: [fired] gives, in
    order, the position of each in [delays]. *)
Definition fire (n : Notifications) (k : nat) : outcome Notifications :=
  match delays n !! k with
  | Some d => on_delay d (with_delays (delete k (delays n)) (next_delay_id n) n)
  | None => mret n
  end.

(** [poll]: the action to perform, [None] for [Poll::Pending]. *)
Definition poll (fuel : nat) (fired : list nat) (n : Notifications) :
    outcome (option (option (BehaviourAction PeerId NotificationsSink) * Notifications)) :=
  match events n with
  | e :: evs => mret (Some (Some e, with_events evs n))
  | [] =>
      r ← poll_peerset fuel n;
      match r with
      | None => mret None
      | Some n =>
          n ← for_each fire fired n;
          match events n with
          | e :: evs => mret (Some (Some e, with_events evs n))
          | [] => mret (Some (None, n))
          end
      end
  end.
End behaviour.

End Behaviour.
