(* ===== verification/NotificationsFacts.v ===== *)
(** * The notifications behaviour: connections, commands and sessions

    Lemmas about [Behaviour]: how each handler changes the connections of a
    peer, which commands it sends to the connection handlers and what it tells
    the external API. The claims are in [NotificationsTheorems]. *)

From S2P Require Import Prelude PeersState Peerset Notifications.
Import Behaviour.

Section facts.
Context {PeerId : Type} `{Countable PeerId, !HashOrder PeerId} {NotificationsSink : Type}.
Abbreviation Notifications := (Notifications PeerId NotificationsSink).
Abbreviation PeerState := (PeerState NotificationsSink).
Abbreviation ConnectionState := (ConnectionState NotificationsSink).
Abbreviation connections := (connections NotificationsSink).
Abbreviation BehaviourAction := (BehaviourAction PeerId NotificationsSink).
Implicit Types (l : connections) (c : nat) (st : ConnectionState) (evs : list BehaviourAction)
  (p : PeerId) (s : nat) (n : Notifications).

(** ** The connections of a peer *)

Definition conn_at (c : nat) (l : connections) : option ConnectionState :=
  (list_to_map l : gmap nat ConnectionState) !! c.

Lemma conn_at_cons c x l : conn_at c (x :: l) = if decide (x.1 = c) then Some x.2 else conn_at c l.
Proof. unfold conn_at. simpl. by rewrite lookup_insert. Qed.

Lemma conn_at_app c l1 l2 : conn_at c (l1 ++ l2) = match conn_at c l1 with Some st => Some st | None => conn_at c l2 end.
Proof. induction l1 as [|x l1 IH]; [done|]. simpl. rewrite !conn_at_cons. by case_decide. Qed.

Lemma conn_at_None c l : conn_at c l = None ↔ c ∉ l.*1.
Proof. symmetry. apply not_elem_of_list_to_map. Qed.

Lemma conn_at_elem c l st : conn_at c l = Some st → (c, st) ∈ l.
Proof. apply elem_of_list_to_map_2. Qed.

Lemma conn_at_NoDup c l st : NoDup l.*1 → (c, st) ∈ l → conn_at c l = Some st.
Proof. apply elem_of_list_to_map_1. Qed.

Lemma any_true f l : any f l = true ↔ ∃ c st, (c, st) ∈ l ∧ f st = true.
Proof.
  unfold any. rewrite existsb_exists. split.
  - intros ([c st] & Hin%list_elem_of_In & Hf). eauto.
  - intros (c & st & Hin & Hf). exists (c, st). by rewrite <- list_elem_of_In.
Qed.

Lemma any_ext f g l : (∀ st, f st = g st) → any f l = any g l.
Proof. intros Hfg. unfold any. induction l as [|x l IH]; simpl; [done|]. by rewrite Hfg, IH. Qed.

Lemma any_or f g l : any (λ st, f st || g st) l = any f l || any g l.
Proof.
  unfold any. induction l as [|[c st] l IH]; simpl; [done|]. rewrite IH.
  destruct (f st), (g st); simpl; by rewrite ?orb_true_r.
Qed.

Lemma any_false f l : (∀ st, f st = false) → any f l = false.
Proof. intros Hf. unfold any. induction l as [|x l IH]; simpl; [done|]. by rewrite Hf. Qed.

Lemma any_mono f g l : (∀ st, f st = true → g st = true) → any f l = true → any g l = true.
Proof. rewrite !any_true. intros Hfg (c & st & Hin & Hf). exists c, st. auto. Qed.

Lemma any_false_mono f g l : (∀ st, f st = true → g st = true) → any g l = false → any f l = false.
Proof. intros Hfg Hg. destruct (any f l) eqn:E; [|done]. by rewrite (any_mono f g l) in Hg. Qed.

Lemma any_app f l1 l2 : any f (l1 ++ l2) = any f l1 || any f l2.
Proof. apply existsb_app. Qed.

Lemma find_sink_any l : any is_open_state l = match find_sink l with Some _ => true | None => false end.
Proof.
  induction l as [|[c st] l IH]; [done|]. unfold any in *. simpl.
  destruct st; simpl; try done; rewrite IH; by destruct (find_sink l).
Qed.

(** *** [notify_filtered] *)

Lemma notify_ids test new (mk : nat → BehaviourAction) l : (notify_filtered test new mk l).1.*1 = l.*1.
Proof.
  unfold notify_filtered. simpl. rewrite <- list_fmap_compose. apply list_fmap_ext.
  intros i x _. simpl. by destruct (test x.2).
Qed.

Lemma notify_conn_at test new (mk : nat → BehaviourAction) l c :
  conn_at c (notify_filtered test new mk l).1 = (λ st, if test st then new else st) <$> conn_at c l.
Proof.
  unfold notify_filtered. simpl. induction l as [|[c' st] l IH]; [done|]. simpl.
  rewrite !conn_at_cons. simpl. destruct (test st) eqn:E; simpl; case_decide; simpl; rewrite ?E; done.
Qed.

Lemma notify_any f test new (mk : nat → BehaviourAction) l :
  any f (notify_filtered test new mk l).1 =
    (f new && any test l) || any (λ st, f st && negb (test st)) l.
Proof.
  unfold notify_filtered, any. cbn [fst]. induction l as [|[c st] l IH]; [by rewrite andb_false_r|].
  rewrite fmap_cons. cbn [existsb]. rewrite IH. simpl.
  destruct (test st); simpl; destruct (f new), (f st); simpl; by rewrite ?orb_true_r.
Qed.

(** *** [update_first] *)

Lemma update_first_spec test new l c l' :
  update_first test new l = Some (c, l') →
  l'.*1 = l.*1 ∧ ∃ l1 st l2, l = l1 ++ (c, st) :: l2 ∧ l' = l1 ++ (c, new) :: l2 ∧ test c st = true.
Proof.
  revert l'. induction l as [|[c0 st0] l IH]; intros l'; [done|]. simpl.
  destruct (test c0 st0) eqn:E.
  - intros [= <- <-]. split; [done|]. by exists [], st0, l.
  - destruct (update_first test new l) as [[c1 l1]|] eqn:E1; [|done]. simpl. intros [= <- <-].
    destruct (IH _ eq_refl) as (Hids & l0 & st & l2 & -> & -> & Ht). split; [by simpl; f_equal|].
    by exists ((c0, st0) :: l0), st, l2.
Qed.

Lemma conn_at_middle c c' st l1 l2 :
  NoDup (l1 ++ (c, st) :: l2).*1 →
  conn_at c' (l1 ++ (c, st) :: l2) = if decide (c = c') then Some st else conn_at c' (l1 ++ l2).
Proof.
  intros Hnd. rewrite !conn_at_app, conn_at_cons. simpl. case_decide as E; [|done]. subst c'.
  rewrite fmap_app in Hnd. apply NoDup_app in Hnd as (_ & Hd & _).
  rewrite (proj2 (conn_at_None c l1)); [done|]. intros Hin. apply (Hd c Hin). simpl. set_solver.
Qed.

Lemma update_first_conn_at test new l c l' :
  NoDup l.*1 → update_first test new l = Some (c, l') →
  ∃ st, conn_at c l = Some st ∧ test c st = true ∧
    ∀ c', conn_at c' l' = if decide (c = c') then Some new else conn_at c' l.
Proof.
  intros Hnd Hu. destruct (update_first_spec _ _ _ _ _ Hu) as (Hids & l1 & st & l2 & -> & -> & Ht).
  exists st. split_and!; [by rewrite conn_at_middle, decide_True|done|].
  intros c'. rewrite !conn_at_middle by (try rewrite Hids; done). by case_decide.
Qed.

Lemma any_middle f c st l1 l2 : any f (l1 ++ (c, st) :: l2) = f st || any f (l1 ++ l2).
Proof. rewrite !any_app. unfold any. simpl. destruct (f st); simpl; by rewrite ?orb_true_r. Qed.

Lemma update_first_any f test new l c l' :
  update_first test new l = Some (c, l') →
  ∃ st b, test c st = true ∧ any f l = f st || b ∧ any f l' = f new || b.
Proof.
  intros (_ & l1 & st & l2 & -> & -> & Ht)%update_first_spec.
  exists st, (any f (l1 ++ l2)). by rewrite !any_middle.
Qed.

(** *** [position] *)

Lemma position_spec c l pos st :
  position c l = Some (pos, st) → l !! pos = Some (c, st) ∧ conn_at c l = Some st.
Proof.
  unfold position. destruct (list_find _ l) as [[i [c' st']]|] eqn:E; [|done]. simpl. intros [= <- <-].
  apply list_find_Some in E as (Hl & Hc & Hbefore). simpl in Hc. subst c'. split; [done|].
  rewrite <- (take_drop_middle l i _ Hl), conn_at_app, conn_at_cons. simpl. rewrite decide_True by done.
  rewrite (proj2 (conn_at_None c _)); [done|].
  intros ([c' st''] & -> & Hin)%list_elem_of_fmap. apply list_elem_of_lookup in Hin as [j Hj].
  apply lookup_take_Some in Hj as [Hj Hlt]. by apply (Hbefore j _ Hj).
Qed.

Lemma insert_ids c pos st st' l : l !! pos = Some (c, st) → (<[pos := (c, st')]> l).*1 = l.*1.
Proof.
  intros Hl. rewrite list_fmap_insert. apply list_insert_id. by rewrite list_lookup_fmap, Hl.
Qed.

Lemma insert_conn_at c c' pos st st' l :
  NoDup l.*1 → l !! pos = Some (c, st) →
  conn_at c' (<[pos := (c, st')]> l) = if decide (c = c') then Some st' else conn_at c' l.
Proof.
  intros Hnd Hl. pose proof (insert_ids c pos st st' l Hl) as Hids.
  rewrite (insert_take_drop _ _ _ (lookup_lt_Some _ _ _ Hl)) in *.
  rewrite conn_at_middle by (by rewrite Hids).
  assert (conn_at c' l = conn_at c' (take pos l ++ (c, st) :: drop (S pos) l)) as ->
    by (by rewrite take_drop_middle).
  rewrite conn_at_middle by (by rewrite take_drop_middle). by case_decide.
Qed.

Lemma delete_conn_at c c' pos st l :
  NoDup l.*1 → l !! pos = Some (c, st) →
  conn_at c' (delete pos l) = if decide (c = c') then None else conn_at c' l.
Proof.
  intros Hnd Hl. rewrite delete_take_drop.
  assert (conn_at c' l = conn_at c' (take pos l ++ (c, st) :: drop (S pos) l)) as ->
    by (by rewrite take_drop_middle).
  rewrite <- (take_drop_middle l pos _ Hl) in Hnd. rewrite conn_at_middle by done. case_decide as E; [|done].
  subst c'. apply conn_at_None. rewrite fmap_app in *. simpl in Hnd.
  apply NoDup_app in Hnd as (_ & Hd & Hnd). apply NoDup_cons in Hnd as [Hn _]. set_solver.
Qed.

Lemma delete_any f pos c st l : l !! pos = Some (c, st) → any f l = f st || any f (delete pos l).
Proof.
  intros Hl. rewrite delete_take_drop, <- (any_middle f c st). by rewrite take_drop_middle.
Qed.

Lemma insert_any f pos c st st' l :
  l !! pos = Some (c, st) → any f (<[pos := (c, st')]> l) = f st' || any f (delete pos l).
Proof.
  intros Hl. rewrite (insert_take_drop _ _ _ (lookup_lt_Some _ _ _ Hl)), delete_take_drop. apply any_middle.
Qed.

Lemma delete_ids pos l : NoDup l.*1 → NoDup (delete pos l).*1.
Proof.
  intros Hnd. eapply sublist_NoDup; [exact Hnd|]. rewrite list_fmap_delete. apply sublist_delete.
Qed.

(** ** The external API

    What the API may be told about one peer and set: it is opened, then sink
    replacements and notifications, then closed. [session] replays the events,
    from closed ([false]) or open ([true]); it fails on an event that has no
    place. *)
Definition event_key (e : NotificationsOut PeerId NotificationsSink) : PeerId * nat :=
  match e with
  | CustomProtocolOpen p s _ _ _ | CustomProtocolReplaced p s _
  | CustomProtocolClosed p s | Notification p s _ => (p, s)
  end.

Definition api_step (k : PeerId * nat) (open : bool) (e : BehaviourAction) : option bool :=
  match e with
  | GenerateEvent ev =>
      if decide (event_key ev = k) then
        match ev with
        | CustomProtocolOpen _ _ _ _ _ => if open then None else Some true
        | CustomProtocolClosed _ _ => if open then Some false else None
        | CustomProtocolReplaced _ _ _ | Notification _ _ _ => if open then Some true else None
        end
      else Some open
  | Dial _ _ | NotifyHandler _ _ _ => Some open
  end.

Fixpoint session (k : PeerId * nat) (evs : list BehaviourAction) (open : bool) : option bool :=
  match evs with
  | [] => Some open
  | e :: evs => open ← api_step k open e; session k evs open
  end.

Lemma session_app k evs1 evs2 b :
  session k (evs1 ++ evs2) b = session k evs1 b ≫= session k evs2.
Proof.
  revert b. induction evs1 as [|e evs1 IH]; intros b; [done|]. simpl.
  destruct (api_step k b e); simpl; [apply IH|done].
Qed.

(** ** Commands to the handlers

    The documented protocol of a connection handler, as seen by the behaviour:
    a command is legal only in some states. In particular a second [Open] is
    forbidden while one is unanswered. *)
Inductive command := Cmd_Open | Cmd_Close.

Definition obey (st : ConnectionState) (cmd : command) : option ConnectionState :=
  match st, cmd with
  | (Closed | OpenDesiredByRemote), Cmd_Open => Some Opening
  | (Open _ | OpenDesiredByRemote), Cmd_Close => Some Closing
  | Opening, Cmd_Close => Some OpeningThenClosing
  | _, _ => None
  end.

Fixpoint obey_all (cmds : list command) (o : option ConnectionState) : option (option ConnectionState) :=
  match cmds with
  | [] => Some o
  | cmd :: cmds => st ← o; st ← obey st cmd; obey_all cmds (Some st)
  end.

Lemma obey_all_app cmds1 cmds2 o : obey_all (cmds1 ++ cmds2) o = obey_all cmds1 o ≫= obey_all cmds2.
Proof.
  revert o. induction cmds1 as [|cmd cmds1 IH]; intros o; [done|]. simpl.
  destruct o as [st|]; [|done]. simpl. destruct (obey st cmd); simpl; [apply IH|done].
Qed.

Definition command_to (p : PeerId) (s c : nat) (e : BehaviourAction) : option command :=
  match e with
  | NotifyHandler p' c' (In_Open s') => if decide ((p', s', c') = (p, s, c)) then Some Cmd_Open else None
  | NotifyHandler p' c' (In_Close s') => if decide ((p', s', c') = (p, s, c)) then Some Cmd_Close else None
  | GenerateEvent _ | Dial _ _ => None
  end.

Definition commands (p : PeerId) (s c : nat) (evs : list BehaviourAction) : list command :=
  omap (command_to p s c) evs.

Lemma commands_app p s c evs1 evs2 : commands p s c (evs1 ++ evs2) = commands p s c evs1 ++ commands p s c evs2.
Proof. apply omap_app. Qed.

(** Actions that concern one peer and set. *)
Definition about (p : PeerId) (s : nat) (e : BehaviourAction) : Prop :=
  match e with
  | GenerateEvent ev => event_key ev = (p, s)
  | Dial p' _ => p' = p
  | NotifyHandler p' _ (In_Open s') | NotifyHandler p' _ (In_Close s') => (p', s') = (p, s)
  end.

Lemma session_other p s k evs b : Forall (about p s) evs → k ≠ (p, s) → session k evs b = Some b.
Proof.
  intros Hf Hk. induction Hf as [|e evs He _ IH]; [done|]. simpl.
  destruct e as [ev|p' h|p' c x]; simpl in *; [|done..]. by rewrite decide_False by congruence.
Qed.

Lemma commands_other p s p' s' c evs : Forall (about p s) evs → (p', s') ≠ (p, s) → commands p' s' c evs = [].
Proof.
  intros Hf Hk. induction Hf as [|e evs He _ IH]; [done|]. unfold commands in *. simpl.
  destruct e as [ev|p0 h|p0 c0 []]; simpl in *; try done; by rewrite decide_False by congruence.
Qed.

(** Commands only. *)
Definition silent (e : BehaviourAction) : bool :=
  match e with GenerateEvent _ => false | _ => true end.

Lemma session_silent k evs b : forallb silent evs = true → session k evs b = Some b.
Proof.
  induction evs as [|e evs IH]; [done|]. simpl. intros [He Hev]%andb_prop.
  destruct e; simpl in *; [done|auto..].
Qed.

(** *** The commands of [notify_filtered] *)

Definition to_command (cmd : command) (s : nat) : NotifsHandlerIn :=
  match cmd with Cmd_Open => In_Open s | Cmd_Close => In_Close s end.

Lemma notify_about p s test new cmd l :
  Forall (about p s) (notify_filtered test new (λ c, NotifyHandler p c (to_command cmd s)) l).2.
Proof. unfold notify_filtered. simpl. apply Forall_fmap, Forall_true. intros x. by destruct cmd. Qed.

Lemma notify_silent p s test new cmd l :
  forallb silent (notify_filtered test new (λ c, NotifyHandler p c (to_command cmd s)) l).2 = true.
Proof. unfold notify_filtered. simpl. rewrite forallb_forall. by intros ? ([] & <- & _)%in_map_iff. Qed.

Lemma command_to_self p s c c' cmd :
  command_to p s c (NotifyHandler p c' (to_command cmd s)) = if decide (c' = c) then Some cmd else None.
Proof. destruct cmd; simpl; repeat case_decide; congruence. Qed.

#[local] Arguments command_to : simpl never.

Lemma notify_commands_cons p s test new cmd c' st l c :
  commands p s c (notify_filtered test new (λ c, NotifyHandler p c (to_command cmd s)) ((c', st) :: l)).2 =
    (if test st && bool_decide (c' = c) then [cmd] else []) ++
    commands p s c (notify_filtered test new (λ c, NotifyHandler p c (to_command cmd s)) l).2.
Proof.
  unfold notify_filtered, commands. cbn [snd]. rewrite filter_cons. cbn [snd].
  destruct (test st) eqn:E; [|by rewrite decide_False]. rewrite decide_True by done.
  rewrite fmap_cons. cbn [omap list_omap compose fst]. rewrite command_to_self. simpl.
  by case_decide; case_bool_decide.
Qed.

Lemma notify_commands p s test new cmd l c :
  NoDup l.*1 →
  commands p s c (notify_filtered test new (λ c, NotifyHandler p c (to_command cmd s)) l).2 =
    match conn_at c l with Some st => if test st then [cmd] else [] | None => [] end.
Proof.
  induction l as [|[c' st] l IH]; [done|]. intros [Hc Hnd]%NoDup_cons.
  rewrite notify_commands_cons, conn_at_cons, IH by done. simpl. case_decide as E.
  - subst c'. rewrite bool_decide_eq_true_2, andb_true_r by done.
    rewrite (proj2 (conn_at_None c l) Hc). apply app_nil_r.
  - rewrite bool_decide_eq_false_2 by done. by rewrite andb_false_r.
Qed.

(** Notifying the connections in some state keeps to the protocol. *)
Lemma obey_notify p s test new cmd l c :
  NoDup l.*1 → (∀ st, test st = true → obey st cmd = Some new) →
  obey_all (commands p s c (notify_filtered test new (λ c, NotifyHandler p c (to_command cmd s)) l).2)
    (conn_at c l) =
  Some (conn_at c (notify_filtered test new (λ c, NotifyHandler p c (to_command cmd s)) l).1).
Proof.
  intros Hnd Hob. rewrite notify_commands, notify_conn_at by done.
  destruct (conn_at c l) as [st|]; [|done]. simpl. destruct (test st) eqn:E; [|done]. simpl.
  by rewrite (Hob st E).
Qed.
End facts.
