(* ===== verification/NotificationsSteps.v ===== *)
(** * The notifications behaviour: the effect of every operation

    Every operation of [Behaviour] that returns keeps the session of each peer
    well-formed and obeys the protocol of the connection handlers. Each is
    proved in two parts: what it does to the entry of the peer ([local]), and
    that it touches no other entry ([effect]). *)

From S2P Require Import Prelude PeersState Peerset Notifications NotificationsFacts.
Import Behaviour.

Section steps.
Context {PeerId : Type} `{Countable PeerId, !HashOrder PeerId} {NotificationsSink : Type}.
Context (clock : nat → Instant).
Abbreviation Notifications := (Notifications PeerId NotificationsSink).
Abbreviation PeerState := (PeerState NotificationsSink).
Abbreviation ConnectionState := (ConnectionState NotificationsSink).
Abbreviation connections := (connections NotificationsSink).
Abbreviation BehaviourAction := (BehaviourAction PeerId NotificationsSink).
Implicit Types (l : connections) (c : nat) (st : ConnectionState) (evs : list BehaviourAction)
  (p : PeerId) (s : nat) (n : Notifications).

(** ** One entry *)

Definition conns_of (o : option PeerState) : connections :=
  match o with
  | Some (Disabled _ l) | Some (DisabledPendingEnable _ _ l) | Some (Enabled l) | Some (Incoming _ l) => l
  | _ => []
  end.
Definition ids (o : option PeerState) : list nat := (conns_of o).*1.
Definition open_of (o : option PeerState) : bool :=
  match o with Some st => PeerState_is_open st | None => false end.

Lemma open_of_Enabled l : open_of (Some (Enabled l)) = any is_open_state l.
Proof. unfold open_of, PeerState_is_open. simpl. rewrite find_sink_any. by destruct (find_sink l). Qed.

(** What has happened to a connection before the behaviour is called: an
    event of its handler, or nothing. *)
Definition input := nat → option ConnectionState → option ConnectionState.
Definition no_input : input := λ _ o, o.
Definition on_conn (c : nat) (f : option ConnectionState → option ConnectionState) : input :=
  λ c' o, if decide (c = c') then f o else o.

(** The states of the connections that go with each state of a peer: the
    peer is [Enabled] exactly if a connection is open or opening, [Incoming]
    exactly if one awaits an answer. *)
Definition wf_state (o : option PeerState) : Prop :=
  match o with
  | Some (Enabled l) => any is_opening_or_open l = true ∧ any is_desired l = false
  | Some (Incoming _ l) => any is_opening_or_open l = false ∧ any is_desired l = true
  | Some (Disabled _ l) | Some (DisabledPendingEnable _ _ l) =>
      any is_opening_or_open l = false ∧ any is_desired l = false
  | _ => True
  end.

Record wf_entry (o : option PeerState) : Prop := {
  we_ids : NoDup (ids o);
  we_state : wf_state o;
}.

Lemma open_of_wf o : wf_entry o → open_of o = any is_open_state (conns_of o).
Proof.
  intros [_ Hw]. destruct o as [[]|]; try done; simpl in *; try apply open_of_Enabled;
    symmetry; destruct Hw as [Ho _]; unfold is_opening_or_open in Ho; rewrite any_or in Ho;
    by apply orb_false_iff in Ho as [_ ?].
Qed.

Record local (p : PeerId) (s : nat) (inp : input) (o o' : option PeerState) (evs : list BehaviourAction) : Prop := {
  lo_about : Forall (about p s) evs;
  lo_wf : wf_entry o → wf_entry o';
  lo_session : wf_entry o → session (p, s) evs (open_of o) = Some (open_of o');
  lo_conns : wf_entry o → o ≠ Some Poisoned → o' ≠ Some Poisoned → ∀ c,
    obey_all (commands p s c evs) (inp c (conn_at c (conns_of o))) = Some (conn_at c (conns_of o'));
  (** Only a new connection ends the poisoned state. *)
  lo_sticky : o = Some Poisoned → o' = Some Poisoned ∨ inp ≠ no_input;
  (** The API hears only of a peer that has a connection. *)
  lo_quiet : conns_of o = [] → forallb silent evs = true;
}.

Lemma wf_entry_no_conns o : conns_of o = [] → match o with Some (Enabled _) | Some (Incoming _ _) => False | _ => True end →
  wf_entry o.
Proof. intros Hc Ho. split; [unfold ids; rewrite Hc; apply NoDup_nil_2|]. destruct o as [[]|]; simpl in *; try done; by rewrite Hc. Qed.

(** Nothing said, the same connections, disabled before and after. *)
Lemma local_rename p s o o' :
  conns_of o' = conns_of o → open_of o = open_of o' → (wf_state o → wf_state o') →
  (o = Some Poisoned → o' = Some Poisoned) → local p s no_input o o' [].
Proof.
  intros Hc Ho Hw Hp. split; [done| |by simpl; rewrite Ho|by unfold no_input; rewrite Hc|auto|done].
  intros [Hi Hs]. split; [|auto]. unfold ids. by rewrite Hc.
Qed.

Lemma local_refl p s o : local p s no_input o o [].
Proof. by apply local_rename. Qed.

(** The entry is poisoned. *)
Lemma local_poison p s inp o : open_of o = false → local p s inp o (Some Poisoned) [].
Proof. intros Ho. split; [done|intros; by apply wf_entry_no_conns|by rewrite Ho|done|auto|done]. Qed.

Lemma local_dial p s h o :
  conns_of o = [] → open_of o = false → o ≠ Some Poisoned →
  local p s no_input o (Some Requested) [Dial p h].
Proof.
  intros Hc Ho Hp. split; [by repeat constructor|intros; by apply wf_entry_no_conns|by rewrite Ho| |done|done].
  intros. unfold no_input. by rewrite Hc.
Qed.

(** *** Closing an enabled peer *)

Lemma session_closed p s l evs :
  forallb silent evs = true →
  session (p, s) (closed_event p s l ++ evs) (open_of (Some (Enabled l))) = Some false.
Proof.
  intros Hs. rewrite session_app, open_of_Enabled. unfold closed_event.
  destruct (any is_open_state l); simpl; rewrite ?decide_True by done; simpl; by apply session_silent.
Qed.

Lemma closed_event_about p s l : Forall (about p s) (closed_event p s l).
Proof. unfold closed_event. destruct (any _ _); repeat constructor. Qed.

Lemma closed_event_commands p s c l : commands p s c (closed_event p s l) = [].
Proof. unfold closed_event. by destruct (any _ _). Qed.

(** The open and the opening connections are closed, in either order. *)
Lemma local_close_enabled p s b l (first second : ConnectionState → bool) new1 new2 :
  (∀ st, first st = true → obey st Cmd_Close = Some new1) →
  (∀ st, second st = true → obey st Cmd_Close = Some new2) →
  (∀ st, is_opening_or_open st = first st || second st) →
  is_opening_or_open new1 || is_desired new1 || is_opening_or_open new2 || is_desired new2 = false →
  let r1 := notify_filtered first new1 (send_close p s) l in
  let r2 := notify_filtered second new2 (send_close p s) r1.1 in
  local p s no_input (Some (Enabled l)) (Some (Disabled b r2.1)) (closed_event p s l ++ r1.2 ++ r2.2).
Proof.
  intros H1 H2 H12 Hnew r1 r2.
  apply orb_false_iff in Hnew as [[[Hn1 Hn1']%orb_false_iff Hn2]%orb_false_iff Hn2'].
  assert (r1.1.*1 = l.*1) as Hid1 by apply notify_ids.
  assert (r2.1.*1 = l.*1) as Hid2 by (etrans; [apply notify_ids|done]).
  split.
  - rewrite !Forall_app. split_and!; [apply closed_event_about|apply (notify_about p s _ _ Cmd_Close)..].
  - intros [Hi [Hw1 Hw2]]. split; unfold ids in *; cbn [conns_of wf_state] in *; [by rewrite Hid2|].
    unfold r2, r1. rewrite !notify_any, Hn2, Hn2'. simpl. split.
    + rewrite (any_false (λ st, is_opening_or_open st && negb (second st) && _)); [by rewrite Hn1|].
      intros st. rewrite H12. by destruct (first st), (second st).
    + rewrite Hn1'. simpl. eapply any_false_mono; [|exact Hw2]. intros st. simpl.
      by destruct (is_desired st).
  - intros _. apply session_closed.
    rewrite forallb_app. apply andb_true_intro. split; apply (notify_silent p s _ _ Cmd_Close).
  - intros [Hnd _] _ _ c. rewrite !commands_app, closed_event_commands.
    cbn [app]. rewrite obey_all_app. cbn [conns_of].
    unfold no_input. assert (obey_all (commands p s c r1.2) (conn_at c l) = Some (conn_at c r1.1)) as ->
      by (by apply (obey_notify p s first new1 Cmd_Close)).
    cbn [mbind option_bind]. apply (obey_notify p s second new2 Cmd_Close); [by rewrite Hid1|done].
  - done.
  - cbn [conns_of]. by intros ->.
Qed.

(** *** Answering the connections that the remote wants open *)

Lemma local_accept p s b l :
  let r := notify_filtered is_desired Opening (send_open p s) l in
  local p s no_input (Some (Incoming b l)) (Some (Enabled r.1)) r.2.
Proof.
  intros r. split.
  - apply (notify_about p s _ _ Cmd_Open).
  - intros [Hi [Hw1 Hw2]]. split; unfold ids in *; cbn [conns_of wf_state] in *; [by unfold r; rewrite notify_ids|].
    unfold r. rewrite !notify_any. cbn [is_opening_or_open is_opening is_desired orb andb]. split; [by rewrite Hw2|].
    apply any_false. intros []; done.
  - intros [_ [Hw1 Hw2]]. rewrite open_of_Enabled. unfold r. rewrite notify_any.
    cbn [conns_of wf_state is_open_state andb orb open_of PeerState_is_open get_open] in *.
    rewrite (any_false_mono _ is_opening_or_open l); [|by intros []|done].
    apply session_silent, (notify_silent p s _ _ Cmd_Open).
  - intros [Hnd _] _ _ c. unfold no_input. apply (obey_notify p s is_desired Opening Cmd_Open); [done|].
    by intros [].
  - done.
  - intros _. apply (notify_silent p s _ _ Cmd_Open).
Qed.

Lemma local_reject p s b b' l :
  let r := notify_filtered is_desired Closing (send_close p s) l in
  local p s no_input (Some (Incoming b l)) (Some (Disabled b' r.1)) r.2.
Proof.
  intros r. split.
  - apply (notify_about p s _ _ Cmd_Close).
  - intros [Hi [Hw1 Hw2]]. split; unfold ids in *; cbn [conns_of wf_state] in *; [by unfold r; rewrite notify_ids|].
    unfold r. rewrite !notify_any. simpl. split; [|apply any_false; by intros []].
    eapply any_false_mono; [|exact Hw1]. by intros [].
  - intros _. apply session_silent, (notify_silent p s _ _ Cmd_Close).
  - intros [Hnd _] _ _ c. unfold no_input. apply (obey_notify p s is_desired Closing Cmd_Close); [done|].
    by intros [].
  - done.
  - intros _. apply (notify_silent p s _ _ Cmd_Close).
Qed.

(** *** Opening a closed connection of a disabled peer *)

Definition disabled_conns (o : option PeerState) (l : connections) : Prop :=
  (∃ b, o = Some (Disabled b l)) ∨ (∃ t d, o = Some (DisabledPendingEnable t d l)).

Lemma disabled_conns_of o l : disabled_conns o l →
  conns_of o = l ∧ open_of o = false ∧
  (wf_state o → any is_opening_or_open l = false ∧ any is_desired l = false) ∧ o ≠ Some Poisoned.
Proof. by intros [[b ->]|(t & d & ->)]. Qed.

Lemma commands_one p s c c' cmd :
  commands p s c ([NotifyHandler p c' (to_command cmd s)] : list BehaviourAction) = if decide (c' = c) then [cmd] else [].
Proof. unfold commands. cbn [omap list_omap]. rewrite command_to_self. by case_decide. Qed.

Lemma any_open_opening_or_open l : any is_opening_or_open l = false → any is_open_state l = false.
Proof. apply any_false_mono. by intros []. Qed.

Lemma local_open_closed p s o l c l' :
  disabled_conns o l → update_first (λ _, is_closed) Opening l = Some (c, l') →
  local p s no_input o (Some (Enabled l')) [send_open p s c].
Proof.
  intros (Hl & Ho & Hw & Hnp)%disabled_conns_of Hu. split; [..|done|done].
  - by repeat constructor.
  - intros [Hi Hs]. unfold ids in Hi. rewrite Hl in Hi.
    destruct (update_first_spec _ _ _ _ _ Hu) as [Hids _].
    split; unfold ids; cbn [conns_of wf_state]; [by rewrite Hids|].
    destruct (update_first_any is_opening_or_open _ _ _ _ _ Hu) as (st & b & _ & _ & ->).
    destruct (update_first_any is_desired _ _ _ _ _ Hu) as (st' & b' & Ht & E & ->).
    split; [done|]. simpl. destruct (Hw Hs) as [_ E']. rewrite E in E'. by apply orb_false_iff in E' as [_ ?].
  - intros [_ Hs]. rewrite Ho, open_of_Enabled.
    destruct (update_first_any is_open_state _ _ _ _ _ Hu) as (st & b & _ & E & ->). simpl.
    destruct (Hw Hs) as [E' _]. apply any_open_opening_or_open in E'. rewrite E in E'.
    apply orb_false_iff in E' as [_ ->]. done.
  - intros [Hi _] _ _ c'. unfold no_input, ids in *. rewrite Hl in *. cbn [conns_of].
    destruct (update_first_conn_at _ _ _ _ _ Hi Hu) as (st & Hc & Ht & ->).
    change (send_open p s c) with (NotifyHandler (NotificationsSink := NotificationsSink) p c (to_command Cmd_Open s)).
    rewrite commands_one. case_decide; [|done]. subst c'. rewrite Hc. simpl. by destruct st.
Qed.

(** *** A new connection *)

Definition joins (c : nat) : input := on_conn c (λ _, Some Closed).

Lemma joins_input c : joins c ≠ no_input.
Proof.
  intros E. assert (joins c c None = no_input c None) as E' by (by rewrite E).
  unfold joins, on_conn, no_input in E'. by rewrite decide_True in E'.
Qed.

(** The entry [o'] has the connections of [o] and the new one. *)
Lemma local_join p s c o o' :
  c ∉ ids o → conns_of o' = conns_of o ++ [(c, Closed)] → open_of o' = open_of o →
  (wf_state o → wf_state o') → local p s (joins c) o o' [].
Proof.
  intros Hc Hl Ho Hw. split; [done| |by rewrite Ho| |right; apply joins_input|done].
  - intros [Hi Hs]. split; [|auto]. unfold ids in *. rewrite Hl, fmap_app. simpl.
    apply NoDup_app. split_and!; [done|set_solver|apply NoDup_singleton].
  - intros _ _ _ c'. rewrite Hl, conn_at_app, conn_at_cons. unfold joins, on_conn. simpl.
    case_decide as E; [subst c'|by destruct (conn_at c' _)]. apply conn_at_None in Hc. by rewrite Hc.
Qed.

Lemma local_join_open p s c o :
  conns_of o = [] → open_of o = false →
  local p s (joins c) o (Some (Enabled [(c, Opening)])) [send_open p s c].
Proof.
  intros Hl Ho. split; [..|right; apply joins_input|done].
  - by repeat constructor.
  - intros _. split; [apply NoDup_singleton|done].
  - by rewrite Ho.
  - intros _ _ _ c'. rewrite Hl. unfold joins, on_conn.
    change (send_open p s c) with (NotifyHandler (NotificationsSink := NotificationsSink) p c (to_command Cmd_Open s)).
    rewrite commands_one. cbn [conns_of]. rewrite conn_at_cons. simpl. by case_decide.
Qed.

(** *** A connection is gone *)

Definition leaves (c : nat) : input := on_conn c (λ _, None).

Lemma local_leave p s c pos st o o' evs :
  conns_of o !! pos = Some (c, st) → conns_of o' = delete pos (conns_of o) →
  Forall (about p s) evs → (∀ c', commands p s c' evs = []) →
  (wf_entry o → wf_state o') → (wf_entry o → session (p, s) evs (open_of o) = Some (open_of o')) →
  local p s (leaves c) o o' evs.
Proof.
  intros Hp Hl Hab Hcmd Hw Hs. split; [done| |done| |by intros ->|by intros E; rewrite E in Hp].
  - intros Ho. split; [|auto]. unfold ids. rewrite Hl. apply delete_ids, Ho.
  - intros [Hi _] _ _ c'. rewrite Hcmd, Hl. simpl. unfold leaves, on_conn.
    by rewrite (delete_conn_at c c' pos st) by done.
Qed.

(** The peer has no connection left. *)
Lemma local_leave_last p s c pos st o o' evs :
  conns_of o !! pos = Some (c, st) → delete pos (conns_of o) = [] → conns_of o' = [] →
  Forall (about p s) evs → (∀ c', commands p s c' evs = []) →
  match o' with Some (Enabled _) | Some (Incoming _ _) => False | _ => True end →
  (wf_entry o → session (p, s) evs (open_of o) = Some (open_of o')) →
  local p s (leaves c) o o' evs.
Proof.
  intros Hp Hd Hl Hab Hcmd Hno Hs. eapply local_leave; try done; [by rewrite Hd, Hl|].
  intros _. by apply wf_entry_no_conns.
Qed.

(** *** A connection changes state *)

(** Only the state of connection [c] changes, by the event alone. *)
Lemma local_event p s c f l l' o o' evs :
  conns_of o = l → conns_of o' = l' → l'.*1 = l.*1 →
  (l = [] → forallb silent evs = true) →
  Forall (about p s) evs → (∀ c', commands p s c' evs = []) →
  (NoDup l.*1 → ∀ c', conn_at c' l' = if decide (c = c') then f (conn_at c l) else conn_at c' l) →
  (wf_entry o → wf_state o') → (wf_entry o → session (p, s) evs (open_of o) = Some (open_of o')) →
  o ≠ Some Poisoned → local p s (on_conn c f) o o' evs.
Proof.
  intros Hl Hl' Hids Hq Hab Hcmd Hc Hw Hs Hp. split; [done| |done| |done|rewrite Hl; done].
  - intros Ho. split; [|auto]. unfold ids. rewrite Hl', Hids. rewrite <- Hl. apply Ho.
  - intros [Hi _] _ _ c'. rewrite Hcmd, Hl'. unfold ids in Hi. rewrite Hl in *. simpl.
    rewrite Hc by done. unfold on_conn. case_decide; [subst|]; done.
Qed.

(** The event is followed by one command to the same connection. *)
Lemma local_event_command p s c f l l' o o' evs cmd st' :
  conns_of o = l → conns_of o' = l' → l'.*1 = l.*1 →
  (l = [] → forallb silent evs = true) →
  Forall (about p s) evs → (∀ c', commands p s c' evs = if decide (c = c') then [cmd] else []) →
  (NoDup l.*1 → ∀ c', conn_at c' l' = if decide (c = c') then Some st' else conn_at c' l) →
  (NoDup l.*1 → ∃ st, f (conn_at c l) = Some st ∧ obey st cmd = Some st') →
  (wf_entry o → wf_state o') → (wf_entry o → session (p, s) evs (open_of o) = Some (open_of o')) →
  o ≠ Some Poisoned → local p s (on_conn c f) o o' evs.
Proof.
  intros Hl Hl' Hids Hq Hab Hcmd Hc Hf Hw Hs Hp. split; [done| |done| |done|rewrite Hl; done].
  - intros Ho. split; [|auto]. unfold ids. rewrite Hl', Hids. rewrite <- Hl. apply Ho.
  - intros [Hi _] _ _ c'. rewrite Hcmd, Hl'. unfold ids in Hi. rewrite Hl in *.
    rewrite Hc by done. unfold on_conn. case_decide; [subst c'|done].
    destruct (Hf Hi) as (st & -> & Hob). simpl. by rewrite Hob.
Qed.

(** ** Requests awaiting an answer *)

(** Number of live requests of [k]. *)
Definition alive_count (k : PeerId * nat) (xs : list (IncomingPeer PeerId)) : nat :=
  length (filter (λ i, ip_alive i = true ∧ (ip_peer_id i, ip_set_id i) = k) xs).

(** A peer in [Incoming] has exactly one live request, any other has none. *)
Definition alive_ok (o : option PeerState) (a : nat) : Prop :=
  match o with
  | Some (Incoming _ _) => a = 1%nat
  | Some Poisoned => True
  | _ => a = 0%nat
  end.

Definition alive_inv (n : Notifications) : Prop :=
  ∀ k, alive_ok (peers n !! k) (alive_count k (incoming_list n)).

Lemma alive_count_cons k i xs :
  alive_count k (i :: xs) =
    ((if ip_alive i && bool_decide ((ip_peer_id i, ip_set_id i) = k) then 1 else 0) + alive_count k xs)%nat.
Proof.
  unfold alive_count. rewrite filter_cons. case_decide as D.
  - destruct D as [-> D]. by rewrite bool_decide_eq_true_2.
  - destruct (ip_alive i); [|done]. by rewrite bool_decide_eq_false_2 by naive_solver.
Qed.

Lemma alive_count_app k xs ys : alive_count k (xs ++ ys) = (alive_count k xs + alive_count k ys)%nat.
Proof. unfold alive_count. by rewrite filter_app, length_app. Qed.

Lemma kill_incoming_alive p s xs k :
  match kill_incoming p s xs with
  | Some xs' => alive_count k xs = (alive_count k xs' + if bool_decide (k = (p, s)) then 1 else 0)%nat
  | None => alive_count (p, s) xs = 0%nat
  end.
Proof.
  induction xs as [|i xs IH]; [done|]. simpl.
  destruct (bool_decide (ip_peer_id i = p) && bool_decide (ip_set_id i = s) && ip_alive i) eqn:E.
  - apply andb_prop in E as [[E1%bool_decide_eq_true E2%bool_decide_eq_true]%andb_prop Ha].
    rewrite !alive_count_cons. simpl. rewrite Ha, E1, E2. simpl.
    repeat case_bool_decide; naive_solver lia.
  - assert ((if ip_alive i && bool_decide ((ip_peer_id i, ip_set_id i) = (p, s)) then 1 else 0) = 0)%nat as E0.
    { destruct (ip_alive i); [|done]. rewrite andb_true_r in E. simpl.
      rewrite bool_decide_eq_false_2; [done|]. intros [= <- <-].
      by rewrite !bool_decide_eq_true_2 in E. }
    destruct (kill_incoming p s xs) as [xs'|]; simpl; rewrite !alive_count_cons; [lia|]. rewrite E0, IH. done.
Qed.

Lemma take_incoming_alive i xs inc rest k :
  take_incoming i xs = Some (inc, rest) →
  alive_count k xs = (alive_count k rest +
    if ip_alive inc && bool_decide ((ip_peer_id inc, ip_set_id inc) = k) then 1 else 0)%nat.
Proof.
  revert rest. induction xs as [|x xs IH]; intros rest; [done|]. simpl. destruct (_ =? _).
  - intros [= -> ->]. rewrite alive_count_cons. lia.
  - destruct (take_incoming i xs) as [[inc' rest']|]; [|done]. simpl. intros [= -> <-].
    rewrite !alive_count_cons, (IH _ eq_refl). lia.
Qed.

(** ** One operation *)

(** Actions are appended, the peers do not change. *)
Record emits (n : Notifications) (evs : list BehaviourAction) (n' : Notifications) : Prop := {
  em_events : events n' = events n ++ evs;
  em_peers : peers n' = peers n;
  em_protocols : notif_protocols n' = notif_protocols n;
  em_alive : ∀ k, alive_count k (incoming_list n') = alive_count k (incoming_list n);
}.

Lemma emits_refl n : emits n [] n.
Proof. split; [by rewrite app_nil_r|done..]. Qed.
Lemma emits_trans n evs1 n1 evs2 n2 : emits n evs1 n1 → emits n1 evs2 n2 → emits n (evs1 ++ evs2) n2.
Proof. intros [E1 P1 R1 A1] [E2 P2 R2 A2]. split; [by rewrite E2, E1, app_assoc|congruence..]. Qed.
Lemma emits_then n evs n1 n2 : emits n evs n1 → emits n1 [] n2 → emits n evs n2.
Proof. intros H1 H2. rewrite <- (app_nil_r evs). by eapply emits_trans. Qed.
Lemma emits_push evs1 n evs n1 : emits n evs n1 → emits n (evs ++ evs1) (push_events evs1 n1).
Proof. intros H1. eapply emits_trans; [exact H1|]. by split. Qed.
Lemma emits_quiet n n' :
  events n' = events n → peers n' = peers n → notif_protocols n' = notif_protocols n →
  incoming_list n' = incoming_list n → emits n [] n'.
Proof. intros ??? E. split; rewrite ?E, ?app_nil_r; done. Qed.
Lemma emits_now n evs n1 : emits n evs n1 → emits n evs (now clock n1).2.
Proof. intros Hn. eapply emits_then; [exact Hn|]. by apply emits_quiet. Qed.
Lemma emits_push_delay p s d n evs n1 :
  emits n evs n1 → ensures (push_delay p s d n1) (λ r, emits n evs r.2).
Proof.
  intros Hn. unfold push_delay. apply ensures_bind, ensures_true. intros next. simpl.
  eapply emits_then; [exact Hn|]. by apply emits_quiet.
Qed.
Lemma emits_dropped s p r n evs n1 :
  emits n evs n1 → ensures (peerset_dropped clock s p r n1) (λ n2, emits n evs n2).
Proof.
  intros Hn. unfold peerset_dropped. apply ensures_bind, ensures_true. intros ps. simpl.
  eapply emits_then; [exact Hn|]. by apply emits_quiet.
Qed.

Record effect (p : PeerId) (s : nat) (inp : input) (n n' : Notifications) : Prop := {
  ef_protocols : notif_protocols n' = notif_protocols n;
  ef_others : ∀ k, k ≠ (p, s) → peers n' !! k = peers n !! k;
  ef_local : ∃ evs, events n' = events n ++ evs ∧ local p s inp (peers n !! (p, s)) (peers n' !! (p, s)) evs;
  ef_alive_others : ∀ k, k ≠ (p, s) → alive_count k (incoming_list n') = alive_count k (incoming_list n);
  ef_alive : peers n !! (p, s) ≠ Some Poisoned →
    alive_ok (peers n !! (p, s)) (alive_count (p, s) (incoming_list n)) →
    alive_ok (peers n' !! (p, s)) (alive_count (p, s) (incoming_list n'));
}.

(** The entry becomes [o'], the live requests of the others do not change. *)
Lemma effect_intro p s inp n n1 n' evs o o' :
  peers n !! (p, s) = o →
  events n1 = events n ++ evs → peers n1 = peers n → notif_protocols n1 = notif_protocols n →
  (∀ k, k ≠ (p, s) → alive_count k (incoming_list n1) = alive_count k (incoming_list n)) →
  (alive_ok o (alive_count (p, s) (incoming_list n)) → o ≠ Some Poisoned →
     alive_ok o' (alive_count (p, s) (incoming_list n1))) →
  local p s inp o o' evs → n' = with_peers (partial_alter (λ _, o') (p, s) (peers n1)) n1 →
  effect p s inp n n'.
Proof.
  intros Ho E P R A A' Hl ->. split; simpl.
  - done.
  - intros k Hk. by rewrite lookup_partial_alter_ne, P.
  - exists evs. rewrite Ho, lookup_partial_alter_eq. by split.
  - done.
  - rewrite lookup_partial_alter_eq, Ho. auto.
Qed.

Lemma effect_set p s inp n evs n1 o (x : PeerState) :
  peers n !! (p, s) = o → emits n evs n1 → local p s inp o (Some x) evs →
  (∀ a, o ≠ Some Poisoned → alive_ok o a → alive_ok (Some x) a) →
  effect p s inp n (set_peer p s x n1).
Proof.
  intros Ho [E P R A] Hl Ha. eapply (effect_intro p s inp n n1 _ evs o (Some x)); try done.
  rewrite A. auto.
Qed.

Lemma effect_remove p s inp n evs n1 o :
  peers n !! (p, s) = o → emits n evs n1 → local p s inp o None evs →
  (∀ a, o ≠ Some Poisoned → alive_ok o a → alive_ok None a) →
  effect p s inp n (remove_peer p s n1).
Proof.
  intros Ho [E P R A] Hl Ha. eapply (effect_intro p s inp n n1 _ evs o None); try done.
  rewrite A. auto.
Qed.

Lemma effect_same p s inp n evs n1 o :
  peers n !! (p, s) = o → emits n evs n1 → local p s inp o o evs → effect p s inp n n1.
Proof.
  intros Ho [E P R A] Hl. split; [done|by intros; rewrite P| |done|by rewrite P, A].
  exists evs. by rewrite P, Ho.
Qed.

Lemma effect_id p s n n1 : emits n [] n1 → effect p s no_input n n1.
Proof. intros Hn. eapply effect_same; [done|exact Hn|apply local_refl]. Qed.

(** The request of [(p, s)] is answered or given up: a live request less. *)
Record answered (p : PeerId) (s : nat) (n : Notifications) (evs : list BehaviourAction) (n1 : Notifications) : Prop := {
  an_events : events n1 = events n ++ evs;
  an_peers : peers n1 = peers n;
  an_protocols : notif_protocols n1 = notif_protocols n;
  an_alive : ∀ k, alive_count k (incoming_list n) =
    (alive_count k (incoming_list n1) + if bool_decide (k = (p, s)) then 1 else 0)%nat;
}.

Lemma answered_emits p s n evs1 n1 evs2 n2 :
  answered p s n evs1 n1 → emits n1 evs2 n2 → answered p s n (evs1 ++ evs2) n2.
Proof.
  intros [E1 P1 R1 A1] [E2 P2 R2 A2]. split; [by rewrite E2, E1, app_assoc|congruence..|].
  intros k. by rewrite A1, A2.
Qed.
Lemma answered_push p s n evs1 n1 evs2 : answered p s n evs1 n1 → answered p s n (evs1 ++ evs2) (push_events evs2 n1).
Proof. intros H1. eapply answered_emits; [exact H1|]. by split. Qed.
Lemma answered_now p s n evs1 n1 : answered p s n evs1 n1 → answered p s n evs1 (now clock n1).2.
Proof.
  intros H1. rewrite <- (app_nil_r evs1). eapply answered_emits; [exact H1|]. by apply emits_quiet.
Qed.
Lemma answered_kill p s n inc :
  kill_incoming p s (incoming_list n) = Some inc → answered p s n [] (with_incoming inc (next_incoming_index n) n).
Proof.
  intros Hk. split; [by rewrite app_nil_r|done..|]. intros k. simpl.
  pose proof (kill_incoming_alive p s (incoming_list n) k) as Ha. by rewrite Hk in Ha.
Qed.
Lemma answered_take i n inc rest :
  take_incoming i (incoming_list n) = Some (inc, rest) → ip_alive inc = true →
  answered (ip_peer_id inc) (ip_set_id inc) n [] (with_incoming rest (next_incoming_index n) n).
Proof.
  intros Ht Ha. split; [by rewrite app_nil_r|done..|]. intros k. simpl.
  rewrite (take_incoming_alive _ _ _ _ k Ht), Ha. simpl. repeat case_bool_decide; congruence.
Qed.
Lemma obsolete_take i n inc rest :
  take_incoming i (incoming_list n) = Some (inc, rest) → ip_alive inc = false →
  emits n [] (with_incoming rest (next_incoming_index n) n).
Proof.
  intros Ht Ha. split; [by rewrite app_nil_r|done..|]. intros k. simpl.
  rewrite (take_incoming_alive _ _ _ _ k Ht), Ha. simpl. lia.
Qed.

Lemma effect_answer p s inp n evs n1 b l (x : PeerState) :
  peers n !! (p, s) = Some (Incoming b l) → answered p s n evs n1 →
  local p s inp (Some (Incoming b l)) (Some x) evs →
  match x with Incoming _ _ => False | _ => True end →
  effect p s inp n (set_peer p s x n1).
Proof.
  intros Ho [E P R A] Hl Hx. eapply (effect_intro p s inp n n1 _ evs _ (Some x)); try done.
  - intros k Hk. rewrite A, bool_decide_eq_false_2 by done. lia.
  - rewrite A, bool_decide_eq_true_2 by done. simpl. intros Ha _.
    destruct x; try done; lia.
Qed.

(** [en]: work through an [ensures] goal. *)
Ltac en :=
  repeat lazymatch goal with
  | |- ensures (mbind _ _) _ => apply ensures_bind
  | |- ensures (fmap _ _) _ => apply ensures_fmap
  | |- ensures (debug_assert _) _ => apply ensures_debug_assert; intros ?
  | |- ensures (Panicked _) _ => exact I
  | |- ensures (mret _) _ => cbn [ensures mret outcome_ret]
  | |- ensures (Done _) _ => cbn [ensures]
  end.

Lemma disconnect_peer_inner_effect p s ban n :
  ensures (disconnect_peer_inner clock p s ban n) (effect p s no_input n).
Proof.
  unfold disconnect_peer_inner. pose proof (emits_refl n) as Hn.
  destruct (peers n !! (p, s)) as [[| | | |b l|t d l|l|b l]|] eqn:Hp; en; try (by apply effect_id).
  - eapply ensures_mono; [by apply (emits_dropped s p DR_Unknown n [] n)|]. intros n1 H1.
    destruct ban; cbn [ensures mret outcome_ret].
    + pose proof (emits_now _ _ _ H1) as H2. destruct (now clock n1) as [t' n2]. simpl in *.
      eapply effect_set; [exact Hp|exact H2|by apply local_rename|done].
    + eapply effect_set; [exact Hp|exact H1|by apply local_rename|done].
  - eapply ensures_mono; [by apply (emits_dropped s p DR_Unknown n [] n)|]. intros n1 H1.
    assert (∀ b, let r1 := notify_filtered is_open_state Closing (send_close p s) l in
                 let r2 := notify_filtered is_opening OpeningThenClosing (send_close p s) r1.1 in
      local p s no_input (Some (Enabled l)) (Some (Disabled b r2.1)) (closed_event p s l ++ r1.2 ++ r2.2)) as Hl.
    { intros b. apply local_close_enabled; try done; by intros []. }
    apply (emits_push (closed_event p s l)) in H1. cbv zeta in Hl.
    destruct (notify_filtered is_open_state _ _ l) as [l1 e1].
    apply (emits_push e1) in H1. cbn [fst snd] in Hl.
    destruct (notify_filtered is_opening _ _ l1) as [l2 e2].
    apply (emits_push e2) in H1. cbn [fst snd] in Hl. rewrite <- !app_assoc in H1. cbn [app] in H1. en.
    destruct ban; en.
    + apply emits_now in H1. destruct (now clock _) as [t' n2]. cbn [snd] in *.
      eapply effect_set; [exact Hp|exact H1|apply Hl|done].
    + eapply effect_set; [exact Hp|exact H1|apply Hl|done].
  - destruct (kill_incoming p s (incoming_list n)) as [inc|] eqn:Hk; [|en; eapply effect_set; [exact Hp|done|by apply local_poison|done]].
    pose proof (λ b', local_reject p s b b' l) as Hl. cbv zeta in Hl.
    apply answered_kill in Hk.
    destruct (notify_filtered is_desired _ _ l) as [l1 e1]. cbn [fst snd] in Hl.
    apply (answered_push _ _ _ _ _ e1) in Hk. pose proof (answered_now _ _ _ _ _ Hk) as Hk2.
    destruct b as [b|], ban as [ban|]; en;
      try (eapply effect_answer; [exact Hp|exact Hk|apply Hl|done]);
      (destruct (now clock _) as [t' n2]; cbn [snd] in *; en; eapply effect_answer; [exact Hp|exact Hk2|apply Hl|done]).
Qed.

(** *** Instructions of the peer set manager *)

Lemma enable_disabled_effect p s t b l n n1 :
  peers n !! (p, s) = Some (Disabled b l) → emits n [] n1 →
  ensures (enable_disabled p s t b l n1) (effect p s no_input n).
Proof.
  intros Hp H1. unfold enable_disabled. en.
  destruct (update_first _ _ _) as [[c l']|] eqn:Hu; en.
  - apply (emits_push [send_open p s c]) in H1. cbn [app] in H1.
    eapply effect_set; [exact Hp|exact H1| |done]. eapply local_open_closed; [left; eauto|done].
  - eapply ensures_mono; [by apply (emits_push_delay p s _ n [] n1)|]. intros [id n2] Hn2. en.
    eapply effect_set; [exact Hp|exact Hn2|by apply local_rename|done].
Qed.

Lemma enable_incoming_effect p s b l n n1 :
  peers n !! (p, s) = Some (Incoming b l) → answered p s n [] n1 →
  ensures (enable_incoming p s l n1) (effect p s no_input n).
Proof.
  intros Hp H1. unfold enable_incoming. en. pose proof (local_accept p s b l) as Hl. cbv zeta in Hl.
  destruct (notify_filtered is_desired _ _ l) as [l1 e1]. cbn [fst snd] in Hl. en.
  apply (answered_push _ _ _ _ _ e1) in H1. eapply effect_answer; [exact Hp|exact H1|exact Hl|done].
Qed.

Lemma peerset_report_connect_effect p s n :
  alive_inv n →
  ensures (peerset_report_connect clock p s n) (effect p s no_input n).
Proof.
  intros Hinv. unfold peerset_report_connect. pose proof (emits_refl n) as Hn.
  destruct (peers n !! (p, s)) as [x|] eqn:Hp; cycle 1.
  { en. eapply effect_set; [exact Hp|apply (emits_push [Dial p (new_handler n)]), Hn|by apply local_dial|done]. }
  apply emits_now in Hn. destruct (now clock n) as [t n1]. cbn [snd] in Hn.
  destruct x as [|timer d|timer d| |b l|timer d l|l|b l]; en; try (by eapply effect_id).
  - destruct (t <? d); en.
    + eapply effect_set; [exact Hp|exact Hn|by apply local_rename|done].
    + eapply effect_set; [exact Hp|apply (emits_push [Dial p (new_handler n)]), Hn|by apply local_dial|done].
  - destruct b as [b|]; [destruct (t <? b); en|].
    + eapply ensures_mono; [by apply (emits_push_delay p s _ n [] n1)|]. intros [id n2] H2. en.
      eapply effect_set; [exact Hp|exact H2|by apply local_rename|done].
    + by apply enable_disabled_effect.
    + by apply enable_disabled_effect.
  - apply (enable_incoming_effect p s b); [done|]. specialize (Hinv (p, s)). rewrite Hp in Hinv. simpl in Hinv.
    pose proof (kill_incoming_alive p s (incoming_list n1) (p, s)) as Hk.
    rewrite (em_alive _ _ _ Hn) in Hk.
    destruct (kill_incoming p s (incoming_list n1)) as [inc|] eqn:E; [|lia]. apply answered_kill in E.
    destruct Hn as [E1 P1 R1 A1], E as [E2 P2 R2 A2]. split; [by rewrite E2, E1, !app_nil_r|congruence..|]. intros k. by rewrite <- A1, A2.
Qed.

Lemma peerset_report_disconnect_effect p s n :
  ensures (peerset_report_disconnect p s n) (effect p s no_input n).
Proof.
  unfold peerset_report_disconnect. pose proof (emits_refl n) as Hn.
  destruct (peers n !! (p, s)) as [[|timer d|timer d| |b l|timer d l|l|b l]|] eqn:Hp; en; try (by eapply effect_id).
  - eapply effect_set; [exact Hp|exact Hn|by apply local_rename|done].
  - eapply effect_remove; [exact Hp|exact Hn|by apply local_rename|done].
  - eapply effect_set; [exact Hp|exact Hn|by apply local_rename|done].
  - assert (let r1 := notify_filtered is_opening OpeningThenClosing (send_close p s) l in
            let r2 := notify_filtered is_open_state Closing (send_close p s) r1.1 in
      local p s no_input (Some (Enabled l)) (Some (Disabled None r2.1)) (closed_event p s l ++ r1.2 ++ r2.2)) as Hl.
    { apply local_close_enabled; try done; by intros []. }
    apply (emits_push (closed_event p s l)) in Hn. cbv zeta in Hl.
    destruct (notify_filtered is_opening _ _ l) as [l1 e1].
    apply (emits_push e1) in Hn. cbn [fst snd] in Hl.
    destruct (notify_filtered is_open_state _ _ l1) as [l2 e2].
    apply (emits_push e2) in Hn. cbn [fst snd] in Hl. rewrite <- !app_assoc in Hn. cbn [app] in Hn. en.
    eapply effect_set; [exact Hp|exact Hn|exact Hl|done].
Qed.

(** An answer concerns the peer of the request, if the request is alive. *)
Lemma peerset_report_accept_effect i n :
  ensures (peerset_report_accept clock i n) (λ n', emits n [] n' ∨ ∃ p s, effect p s no_input n n').
Proof.
  unfold peerset_report_accept.
  destruct (take_incoming i (incoming_list n)) as [[inc rest]|] eqn:Ht; en; [|left; apply emits_refl].
  destruct (ip_alive inc) eqn:Ha; cbn [negb].
  - pose proof (answered_take _ _ _ _ Ht Ha) as Hn.
    destruct (peers _ !! _) as [[| | | | | | |b l]|] eqn:Hp; en.
    eapply ensures_mono; [by apply (enable_incoming_effect _ _ b l n)|]. eauto.
  - pose proof (obsolete_take _ _ _ _ Ht Ha) as Hn.
    assert (ensures (peerset_dropped clock (ip_set_id inc) (ip_peer_id inc) DR_Unknown
              (with_incoming rest (next_incoming_index n) n))
              (λ n', emits n [] n' ∨ ∃ p s, effect p s no_input n n')) as Hd.
    { eapply ensures_mono; [by apply emits_dropped|]. auto. }
    destruct (peers _ !! _) as [[]|] eqn:Hp; en; auto.
Qed.

Lemma peerset_report_reject_effect i n :
  alive_inv n →
  ensures (peerset_report_reject i n) (λ n', emits n [] n' ∨ ∃ p s, effect p s no_input n n').
Proof.
  intros Hinv. unfold peerset_report_reject.
  destruct (take_incoming i (incoming_list n)) as [[inc rest]|] eqn:Ht; en; [|left; apply emits_refl].
  destruct (ip_alive inc) eqn:Ha; cbn [negb]; en; [|left; by eapply obsolete_take].
  pose proof (answered_take _ _ _ _ Ht Ha) as Hn.
  set (p := ip_peer_id inc) in *. set (s := ip_set_id inc) in *.
  cbn [peers with_incoming]. specialize (Hinv (p, s)). rewrite (an_alive _ _ _ _ _ Hn (p, s)) in Hinv.
  rewrite bool_decide_eq_true_2 in Hinv by done.
  destruct (peers n !! (p, s)) as [[|timer d|timer d| |b l|timer d l|l|b l]|] eqn:Hp; simpl in Hinv; en; try lia.
  - right. exists p, s. destruct Hn as [E P R A].
    eapply (effect_intro p s _ n _ _ [] _ (Some Poisoned)); [exact Hp|exact E|exact P|exact R| |done|apply local_refl|done].
    intros k Hk. rewrite A, bool_decide_eq_false_2 by done. lia.
  - pose proof (local_reject p s b b l) as Hl. cbv zeta in Hl.
    destruct (notify_filtered is_desired _ _ l) as [l1 e1]. cbn [fst snd] in Hl. en.
    apply (answered_push _ _ _ _ _ e1) in Hn. right. exists p, s.
    eapply effect_answer; [exact Hp|exact Hn|exact Hl|done].
Qed.

(** *** Connections come and go *)

Lemma established_effect p c n s :
  c ∉ ids (peers n !! (p, s)) → ensures (established_in_set p c n s) (effect p s (joins c) n).
Proof.
  intros Hc. unfold established_in_set. en. pose proof (emits_refl n) as Hn.
  assert (∀ x, conns_of (Some x) = conns_of (peers n !! (p, s)) ++ [(c, Closed)] →
    open_of (Some x) = open_of (peers n !! (p, s)) → (wf_state (peers n !! (p, s)) → wf_state (Some x)) →
    (∀ a, peers n !! (p, s) ≠ Some Poisoned → alive_ok (peers n !! (p, s)) a → alive_ok (Some x) a) →
    effect p s (joins c) n (set_peer p s x n)) as Hjoin.
  { intros x H1 H2 H3 H4. eapply effect_set; [done|exact Hn|by apply local_join|done]. }
  assert (conns_of (peers n !! (p, s)) = [] → open_of (peers n !! (p, s)) = false →
    (∀ a, peers n !! (p, s) ≠ Some Poisoned → alive_ok (peers n !! (p, s)) a → a = 0%nat) →
    effect p s (joins c) n (set_peer p s (Enabled [(c, Opening)]) (push_event (send_open p s c) n))) as Hopen.
  { intros H1 H2 H3. eapply effect_set; [done|by apply (emits_push [send_open p s c])|by apply local_join_open|done]. }
  assert (∀ f l, any f (l ++ [(c, Closed)]) = any f l || f (Closed (NotificationsSink := NotificationsSink))) as Hany.
  { intros f l. rewrite any_app. unfold any at 2. simpl. by rewrite orb_false_r. }
  destruct (peers n !! (p, s)) as [[|timer d|timer d| |b l|timer d l|l|b l]|] eqn:Hp; simpl;
    (by apply Hopen) || (apply Hjoin; try done).
  - simpl. by rewrite !Hany, !orb_false_r.
  - simpl. by rewrite !Hany, !orb_false_r.
  - by rewrite !open_of_Enabled, Hany, orb_false_r.
  - simpl. by rewrite !Hany, !orb_false_r.
  - simpl. by rewrite !Hany, !orb_false_r.
Qed.

Lemma delete_length_0 l pos : bool_decide (length (delete pos l) = 0%nat) = true → delete pos l = [].
Proof. intros Hl%bool_decide_eq_true. by apply nil_length_inv. Qed.

Lemma back_off_or_forget_effect p s c pos st b n n1 o :
  peers n !! (p, s) = o → conns_of o !! pos = Some (c, st) → delete pos (conns_of o) = [] → open_of o = false →
  events n1 = events n → peers n1 = peers n → notif_protocols n1 = notif_protocols n →
  (∀ k, k ≠ (p, s) → alive_count k (incoming_list n1) = alive_count k (incoming_list n)) →
  (alive_ok o (alive_count (p, s) (incoming_list n)) → o ≠ Some Poisoned →
     alive_count (p, s) (incoming_list n1) = 0%nat) →
  ensures (back_off_or_forget clock p s b n1) (effect p s (leaves c) n).
Proof.
  intros Ho Hpos Hd Hop E P R A A'.
  assert (∀ n2 o', emits n1 [] n2 → match o' with Some (Backoff _ _) | None => True | _ => False end →
    effect p s (leaves c) n (with_peers (partial_alter (λ _, o') (p, s) (peers n2)) n2)) as Heff.
  { intros n2 o' [E2 P2 R2 A2] Ho'.
    eapply (effect_intro p s _ n n2 _ [] o o'); [done|by rewrite E2, E, !app_nil_r|congruence..| | | |done].
    - intros k Hk. rewrite A2. auto.
    - rewrite A2. intros H1 H2. specialize (A' H1 H2). by destruct o' as [[]|].
    - eapply local_leave_last; try done; [by destruct o' as [[]|]|by destruct o' as [[]|]|].
      rewrite Hop. by destruct o' as [[]|]. }
  unfold back_off_or_forget. pose proof (emits_refl n1) as Hn.
  destruct b as [b|]; [|en; by apply (Heff _ None)].
  apply emits_now in Hn. destruct (now clock n1) as [t n2]. cbn [snd] in Hn.
  destruct (t <? b); en; [|by apply (Heff _ None)].
  eapply ensures_mono; [by apply (emits_push_delay p s _ n1 [] n2)|]. intros [id n3] Hn3. en.
  by apply (Heff _ (Some (Backoff id b))).
Qed.

Lemma any_delete_false f pos c st l : l !! pos = Some (c, st) → any f l = false → any f (delete pos l) = false.
Proof. intros Hl Hf. rewrite (delete_any f pos c st l Hl) in Hf. by apply orb_false_iff in Hf as [_ ?]. Qed.

Lemma sink_gone_about p s pos l : Forall (about p s) (sink_gone_events p s pos l).
Proof. unfold sink_gone_events. destruct (find_sink l) as [[]|]; [case_bool_decide|]; by repeat constructor. Qed.

Lemma sink_gone_commands p s pos l c : commands p s c (sink_gone_events p s pos l) = [].
Proof. unfold sink_gone_events. destruct (find_sink l) as [[]|]; [case_bool_decide|]; done. Qed.

(** The channel stays open exactly if another connection is open. *)
Lemma sink_gone_session p s pos l :
  session (p, s) (sink_gone_events p s pos l) true = Some (any is_open_state l).
Proof.
  unfold sink_gone_events. rewrite find_sink_any.
  destruct (find_sink l) as [[]|]; [case_bool_decide|]; simpl; by rewrite ?decide_True.
Qed.

Definition gone_events (p : PeerId) (s pos : nat) (st : ConnectionState) (l : connections) : list BehaviourAction :=
  if is_open_state st then sink_gone_events p s pos (delete pos l) else [].

Lemma gone_session p s pos c st l :
  l !! pos = Some (c, st) →
  session (p, s) (gone_events p s pos st l) (any is_open_state l) = Some (any is_open_state (delete pos l)).
Proof.
  intros Hl. rewrite (delete_any is_open_state pos c st l Hl). unfold gone_events.
  destruct (is_open_state st); simpl; [apply sink_gone_session|done].
Qed.

Context (ban_sample : nat → Z).

Lemma closed_enabled_effect p c s l n :
  peers n !! (p, s) = Some (Enabled l) →
  ensures (closed_enabled clock ban_sample p c s l n) (effect p s (leaves c) n).
Proof.
  intros Hp. unfold closed_enabled. en.
  destruct (position c l) as [[pos st]|] eqn:Hpos; en. apply position_spec in Hpos as [Hpos _].
  set (n1 := if is_open_state st then _ else n).
  assert (emits n (gone_events p s pos st l) n1) as Hn.
  { unfold n1, gone_events. destruct (is_open_state st); [|apply emits_refl].
    apply (emits_push (sink_gone_events p s pos (delete pos l)) n []), emits_refl. }
  assert (∀ x, conns_of (Some x) = delete pos l → open_of (Some x) = any is_open_state (delete pos l) →
    (wf_entry (Some (Enabled l)) → wf_state (Some x)) →
    local p s (leaves c) (Some (Enabled l)) (Some x) (gone_events p s pos st l)) as Hl.
  { intros x H1 H2 H3. eapply local_leave; [exact Hpos|done| | |done|].
    - unfold gone_events. destruct (is_open_state st); [apply sink_gone_about|done].
    - unfold gone_events. intros. destruct (is_open_state st); [apply sink_gone_commands|done].
    - intros _. rewrite open_of_Enabled, H2. by apply (gone_session p s pos c). }
  assert (any is_opening_or_open (delete pos l) = false →
    local p s (leaves c) (Some (Enabled l)) (Some (Disabled None (delete pos l))) (gone_events p s pos st l)) as Hdis.
  { intros Hno. apply Hl; [done| |].
    - symmetry. by apply any_open_opening_or_open.
    - intros [_ [_ Hw]]. split; [done|]. by eapply any_delete_false. }
  destruct (bool_decide (length (delete pos l) = 0%nat)) eqn:Hlen.
  - apply delete_length_0 in Hlen. en.
    eapply ensures_mono; [apply (emits_dropped s p DR_Unknown _ _ _ Hn)|]. intros n2 Hn2. simpl. en.
    assert (emits n (gone_events p s pos st l) (with_samples (S (samples n2)) n2)) as Hn3.
    { eapply emits_then; [exact Hn2|]. by apply emits_quiet. }
    eapply ensures_mono; [apply (emits_push_delay p s _ _ _ _ Hn3)|]. intros [id n4] Hn4. en.
    eapply effect_set; [exact Hp|exact Hn4|apply Hdis|done]. by rewrite Hlen.
  - destruct (any is_opening_or_open (delete pos l)) eqn:Hoo; cbn [negb]; en.
    + eapply effect_set; [exact Hp|exact Hn| |done]. apply Hl; [done|apply open_of_Enabled|].
      intros [_ [_ Hw]]. split; [done|]. by eapply any_delete_false.
    + eapply ensures_mono; [apply (emits_dropped s p DR_Unknown _ _ _ Hn)|]. intros n2 Hn2. en.
      eapply effect_set; [exact Hp|exact Hn2|by apply Hdis|done].
Qed.

Lemma closed_incoming_effect p c s b l n :
  peers n !! (p, s) = Some (Incoming b l) →
  ensures (closed_incoming clock p c s b l n) (effect p s (leaves c) n).
Proof.
  intros Hp. unfold closed_incoming. en.
  destruct (position c l) as [[pos st]|] eqn:Hpos; en. apply position_spec in Hpos as [Hpos _].
  assert (∀ x, conns_of (Some x) = delete pos l → open_of (Some x) = false →
    (any is_opening_or_open (delete pos l) = false → wf_state (Some x)) →
    local p s (leaves c) (Some (Incoming b l)) (Some x) []) as Hl.
  { intros x H1 H2 H3. eapply local_leave; [exact Hpos|done..| |].
    - intros [_ [Hw _]]. apply H3. by eapply any_delete_false.
    - intros _. by rewrite H2. }
  destruct (any is_desired (delete pos l)) eqn:Hdes; cbn [negb]; en.
  - destruct (bool_decide (length (delete pos l) = 0%nat)) eqn:Hlen.
    { apply delete_length_0 in Hlen. by rewrite Hlen in Hdes. }
    en. eapply effect_set; [exact Hp|apply emits_refl|by apply Hl|done].
  - destruct (kill_incoming p s (incoming_list n)) as [inc|] eqn:Hk; en. apply answered_kill in Hk.
    destruct (bool_decide (length (delete pos l) = 0%nat)) eqn:Hlen.
    + apply delete_length_0 in Hlen. destruct Hk as [E P R A]. rewrite app_nil_r in E.
      eapply back_off_or_forget_effect; [exact Hp|exact Hpos|done..| |].
      * intros k Hk. rewrite A, bool_decide_eq_false_2 by done. lia.
      * rewrite A, bool_decide_eq_true_2 by done. simpl. lia.
    + en. eapply effect_answer; [exact Hp|exact Hk|by apply Hl|done].
Qed.

Lemma closed_in_set_effect p c n s :
  ensures (closed_in_set clock ban_sample p c n s) (effect p s (leaves c) n).
Proof.
  unfold closed_in_set. pose proof (emits_refl n) as Hn.
  destruct (peers n !! (p, s)) as [[|timer d|timer d| |b l|timer d l|l|b l]|] eqn:Hp; en.
  - destruct (position c l) as [[pos st]|] eqn:Hpos; en. apply position_spec in Hpos as [Hpos _].
    destruct (bool_decide (length (delete pos l) = 0%nat)) eqn:Hlen; en.
    + apply delete_length_0 in Hlen. by eapply back_off_or_forget_effect; [exact Hp|exact Hpos|..].
    + eapply effect_set; [exact Hp|exact Hn| |done]. eapply local_leave; [exact Hpos|done|done|done| |done].
      intros [_ [H1 H2]]. split; by eapply any_delete_false.
  - destruct (position c l) as [[pos st]|] eqn:Hpos; en. apply position_spec in Hpos as [Hpos _].
    destruct (bool_decide (length (delete pos l) = 0%nat)) eqn:Hlen; en.
    + apply delete_length_0 in Hlen.
      eapply ensures_mono; [apply (emits_dropped s p DR_Unknown _ _ _ Hn)|]. intros n2 Hn2. en.
      eapply effect_set; [exact Hp|exact Hn2| |done]. by eapply local_leave_last; [exact Hpos|..].
    + eapply effect_set; [exact Hp|exact Hn| |done]. eapply local_leave; [exact Hpos|done|done|done| |done].
      intros [_ [H1 H2]]. split; by eapply any_delete_false.
  - by apply closed_enabled_effect.
  - by apply closed_incoming_effect.
Qed.

Lemma dial_failure_effect p n s :
  ensures (dial_failure_in_set clock p n s) (effect p s no_input n).
Proof.
  unfold dial_failure_in_set. pose proof (emits_refl n) as Hn.
  destruct (peers n !! (p, s)) as [[|timer d|timer d| |b l|timer d l|l|b l]|] eqn:Hp; en; try (by apply effect_id).
  all: eapply ensures_mono; [apply (emits_dropped s p DR_Unknown _ _ _ Hn)|]; intros n2 Hn2;
    apply emits_now in Hn2; destruct (now clock n2) as [t n3]; cbn [snd] in Hn2; en;
    (eapply ensures_mono; [by apply (emits_push_delay p s _ n [] n3)|]); intros [id n4] Hn4; en;
    (eapply effect_set; [exact Hp|exact Hn4|by apply local_rename|done]).
Qed.

(** *** Events of the connection handlers *)

(** What an event of its handler means for the state of a connection. *)
Definition handler_move (ev : NotifsHandlerOut NotificationsSink) (st : ConnectionState) : ConnectionState :=
  match ev, st with
  | Out_OpenDesiredByRemote _, Closed => OpenDesiredByRemote
  | Out_CloseResult _, Closing => Closed
  | Out_OpenResultOk _ _ _ sink, Opening => Open sink
  | Out_OpenResultErr _, Opening => Closed
  | (Out_OpenResultOk _ _ _ _ | Out_OpenResultErr _), OpeningThenClosing => Closing
  | _, _ => st
  end.

Definition event_input (c : nat) (ev : NotifsHandlerOut NotificationsSink) : input :=
  on_conn c (fmap (handler_move ev)).

Lemma local_ignored p s c ev o st :
  conn_at c (conns_of o) = Some st → handler_move ev st = st → local p s (event_input c ev) o o [].
Proof.
  intros Hc Hm. apply (local_event p s c _ (conns_of o) (conns_of o)); try done.
  - intros _ c'. case_decide; [|done]. subst c'. rewrite Hc. simpl. by rewrite Hm.
  - by intros [].
  - by intros ->.
Qed.

Lemma event_command_one p s c cmd (c' : nat) :
  commands p s c' ([NotifyHandler p c (to_command cmd s)] : list BehaviourAction) = if decide (c = c') then [cmd] else [].
Proof. apply commands_one. Qed.

(** Opening the connection that the remote wants open. *)
Lemma local_open_desired p s c pos l o :
  conns_of o = l → l !! pos = Some (c, Closed) → conn_at c l = Some Closed →
  any is_desired l = false ∨ ¬ wf_state o → o ≠ Some Poisoned →
  local p s (event_input c (Out_OpenDesiredByRemote s)) o (Some (Enabled (<[pos := (c, Opening)]> l))) [send_open p s c].
Proof.
  intros Hl Hpos Hc Hdes Hp.
  apply (local_event_command p s c _ l (<[pos := (c, Opening)]> l) _ _ _ Cmd_Open Opening); try done.
  - by eapply insert_ids.
  - by repeat constructor.
  - intros c'. apply (event_command_one p s c Cmd_Open c').
  - intros Hnd c'. by apply (insert_conn_at c c' pos Closed).
  - intros _. exists OpenDesiredByRemote. by rewrite Hc.
  - intros [_ Hw]. split; rewrite (insert_any _ pos c Closed) by done; [done|]. simpl.
    destruct Hdes as [Hdes|]; [|done]. by eapply any_delete_false.
  - intros Ho. rewrite (open_of_wf o Ho), open_of_Enabled, Hl, (insert_any _ pos c Closed) by done.
    by rewrite (delete_any _ pos c Closed l).
Qed.

Lemma on_open_desired_effect p c s n :
  ensures (on_open_desired clock p c s n) (effect p s (event_input c (Out_OpenDesiredByRemote s)) n).
Proof.
  unfold on_open_desired. pose proof (emits_refl n) as Hn. set (inp := event_input _ _).
  assert (∀ st, conn_at c (conns_of (peers n !! (p, s))) = Some st → st ≠ Closed → effect p s inp n n) as Hign.
  { intros st Hc Hne. eapply effect_same; [done|exact Hn|]. eapply local_ignored; [exact Hc|]. by destruct st. }
  assert (∀ l pos, conns_of (peers n !! (p, s)) = l → l !! pos = Some (c, Closed) → conn_at c l = Some Closed →
    any is_desired l = false ∨ ¬ wf_state (peers n !! (p, s)) → peers n !! (p, s) ≠ Some Poisoned →
    (∀ a, alive_ok (peers n !! (p, s)) a → a = 0%nat) →
    effect p s inp n (set_peer p s (Enabled (<[pos := (c, Opening)]> l)) (push_event (send_open p s c) n))) as Hopen.
  { intros l pos H1 H2 H3 H4 H5 H6. eapply effect_set; [done|by apply (emits_push [send_open p s c])| |by intros a _ ?%H6].
    by apply local_open_desired. }
  destruct (peers n !! (p, s)) as [[|timer d|timer d| |b l|timer d l|l|b l]|] eqn:Hp; en;
    destruct (position c l) as [[pos st]|] eqn:Hpos; en; apply position_spec in Hpos as [Hpos Hc];
    (destruct st; [|en; by eapply Hign..]).
  - (* Disabled => Incoming *)
    en. destruct (u64_add _ _); [|exact I]. cbn [ensures]. unfold peerset_incoming. en.
    apply ensures_true. intros ps. en.
    eapply (effect_intro p s inp n (with_incoming _ _ (with_peerset ps _)) _ [] _ (Some (Incoming b _)));
      [exact Hp|by rewrite app_nil_r|done|done| | | |done].
    + intros k Hk. simpl. rewrite alive_count_app, alive_count_cons. simpl.
      rewrite bool_decide_eq_false_2 by done. unfold alive_count at 2. simpl. lia.
    + intros Ha _. simpl in *. rewrite alive_count_app, alive_count_cons, Ha. simpl.
      by rewrite bool_decide_eq_true_2.
    + apply (local_event p s c _ l (<[pos := (c, OpenDesiredByRemote)]> l)); try done.
      * by eapply insert_ids.
      * intros Hnd c'. rewrite (insert_conn_at c c' pos Closed) by done. case_decide; [|done]. by rewrite Hc.
      * intros [_ [H1 H2]]. split; rewrite (insert_any _ pos c Closed) by done; [|done].
        simpl. by eapply any_delete_false.
  - destruct (any is_desired l) eqn:E.
    + apply Hopen; try done. right. simpl. by intros [_ ?]; congruence.
    + apply Hopen; auto.
  - destruct (any is_desired l) eqn:E.
    + apply Hopen; try done. right. simpl. by intros [_ ?]; congruence.
    + apply Hopen; auto.
  - eapply effect_set; [exact Hp|exact Hn| |done].
    apply (local_event p s c _ l (<[pos := (c, OpenDesiredByRemote)]> l)); try done.
    + by eapply insert_ids.
    + intros Hnd c'. rewrite (insert_conn_at c c' pos Closed) by done. case_decide; [|done]. by rewrite Hc.
    + intros [_ [H1 H2]]. split; rewrite (insert_any _ pos c Closed) by done; [|done].
      simpl. by eapply any_delete_false.
Qed.

(** Events that do not move a connection. *)
Lemma local_inert p s c ev o evs :
  (∀ st, handler_move ev st = st) → Forall (about p s) evs → (∀ c', commands p s c' evs = []) →
  session (p, s) evs (open_of o) = Some (open_of o) → (conns_of o = [] → forallb silent evs = true) →
  local p s (event_input c ev) o o evs.
Proof.
  intros Hm Hab Hcmd Hs Hq. split; [done|done|done| |auto|done].
  intros _ _ _ c'. rewrite Hcmd. unfold event_input, on_conn. simpl. f_equal.
  case_decide; [|done]. destruct (conn_at c' _); simpl; [|done]. by rewrite Hm.
Qed.

Lemma on_notification_effect p c s m n :
  ensures (on_notification p s m n) (effect p s (event_input c (Out_Notification s m)) n).
Proof.
  unfold on_notification. en. unfold is_open. fold (open_of (peers n !! (p, s))).
  destruct (open_of (peers n !! (p, s))) eqn:E.
  - eapply effect_same; [done|apply (emits_push [GenerateEvent (Notification p s m)]), emits_refl|].
    apply local_inert; [done|by repeat constructor|done|by rewrite E; simpl; rewrite decide_True|].
    destruct (peers n !! (p, s)) as [[]|]; try done. simpl. intros ->. done.
  - eapply effect_same; [done|apply emits_refl|by apply local_inert].
Qed.

(** A connection closed by an enabled peer at the request of its handler. *)
Lemma local_close_open p s c pos st l x :
  l !! pos = Some (c, st) → conn_at c l = Some st → is_open_state st = true →
  let l' := <[pos := (c, Closing)]> l in
  conns_of (Some x) = l' → open_of (Some x) = any is_open_state l' →
  (any is_desired l' = false → wf_state (Some x)) →
  local p s (event_input c (Out_CloseDesired s)) (Some (Enabled l)) (Some x) (send_close p s c :: sink_gone_events p s pos l').
Proof.
  intros Hpos Hc Hst l' Hx Ho Hw.
  apply (local_event_command p s c _ l l' _ _ _ Cmd_Close Closing); try done.
  - by eapply insert_ids.
  - by intros ->.
  - constructor; [done|apply sink_gone_about].
  - intros c'. change (?e :: ?evs) with ([e] ++ evs). rewrite commands_app, sink_gone_commands, app_nil_r.
    apply (event_command_one p s c Cmd_Close c').
  - intros Hnd c'. by apply (insert_conn_at c c' pos st).
  - intros _. exists st. rewrite Hc. by destruct st.
  - intros [_ [_ Hd]]. apply Hw. unfold l'. rewrite (insert_any _ pos c st) by done. simpl. by eapply any_delete_false.
  - intros _. rewrite open_of_Enabled, Ho, (delete_any _ pos c st l), Hst by done. simpl. apply sink_gone_session.
Qed.

Lemma on_close_desired_effect p c s n :
  ensures (on_close_desired clock p c s n) (effect p s (event_input c (Out_CloseDesired s)) n).
Proof.
  unfold on_close_desired. pose proof (emits_refl n) as Hn.
  assert (effect p s (event_input c (Out_CloseDesired s)) n n) as Hid
    by (eapply effect_same; [done|exact Hn|by apply local_inert]).
  assert (open_of (peers n !! (p, s)) = false →
    effect p s (event_input c (Out_CloseDesired s)) n (set_peer p s Poisoned n)) as Hpoison.
  { intros. eapply effect_set; [done|exact Hn|by apply local_poison|done]. }
  destruct (peers n !! (p, s)) as [[|timer d|timer d| |b l|timer d l|l|b l]|] eqn:Hp; en; try (by auto).
  destruct (position c l) as [[pos st]|] eqn:Hpos; en. apply position_spec in Hpos as [Hpos Hc].
  destruct (is_closing st); [en; done|]. en. set (l' := <[pos := (c, Closing)]> l) in *.
  pose proof (λ x, local_close_open p s c pos st l x Hpos Hc ltac:(done)) as Hl. cbv zeta in Hl. fold l' in Hl.
  pose proof (find_sink_any l') as Hfs.
  assert (emits n [send_close p s c] (push_event (send_close p s c) n)) as Hn1.
  { apply (emits_push [send_close p s c] n [] n Hn). }
  destruct (find_sink l') as [r|] eqn:Hs; en.
  - eapply effect_set; [exact Hp|apply (emits_push _ _ _ _ Hn1)|apply Hl|done]; [done|apply open_of_Enabled|].
    intros Hd. split; [|done]. eapply any_mono; [|exact Hfs]. by intros [].
  - destruct (any is_opening l') eqn:Hop; cbn [negb]; en.
    + assert (∀ n', push_events (sink_gone_events p s pos l') (set_peer p s (Enabled l') n') =
        set_peer p s (Enabled l') (push_events (sink_gone_events p s pos l') n')) as -> by done.
      eapply effect_set; [exact Hp|apply (emits_push _ _ _ _ Hn1)|apply Hl|done]; [done|apply open_of_Enabled|].
      intros Hd. split; [|done]. eapply any_mono; [|exact Hop]. by intros [].
    + eapply ensures_mono; [apply (emits_dropped s p DR_Refused _ _ _ Hn1)|]. intros n2 Hn2. en.
      assert (∀ n', push_events (sink_gone_events p s pos l') (set_peer p s (Disabled None l') n') =
        set_peer p s (Disabled None l') (push_events (sink_gone_events p s pos l') n')) as -> by done.
      eapply effect_set; [exact Hp|apply (emits_push _ _ _ _ Hn2)|apply Hl|done]; [done|by rewrite Hfs|].
      intros Hd. split; [|done]. unfold is_opening_or_open. by rewrite any_or, Hop, Hfs.
Qed.

(** *** Answers of the connection handlers *)

(** The answer moves the connection between states that look the same from
    outside. *)
Record silent_move (ev : NotifsHandlerOut NotificationsSink) (test : ConnectionState → bool) (new : ConnectionState) : Prop := {
  sm_move : ∀ st, test st = true → handler_move ev st = new;
  sm_same : ∀ st, test st = true → is_opening_or_open st = is_opening_or_open new ∧
              is_open_state st = is_open_state new ∧ is_desired st = is_desired new;
}.

Lemma move_connection_spec c ev test new l :
  silent_move ev test new →
  ensures (move_connection c test new l) (λ l',
    l'.*1 = l.*1 ∧
    (NoDup l.*1 → ∀ c', conn_at c' l' = if decide (c = c') then handler_move ev <$> conn_at c l else conn_at c' l) ∧
    any is_opening_or_open l' = any is_opening_or_open l ∧ any is_open_state l' = any is_open_state l ∧
    any is_desired l' = any is_desired l).
Proof.
  intros [Hm Hs]. unfold move_connection. destruct (update_first _ _ _) as [[c' l']|] eqn:Hu; [|done]. simpl.
  split_and!.
  - by eapply update_first_spec.
  - intros Hnd. destruct (update_first_conn_at _ _ _ _ _ Hnd Hu) as (st & Hc & [->%bool_decide_eq_true Ht]%andb_prop & Heq).
    intros c0. rewrite Heq. case_decide; [|done]. rewrite Hc. simpl. by rewrite Hm.
  - destruct (update_first_any is_opening_or_open _ _ _ _ _ Hu) as (st & b & [_ Ht]%andb_prop & -> & ->).
    by destruct (Hs st Ht) as (-> & _ & _).
  - destruct (update_first_any is_open_state _ _ _ _ _ Hu) as (st & b & [_ Ht]%andb_prop & -> & ->).
    by destruct (Hs st Ht) as (_ & -> & _).
  - destruct (update_first_any is_desired _ _ _ _ _ Hu) as (st & b & [_ Ht]%andb_prop & -> & ->).
    by destruct (Hs st Ht) as (_ & _ & ->).
Qed.

Lemma local_moved p s c ev l l' o o' :
  conns_of o = l → conns_of o' = l' → o ≠ Some Poisoned → l'.*1 = l.*1 →
  (NoDup l.*1 → ∀ c', conn_at c' l' = if decide (c = c') then handler_move ev <$> conn_at c l else conn_at c' l) →
  (wf_state o → wf_state o') → open_of o = open_of o' →
  local p s (event_input c ev) o o' [].
Proof.
  intros H1 H2 H3 H4 H5 H6 H7. apply (local_event p s c _ l l'); try done; [by intros [_ ?]; auto|].
  intros _. by rewrite H7.
Qed.

Lemma map_move_effect p s c ev test new x n :
  peers n !! (p, s) = Some x → silent_move ev test new →
  ensures (map_connections (move_connection c test new) x) (λ x', effect p s (event_input c ev) n (set_peer p s x' n)).
Proof.
  intros Hp Hsm. unfold map_connections.
  destruct x as [|timer d|timer d| |b l|timer d l|l|b l]; en;
    (eapply ensures_mono; [by apply (move_connection_spec c ev test new l)|]);
    intros l' (Hid & Hc & Hoo & Hop & Hde);
    (eapply effect_set; [exact Hp|apply emits_refl| |done]);
    apply (local_moved p s c ev l l'); try done; simpl; rewrite ?Hoo, ?Hde; try done.
  change (open_of (Some (Enabled l)) = open_of (Some (Enabled l'))). by rewrite !open_of_Enabled.
Qed.

Lemma on_close_result_effect p c s n :
  ensures (on_close_result p c s n) (effect p s (event_input c (Out_CloseResult s)) n).
Proof.
  unfold on_close_result. destruct (peers n !! (p, s)) as [x|] eqn:Hp; en.
  eapply ensures_mono; [apply (map_move_effect p s c (Out_CloseResult s) _ _ x n Hp)|done].
  split; by intros [].
Qed.

Lemma move_closing_silent s fb hs sink : silent_move (Out_OpenResultOk s fb hs sink) is_opening_then_closing Closing.
Proof. split; by intros []. Qed.
Lemma move_closing_silent_err s : silent_move (Out_OpenResultErr s) is_opening_then_closing Closing.
Proof. split; by intros []. Qed.

Lemma on_open_result_ok_effect p c s fb hs sink n :
  ensures (on_open_result_ok p c s fb hs sink n) (effect p s (event_input c (Out_OpenResultOk s fb hs sink)) n).
Proof.
  unfold on_open_result_ok. pose proof (move_closing_silent s fb hs sink) as Hsm.
  destruct (peers n !! (p, s)) as [x|] eqn:Hp; [|done].
  destruct x as [|timer d|timer d| |b l|timer d l|l|b l]; en;
    try (eapply ensures_mono; [by apply (map_move_effect p s c _ _ _ _ n Hp Hsm)|done]).
  destruct (update_first _ _ _) as [[c' l']|] eqn:Hu; en; cycle 1.
  { eapply ensures_mono; [by apply (move_connection_spec c _ _ _ l Hsm)|]. intros l' (Hid & Hc & Hoo & Hop & Hde). en.
    eapply effect_set; [exact Hp|apply emits_refl| |done].
    apply (local_moved p s c _ l l'); try done; simpl; rewrite ?Hoo, ?Hde; try done.
    change (open_of (Some (Enabled l)) = open_of (Some (Enabled l'))). by rewrite !open_of_Enabled. }
  set (evs := if any is_open_state l then [] else [GenerateEvent (CustomProtocolOpen p s fb hs sink)] : list BehaviourAction).
  assert (emits n evs (if negb (any is_open_state l) then push_event (GenerateEvent
            (CustomProtocolOpen p s fb hs sink)) n else n)) as Hn.
  { unfold evs. destruct (any is_open_state l); [apply emits_refl|].
    apply (emits_push [GenerateEvent (CustomProtocolOpen p s fb hs sink)] n [] n), emits_refl. }
  eapply effect_set; [exact Hp|exact Hn| |done].
  destruct (update_first_any is_opening_or_open _ _ _ _ _ Hu) as (_ & b1 & _ & _ & Hoo).
  destruct (update_first_any is_desired _ _ _ _ _ Hu) as (st2 & b2 & Ht2 & Hde & Hde').
  destruct (update_first_any is_open_state _ _ _ _ _ Hu) as (_ & b3 & _ & _ & Hop).
  apply (local_event p s c _ l l'); try done.
  - by eapply update_first_spec.
  - by intros ->.
  - unfold evs. destruct (any is_open_state l); by repeat constructor.
  - unfold evs. by destruct (any is_open_state l).
  - intros Hnd. destruct (update_first_conn_at _ _ _ _ _ Hnd Hu) as (st & Hc & [->%bool_decide_eq_true Ht]%andb_prop & Heq).
    intros c0. rewrite Heq. case_decide; [|done]. rewrite Hc. simpl. by destruct st.
  - intros [_ [_ Hw]]. split; [by rewrite Hoo|]. rewrite Hde in Hw. apply orb_false_iff in Hw as [_ ->]. by rewrite Hde'.
  - intros _. rewrite !open_of_Enabled, Hop. unfold evs. simpl.
    destruct (any is_open_state l); simpl; by rewrite ?decide_True.
Qed.

Lemma on_open_result_err_effect p c s n :
  ensures (on_open_result_err clock ban_sample p c s n) (effect p s (event_input c (Out_OpenResultErr s)) n).
Proof.
  unfold on_open_result_err. pose proof (move_closing_silent_err s) as Hsm.
  destruct (peers n !! (p, s)) as [x|] eqn:Hp; [|done].
  destruct x as [|timer d|timer d| |b l|timer d l|l|b l]; en;
    try (eapply ensures_mono; [by apply (map_move_effect p s c _ _ _ _ n Hp Hsm)|done]).
  apply (ensures_mono _ (λ l', l'.*1 = l.*1 ∧
    (NoDup l.*1 → ∀ c', conn_at c' l' = if decide (c = c') then handler_move (Out_OpenResultErr s) <$> conn_at c l else conn_at c' l) ∧
    any is_open_state l' = any is_open_state l ∧ (any is_desired l = false → any is_desired l' = false))).
  { destruct (update_first _ _ _) as [[c' l']|] eqn:Hu; en.
    - split_and!; [by eapply update_first_spec| | |].
      + intros Hnd. destruct (update_first_conn_at _ _ _ _ _ Hnd Hu) as (st & Hc & [->%bool_decide_eq_true Ht]%andb_prop & Heq).
        intros c0. rewrite Heq. case_decide; [|done]. rewrite Hc. simpl. by destruct st.
      + destruct (update_first_any is_open_state _ _ _ _ _ Hu) as (st & b3 & [_ Ht]%andb_prop & -> & ->). by destruct st.
      + destruct (update_first_any is_desired _ _ _ _ _ Hu) as (st & b3 & [_ Ht]%andb_prop & -> & ->). by destruct st.
    - eapply ensures_mono; [by apply (move_connection_spec c _ _ _ l Hsm)|]. intros l' (Hid & Hc & Hoo & Hop & Hde).
      split_and!; [done..|by rewrite Hde]. }
  intros l' (Hid & Hc & Hop & Hde).
  destruct (any is_opening_or_open l') eqn:Hoo; cbn [negb]; en.
  - eapply effect_set; [exact Hp|apply emits_refl| |done].
    apply (local_moved p s c _ l l'); try done; [intros [_ ?]; split; auto|by rewrite !open_of_Enabled].
  - eapply ensures_mono; [apply (emits_dropped s p DR_Refused _ _ _ (emits_refl n))|]. intros n2 Hn2.
    cbn [sample_ban]. assert (emits n [] (with_samples (S (samples n2)) n2)) as Hn3.
    { eapply emits_then; [exact Hn2|]. by apply emits_quiet. }
    apply emits_now in Hn3. unfold sample_ban. destruct (now clock _) as [t n3]. cbn [snd] in Hn3. en.
    eapply effect_set; [exact Hp|exact Hn3| |done].
    apply (local_moved p s c _ l l'); try done; [intros [_ ?]; split; auto|].
    rewrite open_of_Enabled, <- Hop. by apply any_open_opening_or_open.
Qed.

(** The set an event of a handler is about. *)
Definition event_set (ev : NotifsHandlerOut NotificationsSink) : nat :=
  match ev with
  | Out_OpenResultOk s _ _ _ | Out_OpenResultErr s | Out_CloseResult s
  | Out_OpenDesiredByRemote s | Out_CloseDesired s | Out_Notification s _ => s
  end.

Lemma handler_event_effect p c ev n :
  ensures (on_connection_handler_event clock ban_sample p c ev n) (effect p (event_set ev) (event_input c ev) n).
Proof.
  destruct ev; simpl; [apply on_open_result_ok_effect|apply on_open_result_err_effect|apply on_close_result_effect
    |apply on_open_desired_effect|apply on_close_desired_effect|apply on_notification_effect].
Qed.

(** *** Timers *)

Lemma on_delay_effect d n n1 :
  emits n [] n1 → ensures (on_delay clock d n1) (effect (delay_peer d) (delay_set d) no_input n).
Proof.
  intros Hn. unfold on_delay. set (p := delay_peer d). set (s := delay_set d).
  rewrite (em_peers _ _ _ Hn).
  destruct (peers n !! (p, s)) as [[|timer t|timer t| |b l|timer t l|l|b l]|] eqn:Hp; en; try (by apply effect_id).
  - destruct (timer =? delay_id d); [|by apply effect_id].
    eapply effect_remove; [exact Hp|exact Hn|by apply local_rename|done].
  - destruct (timer =? delay_id d); [|by apply effect_id].
    eapply effect_set; [exact Hp|apply (emits_push [Dial p (new_handler n1)]), Hn|by apply local_dial|done].
  - destruct (timer =? delay_id d); en; [|by apply effect_id].
    destruct (update_first _ _ _) as [[c l']|] eqn:Hu; en.
    + eapply effect_set; [exact Hp|apply (emits_push [send_open p s c] n [] n1 Hn)| |done].
      eapply local_open_closed; [right; eauto|done].
    + apply emits_now in Hn. destruct (now clock n1) as [t' n2]. cbn [snd] in Hn. en.
      assert (∀ x y, with_delays x y (set_peer p s (DisabledPendingEnable timer (t' + from_secs 5) l) n2) =
        set_peer p s (DisabledPendingEnable timer (t' + from_secs 5) l) (with_delays x y n2)) as -> by done.
      eapply effect_set; [exact Hp| |by apply local_rename|done].
      eapply emits_then; [exact Hn|]. by apply emits_quiet.
Qed.
End steps.
