(* ===== verification/NotificationsPoll.v ===== *)
(** * The notifications behaviour: [poll] terminates

    The loop of [poll] over the messages of the peer set manager ends: an
    iteration takes a message off the queue of the manager, or processes at
    least one of the actions sent to it, and what the behaviour does with the
    message adds to neither. *)

From S2P Require Import Prelude PeersState Peerset Notifications NotificationsFacts NotificationsSteps.
Import Behaviour.

(** ** Which handlers of the peer set manager touch its queues *)
Section queues.
Context {PeerId : Type} `{Countable PeerId, !HashOrder PeerId}.
Context (clock : nat → Instant) (delay_ready : Instant → Instant → bool).
Implicit Types (ps : Peerset PeerId) (p : PeerId).

(** [walk]: explore the branches of a handler whose calls are irrelevant. *)
Ltac walk :=
  repeat lazymatch goal with
  | |- ensures (mret _) _ => cbn [ensures mret outcome_ret]
  | |- ensures (Panicked _) _ => exact I
  | |- ensures (if ?b then _ else _) _ => destruct b
  | |- ensures (match ?x with _ => _ end) _ => destruct x
  | |- ensures (mbind _ _) _ => apply ensures_bind
  | |- ensures _ _ => apply ensures_true; intros ?
  end.

Definition same_rx (ps ps' : Peerset PeerId) : Prop := rx ps' = rx ps.
Definition same_queues (ps ps' : Peerset PeerId) : Prop :=
  rx ps' = rx ps ∧ message_queue ps' = message_queue ps.

Lemma on_add_reserved_peer_rx i p ps : ensures (on_add_reserved_peer i p ps) (same_rx ps).
Proof. unfold on_add_reserved_peer. walk; done. Qed.
Lemma on_remove_reserved_peer_rx i p ps : ensures (on_remove_reserved_peer clock i p ps) (same_rx ps).
Proof. unfold on_remove_reserved_peer, read_clock. walk; done. Qed.
Lemma on_remove_from_peers_set_rx i p ps : ensures (on_remove_from_peers_set clock i p ps) (same_rx ps).
Proof. unfold on_remove_from_peers_set, read_clock. walk; done. Qed.
Lemma update_time_queues ps : ensures (update_time clock ps) (same_queues ps).
Proof. unfold update_time, read_clock. walk; done. Qed.

Lemma handle_action_rx x ps : ensures (handle_action clock x ps) (same_rx ps).
Proof.
  destruct x as [i p|i p|i l|i b|p c|i p|i p|p k|p]; simpl.
  - apply on_add_reserved_peer_rx.
  - apply on_remove_reserved_peer_rx.
  - unfold on_set_reserved_peers. apply ensures_bind, ensures_true. intros r. apply ensures_bind.
    eapply ensures_mono; [apply (ensures_for_each _ (same_rx ps)); [done|]|].
    + intros q ps' E. eapply ensures_mono; [apply on_add_reserved_peer_rx|]. unfold same_rx. congruence.
    + intros ps1 E1. apply ensures_for_each; [done|].
      intros q ps' E. eapply ensures_mono; [apply on_remove_reserved_peer_rx|]. unfold same_rx in *. congruence.
  - unfold on_set_reserved_only. apply ensures_bind, ensures_true. intros r. apply ensures_bind, ensures_true.
    intros rs. destruct b; [|done]. apply ensures_bind, ensures_true. intros l. apply ensures_for_each; [done|].
    intros q ps' E. unfold disconnect_unless_reserved, read_clock. walk; done.
  - unfold on_report_peer. apply ensures_bind. eapply ensures_mono; [apply update_time_queues|]. intros ps1 [E1 _].
    apply ensures_bind, ensures_true. intros r. apply ensures_bind, ensures_true. intros v.
    apply ensures_bind, ensures_true. intros d. destruct (_ <=? v); [done|]. apply ensures_for_each; [done|].
    intros j ps' E. unfold drop_if_connected, read_clock. walk; done.
  - unfold add_to_peers_set, read_clock. walk; done.
  - apply on_remove_from_peers_set_rx.
  - unfold on_peer_reputation. walk; done.
  - done.
Qed.

Lemma dropped_unknown_queues i p ps : ensures (dropped clock i p DR_Unknown ps) (same_queues ps).
Proof.
  unfold dropped. apply ensures_bind. eapply ensures_mono; [apply update_time_queues|]. intros ps1 [E1 E2].
  apply ensures_bind, ensures_true. intros e. apply ensures_bind. unfold read_clock.
  destruct e; walk; done.
Qed.

Lemma poll_periodic_queues ps : same_queues ps (poll_periodic clock delay_ready ps).
Proof.
  unfold poll_periodic, read_clock. simpl. destruct (delay_ready _ _); [|done].
  assert (∀ l ps0, foldl (λ ps (set_index : nat), alloc_slots set_index ps) ps0 l = ps0) as -> by (by induction l).
  done.
Qed.

(** A call of [poll_next] that yields a message makes progress. *)
Definition progress (ps ps' : Peerset PeerId) : Prop :=
  (length (rx ps') < length (rx ps))%nat ∨
  rx ps' = rx ps ∧ (length (message_queue ps') < length (message_queue ps))%nat.

Lemma poll_loop_progress fuel ps :
  (length (rx ps) < fuel)%nat →
  ensures (poll_loop clock delay_ready fuel ps) (λ r,
    match r with
    | Polled (Some _) ps' => progress ps ps'
    | Polled None _ => True
    | OutOfFuel => False
    end).
Proof.
  revert ps. induction fuel as [|fuel IH]; intros ps Hf; [lia|]. simpl.
  destruct (message_queue ps) as [|m q] eqn:Hq; simpl.
  2: { right. simpl. rewrite Hq. simpl. split; [done|lia]. }
  destruct (poll_periodic_queues ps) as [Hrx1 _]. rewrite Hrx1.
  destruct (rx ps) as [|x q] eqn:Hrx; [done|]. simpl in Hf.
  apply ensures_bind. eapply ensures_mono; [apply handle_action_rx|]. intros ps2 E2. simpl in E2.
  unfold same_rx in E2. simpl in E2.
  eapply ensures_mono; [apply IH; rewrite E2; lia|]. intros [[m|] ps'|] Hp; try done.
  left. rewrite Hrx. simpl. destruct Hp as [Hp|[Hp _]]; rewrite E2 in Hp; [lia|by rewrite Hp; lia].
Qed.
End queues.

Section poll.
Context {PeerId : Type} `{Countable PeerId, !HashOrder PeerId} {NotificationsSink : Type}.
Context (clock : nat → Instant) (delay_ready : Instant → Instant → bool).
Implicit Types (n : Notifications PeerId NotificationsSink) (p : PeerId) (s : nat).

Definition same_peerset_queues n n' : Prop := same_queues (peerset n) (peerset n').

Lemma peerset_dropped_queues s p n n0 :
  same_peerset_queues n0 n → ensures (peerset_dropped clock s p DR_Unknown n) (same_peerset_queues n0).
Proof.
  intros [E1 E2]. unfold peerset_dropped. apply ensures_bind.
  eapply ensures_mono; [apply dropped_unknown_queues|]. intros ps [E3 E4]. simpl.
  split; simpl; congruence.
Qed.

Lemma enable_disabled_queues p s t b l n n0 :
  same_peerset_queues n0 n → ensures (enable_disabled p s t b l n) (same_peerset_queues n0).
Proof.
  intros E. unfold enable_disabled. apply ensures_bind, ensures_true. intros _.
  destruct (update_first _ _ _) as [[c l']|]; [done|].
  apply ensures_bind, ensures_true. intros _. apply ensures_bind. unfold push_delay. apply ensures_bind, ensures_true.
  intros next. done.
Qed.

Lemma enable_incoming_queues p s l n n0 :
  same_peerset_queues n0 n → ensures (enable_incoming p s l n) (same_peerset_queues n0).
Proof.
  intros E. unfold enable_incoming. apply ensures_bind, ensures_true. intros _.
  by destruct (notify_filtered _ _ _ _).
Qed.

Lemma on_peerset_message_queues m n : ensures (on_peerset_message clock m n) (same_peerset_queues n).
Proof.
  assert (same_peerset_queues n n) as Hn by done.
  destruct m as [s p|s p|i|i]; simpl.
  - unfold peerset_report_connect. destruct (peers n !! (p, s)) as [x|]; [|done].
    assert (same_peerset_queues n (now clock n).2) as H1 by done.
    destruct (now clock n) as [t n1]. cbn [snd] in H1.
    destruct x as [| | | |[b|] l| | |]; try done.
    + by destruct (t <? _).
    + destruct (t <? b); [|by apply enable_disabled_queues].
      apply ensures_bind. unfold push_delay. apply ensures_bind, ensures_true. done.
    + by apply enable_disabled_queues.
    + apply enable_incoming_queues. by destruct (kill_incoming _ _ _).
  - unfold peerset_report_disconnect. destruct (peers n !! (p, s)) as [[]|]; try done.
    + apply ensures_bind, ensures_true. done.
    + apply ensures_bind, ensures_true. intros _.
      destruct (notify_filtered is_opening _ (send_close p s) _) as [l1 e1].
      by destruct (notify_filtered is_open_state _ (send_close p s) l1).
  - unfold peerset_report_accept. destruct (take_incoming _ _) as [[inc rest]|]; [|done].
    destruct (ip_alive inc); simpl.
    + destruct (peers n !! _) as [[]|]; try done. by apply enable_incoming_queues.
    + destruct (peers n !! _) as [[]|]; try done; by apply peerset_dropped_queues.
  - unfold peerset_report_reject. destruct (take_incoming _ _) as [[inc rest]|]; [|done].
    destruct (ip_alive inc); simpl; [|done].
    destruct (peers n !! _) as [[]|]; try done. apply ensures_bind, ensures_true. done.
Qed.

(** More fuel than needed changes nothing. *)
Lemma poll_peerset_enough n :
  ∃ fuel, ∀ extra, poll_peerset clock delay_ready (fuel + extra) n = poll_peerset clock delay_ready fuel n ∧
    poll_peerset clock delay_ready fuel n ≠ Done None.
Proof.
  remember (length (rx (peerset n))) as a eqn:Ha. remember (length (message_queue (peerset n))) as b eqn:Hb.
  revert b n Ha Hb. induction (lt_wf a) as [a _ IHa]. intros b. induction (lt_wf b) as [b _ IHb]. intros n Ha Hb.
  pose proof (poll_loop_progress clock delay_ready (S (length (rx (peerset n)))) (peerset n) ltac:(lia)) as Hp.
  fold (poll_next clock delay_ready (peerset n)) in Hp.
  destruct (poll_next clock delay_ready (peerset n)) as [[[m|] ps|]|w] eqn:E; simpl in Hp; [| |done|].
  - pose proof (on_peerset_message_queues m (with_peerset ps n)) as Hm.
    destruct (on_peerset_message clock m (with_peerset ps n)) as [n1|w] eqn:E1; cycle 1.
    { exists 1%nat. intros extra. simpl. by rewrite E; simpl; rewrite E1. }
    destruct Hm as [R1 Q1]. simpl in R1, Q1.
    assert (∃ fuel, ∀ extra, poll_peerset clock delay_ready (fuel + extra) n1 = poll_peerset clock delay_ready fuel n1 ∧
      poll_peerset clock delay_ready fuel n1 ≠ Done None) as [fuel Hfuel].
    { destruct Hp as [Hp|[Hp1 Hp2]].
      - eapply (IHa (length (rx (peerset n1)))); [rewrite R1; lia|done..].
      - eapply (IHb (length (message_queue (peerset n1)))); [rewrite Q1; lia|congruence|done]. }
    exists (S fuel). intros extra. simpl. rewrite E. simpl. rewrite E1. simpl. apply Hfuel.
  - exists 1%nat. intros extra. simpl. by rewrite E.
  - exists 1%nat. intros extra. simpl. by rewrite E.
Qed.
End poll.
