(* ===== verification/NotificationsTheorems.v ===== *)
(** * The notifications behaviour: theorems

    The claims about [Behaviour]: what the external API sees, what the
    connection handlers are told, the invariant of the peers, and the bugs the
    model exhibits. *)

From S2P Require Import Prelude PeersState Peerset Notifications NotificationsFacts NotificationsSteps NotificationsPoll.
Import Behaviour.

Section theorems.
Context {PeerId : Type} `{Countable PeerId, !HashOrder PeerId} {NotificationsSink : Type}.
Context (clock : nat → Instant) (delay_ready : Instant → Instant → bool) (ban_sample : nat → Z).
Abbreviation Notifications := (Notifications PeerId NotificationsSink).
Abbreviation PeerState := (PeerState NotificationsSink).
Abbreviation ConnectionState := (ConnectionState NotificationsSink).
Abbreviation BehaviourAction := (BehaviourAction PeerId NotificationsSink).
Implicit Types (p : PeerId) (s c : nat) (n : Notifications) (evs : list BehaviourAction).

(** ** The calls of the swarm and of the API, and the instructions sent to the
    peer set manager through its handle *)
Inductive op :=
  | DisconnectPeer (p : PeerId) (s : nat)
  | ConnectionEstablished (p : PeerId) (c : nat)
  | ConnectionClosed (p : PeerId) (c : nat)
  | DialFailure (p : option PeerId)
  | HandlerEvent (p : PeerId) (c : nat) (ev : NotifsHandlerOut NotificationsSink)
  | PeersetSend (x : Action PeerId)
  | Poll (fuel : nat) (fired : list nat).

(** The actions handed to the swarm and the next state; [None] when the fuel of
    [poll] runs out. *)
Definition called (m : outcome Notifications) : outcome (option (list BehaviourAction * Notifications)) :=
  n ← m; mret (Some ([], n)).

Definition run_op (o : op) (n : Notifications) : outcome (option (list BehaviourAction * Notifications)) :=
  match o with
  | DisconnectPeer p s => called (disconnect_peer clock p s n)
  | ConnectionEstablished p c => called (on_connection_established p c n)
  | ConnectionClosed p c => called (on_connection_closed clock ban_sample p c n)
  | DialFailure p => called (on_dial_failure clock p n)
  | HandlerEvent p c ev => called (on_connection_handler_event clock ban_sample p c ev n)
  | PeersetSend x => mret (Some ([], with_peerset (unbounded_send x (peerset n)) n))
  | Poll fuel fired =>
      r ← poll clock delay_ready fuel fired n;
      mret (match r with Some (action, n) => Some (option_list action, n) | None => None end)
  end.

(** What has happened to the connections when the behaviour is called. *)
Definition op_input (o : op) (protocols : nat) (p : PeerId) (s : nat) : input :=
  match o with
  | ConnectionEstablished p' c => if decide (p = p' ∧ s < protocols)%nat then joins c else no_input
  | ConnectionClosed p' c => if decide (p = p' ∧ s < protocols)%nat then leaves c else no_input
  | HandlerEvent p' c ev => if decide ((p, s) = (p', event_set ev)) then event_input c ev else no_input
  | DisconnectPeer _ _ | DialFailure _ | PeersetSend _ | Poll _ _ => no_input
  end.

(** A new connection has a new identifier. *)
Definition op_ok (o : op) (n : Notifications) : Prop :=
  match o with
  | ConnectionEstablished p c => ∀ s, c ∉ ids (peers n !! (p, s))
  | _ => True
  end.

Definition healthy (n : Notifications) : Prop := ∀ k, peers n !! k ≠ Some Poisoned.

Record ninv (n : Notifications) : Prop := {
  ni_wf : ∀ k, wf_entry (peers n !! k);
  ni_alive : alive_inv n;
}.

(** ** Composing effects *)

(** Nothing is said to the API about [k]. *)
Definition unheard (k : PeerId * nat) (evs : list BehaviourAction) : Prop :=
  Forall (λ e, match e with GenerateEvent ev => event_key ev ≠ k | _ => True end) evs.

Lemma unheard_silent k evs : forallb silent evs = true → unheard k evs.
Proof.
  unfold unheard. induction evs as [|e evs IH]; simpl; [by constructor|]. intros [He Hev]%andb_prop.
  constructor; [by destruct e|auto].
Qed.

Lemma unheard_about p s k evs : Forall (about p s) evs → k ≠ (p, s) → unheard k evs.
Proof. intros Hf Hk. eapply Forall_impl; [exact Hf|]. intros [ev|p' h|p' c x] Ha; simpl in *; [congruence|done..]. Qed.

(** What an operation does to one entry, whoever else it concerns. *)
Record seen (p : PeerId) (s : nat) (inp : input) (o o' : option PeerState) (evs : list BehaviourAction) : Prop := {
  se_session : session (p, s) evs (open_of o) = Some (open_of o');
  se_conns : o ≠ Some Poisoned → o' ≠ Some Poisoned → ∀ c,
    obey_all (commands p s c evs) (inp c (conn_at c (conns_of o))) = Some (conn_at c (conns_of o'));
  se_sticky : o = Some Poisoned → o' = Some Poisoned ∨ inp ≠ no_input;
  se_quiet : conns_of o = [] → o ≠ Some Poisoned → o' ≠ Some Poisoned → (∀ c, inp c None = None) → unheard (p, s) evs;
}.

(** Without connections, and when none joins, there are none afterwards. *)
Lemma seen_no_conns p s inp o o' evs :
  seen p s inp o o' evs → conns_of o = [] → o ≠ Some Poisoned → o' ≠ Some Poisoned → (∀ c, inp c None = None) →
  conns_of o' = [].
Proof.
  intros [_ C _ _] E H1 H2 Hi. destruct (conns_of o') as [|[c st] l] eqn:E'; [done|].
  specialize (C H1 H2 c). rewrite E, ?E', Hi, conn_at_cons in C. simpl in C. rewrite decide_True in C by done.
  by destruct (commands p s c evs).
Qed.

Record conforms (inp : PeerId → nat → input) (n n' : Notifications) : Prop := {
  co_protocols : notif_protocols n' = notif_protocols n;
  co_wf : ∀ k, wf_entry (peers n' !! k);
  co_events : ∃ evs, events n' = events n ++ evs ∧
    ∀ p s, seen p s (inp p s) (peers n !! (p, s)) (peers n' !! (p, s)) evs;
}.

Lemma seen_untouched p s p' s' evs o :
  Forall (about p' s') evs → (p, s) ≠ (p', s') → seen p s no_input o o evs.
Proof.
  intros Hab Hne. split; [by apply (session_other p' s')| |auto|].
  - intros _ _ c. by rewrite (commands_other p' s').
  - intros _ _ _ _. by apply (unheard_about p' s').
Qed.

Lemma seen_trans p s inp o1 o2 o3 evs1 evs2 :
  seen p s inp o1 o2 evs1 → seen p s no_input o2 o3 evs2 → seen p s inp o1 o3 (evs1 ++ evs2).
Proof.
  intros Hs1 Hs2. pose proof Hs1 as [S1 C1 T1 Q1]. pose proof Hs2 as [S2 C2 T2 Q2].
  assert (o3 ≠ Some Poisoned → o2 ≠ Some Poisoned) as H2 by (intros ? E; by destruct (T2 E)). split.
  - by rewrite session_app, S1.
  - intros H1 H3 c. rewrite commands_app, obey_all_app, C1 by auto. simpl. by apply C2; auto.
  - intros E. destruct (T1 E) as [E2|]; [|auto]. destruct (T2 E2); [auto|done].
  - intros E H1 H3 Hi. apply Forall_app. split; [by apply Q1; auto|]. apply Q2; auto.
    eapply seen_no_conns; eauto.
Qed.

(** The same when the input comes second. *)
Lemma seen_trans_r p s inp o1 o2 o3 evs1 evs2 :
  seen p s no_input o1 o2 evs1 → seen p s inp o2 o3 evs2 → o2 ≠ Some Poisoned ∨ o1 = o2 →
  (∀ c, commands p s c evs1 = [] ∧ conn_at c (conns_of o1) = conn_at c (conns_of o2)) →
  seen p s inp o1 o3 (evs1 ++ evs2).
Proof.
  intros Hs1 [S2 C2 T2 Q2] Hp Hc. pose proof Hs1 as [S1 C1 T1 Q1]. split.
  - by rewrite session_app, S1.
  - intros H1 H3 c. destruct (Hc c) as [E1 E2]. rewrite commands_app, E1, E2. apply C2; [|done].
    destruct Hp; congruence.
  - intros E. destruct (T1 E) as [E2|]; [|done]. auto.
  - intros E H1 H3 Hi. assert (o2 ≠ Some Poisoned) as H2 by (destruct Hp; congruence).
    apply Forall_app. split; [by apply Q1|]. apply Q2; auto. by eapply seen_no_conns.
Qed.

Lemma conforms_emits n n' : ninv n → emits n [] n' → conforms (λ _ _, no_input) n n'.
Proof.
  intros Hi [E P R A]. split; [done|by intros k; rewrite P; apply Hi|].
  exists []. split; [done|]. intros p s. rewrite P. split; [done|done|auto|by constructor].
Qed.

Lemma conforms_effect p s inp n n' :
  (∀ k, wf_entry (peers n !! k)) → effect p s inp n n' →
  conforms (λ p' s', if decide ((p', s') = (p, s)) then inp else no_input) n n'.
Proof.
  intros Hw [R O (evs & E & [Hab Hwf Hs Hc Ht Hq]) _ _]. split; [done| |].
  - intros k. destruct (decide (k = (p, s))) as [->|Hk]; [by apply Hwf|]. by rewrite O.
  - exists evs. split; [done|]. intros p' s'. case_decide as D.
    + injection D as -> ->. split; auto. intros. by apply unheard_silent, Hq.
    + rewrite O by done. by apply (seen_untouched _ _ p s).
Qed.

Lemma conforms_trans n1 n2 n3 :
  conforms (λ _ _, no_input) n1 n2 → conforms (λ _ _, no_input) n2 n3 → conforms (λ _ _, no_input) n1 n3.
Proof.
  intros [R1 W1 (e1 & E1 & S1)] [R2 W2 (e2 & E2 & S2)]. split; [congruence|done|].
  exists (e1 ++ e2). split; [by rewrite E2, E1, app_assoc|]. intros p s. by eapply seen_trans.
Qed.

(** *** The live requests *)

Lemma alive_effect p s inp n n' :
  alive_inv n → peers n !! (p, s) ≠ Some Poisoned ∨ inp = no_input → effect p s inp n n' → alive_inv n'.
Proof.
  intros Ha Hh [_ O (evs & _ & Hl) Ao As] k. destruct (decide (k = (p, s))) as [->|Hk].
  - specialize (Ha (p, s)). destruct (peers n !! (p, s)) as [[]|] eqn:E; try by apply As.
    destruct Hh as [Hh| ->]; [done|].
    by destruct (lo_sticky _ _ _ _ _ _ Hl eq_refl) as [->|].
  - rewrite O, Ao by done. apply Ha.
Qed.

(** *** Loops over the sets *)

Definition about_sets (p : PeerId) (L : list nat) (e : BehaviourAction) : Prop := ∃ s, s ∈ L ∧ about p s e.

Lemma seen_untouched_sets p s p' L evs o :
  Forall (about_sets p' L) evs → (∀ s', s' ∈ L → (p, s) ≠ (p', s')) → seen p s no_input o o evs.
Proof.
  intros Hab Hne. induction Hab as [|e evs (s' & Hs' & He) _ IH].
  { split; [done|done|auto|by constructor]. }
  change (e :: evs) with ([e] ++ evs). eapply seen_trans; [|exact IH].
  apply (seen_untouched _ _ p' s'); [by repeat constructor|by apply Hne].
Qed.

Record looped (p : PeerId) (L : list nat) (inp : input) (n n' : Notifications) : Prop := {
  lp_protocols : notif_protocols n' = notif_protocols n;
  lp_wf : ∀ k, wf_entry (peers n' !! k);
  lp_alive : alive_inv n';
  lp_others : ∀ k, (∀ s, s ∈ L → k ≠ (p, s)) → peers n' !! k = peers n !! k;
  lp_events : ∃ evs, events n' = events n ++ evs ∧ Forall (about_sets p L) evs ∧
    ∀ s, s ∈ L → seen p s inp (peers n !! (p, s)) (peers n' !! (p, s)) evs;
}.

Lemma seen_effect p s inp n n' :
  (∀ k, wf_entry (peers n !! k)) → effect p s inp n n' →
  (∀ k, wf_entry (peers n' !! k)) ∧
  ∃ evs, events n' = events n ++ evs ∧ Forall (about p s) evs ∧
    seen p s inp (peers n !! (p, s)) (peers n' !! (p, s)) evs.
Proof.
  intros Hw [R O (evs & E & [Hab Hwf Hs Hc Ht Hq]) _ _]. split.
  - intros k. destruct (decide (k = (p, s))) as [->|Hk]; [by apply Hwf|]. by rewrite O.
  - exists evs. split_and!; [done..|]. split; auto. intros. by apply unheard_silent, Hq.
Qed.

Lemma for_sets_looped (f : Notifications → nat → outcome Notifications) p inp L n :
  NoDup L → ninv n → (∀ s, s ∈ L → peers n !! (p, s) ≠ Some Poisoned ∨ inp = no_input) →
  (∀ s n', s ∈ L → peers n' !! (p, s) = peers n !! (p, s) → ensures (f n' s) (effect p s inp n')) →
  ensures (for_each f L n) (looped p L inp n).
Proof.
  revert n. induction L as [|s0 L IH]; intros n Hnd [Hw Ha] Hh Hf.
  { split; try done. exists []. split_and!; [by rewrite app_nil_r|done|set_solver]. }
  apply NoDup_cons in Hnd as [Hs0 Hnd]. simpl. apply ensures_bind.
  eapply ensures_mono; [apply Hf; [set_solver|done]|]. intros n1 Hef.
  pose proof (alive_effect _ _ _ _ _ Ha (Hh s0 ltac:(set_solver)) Hef) as Ha1.
  destruct (seen_effect _ _ _ _ _ Hw Hef) as (Hw1 & e1 & E1 & Hab1 & Hs1).
  pose proof (ef_others _ _ _ _ _ Hef) as Ho1. pose proof (ef_protocols _ _ _ _ _ Hef) as Hp1.
  assert (∀ s, s ∈ L → peers n1 !! (p, s) = peers n !! (p, s)) as Hsame.
  { intros s Hs. apply Ho1. intros [= ->]. done. }
  eapply ensures_mono; [apply IH; [done|by split| |]|].
  - intros s Hs. rewrite Hsame by done. apply Hh. set_solver.
  - intros s n' Hs Hn'. apply Hf; [set_solver|]. by rewrite Hn', Hsame.
  - intros n2 [R2 W2 A2 O2 (e2 & E2 & Hab2 & Hs2)]. split; try done.
    + congruence.
    + intros k Hk. rewrite O2 by set_solver. apply Ho1. apply Hk. set_solver.
    + exists (e1 ++ e2). split_and!.
      * by rewrite E2, E1, app_assoc.
      * apply Forall_app. split; [eapply Forall_impl; [exact Hab1|]|eapply Forall_impl; [exact Hab2|]].
        -- intros e He. exists s0. split; [set_solver|done].
        -- intros e (s & ? & ?). exists s. split; [set_solver|done].
      * intros s [->|Hs]%elem_of_cons.
        -- eapply seen_trans; [exact Hs1|]. rewrite O2 by (intros s' Hs' [= ->]; done).
           apply (seen_untouched_sets _ _ p L); [done|]. intros s' Hs' [= ->]. done.
        -- eapply (seen_trans_r _ _ _ _ (peers n !! (p, s))); [|by rewrite <- Hsame; auto|auto|].
           ++ apply (seen_untouched _ _ p s0); [done|]. intros [= ->]. done.
           ++ intros c. split; [|done]. apply (commands_other p s0); [done|]. intros [= ->]. done.
Qed.

Lemma conforms_looped p k inp n n' :
  looped p (seq 0 k) inp n n' → conforms (λ p' s', if decide (p' = p ∧ s' < k)%nat then inp else no_input) n n'.
Proof.
  intros [R W A O (evs & E & Hab & Hs)]. split; [done|done|]. exists evs. split; [done|]. intros p' s'.
  case_decide as D.
  - destruct D as [-> D]. apply Hs, elem_of_seq. lia.
  - assert (∀ s, s ∈ seq 0 k → (p', s') ≠ (p, s)) as Hne.
    { intros s Hs' [= -> ->]. apply elem_of_seq in Hs'. apply D. split; [done|lia]. }
    rewrite O by done. by apply (seen_untouched_sets _ _ p (seq 0 k)).
Qed.

(** *** The operations *)

Lemma ninv_conforms inp n n' : conforms inp n n' → alive_inv n' → ninv n'.
Proof. intros [_ W _] A. by split. Qed.

Definition quiet_conforms (n n' : Notifications) : Prop := conforms (λ _ _, no_input) n n' ∧ ninv n'.

Lemma quiet_effect p s n n' : ninv n → effect p s no_input n n' → quiet_conforms n n'.
Proof.
  intros [Hw Ha] Hef. pose proof (conforms_effect _ _ _ _ _ Hw Hef) as Hc.
  assert (conforms (λ _ _, no_input) n n') as Hc'.
  { destruct Hc as [R W (evs & E & S)]. split; try done. exists evs. split; [done|].
    intros p' s'. specialize (S p' s'). by destruct (decide _). }
  split; [done|]. eapply ninv_conforms; [done|]. by eapply alive_effect; [| |exact Hef]; auto.
Qed.

Lemma quiet_emits n n' : ninv n → emits n [] n' → quiet_conforms n n'.
Proof.
  intros Hi He. split; [by apply conforms_emits|]. destruct Hi as [Hw Ha], He as [_ P _ A].
  split; intros k; rewrite ?P, ?A; auto.
Qed.

Lemma quiet_trans n1 n2 n3 : quiet_conforms n1 n2 → quiet_conforms n2 n3 → quiet_conforms n1 n3.
Proof. intros [C1 _] [C2 I2]. split; [by eapply conforms_trans|done]. Qed.

Lemma quiet_refl n : ninv n → quiet_conforms n n.
Proof. intros Hi. apply quiet_emits; [done|apply emits_refl]. Qed.

Lemma on_peerset_message_quiet m n :
  ninv n → ensures (on_peerset_message clock m n) (quiet_conforms n).
Proof.
  intros Hi. pose proof (ni_alive _ Hi) as Ha. destruct m as [s p|s p|i|i]; simpl.
  - eapply ensures_mono; [by apply peerset_report_connect_effect|]. intros n'. by apply quiet_effect.
  - eapply ensures_mono; [apply peerset_report_disconnect_effect|]. intros n'. by apply quiet_effect.
  - eapply ensures_mono; [apply peerset_report_accept_effect|].
    intros n' [?|(p & s & ?)]; [by apply quiet_emits|by eapply quiet_effect].
  - eapply ensures_mono; [by apply peerset_report_reject_effect|].
    intros n' [?|(p & s & ?)]; [by apply quiet_emits|by eapply quiet_effect].
Qed.

Lemma poll_peerset_quiet fuel n :
  ninv n → ensures (poll_peerset clock delay_ready fuel n) (λ r, match r with Some n' => quiet_conforms n n' | None => True end).
Proof.
  revert n. induction fuel as [|fuel IH]; intros n Hi; [done|]. simpl. apply ensures_bind, ensures_true.
  intros [[m|] ps|]; simpl; [| |done].
  - assert (quiet_conforms n (with_peerset ps n)) as H1 by (apply quiet_emits; [done|by apply emits_quiet]).
    apply ensures_bind. eapply ensures_mono; [apply on_peerset_message_quiet, H1|]. intros n1 H2.
    eapply ensures_mono; [apply IH, H2|]. intros [n2|] H3; [|done].
    eapply quiet_trans; [exact H1|]. by eapply quiet_trans.
  - apply quiet_emits; [done|by apply emits_quiet].
Qed.

Lemma fire_quiet n k : ninv n → ensures (fire clock n k) (quiet_conforms n).
Proof.
  intros Hi. unfold fire. destruct (delays n !! k) as [d|]; [|by apply quiet_refl].
  eapply ensures_mono; [by apply (on_delay_effect clock d n), emits_quiet|]. intros n'. by apply quiet_effect.
Qed.

Lemma fires_quiet fired n : ninv n → ensures (for_each (fire clock) fired n) (quiet_conforms n).
Proof.
  revert n. induction fired as [|k fired IH]; intros n Hi; [by apply quiet_refl|]. simpl.
  apply ensures_bind. eapply ensures_mono; [by apply fire_quiet|]. intros n1 H1.
  eapply ensures_mono; [apply IH, H1|]. intros n2 H2. by eapply quiet_trans.
Qed.

(** One operation: the invariant is kept, and what was queued and is now queued
    differ by what was handed out and by actions that every entry accounts
    for. *)
Record accounted (o : op) (n : Notifications) (out : list BehaviourAction) (n' : Notifications) : Prop := {
  ac_inv : ninv n';
  ac_protocols : notif_protocols n' = notif_protocols n;
  ac_events : ∃ evs, events n ++ evs = out ++ events n' ∧
    ∀ p s, seen p s (op_input o (length (notif_protocols n)) p s) (peers n !! (p, s)) (peers n' !! (p, s)) evs;
}.

Lemma accounted_called o n n' :
  conforms (op_input o (length (notif_protocols n))) n n' → ninv n' → accounted o n [] n'.
Proof. intros [R _ (evs & E & S)] Hi. split; [done..|]. exists evs. by rewrite E. Qed.

Lemma accounted_quiet o n n' :
  (∀ p s, op_input o (length (notif_protocols n)) p s = no_input) → quiet_conforms n n' → accounted o n [] n'.
Proof.
  intros Ho [[R W (evs & E & S)] Hi]. split; [done..|]. exists evs. rewrite E. split; [done|].
  intros p s. rewrite Ho. apply S.
Qed.

Lemma accounted_looped o p inp n n' :
  looped p (seq 0 (length (notif_protocols n))) inp n n' →
  (∀ p' s', op_input o (length (notif_protocols n)) p' s' =
     if decide (p' = p ∧ s' < length (notif_protocols n))%nat then inp else no_input) →
  accounted o n [] n'.
Proof.
  intros Hl Ho. destruct (conforms_looped _ _ _ _ _ Hl) as [R W (evs & E & S)].
  split; [split; apply Hl|done|]. exists evs. rewrite E. split; [done|]. intros p' s'. rewrite Ho. apply S.
Qed.

Lemma poll_accounted fuel fired n :
  ninv n → ensures (run_op (Poll fuel fired) n) (λ r,
    match r with Some (out, n') => accounted (Poll fuel fired) n out n' | None => True end).
Proof.
  intros Hi. simpl. apply ensures_bind. unfold poll.
  assert (∀ n' e q, quiet_conforms n n' → events n' = e :: q → accounted (Poll fuel fired) n [e] (with_events q n')) as Hpop.
  { intros n' e q [[R W (evs & E & S)] [Hw Ha]] Hq. split; [by split|done|]. exists evs. rewrite <- E, Hq. done. }
  destruct (events n) as [|e q] eqn:He; simpl.
  2: { apply Hpop; [by apply quiet_refl|done]. }
  apply ensures_bind. eapply ensures_mono; [by apply poll_peerset_quiet|]. intros [n1|] H1; [|done].
  apply ensures_bind. eapply ensures_mono; [apply fires_quiet, H1|]. intros n2 H2.
  pose proof (quiet_trans _ _ _ H1 H2) as H3.
  destruct (events n2) as [|e q] eqn:He2; simpl; [by apply accounted_quiet|by apply Hpop].
Qed.

Lemma run_op_accounted o n :
  ninv n → healthy n → op_ok o n →
  ensures (run_op o n) (λ r, match r with Some (out, n') => accounted o n out n' | None => True end).
Proof.
  intros Hi Hh Hok. destruct o as [p s|p c|p c|p|p c ev|x|fuel fired].
  - apply ensures_bind. eapply ensures_mono; [apply disconnect_peer_inner_effect|]. intros n' Hef.
    apply accounted_quiet; [done|]. by eapply quiet_effect.
  - apply ensures_bind. unfold on_connection_established.
    eapply ensures_mono; [apply (for_sets_looped _ p (joins c))|].
    + apply NoDup_seq.
    + done.
    + auto.
    + intros s n' _ Hs. apply (established_effect clock). rewrite Hs. apply Hok.
    + intros n' Hl. by eapply accounted_looped.
  - apply ensures_bind. unfold on_connection_closed.
    eapply ensures_mono; [apply (for_sets_looped _ p (leaves c))|].
    + apply NoDup_seq.
    + done.
    + auto.
    + intros s n' _ _. apply closed_in_set_effect.
    + intros n' Hl. by eapply accounted_looped.
  - apply ensures_bind. unfold on_dial_failure.
    destruct p as [p|]; [|by apply accounted_quiet, quiet_refl].
    eapply ensures_mono; [apply (for_sets_looped _ p no_input)|].
    + apply NoDup_seq.
    + done.
    + auto.
    + intros s n' _ _. apply dial_failure_effect.
    + intros n' Hl. eapply accounted_looped; [exact Hl|]. intros. by case_decide.
  - apply ensures_bind. eapply ensures_mono; [apply handler_event_effect|]. intros n' Hef.
    pose proof (conforms_effect _ _ _ _ _ (ni_wf _ Hi) Hef) as Hc.
    apply accounted_called; [exact Hc|]. eapply ninv_conforms; [exact Hc|].
    eapply alive_effect; [apply Hi|left; apply Hh|exact Hef].
  - apply accounted_quiet; [done|]. apply quiet_emits; [done|by apply emits_quiet].
  - by apply poll_accounted.
Qed.

(** ** Runs *)

(** [run n0 delivered n]: from [n0], the swarm has been handed [delivered] and
    the state is [n]; no entry has been poisoned on the way. This excludes the
    steps that leave an entry [Poisoned] although their input is legal
    ([close_desired_while_incoming_poisons]): the source logs an error there and
    has lost the state of the peer. *)
Inductive run (n0 : Notifications) : list BehaviourAction → Notifications → Prop :=
  | run_start : run n0 [] n0
  | run_step delivered n o out n' :
      run n0 delivered n → op_ok o n → run_op o n = Done (Some (out, n')) → healthy n' →
      run n0 (delivered ++ out) n'.

Lemma new_ninv ps protocols n0 : new ps protocols = Done n0 → ninv n0 ∧ healthy n0 ∧ events n0 = [] ∧ peers n0 = ∅.
Proof.
  unfold new. destruct (rust_assert _); [|done]. simpl. intros [= <-]. simpl. split_and!; try done.
  split; intros k; simpl; rewrite lookup_empty; [by apply wf_entry_no_conns|done].
Qed.

Lemma run_ninv ps protocols n0 delivered n :
  new ps protocols = Done n0 → run n0 delivered n → ninv n ∧ healthy n.
Proof.
  intros Hnew Hrun. induction Hrun as [|delivered n o out n' _ [Hi Hh] Hok Hop Hh'].
  { by destruct (new_ninv _ _ _ Hnew) as (? & ? & _). }
  split; [|done]. pose proof (run_op_accounted o n Hi Hh Hok) as Hs. rewrite Hop in Hs. apply Hs.
Qed.

(** Only the sets of the behaviour have connections, and the API is told of no
    other. *)
Definition in_range (protocols : nat) (e : BehaviourAction) : Prop :=
  match e with GenerateEvent ev => ((event_key ev).2 < protocols)%nat | _ => True end.

Lemma op_input_beyond o k p s c : (k ≤ s)%nat → op_input o k p s c None = None.
Proof.
  intros Hs. destruct o as [| p' c'|p' c'| |p' c' ev| |]; simpl; try done.
  - by rewrite decide_False by lia.
  - case_decide; [|done]. unfold leaves, on_conn. by case_decide.
  - case_decide; [|done]. unfold event_input, on_conn. by case_decide.
Qed.

Lemma run_beyond ps protocols n0 delivered n p s :
  new ps protocols = Done n0 → run n0 delivered n → (length protocols ≤ s)%nat →
  notif_protocols n = protocols ∧ conns_of (peers n !! (p, s)) = [] ∧ unheard (p, s) (delivered ++ events n).
Proof.
  intros Hnew Hrun Hs. induction Hrun as [|delivered n o out n' Hrun (IHp & IHc & IHu) Hok Hop Hh'].
  { destruct (new_ninv _ _ _ Hnew) as (_ & _ & -> & ->). rewrite lookup_empty. split_and!; [|done|by constructor].
    unfold new in Hnew. destruct (rust_assert _); [|done]. by injection Hnew as <-. }
  destruct (run_ninv _ _ _ _ _ Hnew Hrun) as [Hi Hh].
  pose proof (run_op_accounted o n Hi Hh Hok) as Ha. rewrite Hop in Ha. destruct Ha as [_ R (evs & E & S)].
  assert (∀ c, op_input o (length (notif_protocols n)) p s c None = None) as Hin.
  { intros c. apply op_input_beyond. by rewrite IHp. }
  split_and!; [congruence|by eapply seen_no_conns|].
  rewrite <- app_assoc, <- E, app_assoc. apply Forall_app. split; [done|]. by eapply se_quiet.
Qed.

Lemma run_in_range ps protocols n0 delivered n :
  new ps protocols = Done n0 → run n0 delivered n → Forall (in_range (length protocols)) (delivered ++ events n).
Proof.
  intros Hnew Hrun. apply Forall_forall. intros [ev|?|?] He; [|done..]. simpl.
  destruct (event_key ev) as [p s] eqn:K. simpl. destruct (decide (s < length protocols)%nat) as [|Hge]; [done|].
  destruct (run_beyond _ _ _ _ _ p s Hnew Hrun) as (_ & _ & Hu); [lia|].
  unfold unheard in Hu; rewrite Forall_forall in Hu. by specialize (Hu _ He).
Qed.

(** The actions delivered so far and those still queued, replayed by the API. *)
Lemma run_session ps protocols n0 delivered n p s :
  new ps protocols = Done n0 → run n0 delivered n →
  session (p, s) (delivered ++ events n) false = Some (is_open p s n).
Proof.
  intros Hnew Hrun. change (is_open p s n) with (open_of (peers n !! (p, s))).
  induction Hrun as [|delivered n o out n' Hrun IH Hok Hop Hh'].
  { destruct (new_ninv _ _ _ Hnew) as (_ & _ & -> & ->). by rewrite lookup_empty. }
  destruct (run_ninv _ _ _ _ _ Hnew Hrun) as [Hi Hh].
  pose proof (run_op_accounted o n Hi Hh Hok) as Hs. rewrite Hop in Hs.
  destruct Hs as [_ _ (evs & E & S)].
  rewrite <- app_assoc, <- E, app_assoc, session_app, IH. simpl. apply S.
Qed.

(** C5: what the external API sees of a peer and set, in every run of the
    behaviour in which a new connection has a new identifier and no entry is
    [Poisoned] after any step (one legal event poisons an entry, see
    [close_desired_while_incoming_poisons]), is a sequence of well-formed
    sessions: the channel is opened, then come notifications and sink
    replacements, then it is closed, and so on; never a notification or a second
    close on a closed channel, never a second open on an open one. The actions
    delivered so far followed by those still queued lead exactly to the state
    that [is_open] reports. *)
Theorem api_sessions_well_formed ps protocols n0 delivered n p s :
  new ps protocols = Done n0 → run n0 delivered n →
  session (p, s) (delivered ++ events n) false = Some (is_open p s n).
Proof. apply run_session. Qed.

(** C6: the behaviour keeps to the protocol of the connection handlers, as long
    as nothing is poisoned. In a state reached by a run in which no entry is
    [Poisoned] after any step, an operation that completes and leaves no entry
    [Poisoned] either (the [CloseDesired] of
    [close_desired_while_incoming_poisons] does not, and loses the recorded
    states of the connections) sends each connection only commands that are
    legal in the state recorded for it (after the event of its handler that the
    operation reports, if any), and records the state the commands lead to;
    [Open] is never sent while an [Open] is unanswered, [Close] only to a
    connection that is open, opening, or awaiting an answer. *)
Theorem handler_protocol_respected ps protocols n0 delivered n o out n' :
  new ps protocols = Done n0 → run n0 delivered n → op_ok o n →
  run_op o n = Done (Some (out, n')) → healthy n' →
  ∃ evs, events n ++ evs = out ++ events n' ∧
    ∀ p s c, obey_all (commands p s c evs)
        (op_input o (length (notif_protocols n)) p s c (conn_at c (conns_of (peers n !! (p, s))))) =
      Some (conn_at c (conns_of (peers n' !! (p, s)))).
Proof.
  intros Hnew Hrun Hok Hop Hh'. destruct (run_ninv _ _ _ _ _ Hnew Hrun) as [Hi Hh].
  pose proof (run_op_accounted o n Hi Hh Hok) as Hs. rewrite Hop in Hs.
  destruct Hs as [_ _ (evs & E & S)]. exists evs. split; [done|]. intros p s c. by apply S.
Qed.

(** C7: the invariant of the peers, in every state of a run in which a new
    connection has a new identifier and no entry is [Poisoned] after any step
    (see [close_desired_while_incoming_poisons]). The connections of
    a peer have distinct identifiers; the peer is [Enabled] exactly if one of
    them is open or opening and [Incoming] exactly if one awaits the answer of
    the peer set manager, and an [Incoming] peer has exactly one live request,
    any other peer none. *)
Theorem behaviour_invariant ps protocols n0 delivered n p s :
  new ps protocols = Done n0 → run n0 delivered n →
  let l := conns_of (peers n !! (p, s)) in
  NoDup l.*1 ∧
  (any is_opening_or_open l = true ↔ ∃ l', peers n !! (p, s) = Some (Enabled l')) ∧
  (any is_desired l = true ↔ ∃ b l', peers n !! (p, s) = Some (Incoming b l')) ∧
  alive_count (p, s) (incoming_list n) = if any is_desired l then 1%nat else 0%nat.
Proof.
  intros Hnew Hrun l. destruct (run_ninv _ _ _ _ _ Hnew Hrun) as [[Hw Ha] Hh].
  specialize (Hw (p, s)). specialize (Ha (p, s)). specialize (Hh (p, s)). destruct Hw as [Hnd Hw]. unfold l.
  destruct (peers n !! (p, s)) as [[|t d|t d| |b l0|t d l0|l0|b l0]|]; simpl in *; try done;
    (split; [done|]); rewrite ?Ha;
    try lazymatch type of Hw with _ ∧ _ => destruct Hw as [H1 H2]; rewrite H1, H2 end; naive_solver.
Qed.

(** C8: [poll] returns. There is a number of iterations after which its loop
    over the messages of the peer set manager has ended, whatever the state and
    the timers that fire, and allowing more changes nothing. *)
Theorem poll_terminates n :
  ∃ fuel, ∀ fired extra,
    poll clock delay_ready fuel fired n ≠ Done None ∧
    poll clock delay_ready (fuel + extra) fired n = poll clock delay_ready fuel fired n.
Proof.
  destruct (poll_peerset_enough clock delay_ready n) as [fuel Hfuel]. exists fuel. intros fired extra.
  destruct (Hfuel extra) as [Heq Hne]. unfold poll. rewrite Heq.
  split; [|done]. destruct (events n); [|done].
  destruct (poll_peerset _ _ _ _) as [[n1|]|]; [|done..]. simpl.
  destruct (for_each _ _ _) as [n2|]; [|done]. simpl. by destruct (events n2).
Qed.

(** Back-off is respected. While a ban is running, an instruction to
    connect emits no action at all (no dial, no opened substream): the peer
    becomes pending, until exactly the end of the ban. *)
Theorem connect_respects_backoff p s n deadline n' :
  (∃ timer, peers n !! (p, s) = Some (Backoff timer deadline)) ∨
    (∃ l, peers n !! (p, s) = Some (Disabled (Some deadline) l)) →
  (now clock n).1 < deadline → peerset_report_connect clock p s n = Done n' →
  events n' = events n ∧
  match peers n' !! (p, s) with
  | Some (PendingRequest _ d) => d = deadline
  | Some (DisabledPendingEnable timer d l) => d = deadline ∧ l = conns_of (peers n !! (p, s)) ∧
      delays n' = delays n ++ [{| delay_id := timer; delay_peer := p; delay_set := s;
                                  delay_for := deadline - (now clock n).1 |}]
  | _ => False
  end.
Proof.
  intros Hst Hlt. unfold peerset_report_connect. destruct (now clock n) as [t n1] eqn:En. simpl in Hlt.
  assert (events n1 = events n ∧ peers n1 = peers n ∧ delays n1 = delays n) as (E1 & P1 & D1).
  { unfold now, read_clock in En. by injection En as <- <-. }
  destruct Hst as [[timer Hst]|[l Hst]]; rewrite Hst; rewrite (proj2 (Z.ltb_lt _ _) Hlt).
  - intros [= <-]. simpl. by rewrite lookup_insert_eq.
  - unfold push_delay. destruct (u64_add _ _); [|done]. simpl. intros [= <-]. simpl.
    rewrite lookup_insert_eq, E1, D1. split_and!; try done. unfold instant_sub. do 3 f_equal. lia.
Qed.

(** A sequence of operations and everything it hands to the swarm. *)
Fixpoint run_ops (os : list op) (n : Notifications) : outcome (option (list BehaviourAction * Notifications)) :=
  match os with
  | [] => mret (Some ([], n))
  | o :: os =>
      r ← run_op o n;
      match r with
      | None => mret None
      | Some (out, n) =>
          r ← run_ops os n;
          mret (match r with Some (out', n) => Some (out ++ out', n) | None => None end)
      end
  end.

(** The sink the external API holds for [k]. *)
Fixpoint api_sink (k : PeerId * nat) (evs : list BehaviourAction) (cur : option NotificationsSink) :
    option NotificationsSink :=
  match evs with
  | [] => cur
  | GenerateEvent (CustomProtocolOpen p s _ _ sink) :: evs | GenerateEvent (CustomProtocolReplaced p s sink) :: evs =>
      api_sink k evs (if decide ((p, s) = k) then Some sink else cur)
  | GenerateEvent (CustomProtocolClosed p s) :: evs => api_sink k evs (if decide ((p, s) = k) then None else cur)
  | _ :: evs => api_sink k evs cur
  end.
End theorems.

(** ** Example runs *)
Section examples.
#[local] Existing Instance canonical_order.

Definition demo_clock (k : nat) : Instant := from_secs (Z.of_nat k).
Definition demo_ready (_ _ : Instant) : bool := false.
Definition demo_ban (_ : nat) : Z := 7.
Definition demo_protocols : list ProtocolConfig :=
  [{| pc_name := "/block-announces/1"; pc_fallback_names := []; pc_handshake := []; pc_max_notification_size := 1024 |}].
Definition demo_config : list (PeersetSetConfig nat) :=
  [{| cfg_in_peers := 5; cfg_out_peers := 5; cfg_bootnodes := []; cfg_reserved_nodes := ∅; cfg_reserved_only := false |}].

Definition demo_start : outcome (Notifications nat nat) :=
  ps ← from_config demo_clock demo_config; new ps demo_protocols.
Definition demo_n0 : Notifications nat nat :=
  Eval vm_compute in match demo_start with
    | Done n => n
    | Panicked _ => {| notif_protocols := []; peerset := {| data := PeersState_new []; reserved_nodes := []; rx := [];
        message_queue := []; created := 0; latest_time_update := 0; next_periodic_alloc_slots := 0;
        clock_reads := 0; replies := [] |}; peers := ∅; delays := []; next_delay_id := 0; incoming_list := [];
        next_incoming_index := 0; events := []; samples := 0 |}
    end.

Abbreviation demo_run os := (run_ops demo_clock demo_ready demo_ban os demo_n0).

(** Peer 2 connects twice and asks for a channel on both connections; it is
    accepted, and the second connection is ready first, with sink 20. Then that
    connection is lost. *)
Definition two_connections : list (op (PeerId := nat) (NotificationsSink := nat)) :=
  [ConnectionEstablished 2%nat 0; ConnectionEstablished 2%nat 1;
   HandlerEvent 2%nat 0 (Out_OpenDesiredByRemote 0); HandlerEvent 2%nat 1 (Out_OpenDesiredByRemote 0);
   Poll 5 []; Poll 5 [];
   HandlerEvent 2%nat 1 (Out_OpenResultOk 0 None [] 20%nat);
   HandlerEvent 2%nat 0 (Out_OpenResultOk 0 None [] 10%nat)].

Definition last_state (r : outcome (option (list (BehaviourAction nat nat) * Notifications nat nat))) : Notifications nat nat :=
  match r with Done (Some (_, n)) => n | _ => demo_n0 end.
Definition handed_out (r : outcome (option (list (BehaviourAction nat nat) * Notifications nat nat))) :
    list (BehaviourAction nat nat) :=
  match r with Done (Some (out, _)) => out | _ => [] end.

(** The API can be left with a dead sink. A replacement is announced only
    if the lost connection comes before the first open one in the list, but the
    sink in use is that of the connection that opened first, wherever it is: in
    this run the API still holds sink 20 after its connection is lost, while the
    channel is open on sink 10 and nothing is queued. *)
Theorem sink_of_lost_connection_not_replaced :
  let r := demo_run (two_connections ++ [ConnectionClosed 2%nat 1; Poll 5 []; Poll 5 []]) in
  let n := last_state r in
  is_open 2%nat 0 n = true ∧ events n = [] ∧ api_sink (2%nat, 0%nat) (handed_out r) None = Some 20%nat ∧
  peers n !! (2%nat, 0%nat) = Some (Enabled [(0%nat, Open 10%nat)]).
Proof. vm_compute. auto. Qed.

(** The peer is dropped; it asks for a channel on a third connection while the
    first, that was open, reports that it wants to close. *)
Definition close_desired_while_incoming : list (op (PeerId := nat) (NotificationsSink := nat)) :=
  two_connections ++
  [DisconnectPeer 2%nat 0; ConnectionEstablished 2%nat 2; HandlerEvent 2%nat 2 (Out_OpenDesiredByRemote 0);
   HandlerEvent 2%nat 0 (Out_CloseDesired 0)].

(** [CloseDesired] of a closing connection of an [Incoming] peer leaves the
    entry poisoned. The event is legitimate (the handler had not yet seen the
    [Close] command), but only [Disabled] and [DisabledPendingEnable] ignore it;
    the acknowledgement of the [Close] then fails a debug assertion. *)
Theorem close_desired_while_incoming_poisons :
  peers (last_state (demo_run close_desired_while_incoming)) !! (2%nat, 0%nat) = Some Poisoned ∧
  demo_run (close_desired_while_incoming ++ [HandlerEvent 2%nat 0 (Out_CloseResult 0)]) = Panicked DebugAssertion.
Proof. vm_compute. auto. Qed.

(** The peer is dropped while its connection is opening, and enabled again on
    another connection. *)
Definition enabled_while_closing : list (op (PeerId := nat) (NotificationsSink := nat)) :=
  [ConnectionEstablished 2%nat 0; ConnectionEstablished 2%nat 1;
   PeersetSend (ConnectToPeer 2%nat); Poll 5 []; DisconnectPeer 2%nat 0;
   PeersetSend (ConnectToPeer 2%nat); Poll 5 []; Poll 5 []].

(** A connection in [OpeningThenClosing] that reports [OpenDesiredByRemote]
    while the peer is enabled fails a debug assertion, although the comment
    there says that such a connection can emit it (the remote opened its side
    before the [Open] command arrived). *)
Theorem open_desired_while_closing_asserts :
  peers (last_state (demo_run enabled_while_closing)) !! (2%nat, 0%nat) =
    Some (Enabled [(0%nat, OpeningThenClosing); (1%nat, Opening)]) ∧
  demo_run (enabled_while_closing ++ [HandlerEvent 2%nat 0 (Out_OpenDesiredByRemote 0)]) = Panicked DebugAssertion.
Proof. vm_compute. auto. Qed.

(** *** Witnesses *)

(** Executable forms of the side conditions of [run]. *)
Definition fresh_b (p c : nat) (n : Notifications nat nat) : bool :=
  forallb (λ e, negb (bool_decide (e.1.1 = p) && bool_decide (c ∈ ids (Some e.2)))) (map_to_list (peers n)).
Definition op_ok_b (o : op (PeerId := nat) (NotificationsSink := nat)) (n : Notifications nat nat) : bool :=
  match o with ConnectionEstablished p c => fresh_b p c n | _ => true end.
Definition healthy_b (n : Notifications nat nat) : bool :=
  forallb (λ e, match e.2 with Poisoned => false | _ => true end) (map_to_list (peers n)).

Lemma op_ok_b_sound o n : op_ok_b o n = true → op_ok o n.
Proof.
  destruct o; try done. simpl. unfold fresh_b. rewrite forallb_forall. intros Hall s Hin.
  destruct (peers n !! (p, s)) as [x|] eqn:E; [|by apply elem_of_nil in Hin].
  specialize (Hall ((p, s), x)). simpl in Hall. rewrite !bool_decide_eq_true_2 in Hall by done. simpl in Hall.
  discriminate Hall. apply list_elem_of_In. by apply elem_of_map_to_list.
Qed.

Lemma healthy_b_sound n : healthy_b n = true → healthy n.
Proof.
  unfold healthy_b. rewrite forallb_forall. intros Hall k E. specialize (Hall (k, Poisoned)). simpl in Hall.
  discriminate Hall. apply list_elem_of_In. by apply elem_of_map_to_list.
Qed.

Fixpoint checked (os : list (op (PeerId := nat) (NotificationsSink := nat))) (n : Notifications nat nat) : bool :=
  match os with
  | [] => true
  | o :: os =>
      op_ok_b o n && match run_op demo_clock demo_ready demo_ban o n with
                     | Done (Some (_, n)) => healthy_b n && checked os n
                     | _ => false
                     end
  end.

Lemma checked_run n0 os d n : run demo_clock demo_ready demo_ban n0 d n → checked os n = true →
  ∃ out n', run_ops demo_clock demo_ready demo_ban os n = Done (Some (out, n')) ∧
    run demo_clock demo_ready demo_ban n0 (d ++ out) n'.
Proof.
  revert d n. induction os as [|o os IH]; intros d n Hr Hc.
  { exists [], n. by rewrite app_nil_r. }
  simpl in Hc. apply andb_prop in Hc as [Hok%op_ok_b_sound Hc]. simpl.
  destruct (run_op demo_clock demo_ready demo_ban o n) as [[[out n1]|]|] eqn:E; try done. simpl.
  apply andb_prop in Hc as [Hh%healthy_b_sound Hc].
  destruct (IH (d ++ out) n1) as (out' & n' & E' & Hr'); [by eapply run_step|done|].
  exists (out ++ out'), n'. rewrite E'. by rewrite app_assoc.
Qed.

Definition demo_ps : Peerset nat := Eval vm_compute in peerset demo_n0.
Definition demo_end : Notifications nat nat := Eval vm_compute in last_state (demo_run two_connections).
Definition demo_out : list (BehaviourAction nat nat) := Eval vm_compute in handed_out (demo_run two_connections).

Lemma demo_new : new demo_ps demo_protocols = Done demo_n0.
Proof. vm_compute. reflexivity. Defined.

Lemma demo_reaches : run demo_clock demo_ready demo_ban demo_n0 demo_out demo_end.
Proof.
  destruct (checked_run demo_n0 two_connections [] demo_n0) as (out & n & E & Hr);
    [apply run_start|vm_compute; reflexivity|].
  assert (demo_run two_connections = Done (Some (demo_out, demo_end))) as E' by (vm_compute; reflexivity).
  rewrite E in E'. injection E' as -> ->. exact Hr.
Defined.

Lemma api_sessions_well_formed_witness :
  session (2%nat, 0%nat) (demo_out ++ events demo_end) false = Some true.
Proof.
  apply (api_sessions_well_formed demo_clock demo_ready demo_ban demo_ps demo_protocols demo_n0
           demo_out demo_end 2%nat 0 demo_new demo_reaches).
Defined.

Lemma handler_protocol_respected_witness :
  ∃ evs n', run_op demo_clock demo_ready demo_ban (DisconnectPeer 2%nat 0) demo_end = Done (Some ([], n')) ∧
    events demo_end ++ evs = events n' ∧ commands 2%nat 0 1 evs = [Cmd_Close].
Proof.
  destruct (run_op demo_clock demo_ready demo_ban (DisconnectPeer 2%nat 0) demo_end) as [[[out n']|]|] eqn:E;
    [|vm_compute in E; discriminate E..].
  destruct (handler_protocol_respected demo_clock demo_ready demo_ban demo_ps demo_protocols demo_n0
              demo_out demo_end (DisconnectPeer 2%nat 0) out n' demo_new demo_reaches I E) as (evs & Hev & _).
  - apply healthy_b_sound. vm_compute in E. injection E as <- <-. vm_compute. reflexivity.
  - vm_compute in E. injection E as <- <-. exists evs. eexists. split; [reflexivity|]. split; [exact Hev|].
    cbn in Hev. injection Hev as ->. vm_compute. reflexivity.
Defined.

Lemma behaviour_invariant_witness :
  alive_count (2%nat, 0%nat) (incoming_list demo_end) = 0%nat ∧
  ∃ l, peers demo_end !! (2%nat, 0%nat) = Some (Enabled l).
Proof.
  destruct (behaviour_invariant demo_clock demo_ready demo_ban demo_ps demo_protocols demo_n0
              demo_out demo_end 2%nat 0 demo_new demo_reaches) as (_ & Hopen & _ & Halive).
  split; [rewrite Halive; vm_compute; reflexivity|]. apply Hopen. vm_compute. reflexivity.
Defined.

Definition demo_backed_off : Notifications nat nat :=
  Eval vm_compute in set_peer 4%nat 0 (Backoff 0 (from_secs 1000)) demo_n0.

Lemma connect_respects_backoff_witness :
  ∃ n', peerset_report_connect demo_clock 4%nat 0 demo_backed_off = Done n' ∧ events n' = [].
Proof.
  destruct (peerset_report_connect demo_clock 4%nat 0 demo_backed_off) as [n'|] eqn:E;
    [|vm_compute in E; discriminate E].
  exists n'. split; [reflexivity|].
  destruct (connect_respects_backoff demo_clock 4%nat 0 demo_backed_off (from_secs 1000) n') as [Hev _].
  - left. exists 0. vm_compute. reflexivity.
  - vm_compute. reflexivity.
  - exact E.
  - rewrite Hev. reflexivity.
Defined.
End examples.
