(* ===== verification/Wire.v ===== *)
(** * Bytes on a substream

    The asynchronous reading and writing the upgrades of the notifications
    protocol and the codec of the request-response protocols are built on: a
    reader with the bytes the remote has sent and how its stream ends, a
    writer with the bytes handed to the remote, and variable-length integers.
    The crate [unsigned_varint] is an interface, [Varint], with the behaviour
    its documentation promises, [VarintLaws]; [leb128] implements it. *)

From S2P Require Import Prelude.

Abbreviation bytes := (list Byte.byte).

#[export] Instance byte_eq_dec : EqDecision Byte.byte := Byte.byte_eq_dec.

(** ** [std::io::Error], as far as the code looks at it *)
Inductive ErrorKind :=
  UnexpectedEof | InvalidData | InvalidInput | NotFound | AlreadyExists | OtherKind (code : Z).

#[export] Instance ErrorKind_eq_dec : EqDecision ErrorKind.
Proof. solve_decision. Defined.

Abbreviation io_error := ErrorKind (only parsing).

Definition usize_max : Z := u64_max.

(** [usize::try_from(n).unwrap_or(usize::MAX)] on a 64-bit target. *)
Definition usize_from_u64 (n : Z) : Z := if n <=? usize_max then n else usize_max.

Definition blen (b : bytes) : Z := Z.of_nat (length b).

(** ** Readers

    The bytes still to come and how the stream ends after them: with the end
    of the file, or with an error. Waiting for bytes is not observable. *)
Record Reader := mkReader { rd_data : bytes; rd_end : option io_error }.

Definition end_error (r : Reader) : io_error := default UnexpectedEof (rd_end r).

(** [AsyncReadExt::read_exact] into a buffer of [n] bytes. *)
Definition read_exact (n : Z) (r : Reader) : result bytes io_error * Reader :=
  if n <=? blen (rd_data r) then
    (Ok (take (Z.to_nat n) (rd_data r)), mkReader (drop (Z.to_nat n) (rd_data r)) (rd_end r))
  else (Err (end_error r), mkReader [] (rd_end r)).

(** ** Writers

    What has been written, whether the writing side is closed, and the errors
    the environment will inflict, one entry per operation. *)
Record Writer := mkWriter { wr_sent : bytes; wr_closed : bool; wr_faults : list (option io_error) }.

Definition next_fault (w : Writer) : option io_error * list (option io_error) :=
  match wr_faults w with [] => (None, []) | f :: fs => (f, fs) end.

(** [AsyncWriteExt::write_all]. *)
Definition write_all (b : bytes) (w : Writer) : result unit io_error * Writer :=
  match next_fault w with
  | (Some e, fs) => (Err e, mkWriter (wr_sent w) (wr_closed w) fs)
  | (None, fs) => (Ok tt, mkWriter (wr_sent w ++ b) (wr_closed w) fs)
  end.

(** [AsyncWriteExt::close]. *)
Definition close (w : Writer) : result unit io_error * Writer :=
  match next_fault w with
  | (Some e, fs) => (Err e, mkWriter (wr_sent w) (wr_closed w) fs)
  | (None, fs) => (Ok tt, mkWriter (wr_sent w) true fs)
  end.

(** A writer whose environment inflicts no error, and what its remote reads
    once the writing side is closed. *)
Definition fresh_writer : Writer := mkWriter [] false [].
Definition remote_reader (w : Writer) : Reader := mkReader (wr_sent w) None.

(** [?] on a fallible operation that threads a state. *)
Definition and_then {A B E S} (r : result A E * S) (k : A → S → result B E * S) : result B E * S :=
  match r with
  | (Ok a, s) => k a s
  | (Err e, s) => (Err e, s)
  end.

(** ** Variable-length integers *)
Inductive DecodeError := Insufficient | Overflow | NotMinimal.

(** [unsigned_varint::io::ReadError], which is non-exhaustive. *)
Inductive ReadError := RE_Io (e : io_error) | RE_Decode (e : DecodeError) | RE_Other.

Class Varint := {
  read_usize : Reader → result Z ReadError * Reader;
  encode_usize : Z → bytes;
}.

Class VarintLaws `{Varint} := {
  (** What is encoded is read back, up to the byte. *)
  read_encoded n rest e :
    is_u64 n → read_usize (mkReader (encode_usize n ++ rest) e) = (Ok n, mkReader rest e);
  (** Reading needs a byte. *)
  read_empty e : read_usize (mkReader [] e) = (Err (RE_Io (default UnexpectedEof e)), mkReader [] e);
  (** A number that is read is a [usize]. *)
  read_is_usize r n r' : read_usize r = (Ok n, r') → is_u64 n;
}.

(** A message with its length in front. [upgrade::write_length_prefixed] of
    libp2p writes it in one call (and flushes). *)
Definition length_prefixed `{Varint} (b : bytes) : bytes := encode_usize (blen b) ++ b.
Definition write_length_prefixed `{Varint} (b : bytes) (w : Writer) : result unit io_error * Writer :=
  write_all (length_prefixed b) w.

Lemma blen_nonneg b : 0 ≤ blen b.
Proof. unfold blen. lia. Qed.
Lemma blen_app b1 b2 : blen (b1 ++ b2) = blen b1 + blen b2.
Proof. unfold blen. rewrite length_app. lia. Qed.
Lemma usize_from_u64_id n : n ≤ u64_max → usize_from_u64 n = n.
Proof. unfold usize_from_u64, usize_max. intros H. by rewrite (proj2 (Z.leb_le _ _) H). Qed.

Lemma read_exact_app b rest e :
  read_exact (blen b) (mkReader (b ++ rest) e) = (Ok b, mkReader rest e).
Proof.
  unfold read_exact. simpl. rewrite blen_app, (proj2 (Z.leb_le _ _)) by (pose proof (blen_nonneg rest); lia).
  unfold blen. rewrite Nat2Z.id, take_app_length, drop_app_length. done.
Qed.

Lemma read_exact_short n r :
  blen (rd_data r) < n → read_exact n r = (Err (end_error r), mkReader [] (rd_end r)).
Proof. intros Hn. unfold read_exact. by rewrite (proj2 (Z.leb_gt _ _)). Qed.

Lemma read_exact_length n r b r' : 0 ≤ n → read_exact n r = (Ok b, r') → blen b = n.
Proof.
  unfold read_exact. destruct (Z.leb_spec n (blen (rd_data r))) as [Hle|]; [|done].
  intros Hn [= <- _]. unfold blen in *. rewrite length_take. lia.
Qed.

Lemma write_all_fresh b : write_all b fresh_writer = (Ok tt, mkWriter b false []).
Proof. done. Qed.

(** ** LEB128, as the crate implements it *)
Definition byte_of (n : Z) : Byte.byte := default Byte.x00 (Byte.of_N (Z.to_N n)).
Definition byte_val (b : Byte.byte) : Z := Z.of_N (Byte.to_N b).

Fixpoint leb_encode (digits : nat) (n : Z) : bytes :=
  match digits with
  | O => []
  | S digits =>
      if n <? 128 then [byte_of n]
      else byte_of (Z.lor (Z.land n 127) 128) :: leb_encode digits (Z.shiftr n 7)
  end.

(** At most [digits] bytes; [first] tells whether none has been read yet. *)
Fixpoint leb_read (digits : nat) (first : bool) (data : bytes) (e : option io_error) :
    result Z ReadError * Reader :=
  match digits with
  | O => (Err (RE_Decode Overflow), mkReader data e)
  | S digits =>
      match data with
      | [] => (Err (RE_Io (default UnexpectedEof e)), mkReader [] e)
      | b :: data =>
          if byte_val b <? 128 then
            if (byte_val b =? 0) && negb first then (Err (RE_Decode NotMinimal), mkReader data e)
            else (Ok (byte_val b), mkReader data e)
          else
            match leb_read digits false data e with
            | (Ok n, r) => (Ok (Z.lor (Z.land (byte_val b) 127) (Z.shiftl n 7)), r)
            | (Err err, r) => (Err err, r)
            end
      end
  end.

(** Numbers above [u64::MAX], which ten digits could express, overflow. *)
Definition leb_read_usize (r : Reader) : result Z ReadError * Reader :=
  match leb_read 10 true (rd_data r) (rd_end r) with
  | (Ok n, r') => if n <=? u64_max then (Ok n, r') else (Err (RE_Decode Overflow), r')
  | e => e
  end.

#[export] Instance leb128 : Varint := {|
  read_usize := leb_read_usize;
  encode_usize := leb_encode 10;
|}.

Lemma byte_val_of n : 0 ≤ n < 256 → byte_val (byte_of n) = n.
Proof.
  intros Hn. unfold byte_val, byte_of. destruct (Byte.of_N (Z.to_N n)) as [b|] eqn:E; simpl.
  - apply Byte.to_of_N in E. rewrite E. lia.
  - apply Byte.of_N_None_iff in E. lia.
Qed.

Lemma byte_val_range b : 0 ≤ byte_val b < 256.
Proof. unfold byte_val. pose proof (Byte.to_N_bounded b). lia. Qed.

(** Seven low bits and the rest. *)
Lemma lor_shiftl x m : 0 ≤ x < 128 → Z.lor x (Z.shiftl m 7) = x + 128 * m.
Proof.
  intros Hx. assert (Z.land x (Z.shiftl m 7) = 0) as Hland.
  { apply Z.bits_inj'. intros i Hi. rewrite Z.land_spec, Z.bits_0.
    destruct (Z.lt_ge_cases i 7).
    - rewrite Z.shiftl_spec_low by done. by rewrite andb_false_r.
    - rewrite <- (Z.mod_small x (2 ^ 7)) by (simpl; lia). by rewrite Z.mod_pow2_bits_high by lia. }
  rewrite Z.shiftl_mul_pow2 in * by lia. change (2 ^ 7) with 128 in *.
  rewrite <- Z.lxor_lor, <- Z.add_nocarry_lxor by done. lia.
Qed.

(** A digit of seven bits with its continuation bit. *)
Lemma leb_digit n : 0 ≤ n → Z.lor (Z.land n 127) 128 = n mod 128 + 128.
Proof.
  intros Hn. change 127 with (Z.ones 7). rewrite Z.land_ones by lia. change (2 ^ 7) with 128.
  exact (lor_shiftl (n mod 128) 1 (Z.mod_pos_bound n 128 ltac:(lia))).
Qed.

Lemma leb_combine n m : Z.lor (Z.land (n mod 128 + 128) 127) (Z.shiftl m 7) = n mod 128 + 128 * m.
Proof.
  change 127 with (Z.ones 7). rewrite Z.land_ones by lia. change (2 ^ 7) with 128.
  assert ((n mod 128 + 128) mod 128 = n mod 128) as ->.
  { rewrite <- Zplus_mod_idemp_r, Z.mod_same, Z.add_0_r by lia. apply Z.mod_mod. lia. }
  apply lor_shiftl, Z.mod_pos_bound. lia.
Qed.

Lemma leb_roundtrip digits first n rest e :
  (0 < digits)%nat → (first = false → 0 < n) → 0 ≤ n < 128 ^ Z.of_nat digits →
  leb_read digits first (leb_encode digits n ++ rest) e = (Ok n, mkReader rest e).
Proof.
  revert first n. induction digits as [|d IH]; intros first n Hd Hfirst Hn; [lia|].
  cbn [leb_encode]. destruct (Z.ltb_spec n 128) as [Hlt|Hge].
  - simpl. rewrite byte_val_of, (proj2 (Z.ltb_lt _ _) Hlt) by lia.
    destruct (Z.eqb_spec n 0) as [->|]; [|done]. destruct first; [done|]. specialize (Hfirst eq_refl). lia.
  - cbn [app leb_read]. rewrite leb_digit by lia. pose proof (Z.mod_pos_bound n 128 ltac:(lia)).
    rewrite byte_val_of, (proj2 (Z.ltb_ge _ 128)) by lia.
    rewrite Nat2Z.inj_succ, Z.pow_succ_r in Hn by lia.
    rewrite Z.shiftr_div_pow2 by lia. change (2 ^ 7) with 128.
    rewrite IH.
    + rewrite leb_combine. do 2 f_equal.
      pose proof (Z.div_mod n 128 ltac:(lia)). lia.
    + destruct d; [simpl in Hn|]; lia.
    + intros _. apply Z.div_str_pos. lia.
    + split; [apply Z.div_pos; lia|]. apply Z.div_lt_upper_bound; lia.
Qed.

Lemma leb_read_nonneg digits first data e n r :
  leb_read digits first data e = (Ok n, r) → 0 ≤ n.
Proof.
  revert first data n r. induction digits as [|d IH]; intros first data n r; [done|]. simpl.
  destruct data as [|b data]; [done|]. pose proof (byte_val_range b).
  destruct (byte_val b <? 128); [destruct (_ && _); [done|]; intros [= <- _]; lia|].
  destruct (leb_read d false data e) as [[m|] r'] eqn:E; [|done]. intros [= <- _].
  apply Z.lor_nonneg. split; [apply Z.land_nonneg; lia|]. apply Z.shiftl_nonneg, (IH _ _ _ _ E).
Qed.

#[export] Instance leb128_laws : VarintLaws.
Proof.
  split.
  - intros n rest e [Hn0 Hn]. cbn [read_usize encode_usize leb128]. unfold leb_read_usize. cbn [rd_data rd_end].
    rewrite leb_roundtrip; [by rewrite (proj2 (Z.leb_le _ _) Hn)|lia|done|].
    split; [done|]. eapply Z.le_lt_trans; [exact Hn|]. by vm_compute.
  - done.
  - intros r n r'. cbn [read_usize leb128]. unfold leb_read_usize.
    destruct (leb_read _ _ _ _) as [[m|] r0] eqn:E; [|done].
    destruct (Z.leb_spec m u64_max); [|done]. intros [= <- _]. split; [by eapply leb_read_nonneg|done].
Qed.
