(* ===== verification/LruSet.v ===== *)
(** * A set of bounded size

    Model of [network/common/utils.rs]: [LruHashSet], which keeps the elements
    inserted last. It is a wrapper around the [LinkedHashSet] of the
    [linked_hash_set] crate, an interface here with the documented behaviour of
    that set: it remembers the order of insertion, and inserting an element that
    is present moves it to the back. *)

From S2P Require Import Prelude.

Class LinkedHashSet (T S : Type) := {
  ls_new : S;
  ls_insert : T → S → bool * S;
  ls_len : S → nat;
  ls_pop_front : S → option T * S;
  (** The elements from the front to the back. *)
  ls_iter : S → list T;
}.

Class LinkedHashSetLaws (T S : Type) `{LinkedHashSet T S, EqDecision T} := {
  ls_iter_new : ls_iter (ls_new : S) = [];
  ls_insert_new e (s : S) : (ls_insert e s).1 = bool_decide (e ∉ ls_iter s);
  ls_iter_insert e (s : S) : ls_iter (ls_insert e s).2 = filter (λ x, x ≠ e) (ls_iter s) ++ [e];
  ls_len_iter (s : S) : ls_len s = length (ls_iter s);
  ls_iter_pop_front (s : S) : ls_iter (ls_pop_front s).2 = tail (ls_iter s);
}.

Section lru.
Context {T S : Type} `{LinkedHashSet T S}.

(** The limit is a [NonZeroUsize]. *)
Record LruHashSet := mkLruHashSet { lru_set : S; lru_limit : positive }.

Definition lru_new (limit : positive) : LruHashSet := mkLruHashSet ls_new limit.

Definition lru_insert (e : T) (l : LruHashSet) : bool * LruHashSet :=
  let '(is_new, set) := ls_insert e (lru_set l) in
  if is_new then
    let set := if (ls_len set =? Pos.to_nat (lru_limit l))%nat then (ls_pop_front set).2 else set in
    (true, mkLruHashSet set (lru_limit l))
  else (false, mkLruHashSet set (lru_limit l)).
End lru.
Arguments LruHashSet : clear implicits.

(** ** What the set holds *)
Section recent.
Context {T : Type} `{EqDecision T}.

(** The elements of a list, each at its first position. *)
Fixpoint firsts (l : list T) : list T :=
  match l with [] => [] | x :: l => x :: filter (λ y, y ≠ x) (firsts l) end.

(** The [n] elements inserted last, the newest first, of a list of insertions. *)
Definition most_recent (n : nat) (insertions : list T) : list T := take n (firsts (reverse insertions)).

Lemma NoDup_firsts l : NoDup (firsts l).
Proof.
  induction l as [|x l IH]; simpl; constructor; [|by apply list.NoDup_filter].
  rewrite list_elem_of_filter. naive_solver.
Qed.

Lemma filter_not_in (e : T) (l : list T) : e ∉ l → filter (λ y, y ≠ e) l = l.
Proof.
  induction l as [|x l IH]; intros Hx; [done|]. apply not_elem_of_cons in Hx as [? ?].
  rewrite filter_cons_True by congruence. by rewrite IH.
Qed.

Lemma take_filter_in (e : T) n (l : list T) : NoDup l → e ∈ take (Datatypes.S n) l →
  take n (filter (λ y, y ≠ e) l) = filter (λ y, y ≠ e) (take (Datatypes.S n) l).
Proof.
  revert n. induction l as [|x l IH]; intros n Hnd Hin; [by apply elem_of_nil in Hin|].
  apply NoDup_cons in Hnd as [Hx Hnd]. simpl in Hin. simpl take.
  destruct (decide (x = e)) as [->|Hne].
  - rewrite !filter_cons_False by (intros []; done). rewrite (filter_not_in e l) by done.
    rewrite filter_not_in; [done|]. intros (i & Hi & _)%elem_of_take. by apply Hx, list_elem_of_lookup_2 with i.
  - rewrite !filter_cons_True by done. apply elem_of_cons in Hin as [?|Hin]; [congruence|].
    destruct n as [|n]; [by apply elem_of_nil in Hin|]. simpl. f_equal. by apply IH.
Qed.

Lemma take_filter_out (e : T) n (l : list T) : e ∉ take n l → take n (filter (λ y, y ≠ e) l) = take n l.
Proof.
  revert n. induction l as [|x l IH]; intros [|n] Hin; [done..|]. simpl in Hin.
  apply not_elem_of_cons in Hin as [? ?]. rewrite filter_cons_True by congruence. simpl. by rewrite IH.
Qed.
End recent.

Section lru_facts.
Context {T S : Type} `{LinkedHashSetLaws T S}.
Implicit Types (l : list T) (s : LruHashSet S).

(** The set after a list of insertions. *)
Definition inserted (limit : positive) l : LruHashSet S :=
  foldl (λ s e, (lru_insert e s).2) (lru_new limit) l.

Definition holds_recent s l : Prop :=
  ls_iter (lru_set s) = reverse (most_recent (Nat.pred (Pos.to_nat (lru_limit s))) l).

Lemma lru_insert_limit e s : lru_limit (lru_insert e s).2 = lru_limit s.
Proof. unfold lru_insert. destruct (ls_insert e (lru_set s)) as [[] set]; done. Qed.

Lemma lru_insert_bool e s : (lru_insert e s).1 = bool_decide (e ∉ ls_iter (lru_set s)).
Proof.
  rewrite <-ls_insert_new. unfold lru_insert. by destruct (ls_insert e (lru_set s)) as [[] set].
Qed.

Lemma most_recent_snoc n l e :
  most_recent (Datatypes.S n) (l ++ [e]) = e :: take n (filter (λ y, y ≠ e) (firsts (reverse l))).
Proof. unfold most_recent. by rewrite reverse_app. Qed.

(** An element that is there moves to the back; a new one takes the place of
    the oldest when the set is full. *)
Lemma lru_insert_recent e s l : holds_recent s l → holds_recent (lru_insert e s).2 (l ++ [e]).
Proof.
  unfold holds_recent. rewrite lru_insert_limit. intros Hs.
  pose proof (ls_insert_new e (lru_set s)) as Hb. pose proof (ls_iter_insert e (lru_set s)) as Hi.
  unfold lru_insert. destruct (ls_insert e (lru_set s)) as [b set]. simpl in Hb, Hi. rewrite Hs in Hb, Hi.
  destruct (Pos.to_nat (lru_limit s)) as [|n] eqn:En; [lia|]. simpl Nat.pred in *.
  set (d := firsts (reverse l)) in *. assert (NoDup d) as Hd by apply NoDup_firsts.
  change (most_recent n l) with (take n d) in *.
  assert (b = bool_decide (e ∉ take n d)) as Hb' by (rewrite Hb; apply bool_decide_ext; by rewrite elem_of_reverse).
  clear Hb. rename Hb' into Hb.
  destruct n as [|n].
  { rewrite take_0 in *. rewrite bool_decide_eq_true_2 in Hb by apply not_elem_of_nil.
    rewrite reverse_nil in Hi. subst b. simpl. rewrite ls_len_iter, Hi. simpl. rewrite ls_iter_pop_front, Hi. unfold most_recent. by rewrite take_0. }
  rewrite most_recent_snoc. fold d. rewrite reverse_cons. destruct (decide (e ∈ take (Datatypes.S n) d)) as [Hin|Hout].
  - rewrite bool_decide_eq_false_2 in Hb by naive_solver. subst b. simpl. rewrite Hi, filter_reverse.
    by rewrite take_filter_in.
  - rewrite bool_decide_eq_true_2 in Hb by done. subst b. simpl.
    rewrite ls_len_iter, Hi, filter_not_in by (by rewrite elem_of_reverse).
    assert (e ∉ take n d) as Hout'.
    { intros Hin. apply Hout. apply elem_of_take in Hin as (i & ? & ?). apply elem_of_take. exists i. split; [done|lia]. }
    rewrite take_filter_out by done. rewrite length_app, length_reverse, length_take. change (length [e]) with 1%nat.
    destruct (_ =? _)%nat eqn:E.
    + apply Nat.eqb_eq in E. rewrite ls_iter_pop_front, Hi, filter_not_in by (by rewrite elem_of_reverse).
      assert (n < length d)%nat as Hlen by lia. apply lookup_lt_is_Some_2 in Hlen as [x Hx].
      rewrite (take_S_r _ _ _ Hx), reverse_app. done.
    + apply Nat.eqb_neq in E. rewrite Hi, filter_not_in by (by rewrite elem_of_reverse).
      rewrite !take_ge by lia. done.
Qed.

Lemma inserted_recent limit l : holds_recent (inserted limit l) l ∧ lru_limit (inserted limit l) = limit.
Proof.
  induction l as [|e l [IH Hl]] using rev_ind.
  - split; [|done]. unfold holds_recent, most_recent, inserted. simpl. by rewrite ls_iter_new, take_nil.
  - unfold inserted in *. rewrite foldl_app. simpl. rewrite lru_insert_limit. split; [|done]. by apply lru_insert_recent.
Qed.

(** After any insertions an [LruHashSet] holds the most recently inserted
    distinct elements, one less than its limit (the limit is exclusive), in the
    order of their last insertion; its size stays below the limit, and [insert]
    tells whether the element was among those held. *)
Theorem lru_holds_most_recent (limit : positive) (l : list T) (e : T) :
  let held := most_recent (Nat.pred (Pos.to_nat limit)) l in
  ls_iter (lru_set (inserted limit l)) = reverse held ∧
  (ls_len (lru_set (inserted limit l)) < Pos.to_nat limit)%nat ∧
  (lru_insert e (inserted limit l)).1 = bool_decide (e ∉ held).
Proof.
  destruct (inserted_recent limit l) as [Hr Hl]. unfold holds_recent in Hr. rewrite Hl in Hr. simpl.
  rewrite ls_len_iter, lru_insert_bool, Hr. split; [done|]. split.
  - rewrite length_reverse. unfold most_recent. rewrite length_take. lia.
  - apply bool_decide_ext. by rewrite elem_of_reverse.
Qed.
End lru_facts.

(** ** A linked hash set as a list *)
#[local] Instance list_linked_set : LinkedHashSet Z (list Z) := {|
  ls_new := [];
  ls_insert e s := (bool_decide (e ∉ s), filter (λ x, x ≠ e) s ++ [e]);
  ls_len := length;
  ls_pop_front s := (head s, tail s);
  ls_iter s := s;
|}.
#[local] Instance list_linked_set_laws : LinkedHashSetLaws Z (list Z).
Proof. by constructor. Qed.

(** The insertions of the unit test of the repository. *)
Lemma lru_holds_most_recent_witness :
  ls_iter (lru_set (inserted (S := list Z) 3 [1; 2; 1; 3])) = [1; 3] ∧
  (lru_insert 2 (inserted (S := list Z) 3 [1; 2; 1; 3])).1 = true.
Proof.
  destruct (lru_holds_most_recent (S := list Z) 3 [1; 2; 1; 3] 2) as (H1 & _ & H3). rewrite H1, H3. done.
Defined.
