(* ===== verification/Scale.v ===== *)
(** * SCALE codecs

    [codec::Encode] and [codec::Decode] of the [parity-scale-codec] crate: a
    codec is an encoder and a decoder that takes its part off the front of the
    input. The input is consumed also when decoding fails. The codecs of numbers,
    strings, vectors and options are an interface ([Scale]), with the format the
    documentation of the crate gives as laws; the derived codecs of structs and
    enums are their composition: the fields in order, and a byte with the number
    of the variant before the fields of an enum. [scale_le] is the format itself:
    little-endian numbers, and compact lengths. *)

From S2P Require Import Prelude PeersState Peerset Notifications Wire.

Record Codec (A : Type) := mkCodec { enc : A → bytes; dec : bytes → option A * bytes }.
Arguments mkCodec {A}.
Arguments enc {A}.
Arguments dec {A}.

(** Decoding takes an encoded value off the input. *)
Definition correct {A} (c : Codec A) (ok : A → Prop) : Prop :=
  ∀ a rest, ok a → dec c (enc c a ++ rest) = (Some a, rest).

Class Scale := {
  u8_codec : Codec Z;
  u16_codec : Codec Z;
  u32_codec : Codec Z;
  u64_codec : Codec Z;
  u128_codec : Codec Z;
  bool_codec : Codec bool;
  bytes_codec : Codec bytes;
  string_codec : Codec string;
  vec_codec {A} : Codec A → Codec (list A);
  option_codec {A} : Codec A → Codec (option A);
}.

(** A vector has a length below [2^32]. *)
Definition short {A} (l : list A) : Prop := Z.of_nat (length l) ≤ u32_max.
Definition is_uint (bits z : Z) : Prop := 0 ≤ z < 2 ^ bits.

Class ScaleLaws `{Scale} := {
  u8_correct : correct u8_codec (is_uint 8);
  u16_correct : correct u16_codec (is_uint 16);
  u32_correct : correct u32_codec (is_uint 32);
  u64_correct : correct u64_codec (is_uint 64);
  u128_correct : correct u128_codec (is_uint 128);
  bool_correct : correct bool_codec (λ _, True);
  bytes_correct : correct bytes_codec short;
  string_correct : correct string_codec (λ s, short (String.list_byte_of_string s));
  vec_correct {A} (c : Codec A) ok : correct c ok → correct (vec_codec c) (λ l, short l ∧ Forall ok l);
  option_correct {A} (c : Codec A) ok : correct c ok →
    correct (option_codec c) (λ o, match o with Some a => ok a | None => True end);
  (** Nothing is decoded from an empty input. *)
  bytes_empty : dec bytes_codec [] = (None, []);
  (** Numbers have a fixed size; the length of a vector takes one to five bytes. *)
  u8_size z : length (enc u8_codec z) = 1%nat;
  u16_size z : length (enc u16_codec z) = 2%nat;
  u64_size z : length (enc u64_codec z) = 8%nat;
  u128_size z : length (enc u128_codec z) = 16%nat;
  bool_size b : length (enc bool_codec b) = 1%nat;
  vec_size {A} (c : Codec A) (l : list A) : short l →
    (∃ n, 1 ≤ n ≤ 5 ∧ length (enc (vec_codec c) l) = n + sum_list (length <$> (enc c <$> l)))%nat;
}.

(** ** Derived codecs *)

(** Two fields. *)
Definition pair_codec {A B} (ca : Codec A) (cb : Codec B) : Codec (A * B) := {|
  enc x := enc ca x.1 ++ enc cb x.2;
  dec b :=
    match dec ca b with
    | (Some a, b) => match dec cb b with (Some y, b) => (Some (a, y), b) | (None, b) => (None, b) end
    | (None, b) => (None, b)
    end;
|}.

(** A struct is the tuple of its fields. *)
Definition map_codec {A B} (to : B → A) (from : A → B) (c : Codec A) : Codec B := {|
  enc x := enc c (to x);
  dec b := match dec c b with (o, b) => (from <$> o, b) end;
|}.

(** The variant with number [i], with its fields under [inj]. *)
Definition enc_variant {A} (i : Z) (c : Codec A) (a : A) : bytes := byte_of i :: enc c a.
Definition dec_variant {A B} (c : Codec A) (inj : A → B) (b : bytes) : option B * bytes :=
  match dec c b with (o, b) => (inj <$> o, b) end.
(** A decoder that looks at the number of the variant first. *)
Definition dec_enum {B} (variants : Z → bytes → option B * bytes) (b : bytes) : option B * bytes :=
  match b with
  | [] => (None, [])
  | i :: b => variants (byte_val i) b
  end.

Lemma pair_correct {A B} (ca : Codec A) (cb : Codec B) oka okb :
  correct ca oka → correct cb okb → correct (pair_codec ca cb) (λ x, oka x.1 ∧ okb x.2).
Proof.
  intros Ha Hb [a b] rest [Hoa Hob]. simpl in *. by rewrite <-app_assoc, Ha, Hb.
Qed.

Lemma map_correct {A B} (to : B → A) (from : A → B) (c : Codec A) (oka : A → Prop) (ok : B → Prop) :
  correct c oka → (∀ b, from (to b) = b) → (∀ b, ok b → oka (to b)) → correct (map_codec to from c) ok.
Proof. intros Hc Hft Hok b rest Hb. simpl. rewrite Hc by auto. simpl. by rewrite Hft. Qed.

Lemma dec_variant_correct {A B} (c : Codec A) (inj : A → B) (ok : A → Prop) a rest :
  correct c ok → ok a → dec_variant c inj (enc c a ++ rest) = (Some (inj a), rest).
Proof. intros Hc Ha. unfold dec_variant. by rewrite Hc. Qed.

Lemma dec_enum_cons {B} (variants : Z → bytes → option B * bytes) i b :
  0 ≤ i < 256 → dec_enum variants (byte_of i :: b) = variants i b.
Proof. intros Hi. simpl. by rewrite byte_val_of. Qed.

(** A correct codec is injective on the values it is correct for. *)
Lemma correct_inj {A} (c : Codec A) ok a b : correct c ok → ok a → ok b → enc c a = enc c b → a = b.
Proof.
  intros Hc Ha Hb He. pose proof (Hc a [] Ha) as H1. pose proof (Hc b [] Hb) as H2. rewrite He, H2 in H1. congruence.
Qed.

#[export] Hint Resolve u8_correct u16_correct u32_correct u64_correct u128_correct bool_correct bytes_correct
  string_correct vec_correct option_correct pair_correct : scale.

(** ** The format *)
Fixpoint le_enc (n : nat) (z : Z) : bytes :=
  match n with O => [] | S n => byte_of (z mod 256) :: le_enc n (z / 256) end.
Fixpoint le_val (b : bytes) : Z :=
  match b with [] => 0 | x :: b => byte_val x + 256 * le_val b end.

Definition le_codec (n : nat) : Codec Z := {|
  enc := le_enc n;
  dec b := if (length b <? n)%nat then (None, b) else (Some (le_val (take n b)), drop n b);
|}.

Lemma le_enc_length n z : length (le_enc n z) = n.
Proof. revert z. induction n as [|n IH]; intros z; simpl; [done|]. by rewrite IH. Qed.

Lemma le_val_enc n z : 0 ≤ z < 256 ^ Z.of_nat n → le_val (le_enc n z) = z.
Proof.
  revert z. induction n as [|n IH]; intros z Hz; simpl; [simpl in Hz; lia|].
  rewrite Nat2Z.inj_succ, Z.pow_succ_r in Hz by lia.
  rewrite byte_val_of by (apply Z.mod_pos_bound; lia). rewrite IH.
  - pose proof (Z.div_mod z 256). lia.
  - split; [apply Z.div_pos; lia|]. apply Z.div_lt_upper_bound; lia.
Qed.

Lemma le_dec_enc n z rest : 0 ≤ z < 256 ^ Z.of_nat n → dec (le_codec n) (le_enc n z ++ rest) = (Some z, rest).
Proof.
  intros Hz. simpl. rewrite length_app, le_enc_length.
  assert ((n + length rest <? n)%nat = false) as -> by (apply Nat.ltb_ge; lia).
  rewrite take_app_length', drop_app_length' by (by rewrite le_enc_length). by rewrite le_val_enc.
Qed.

Lemma le_correct n (bits : Z) : bits = 8 * Z.of_nat n → correct (le_codec n) (is_uint bits).
Proof.
  intros -> z rest Hz. apply le_dec_enc. unfold is_uint in Hz. rewrite Z.pow_mul_r in Hz by lia. done.
Qed.

(** Compact numbers below [2^32]: the two low bits are the mode. *)
Definition compact_enc (n : Z) : bytes :=
  if n <? 2 ^ 6 then le_enc 1 (4 * n)
  else if n <? 2 ^ 14 then le_enc 2 (4 * n + 1)
  else if n <? 2 ^ 30 then le_enc 4 (4 * n + 2)
  else byte_of 3 :: le_enc 4 n.
Definition at_least (low : Z) (r : option Z * bytes) : option Z * bytes :=
  match r with (Some n, b) => if low <=? n then (Some n, b) else (None, b) | r => r end.
Definition div4 (r : option Z * bytes) : option Z * bytes :=
  match r with (Some n, b) => (Some (n / 4), b) | r => r end.
Definition compact_dec (b : bytes) : option Z * bytes :=
  match b with
  | [] => (None, [])
  | x :: b' =>
      match byte_val x mod 4 with
      | 0 => div4 (dec (le_codec 1) b)
      | 1 => at_least (2 ^ 6) (div4 (dec (le_codec 2) b))
      | 2 => at_least (2 ^ 14) (div4 (dec (le_codec 4) b))
      | _ => if byte_val x =? 3 then at_least (2 ^ 30) (dec (le_codec 4) b') else (None, b')
      end
  end.

Lemma compact_small (k : nat) (m n low : Z) rest : (0 < k)%nat → 0 ≤ m < 4 → 0 ≤ n → 4 * n + m < 256 ^ Z.of_nat k →
  le_enc k (4 * n + m) ++ rest = byte_of ((4 * n + m) mod 256) :: tail (le_enc k (4 * n + m) ++ rest) ∧
  byte_val (byte_of ((4 * n + m) mod 256)) mod 4 = m ∧
  div4 (dec (le_codec k) (le_enc k (4 * n + m) ++ rest)) = (Some n, rest).
Proof.
  intros Hk Hm Hn Hlt. split; [by destruct k; [lia|]|]. split.
  - rewrite byte_val_of by (apply Z.mod_pos_bound; lia). Z.to_euclidean_division_equations. lia.
  - rewrite le_dec_enc by lia. simpl. do 2 f_equal. rewrite Z.mul_comm, Z.div_add_l by lia. rewrite Z.div_small by lia. lia.
Qed.

Lemma compact_dec_enc n rest : 0 ≤ n ≤ u32_max → compact_dec (compact_enc n ++ rest) = (Some n, rest).
Proof.
  intros Hn. unfold u32_max in Hn. unfold compact_enc.
  destruct (Z.ltb_spec n (2 ^ 6)) as [Hs|Hs]; [|destruct (Z.ltb_spec n (2 ^ 14)) as [Hs'|Hs'];
    [|destruct (Z.ltb_spec n (2 ^ 30)) as [Hs''|Hs'']]].
  - replace (4 * n) with (4 * n + 0) by lia.
    destruct (compact_small 1 0 n 0 rest) as (E & Em & Ed); [lia..|simpl; lia|].
    rewrite E in Ed |- *. cbn [compact_dec app]. by rewrite Em.
  - destruct (compact_small 2 1 n 0 rest) as (E & Em & Ed); [lia..|simpl; lia|].
    rewrite E in Ed |- *. cbn [compact_dec app]. rewrite Em. cbv iota. rewrite Ed. cbn [at_least].
    by rewrite (proj2 (Z.leb_le (2 ^ 6) n)).
  - destruct (compact_small 4 2 n 0 rest) as (E & Em & Ed); [lia..|simpl; lia|].
    rewrite E in Ed |- *. cbn [compact_dec app]. rewrite Em. cbv iota. rewrite Ed. cbn [at_least].
    by rewrite (proj2 (Z.leb_le (2 ^ 14) n)).
  - cbn [compact_dec app]. rewrite byte_val_of by lia. change (3 mod 4) with 3. cbv iota.
    change (3 =? 3) with true. cbv iota. rewrite le_dec_enc by (simpl; lia). cbn [at_least].
    by rewrite (proj2 (Z.leb_le (2 ^ 30) n)).
Qed.

Lemma compact_enc_length n : (1 ≤ length (compact_enc n) ≤ 5)%nat.
Proof.
  unfold compact_enc. repeat case_match; rewrite ?le_enc_length; simpl; rewrite ?le_enc_length; lia.
Qed.

(** [n] items. *)
Fixpoint dec_items {A} (c : Codec A) (n : nat) (b : bytes) : option (list A) * bytes :=
  match n with
  | O => (Some [], b)
  | S n =>
      match dec c b with
      | (Some a, b) => match dec_items c n b with (Some l, b) => (Some (a :: l), b) | (None, b) => (None, b) end
      | (None, b) => (None, b)
      end
  end.
Definition le_vec {A} (c : Codec A) : Codec (list A) := {|
  enc l := compact_enc (Z.of_nat (length l)) ++ mjoin (enc c <$> l);
  dec b := match compact_dec b with (Some n, b) => dec_items c (Z.to_nat n) b | (None, b) => (None, b) end;
|}.
Definition le_bytes : Codec bytes := {|
  enc l := compact_enc (Z.of_nat (length l)) ++ l;
  dec b := match compact_dec b with
           | (Some n, b) => if (length b <? Z.to_nat n)%nat then (None, b) else (Some (take (Z.to_nat n) b), drop (Z.to_nat n) b)
           | (None, b) => (None, b)
           end;
|}.
Definition le_option {A} (c : Codec A) : Codec (option A) := {|
  enc o := match o with Some a => byte_of 1 :: enc c a | None => [byte_of 0] end;
  dec := dec_enum (λ i b, if i =? 0 then (Some None, b) else if i =? 1 then dec_variant c Some b else (None, b));
|}.
Definition le_bool : Codec bool := {|
  enc b := [byte_of (if b : bool then 1 else 0)];
  dec := dec_enum (λ i b, if i =? 0 then (Some false, b) else if i =? 1 then (Some true, b) else (None, b));
|}.

#[export] Instance scale_le : Scale := {|
  u8_codec := le_codec 1; u16_codec := le_codec 2; u32_codec := le_codec 4; u64_codec := le_codec 8;
  u128_codec := le_codec 16; bool_codec := le_bool; bytes_codec := le_bytes;
  string_codec := map_codec String.list_byte_of_string String.string_of_list_byte le_bytes;
  vec_codec := @le_vec; option_codec := @le_option;
|}.

Lemma dec_items_correct {A} (c : Codec A) ok l rest : correct c ok → Forall ok l →
  dec_items c (length l) (mjoin (enc c <$> l) ++ rest) = (Some l, rest).
Proof.
  intros Hc. induction 1 as [|a l Ha _ IH]; [done|]. rewrite fmap_cons. simpl. rewrite <-app_assoc, Hc by done.
  by rewrite IH.
Qed.

Lemma le_vec_correct {A} (c : Codec A) ok : correct c ok → correct (le_vec c) (λ l, short l ∧ Forall ok l).
Proof.
  intros Hc l rest [Hs Hl]. unfold short in Hs. cbn [le_vec enc dec]. rewrite <-app_assoc, compact_dec_enc by lia.
  rewrite Nat2Z.id. by eapply dec_items_correct.
Qed.

Lemma le_bytes_correct : correct le_bytes short.
Proof.
  intros l rest Hs. unfold short in Hs. cbn [le_bytes enc dec]. rewrite <-app_assoc, compact_dec_enc by lia.
  rewrite Nat2Z.id, length_app. assert ((length l + length rest <? length l)%nat = false) as -> by (apply Nat.ltb_ge; lia).
  by rewrite take_app_length, drop_app_length.
Qed.

#[export] Instance scale_le_laws : ScaleLaws.
Proof.
  constructor; try (by apply le_correct); try (intros; apply le_enc_length).
  - intros b rest _. by destruct b.
  - apply le_bytes_correct.
  - eapply map_correct; [apply le_bytes_correct|apply String.string_of_list_byte_of_string|done].
  - intros A c ok. apply le_vec_correct.
  - intros A c ok Hc [a|] rest Ho; [|done]. cbn [option_codec scale_le le_option enc dec app].
    rewrite dec_enum_cons by lia. cbn. by eapply dec_variant_correct.
  - done.
  - intros b. by destruct b.
  - intros A c l _. exists (length (compact_enc (Z.of_nat (length l)))). split; [apply compact_enc_length|].
    simpl. rewrite length_app. f_equal. induction l as [|a l IH]; [done|]. rewrite !fmap_cons. simpl.
    by rewrite length_app, IH.
Qed.
