(* ===== verification/Substream.v ===== *)
(** * Substreams of the notifications protocol

    Model of [network/protocol/notifications/upgrade/notifications.rs] and
    [upgrade/collec.rs]: the upgrades that negotiate a substream and exchange
    the handshake, the state machine of an inbound substream, the sink of an
    outbound one, and the collection of inbound upgrades a connection offers.

    A negotiated substream is wrapped in [asynchronous_codec::Framed], a
    library: it is the interface [Socket]. A socket carries the state of its
    part of the network, so that it may answer anything at any time. *)

From S2P Require Import Prelude Wire Notifications.

(** [Framed<TSubstream, UviBytes<..>>] as a [Sink] and a [Stream]. Each
    operation returns its answer and the socket afterwards. *)
Class Socket (S : Type) := {
  (** [Framed::new] with [codec.set_max_len]. *)
  framed_new : Reader → Writer → Z → S;
  sk_poll_ready : S → Poll (result unit io_error) * S;
  sk_start_send : S → bytes → result unit io_error * S;
  sk_poll_flush : S → Poll (result unit io_error) * S;
  sk_poll_close : S → Poll (result unit io_error) * S;
  sk_poll_next : S → Poll (option (result bytes io_error)) * S;
}.

Module Upgrade.

(** Maximum allowed size of the two handshake messages, in bytes. *)
Definition MAX_HANDSHAKE_SIZE : Z := 1024.

Record NotificationsIn := mkNotificationsIn {
  in_protocol_names : list ProtocolName;
  in_max_notification_size : Z;
}.

Record NotificationsOut := mkNotificationsOut {
  out_protocol_names : list ProtocolName;
  out_initial_message : bytes;
  out_max_notification_size : Z;
}.

Definition NotificationsIn_new (main : ProtocolName) (fallback : list ProtocolName) (max : Z) :
    NotificationsIn :=
  mkNotificationsIn (main :: fallback) max.

(** A message over [MAX_HANDSHAKE_SIZE] is only logged. *)
Definition NotificationsOut_new (main : ProtocolName) (fallback : list ProtocolName)
    (initial_message : bytes) (max : Z) : NotificationsOut :=
  mkNotificationsOut (main :: fallback) initial_message max.

Definition NotificationsIn_protocol_info (u : NotificationsIn) : list ProtocolName :=
  in_protocol_names u.
Definition NotificationsOut_protocol_info (u : NotificationsOut) : list ProtocolName :=
  out_protocol_names u.

(** State of the handshake sending back process. *)
Inductive NotificationsInSubstreamHandshake :=
  | NotSent
  | PendingSend (message : bytes)
  | Flush
  | Sent
  | ClosingInResponseToRemote
  | BothSidesClosed.

#[export] Instance handshake_eq_dec : EqDecision NotificationsInSubstreamHandshake.
Proof. solve_decision. Defined.

Inductive NotificationsHandshakeError :=
  | HE_Io (e : io_error)
  | HE_TooLarge (requested max : Z)
  | HE_VarintDecode (e : DecodeError).

Definition from_ReadError (e : ReadError) : NotificationsHandshakeError :=
  match e with
  | RE_Io e => HE_Io e
  | RE_Decode e => HE_VarintDecode e
  | RE_Other => HE_Io InvalidData
  end.

Inductive NotificationsOutError := OE_Io (e : io_error).

Section substreams.
Context `{Socket Sk}.

Record NotificationsInSubstream := mkInSubstream {
  in_socket : Sk;
  in_handshake : NotificationsInSubstreamHandshake;
  in_received_handshake : bytes;
}.

Record NotificationsOutSubstream := mkOutSubstream { out_socket : Sk }.

Record NotificationsInOpen := mkInOpen {
  ino_handshake : bytes;
  ino_negotiated_fallback : option ProtocolName;
  ino_substream : NotificationsInSubstream;
}.

Record NotificationsOutOpen := mkOutOpen {
  outo_handshake : bytes;
  outo_negotiated_fallback : option ProtocolName;
  outo_substream : NotificationsOutSubstream;
}.

(** ** The upgrades *)

(** The handshake of the remote: its length, then its bytes. *)
Definition read_handshake `{Varint} (r : Reader) : result bytes NotificationsHandshakeError * Reader :=
  match read_usize r with
  | (Err e, r) => (Err (from_ReadError e), r)
  | (Ok handshake_len, r) =>
      if MAX_HANDSHAKE_SIZE <? handshake_len then (Err (HE_TooLarge handshake_len MAX_HANDSHAKE_SIZE), r)
      else if handshake_len =? 0 then (Ok [], r)
      else
        match read_exact handshake_len r with
        | (Ok handshake, r) => (Ok handshake, r)
        | (Err e, r) => (Err (HE_Io e), r)
        end
  end.

(** [None] when the main name was negotiated. *)
Definition negotiated_fallback (names : list ProtocolName) (negotiated_name : ProtocolName) :
    outcome (option ProtocolName) :=
  main ← index names 0;
  Done (if decide (negotiated_name = main) then None else Some negotiated_name).

Definition upgrade_inbound `{Varint} (u : NotificationsIn) (sock : Reader * Writer)
    (negotiated_name : ProtocolName) : outcome (result NotificationsInOpen NotificationsHandshakeError) :=
  match read_handshake sock.1 with
  | (Err e, _) => Done (Err e)
  | (Ok handshake, r) =>
      let substream := {|
        in_socket := framed_new r sock.2 (usize_from_u64 (in_max_notification_size u));
        in_handshake := NotSent;
        in_received_handshake := handshake |} in
      fallback ← negotiated_fallback (in_protocol_names u) negotiated_name;
      Done (Ok {| ino_handshake := handshake;
                  ino_negotiated_fallback := fallback;
                  ino_substream := substream |})
  end.

Definition upgrade_outbound `{Varint} (u : NotificationsOut) (sock : Reader * Writer)
    (negotiated_name : ProtocolName) : outcome (result NotificationsOutOpen NotificationsHandshakeError) :=
  match write_length_prefixed (out_initial_message u) sock.2 with
  | (Err e, _) => Done (Err (HE_Io e))
  | (Ok tt, w) =>
      match read_handshake sock.1 with
      | (Err e, _) => Done (Err e)
      | (Ok handshake, r) =>
          fallback ← negotiated_fallback (out_protocol_names u) negotiated_name;
          Done (Ok {| outo_handshake := handshake;
                      outo_negotiated_fallback := fallback;
                      outo_substream :=
                        mkOutSubstream (framed_new r w (usize_from_u64 (out_max_notification_size u))) |})
      end
  end.

(** ** The inbound substream *)

(** [*this.handshake = h] and changes of the socket. *)
Definition with_handshake (h : NotificationsInSubstreamHandshake) (s : NotificationsInSubstream) :
    NotificationsInSubstream :=
  mkInSubstream (in_socket s) h (in_received_handshake s).
Definition with_socket (k : Sk) (s : NotificationsInSubstream) : NotificationsInSubstream :=
  mkInSubstream k (in_handshake s) (in_received_handshake s).

(** A second handshake is only logged. *)
Definition send_handshake (message : bytes) (s : NotificationsInSubstream) : NotificationsInSubstream :=
  match in_handshake s with
  | NotSent => with_handshake (PendingSend message) s
  | _ => s
  end.

(** The arms of the loops of [poll_process] and [poll_next] that push the
    handshake, which the two methods share: go round again, be pending or fail
    with an error. The handshake is [Sent] while the arm runs, as
    [mem::replace] leaves it. *)
Inductive pushed := Again | Blocked | Failed (e : io_error).

Definition push_pending (msg : bytes) (s : NotificationsInSubstream) : pushed * NotificationsInSubstream :=
  match sk_poll_ready (in_socket s) with
  | (Ready _, k) =>
      match sk_start_send k msg with
      | (Ok tt, k) => (Again, with_handshake Flush (with_socket k s))
      | (Err err, k) => (Failed err, with_handshake Flush (with_socket k s))
      end
  | (Pending, k) => (Blocked, with_handshake (PendingSend msg) (with_socket k s))
  end.

Definition push_flush (s : NotificationsInSubstream) : pushed * NotificationsInSubstream :=
  match sk_poll_flush (in_socket s) with
  | (Ready (Err e), k) => (Failed e, with_handshake Sent (with_socket k s))
  | (Ready (Ok tt), k) => (Again, with_handshake Sent (with_socket k s))
  | (Pending, k) => (Blocked, with_handshake Flush (with_socket k s))
  end.

(** [Poll<Result<Infallible, io::Error>>] *)
Definition pushed_process (p : pushed * NotificationsInSubstream) :
    NotificationsInSubstream + (Poll (result Empty_set io_error) * NotificationsInSubstream) :=
  match p with
  | (Again, s) => inl s
  | (Blocked, s) => inr (Pending, s)
  | (Failed e, s) => inr (Ready (Err e), s)
  end.

Definition poll_process_body (s : NotificationsInSubstream) :
    NotificationsInSubstream + (Poll (result Empty_set io_error) * NotificationsInSubstream) :=
  match in_handshake s with
  | PendingSend msg => pushed_process (push_pending msg (with_handshake Sent s))
  | Flush => pushed_process (push_flush (with_handshake Sent s))
  | NotSent | Sent | ClosingInResponseToRemote | BothSidesClosed => inr (Pending, s)
  end.

(** [Poll<Option<Result<BytesMut, io::Error>>>] *)
Definition pushed_next (p : pushed * NotificationsInSubstream) :
    NotificationsInSubstream + (Poll (option (result bytes io_error)) * NotificationsInSubstream) :=
  match p with
  | (Again, s) => inl s
  | (Blocked, s) => inr (Pending, s)
  | (Failed e, s) => inr (Ready (Some (Err e)), s)
  end.

Definition poll_next_body (s : NotificationsInSubstream) :
    NotificationsInSubstream + (Poll (option (result bytes io_error)) * NotificationsInSubstream) :=
  match in_handshake s with
  | NotSent => inr (Pending, s)
  | PendingSend msg => pushed_next (push_pending msg (with_handshake Sent s))
  | Flush => pushed_next (push_flush (with_handshake Sent s))
  | Sent =>
      match sk_poll_next (in_socket s) with
      | (Ready None, k) => inl (with_handshake ClosingInResponseToRemote (with_socket k s))
      | (Ready (Some msg), k) => inr (Ready (Some msg), with_handshake Sent (with_socket k s))
      | (Pending, k) => inr (Pending, with_handshake Sent (with_socket k s))
      end
  | ClosingInResponseToRemote =>
      match sk_poll_close (in_socket s) with
      | (Ready (Err e), k) => inr (Ready (Some (Err e)), with_handshake Sent (with_socket k s))
      | (Ready (Ok tt), k) => inl (with_handshake BothSidesClosed (with_socket k s))
      | (Pending, k) => inr (Pending, with_handshake ClosingInResponseToRemote (with_socket k s))
      end
  | BothSidesClosed => inr (Ready None, with_handshake Sent s)
  end.

(** Every round moves on in the order of this rank, so that six rounds are
    enough ([poll_loops_return]). *)
Definition handshake_rank (h : NotificationsInSubstreamHandshake) : nat :=
  match h with
  | PendingSend _ => 5 | Flush => 4 | Sent => 3 | ClosingInResponseToRemote => 2
  | NotSent | BothSidesClosed => 1
  end.
Definition handshake_rounds : nat := 6.

Definition poll_process (s : NotificationsInSubstream) :
    Poll (result Empty_set io_error) * NotificationsInSubstream :=
  default (Pending, s) (loop poll_process_body handshake_rounds s).

Definition poll_next (s : NotificationsInSubstream) :
    Poll (option (result bytes io_error)) * NotificationsInSubstream :=
  default (Pending, s) (loop poll_next_body handshake_rounds s).

(** ** The outbound substream *)

Definition poll_map_err {E F} (f : E → F) (p : Poll (result unit E)) : Poll (result unit F) :=
  match p with
  | Pending => Pending
  | Ready (Ok tt) => Ready (Ok tt)
  | Ready (Err e) => Ready (Err (f e))
  end.

Definition out_poll_ready (s : NotificationsOutSubstream) :
    Poll (result unit NotificationsOutError) * NotificationsOutSubstream :=
  let '(r, k) := sk_poll_ready (out_socket s) in (poll_map_err OE_Io r, mkOutSubstream k).

Definition out_start_send (item : bytes) (s : NotificationsOutSubstream) :
    result unit NotificationsOutError * NotificationsOutSubstream :=
  match sk_start_send (out_socket s) item with
  | (Ok tt, k) => (Ok tt, mkOutSubstream k)
  | (Err e, k) => (Err (OE_Io e), mkOutSubstream k)
  end.

Definition out_poll_flush (s : NotificationsOutSubstream) :
    Poll (result unit NotificationsOutError) * NotificationsOutSubstream :=
  let '(r, k) := sk_poll_flush (out_socket s) in (poll_map_err OE_Io r, mkOutSubstream k).

Definition out_poll_close (s : NotificationsOutSubstream) :
    Poll (result unit NotificationsOutError) * NotificationsOutSubstream :=
  let '(r, k) := sk_poll_close (out_socket s) in (poll_map_err OE_Io r, mkOutSubstream k).
End substreams.

Arguments NotificationsInSubstream Sk : clear implicits.
Arguments NotificationsOutSubstream Sk : clear implicits.
Arguments NotificationsInOpen Sk : clear implicits.
Arguments NotificationsOutOpen Sk : clear implicits.

(** ** [upgrade/collec.rs]: several upgrades of the same type as one *)
Section collec.
Context {T Info Output Error : Type} (info_of : T → list Info).

(** Each name is offered with the number of the upgrade it belongs to. *)
Definition UpgradeCollec_protocol_info (c : list T) : list (Info * nat) :=
  mjoin (imap (λ n p, (λ i, (i, n)) <$> info_of p) c).

(** [Vec::remove] panics out of range; [FutWithUsize] adds the number to the
    result. *)
Definition UpgradeCollec_upgrade_inbound {Sock} (upgrade : T → Sock → Info → outcome (result Output Error))
    (c : list T) (sock : Sock) (info : Info * nat) :
    outcome (result (Output * nat) (Error * nat)) :=
  t ← index c info.2;
  r ← upgrade t sock info.1;
  Done match r with Ok v => Ok (v, info.2) | Err e => Err (e, info.2) end.
End collec.

End Upgrade.
