(* ===== verification/SubstreamTheorems.v ===== *)
(** * Substreams: the handshake and what is read after it

    Theorems about [Substream]: the polling loops return, an inbound substream
    keeps to the protocol whatever its socket and its user do, and a handshake
    crosses the two upgrades unchanged or is refused for its size. *)

From S2P Require Import Prelude Wire Notifications Substream.
Import Upgrade.

(** ** The loops return *)

Section loops.
Context `{Socket Sk}.
Implicit Types s : NotificationsInSubstream Sk.

Lemma push_pending_again msg s s' : push_pending msg s = (Again, s') → in_handshake s' = Flush.
Proof.
  unfold push_pending. destruct (sk_poll_ready _) as [[|a] k]; [done|].
  destruct (sk_start_send k msg) as [[[]|e] k']; [|done]. by intros [= <-].
Qed.

Lemma push_flush_again s s' : push_flush s = (Again, s') → in_handshake s' = Sent.
Proof.
  unfold push_flush. destruct (sk_poll_flush _) as [[|[[]|e]] k]; try done. by intros [= <-].
Qed.

Lemma poll_process_body_rank s s' :
  poll_process_body s = inl s' → (handshake_rank (in_handshake s') < handshake_rank (in_handshake s))%nat.
Proof.
  unfold poll_process_body, pushed_process. destruct (in_handshake s) as [|msg| | | |]; try done.
  - destruct (push_pending _ _) as [[] s0] eqn:E; try done. intros [= <-].
    rewrite (push_pending_again _ _ _ E). simpl. lia.
  - destruct (push_flush _) as [[] s0] eqn:E; try done. intros [= <-].
    rewrite (push_flush_again _ _ E). simpl. lia.
Qed.

Lemma poll_next_body_rank s s' :
  poll_next_body s = inl s' → (handshake_rank (in_handshake s') < handshake_rank (in_handshake s))%nat.
Proof.
  unfold poll_next_body, pushed_next. destruct (in_handshake s) as [|msg| | | |]; try done.
  - destruct (push_pending _ _) as [[] s0] eqn:E; try done. intros [= <-].
    rewrite (push_pending_again _ _ _ E). simpl. lia.
  - destruct (push_flush _) as [[] s0] eqn:E; try done. intros [= <-].
    rewrite (push_flush_again _ _ E). simpl. lia.
  - destruct (sk_poll_next _) as [[|[]] k]; try done. intros [= <-]. simpl. lia.
  - destruct (sk_poll_close _) as [[|[[]|]] k]; try done. intros [= <-]. simpl. lia.
Qed.

Lemma handshake_rank_bound h : (handshake_rank h < handshake_rounds)%nat.
Proof. unfold handshake_rounds. destruct h; simpl; lia. Qed.

(** The value the models fall back to when the rounds run out is never used:
    both loops leave by a [return]. *)
Lemma poll_process_returns s : loop poll_process_body handshake_rounds s = Some (poll_process s).
Proof.
  unfold poll_process.
  destruct (loop_ranked poll_process_body _ poll_process_body_rank handshake_rounds s (handshake_rank_bound _)) as [r ->].
  done.
Qed.

Lemma poll_next_returns s : loop poll_next_body handshake_rounds s = Some (poll_next s).
Proof.
  unfold poll_next.
  destruct (loop_ranked poll_next_body _ poll_next_body_rank handshake_rounds s (handshake_rank_bound _)) as [r ->].
  done.
Qed.

(** Hoare rules for the two methods. *)
Lemma poll_process_rule (I : NotificationsInSubstream Sk → Prop) (Q : _ → Prop) s :
  (∀ s, I s → match poll_process_body s with inl s' => I s' | inr r => Q r end) →
  I s → Q (poll_process s).
Proof. intros Hb Hs. exact (loop_inv _ I Q Hb _ _ _ Hs (poll_process_returns s)). Qed.

Lemma poll_next_rule (I : NotificationsInSubstream Sk → Prop) (Q : _ → Prop) s :
  (∀ s, I s → match poll_next_body s with inl s' => I s' | inr r => Q r end) →
  I s → Q (poll_next s).
Proof. intros Hb Hs. exact (loop_inv _ I Q Hb _ _ _ Hs (poll_next_returns s)). Qed.
End loops.

(** ** What is done with a socket

    A socket that keeps a log of the operations on it and their answers. *)
Inductive sock_call :=
  | CReady (r : Poll (result unit io_error))
  | CSend (message : bytes) (r : result unit io_error)
  | CFlush (r : Poll (result unit io_error))
  | CClose (r : Poll (result unit io_error))
  | CNext (r : Poll (option (result bytes io_error))).

Definition logged (Sk : Type) : Type := Sk * list sock_call.

#[export] Instance logged_socket `{Socket Sk} : Socket (logged Sk) := {|
  framed_new r w max := (framed_new r w max, []);
  sk_poll_ready k := let '(r, k') := sk_poll_ready k.1 in (r, (k', k.2 ++ [CReady r]));
  sk_start_send k m := let '(r, k') := sk_start_send k.1 m in (r, (k', k.2 ++ [CSend m r]));
  sk_poll_flush k := let '(r, k') := sk_poll_flush k.1 in (r, (k', k.2 ++ [CFlush r]));
  sk_poll_close k := let '(r, k') := sk_poll_close k.1 in (r, (k', k.2 ++ [CClose r]));
  sk_poll_next k := let '(r, k') := sk_poll_next k.1 in (r, (k', k.2 ++ [CNext r]));
|}.

(** The messages sent, the messages received, the sends the socket accepted,
    the flushes that succeeded, the sends and flushes that failed, the ends of
    the remote's side seen and our closings done. *)
Definition sent_by (c : sock_call) : option bytes := match c with CSend m _ => Some m | _ => None end.
Definition received_by (c : sock_call) : option bytes :=
  match c with CNext (Ready (Some (Ok m))) => Some m | _ => None end.
Definition is_accepted (c : sock_call) : bool := match c with CSend _ (Ok tt) => true | _ => false end.
Definition is_flushed (c : sock_call) : bool := match c with CFlush (Ready (Ok tt)) => true | _ => false end.
Definition is_failed (c : sock_call) : bool :=
  match c with CSend _ (Err _) | CFlush (Ready (Err _)) => true | _ => false end.
Definition is_read (c : sock_call) : bool := match c with CNext _ => true | _ => false end.
Definition is_remote_end (c : sock_call) : bool := match c with CNext (Ready None) => true | _ => false end.
Definition is_our_close (c : sock_call) : bool := match c with CClose (Ready (Ok tt)) => true | _ => false end.

Definition count {A} (f : A → bool) (l : list A) : nat := length (List.filter f l).

Lemma count_app {A} (f : A → bool) l1 l2 : count f (l1 ++ l2) = (count f l1 + count f l2)%nat.
Proof. unfold count. by rewrite List.filter_app, length_app. Qed.

Lemma count_one {A} (f : A → bool) x : count f [x] = if f x then 1%nat else 0%nat.
Proof. unfold count. simpl. by destruct (f x). Qed.

(** The handshake got out: the socket accepted it, and a flush that came later
    succeeded. *)
Definition handshake_delivered (log : list sock_call) : Prop :=
  ∃ l1 c l2 f l3, log = l1 ++ c :: l2 ++ f :: l3 ∧ is_accepted c = true ∧ is_flushed f = true.

(** Nothing is read before the handshake got out, unless sending or flushing it
    has failed before. *)
Definition reads_after_handshake (log : list sock_call) : Prop :=
  ∀ l1 c l2, log = l1 ++ c :: l2 → is_read c = true → handshake_delivered l1 ∨ existsb is_failed l1 = true.

Lemma reads_after_handshake_snoc log c :
  reads_after_handshake log → (is_read c = true → handshake_delivered log ∨ existsb is_failed log = true) →
  reads_after_handshake (log ++ [c]).
Proof.
  intros Hlog Hc l1 c' l2 Heq Hread. destruct l2 as [|c2 l2 _] using rev_ind.
  - apply app_inj_tail in Heq as [-> ->]. by apply Hc.
  - rewrite app_comm_cons, app_assoc in Heq. apply app_inj_tail in Heq as [-> _]. by eapply Hlog.
Qed.

Lemma handshake_delivered_snoc log c : handshake_delivered log → handshake_delivered (log ++ [c]).
Proof.
  intros (l1 & a & l2 & f & l3 & -> & Ha & Hf). exists l1, a, l2, f, (l3 ++ [c]).
  split; [|done]. by rewrite <- app_assoc, <- app_comm_cons, <- app_assoc.
Qed.

Lemma flushed_delivered log c :
  existsb is_accepted log = true → is_flushed c = true → handshake_delivered (log ++ [c]).
Proof.
  intros (a & Ha & Hacc)%existsb_exists Hc. apply in_split in Ha as (l1 & l2 & ->). exists l1, a, l2, c, [].
  split; [|done]. by rewrite <- app_assoc.
Qed.

Lemma existsb_snoc {A} (f : A → bool) l x : existsb f (l ++ [x]) = true ↔ existsb f l = true ∨ f x = true.
Proof. rewrite existsb_app. simpl. by rewrite orb_false_r, orb_true_iff. Qed.

(** What the user of a substream does; the network may change the socket
    between two operations. *)
Inductive in_op (Sk : Type) :=
  | OpSendHandshake (message : bytes)
  | OpProcess
  | OpNext
  | OpNetwork (k : Sk).
Arguments OpSendHandshake {Sk} message.
Arguments OpProcess {Sk}.
Arguments OpNext {Sk}.
Arguments OpNetwork {Sk} k.

Definition handshake_of {Sk} (op : in_op Sk) : option bytes :=
  match op with OpSendHandshake m => Some m | _ => None end.

Definition yielded_by (r : Poll (option (result bytes io_error))) : option bytes :=
  match r with Ready (Some (Ok m)) => Some m | _ => None end.
Definition is_end (r : Poll (option (result bytes io_error))) : bool :=
  match r with Ready None => true | _ => false end.

Section contract.
Context `{Socket Sk}.
Abbreviation substream := (NotificationsInSubstream (logged Sk)).
Implicit Types s : substream.

Definition in_step (s : substream) (op : in_op Sk) :
    list (Poll (option (result bytes io_error))) * substream :=
  match op with
  | OpSendHandshake m => ([], send_handshake m s)
  | OpProcess => ([], (poll_process s).2)
  | OpNext => let '(r, s') := poll_next s in ([r], s')
  | OpNetwork k => ([], with_socket (k, (in_socket s).2) s)
  end.

Fixpoint in_run (ops : list (in_op Sk)) (s : substream) :
    list (Poll (option (result bytes io_error))) * substream :=
  match ops with
  | [] => ([], s)
  | op :: ops =>
      let '(out, s) := in_step s op in
      let '(outs, s) := in_run ops s in
      (out ++ outs, s)
  end.

Definition pending_message (h : NotificationsInSubstreamHandshake) : list bytes :=
  match h with PendingSend m => [m] | _ => [] end.
Definition past_flush (h : NotificationsInSubstreamHandshake) : bool :=
  match h with Sent | ClosingInResponseToRemote | BothSidesClosed => true | _ => false end.
Definition both_closed (h : NotificationsInSubstreamHandshake) : nat :=
  match h with BothSidesClosed => 1 | _ => 0 end.
Definition closing (h : NotificationsInSubstreamHandshake) : nat :=
  match h with ClosingInResponseToRemote => 1 | _ => 0 end.

(** The state of an inbound substream after the handshakes [hs] were given and
    its stream answered [outs]. *)
Record contract (hs : list bytes) (outs : list (Poll (option (result bytes io_error)))) (s : substream) : Prop := {
  ct_sends : omap sent_by (in_socket s).2 ++ pending_message (in_handshake s) = take 1 hs;
  ct_not_sent : in_handshake s = NotSent ↔ hs = [];
  ct_accepted : in_handshake s = Flush →
    existsb is_accepted (in_socket s).2 = true ∨ existsb is_failed (in_socket s).2 = true;
  ct_flushed : past_flush (in_handshake s) = true →
    handshake_delivered (in_socket s).2 ∨ existsb is_failed (in_socket s).2 = true;
  ct_reads : reads_after_handshake (in_socket s).2;
  ct_messages : omap yielded_by outs = omap received_by (in_socket s).2;
  ct_ends : (count is_end outs + both_closed (in_handshake s))%nat = count is_our_close (in_socket s).2;
  ct_remote : (count is_our_close (in_socket s).2 + closing (in_handshake s)
                ≤ count is_remote_end (in_socket s).2)%nat;
}.

(** One operation on the socket: the log grows by [c], the handshake becomes
    [h] and [outs'] is answered. *)
Lemma contract_call hs outs s c k h outs' :
  contract hs outs s →
  in_handshake s ≠ NotSent → h ≠ NotSent →
  match sent_by c with Some m => [m] | None => [] end ++ pending_message h = pending_message (in_handshake s) →
  (h = Flush → in_handshake s = Flush ∨ is_accepted c = true ∨ is_failed c = true) →
  (past_flush h = true → past_flush (in_handshake s) = true ∨
     in_handshake s = Flush ∧ is_flushed c = true ∨ is_failed c = true) →
  (is_read c = true → past_flush (in_handshake s) = true) →
  omap yielded_by outs' = match received_by c with Some m => [m] | None => [] end →
  (count is_end outs' + both_closed h = (if is_our_close c then 1 else 0) + both_closed (in_handshake s))%nat →
  ((if is_our_close c then 1 else 0) + closing h ≤ (if is_remote_end c then 1 else 0) + closing (in_handshake s))%nat →
  contract hs (outs ++ outs') (with_handshake h (with_socket (k, (in_socket s).2 ++ [c]) s)).
Proof.
  intros [Hsend Hns Hacc Hfl Hrd Hmsg Hend Hrem] Hs Hh Hpend Hflush Hpast Hread Hout Hends Hrems.
  split; simpl in *.
  - rewrite <- Hsend, omap_app, <- app_assoc, <- Hpend. f_equal; simpl; by destruct (sent_by c).
  - split; [done|]. intros ?%Hns. done.
  - rewrite !existsb_snoc. intros Hf. destruct (Hflush Hf) as [Hp|Hc]; [destruct (Hacc Hp)|]; tauto.
  - rewrite existsb_snoc. intros [Hp|[[Hp Hc]|Hc]]%Hpast; [|destruct (Hacc Hp)|]; [|by auto using flushed_delivered|tauto..].
    destruct (Hfl Hp); auto using handshake_delivered_snoc.
  - apply reads_after_handshake_snoc; [done|]. auto.
  - rewrite !omap_app, Hmsg, Hout. f_equal; simpl; by destruct (received_by c).
  - rewrite !count_app, !count_one. lia.
  - rewrite !count_app, !count_one. lia.
Qed.

(** The handshake changes without an operation on the socket. *)
Lemma contract_handshake hs outs s h outs' :
  contract hs outs s → in_handshake s ≠ NotSent → h ≠ NotSent →
  pending_message h = pending_message (in_handshake s) →
  h ≠ Flush → (past_flush h = true → past_flush (in_handshake s) = true) →
  omap yielded_by outs' = [] →
  (count is_end outs' + both_closed h = both_closed (in_handshake s))%nat →
  (closing h ≤ closing (in_handshake s))%nat →
  contract hs (outs ++ outs') (with_handshake h s).
Proof.
  intros [Hsend Hns Hacc Hfl Hrd Hmsg Hend Hrem] Hs Hh Hpend Hflush Hpast Hout Hends Hrems. split; simpl in *.
  - by rewrite Hpend.
  - split; [done|]. intros ?%Hns. done.
  - done.
  - auto.
  - done.
  - by rewrite omap_app, Hout, app_nil_r.
  - rewrite count_app. lia.
  - lia.
Qed.

(** Every state the loops pass through keeps the contract. *)
Lemma contract_push_pending hs outs s msg :
  contract hs outs s → in_handshake s = PendingSend msg →
  contract hs (outs ++ []) (push_pending msg (with_handshake Sent s)).2.
Proof.
  intros Hc Hh. unfold push_pending. simpl.
  destruct (sk_poll_ready (in_socket s).1) as [r k] eqn:E. simpl.
  assert (contract hs (outs ++ [])
    (with_handshake (PendingSend msg) (with_socket (k, (in_socket s).2 ++ [CReady r]) s))) as Hready.
  { apply contract_call; rewrite ?Hh; simpl; try done; auto; lia. }
  destruct r as [|a]; [done|]. destruct (sk_start_send k msg) as [r k'] eqn:E'. simpl.
  assert (contract hs ((outs ++ []) ++ [])
    (with_handshake Flush (with_socket (k', ((in_socket s).2 ++ [CReady (Ready a)]) ++ [CSend msg r]) s))) as Hsend.
  { apply (contract_call hs (outs ++ []) _ (CSend msg r) k' Flush [] Hready); simpl; auto; [|lia..].
    destruct r as [[]|e]; auto. }
  rewrite app_nil_r in Hsend. by destruct r as [[]|e].
Qed.

Lemma contract_push_flush hs outs s :
  contract hs outs s → in_handshake s = Flush → contract hs (outs ++ []) (push_flush (with_handshake Sent s)).2.
Proof.
  intros Hc Hh. unfold push_flush. simpl. destruct (sk_poll_flush (in_socket s).1) as [r k] eqn:E. simpl.
  destruct r as [|[[]|e]]; simpl;
    apply (contract_call hs outs s (CFlush _) k _ []); rewrite ?Hh; simpl; try done; auto; lia.
Qed.

Lemma contract_process hs outs s : contract hs outs s → contract hs outs (poll_process s).2.
Proof.
  apply (poll_process_rule (contract hs outs) (λ r, contract hs outs r.2)). clear s. intros s Hc.
  rewrite <- (app_nil_r outs). unfold poll_process_body, pushed_process.
  destruct (in_handshake s) as [|msg| | | |] eqn:Hh; simpl; try by rewrite app_nil_r.
  - pose proof (contract_push_pending hs outs s msg Hc Hh) as Hp. by destruct (push_pending _ _) as [[] s'].
  - pose proof (contract_push_flush hs outs s Hc Hh) as Hp. by destruct (push_flush _) as [[] s'].
Qed.

Lemma contract_next hs outs s :
  contract hs outs s → contract hs (outs ++ [(poll_next s).1]) (poll_next s).2.
Proof.
  apply (poll_next_rule (contract hs outs) (λ r, contract hs (outs ++ [r.1]) r.2)). clear s. intros s Hc.
  assert (∀ r s', contract hs (outs ++ []) s' → yielded_by r = None → is_end r = false → contract hs (outs ++ [r]) s') as Hquiet.
  { intros r s' Hc' Hy He. rewrite app_nil_r in Hc'. destruct Hc' as [????????]. split; try done.
    - rewrite omap_app. simpl. by rewrite Hy, app_nil_r.
    - rewrite count_app, count_one, He. lia. }
  unfold poll_next_body, pushed_next. destruct (in_handshake s) as [|msg| | | |] eqn:Hh; simpl.
  - apply Hquiet; [by rewrite app_nil_r|done..].
  - pose proof (contract_push_pending hs outs s msg Hc Hh) as Hp.
    destruct (push_pending _ _) as [[] s']; simpl in *; [by rewrite app_nil_r in Hp|by apply Hquiet..].
  - pose proof (contract_push_flush hs outs s Hc Hh) as Hp.
    destruct (push_flush _) as [[] s']; simpl in *; [by rewrite app_nil_r in Hp|by apply Hquiet..].
  - destruct (sk_poll_next (in_socket s).1) as [r k] eqn:E. destruct r as [|[[m|e]|]]; simpl.
    4: rewrite <- (app_nil_r outs).
    all: apply contract_call; rewrite ?Hh; simpl; try done; auto; lia.
  - destruct (sk_poll_close (in_socket s).1) as [r k] eqn:E. destruct r as [|[[]|e]]; simpl.
    2: rewrite <- (app_nil_r outs).
    all: apply contract_call; rewrite ?Hh; simpl; try done; auto; lia.
  - apply contract_handshake; rewrite ?Hh; simpl; try done; auto; lia.
Qed.

Lemma contract_send_handshake hs outs s m :
  contract hs outs s → contract (hs ++ [m]) outs (send_handshake m s).
Proof.
  intros [Hsend Hns Hacc Hfl Hrd Hmsg Hend Hrem]. unfold send_handshake.
  destruct (decide (in_handshake s = NotSent)) as [E|E].
  - rewrite E in *. rewrite (proj1 Hns eq_refl) in *. simpl in *. split; simpl; try done; auto.
    rewrite app_nil_r in Hsend. by rewrite Hsend.
  - assert (hs ≠ []) as Hhs by tauto.
    assert (contract (hs ++ [m]) outs s) as Hc.
    { split; try done.
      - rewrite Hsend. by destruct hs.
      - split; [done|]. by destruct hs. }
    by destruct (in_handshake s).
Qed.

Lemma contract_run ops hs outs s :
  contract hs outs s →
  contract (hs ++ omap handshake_of ops) (outs ++ (in_run ops s).1) (in_run ops s).2.
Proof.
  revert hs outs s. induction ops as [|op ops IH]; intros hs outs s Hc; [by rewrite !app_nil_r|]. simpl.
  destruct (in_step s op) as [out s1] eqn:E.
  assert (contract (hs ++ omap handshake_of [op]) (outs ++ out) s1) as Hc1.
  { destruct op as [m| | |k]; simpl in E.
    - injection E as <- <-. rewrite app_nil_r. by apply contract_send_handshake.
    - injection E as <- <-. simpl. rewrite !app_nil_r. by apply contract_process.
    - destruct (poll_next s) as [r s'] eqn:En. injection E as <- <-. simpl. rewrite app_nil_r.
      pose proof (contract_next hs outs s Hc) as Hn. by rewrite En in Hn.
    - injection E as <- <-. simpl. rewrite !app_nil_r. by destruct Hc as [????????]. }
  specialize (IH _ _ _ Hc1). destruct (in_run ops s1) as [outs' s2]. simpl in *.
  rewrite <- !app_assoc in IH. simpl in IH. by destruct (handshake_of op).
Qed.

(** A substream as the inbound upgrade makes it. *)
Definition fresh_substream (k : Sk) (handshake : bytes) : substream :=
  mkInSubstream (k, []) NotSent handshake.

Lemma contract_fresh k handshake : contract [] [] (fresh_substream k handshake).
Proof. split; simpl; try done. by intros [] ?. Qed.
End contract.

(** C14: Whatever its user asks of an inbound substream, in whatever order, and
    whatever the socket answers: the only message ever sent on it is the first
    handshake its user gave, at most once; every read of the socket comes after
    the socket accepted that handshake and then flushed it successfully, or
    after an attempt to send or to flush it that failed (the substream goes on
    to read after such a failure, see [reads_after_failed_flush]); the messages
    it yields are exactly the messages read from the socket, in their order;
    and it ends no more often than both sides have closed. *)
Theorem inbound_substream_protocol `{Socket Sk} (k : Sk) (handshake : bytes) (ops : list (in_op Sk)) :
  let r := in_run ops (fresh_substream k handshake) in
  let log := (in_socket r.2).2 in
  (omap sent_by log = [] ∨ omap sent_by log = take 1 (omap handshake_of ops)) ∧
  reads_after_handshake log ∧
  omap yielded_by r.1 = omap received_by log ∧
  (count is_end r.1 ≤ count is_our_close log ≤ count is_remote_end log)%nat.
Proof.
  simpl. destruct (contract_run ops [] [] _ (contract_fresh k handshake)) as [Hsend _ _ _ Hrd Hmsg Hend Hrem].
  simpl in *. split_and!; [|done|done|lia|lia].
  destruct (pending_message _) as [|m l] eqn:E; [right; by rewrite app_nil_r in Hsend|]. left.
  destruct (omap handshake_of ops); simpl in Hsend; [by destruct (omap sent_by _)|].
  destruct (omap sent_by _) as [|m' l'] eqn:E'; [done|]. rewrite take_0 in Hsend. by destruct l'.
Qed.

(** ** The upgrades *)

Section upgrades.
Context `{Socket Sk} `{VL : VarintLaws}.

Lemma read_handshake_prefixed msg rest e :
  blen msg ≤ u64_max →
  read_handshake (mkReader (length_prefixed msg ++ rest) e) =
    if MAX_HANDSHAKE_SIZE <? blen msg then (Err (HE_TooLarge (blen msg) MAX_HANDSHAKE_SIZE), mkReader (msg ++ rest) e)
    else (Ok msg, mkReader rest e).
Proof.
  intros Hlen. unfold read_handshake, length_prefixed. rewrite <- app_assoc.
  rewrite read_encoded by (split; [apply blen_nonneg|done]).
  destruct (Z.ltb_spec MAX_HANDSHAKE_SIZE (blen msg)); [done|].
  destruct (Z.eqb_spec (blen msg) 0) as [E|E]; [|by rewrite read_exact_app].
  destruct msg as [|b msg]; [done|]. unfold blen in E. simpl in E. lia.
Qed.

Lemma read_handshake_bound r h r' : read_handshake r = (Ok h, r') → blen h ≤ MAX_HANDSHAKE_SIZE.
Proof.
  unfold read_handshake. destruct (read_usize r) as [[n|] r0] eqn:E; [|done].
  destruct (Z.ltb_spec MAX_HANDSHAKE_SIZE n); [done|]. destruct (Z.eqb_spec n 0); [by intros [= <- _]|].
  destruct (read_exact n r0) as [[b|] r1] eqn:Eb; [|done]. intros [= <- _].
  rewrite (read_exact_length _ _ _ _ (proj1 (read_is_usize _ _ _ E)) Eb). done.
Qed.
End upgrades.

(** The handshake of one side crosses the wire unchanged: the inbound and
    the outbound upgrade read exactly the message the remote sent with its
    length in front, leave the bytes behind it to the substream, report the
    negotiated name only when it is a fallback and never panic; a handshake of
    more than 1024 bytes is refused with its size; and no handshake that is
    accepted is longer, whatever bytes the remote sends. *)
Theorem handshake_exchange `{Socket Sk} `{VarintLaws} (main name : ProtocolName)
    (fallback : list ProtocolName) (max : Z) (initial msg rest : bytes) (e : option io_error) (w : Writer)
    (Hlen : blen msg ≤ u64_max) :
  upgrade_inbound (NotificationsIn_new main fallback max) (mkReader (length_prefixed msg ++ rest) e, w) name =
    Done (if MAX_HANDSHAKE_SIZE <? blen msg then Err (HE_TooLarge (blen msg) 1024)
          else Ok {| ino_handshake := msg;
                     ino_negotiated_fallback := if decide (name = main) then None else Some name;
                     ino_substream :=
                       mkInSubstream (framed_new (mkReader rest e) w (usize_from_u64 max)) NotSent msg |}) ∧
  upgrade_outbound (NotificationsOut_new main fallback initial max)
      (mkReader (length_prefixed msg ++ rest) e, fresh_writer) name =
    Done (if MAX_HANDSHAKE_SIZE <? blen msg then Err (HE_TooLarge (blen msg) 1024)
          else Ok {| outo_handshake := msg;
                     outo_negotiated_fallback := if decide (name = main) then None else Some name;
                     outo_substream := mkOutSubstream
                       (framed_new (mkReader rest e) (mkWriter (length_prefixed initial) false [])
                          (usize_from_u64 max)) |}) ∧
  ∀ r h r', read_handshake r = (Ok h, r') → blen h ≤ 1024.
Proof.
  split_and!; [| |apply read_handshake_bound].
  - unfold upgrade_inbound. cbn [fst snd]. rewrite read_handshake_prefixed by done. by destruct (_ <? _).
  - unfold upgrade_outbound. cbn [fst snd]. unfold write_length_prefixed. rewrite write_all_fresh.
    rewrite read_handshake_prefixed by done. by destruct (_ <? _).
Qed.

(** A socket that answers from a script: what it will deliver, and whether its
    remote accepts data. *)
Record scripted := mkScripted { sc_ready : bool; sc_inbox : list (option (result bytes io_error)) }.

#[export] Instance scripted_socket : Socket scripted := {|
  framed_new _ _ _ := mkScripted true [];
  sk_poll_ready k := (if sc_ready k then Ready (Ok tt) else Pending, k);
  sk_start_send k m := (Ok tt, k);
  sk_poll_flush k := (if sc_ready k then Ready (Ok tt) else Pending, k);
  sk_poll_close k := (if sc_ready k then Ready (Ok tt) else Pending, k);
  sk_poll_next k := match sc_inbox k with
                    | [] => (Pending, k)
                    | m :: l => (Ready m, mkScripted (sc_ready k) l)
                    end;
|}.

Definition hello : bytes := [Byte.x68; Byte.x69].

(** A socket whose flushes fail. *)
Definition broken_socket : Socket unit := {|
  framed_new _ _ _ := tt;
  sk_poll_ready k := (Ready (Ok tt), k);
  sk_start_send k m := (Ok tt, k);
  sk_poll_flush k := (Ready (Err InvalidData), k);
  sk_poll_close k := (Ready (Ok tt), k);
  sk_poll_next k := (Ready (Some (Ok [])), k);
|}.

(** A flush that fails leaves the handshake [Sent], documented as successfully
    sent and flushed: the error is reported, and the next poll reads. *)
Example reads_after_failed_flush :
  let r := in_run (H := broken_socket) [OpSendHandshake hello; OpNext; OpNext] (fresh_substream tt []) in
  r.1 = [Ready (Some (Err InvalidData)); Ready (Some (Ok []))] ∧
  (in_socket r.2).2 = [CReady (Ready (Ok tt)); CSend hello (Ok tt); CFlush (Ready (Err InvalidData));
                       CNext (Ready (Some (Ok [])))] ∧
  existsb is_flushed (in_socket r.2).2 = false.
Proof. vm_compute. auto. Qed.

Lemma handshake_exchange_witness :
  upgrade_inbound (NotificationsIn_new "/dot/block"%string [] 16)
    (mkReader (length_prefixed hello ++ [Byte.x2a]) None, fresh_writer) "/dot/block"%string =
  Done (Ok {| ino_handshake := hello; ino_negotiated_fallback := None;
              ino_substream := mkInSubstream (mkScripted true []) NotSent hello |}).
Proof.
  destruct (handshake_exchange (Sk := scripted) "/dot/block"%string "/dot/block"%string [] 16 [] hello
    [Byte.x2a] None fresh_writer ltac:(vm_compute; discriminate)) as [Hin _].
  exact Hin.
Defined.
