(* ===== verification/Handler.v ===== *)
(** * The connection handler of the notifications protocol

    Model of [network/protocol/notifications/handler.rs]: one handler per
    connection, which opens and closes the substreams of every notifications
    protocol as the behaviour commands, reports what the remote does, and moves
    notifications between the substreams and the API.

    The substreams are those of [Substream.v] over any [Socket]. The receiving
    end of a [NotificationsSink] ([stream::Peekable<stream::Select<..>>] over
    two [futures] channels) is the interface [SinkChannel]. The endpoint of the
    connection, which [OpenResultOk] repeats and nobody reads, is left out. *)

From S2P Require Import Prelude Wire Notifications Substream.
Import Upgrade.

Module Handler.

Definition ASYNC_NOTIFICATIONS_BUFFER_SIZE : Z := 8.
Definition SYNC_NOTIFICATIONS_BUFFER_SIZE : Z := 2048.
Definition OPEN_TIMEOUT : Duration := from_secs 10.
Definition INITIAL_KEEPALIVE_TIME : Duration := from_secs 5.

(** Message emitted through the [NotificationsSink]. *)
Inductive NotificationsSinkMessage :=
  | SM_Notification (message : bytes)
  | SM_ForceClose.

(** The pair of channels behind a sink. Allocating them is numbered, so that
    every sink is a new one. [rx_buffered] is what is waiting in the channels,
    in the order in which polling would return it. *)
Class SinkChannel (PeerId NotificationsSink Rx : Type) := {
  sink_new : PeerId → nat → NotificationsSink * Rx;
  rx_poll_peek : Rx → Poll (option NotificationsSinkMessage) * Rx;
  rx_poll_next : Rx → Poll (option NotificationsSinkMessage) * Rx;
  rx_buffered : Rx → list NotificationsSinkMessage;
}.

(** [Peekable]: peeking shows the message the next poll takes, and takes none.
    A new sink is empty. *)
Class SinkChannelLaws (PeerId NotificationsSink Rx : Type) `{SinkChannel PeerId NotificationsSink Rx} := {
  sink_new_empty p n : rx_buffered (sink_new p n).2 = [];
  peek_some r m ms : rx_buffered r = m :: ms →
    ∃ r' r'', rx_poll_peek r = (Ready (Some m), r') ∧ rx_buffered r' = m :: ms ∧
      rx_poll_next r' = (Ready (Some m), r'') ∧ rx_buffered r'' = ms;
  peek_none r : rx_buffered r = [] →
    ∃ x r', rx_poll_peek r = (x, r') ∧ (x = Pending ∨ x = Ready None) ∧ rx_buffered r' = [];
}.

Inductive NotifsHandlerError := SyncNotificationsClogged.

Inductive KeepAlive := KA_Yes | KA_No | KA_Until (t : Instant).

Section handler.
Context {PeerId NotificationsSink Rx : Type} `{SinkChannel PeerId NotificationsSink Rx} `{Socket Sk}.

Inductive State :=
  | Closed (pending_opening : bool)
  | OpenDesiredByRemote (in_substream : NotificationsInSubstream Sk) (pending_opening : bool)
  | Opening (in_substream : option (NotificationsInSubstream Sk))
  | Open (notifications_sink_rx : Rx) (out_substream : option (NotificationsOutSubstream Sk))
      (in_substream : option (NotificationsInSubstream Sk)).

Record Protocol := mkProtocol {
  config : ProtocolConfig;
  in_upgrade : NotificationsIn;
  state : State;
}.

Definition with_state (st : State) (p : Protocol) : Protocol := mkProtocol (config p) (in_upgrade p) st.

(** [ConnectionHandlerEvent]: [SubstreamProtocol::new(proto, index)] with its
    timeout, an event for the behaviour, or closing the connection. *)
Inductive ConnectionHandlerEvent :=
  | OutboundSubstreamRequest (protocol : NotificationsOut) (info : nat) (timeout : Duration)
  | CustomEvent (event : Behaviour.NotifsHandlerOut NotificationsSink)
  | CloseEvent (error : NotifsHandlerError).

Record NotifsHandler := mkNotifsHandler {
  protocols : list Protocol;
  when_connection_open : Instant;
  peer_id : PeerId;
  events_queue : list ConnectionHandlerEvent;
  sinks_created : nat;
}.

Definition with_protocols (ps : list Protocol) (h : NotifsHandler) : NotifsHandler :=
  mkNotifsHandler ps (when_connection_open h) (peer_id h) (events_queue h) (sinks_created h).
Definition with_queue (q : list ConnectionHandlerEvent) (h : NotifsHandler) : NotifsHandler :=
  mkNotifsHandler (protocols h) (when_connection_open h) (peer_id h) q (sinks_created h).
Definition push_back (e : ConnectionHandlerEvent) (h : NotifsHandler) : NotifsHandler :=
  with_queue (events_queue h ++ [e]) h.
Definition with_sinks (n : nat) (h : NotifsHandler) : NotifsHandler :=
  mkNotifsHandler (protocols h) (when_connection_open h) (peer_id h) (events_queue h) n.

(** [self.protocols[i].state] and assignments to it. *)
Definition state_at (i : nat) (h : NotifsHandler) : outcome State :=
  state <$> index (protocols h) i.
Definition set_state (i : nat) (st : State) (h : NotifsHandler) : outcome NotifsHandler :=
  p ← index (protocols h) i;
  Done (with_protocols (<[i := with_state st p]> (protocols h)) h).

(** ** Construction *)

Definition protocol_in_upgrade (cfg : ProtocolConfig) : NotificationsIn :=
  NotificationsIn_new (pc_name cfg) (pc_fallback_names cfg) (pc_max_notification_size cfg).

(** [NotifsHandlerProto] is the list of its protocols. *)
Definition proto_inbound_protocol (cfgs : list ProtocolConfig) : list NotificationsIn :=
  protocol_in_upgrade <$> cfgs.

Definition into_handler (cfgs : list ProtocolConfig) (peer : PeerId) (now : Instant) : NotifsHandler :=
  {| protocols := (λ cfg, mkProtocol cfg (protocol_in_upgrade cfg) (Closed false)) <$> cfgs;
     when_connection_open := now;
     peer_id := peer;
     events_queue := [];
     sinks_created := 0 |}.

Definition listen_protocol (h : NotifsHandler) : list NotificationsIn := in_upgrade <$> protocols h.

Definition connection_keep_alive (h : NotifsHandler) : KeepAlive := KA_Yes.

(** ** Events of the connection *)

Inductive ConnectionEvent :=
  | FullyNegotiatedInbound (protocol : NotificationsInOpen Sk * nat)
  | FullyNegotiatedOutbound (protocol : NotificationsOutOpen Sk) (info : nat)
  | AddressChange
  | DialUpgradeError (info : nat)
  | ListenUpgradeError.

Definition on_negotiated_inbound (opened : NotificationsInOpen Sk) (i : nat) (h : NotifsHandler) :
    outcome NotifsHandler :=
  p ← index (protocols h) i;
  match state p with
  | Closed pending_opening =>
      set_state i (OpenDesiredByRemote (ino_substream opened) pending_opening)
        (push_back (CustomEvent (Behaviour.Out_OpenDesiredByRemote i)) h)
  | OpenDesiredByRemote _ _ => Done h
  | Opening (Some _) | Open _ _ (Some _) => Done h
  | Opening None =>
      set_state i (Opening (Some (send_handshake (pc_handshake (config p)) (ino_substream opened)))) h
  | Open rx out None =>
      set_state i (Open rx out (Some (send_handshake (pc_handshake (config p)) (ino_substream opened)))) h
  end.

Definition on_negotiated_outbound (new_open : NotificationsOutOpen Sk) (i : nat) (h : NotifsHandler) :
    outcome NotifsHandler :=
  st ← state_at i h;
  match st with
  | Closed pending_opening =>
      _ ← debug_assert pending_opening;
      set_state i (Closed false) h
  | OpenDesiredByRemote in_substream pending_opening =>
      _ ← debug_assert pending_opening;
      set_state i (OpenDesiredByRemote in_substream false) h
  | Open _ _ _ => Panicked DebugAssertion
  | Opening in_substream =>
      let '(notifications_sink, rx) := sink_new (peer_id h) (sinks_created h) in
      h ← set_state i (Open rx (Some (outo_substream new_open)) in_substream) (with_sinks (S (sinks_created h)) h);
      Done (push_back (CustomEvent (Behaviour.Out_OpenResultOk i (outo_negotiated_fallback new_open)
                                      (outo_handshake new_open) notifications_sink)) h)
  end.

Definition on_dial_upgrade_error (i : nat) (h : NotifsHandler) : outcome NotifsHandler :=
  st ← state_at i h;
  match st with
  | Closed pending_opening =>
      _ ← debug_assert pending_opening;
      set_state i (Closed false) h
  | OpenDesiredByRemote in_substream pending_opening =>
      _ ← debug_assert pending_opening;
      set_state i (OpenDesiredByRemote in_substream false) h
  | Opening _ =>
      h ← set_state i (Closed false) h;
      Done (push_back (CustomEvent (Behaviour.Out_OpenResultErr i)) h)
  | Open _ _ _ => Panicked DebugAssertion
  end.

Definition on_connection_event (event : ConnectionEvent) (h : NotifsHandler) : outcome NotifsHandler :=
  match event with
  | FullyNegotiatedInbound (opened, protocol_index) => on_negotiated_inbound opened protocol_index h
  | FullyNegotiatedOutbound new_open protocol_index => on_negotiated_outbound new_open protocol_index h
  | AddressChange => Done h
  | DialUpgradeError info => on_dial_upgrade_error info h
  | ListenUpgradeError => Done h
  end.

(** ** Commands of the behaviour *)

(** The request for an outbound substream of protocol [i], unless one is still
    pending. *)
Definition request_substream (pending_opening : bool) (p : Protocol) (handshake : bytes) (i : nat)
    (h : NotifsHandler) : NotifsHandler :=
  if pending_opening then h
  else
    let proto := NotificationsOut_new (pc_name (config p)) (pc_fallback_names (config p)) handshake
                   (pc_max_notification_size (config p)) in
    push_back (OutboundSubstreamRequest proto i OPEN_TIMEOUT) h.

Definition on_open (i : nat) (h : NotifsHandler) : outcome NotifsHandler :=
  p ← index (protocols h) i;
  match state p with
  | Closed pending_opening =>
      set_state i (Opening None) (request_substream pending_opening p (pc_handshake (config p)) i h)
  | OpenDesiredByRemote in_substream pending_opening =>
      let received := in_received_handshake in_substream in
      set_state i (Opening (Some (send_handshake received in_substream)))
        (request_substream pending_opening p received i h)
  | Opening _ | Open _ _ _ => Panicked DebugAssertion
  end.

Definition on_close (i : nat) (h : NotifsHandler) : outcome NotifsHandler :=
  st ← state_at i h;
  h ← match st with
      | Open _ _ _ => set_state i (Closed false) h
      | Opening _ =>
          h ← set_state i (Closed true) h;
          Done (push_back (CustomEvent (Behaviour.Out_OpenResultErr i)) h)
      | OpenDesiredByRemote _ pending_opening => set_state i (Closed pending_opening) h
      | Closed _ => Done h
      end;
  Done (push_back (CustomEvent (Behaviour.Out_CloseResult i)) h).

Definition on_behaviour_event (message : Behaviour.NotifsHandlerIn) (h : NotifsHandler) :
    outcome NotifsHandler :=
  match message with
  | Behaviour.In_Open protocol_index => on_open protocol_index h
  | Behaviour.In_Close protocol_index => on_close protocol_index h
  end.

(** ** [poll] *)

(** The [loop] that moves messages of the sink to the outbound substream. It
    leaves with [true] on a [ForceClose]. *)
Definition send_body (s : Rx * NotificationsOutSubstream Sk) :
    (Rx * NotificationsOutSubstream Sk) + outcome (bool * (Rx * NotificationsOutSubstream Sk)) :=
  match rx_poll_peek s.1 with
  | (Ready (Some SM_ForceClose), rx) => inr (Done (true, (rx, s.2)))
  | (Ready (Some (SM_Notification _)), rx) =>
      match out_poll_ready s.2 with
      | (Ready _, out) =>
          match rx_poll_next rx with
          | (Ready (Some (SM_Notification message)), rx) => inl (rx, (out_start_send message out).2)
          | (Ready (Some SM_ForceClose), _) | (Ready None, _) | (Pending, _) => inr (Panicked DebugAssertion)
          end
      | (Pending, out) => inr (Done (false, (rx, out)))
      end
  | (Ready None, rx) | (Pending, rx) => inr (Done (false, (rx, s.2)))
  end.

(** One round per message that is waiting, and one more
    ([send_messages_returns]). *)
Definition send_messages (rx : Rx) (out : NotificationsOutSubstream Sk) :
    outcome (bool * (Rx * NotificationsOutSubstream Sk)) :=
  default (Done (false, (rx, out))) (loop send_body (S (length (rx_buffered rx))) (rx, out)).

(** A [for] loop over the protocols whose body may [return] an event. *)
Fixpoint for_protocols (body : NotifsHandler → nat → outcome (option ConnectionHandlerEvent * NotifsHandler))
    (ids : list nat) (h : NotifsHandler) : outcome (option ConnectionHandlerEvent * NotifsHandler) :=
  match ids with
  | [] => Done (None, h)
  | i :: ids =>
      r ← body h i;
      match r with
      | (Some ev, h) => Done (Some ev, h)
      | (None, h) => for_protocols body ids h
      end
  end.

Definition send_protocol (h : NotifsHandler) (i : nat) :
    outcome (option ConnectionHandlerEvent * NotifsHandler) :=
  st ← state_at i h;
  match st with
  | Open rx (Some out) in_substream =>
      '(clogged, (rx, out)) ← send_messages rx out;
      h ← set_state i (Open rx (Some out) in_substream) h;
      Done (if clogged : bool then Some (CloseEvent SyncNotificationsClogged) else None, h)
  | _ => Done (None, h)
  end.

Definition flush_protocol (h : NotifsHandler) (i : nat) :
    outcome (option ConnectionHandlerEvent * NotifsHandler) :=
  st ← state_at i h;
  match st with
  | Open rx (Some out) in_substream =>
      match out_poll_flush out with
      | (Pending, out) | (Ready (Ok tt), out) =>
          h ← set_state i (Open rx (Some out) in_substream) h;
          Done (None, h)
      | (Ready (Err _), _) =>
          h ← set_state i (Open rx None in_substream) h;
          Done (Some (CustomEvent (Behaviour.Out_CloseDesired i)), h)
      end
  | Closed _ | Opening _ | Open _ None _ | OpenDesiredByRemote _ _ => Done (None, h)
  end.

Definition inbound_protocol (h : NotifsHandler) (i : nat) :
    outcome (option ConnectionHandlerEvent * NotifsHandler) :=
  st ← state_at i h;
  match st with
  | Closed _ | Opening None => Done (None, h)
  | Open _ _ None => Done (Some (CustomEvent (Behaviour.Out_CloseDesired i)), h)
  | Open rx out (Some in_substream) =>
      match poll_next in_substream with
      | (Pending, s) =>
          h ← set_state i (Open rx out (Some s)) h;
          Done (None, h)
      | (Ready (Some (Ok message)), s) =>
          h ← set_state i (Open rx out (Some s)) h;
          Done (Some (CustomEvent (Behaviour.Out_Notification i message)), h)
      | (Ready None, _) | (Ready (Some (Err _)), _) =>
          h ← set_state i (Open rx out None) h;
          Done (None, h)
      end
  | OpenDesiredByRemote in_substream pending_opening =>
      match poll_process in_substream with
      | (Pending, s) =>
          h ← set_state i (OpenDesiredByRemote s pending_opening) h;
          Done (None, h)
      | (Ready (Ok void), _) => match void with end
      | (Ready (Err _), _) =>
          h ← set_state i (Closed pending_opening) h;
          Done (Some (CustomEvent (Behaviour.Out_CloseDesired i)), h)
      end
  | Opening (Some in_substream) =>
      match poll_process in_substream with
      | (Pending, s) =>
          h ← set_state i (Opening (Some s)) h;
          Done (None, h)
      | (Ready (Ok void), _) => match void with end
      | (Ready (Err _), _) =>
          h ← set_state i (Opening None) h;
          Done (None, h)
      end
  end.

(** The three loops, one after the other, each of which may return. *)
Fixpoint run_phases (phases : list (NotifsHandler → nat → outcome (option ConnectionHandlerEvent * NotifsHandler)))
    (h : NotifsHandler) : outcome (Poll ConnectionHandlerEvent * NotifsHandler) :=
  match phases with
  | [] => Done (Pending, h)
  | phase :: phases =>
      r ← for_protocols phase (seq 0 (length (protocols h))) h;
      match r with
      | (Some ev, h) => Done (Ready ev, h)
      | (None, h) => run_phases phases h
      end
  end.

Definition poll (h : NotifsHandler) : outcome (Poll ConnectionHandlerEvent * NotifsHandler) :=
  match events_queue h with
  | ev :: q => Done (Ready ev, with_queue q h)
  | [] => run_phases [send_protocol; flush_protocol; inbound_protocol] h
  end.
End handler.

Arguments State Rx Sk : clear implicits.
Arguments Protocol Rx Sk : clear implicits.
Arguments NotifsHandler PeerId NotificationsSink Rx Sk : clear implicits.
Arguments ConnectionHandlerEvent NotificationsSink : clear implicits.
Arguments ConnectionEvent Sk : clear implicits.

(** ** [NotificationsSink::send_sync_notification]

    The sender of the synchronous channel, a bounded channel of [futures], is
    an interface: a handle and the channel it shares with its clones and the
    receiver. *)
Inductive TrySendError := TS_Full | TS_Disconnected.

Class MpscSender (Tx Ch : Type) := {
  try_send : Tx → Ch → NotificationsSinkMessage → result unit TrySendError * Tx * Ch;
  clone_sender : Tx → Ch → Tx * Ch;
  ch_queue : Ch → list NotificationsSinkMessage;
}.

(** A message that is accepted is queued at the end, and a refused one is not
    queued; cloning allocates the new sender a slot of its own. *)
Class MpscSenderLaws (Tx Ch : Type) `{MpscSender Tx Ch} := {
  try_send_queue tx ch m :
    let '(r, _, ch') := try_send tx ch m in
    ch_queue ch' = ch_queue ch ++ (if is_ok r then [m] else []);
  clone_queue tx ch : ch_queue (clone_sender tx ch).2 = ch_queue ch;
  clone_slot tx ch m :
    let '(tx', ch') := clone_sender tx ch in (try_send tx' ch' m).1.1 ≠ Err TS_Full;
}.

Section sink.
Context {Tx Ch : Type} `{MpscSender Tx Ch}.

(** [lock] is the content of the mutex [sync_channel]. *)
Definition send_sync_notification (message : bytes) (lock : option Tx) (ch : Ch) :
    outcome (option Tx * Ch) :=
  match lock with
  | None => Done (None, ch)
  | Some tx =>
      match try_send tx ch (SM_Notification message) with
      | (Ok tt, tx, ch) => Done (Some tx, ch)
      | (Err _, tx, ch) =>
          let '(tx2, ch) := clone_sender tx ch in
          let '(result2, _, ch) := try_send tx2 ch SM_ForceClose in
          _ ← debug_assert match result2 with
                           | Ok tt => true
                           | Err TS_Disconnected => true
                           | Err TS_Full => false
                           end;
          Done (None, ch)
      end
  end.
End sink.

End Handler.
