(* ===== verification/HandlerFacts.v ===== *)
(** * The connection handler: effect of each operation

    What every operation of [Handler] does to the phase of each protocol and
    which events it queues, and the relation between a handler, the behaviour's
    view of it and the messages between the two. The claims are in
    [HandlerTheorems]. *)

From S2P Require Import Prelude Wire Notifications Substream SubstreamTheorems Handler.
From S2P Require Import NotificationsFacts.
Import Upgrade Handler.

(** ** Phases *)

(** The state of a protocol without its substreams; the flag is
    [pending_opening]. *)
Inductive phase := PhClosed (pending : bool) | PhDesired (pending : bool) | PhOpening | PhOpen.

Definition is_desired_phase (a : phase) : bool := match a with PhDesired _ => true | _ => false end.

(** Is an outbound substream requested and not negotiated yet? *)
Definition requested (a : phase) : bool :=
  match a with PhClosed b | PhDesired b => b | PhOpening => true | PhOpen => false end.

(** What an event tells the behaviour about one protocol: a request of the
    remote, the answers to commands, or traffic of an open substream. *)
Inductive note := NDesired | NOpenOk | NOpenErr | NCloseOk | NTraffic.

#[export] Instance note_eq_dec : EqDecision note.
Proof. solve_decision. Defined.

Definition note_of {Sink} (i : nat) (ev : Behaviour.NotifsHandlerOut Sink) : option note :=
  match ev with
  | Behaviour.Out_OpenDesiredByRemote j => if decide (j = i) then Some NDesired else None
  | Behaviour.Out_OpenResultOk j _ _ _ => if decide (j = i) then Some NOpenOk else None
  | Behaviour.Out_OpenResultErr j => if decide (j = i) then Some NOpenErr else None
  | Behaviour.Out_CloseResult j => if decide (j = i) then Some NCloseOk else None
  | Behaviour.Out_CloseDesired j | Behaviour.Out_Notification j _ =>
      if decide (j = i) then Some NTraffic else None
  end.

Definition custom_of {Sink} (e : ConnectionHandlerEvent Sink) : option (Behaviour.NotifsHandlerOut Sink) :=
  match e with CustomEvent ev => Some ev | _ => None end.
Definition request_of {Sink} (e : ConnectionHandlerEvent Sink) : option nat :=
  match e with OutboundSubstreamRequest _ i _ => Some i | _ => None end.

Section effects.
Context {PeerId NotificationsSink Rx : Type} `{SinkChannel PeerId NotificationsSink Rx} `{Socket Sk}.
Abbreviation NotifsHandler := (NotifsHandler PeerId NotificationsSink Rx Sk).
Abbreviation State := (State Rx Sk).
Abbreviation Event := (ConnectionHandlerEvent NotificationsSink).
Implicit Types (h : NotifsHandler) (i : nat).

Definition phase_of (st : State) : phase :=
  match st with
  | Closed b => PhClosed b
  | OpenDesiredByRemote _ b => PhDesired b
  | Opening _ => PhOpening
  | Open _ _ _ => PhOpen
  end.

Definition phases h : list phase := (λ p, phase_of (state p)) <$> protocols h.

(** A substream that has been neither accepted nor rejected has not been given
    a handshake. *)
Definition untouched (st : State) : Prop :=
  match st with OpenDesiredByRemote s _ => in_handshake s = NotSent | _ => True end.
Definition untouched_all h : Prop := Forall (λ p, untouched (state p)) (protocols h).

(** Operation [m] on [h] puts protocol [i] into phase [a], queues [new] and
    creates nothing else of interest. *)
Definition moves h i (a : phase) (new : list Event) h' : Prop :=
  phases h' = <[i := a]> (phases h) ∧ events_queue h' = events_queue h ++ new ∧ untouched_all h'.

Lemma lookup_phase h i p : protocols h !! i = Some p → phases h !! i = Some (phase_of (state p)).
Proof. intros Hp. unfold phases. by rewrite list_lookup_fmap, Hp. Qed.

Lemma phase_lookup h i a : phases h !! i = Some a → ∃ p, protocols h !! i = Some p ∧ phase_of (state p) = a.
Proof. unfold phases. rewrite list_lookup_fmap. destruct (protocols h !! i); simpl; naive_solver. Qed.

Lemma runs_set_state i st h p (Q : NotifsHandler → Prop) :
  protocols h !! i = Some p →
  Q (with_protocols (<[i := with_state st p]> (protocols h)) h) → runs (set_state i st h) Q.
Proof. intros Hp HQ. unfold set_state. apply runs_bind. by eapply runs_index. Qed.

Lemma runs_state_at i h p (Q : State → Prop) :
  protocols h !! i = Some p → Q (state p) → runs (state_at i h) Q.
Proof. intros Hp HQ. unfold state_at. apply runs_fmap. by eapply runs_index. Qed.

Lemma phases_insert h i st p :
  phases (with_protocols (<[i := with_state st p]> (protocols h)) h) = <[i := phase_of st]> (phases h).
Proof. unfold phases. simpl. by rewrite list_fmap_insert. Qed.

Lemma untouched_insert h i st p :
  untouched_all h → untouched st → untouched_all (with_protocols (<[i := with_state st p]> (protocols h)) h).
Proof. intros Hall Hst. unfold untouched_all in *. simpl. by apply Forall_insert. Qed.

(** Setting the state of a protocol that is there, possibly after or before
    queueing. *)
Lemma runs_move i st h p (new : list Event) (Q : NotifsHandler → Prop) h0 :
  protocols h !! i = Some p → untouched_all h → untouched st →
  phases h = phases h0 → events_queue h = events_queue h0 ++ new →
  (∀ h', moves h0 i (phase_of st) new h' → Q h') → runs (set_state i st h) Q.
Proof.
  intros Hp Hu Hst Hph Hq HQ. eapply runs_set_state; [done|]. apply HQ. split_and!.
  - by rewrite phases_insert, Hph.
  - done.
  - by apply untouched_insert.
Qed.

Lemma moves_push h i a new h' e : moves h i a new h' → moves h i a (new ++ [e]) (push_back e h').
Proof. intros (Hp & Hq & Hu). split_and!; [exact Hp| |exact Hu]. simpl. by rewrite Hq, app_assoc. Qed.

Lemma untouched_at h i p : untouched_all h → protocols h !! i = Some p → untouched (state p).
Proof. intros Hu Hp. by apply (proj1 (Forall_lookup _ _) Hu i p). Qed.

(** ** Commands *)

Definition request i (pending : bool) (new : list Event) : Prop :=
  omap custom_of new = [] ∧ omap request_of new = if pending then [] else [i].

Lemma request_substream_spec b p hs i h :
  ∃ new, request i b new ∧ events_queue (request_substream b p hs i h) = events_queue h ++ new ∧
    protocols (request_substream b p hs i h) = protocols h.
Proof.
  unfold request_substream. destruct b; simpl.
  - exists []. by rewrite app_nil_r.
  - eexists [_]. split; [|split; reflexivity]. by split.
Qed.

Lemma on_open_effect i h a :
  untouched_all h → phases h !! i = Some a → (∃ b, a = PhClosed b ∨ a = PhDesired b) →
  runs (on_open i h) (λ h', ∃ new, moves h i PhOpening new h' ∧ request i (requested a) new).
Proof.
  intros Hu Ha Hidle. destruct (phase_lookup _ _ _ Ha) as (p & Hp & Hpa). unfold on_open.
  apply runs_bind. eapply runs_index; [done|].
  destruct (state p) as [b|s b|o|rx out ins] eqn:Hst; simpl in Hpa; subst a; [..|naive_solver].
  3: naive_solver.
  - destruct (request_substream_spec b p (pc_handshake (config p)) i h) as (new & Hr & Hq & Hprot).
    eapply (runs_move i _ _ p new _ h);
      [by rewrite Hprot|by unfold untouched_all; rewrite Hprot|done|by unfold phases; rewrite Hprot|done|].
    intros h' Hm. by exists new.
  - destruct (request_substream_spec b p (in_received_handshake s) i h) as (new & Hr & Hq & Hprot).
    eapply (runs_move i _ _ p new _ h);
      [by rewrite Hprot|by unfold untouched_all; rewrite Hprot|done|by unfold phases; rewrite Hprot|done|].
    intros h' Hm. by exists new.
Qed.

Definition closed_phase (a : phase) : phase :=
  match a with PhOpen => PhClosed false | PhOpening => PhClosed true | PhDesired b | PhClosed b => PhClosed b end.
Definition close_events (a : phase) i : list Event :=
  match a with PhOpening => [CustomEvent (Behaviour.Out_OpenResultErr i)] | _ => [] end ++
  [CustomEvent (Behaviour.Out_CloseResult i)].

Lemma on_close_effect i h a :
  untouched_all h → phases h !! i = Some a →
  runs (on_close i h) (moves h i (closed_phase a) (close_events a i)).
Proof.
  intros Hu Ha. destruct (phase_lookup _ _ _ Ha) as (p & Hp & Hpa). unfold on_close.
  apply runs_bind. eapply runs_state_at; [done|]. apply runs_bind.
  destruct (state p) as [b|s b|o|rx out ins] eqn:Hst; simpl in Hpa; subst a; simpl.
  - apply (moves_push _ _ _ []). split_and!; [|by rewrite app_nil_r|done]. symmetry. by apply list_insert_id.
  - eapply (runs_move _ _ _ _ []); [done..|by rewrite app_nil_r|]. intros h' Hm. by apply (moves_push _ _ _ []).
  - apply runs_bind. eapply (runs_move _ _ _ _ []); [done..|by rewrite app_nil_r|]. intros h' Hm.
    apply (moves_push _ _ _ [_]), (moves_push _ _ _ []), Hm.
  - eapply (runs_move _ _ _ _ []); [done..|by rewrite app_nil_r|]. intros h' Hm. by apply (moves_push _ _ _ []).
Qed.

(** ** Events of the connection *)

(** The remote opened a substream; only a closed protocol reports it. *)
Lemma on_inbound_effect opened i h a :
  untouched_all h → in_handshake (ino_substream opened) = NotSent → phases h !! i = Some a →
  runs (on_negotiated_inbound opened i h) (λ h',
    match a with
    | PhClosed b => moves h i (PhDesired b) [CustomEvent (Behaviour.Out_OpenDesiredByRemote i)] h'
    | _ => moves h i a [] h'
    end).
Proof.
  intros Hu Hns Ha. destruct (phase_lookup _ _ _ Ha) as (p & Hp & Hpa). unfold on_negotiated_inbound.
  apply runs_bind. eapply runs_index; [done|].
  assert (moves h i a [] h) as Hid.
  { split_and!; [symmetry; by apply list_insert_id|by rewrite app_nil_r|done]. }
  destruct (state p) as [b|s b|[s|]|rx out [s|]] eqn:Hst; simpl in Hpa; subst a; try (by apply runs_ret).
  - by eapply (runs_move _ _ _ _ [_] _ h).
  - eapply (runs_move _ _ _ _ []); [done..|by rewrite app_nil_r|]. auto.
  - eapply (runs_move _ _ _ _ []); [done..|by rewrite app_nil_r|]. auto.
Qed.

(** A requested substream was negotiated: an opening protocol becomes open, a
    closed one drops it. *)
Lemma on_outbound_effect opened i h a :
  untouched_all h → phases h !! i = Some a → requested a = true →
  runs (on_negotiated_outbound opened i h) (λ h',
    match a with
    | PhOpening => ∃ fb hs sink, moves h i PhOpen [CustomEvent (Behaviour.Out_OpenResultOk i fb hs sink)] h'
    | PhDesired _ => moves h i (PhDesired false) [] h'
    | _ => moves h i (PhClosed false) [] h'
    end).
Proof.
  intros Hu Ha Hreq. destruct (phase_lookup _ _ _ Ha) as (p & Hp & Hpa). unfold on_negotiated_outbound.
  apply runs_bind. eapply runs_state_at; [done|]. pose proof (untouched_at _ _ _ Hu Hp) as Hup.
  destruct (state p) as [b|s b|o|rx out ins] eqn:Hst; simpl in Hpa; subst a; simpl in Hreq; try done; subst.
  - simpl. eapply (runs_move _ _ _ _ []); [done..|by rewrite app_nil_r|]. auto.
  - simpl. eapply (runs_move _ _ _ _ []); [done..|by rewrite app_nil_r|]. auto.
  - destruct (sink_new (peer_id h) (sinks_created h)) as [sink rx]. apply runs_bind.
    eapply (runs_move i _ _ p [] _ h); try done; [by rewrite app_nil_r|]. intros h' Hm. simpl.
    eexists _, _, _. apply (moves_push _ _ _ []), Hm.
Qed.

(** A requested substream could not be negotiated. *)
Lemma on_dial_error_effect i h a :
  untouched_all h → phases h !! i = Some a → requested a = true →
  runs (on_dial_upgrade_error i h) (λ h',
    match a with
    | PhOpening => moves h i (PhClosed false) [CustomEvent (Behaviour.Out_OpenResultErr i)] h'
    | PhDesired _ => moves h i (PhDesired false) [] h'
    | _ => moves h i (PhClosed false) [] h'
    end).
Proof.
  intros Hu Ha Hreq. destruct (phase_lookup _ _ _ Ha) as (p & Hp & Hpa). unfold on_dial_upgrade_error.
  apply runs_bind. eapply runs_state_at; [done|]. pose proof (untouched_at _ _ _ Hu Hp) as Hup.
  destruct (state p) as [b|s b|o|rx out ins] eqn:Hst; simpl in Hpa; subst a; simpl in Hreq; try done; subst.
  - simpl. eapply (runs_move _ _ _ _ []); [done..|by rewrite app_nil_r|]. auto.
  - simpl. eapply (runs_move _ _ _ _ []); [done..|by rewrite app_nil_r|]. auto.
  - apply runs_bind. eapply (runs_move i _ _ p []); [done..|by rewrite app_nil_r|]. intros h' Hm.
    apply (moves_push _ _ _ []), Hm.
Qed.
End effects.

(** ** Sending *)

(** The messages [ms] were handed to the substream, which was ready for each. *)
Inductive pushes `{Socket Sk} :
    NotificationsOutSubstream Sk → list bytes → NotificationsOutSubstream Sk → Prop :=
  | pushes_nil o : pushes o [] o
  | pushes_cons o o1 o2 r m ms :
      out_poll_ready o = (Ready r, o1) → pushes (out_start_send m o1).2 ms o2 → pushes o (m :: ms) o2.

Section sending.
Context {PeerId NotificationsSink Rx : Type} `{SinkChannelLaws PeerId NotificationsSink Rx} `{Socket Sk}.

(** Why sending stops: nothing is waiting, the sink is to be closed, or the
    substream is not ready. *)
Definition stops (rest : list NotificationsSinkMessage) (clogged : bool)
    (out out' : NotificationsOutSubstream Sk) : Prop :=
  match rest with
  | [] => clogged = false ∧ out' = out
  | SM_ForceClose :: _ => clogged = true ∧ out' = out
  | SM_Notification _ :: _ => clogged = false ∧ out_poll_ready out = (Pending, out')
  end.

Lemma send_loop_spec n (rx : Rx) out :
  (length (rx_buffered rx) < n)%nat →
  ∃ sent rest clogged rx' out1 out',
    loop send_body n (rx, out) = Some (Done (clogged, (rx', out'))) ∧
    rx_buffered rx = (SM_Notification <$> sent) ++ rest ∧ rx_buffered rx' = rest ∧
    pushes out sent out1 ∧ stops rest clogged out1 out'.
Proof.
  revert rx out. induction n as [|n IH]; intros rx out Hn; [lia|]. simpl. unfold send_body at 1. simpl.
  destruct (rx_buffered rx) as [|m ms] eqn:Hrx.
  { destruct (peek_none rx Hrx) as (x & rx' & -> & Hx & Hrx').
    exists [], [], false, rx', out, out. split_and!; [by destruct Hx as [->| ->]|done|done|constructor|done]. }
  destruct (peek_some rx m ms Hrx) as (rx1 & rx2 & -> & Hrx1 & Hnext & Hrx2). destruct m as [m|].
  2: { exists [], (SM_ForceClose :: ms), true, rx1, out, out. split_and!; try done; by constructor. }
  destruct (out_poll_ready out) as [[|r] out1] eqn:Hready.
  { exists [], (SM_Notification m :: ms), false, rx1, out, out1. split_and!; try done; by constructor. }
  rewrite Hnext. destruct (IH rx2 (out_start_send m out1).2) as (sent & rest & cl & rx' & o1 & o' & Hl & Hb & Hr & Hp & Hs).
  { rewrite Hrx2. simpl in Hn. lia. }
  exists (m :: sent), rest, cl, rx', o1, o'. split_and!; [done|by rewrite <- Hrx2, Hb|done|by econstructor|done].
Qed.

Lemma send_messages_spec (rx : Rx) out :
  ∃ sent rest clogged rx' out1 out',
    send_messages rx out = Done (clogged, (rx', out')) ∧
    rx_buffered rx = (SM_Notification <$> sent) ++ rest ∧ rx_buffered rx' = rest ∧
    pushes out sent out1 ∧ stops rest clogged out1 out'.
Proof.
  destruct (send_loop_spec (S (length (rx_buffered rx))) rx out) as (sent & rest & cl & rx' & o1 & o' & Hl & Hs);
    [lia|]. exists sent, rest, cl, rx', o1, o'. split; [|done]. unfold send_messages. by rewrite Hl.
Qed.
End sending.

(** ** [poll] *)

Lemma poll_process_not_sent `{Socket Sk} (s : NotificationsInSubstream Sk) :
  in_handshake s = NotSent → poll_process s = (Pending, s).
Proof. intros Hs. unfold poll_process, handshake_rounds. simpl. unfold poll_process_body. by rewrite Hs. Qed.

Section polling.
Context {PeerId NotificationsSink Rx : Type} `{SinkChannelLaws PeerId NotificationsSink Rx} `{Socket Sk}.
Abbreviation NotifsHandler := (NotifsHandler PeerId NotificationsSink Rx Sk).
Abbreviation Event := (ConnectionHandlerEvent NotificationsSink).
Implicit Types (h : NotifsHandler) (i : nat).

(** Nothing changes but substreams and sinks. *)
Definition quiet h h' : Prop :=
  phases h' = phases h ∧ events_queue h' = events_queue h ∧ untouched_all h'.

Lemma quiet_h_trans h1 h2 h3 : quiet h1 h2 → quiet h2 h3 → quiet h1 h3.
Proof. unfold quiet. intuition congruence. Qed.

Lemma quiet_length h h' : quiet h h' → length (protocols h') = length (protocols h).
Proof. intros [Hp _]. apply (f_equal length) in Hp. unfold phases in Hp. by rewrite !length_fmap in Hp. Qed.

(** What polling reports of its own: traffic of an open protocol, or that the
    connection must be closed. *)
Definition traffic (ph : list phase) (ev : Event) : Prop :=
  match ev with
  | OutboundSubstreamRequest _ _ _ => False
  | CustomEvent e => ∃ i, ph !! i = Some PhOpen ∧ ∀ j, note_of j e = if decide (i = j) then Some NTraffic else None
  | CloseEvent _ => True
  end.

Definition body_ok h (r : option Event * NotifsHandler) : Prop :=
  quiet h r.2 ∧ ∀ ev, r.1 = Some ev → traffic (phases h) ev.

Lemma body_ok_none h : untouched_all h → body_ok h (None, h).
Proof. intros Hu. split; [by split_and!|done]. Qed.

(** Setting the state of protocol [i] within its phase. *)
Lemma runs_same_phase i st h p ev :
  untouched_all h → protocols h !! i = Some p → phase_of st = phase_of (state p) → untouched st →
  (∀ e, ev = Some e → traffic (phases h) e) →
  runs (h' ← set_state i st h; Done (ev, h')) (body_ok h).
Proof.
  intros Hu Hp Hph Hst Hev. apply runs_bind.
  eapply (runs_move i _ _ p [] _ h); [done..|by rewrite app_nil_r|]. intros h' (Hm & Hq & Hu'). split; [|done].
  simpl. split_and!; [|by rewrite Hq, app_nil_r|done]. rewrite Hm, Hph. apply list_insert_id. by apply lookup_phase.
Qed.

Lemma traffic_close_desired h i p :
  protocols h !! i = Some p → phase_of (state p) = PhOpen →
  ∀ e, Some (CustomEvent (Behaviour.Out_CloseDesired i)) = Some e → traffic (phases h) e.
Proof.
  intros Hp Hph e [= <-]. exists i. split; [by rewrite (lookup_phase _ _ _ Hp), Hph|done].
Qed.

Lemma send_protocol_ok i h :
  untouched_all h → (i < length (protocols h))%nat → runs (send_protocol h i) (body_ok h).
Proof.
  intros Hu [p Hp]%lookup_lt_is_Some_2. unfold send_protocol. apply runs_bind. eapply runs_state_at; [done|].
  destruct (state p) as [b|s b|o|rx [out|] ins] eqn:Hst; try (by apply body_ok_none).
  destruct (send_messages_spec rx out) as (sent & rest & cl & rx' & o1 & o' & -> & _). simpl.
  eapply runs_same_phase; [done|done|by rewrite Hst|done|]. by destruct cl; intros e [= <-].
Qed.

Lemma flush_protocol_ok i h :
  untouched_all h → (i < length (protocols h))%nat → runs (flush_protocol h i) (body_ok h).
Proof.
  intros Hu [p Hp]%lookup_lt_is_Some_2. unfold flush_protocol. apply runs_bind. eapply runs_state_at; [done|].
  destruct (state p) as [b|s b|o|rx [out|] ins] eqn:Hst; try (by apply body_ok_none).
  destruct (out_poll_flush out) as [[|[[]|e]] out'];
    (eapply runs_same_phase; [done|done|by rewrite Hst|done|]); try done.
  eapply traffic_close_desired; [done|by rewrite Hst].
Qed.

Lemma inbound_protocol_ok i h :
  untouched_all h → (i < length (protocols h))%nat → runs (inbound_protocol h i) (body_ok h).
Proof.
  intros Hu [p Hp]%lookup_lt_is_Some_2. unfold inbound_protocol. apply runs_bind. eapply runs_state_at; [done|].
  pose proof (untouched_at _ _ _ Hu Hp) as Hup.
  destruct (state p) as [b|s b|[s|]|rx out [s|]] eqn:Hst; try (by apply body_ok_none).
  - rewrite poll_process_not_sent by done. eapply runs_same_phase; [done|done|by rewrite Hst|done|done].
  - destruct (poll_process s) as [[|[[]|e]] s'];
      (eapply runs_same_phase; [done|done|by rewrite Hst|done|done]).
  - destruct (poll_next s) as [[|[[m|e]|]] s'];
      (eapply runs_same_phase; [done|done|by rewrite Hst|done|]); try done.
    intros e [= <-]. exists i. split; [by rewrite (lookup_phase _ _ _ Hp), Hst|done].
  - split; [by split_and!|]. eapply traffic_close_desired; [done|by rewrite Hst].
Qed.

Lemma for_protocols_ok (body : NotifsHandler → nat → outcome (option Event * NotifsHandler)) ids h :
  (∀ i h, untouched_all h → (i < length (protocols h))%nat → runs (body h i) (body_ok h)) →
  untouched_all h → Forall (λ i, (i < length (protocols h))%nat) ids →
  runs (for_protocols body ids h) (body_ok h).
Proof.
  intros Hbody. revert h. induction ids as [|i ids IH]; intros h Hu Hids; [by apply body_ok_none|].
  apply Forall_cons in Hids as [Hi Hids]. simpl. apply runs_bind. eapply runs_mono; [by apply Hbody|].
  intros [[ev|] h1] [Hq Hev]; simpl in *; [by split|].
  eapply runs_mono; [apply IH; [apply Hq|by rewrite (quiet_length _ _ Hq)]|].
  intros [o h2] [Hq2 Hev2]. simpl in *. split; [by eapply quiet_h_trans|]. intros ev. simpl.
  destruct Hq as [<- _]. apply Hev2.
Qed.

Definition phases_ok h (r : Poll Event * NotifsHandler) : Prop :=
  quiet h r.2 ∧ ∀ ev, r.1 = Ready ev → traffic (phases h) ev.

Lemma run_phases_ok (l : list (NotifsHandler → nat → outcome (option Event * NotifsHandler))) h :
  Forall (λ body, ∀ i h, untouched_all h → (i < length (protocols h))%nat → runs (body h i) (body_ok h)) l →
  untouched_all h → runs (run_phases l h) (phases_ok h).
Proof.
  intros Hl. revert h. induction Hl as [|body l Hb Hl IH]; intros h Hu.
  { split; [by split_and!|done]. }
  simpl. apply runs_bind. eapply runs_mono; [apply for_protocols_ok; [done|done|]|].
  { apply Forall_seq. simpl. lia. }
  intros [[ev|] h1] [Hq Hev]; simpl in *.
  { split; [done|]. intros e [= <-]. by apply Hev. }
  eapply runs_mono; [apply IH, Hq|]. intros [o h2] [Hq2 Hev2]. simpl in *.
  split; [by eapply quiet_h_trans|]. destruct Hq as [<- _]. apply Hev2.
Qed.

(** Polling takes the next queued event, or looks at the substreams. *)
Lemma poll_effect h :
  untouched_all h →
  runs (poll h) (λ r,
    match events_queue h with
    | ev :: q => r = (Ready ev, with_queue q h)
    | [] => phases_ok h r
    end).
Proof.
  intros Hu. unfold poll. destruct (events_queue h) as [|ev q]; [|done].
  apply run_phases_ok; [|done].
  repeat (apply Forall_cons; split); [intros; by apply send_protocol_ok|intros; by apply flush_protocol_ok|
    intros; by apply inbound_protocol_ok|by apply Forall_nil].
Qed.
End polling.
