(* ===== verification/Connection.v ===== *)
(** * A connection: the behaviour's view, the handler and what is between them

    The behaviour and the handler of a connection run in different tasks and
    exchange commands and events through two queues that keep their order. The
    behaviour's side is what [NotificationsFacts] and [NotificationsSteps] say
    of it: it sends only commands that [obey] allows in its view of the
    connection (proved there of the whole behaviour), and its view follows the
    events as [handler_move] says. The other side is the handler of
    [Handler.v], which the network and the swarm drive as they like.

    [agree] relates the view, the commands under way, the phase of the handler
    and the events under way; [connection_inv] says that it holds for every
    protocol of a connection. *)

From S2P Require Import Prelude Wire Notifications Substream SubstreamTheorems Handler HandlerFacts.
From S2P Require Import PeersState Peerset NotificationsFacts NotificationsSteps.
Import Upgrade Handler.

(** ** Agreement of one protocol *)

Definition od (b : bool) : list note := if b then [NDesired] else [].

Definition idle (a : phase) : Prop := match a with PhClosed _ | PhDesired _ => True | _ => False end.

Definition open_traffic (l : list note) : Prop := Forall (λ n, n = NTraffic) l.

Section agree.
Context {Sink : Type}.
Abbreviation view := (Behaviour.ConnectionState Sink).

Inductive agree : view → list command → phase → list note → Prop :=
  | ag_closed a : idle a → agree Behaviour.Closed [] a (od (is_desired_phase a))
  | ag_desired p : agree Behaviour.OpenDesiredByRemote [] (PhDesired p) []
  | ag_opening_sent a b :
      idle a → (b = true → is_desired_phase a = true) → agree Behaviour.Opening [Cmd_Open] a (od b)
  | ag_opening b : agree Behaviour.Opening [] PhOpening (od b)
  | ag_opening_ok b l : open_traffic l → agree Behaviour.Opening [] PhOpen (od b ++ NOpenOk :: l)
  | ag_opening_err a b :
      idle a → agree Behaviour.Opening [] a (od b ++ NOpenErr :: od (is_desired_phase a))
  | ag_open s l : open_traffic l → agree (Behaviour.Open s) [] PhOpen l
  | ag_otc_sent a b :
      idle a → (b = true → is_desired_phase a = true) →
      agree Behaviour.OpeningThenClosing [Cmd_Open; Cmd_Close] a (od b)
  | ag_otc_opening b : agree Behaviour.OpeningThenClosing [Cmd_Close] PhOpening (od b)
  | ag_otc_ok b l :
      open_traffic l → agree Behaviour.OpeningThenClosing [Cmd_Close] PhOpen (od b ++ NOpenOk :: l)
  | ag_otc_err a b :
      idle a → agree Behaviour.OpeningThenClosing [Cmd_Close] a (od b ++ NOpenErr :: od (is_desired_phase a))
  | ag_otc_err_closed a b b' :
      idle a →
      agree Behaviour.OpeningThenClosing [] a
        (od b ++ NOpenErr :: od b' ++ NCloseOk :: od (is_desired_phase a))
  | ag_otc_ok_closed a b l :
      idle a → open_traffic l →
      agree Behaviour.OpeningThenClosing [] a
        (od b ++ NOpenOk :: l ++ NCloseOk :: od (is_desired_phase a))
  | ag_closing_open l : open_traffic l → agree Behaviour.Closing [Cmd_Close] PhOpen l
  | ag_closing_idle a b :
      idle a → (b = true → is_desired_phase a = true) → agree Behaviour.Closing [Cmd_Close] a (od b)
  | ag_closing_traffic a l :
      idle a → open_traffic l → agree Behaviour.Closing [] a (l ++ NCloseOk :: od (is_desired_phase a))
  | ag_closing_desired a b :
      idle a → agree Behaviour.Closing [] a (od b ++ NCloseOk :: od (is_desired_phase a)).

Hint Constructors agree : core.

(** The behaviour sends a command that its view allows. *)
Lemma agree_command v v' cs a ns cmd :
  agree v cs a ns → obey v cmd = Some v' → agree v' (cs ++ [cmd]) a ns.
Proof.
  intros Hag. destruct Hag, cmd; simpl; intros [= <-]; simpl; auto.
  - by apply (ag_opening_sent _ false).
  - by apply (ag_closing_idle _ false).
Qed.

(** The handler takes a command. *)
Definition after_command (a : phase) (cmd : command) : option (phase * list note) :=
  match cmd, a with
  | Cmd_Open, (PhClosed _ | PhDesired _) => Some (PhOpening, [])
  | Cmd_Open, (PhOpening | PhOpen) => None
  | Cmd_Close, PhOpening => Some (closed_phase a, [NOpenErr; NCloseOk])
  | Cmd_Close, _ => Some (closed_phase a, [NCloseOk])
  end.

Lemma agree_deliver v cmd cs a ns :
  agree v (cmd :: cs) a ns →
  ∃ a' ns', after_command a cmd = Some (a', ns') ∧ agree v cs a' (ns ++ ns').
Proof.
  intros Hag. inversion Hag; subst.
  - exists PhOpening, []. split; [by destruct a|]. rewrite app_nil_r. auto.
  - exists PhOpening, []. split; [by destruct a|]. rewrite app_nil_r. auto.
  - eexists _, _. split; [done|]. apply (ag_otc_err_closed (PhClosed true) b false I).
  - eexists _, _. split; [done|]. rewrite <- app_assoc. by apply (ag_otc_ok_closed (PhClosed false) b l I).
  - exists (closed_phase a), [NCloseOk]. split; [by destruct a|]. rewrite <- app_assoc.
    destruct a as [p|p| |]; try done; simpl; [apply (ag_otc_err_closed (PhClosed p) b false I)|
      apply (ag_otc_err_closed (PhClosed p) b true I)].
  - eexists _, _. split; [done|]. by apply (ag_closing_traffic (PhClosed false) ns I).
  - exists (closed_phase a), [NCloseOk]. split; [by destruct a|].
    destruct a as [p|p| |]; try done; simpl; apply (ag_closing_desired (PhClosed p) b I).
Qed.

(** The remote opens a substream of a closed protocol. *)
Lemma agree_inbound v cs p ns :
  agree v cs (PhClosed p) ns → agree v cs (PhDesired p) (ns ++ [NDesired]).
Proof.
  intros Hag. inversion Hag; subst; simpl in *.
  - apply (ag_closed (PhDesired p)). done.
  - destruct b; [naive_solver|]. by apply (ag_opening_sent (PhDesired p) true).
  - rewrite <- app_assoc. by apply (ag_opening_err (PhDesired p)).
  - destruct b; [naive_solver|]. by apply (ag_otc_sent (PhDesired p) true).
  - rewrite <- app_assoc. by apply (ag_otc_err (PhDesired p)).
  - rewrite <- app_assoc. simpl. rewrite <- app_assoc. by apply (ag_otc_err_closed (PhDesired p)).
  - rewrite <- app_assoc. simpl. rewrite <- app_assoc. by apply (ag_otc_ok_closed (PhDesired p)).
  - destruct b; [naive_solver|]. by apply (ag_closing_idle (PhDesired p) true).
  - rewrite <- app_assoc. by apply (ag_closing_traffic (PhDesired p)).
  - rewrite <- app_assoc. by apply (ag_closing_desired (PhDesired p)).
Qed.

(** The flag of a pending request does not matter to the behaviour. *)
Definition same_phase (a a' : phase) : Prop :=
  match a, a' with
  | PhClosed _, PhClosed _ | PhDesired _, PhDesired _ | PhOpening, PhOpening | PhOpen, PhOpen => True
  | _, _ => False
  end.

Lemma agree_same v cs a a' ns : same_phase a a' → agree v cs a ns → agree v cs a' ns.
Proof.
  intros Hs Hag.
  assert (is_desired_phase a = is_desired_phase a') as Hd by (by destruct a, a').
  assert (idle a → idle a') as Hi by (by destruct a, a').
  destruct Hag; try (destruct a'; done || eauto; fail); rewrite ?Hd in *; solve [constructor; auto].
Qed.

(** An opening protocol opens or fails. *)
Lemma agree_opened v cs ns : agree v cs PhOpening ns → agree v cs PhOpen (ns ++ [NOpenOk]).
Proof.
  intros Hag. inversion Hag; subst; simpl in *; try done.
  - apply ag_opening_ok, Forall_nil_2.
  - apply ag_otc_ok, Forall_nil_2.
Qed.

Lemma agree_failed v cs ns p : agree v cs PhOpening ns → agree v cs (PhClosed p) (ns ++ [NOpenErr]).
Proof.
  intros Hag. inversion Hag; subst; simpl in *; try done.
  - by apply (ag_opening_err (PhClosed p)).
  - by apply (ag_otc_err (PhClosed p)).
Qed.

(** Traffic of an open protocol. *)
Lemma agree_traffic v cs ns : agree v cs PhOpen ns → agree v cs PhOpen (ns ++ [NTraffic]).
Proof.
  assert (∀ l, open_traffic l → open_traffic (l ++ [NTraffic])) as Hsnoc.
  { intros l Hl. apply Forall_app. split; [done|]. by repeat constructor. }
  intros Hag. inversion Hag; subst; simpl in *; try done; rewrite <- ?app_assoc; simpl; auto.
Qed.

(** What may arrive in which view, and what it makes of it. *)
Definition expects (v : view) (n : note) : bool :=
  match n, v with
  | NDesired, (Behaviour.OpenDesiredByRemote | Behaviour.Open _) => false
  | NDesired, _ => true
  | (NOpenOk | NOpenErr), (Behaviour.Opening | Behaviour.OpeningThenClosing) => true
  | NCloseOk, Behaviour.Closing => true
  | NTraffic, (Behaviour.Open _ | Behaviour.Closing) => true
  | _, _ => false
  end.

Definition view_moves (n : note) (v v' : view) : Prop :=
  match n, v with
  | NDesired, Behaviour.Closed => v' = Behaviour.OpenDesiredByRemote
  | NCloseOk, Behaviour.Closing => v' = Behaviour.Closed
  | NOpenOk, Behaviour.Opening => ∃ s, v' = Behaviour.Open s
  | NOpenErr, Behaviour.Opening => v' = Behaviour.Closed
  | (NOpenOk | NOpenErr), Behaviour.OpeningThenClosing => v' = Behaviour.Closing
  | _, _ => v' = v
  end.

Lemma open_traffic_cons n l : open_traffic (n :: l) → n = NTraffic ∧ open_traffic l.
Proof. intros Hl. by apply Forall_cons in Hl. Qed.

Lemma od_head b n l l' x : od b ++ x :: l = n :: l' →
  (b = true ∧ n = NDesired ∧ l' = x :: l) ∨ (b = false ∧ n = x ∧ l' = l).
Proof. destruct b; simpl; intros [= <- <-]; auto. Qed.

Lemma traffic_head l n l' x r : open_traffic l → l ++ x :: r = n :: l' →
  (l = [] ∧ n = x ∧ l' = r) ∨ (∃ l0, open_traffic l0 ∧ n = NTraffic ∧ l' = l0 ++ x :: r).
Proof.
  intros Hl. destruct l as [|y l]; simpl; intros [= <- <-]; [by left|].
  apply open_traffic_cons in Hl as [-> Hl]. right. by exists l.
Qed.

Lemma od_cons b n l : od b = n :: l → b = true ∧ n = NDesired ∧ l = [].
Proof. destruct b; simpl; [|done]. by intros [= <- <-]. Qed.

(** The behaviour receives the oldest event. *)
Lemma agree_receive v v' cs a n ns :
  agree v cs a (n :: ns) → view_moves n v v' → expects v n = true ∧ agree v' cs a ns.
Proof.
  intros Hag. remember (n :: ns) as ns0 eqn:E. destruct Hag as
    [a Ha|p|a b Ha Hb|b|b l Hl|a b Ha|s' l Hl|a b Ha Hb|b|b l Hl|a b Ha|a b b' Ha|a b l Ha Hl|l Hl
    |a b Ha Hb|a l Ha Hl|a b Ha];
    try (apply od_cons in E as (Hd & -> & ->)); try (apply od_head in E as [(-> & -> & ->)|(-> & -> & ->)]);
    try (apply traffic_head in E as [(-> & -> & ->)|(l0 & Hl0 & -> & ->)]; [..|done]);
    try done; try (subst l; apply open_traffic_cons in Hl as [-> Hl]);
    simpl; intros Hv; try match type of Hv with ex _ => destruct Hv as [s0 Hv] end; subst; (split; [done|]); auto.
  - by destruct a.
  - by apply (ag_opening_sent _ false).
  - apply (ag_opening false).
  - by apply (ag_opening_ok false).
  - by apply (ag_opening_err _ false).
  - by apply (ag_otc_sent _ false).
  - apply (ag_otc_opening false).
  - by apply (ag_otc_ok false).
  - by apply (ag_otc_err _ false).
  - by apply (ag_otc_err_closed _ false).
  - by apply (ag_otc_ok_closed _ false).
  - by apply (ag_closing_idle _ false).
  - by apply (ag_closing_desired _ false).
Qed.
End agree.

(** ** The connection *)

(** What happens: the behaviour sends a command or receives an event, the
    handler takes a command or is polled, the swarm reports a negotiated or a
    failed substream, and the network or the user of the sink changes what the
    sockets and the channels hold. *)
Inductive conn_move (Rx Sk : Type) :=
  | MCommand (i : nat) (cmd : command)
  | MReceive
  | MDeliver
  | MPoll
  | MInbound (i : nat) (k : Sk) (handshake : bytes) (fallback : option ProtocolName)
  | MOutbound (i : nat) (opened : NotificationsOutOpen Sk)
  | MDialError (i : nat)
  | MAddressChange
  | MListenError
  | MNetwork (i : nat) (rx : Rx) (out_k in_k : Sk).
Arguments MCommand {Rx Sk} i cmd.
Arguments MReceive {Rx Sk}.
Arguments MDeliver {Rx Sk}.
Arguments MPoll {Rx Sk}.
Arguments MInbound {Rx Sk} i k handshake fallback.
Arguments MOutbound {Rx Sk} i opened.
Arguments MDialError {Rx Sk} i.
Arguments MAddressChange {Rx Sk}.
Arguments MListenError {Rx Sk}.
Arguments MNetwork {Rx Sk} i rx out_k in_k.

Section connection.
Context {PeerId NotificationsSink Rx : Type} `{SinkChannel PeerId NotificationsSink Rx} `{Socket Sk}.
Abbreviation NotifsHandler := (NotifsHandler PeerId NotificationsSink Rx Sk).
Abbreviation view := (Behaviour.ConnectionState NotificationsSink).

Record connection := mkConnection {
  cn_views : list view;
  cn_commands : list Behaviour.NotifsHandlerIn;
  cn_handler : NotifsHandler;
  cn_events : list (Behaviour.NotifsHandlerOut NotificationsSink);
  cn_requests : list nat;
}.

Definition connection_new (cfgs : list ProtocolConfig) (peer : PeerId) (now : Instant) : connection :=
  {| cn_views := (λ _, Behaviour.Closed) <$> cfgs;
     cn_commands := [];
     cn_handler := into_handler cfgs peer now;
     cn_events := [];
     cn_requests := [] |}.

Definition with_handler (h : NotifsHandler) (c : connection) : connection :=
  mkConnection (cn_views c) (cn_commands c) h (cn_events c) (cn_requests c).

(** The sockets and the channel of a protocol, replaced where there are any. *)
Definition refresh (rx : Rx) (out_k in_k : Sk) (st : State Rx Sk) : State Rx Sk :=
  match st with
  | Closed b => Closed b
  | OpenDesiredByRemote s b => OpenDesiredByRemote (with_socket in_k s) b
  | Opening s => Opening (with_socket in_k <$> s)
  | Open _ out s => Open rx ((λ _, mkOutSubstream out_k) <$> out) (with_socket in_k <$> s)
  end.

(** An outbound substream is reported only if it was requested. *)
Fixpoint take_request (i : nat) (l : list nat) : option (list nat) :=
  match l with
  | [] => None
  | j :: l => if decide (j = i) then Some l else cons j <$> take_request i l
  end.

(** A move that is not possible changes nothing. *)
Definition conn_step (m : conn_move Rx Sk) (c : connection) : outcome connection :=
  match m with
  | MCommand i cmd =>
      match cn_views c !! i ≫= λ v, obey v cmd with
      | Some v => Done (mkConnection (<[i := v]> (cn_views c)) (cn_commands c ++ [to_command cmd i])
                          (cn_handler c) (cn_events c) (cn_requests c))
      | None => Done c
      end
  | MReceive =>
      match cn_events c with
      | ev :: evs =>
          Done (mkConnection (alter (handler_move ev) (event_set ev) (cn_views c)) (cn_commands c)
                  (cn_handler c) evs (cn_requests c))
      | [] => Done c
      end
  | MDeliver =>
      match cn_commands c with
      | cmd :: cmds =>
          h ← on_behaviour_event cmd (cn_handler c);
          Done (mkConnection (cn_views c) cmds h (cn_events c) (cn_requests c))
      | [] => Done c
      end
  | MPoll =>
      r ← poll (cn_handler c);
      let c := with_handler r.2 c in
      match r.1 with
      | Ready (CustomEvent ev) =>
          Done (mkConnection (cn_views c) (cn_commands c) r.2 (cn_events c ++ [ev]) (cn_requests c))
      | Ready (OutboundSubstreamRequest _ i _) =>
          Done (mkConnection (cn_views c) (cn_commands c) r.2 (cn_events c) (cn_requests c ++ [i]))
      | Ready (CloseEvent _) | Pending => Done c
      end
  | MInbound i k handshake fallback =>
      if decide (i < length (cn_views c))%nat then
        h ← on_connection_event (FullyNegotiatedInbound
              (mkInOpen handshake fallback (mkInSubstream k NotSent handshake), i)) (cn_handler c);
        Done (with_handler h c)
      else Done c
  | MOutbound i opened =>
      match take_request i (cn_requests c) with
      | Some l =>
          h ← on_connection_event (FullyNegotiatedOutbound opened i) (cn_handler c);
          Done (mkConnection (cn_views c) (cn_commands c) h (cn_events c) l)
      | None => Done c
      end
  | MDialError i =>
      match take_request i (cn_requests c) with
      | Some l =>
          h ← on_connection_event (DialUpgradeError i) (cn_handler c);
          Done (mkConnection (cn_views c) (cn_commands c) h (cn_events c) l)
      | None => Done c
      end
  | MAddressChange =>
      h ← on_connection_event AddressChange (cn_handler c);
      Done (with_handler h c)
  | MListenError =>
      h ← on_connection_event ListenUpgradeError (cn_handler c);
      Done (with_handler h c)
  | MNetwork i rx out_k in_k =>
      let h := cn_handler c in
      Done (with_handler
        (with_protocols (alter (λ p, with_state (refresh rx out_k in_k (state p)) p) i (protocols h)) h) c)
  end.

Definition conn_run (ms : list (conn_move Rx Sk)) (c : connection) : outcome connection :=
  for_each (λ c m, conn_step m c) ms c.
End connection.
Arguments connection PeerId NotificationsSink Rx Sk : clear implicits.

(** ** The invariant *)

Definition in_index (m : Behaviour.NotifsHandlerIn) : nat :=
  match m with Behaviour.In_Open i | Behaviour.In_Close i => i end.
Definition cmd_for (i : nat) (m : Behaviour.NotifsHandlerIn) : option command :=
  if decide (in_index m = i) then
    Some match m with Behaviour.In_Open _ => Cmd_Open | Behaviour.In_Close _ => Cmd_Close end
  else None.

Section invariant.
Context {PeerId NotificationsSink Rx : Type} `{SinkChannelLaws PeerId NotificationsSink Rx} `{Socket Sk}.
Abbreviation NotifsHandler := (NotifsHandler PeerId NotificationsSink Rx Sk).
Abbreviation connection := (connection PeerId NotificationsSink Rx Sk).
Abbreviation Event := (ConnectionHandlerEvent NotificationsSink).
Implicit Types (c : connection) (h : NotifsHandler).

Definition event_notes (i : nat) (l : list Event) : list note := omap (note_of i) (omap custom_of l).
Definition event_requests (l : list Event) : list nat := omap request_of l.

(** The events under way, oldest first, and the requests that wait for an
    answer of the swarm. *)
Definition notes_for (i : nat) c : list note :=
  omap (note_of i) (cn_events c) ++ event_notes i (events_queue (cn_handler c)).
Definition requests_of c : list nat := cn_requests c ++ event_requests (events_queue (cn_handler c)).
Definition only (i : nat) (l : list nat) : list nat := filter (λ j, j = i) l.

Record connection_inv c : Prop := {
  ci_untouched : untouched_all (cn_handler c);
  ci_length : length (cn_views c) = length (phases (cn_handler c));
  ci_agree i v a :
    cn_views c !! i = Some v → phases (cn_handler c) !! i = Some a →
    agree v (omap (cmd_for i) (cn_commands c)) a (notes_for i c);
  ci_requests i a :
    phases (cn_handler c) !! i = Some a → only i (requests_of c) = if requested a then [i] else [];
  ci_commands_range : Forall (λ m, in_index m < length (cn_views c))%nat (cn_commands c);
  ci_requests_range : Forall (λ j, j < length (cn_views c))%nat (requests_of c);
}.

Lemma event_notes_app i l1 l2 : event_notes i (l1 ++ l2) = event_notes i l1 ++ event_notes i l2.
Proof. unfold event_notes. by rewrite !omap_app. Qed.
Lemma event_requests_app l1 l2 : event_requests (l1 ++ l2) = event_requests l1 ++ event_requests l2.
Proof. apply omap_app. Qed.
Lemma only_app i l1 l2 : only i (l1 ++ l2) = only i l1 ++ only i l2.
Proof. apply filter_app. Qed.
Lemma only_self i : only i [i] = [i].
Proof. unfold only. rewrite filter_cons. by case_decide. Qed.
Lemma only_other i j : i ≠ j → only i [j] = [].
Proof. unfold only. rewrite filter_cons. intros. case_decide; [congruence|done]. Qed.

(** Events and requests of protocol [j] only. *)
Definition concerns (j : nat) (l : list Event) : Prop :=
  ∀ i, i ≠ j → event_notes i l = [] ∧ only i (event_requests l) = [].

(** The handler moves protocol [j], possibly taking a command or the answer to
    a request of it. *)
Lemma inv_handler c cmds reqs h j a a' new :
  connection_inv c → phases (cn_handler c) !! j = Some a → moves (cn_handler c) j a' new h →
  concerns j new →
  (∀ i, i ≠ j → omap (cmd_for i) cmds = omap (cmd_for i) (cn_commands c) ∧ only i reqs = only i (cn_requests c)) →
  (∀ v, cn_views c !! j = Some v → agree v (omap (cmd_for j) cmds) a' (notes_for j c ++ event_notes j new)) →
  only j (reqs ++ event_requests (events_queue (cn_handler c)) ++ event_requests new) = (if requested a' then [j] else []) →
  Forall (λ m, in_index m < length (cn_views c))%nat cmds →
  Forall (λ j, j < length (cn_views c))%nat (reqs ++ event_requests new) →
  connection_inv (mkConnection (cn_views c) cmds h (cn_events c) reqs).
Proof.
  intros [Hu Hl Ha Hr Hrc Hrr] Hj (Hp & Hq & Hu') Hnew Hother Hagree Hreq Hcmds Hreqs.
  split; simpl; [done|by rewrite Hp, length_insert| | |done|].
  - intros i v b Hv Hb. unfold notes_for. simpl. rewrite Hq, event_notes_app, app_assoc.
    rewrite Hp in Hb. destruct (decide (i = j)) as [->|Hij].
    + rewrite list_lookup_insert_eq in Hb by (by eapply lookup_lt_Some). injection Hb as <-. by apply Hagree.
    + rewrite list_lookup_insert_ne in Hb by done. destruct (Hnew i Hij) as [-> _].
      destruct (Hother i Hij) as [-> _]. rewrite app_nil_r. by apply Ha.
  - intros i b Hb. unfold requests_of. simpl. rewrite Hq, event_requests_app.
    rewrite Hp in Hb. destruct (decide (i = j)) as [->|Hij].
    + rewrite list_lookup_insert_eq in Hb by (by eapply lookup_lt_Some). by injection Hb as <-.
    + rewrite list_lookup_insert_ne in Hb by done. rewrite <- (Hr i b Hb). unfold requests_of.
      rewrite !only_app. destruct (Hnew i Hij) as [_ ->]. destruct (Hother i Hij) as [_ ->].
      by rewrite app_nil_r.
  - unfold requests_of in *. simpl. rewrite Hq, event_requests_app. rewrite !Forall_app in *. tauto.
Qed.

Lemma take_request_spec i l l' :
  take_request i l = Some l' →
  i ∈ l ∧ only i l = i :: only i l' ∧ (∀ j, j ≠ i → only j l = only j l') ∧ (∀ P, Forall P l → Forall P l').
Proof.
  revert l'. induction l as [|j l IH]; intros l'; [done|]. simpl. case_decide as E.
  - intros [= <-]. subst j. split_and!.
    + set_solver.
    + unfold only. by rewrite filter_cons_True.
    + intros k Hk. unfold only. by rewrite filter_cons_False by congruence.
    + by intros P [??]%Forall_cons.
  - destruct (take_request i l) as [l0|]; [|done]. simpl. intros [= <-].
    destruct (IH l0 eq_refl) as (Hin & Hi & Ho & HP). split_and!.
    + set_solver.
    + unfold only in *. by rewrite !filter_cons_False.
    + intros k Hk. unfold only in *. rewrite !filter_cons. case_decide; [f_equal|]; by apply Ho.
    + intros P [??]%Forall_cons. apply Forall_cons. auto.
Qed.

Lemma phase_in_range c j : connection_inv c → (j < length (cn_views c))%nat → ∃ a, phases (cn_handler c) !! j = Some a.
Proof. intros Hinv Hj. rewrite (ci_length _ Hinv) in Hj. by apply lookup_lt_is_Some_2 in Hj. Qed.

Lemma view_at c j a : connection_inv c → phases (cn_handler c) !! j = Some a → ∃ v, cn_views c !! j = Some v.
Proof.
  intros Hinv Ha. apply lookup_lt_is_Some_2. rewrite (ci_length _ Hinv). by eapply lookup_lt_Some.
Qed.

Lemma requests_in_range c : connection_inv c → Forall (λ j, j < length (cn_views c))%nat (cn_requests c).
Proof. intros Hinv. pose proof (ci_requests_range _ Hinv) as Hr. by apply Forall_app in Hr as [Hr _]. Qed.

(** A request of protocol [j] that is answered is its only one. *)
Lemma answered_request c j l :
  connection_inv c → take_request j (cn_requests c) = Some l →
  ∃ a, phases (cn_handler c) !! j = Some a ∧ requested a = true ∧
    only j (l ++ event_requests (events_queue (cn_handler c))) = [].
Proof.
  intros Hinv Hl. destruct (take_request_spec _ _ _ Hl) as (Hin & Hj & _).
  assert (j < length (cn_views c))%nat as Hlt.
  { pose proof (ci_requests_range _ Hinv) as Hr. rewrite Forall_forall in Hr. apply Hr. unfold requests_of.
    set_solver. }
  destruct (phase_in_range c j Hinv Hlt) as [a Ha]. exists a.
  pose proof (ci_requests _ Hinv j a Ha) as Hr. unfold requests_of in Hr. rewrite only_app, Hj in Hr.
  rewrite only_app. destruct (requested a); [|done]. simpl in Hr. injection Hr as Hr. done.
Qed.

Lemma concerns_custom j ev : (∀ i, i ≠ j → note_of i ev = None) → concerns j [CustomEvent ev].
Proof. intros Hev i Hi. unfold event_notes. simpl. by rewrite (Hev i Hi). Qed.

Lemma concerns_app j l1 l2 : concerns j l1 → concerns j l2 → concerns j (l1 ++ l2).
Proof.
  intros Hc1 Hc2 i Hi. destruct (Hc1 i Hi) as [Hn1 Hr1], (Hc2 i Hi) as [Hn2 Hr2].
  by rewrite event_notes_app, event_requests_app, only_app, Hn1, Hn2, Hr1, Hr2.
Qed.

Lemma concerns_nil j : concerns j [].
Proof. done. Qed.

(** *** Commands *)

Lemma inv_command c i cmd : connection_inv c → runs (conn_step (MCommand i cmd) c) connection_inv.
Proof.
  intros Hinv. simpl. destruct (cn_views c !! i) as [v|] eqn:Hv; simpl; [|done].
  destruct (obey v cmd) as [v'|] eqn:Hob; [|done]. simpl. destruct Hinv as [Hu Hl Ha Hr Hrc Hrr].
  assert (i < length (cn_views c))%nat as Hlt by (by eapply lookup_lt_Some).
  split; simpl; rewrite ?length_insert; [done|done| |done| |done].
  - intros j w a Hw Hj. rewrite omap_app. simpl. change (agree w (omap (cmd_for j) (cn_commands c) ++
      match cmd_for j (to_command cmd i) with Some y => [y] | None => [] end) a (notes_for j c)).
    destruct (decide (i = j)) as [<-|Hij].
    + rewrite list_lookup_insert_eq in Hw by done. injection Hw as <-.
      replace (cmd_for i (to_command cmd i)) with (Some cmd) by (unfold cmd_for; destruct cmd; simpl; by rewrite decide_True).
      eapply agree_command; [|done]. by apply Ha.
    + rewrite list_lookup_insert_ne in Hw by done.
      replace (cmd_for j (to_command cmd i)) with (@None command)
        by (unfold cmd_for; destruct cmd; simpl; by rewrite decide_False).
      rewrite app_nil_r. by apply Ha.
  - apply Forall_app. split; [done|]. apply Forall_singleton. by destruct cmd.
Qed.

Lemma cmd_for_cons i m ms :
  omap (cmd_for i) (m :: ms) = match cmd_for i m with Some x => [x] | None => [] end ++ omap (cmd_for i) ms.
Proof. simpl. by destruct (cmd_for i m). Qed.

Lemma cmd_for_other i m : i ≠ in_index m → cmd_for i m = None.
Proof. intros Hi. unfold cmd_for. by rewrite decide_False by congruence. Qed.

Lemma inv_deliver c : connection_inv c → runs (conn_step MDeliver c) connection_inv.
Proof.
  intros Hinv. simpl. destruct (cn_commands c) as [|m cmds] eqn:Hcmds; [done|].
  pose proof (ci_commands_range _ Hinv) as Hrange. rewrite Hcmds in Hrange. apply Forall_cons in Hrange as [Hm Hrange].
  set (j := in_index m) in *. destruct (phase_in_range c j Hinv Hm) as [a Ha]. destruct (view_at c j a Hinv Ha) as [v Hv].
  pose proof (ci_agree _ Hinv j v a Hv Ha) as Hag. rewrite Hcmds, cmd_for_cons in Hag.
  pose proof (ci_requests _ Hinv j a Ha) as Hreq. pose proof (ci_requests_range _ Hinv) as Hrr.
  unfold requests_of in Hreq, Hrr. apply Forall_app in Hrr as [Hrr Hrq].
  assert (∀ i, i ≠ j → omap (cmd_for i) cmds = omap (cmd_for i) (cn_commands c) ∧ only i (cn_requests c) = only i (cn_requests c)) as Hother.
  { intros i Hi. by rewrite Hcmds, cmd_for_cons, cmd_for_other. }
  apply runs_bind. destruct m as [i|i]; simpl in j; subst j;
    unfold cmd_for at 1 in Hag; simpl in Hag; rewrite decide_True in Hag by done; simpl in Hag;
    destruct (agree_deliver _ _ _ _ _ Hag) as (a' & ns & Haft & Hag').
  - eapply runs_mono; [apply (on_open_effect i _ a); [apply Hinv|done|]|].
    { destruct a; simpl in Haft; naive_solver. }
    intros h (new & Hmoves & Hcust & Hnew). simpl in Haft.
    assert (a' = PhOpening ∧ ns = []) as [-> ->] by (destruct a; naive_solver).
    assert (∀ k, event_notes k new = []) as Hno by (intros k; unfold event_notes; by rewrite Hcust).
    eapply inv_handler; try done.
    + intros k Hk. split; [by rewrite Hno|]. unfold event_requests. rewrite Hnew.
      destruct (requested a); [done|by apply only_other].
    + intros v' Hv'. rewrite Hv in Hv'. injection Hv' as <-. by rewrite Hno.
    + unfold event_requests at 2. rewrite Hnew, app_assoc, only_app, Hreq. simpl.
      destruct (requested a); [done|]. apply only_self.
    + apply Forall_app. split; [done|]. unfold event_requests. rewrite Hnew. destruct (requested a); [done|].
      by apply Forall_singleton.
  - eapply runs_mono; [apply (on_close_effect i _ a); [apply Hinv|done]|]. intros h Hmoves.
    assert (a' = closed_phase a ∧ ns = event_notes i (close_events (NotificationsSink := NotificationsSink) a i)) as [-> ->].
    { unfold event_notes. destruct a; simpl in *; simplify_eq; repeat case_decide; done. }
    assert (event_requests (close_events (NotificationsSink := NotificationsSink) a i) = []) as Hnr by (by destruct a).
    eapply inv_handler; try done.
    + apply concerns_app; [destruct a; try apply concerns_nil|]; apply concerns_custom; intros k Hk; simpl;
        by rewrite decide_False.
    + intros v' Hv'. rewrite Hv in Hv'. by injection Hv' as <-.
    + rewrite Hnr, app_nil_r, Hreq. by destruct a.
    + by rewrite Hnr, app_nil_r.
Qed.

(** *** Events of the swarm *)

(** The handler moves without taking anything from the queues. *)
Lemma inv_quiet_handler c h j a a' new :
  connection_inv c → phases (cn_handler c) !! j = Some a → moves (cn_handler c) j a' new h →
  concerns j new → event_requests new = [] → requested a' = requested a →
  (∀ (v : Behaviour.ConnectionState NotificationsSink) cs, agree v cs a (notes_for j c) → agree v cs a' (notes_for j c ++ event_notes j new)) →
  connection_inv (with_handler h c).
Proof.
  intros Hinv Ha Hm Hc Hnr Hreq Hag. eapply inv_handler; try done.
  - intros v Hv. apply Hag. by apply (ci_agree _ Hinv).
  - rewrite Hnr, app_nil_r, Hreq. by apply (ci_requests _ Hinv).
  - apply (ci_commands_range _ Hinv).
  - rewrite Hnr, app_nil_r. by apply requests_in_range.
Qed.

Lemma inv_inbound c i k hs fb : connection_inv c → runs (conn_step (MInbound i k hs fb) c) connection_inv.
Proof.
  intros Hinv. simpl. case_decide as Hi; [|done]. destruct (phase_in_range c i Hinv Hi) as [a Ha].
  apply runs_bind. eapply runs_mono; [by apply (on_inbound_effect _ i _ a); [apply Hinv|..]|].
  intros h Hm. simpl. destruct a as [p|p| |].
  - eapply inv_quiet_handler; [done..| |done|done|].
    + apply concerns_custom. intros j Hj. simpl. by rewrite decide_False.
    + intros v cs Hag. unfold event_notes. simpl. rewrite decide_True by done. by apply agree_inbound.
  - eapply inv_quiet_handler; [done..|apply concerns_nil|done|done|]. intros. by rewrite app_nil_r.
  - eapply inv_quiet_handler; [done..|apply concerns_nil|done|done|]. intros. by rewrite app_nil_r.
  - eapply inv_quiet_handler; [done..|apply concerns_nil|done|done|]. intros. by rewrite app_nil_r.
Qed.

(** The swarm answers a request. *)
Lemma inv_answered c h j l a a' new :
  connection_inv c → take_request j (cn_requests c) = Some l →
  phases (cn_handler c) !! j = Some a → moves (cn_handler c) j a' new h →
  only j (l ++ event_requests (events_queue (cn_handler c))) = [] →
  concerns j new → event_requests new = [] → requested a' = false →
  (∀ (v : Behaviour.ConnectionState NotificationsSink) cs, agree v cs a (notes_for j c) → agree v cs a' (notes_for j c ++ event_notes j new)) →
  connection_inv (mkConnection (cn_views c) (cn_commands c) h (cn_events c) l).
Proof.
  intros Hinv Hl Ha Hm Hnone Hc Hnr Hreq Hag.
  destruct (take_request_spec _ _ _ Hl) as (_ & _ & Ho & HP). eapply inv_handler; try done.
  - intros i Hi. split; [done|]. symmetry. by apply Ho.
  - intros v Hv. apply Hag. by apply (ci_agree _ Hinv).
  - rewrite Hnr, app_nil_r, Hreq. done.
  - apply (ci_commands_range _ Hinv).
  - rewrite Hnr, app_nil_r. apply HP. by apply requests_in_range.
Qed.

Lemma agree_flag (v : Behaviour.ConnectionState NotificationsSink) cs a a' ns ns' : same_phase a a' → ns' = [] → agree v cs a ns → agree v cs a' (ns ++ ns').
Proof. intros Hs ->. rewrite app_nil_r. by apply agree_same. Qed.

Lemma inv_outbound c i opened : connection_inv c → runs (conn_step (MOutbound i opened) c) connection_inv.
Proof.
  intros Hinv. simpl. destruct (take_request i (cn_requests c)) as [l|] eqn:Hl; [|done].
  destruct (answered_request c i l Hinv Hl) as (a & Ha & Hreq & Hnone).
  apply runs_bind. eapply runs_mono; [by apply (on_outbound_effect _ i _ a); [apply Hinv|..]|].
  intros h Hm. simpl. destruct a as [p|p| |]; [..|done].
  - eapply inv_answered; [done..|apply concerns_nil|done|done|]. intros v cs. by apply agree_flag.
  - eapply inv_answered; [done..|apply concerns_nil|done|done|]. intros v cs. by apply agree_flag.
  - destruct Hm as (fb & hs & sink & Hm). eapply inv_answered; [done..| |done|done|].
    + apply concerns_custom. intros j Hj. simpl. by rewrite decide_False.
    + intros v cs Hag. unfold event_notes. simpl. rewrite decide_True by done. by apply agree_opened.
Qed.

Lemma inv_dial_error c i : connection_inv c → runs (conn_step (MDialError i) c) connection_inv.
Proof.
  intros Hinv. simpl. destruct (take_request i (cn_requests c)) as [l|] eqn:Hl; [|done].
  destruct (answered_request c i l Hinv Hl) as (a & Ha & Hreq & Hnone).
  apply runs_bind. eapply runs_mono; [by apply (on_dial_error_effect i _ a); [apply Hinv|..]|].
  intros h Hm. simpl. destruct a as [p|p| |]; [..|done].
  - eapply inv_answered; [done..|apply concerns_nil|done|done|]. intros v cs. by apply agree_flag.
  - eapply inv_answered; [done..|apply concerns_nil|done|done|]. intros v cs. by apply agree_flag.
  - eapply inv_answered; [done..| |done|done|].
    + apply concerns_custom. intros j Hj. simpl. by rewrite decide_False.
    + intros v cs Hag. unfold event_notes. simpl. rewrite decide_True by done. by apply agree_failed.
Qed.

(** *** Polling *)

(** An event leaves the queue of the handler. *)
Lemma inv_popped c ev q :
  connection_inv c → events_queue (cn_handler c) = ev :: q →
  connection_inv (mkConnection (cn_views c) (cn_commands c) (with_queue q (cn_handler c))
    (cn_events c ++ match custom_of ev with Some e => [e] | None => [] end)
    (cn_requests c ++ match request_of ev with Some i => [i] | None => [] end)).
Proof.
  intros [Hu Hl Ha Hr Hrc Hrr] Hq. unfold notes_for, requests_of, event_notes, event_requests in *. rewrite Hq in *.
  assert (omap request_of (ev :: q) = match request_of ev with Some i => [i] | None => [] end ++ omap request_of q) as Hreq
    by (simpl; by destruct (request_of ev)).
  split; simpl; [exact Hu|exact Hl| | |exact Hrc|].
  - intros i v a Hv Hp. specialize (Ha i v a Hv Hp). unfold notes_for, event_notes. simpl.
    rewrite omap_app, <- app_assoc. revert Ha. simpl. destruct (custom_of ev) as [e|]; simpl; [|done].
    destruct (note_of i e); done.
  - intros i a Hp. rewrite <- (Hr i a Hp). unfold requests_of, event_requests. simpl. rewrite <- app_assoc, <- Hreq. done.
  - unfold requests_of, event_requests. simpl. rewrite <- app_assoc, <- Hreq. exact Hrr.
Qed.

(** The handler only looks at its substreams. *)
Lemma inv_quiet c h : connection_inv c → quiet (cn_handler c) h → connection_inv (with_handler h c).
Proof.
  intros [Hu Hl Ha Hr Hrc Hrr] (Hp & Hq & Hu').
  unfold notes_for, requests_of in *. split; unfold notes_for, requests_of; simpl; rewrite ?Hp, ?Hq; done.
Qed.

(** Traffic of an open protocol is reported at once. *)
Lemma inv_traffic c ev :
  connection_inv c → events_queue (cn_handler c) = [] → traffic (phases (cn_handler c)) (CustomEvent ev) →
  connection_inv (mkConnection (cn_views c) (cn_commands c) (cn_handler c) (cn_events c ++ [ev]) (cn_requests c)).
Proof.
  intros [Hu Hl Ha Hr Hrc Hrr] Hq (j & Hj & Hev). split; simpl; try done.
  intros i v a Hv Hp. specialize (Ha i v a Hv Hp). unfold notes_for in *. simpl. rewrite Hq in *.
  unfold event_notes in *. simpl in *. rewrite app_nil_r in *. rewrite omap_app. simpl. rewrite Hev.
  case_decide as E; [subst j|by rewrite app_nil_r]. rewrite Hp in Hj. injection Hj as ->. by apply agree_traffic.
Qed.

Lemma inv_poll c : connection_inv c → runs (conn_step MPoll c) connection_inv.
Proof.
  intros Hinv. simpl. apply runs_bind. eapply runs_mono; [apply poll_effect, Hinv|].
  intros r. destruct (events_queue (cn_handler c)) as [|ev q] eqn:Hq.
  - destruct r as [r h]. intros [Hquiet Hev]. simpl in *. pose proof (inv_quiet c h Hinv Hquiet) as Hinv'.
    destruct r as [|[proto i t|e|err]]; [done| | |done].
    + by destruct (Hev _ eq_refl).
    + destruct Hquiet as (Hp & Hq' & _).
      apply (inv_traffic (with_handler h c) e Hinv'); simpl; [by rewrite Hq', Hq|]. rewrite Hp. exact (Hev _ eq_refl).
  - intros ->. simpl. pose proof (inv_popped c ev q Hinv Hq) as Hinv'.
    destruct ev as [proto i t|e|err]; simpl in Hinv'; rewrite ?app_nil_r in Hinv'; exact Hinv'.
Qed.

(** *** Receiving *)

Lemma note_of_set i (ev : Behaviour.NotifsHandlerOut NotificationsSink) :
  note_of i ev = if decide (event_set ev = i) then note_of (event_set ev) ev else None.
Proof. destruct ev; simpl; repeat case_decide; congruence. Qed.

Lemma handler_move_moves i (ev : Behaviour.NotifsHandlerOut NotificationsSink) n v :
  note_of i ev = Some n → view_moves n v (handler_move ev v).
Proof. destruct ev; simpl; case_decide; intros [= <-]; destruct v; simpl; eauto. Qed.

Lemma note_of_own (ev : Behaviour.NotifsHandlerOut NotificationsSink) : ∃ n, note_of (event_set ev) ev = Some n.
Proof. destruct ev; simpl; rewrite decide_True by done; eauto. Qed.

Lemma expected_event c ev evs i n v :
  connection_inv c → cn_events c = ev :: evs → note_of i ev = Some n → cn_views c !! i = Some v → expects v n = true.
Proof.
  intros Hinv Hev Hn Hv. assert (∃ a, phases (cn_handler c) !! i = Some a) as [a Ha].
  { apply phase_in_range; [done|]. by eapply lookup_lt_Some. }
  pose proof (ci_agree _ Hinv i v a Hv Ha) as Hag. unfold notes_for in Hag. rewrite Hev in Hag. simpl in Hag.
  rewrite Hn in Hag. eapply agree_receive; [exact Hag|]. by eapply handler_move_moves.
Qed.

Lemma inv_receive c : connection_inv c → runs (conn_step MReceive c) connection_inv.
Proof.
  intros Hinv. simpl. destruct (cn_events c) as [|ev evs] eqn:Hev; [done|]. simpl.
  destruct Hinv as [Hu Hl Ha Hr Hrc Hrr].
  split; simpl; rewrite ?length_alter; try done.
  intros i v a Hv Hp. unfold notes_for. simpl. rewrite list_lookup_alter in Hv.
  unfold notes_for in Ha. rewrite Hev in Ha. simpl in Ha. destruct (note_of_own ev) as [n Hn].
  case_decide as E.
  - subst i. destruct (cn_views c !! event_set ev) as [w|] eqn:Hw; [|done]. simpl in Hv. injection Hv as <-.
    specialize (Ha _ w a Hw Hp). rewrite Hn in Ha.
    eapply agree_receive; [exact Ha|]. by eapply handler_move_moves.
  - specialize (Ha i v a Hv Hp). rewrite note_of_set, decide_False in Ha by done. done.
Qed.

(** *** The network *)

Lemma inv_network c i rx k1 k2 : connection_inv c → runs (conn_step (MNetwork i rx k1 k2) c) connection_inv.
Proof.
  intros Hinv. simpl. apply inv_quiet; [done|]. split_and!; [|done|].
  - unfold phases. simpl. apply list_eq. intros j. rewrite !list_lookup_fmap, list_lookup_alter.
    case_decide as E; [|done]. subst j. destruct (protocols (cn_handler c) !! i) as [p|]; simpl; [|done].
    by destruct (state p).
  - pose proof (ci_untouched _ Hinv) as Hu. unfold untouched_all in *. simpl. apply Forall_alter; [done|].
    intros p Hp Hup. simpl in *. by destruct (state p).
Qed.

Lemma inv_step c m : connection_inv c → runs (conn_step m c) connection_inv.
Proof.
  intros Hinv. destruct m; [by apply inv_command|by apply inv_receive|by apply inv_deliver|by apply inv_poll|
    by apply inv_inbound|by apply inv_outbound|by apply inv_dial_error| | |by apply inv_network];
    simpl; by destruct c.
Qed.

Lemma connection_inv_new cfgs peer now : connection_inv (connection_new cfgs peer now).
Proof.
  split; simpl.
  - apply Forall_fmap, Forall_true. done.
  - unfold phases. simpl. by rewrite !length_fmap.
  - intros i v a Hv Ha. unfold phases in Ha. simpl in Ha. rewrite !list_lookup_fmap in *.
    destruct (cfgs !! i); simplify_eq/=. by apply (ag_closed (PhClosed false)).
  - intros i a Ha. unfold phases in Ha. simpl in Ha. rewrite !list_lookup_fmap in *.
    by destruct (cfgs !! i); simplify_eq/=.
  - done.
  - done.
Qed.

Lemma inv_run ms c : connection_inv c → runs (conn_run ms c) connection_inv.
Proof. intros Hinv. apply runs_for_each_inv; [done|]. intros m c' _ Hc'. by apply inv_step. Qed.
End invariant.
