(* ===== verification/HandlerTheorems.v ===== *)
(** * The connection handler: claims

    The agreement between the behaviour's view of a connection and its handler,
    the order in which notifications are sent, and what happens to a sink that
    is full. *)

From S2P Require Import Prelude Wire Notifications Substream SubstreamTheorems Handler HandlerFacts.
From S2P Require Import PeersState Peerset NotificationsFacts NotificationsSteps Connection.
Import Upgrade Handler.

(** ** Agreement *)

(** The view of the behaviour and the phase of the handler that mean the same. *)
Definition settled {Sink} (v : Behaviour.ConnectionState Sink) (a : phase) : Prop :=
  match v, a with
  | Behaviour.Closed, PhClosed _ => True
  | Behaviour.OpenDesiredByRemote, PhDesired _ => True
  | Behaviour.Opening, PhOpening => True
  | Behaviour.Open _, PhOpen => True
  | _, _ => False
  end.

Lemma agree_settled {Sink} (v : Behaviour.ConnectionState Sink) a : agree v [] a [] → settled v a.
Proof.
  intros Hag. inversion Hag as [a0 Ha E1 E2 E3 E4| | | |b l Hl E1 E2 E3 E4|a0 b Ha E1 E2 E3 E4| | | | | |
    a0 b b' Ha E1 E2 E3 E4|a0 b l Ha Hl E1 E2 E3 E4| | |a0 l Ha Hl E1 E2 E3 E4|a0 b Ha E1 E2 E3 E4]; subst; try done.
  - destruct a; try done.
  - by destruct b.
  - by destruct b.
  - by destruct b.
  - by destruct b.
  - by destruct l.
  - by destruct b.
Qed.

Lemma only_elem i l : i ∈ l ↔ only i l ≠ [].
Proof.
  unfold only. split.
  - intros Hin E. assert (i ∈ filter (λ j, j = i) l) as Hf by (by apply list_elem_of_filter). rewrite E in Hf. set_solver.
  - destruct (filter (λ j, j = i) l) as [|j l'] eqn:E; [done|]. intros _.
    assert (j ∈ filter (λ j, j = i) l) as Hf by (rewrite E; set_solver). apply list_elem_of_filter in Hf as [-> ?]. done.
Qed.

(** C12: The behaviour and the handler of a connection agree, however their tasks
    interleave and whatever the remote does. As long as the behaviour sends
    only commands its view of the connection allows and the swarm answers each
    request for a substream at most once, the handler never panics; every event
    arrives in a view that expects it (an answer to [Open] while opening, to
    [Close] while closing, traffic while open or closing, a request of the
    remote never while one is known or the protocol is open); and when nothing
    is under way, view and handler are in corresponding states, a substream
    being requested from the swarm exactly for the protocols that wait for one. *)
Theorem connection_agreement {PeerId NotificationsSink Rx : Type}
    `{SinkChannelLaws PeerId NotificationsSink Rx} `{Socket Sk}
    (cfgs : list ProtocolConfig) (peer : PeerId) (now : Instant) (ms : list (conn_move Rx Sk)) :
  ∃ c : connection PeerId NotificationsSink Rx Sk,
    conn_run ms (connection_new cfgs peer now) = Done c ∧
    (∀ ev evs v n, cn_events c = ev :: evs → cn_views c !! event_set ev = Some v →
       note_of (event_set ev) ev = Some n → expects v n = true) ∧
    (cn_commands c = [] → cn_events c = [] → events_queue (cn_handler c) = [] →
     ∀ i v a, cn_views c !! i = Some v → phases (cn_handler c) !! i = Some a →
       settled v a ∧ (i ∈ cn_requests c ↔ requested a = true)).
Proof.
  pose proof (inv_run ms _ (connection_inv_new (Sk := Sk) cfgs peer now)) as Hrun.
  apply runs_Done in Hrun as (c & Hc & Hinv). exists c. split_and!; [done| |].
  - intros ev evs v n Hev Hv Hn. by eapply expected_event.
  - intros Hcmd Hev Hq i v a Hv Ha. pose proof (ci_agree _ Hinv i v a Hv Ha) as Hag.
    pose proof (ci_requests _ Hinv i a Ha) as Hr. unfold notes_for, requests_of in *. rewrite Hcmd, Hev, Hq in *.
    simpl in *. rewrite app_nil_r in Hr. split; [by apply agree_settled|].
    rewrite only_elem, Hr. by destruct (requested a).
Qed.

(** ** Sending *)

Lemma pushes_logged `{Socket Sk} (o o' : NotificationsOutSubstream (logged Sk)) ms :
  pushes o ms o' → ∃ calls, (out_socket o').2 = (out_socket o).2 ++ calls ∧ omap sent_by calls = ms.
Proof.
  induction 1 as [o|o o1 o2 r m ms Hready Hp (calls & Hlog & Hsent)]; [exists []; by rewrite app_nil_r|].
  unfold out_poll_ready in Hready. simpl in Hready. destruct (sk_poll_ready (out_socket o).1) as [r' k].
  injection Hready as _ <-. unfold out_start_send in Hlog. simpl in Hlog.
  destruct (sk_start_send k m) as [x k'] eqn:E. exists (CReady r' :: CSend m x :: calls).
  split; [|simpl; by f_equal]. destruct x as [[]|e]; simpl in Hlog; by rewrite Hlog, <- !app_assoc.
Qed.

Section polls.
Context {PeerId NotificationsSink Rx : Type} `{SinkChannelLaws PeerId NotificationsSink Rx} `{Socket Sk}.
Abbreviation NotifsHandler := (NotifsHandler PeerId NotificationsSink Rx (logged Sk)).
Abbreviation State := (State Rx (logged Sk)).
Abbreviation Event := (ConnectionHandlerEvent NotificationsSink).
Abbreviation Body := (NotifsHandler → nat → outcome (option Event * NotifsHandler)).
Implicit Types (h : NotifsHandler) (st : State) (r : option Event) (i : nat).

Definition states h : list State := state <$> protocols h.

(** A loop body changes the state of its own protocol only, as [P] says. *)
Definition touches (P : nat → State → option Event → State → Prop) (body : Body) : Prop :=
  ∀ h i st, states h !! i = Some st →
    runs (body h i) (λ res, ∃ st', states res.2 = <[i := st']> (states h) ∧ P i st res.1 st').

(** What a loop over all protocols does to one of them: its body ran without
    returning, or the loop returned, here or elsewhere. *)
Definition visited (P : nat → State → option Event → State → Prop) i st r st' : Prop :=
  P i st None st' ∨ ∃ ev, r = Some ev ∧ (P i st (Some ev) st' ∨ st' = st).

Definition looped (P : nat → State → option Event → State → Prop) (ids : list nat) h
    (res : option Event * NotifsHandler) : Prop :=
  length (states res.2) = length (states h) ∧
  (∀ i st, states h !! i = Some st → ∃ st', states res.2 !! i = Some st' ∧
     (if decide (i ∈ ids) then visited P i st res.1 st' else st' = st)) ∧
  (∀ ev, res.1 = Some ev → ∃ i st st', i ∈ ids ∧ states h !! i = Some st ∧ states res.2 !! i = Some st' ∧ P i st (Some ev) st').

(** Looking at a state without changing it. *)
Lemma touches_id (P : nat → State → option Event → State → Prop) h i st ev :
  states h !! i = Some st → P i st ev st →
  ∃ st', states (ev, h).2 = <[i := st']> (states h) ∧ P i st (ev, h).1 st'.
Proof. intros Hst HP. exists st. split; [|done]. symmetry. by apply list_insert_id. Qed.

(** Setting the state of protocol [i] and returning [ev]. *)
Lemma touches_set (P : nat → State → option Event → State → Prop) h i st st' ev :
  states h !! i = Some st → P i st ev st' →
  runs (h' ← set_state i st' h; Done (ev, h')) (λ res, ∃ st', states res.2 = <[i := st']> (states h) ∧ P i st res.1 st').
Proof.
  intros Hst HP. unfold states in Hst. rewrite list_lookup_fmap in Hst.
  destruct (protocols h !! i) as [p|] eqn:Hp; [|done]. unfold set_state. apply runs_bind, runs_bind.
  eapply runs_index; [done|]. simpl. exists st'. split; [|done]. unfold states. simpl. by rewrite list_fmap_insert.
Qed.

Lemma runs_states_at h i st (Q : State → Prop) : states h !! i = Some st → Q st → runs (state_at i h) Q.
Proof.
  unfold states. rewrite list_lookup_fmap. destruct (protocols h !! i) as [p|] eqn:Hp; [|done].
  intros [= <-] HQ. by eapply runs_state_at.
Qed.

(** The sending of the notifications of one protocol. *)
Definition send_rel i st r st' : Prop :=
  match st with
  | Open rx (Some out) ins =>
      ∃ sent rest calls rx' out', st' = Open rx' (Some out') ins ∧
        rx_buffered rx = (SM_Notification <$> sent) ++ rest ∧ rx_buffered rx' = rest ∧
        (out_socket out').2 = (out_socket out).2 ++ calls ∧ omap sent_by calls = sent ∧
        match rest with
        | [] => r = None
        | SM_ForceClose :: _ => r = Some (CloseEvent SyncNotificationsClogged)
        | SM_Notification _ :: _ => r = None ∧ CReady Pending ∈ calls
        end
  | _ => st' = st ∧ r = None
  end.

Lemma send_touches : touches send_rel send_protocol.
Proof.
  intros h i st Hst. unfold send_protocol. apply runs_bind. eapply runs_states_at; [done|].
  destruct st as [b|s b|o|rx [out|] ins]; try (by apply touches_id).
  destruct (send_messages_spec rx out) as (sent & rest & cl & rx' & o1 & o' & -> & Hb & Hr & Hp & Hstop).
  eapply (touches_set send_rel); [done|]. apply pushes_logged in Hp as (calls & Hlog & Hsent). unfold stops in Hstop.
  destruct rest as [|[m|] rest]; destruct Hstop as [-> Hout].
  - subst o'. exists sent, [], calls, rx', o1. by split_and!.
  - unfold out_poll_ready in Hout. simpl in Hout. destruct (sk_poll_ready _) as [x k] eqn:E.
    injection Hout as Hx <-. exists sent, (SM_Notification m :: rest), (calls ++ [CReady Pending]), rx', (mkOutSubstream (k, (out_socket o1).2 ++ [CReady x])).
    destruct x as [|[[]|]]; [|done..].
    split_and!; [done..|simpl; by rewrite Hlog, <- app_assoc|rewrite omap_app; simpl; by rewrite app_nil_r|done|set_solver].
  - subst o'. exists sent, (SM_ForceClose :: rest), calls, rx', o1. by split_and!.
Qed.

(** The flushing of one protocol. *)
Definition flush_rel i st r st' : Prop :=
  match st with
  | Open rx (Some out) ins =>
      ∃ o f, (out_socket o).2 = (out_socket out).2 ++ [CFlush f] ∧
        (r = None ∧ st' = Open rx (Some o) ins ∨
         ∃ e, f = Ready (Err e) ∧ r = Some (CustomEvent (Behaviour.Out_CloseDesired i)) ∧ st' = Open rx None ins)
  | _ => st' = st ∧ r = None
  end.

Lemma flush_touches : touches flush_rel flush_protocol.
Proof.
  intros h i st Hst. unfold flush_protocol. apply runs_bind. eapply runs_states_at; [done|].
  destruct st as [b|s b|o|rx [out|] ins]; try (by apply touches_id).
  destruct (out_poll_flush out) as [x o] eqn:E. unfold out_poll_flush in E. simpl in E.
  destruct (sk_poll_flush (out_socket out).1) as [f k]. injection E as Hx <-.
  destruct f as [|[[]|e]]; simpl in Hx; subst x;
    (eapply (touches_set flush_rel); [done|]).
  - eexists (mkOutSubstream (k, _)), Pending. by eauto.
  - eexists (mkOutSubstream (k, _)), (Ready (Ok tt)). by eauto.
  - eexists (mkOutSubstream (k, (out_socket out).2 ++ [CFlush (Ready (Err e))])), (Ready (Err e)). by eauto 10.
Qed.

(** The inbound side of one protocol: it leaves the outbound side alone. *)
Definition inbound_rel i st r st' : Prop :=
  r ≠ Some (CloseEvent SyncNotificationsClogged) ∧
  ∀ rx out ins, st = Open rx out ins → ∃ ins', st' = Open rx out ins'.

Lemma inbound_touches : touches inbound_rel inbound_protocol.
Proof.
  intros h i st Hst. unfold inbound_protocol. apply runs_bind. eapply runs_states_at; [done|].
  destruct st as [b|s b|[s|]|rx out [s|]].
  - apply touches_id; [done|]. by split.
  - destruct (poll_process s) as [[|[[]|e]] s']; (eapply (touches_set inbound_rel); [done|by split]).
  - destruct (poll_process s) as [[|[[]|e]] s']; (eapply (touches_set inbound_rel); [done|by split]).
  - apply touches_id; [done|]. by split.
  - destruct (poll_next s) as [[|[[m|e]|]] s'];
      (eapply (touches_set inbound_rel); [done|split; [done|]; intros ? ? ? [= <- <- <-]; eauto]).
  - apply touches_id; [done|]. split; [done|]. intros ? ? ? [= <- <- <-]. eauto.
Qed.

Lemma for_protocols_touches P body ids h :
  touches P body → NoDup ids → Forall (λ i, (i < length (states h))%nat) ids →
  runs (for_protocols body ids h) (looped P ids h).
Proof.
  intros Hbody Hnd. revert h. induction Hnd as [|i ids Hi Hnd IH]; intros h Hids.
  { split_and!; [done| |done]. intros i st Hst. exists st. split; [done|]. by rewrite decide_False by set_solver. }
  apply Forall_cons in Hids as [[st Hst]%lookup_lt_is_Some_2 Hids]. simpl. apply runs_bind.
  eapply runs_mono; [by apply Hbody|]. intros [[ev|] h1] (st1 & Hst1 & HP); simpl in *.
  - split_and!; simpl; rewrite Hst1; [by rewrite length_insert| |].
    + intros j st' Hj. destruct (decide (j = i)) as [->|Hji].
      * exists st1. rewrite list_lookup_insert_eq by (by eapply lookup_lt_Some). split; [done|].
        rewrite decide_True by set_solver. right. exists ev. split; [done|]. left. by simplify_eq.
      * exists st'. rewrite list_lookup_insert_ne by done. split; [done|].
        case_decide; [|done]. right. exists ev. eauto.
    + intros e [= <-]. exists i, st, st1. rewrite list_lookup_insert_eq by (by eapply lookup_lt_Some). split_and!; [set_solver|done..].
  - eapply runs_mono; [apply IH; rewrite Hst1, length_insert; done|].
    intros [r h2] (Hlen & Hall & Hev). simpl in *. rewrite Hst1 in Hlen, Hall, Hev. rewrite length_insert in Hlen.
    split_and!; simpl; [done| |].
    + intros j st' Hj. destruct (decide (j = i)) as [->|Hji].
      * destruct (Hall i st1) as (st2 & Hst2 & Hv); [apply list_lookup_insert_eq; by eapply lookup_lt_Some|].
        rewrite decide_False in Hv by done. subst st2. exists st1. split; [done|].
        rewrite decide_True by set_solver. left. by simplify_eq.
      * destruct (Hall j st') as (st2 & Hst2 & Hv); [by rewrite list_lookup_insert_ne|]. exists st2. split; [done|].
        do 2 case_decide; try done; set_solver.
    + intros ev Hr. destruct (Hev ev Hr) as (j & s1 & s2 & Hin & Hs1 & Hs2 & HP2). destruct (decide (j = i)) as [->|Hji].
      * done.
      * exists j, s1, s2. rewrite list_lookup_insert_ne in Hs1 by done. split_and!; [set_solver|done..].
Qed.
(** A whole loop over the protocols. *)
Definition phase_done (P : nat → State → option Event → State → Prop) h (res : option Event * NotifsHandler) : Prop :=
  (∀ i st, states h !! i = Some st → ∃ st', states res.2 !! i = Some st' ∧ visited P i st res.1 st') ∧
  (∀ ev, res.1 = Some ev → ∃ i st st', states h !! i = Some st ∧ states res.2 !! i = Some st' ∧ P i st (Some ev) st').

Lemma phase_touches P body h :
  touches P body → runs (for_protocols body (seq 0 (length (protocols h))) h) (phase_done P h).
Proof.
  intros Hbody. assert (length (states h) = length (protocols h)) as Hlen by apply length_fmap.
  eapply runs_mono; [apply (for_protocols_touches P); [done|apply NoDup_ListNoDup, seq_NoDup|]|].
  { apply Forall_seq. rewrite Hlen. lia. }
  intros res (_ & Hall & Hev). split.
  - intros i st Hst. destruct (Hall i st Hst) as (st' & Hst' & Hv). exists st'. split; [done|].
    rewrite decide_True in Hv; [done|]. apply elem_of_seq. apply lookup_lt_Some in Hst. lia.
  - intros ev Hr. destruct (Hev ev Hr) as (i & st & st' & _ & ?). eauto.
Qed.

(** What a poll that returns [r] does with the sink and the outbound substream
    of protocol [i]. *)
Definition sends (r : Poll Event) i st st' : Prop :=
  match st with
  | Open rx (Some out) _ =>
      ∃ sent rest calls rx' o out' ins', st' = Open rx' out' ins' ∧
        rx_buffered rx = (SM_Notification <$> sent) ++ rest ∧ rx_buffered rx' = rest ∧
        (out_socket o).2 = (out_socket out).2 ++ calls ∧ omap sent_by calls = sent ∧
        (out' = Some o ∨
         out' = None ∧ r = Ready (CustomEvent (Behaviour.Out_CloseDesired i)) ∧
           ∃ e, last calls = Some (CFlush (Ready (Err e)))) ∧
        (r ≠ Ready (CloseEvent SyncNotificationsClogged) →
           match rest with
           | [] => True
           | SM_Notification _ :: _ => CReady Pending ∈ calls
           | SM_ForceClose :: _ => False
           end) ∧
        (r = Pending → ∃ f, last calls = Some (CFlush f))
  | Open rx None _ => ∃ ins', st' = Open rx None ins'
  | _ => True
  end.

Lemma sends_clogged i st st' :
  visited send_rel i st (Some (CloseEvent SyncNotificationsClogged)) st' →
  sends (Ready (CloseEvent SyncNotificationsClogged)) i st st'.
Proof.
  intros Hv. destruct st as [b|s b|o|rx [out|] ins]; simpl; try done.
  - destruct Hv as [Hs|(ev & [= <-] & [Hs| ->])].
    1,2: destruct Hs as (sent & rest & calls & rx' & o & -> & Hb & Hr & Hlog & Hsent & _);
      exists sent, rest, calls, rx', o, (Some o), ins; split_and!; auto; done.
    exists [], (rx_buffered rx), [], rx, out, (Some out), ins.
    split_and!; auto; try done. by rewrite app_nil_r.
  - destruct Hv as [[-> _]|(ev & [= <-] & [[_ ?]| ->])]; eauto; done.
Qed.

(** Nothing forced the connection closed: all sent, and the two other loops
    followed, as far as they went. *)
Lemma sends_compose i st st1 st2 st3 (r : Poll Event) :
  send_rel i st None st1 →
  flush_rel i st1 None st2 ∨ r ≠ Pending ∧ (st2 = st1 ∨ ∃ ev, r = Ready ev ∧ flush_rel i st1 (Some ev) st2) →
  (∀ rx out ins, st2 = Open rx out ins → ∃ ins', st3 = Open rx out ins') →
  sends r i st st3.
Proof.
  intros Hs Hf Hi. destruct st as [b|s b|o|rx [out|] ins]; simpl; try done.
  - destruct Hs as (sent & rest & calls & rx' & o & -> & Hb & Hr & Hlog & Hsent & Hrest).
    assert (∀ calls', CReady Pending ∈ calls → CReady Pending ∈ calls ++ calls') as Hin by set_solver.
    destruct Hf as [(o' & f & Hl & [(_ & ->)|(e & _ & Hev & _)])|
      [Hnp [->|(ev & -> & (o' & f & Hl & [(? & _)|(e & -> & [= ->] & ->)]))]]]; try done;
      destruct (Hi _ _ _ eq_refl) as (ins' & ->); clear Hi.
    + exists sent, rest, (calls ++ [CFlush f]), rx', o', (Some o'), ins'.
      split_and!; auto; [by rewrite Hl, Hlog, <- app_assoc|rewrite omap_app; simpl; by rewrite app_nil_r| |].
      * intros _. destruct rest as [|[]]; naive_solver.
      * intros _. exists f. by rewrite last_snoc.
    + exists sent, rest, calls, rx', o, (Some o), ins'. split_and!; auto; [|done].
      intros _. destruct rest as [|[]]; naive_solver.
    + exists sent, rest, (calls ++ [CFlush (Ready (Err e))]), rx', o', None, ins'.
      split_and!; auto; [by rewrite Hl, Hlog, <- app_assoc|rewrite omap_app; simpl; by rewrite app_nil_r| | |done].
      * right. split_and!; [done..|]. exists e. by rewrite last_snoc.
      * intros _. destruct rest as [|[]]; naive_solver.
  - destruct Hs as [-> _]. destruct Hf as [[-> _]|(_ & [->|(ev & _ & [_ ?])])]; [eauto..|done].
Qed.

(** [sends] for every protocol. *)
Definition polled h (res : Poll Event * NotifsHandler) : Prop :=
  (∀ i st, states h !! i = Some st → ∃ st', states res.2 !! i = Some st' ∧ sends res.1 i st st') ∧
  (res.1 = Ready (CloseEvent SyncNotificationsClogged) →
     ∃ i rx out ins rx' out' ins' rest, states h !! i = Some (Open rx (Some out) ins) ∧
       states res.2 !! i = Some (Open rx' out' ins') ∧ rx_buffered rx' = SM_ForceClose :: rest).

(** Sending, when it found a [ForceClose]. *)
Lemma send_phase_returns h h1 ev :
  phase_done send_rel h (Some ev, h1) → polled h (Ready ev, h1).
Proof.
  intros [Hall Hev]. destruct (Hev ev eq_refl) as (i & st & st' & Hst & Hst' & Hrel). simpl in *.
  destruct st as [b|s b|o|rx [out|] ins]; simpl in Hrel; try by destruct Hrel.
  destruct Hrel as (sent & rest & calls & rx' & o & -> & Hb & Hr & _ & _ & Hrest).
  destruct rest as [|[m|] rest]; [done|by destruct Hrest|]. injection Hrest as ->. split; simpl.
  - intros j st Hj. destruct (Hall j st Hj) as (st' & Hj' & Hv). exists st'. split; [done|]. by apply sends_clogged.
  - intros _. by eexists i, rx, out, ins, rx', (Some o), ins, rest.
Qed.

(** Flushing, when a flush failed. *)
Lemma flush_phase_returns h h1 h2 ev :
  phase_done send_rel h (None, h1) → phase_done flush_rel h1 (Some ev, h2) → polled h (Ready ev, h2).
Proof.
  intros [Hs _] [Hf Hev]. simpl in *. split; simpl.
  - intros i st Hst. destruct (Hs i st Hst) as (st1 & Hst1 & [Hp1|(? & ? & _)]); [|done].
    destruct (Hf i st1 Hst1) as (st2 & Hst2 & Hv). exists st2. split; [done|].
    eapply sends_compose; [done| |by eauto]. destruct Hv as [?|(? & [= <-] & [?| ->])]; [by left|right..]; by eauto.
  - intros [= ->]. destruct (Hev _ eq_refl) as (i & st & st' & _ & _ & Hrel).
    destruct st as [b|s b|o|rx [out|] ins]; simpl in Hrel; naive_solver.
Qed.

(** The inbound side, whatever it reports. *)
Lemma inbound_phase_returns h h1 h2 h3 (r : option Event) :
  phase_done send_rel h (None, h1) → phase_done flush_rel h1 (None, h2) → phase_done inbound_rel h2 (r, h3) →
  polled h (match r with Some ev => Ready ev | None => Pending end, h3).
Proof.
  intros [Hs _] [Hf _] [Hi Hev]. simpl in *. split; simpl.
  - intros i st Hst. destruct (Hs i st Hst) as (st1 & Hst1 & [Hp1|(? & ? & _)]); [|done].
    destruct (Hf i st1 Hst1) as (st2 & Hst2 & [Hp2|(? & ? & _)]); [|done].
    destruct (Hi i st2 Hst2) as (st3 & Hst3 & Hv). exists st3. split; [done|].
    eapply sends_compose; [done|by left|]. destruct Hv as [[_ ?]|(? & _ & [[_ ?]| ->])]; eauto.
  - destruct r as [ev|]; [|done]. intros [= ->]. destruct (Hev _ eq_refl) as (? & ? & ? & _ & _ & [? _]). done.
Qed.

Lemma poll_polled h : events_queue h = [] → runs (poll h) (polled h).
Proof.
  intros Hq. unfold poll. rewrite Hq. simpl. apply runs_bind.
  eapply runs_mono; [apply (phase_touches send_rel), send_touches|]. intros [[ev|] h1] Hp1; simpl.
  { by apply send_phase_returns. }
  apply runs_bind. eapply runs_mono; [apply (phase_touches flush_rel), flush_touches|]. intros [[ev|] h2] Hp2; simpl.
  { by eapply flush_phase_returns. }
  apply runs_bind. eapply runs_mono; [apply (phase_touches inbound_rel), inbound_touches|].
  intros [[ev|] h3] Hp3; simpl; by eapply (inbound_phase_returns _ _ _ _ _ Hp1 Hp2 Hp3).
Qed.
End polls.

(** C13: Polling a connection, whose sinks are received from through channels
    that can be peeked (what is peeked is what is taken next), never panics and
    always returns; an event that is queued is returned first, and nothing else
    is done. Otherwise, for every open protocol with an outbound substream, the
    notifications waiting in its sink go to the socket of that substream in
    their order and none is lost: those handed to it are the first of those that
    were waiting, the others still wait. Unless the poll closes the connection,
    notifications are left only where the socket was not ready; and when the
    poll reports nothing, the socket was flushed last. A substream is given up
    only when its flush failed, which is reported as [CloseDesired]. The poll
    closes the connection exactly when a [ForceClose] has come first in the sink
    of such a protocol. *)
Theorem notifications_sent_in_order {PeerId NotificationsSink Rx : Type}
    `{SinkChannelLaws PeerId NotificationsSink Rx} `{Socket Sk}
    (h : NotifsHandler PeerId NotificationsSink Rx (logged Sk)) :
  ∃ r h', poll h = Done (r, h') ∧
    match events_queue h with
    | ev :: q => r = Ready ev ∧ h' = with_queue q h
    | [] =>
        (∀ i st, states h !! i = Some st → ∃ st', states h' !! i = Some st' ∧ sends r i st st') ∧
        (r = Ready (CloseEvent SyncNotificationsClogged) ↔
           ∃ i rx out ins rx' out' ins' rest, states h !! i = Some (Open rx (Some out) ins) ∧
             states h' !! i = Some (Open rx' out' ins') ∧ rx_buffered rx' = SM_ForceClose :: rest)
    end.
Proof.
  destruct (events_queue h) as [|ev q] eqn:Hq.
  2: { exists (Ready ev), (with_queue q h). unfold poll. by rewrite Hq. }
  destruct (proj1 (runs_Done _ _) (poll_polled h Hq)) as ([r h'] & Hpoll & Hall & Hclog). exists r, h'.
  split_and!; [done..|]. split; [done|]. intros (i & rx & out & ins & rx' & out' & ins' & rest & Hst & Hst' & Hrx).
  destruct (Hall i _ Hst) as (st' & E & Hs). simpl in E, Hs. rewrite Hst' in E. injection E as <-.
  destruct Hs as (sent & rest' & calls & rx1 & o & out1 & ins1 & [= <- <- <-] & _ & Hr & _ & _ & _ & Hstop & _).
  rewrite Hrx in Hr. subst rest'. destruct r as [|[? ? ?|?|[]]]; [| | |done]; exfalso; by apply Hstop.
Qed.

(** ** A full sink *)

(** The life of the synchronous channel of a sink: the notifications given to
    [send_sync_notification], everything that was ever queued, the content of
    the mutex and the channel. The receiver takes messages from the front. *)
Inductive sink_run `{MpscSender Tx Ch} :
    list bytes → list NotificationsSinkMessage → option Tx → Ch → Prop :=
  | sr_new tx ch : ch_queue ch = [] → sink_run [] [] (Some tx) ch
  | sr_send given queued lock ch m lock' ch' new :
      sink_run given queued lock ch →
      send_sync_notification m lock ch = Done (lock', ch') →
      ch_queue ch' = ch_queue ch ++ new →
      sink_run (given ++ [m]) (queued ++ new) lock' ch'
  | sr_receive given queued lock ch x ch' :
      sink_run given queued lock ch → ch_queue ch = x :: ch_queue ch' → sink_run given queued lock ch'.

Lemma send_sync_cases `{MpscSenderLaws Tx Ch} m (lock : option Tx) (ch : Ch) :
  ∃ lock' ch', send_sync_notification m lock ch = Done (lock', ch') ∧
    match lock with
    | None => lock' = None ∧ ch' = ch
    | Some _ =>
        (∃ tx', lock' = Some tx' ∧ ch_queue ch' = ch_queue ch ++ [SM_Notification m]) ∨
        (lock' = None ∧ (ch_queue ch' = ch_queue ch ++ [SM_ForceClose] ∨ ch_queue ch' = ch_queue ch))
    end.
Proof.
  unfold send_sync_notification. destruct lock as [tx|]; [|by eauto].
  pose proof (try_send_queue tx ch (SM_Notification m)) as Hq.
  destruct (try_send tx ch (SM_Notification m)) as [[[[]|e] tx1] ch1]; simpl in Hq; [by eauto 10|].
  rewrite app_nil_r in Hq. pose proof (clone_queue tx1 ch1) as Hc. pose proof (clone_slot tx1 ch1 SM_ForceClose) as Hs.
  destruct (clone_sender tx1 ch1) as [tx2 ch2]. simpl in Hc. pose proof (try_send_queue tx2 ch2 SM_ForceClose) as Hq2.
  destruct (try_send tx2 ch2 SM_ForceClose) as [[r tx3] ch3]. simpl in Hs.
  destruct r as [[]|[]]; [|done|]; simpl; eexists _, _; (split; [done|]); right; (split; [done|]);
    simpl in Hq2; rewrite Hq2, ?app_nil_r, Hc, Hq; auto.
Qed.

(** A sink never blocks and never panics. As long as its channel has room,
    every notification is queued in order. The first one that is refused makes
    it queue a single [ForceClose] (unless the connection is already gone):
    what was ever queued is then an initial part of the notifications given,
    followed by that [ForceClose], and nothing is queued any more. *)
Theorem full_sink_closes_once `{MpscSenderLaws Tx Ch} (given : list bytes)
    (queued : list NotificationsSinkMessage) (lock : option Tx) (ch : Ch)
    (Hrun : sink_run given queued lock ch) :
  (∀ m, ∃ r, send_sync_notification m lock ch = Done r) ∧
  match lock with
  | Some _ => queued = SM_Notification <$> given
  | None => ∃ sent, sent `prefix_of` given ∧ (length sent < length given)%nat ∧
      (queued = (SM_Notification <$> sent) ++ [SM_ForceClose] ∨ queued = SM_Notification <$> sent)
  end.
Proof.
  split; [intros m; destruct (send_sync_cases m lock ch) as (l & c & -> & _); eauto|].
  induction Hrun as [tx ch _|given queued lock ch m lock' ch' new Hrun IH Hsend Hnew|]; [done| |done].
  destruct (send_sync_cases m lock ch) as (l & c & E & Hcase). rewrite Hsend in E. injection E as <- <-.
  destruct lock as [tx|].
  - rewrite IH. destruct Hcase as [(tx' & -> & Hq)|(-> & [Hq|Hq])].
    + rewrite Hnew in Hq. apply app_inv_head in Hq as ->. by rewrite fmap_app.
    + rewrite Hnew in Hq. apply app_inv_head in Hq as ->. exists given.
      split_and!; [by apply prefix_app_r|rewrite length_app; simpl; lia|by left].
    + assert (new = []) as ->.
      { apply (app_inv_head (ch_queue ch)). by rewrite app_nil_r, <- Hnew. }
      exists given. split_and!; [by apply prefix_app_r|rewrite length_app; simpl; lia|]. right. by rewrite app_nil_r.
  - destruct Hcase as [-> ->]. destruct IH as (sent & Hpre & Hlen & Hq). exists sent.
    assert (new = []) as -> by (apply (app_inv_head (ch_queue ch)); by rewrite app_nil_r, <- Hnew).
    rewrite app_nil_r. split_and!; [by apply prefix_app_r|rewrite length_app; simpl; lia|done].
Qed.

(** ** Examples *)

Section examples.

(** Channels as lists: a sink is its number. *)
#[local] Instance list_channel : SinkChannel nat nat (list NotificationsSinkMessage) := {|
  sink_new _ n := (n, []);
  rx_poll_peek r := (match r with [] => Pending | m :: _ => Ready (Some m) end, r);
  rx_poll_next r := match r with [] => (Pending, []) | m :: r => (Ready (Some m), r) end;
  rx_buffered r := r;
|}.

#[local] Instance list_channel_laws : SinkChannelLaws nat nat (list NotificationsSinkMessage).
Proof.
  split; [done|intros r m ms Hr; simpl in *; subst r; by eauto 10|].
  intros r Hr. simpl in *. subst r. eauto 10.
Qed.

(** A bounded channel of two messages besides the slot of each sender; a sender
    that has just been cloned still has its slot. *)
#[local] Instance bounded_sender : MpscSender bool (list NotificationsSinkMessage) := {|
  try_send tx ch m :=
    if tx || bool_decide (length ch < 2)%nat then (Ok tt, false, ch ++ [m]) else (Err TS_Full, false, ch);
  clone_sender tx ch := (true, ch);
  ch_queue ch := ch;
|}.

#[local] Instance bounded_sender_laws : MpscSenderLaws bool (list NotificationsSinkMessage).
Proof.
  split; [|done|done]. intros tx ch m. simpl. destruct (tx || _); simpl; [done|]. by rewrite app_nil_r.
Qed.

Definition block_announces : ProtocolConfig := mkProtocolConfig "/dot/block-announces/1"%string [] hello 1024.

Definition outbound_opened : NotificationsOutOpen scripted :=
  mkOutOpen hello None (mkOutSubstream (mkScripted true [])).

(** We open a protocol and the remote accepts, but does not open its side. *)
Definition opened_by_us : list (conn_move (list NotificationsSinkMessage) scripted) :=
  [MCommand 0 Cmd_Open; MDeliver; MPoll; MOutbound 0 outbound_opened; MPoll; MReceive].

(** The remote opens a substream, which is accepted, both ways. *)
Definition opened_by_remote : list (conn_move (list NotificationsSinkMessage) scripted) :=
  [MInbound 0 (mkScripted true []) hello None; MPoll; MReceive; MCommand 0 Cmd_Open; MDeliver; MPoll;
   MOutbound 0 outbound_opened; MPoll; MReceive].

Definition demo_connection : connection nat nat (list NotificationsSinkMessage) scripted :=
  connection_new [block_announces] 7%nat 0.
Definition after_moves (ms : list (conn_move (list NotificationsSinkMessage) scripted)) :
    connection nat nat (list NotificationsSinkMessage) scripted :=
  match conn_run ms demo_connection with Done c => c | Panicked _ => demo_connection end.

(** An open protocol without an inbound substream asks to be closed, every time
    the handler is polled, although the documentation of [in_substream] says
    that operations continue as if there was an idle substream: here the
    protocol was opened on our initiative, and the remote has not opened its
    side yet. *)
Theorem opening_alone_asks_to_close :
  let c := after_moves (opened_by_us ++ [MPoll; MPoll; MPoll]) in
  cn_views c = [Behaviour.Open 0%nat] ∧
  cn_events c = replicate 3 (Behaviour.Out_CloseDesired 0).
Proof. vm_compute. auto. Qed.

Lemma connection_agreement_witness :
  cn_views (after_moves opened_by_remote) = [Behaviour.Open 0%nat] ∧
  settled (Behaviour.Open 0%nat) PhOpen ∧ 0%nat ∉ cn_requests (after_moves opened_by_remote).
Proof.
  split; [reflexivity|].
  destruct (connection_agreement (NotificationsSink := nat) [block_announces] 7%nat 0 opened_by_remote)
    as (c & Hc & _ & Hsettled).
  assert (c = after_moves opened_by_remote) as ->.
  { unfold after_moves, demo_connection. rewrite Hc. reflexivity. }
  destruct (Hsettled eq_refl eq_refl eq_refl 0%nat (Behaviour.Open 0%nat) PhOpen eq_refl eq_refl) as [Hs Hreq].
  split; [exact Hs|]. intros Hin. apply Hreq in Hin. discriminate Hin.
Defined.

(** A connection with one open protocol, whose sink holds a notification and a
    [ForceClose]. *)
Definition clogged_handler : NotifsHandler nat nat (list NotificationsSinkMessage) (logged scripted) :=
  mkNotifsHandler
    [mkProtocol block_announces (protocol_in_upgrade block_announces)
       (Open [SM_Notification hello; SM_ForceClose] (Some (mkOutSubstream (mkScripted true [], []))) None)]
    0 7%nat [] 1.

Definition clogged_polled : NotifsHandler nat nat (list NotificationsSinkMessage) (logged scripted) :=
  match poll clogged_handler with Done (_, h) => h | Panicked _ => clogged_handler end.

Lemma notifications_sent_in_order_witness :
  poll clogged_handler = Done (Ready (CloseEvent SyncNotificationsClogged), clogged_polled) ∧
  states clogged_polled = [Open [SM_ForceClose] (Some (mkOutSubstream
                             (mkScripted true [], [CReady (Ready (Ok tt)); CSend hello (Ok tt)]))) None].
Proof.
  split; [|reflexivity]. destruct (notifications_sent_in_order clogged_handler) as (r & h' & Hp & _ & _ & Hclog).
  assert (h' = clogged_polled) as -> by (unfold clogged_polled; rewrite Hp; reflexivity).
  rewrite Hp, Hclog; [reflexivity|]. exists 0%nat. repeat eexists.
Defined.

(** Three notifications: the channel takes two, so that the third is refused. *)
Lemma full_sink_run :
  sink_run (Tx := bool) [hello; hello; hello]
    [SM_Notification hello; SM_Notification hello; SM_ForceClose] None
    [SM_Notification hello; SM_Notification hello; SM_ForceClose].
Proof.
  apply (sr_send [hello; hello] [SM_Notification hello; SM_Notification hello] (Some false)
           [SM_Notification hello; SM_Notification hello] hello _ _ [SM_ForceClose]); [|reflexivity..].
  apply (sr_send [hello] [SM_Notification hello] (Some false) [SM_Notification hello] hello _ _ [SM_Notification hello]);
    [|reflexivity..].
  apply (sr_send [] [] (Some false) [] hello _ _ [SM_Notification hello]); [|reflexivity..].
  by apply sr_new.
Qed.

Lemma full_sink_closes_once_witness :
  ∃ sent : list bytes, sent `prefix_of` [hello; hello; hello] ∧ (length sent < 3)%nat.
Proof.
  destruct (full_sink_closes_once _ _ _ _ full_sink_run) as [_ (sent & Hpre & Hlen & _)].
  exists sent. split; [exact Hpre|exact Hlen].
Defined.
End examples.
