(* ===== verification/RequestResponses.v ===== *)
(** * The request-response behaviour

    Model of [network/request_responses.rs] and of the types of
    [network/common/request_responses.rs]: several request-response protocols,
    each run by a behaviour of libp2p, requests of remotes handed to a response
    builder after a look at the reputation of the peer, and the codec of
    requests and responses.

    [RequestResponse] of libp2p is an interface, [SubBehaviour]. The channels to
    the rest of the program are numbered ([oneshot] senders) or logs of what was
    sent through them. *)

From S2P Require Import Prelude PeersState Peerset Notifications Wire.

(** ** Types of [common/request_responses.rs] *)

Module RequestResponses.

Abbreviation RequestId := nat (only parsing).

Inductive IfDisconnected := TryConnect | ImmediateError.
Definition should_connect (c : IfDisconnected) : bool :=
  match c with TryConnect => true | ImmediateError => false end.

(** [OutboundFailure] and [InboundFailure] of libp2p. *)
Inductive OutboundFailure := OF_DialFailure | OF_Timeout | OF_ConnectionClosed | OF_UnsupportedProtocols.
Inductive InboundFailure :=
  | IF_Timeout | IF_ConnectionClosed | IF_UnsupportedProtocols | IF_ResponseOmission.

Inductive RequestFailure :=
  | NotConnected
  | UnknownProtocol
  | Refused
  | Obsolete
  | Network (e : OutboundFailure).

Inductive ResponseFailure := RF_Network (e : InboundFailure).
Inductive RegisterError := DuplicateProtocol (name : ProtocolName).

Record GenericCodec := mkGenericCodec { max_request_size : Z; max_response_size : Z }.

Inductive ProtocolSupport := Full | Outbound.

(** [inbound_queue] tells whether there is a queue for incoming requests. *)
Record ProtocolConfig := mkProtocolConfig {
  rc_name : ProtocolName;
  rc_fallback_names : list ProtocolName;
  rc_max_request_size : Z;
  rc_max_response_size : Z;
  rc_request_timeout : Duration;
  rc_inbound_queue : bool;
}.

(** [OutgoingResponse]: the feedback channel by its number. *)
Record OutgoingResponse := mkOutgoingResponse {
  og_result : result bytes unit;
  og_reputation_changes : list ReputationChange;
  og_sent_feedback : option nat;
}.

(** ** The codec *)
Section codec.
Context `{Varint}.

Definition read_request (c : GenericCodec) (io : Reader) : result bytes io_error * Reader :=
  match read_usize io with
  | (Err _, io) => (Err InvalidInput, io)
  | (Ok len, io) =>
      if usize_from_u64 (max_request_size c) <? len then (Err InvalidInput, io)
      else read_exact len io
  end.

(** [Ok (Err tt)]: the remote has closed without an answer. *)
Definition read_response (c : GenericCodec) (io : Reader) : result (result bytes unit) io_error * Reader :=
  match read_usize io with
  | (Err (RE_Io UnexpectedEof), io) => (Ok (Err tt), io)
  | (Err _, io) => (Err InvalidInput, io)
  | (Ok len, io) =>
      if usize_from_u64 (max_response_size c) <? len then (Err InvalidInput, io)
      else
        match read_exact len io with
        | (Ok buffer, io) => (Ok (Ok buffer), io)
        | (Err e, io) => (Err e, io)
        end
  end.

Definition write_request (c : GenericCodec) (io : Writer) (req : bytes) : result unit io_error * Writer :=
  and_then (write_all (encode_usize (blen req)) io) (λ _ io,
  and_then (write_all req io) (λ _ io,
  and_then (close io) (λ _ io, (Ok tt, io)))).

Definition write_response (c : GenericCodec) (io : Writer) (res : result bytes unit) :
    result unit io_error * Writer :=
  and_then
    (match res with
     | Ok res =>
         and_then (write_all (encode_usize (blen res)) io) (λ _ io, write_all res io)
     | Err tt => (Ok tt, io)
     end)
    (λ _ io, and_then (close io) (λ _ io, (Ok tt, io))).
End codec.

(** ** The behaviour of one protocol *)

(** [RequestResponseConfig]. *)
Record SubConfig := mkSubConfig { sc_connection_keep_alive : Duration; sc_request_timeout : Duration }.

Section types.
Context {PeerId : Type} {Chan : Type}.

(** [RequestResponseEvent]. *)
Inductive SubEvent :=
  | EvRequest (peer : PeerId) (request_id : RequestId) (request : bytes) (channel : Chan)
  | EvResponse (peer : PeerId) (request_id : RequestId) (response : result bytes unit)
  | EvOutboundFailure (peer : PeerId) (request_id : RequestId) (error : OutboundFailure)
  | EvInboundFailure (peer : PeerId) (request_id : RequestId) (error : InboundFailure)
  | EvResponseSent (peer : PeerId) (request_id : RequestId).

(** [NetworkBehaviourAction]: events [E], handlers [Hd] and messages [M] for
    handlers; what is only passed on is left abstract. *)
Inductive Action (E Hd M Opts : Type) :=
  | GenerateEvent (event : E)
  | Dial (opts : Opts) (handler : Hd)
  | NotifyHandler (peer_id : PeerId) (event : M)
  | ReportObservedAddr (address : Opts)
  | CloseConnection (peer_id : PeerId).

(** [FromSwarm]: events for everybody, with the payload they carry, and events
    that return the handler of a connection. *)
Inductive PlainSwarmEvent (D : Type) :=
  | SwConnectionEstablished (d : D)
  | SwListenerClosed (d : D)
  | SwListenerError (d : D)
  | SwExpiredExternalAddr (d : D)
  | SwNewListener (d : D)
  | SwExpiredListenAddr (d : D)
  | SwNewExternalAddr (d : D)
  | SwAddressChange (d : D)
  | SwNewListenAddr (d : D).

Inductive HandlerSwarmEvent (D : Type) :=
  | SwConnectionClosed (d : D)
  | SwDialFailure (d : D)
  | SwListenFailure (d : D).
End types.
Arguments SubEvent PeerId Chan : clear implicits.
Arguments Action PeerId E Hd M Opts : clear implicits.
Arguments GenerateEvent {PeerId E Hd M Opts} event.
Arguments Dial {PeerId E Hd M Opts} opts handler.
Arguments NotifyHandler {PeerId E Hd M Opts} peer_id event.
Arguments ReportObservedAddr {PeerId E Hd M Opts} address.
Arguments CloseConnection {PeerId E Hd M Opts} peer_id.

(** [libp2p::request_response::RequestResponse<GenericCodec>] as a network
    behaviour; [B] is its state, [Chan] a [ResponseChannel], [Hd] its connection
    handler, [M] a message for a handler, [HE] an event of a handler and [D] the
    payload of swarm events. *)
Class SubBehaviour (PeerId B Chan Hd M HE Opts D : Type) := {
  sub_new : GenericCodec → list (ProtocolName * ProtocolSupport) → SubConfig → B;
  sub_is_connected : B → PeerId → bool;
  sub_send_request : B → PeerId → bytes → RequestId * B;
  sub_send_response : B → Chan → result bytes unit → result unit (result bytes unit) * B;
  sub_new_handler : B → Hd * B;
  sub_on_plain_event : B → PlainSwarmEvent D → B;
  sub_on_handler_return : B → HandlerSwarmEvent D → Hd → B;
  sub_on_connection_handler_event : B → PeerId → HE → B;
  sub_poll : B → Poll (Action PeerId (SubEvent PeerId Chan) Hd M Opts) * B;
}.

(** ** The behaviour *)
Section behaviour.
Context {PeerId : Type} `{Countable PeerId}.
Context {B Chan Hd M HE Opts D : Type} `{SubBehaviour PeerId B Chan Hd M HE Opts D}.
Context `{HO : !HashOrder string}.

Inductive Event :=
  | InboundRequest (peer : PeerId) (protocol : ProtocolName) (r : result Duration ResponseFailure)
  | RequestFinished (peer : PeerId) (protocol : ProtocolName) (duration : Duration)
      (r : result unit RequestFailure)
  | ReputationChanges (peer : PeerId) (changes : list ReputationChange).

(** [ProtocolRequestId]. *)
Abbreviation ProtocolRequestId := (ProtocolName * RequestId)%type.

Record IncomingRequest := mkIncomingRequest {
  ir_peer : PeerId;
  ir_payload : bytes;
  ir_pending_response : nat;
}.

(** [get_peer_reputation] is the number of the query sent to the peer set. *)
Record MessageRequest := mkMessageRequest {
  mr_peer : PeerId;
  mr_request_id : RequestId;
  mr_request : bytes;
  mr_channel : Chan;
  mr_protocol : ProtocolName;
  mr_resp_builder : bool;
  mr_get_peer_reputation : nat;
}.

(** A future of [pending_responses]: it waits for the response builder to
    answer on channel [pr_rx] and then gives a [RequestProcessingOutcome]. *)
Record PendingResponse := mkPendingResponse {
  pr_rx : nat;
  pr_peer : PeerId;
  pr_request_id : RequestId;
  pr_protocol : ProtocolName;
  pr_inner_channel : Chan;
}.

(** The fields of the source, then what the rest of the program sees: answers
    of the response builder that are waiting ([None]: the sender was dropped),
    the number of response channels created, the requests given to the
    builders, the replies and the feedback sent, the reputations asked for (each
    with the request that made us ask) and the readings of the clock. *)
Record Behaviour := mkBehaviour {
  protocols : gmap ProtocolName (B * bool);
  pending_requests : gmap ProtocolRequestId (Instant * nat);
  pending_responses : list PendingResponse;
  pending_responses_arrival_time : gmap ProtocolRequestId Instant;
  send_feedback : gmap ProtocolRequestId nat;
  message_request : option MessageRequest;
  completed : list (nat * option OutgoingResponse);
  channels : nat;
  submitted : list (ProtocolName * IncomingRequest);
  replies : list (nat * result bytes RequestFailure);
  feedback : list nat;
  queries : list (PeerId * (ProtocolName * RequestId) * bytes);
  ticks : nat;
}.

Definition with_protocols x s : Behaviour :=
  mkBehaviour x (pending_requests s) (pending_responses s) (pending_responses_arrival_time s) (send_feedback s)
    (message_request s) (completed s) (channels s) (submitted s) (replies s) (feedback s) (queries s) (ticks s).
Definition with_pending_requests x s : Behaviour :=
  mkBehaviour (protocols s) x (pending_responses s) (pending_responses_arrival_time s) (send_feedback s)
    (message_request s) (completed s) (channels s) (submitted s) (replies s) (feedback s) (queries s) (ticks s).
Definition with_pending_responses x c s : Behaviour :=
  mkBehaviour (protocols s) (pending_requests s) x (pending_responses_arrival_time s) (send_feedback s)
    (message_request s) c (channels s) (submitted s) (replies s) (feedback s) (queries s) (ticks s).
Definition with_arrival_time x s : Behaviour :=
  mkBehaviour (protocols s) (pending_requests s) (pending_responses s) x (send_feedback s)
    (message_request s) (completed s) (channels s) (submitted s) (replies s) (feedback s) (queries s) (ticks s).
Definition with_send_feedback x s : Behaviour :=
  mkBehaviour (protocols s) (pending_requests s) (pending_responses s) (pending_responses_arrival_time s) x
    (message_request s) (completed s) (channels s) (submitted s) (replies s) (feedback s) (queries s) (ticks s).
Definition with_message_request x s : Behaviour :=
  mkBehaviour (protocols s) (pending_requests s) (pending_responses s) (pending_responses_arrival_time s)
    (send_feedback s) x (completed s) (channels s) (submitted s) (replies s) (feedback s) (queries s) (ticks s).
Definition with_submitted x n s : Behaviour :=
  mkBehaviour (protocols s) (pending_requests s) (pending_responses s) (pending_responses_arrival_time s)
    (send_feedback s) (message_request s) (completed s) n x (replies s) (feedback s) (queries s) (ticks s).
Definition with_replies x s : Behaviour :=
  mkBehaviour (protocols s) (pending_requests s) (pending_responses s) (pending_responses_arrival_time s)
    (send_feedback s) (message_request s) (completed s) (channels s) (submitted s) x (feedback s) (queries s) (ticks s).
Definition with_feedback x s : Behaviour :=
  mkBehaviour (protocols s) (pending_requests s) (pending_responses s) (pending_responses_arrival_time s)
    (send_feedback s) (message_request s) (completed s) (channels s) (submitted s) (replies s) x (queries s) (ticks s).
Definition with_queries x s : Behaviour :=
  mkBehaviour (protocols s) (pending_requests s) (pending_responses s) (pending_responses_arrival_time s)
    (send_feedback s) (message_request s) (completed s) (channels s) (submitted s) (replies s) (feedback s) x (ticks s).
Definition with_ticks x s : Behaviour :=
  mkBehaviour (protocols s) (pending_requests s) (pending_responses s) (pending_responses_arrival_time s)
    (send_feedback s) (message_request s) (completed s) (channels s) (submitted s) (replies s) (feedback s) (queries s) x.

(** [Instant::now] reads the clock, a parameter. *)
Context (clock : nat → Instant).
Definition now (s : Behaviour) : Instant * Behaviour := (clock (ticks s), with_ticks (S (ticks s)) s).

(** *** [new] *)

Definition sub_of_config (c : ProtocolConfig) : B :=
  let support := if rc_inbound_queue c then Full else Outbound in
  sub_new (mkGenericCodec (rc_max_request_size c) (rc_max_response_size c))
    ((λ name, (name, support)) <$> rc_name c :: rc_fallback_names c)
    (mkSubConfig (from_secs 10) (rc_request_timeout c)).

Fixpoint register (l : list ProtocolConfig) (m : gmap ProtocolName (B * bool)) :
    result (gmap ProtocolName (B * bool)) RegisterError :=
  match l with
  | [] => Ok m
  | c :: l =>
      match m !! rc_name c with
      | None => register l (<[rc_name c := (sub_of_config c, rc_inbound_queue c)]> m)
      | Some _ => Err (DuplicateProtocol (rc_name c))
      end
  end.

Definition new (l : list ProtocolConfig) : result Behaviour RegisterError :=
  match register l ∅ with
  | Ok m => Ok (mkBehaviour m ∅ [] ∅ ∅ None [] 0 [] [] [] [] 0)
  | Err e => Err e
  end.

(** *** [send_request] *)

(** [pending_response.send(..)]: what happens to the value when nobody waits for
    it is not observed here. *)
Definition reply (r : nat) (v : result bytes RequestFailure) (s : Behaviour) : Behaviour :=
  with_replies (replies s ++ [(r, v)]) s.

Definition send_request (target : PeerId) (protocol_name : ProtocolName) (request : bytes)
    (pending_response : nat) (connect : IfDisconnected) (s : Behaviour) : outcome Behaviour :=
  match protocols s !! protocol_name with
  | Some (b, q) =>
      if sub_is_connected b target || should_connect connect then
        let '(request_id, b) := sub_send_request b target request in
        let s := with_protocols (<[protocol_name := (b, q)]> (protocols s)) s in
        let '(t, s) := now s in
        let prev := pending_requests s !! (protocol_name, request_id) in
        let s := with_pending_requests (<[(protocol_name, request_id) := (t, pending_response)]> (pending_requests s)) s in
        _ ← debug_assert (bool_decide (prev = None));
        Done s
      else Done (reply pending_response (Err NotConnected) s)
  | None => Done (reply pending_response (Err UnknownProtocol) s)
  end.

(** *** Connection handlers and events of the swarm *)

(** A [MultiHandler] has one handler per protocol name. *)
Abbreviation MultiHandler := (gmap ProtocolName Hd).

Definition new_handlers (m : gmap ProtocolName (B * bool)) : MultiHandler * gmap ProtocolName (B * bool) :=
  ((λ bq, (sub_new_handler bq.1).1) <$> m, (λ bq, ((sub_new_handler bq.1).2, bq.2)) <$> m).

Definition new_handler (s : Behaviour) : MultiHandler * Behaviour :=
  let '(hs, m) := new_handlers (protocols s) in (hs, with_protocols m s).

Definition new_handler_with_replacement (protocol : ProtocolName) (handler : Hd) (s : Behaviour) :
    MultiHandler * Behaviour :=
  let '(hs, m) := new_handlers (protocols s) in
  (match hs !! protocol with Some _ => <[protocol := handler]> hs | None => hs end, with_protocols m s).

Definition on_plain_swarm_event (e : PlainSwarmEvent D) (s : Behaviour) : Behaviour :=
  with_protocols ((λ bq, (sub_on_plain_event bq.1 e, bq.2)) <$> protocols s) s.

(** The handlers come back one by one, each to the behaviour of its protocol. *)
Definition on_handler_swarm_event (e : HandlerSwarmEvent D) (handler : list (ProtocolName * Hd)) (s : Behaviour) :
    Behaviour :=
  foldl (λ s nh,
    match protocols s !! nh.1 with
    | Some (b, q) => with_protocols (<[nh.1 := (sub_on_handler_return b e nh.2, q)]> (protocols s)) s
    | None => s
    end) s handler.

Definition on_connection_handler_event (peer_id : PeerId) (p_name : ProtocolName) (event : HE) (s : Behaviour) :
    Behaviour :=
  match protocols s !! p_name with
  | Some (b, q) => with_protocols (<[p_name := (sub_on_connection_handler_event b peer_id event, q)]> (protocols s)) s
  | None => s
  end.

(** *** [poll] *)

(** What the environment answers during one call of [poll]: whether the peer
    set has answered a query for a reputation, whether the queue of the response
    builder has room for the submission of a given number, and whether the
    requester still waits for a reply. *)
Record world := mkWorld {
  w_reputation : nat → Poll (result Z unit);
  w_room : nat → bool;
  w_waiting : nat → bool;
}.

Abbreviation OutAction := (Action PeerId Event MultiHandler (ProtocolName * M) Opts).

(** Leaving a part of the body: go on with the next part, [continue 'poll_all],
    or [return]. *)
Inductive flow := Onward | ContinueAll | Return (p : Poll OutAction).

(** The message request, when there is one. *)
Definition poll_message_request (w : world) (s : Behaviour) : outcome (flow * Behaviour) :=
  match message_request s with
  | None => Done (Onward, s)
  | Some mr =>
      match w_reputation w (mr_get_peer_reputation mr) with
      | Pending => Done (Return Pending, s)
      | Ready (Err tt) => Panicked ExpectFailed
      | Ready (Ok reputation) =>
          let s := with_message_request None s in
          if reputation <? BANNED_THRESHOLD then Done (ContinueAll, s)
          else
            let rx := channels s in
            s ← (if mr_resp_builder mr then
                   let req := mkIncomingRequest (mr_peer mr) (mr_request mr) rx in
                   if w_room w rx
                   then Done (with_submitted (submitted s ++ [(mr_protocol mr, req)]) (S rx) s)
                   else Done (with_submitted (submitted s) (S rx)
                          (with_pending_responses (pending_responses s) (completed s ++ [(rx, None)]) s))
                 else Panicked DebugAssertion);
            let p := mkPendingResponse rx (mr_peer mr) (mr_request_id mr) (mr_protocol mr) (mr_channel mr) in
            Done (ContinueAll, with_pending_responses (pending_responses s ++ [p]) (completed s) s)
      end
  end.

(** [send_response] and the feedback for it. *)
Definition send_built_response (p : PendingResponse) (payload : bytes) (sent_feedback : option nat) (s : Behaviour) :
    Behaviour :=
  match protocols s !! pr_protocol p with
  | None => s
  | Some (b, q) =>
      let '(r, b) := sub_send_response b (pr_inner_channel p) (Ok payload) in
      let s := with_protocols (<[pr_protocol p := (b, q)]> (protocols s)) s in
      match r, sent_feedback with
      | Ok tt, Some f => with_send_feedback (<[(pr_protocol p, pr_request_id p) := f]> (send_feedback s)) s
      | _, _ => s
      end
  end.

(** The future that waits on channel [rx]. *)
Definition find_future (rx : nat) (l : list PendingResponse) : option (nat * PendingResponse) :=
  list_find (λ p, pr_rx p = rx) l.

(** The [while let] over the futures that are ready, in the order in which they
    became so. *)
Fixpoint poll_responses (cs : list (nat * option OutgoingResponse)) (s : Behaviour) : flow * Behaviour :=
  match cs with
  | [] => (Onward, with_pending_responses (pending_responses s) [] s)
  | (rx, answer) :: cs =>
      match find_future rx (pending_responses s) with
      | None => poll_responses cs s
      | Some (i, p) =>
          let s := with_pending_responses (delete i (pending_responses s)) cs s in
          match answer with
          | None => poll_responses cs s
          | Some og =>
              let s := match og_result og with
                       | Ok payload => send_built_response p payload (og_sent_feedback og) s
                       | Err tt => s
                       end in
              match og_reputation_changes og with
              | [] => poll_responses cs s
              | changes => (Return (Ready (GenerateEvent (ReputationChanges (pr_peer p) changes))), s)
              end
          end
      end
  end.

(** A request of ours is over. *)
Definition request_finished (w : world) (peer : PeerId) (protocol : ProtocolName) (request_id : RequestId)
    (v : result bytes RequestFailure) (delivered : bool → result unit RequestFailure) (s : Behaviour) :
    outcome (flow * Behaviour) :=
  match pending_requests s !! (protocol, request_id) with
  | Some (started, pending_response) =>
      let s := with_pending_requests (delete (protocol, request_id) (pending_requests s)) s in
      let s := reply pending_response v s in
      let '(t, s) := now s in
      Done (Return (Ready (GenerateEvent (RequestFinished peer protocol (instant_sub t started)
              (delivered (w_waiting w pending_response))))), s)
  | None => Panicked DebugAssertion
  end.

Definition on_sub_event (w : world) (protocol : ProtocolName) (queue : bool) (ev : SubEvent PeerId Chan)
    (s : Behaviour) : outcome (flow * Behaviour) :=
  match ev with
  | EvRequest peer request_id request channel =>
      let '(t, s) := now s in
      let s := with_arrival_time (<[(protocol, request_id) := t]> (pending_responses_arrival_time s)) s in
      let query := length (queries s) in
      let s := with_queries (queries s ++ [(peer, (protocol, request_id), request)]) s in
      Done (ContinueAll, with_message_request
        (Some (mkMessageRequest peer request_id request channel protocol queue query)) s)
  | EvResponse peer request_id response =>
      let v := match response with Ok b => Ok b | Err tt => Err Refused end in
      request_finished w peer protocol request_id v (λ waiting, if waiting then Ok tt else Err Obsolete) s
  | EvOutboundFailure peer request_id error =>
      request_finished w peer protocol request_id (Err (Network error)) (λ _, Err (Network error)) s
  | EvInboundFailure peer request_id error =>
      let s := with_arrival_time (delete (protocol, request_id) (pending_responses_arrival_time s)) s in
      let s := with_send_feedback (delete (protocol, request_id) (send_feedback s)) s in
      Done (Return (Ready (GenerateEvent (InboundRequest peer protocol (Err (RF_Network error))))), s)
  | EvResponseSent peer request_id =>
      arrival ← expect (pending_responses_arrival_time s !! (protocol, request_id));
      let s := with_arrival_time (delete (protocol, request_id) (pending_responses_arrival_time s)) s in
      let '(t, s) := now s in
      let s := match send_feedback s !! (protocol, request_id) with
               | Some f => with_feedback (feedback s ++ [f])
                             (with_send_feedback (delete (protocol, request_id) (send_feedback s)) s)
               | None => s
               end in
      Done (Return (Ready (GenerateEvent (InboundRequest peer protocol (Ok (instant_sub t arrival))))), s)
  end.

(** An action of the behaviour of one protocol. *)
Definition on_sub_action (w : world) (protocol : ProtocolName) (queue : bool)
    (a : Action PeerId (SubEvent PeerId Chan) Hd M Opts) (s : Behaviour) : outcome (flow * Behaviour) :=
  match a with
  | GenerateEvent ev => on_sub_event w protocol queue ev s
  | Dial opts handler =>
      let '(handler, s) := new_handler_with_replacement protocol handler s in
      Done (Return (Ready (Dial opts handler)), s)
  | NotifyHandler peer_id event => Done (Return (Ready (NotifyHandler peer_id (protocol, event))), s)
  | ReportObservedAddr address => Done (Return (Ready (ReportObservedAddr address)), s)
  | CloseConnection peer_id => Done (Return (Ready (CloseConnection peer_id)), s)
  end.

(** The [for] over the protocols. Every event leaves the inner [while] loop:
    its two [continue]s come after a failed [debug_assert!]. *)
Fixpoint poll_protocols (w : world) (names : list ProtocolName) (s : Behaviour) : outcome (flow * Behaviour) :=
  match names with
  | [] => Done (Onward, s)
  | name :: names =>
      match protocols s !! name with
      | None => poll_protocols w names s
      | Some (b, q) =>
          let '(r, b) := sub_poll b in
          let s := with_protocols (<[name := (b, q)]> (protocols s)) s in
          match r with
          | Pending => poll_protocols w names s
          | Ready a => on_sub_action w name q a s
          end
      end
  end.

(** One round of ['poll_all]. *)
Definition poll_round (w : world) (s : Behaviour) : Behaviour + outcome (Poll OutAction * Behaviour) :=
  match poll_message_request w s with
  | Panicked e => inr (Panicked e)
  | Done (Return p, s) => inr (Done (p, s))
  | Done (ContinueAll, s) => inl s
  | Done (Onward, s) =>
      match poll_responses (completed s) s with
      | (Return p, s) => inr (Done (p, s))
      | (ContinueAll, s) => inl s
      | (Onward, s) =>
          match poll_protocols w (hash_keys (dom (protocols s))) s with
          | Panicked e => inr (Panicked e)
          | Done (Return p, s) => inr (Done (p, s))
          | Done (ContinueAll, s) => inl s
          | Done (Onward, s) => inr (Done (Pending, s))
          end
      end
  end.

Definition poll (rounds : nat) (w : world) (s : Behaviour) : option (outcome (Poll OutAction * Behaviour)) :=
  loop (poll_round w) rounds s.
End behaviour.
End RequestResponses.
