(* ===== verification/RequestResponsesFacts.v ===== *)
(** * The request-response behaviour: contract, invariant and termination

    What the behaviours of libp2p promise, the invariant between them and the
    tables of pending requests, and its preservation by every operation. The
    claims are in [RequestResponsesTheorems]. *)

From Stdlib Require Import Sorting.Sorted.
From S2P Require Import Prelude PeersState Peerset Notifications Wire RequestResponses.
Import RequestResponses.

(** ** The contract of [RequestResponse]

    [sub_outstanding]: the requests sent whose response or failure has not been
    reported; [sub_arrived]: the requests received whose end has not been
    reported; [sub_inbound]: whether requests of remotes are accepted;
    [sub_backlog]: a bound on the events it can still report without new
    input. *)
Class SubBehaviourLaws (PeerId B Chan Hd M HE Opts D : Type) `{SubBehaviour PeerId B Chan Hd M HE Opts D} := {
  sub_outstanding : B → gset RequestId;
  sub_arrived : B → gset RequestId;
  sub_inbound : B → bool;
  sub_backlog : B → nat;

  law_new codec l cfg :
    sub_outstanding (sub_new codec l cfg) = ∅ ∧ sub_arrived (sub_new codec l cfg) = ∅ ∧
    (sub_inbound (sub_new codec l cfg) = true → ∃ name, (name, Full) ∈ l);

  (** Request ids are not used twice. *)
  law_send_request b p r :
    let '(id, b') := sub_send_request b p r in
    id ∉ sub_outstanding b ∧ sub_outstanding b' = {[id]} ∪ sub_outstanding b ∧
    sub_arrived b' = sub_arrived b ∧ sub_inbound b' = sub_inbound b;

  (** Other calls settle nothing: outcomes are reported when polling. Sending a
      response hands it to the connection and queues no event. *)
  law_send_response b ch r :
    let b' := (sub_send_response b ch r).2 in
    sub_outstanding b' = sub_outstanding b ∧ sub_arrived b' = sub_arrived b ∧ sub_inbound b' = sub_inbound b;
  law_send_response_backlog b ch r : (sub_backlog (sub_send_response b ch r).2 ≤ sub_backlog b)%nat;
  law_new_handler b :
    let b' := (sub_new_handler b).2 in
    sub_outstanding b' = sub_outstanding b ∧ sub_arrived b' = sub_arrived b ∧ sub_inbound b' = sub_inbound b;
  law_plain_event b e :
    let b' := sub_on_plain_event b e in
    sub_outstanding b' = sub_outstanding b ∧ sub_arrived b' = sub_arrived b ∧ sub_inbound b' = sub_inbound b;
  law_handler_return b e h :
    let b' := sub_on_handler_return b e h in
    sub_outstanding b' = sub_outstanding b ∧ sub_arrived b' = sub_arrived b ∧ sub_inbound b' = sub_inbound b;
  law_handler_event b p e :
    let b' := sub_on_connection_handler_event b p e in
    sub_outstanding b' = sub_outstanding b ∧ sub_arrived b' = sub_arrived b ∧ sub_inbound b' = sub_inbound b;

  (** An outcome is reported once, for a request that is outstanding; a response
      is reported as sent for a request that arrived and did not fail. *)
  law_poll b :
    let '(r, b') := sub_poll b in
    sub_inbound b' = sub_inbound b ∧
    (sub_outstanding b', sub_arrived b') =
      match r with
      | Ready (GenerateEvent (EvRequest _ id _ _)) => (sub_outstanding b, {[id]} ∪ sub_arrived b)
      | Ready (GenerateEvent (EvResponse _ id _)) | Ready (GenerateEvent (EvOutboundFailure _ id _)) =>
          (sub_outstanding b ∖ {[id]}, sub_arrived b)
      | Ready (GenerateEvent (EvInboundFailure _ id _)) | Ready (GenerateEvent (EvResponseSent _ id)) =>
          (sub_outstanding b, sub_arrived b ∖ {[id]})
      | _ => (sub_outstanding b, sub_arrived b)
      end ∧
    match r with
    | Ready (GenerateEvent (EvRequest _ id _ _)) => sub_inbound b = true
    | Ready (GenerateEvent (EvResponse _ id _)) | Ready (GenerateEvent (EvOutboundFailure _ id _)) =>
        id ∈ sub_outstanding b
    | Ready (GenerateEvent (EvResponseSent _ id)) => id ∈ sub_arrived b
    | _ => True
    end ∧
    match r with Ready _ => (sub_backlog b' < sub_backlog b)%nat | Pending => (sub_backlog b' ≤ sub_backlog b)%nat end;
}.

Section facts.
Context {PeerId : Type} `{Countable PeerId}.
Context {B Chan Hd M HE Opts D : Type} `{SL : SubBehaviourLaws PeerId B Chan Hd M HE Opts D}.
Context `{HO : !HashOrder string} (clock : nat → Instant).
Abbreviation Behaviour := (Behaviour (PeerId := PeerId) (B := B) (Chan := Chan)).
Implicit Types s : Behaviour.

(** ** The invariant *)

Definition outstanding_at (m : gmap ProtocolName (B * bool)) (name : ProtocolName) : gset RequestId :=
  match m !! name with Some bq => sub_outstanding bq.1 | None => ∅ end.
Definition arrived_at (m : gmap ProtocolName (B * bool)) (name : ProtocolName) : gset RequestId :=
  match m !! name with Some bq => sub_arrived bq.1 | None => ∅ end.

(** A protocol that accepts requests of remotes has a queue for them; the
    pending requests are those outstanding in some protocol; the arrival of
    every request that is being served is known. *)
Record rinv s : Prop := {
  ri_queue name b q : protocols s !! name = Some (b, q) → sub_inbound b = true → q = true;
  ri_pending name id : id ∈ outstanding_at (protocols s) name ↔ is_Some (pending_requests s !! (name, id));
  ri_arrival name id : id ∈ arrived_at (protocols s) name → is_Some (pending_responses_arrival_time s !! (name, id));
  ri_builder mr : message_request s = Some mr → mr_resp_builder mr = true;
}.

(** Replies to requester [r]: sent and still owed. *)
Definition replied (r : nat) s : Z := Z.of_nat (length (filter (λ x, x.1 = r) (replies s))).
Definition owed (r : nat) s : Z := map_count (λ _ v, bool_decide (v.2 = r)) (pending_requests s).
Definition account (r : nat) s : Z := replied r s + owed r s.

(** The events all protocols can still report, counted twice, and the message
    request: what every round of [poll] that goes on lowers. *)
Definition backlog (m : gmap ProtocolName (B * bool)) : nat :=
  map_fold (λ _ bq n, (sub_backlog bq.1 + n)%nat) 0%nat m.
Definition rank s : nat := (2 * backlog (protocols s) + if message_request s then 1 else 0)%nat.
Definition rounds s : nat := S (rank s).

Lemma backlog_update m name bq bq' :
  m !! name = Some bq →
  (backlog (<[name := bq']> m) + sub_backlog bq.1 = backlog m + sub_backlog bq'.1)%nat.
Proof.
  intros Hm. unfold backlog. rewrite <- insert_delete_eq.
  rewrite map_fold_insert_L; [|lia|apply lookup_delete_eq].
  rewrite (map_fold_delete_L _ _ name bq m); [lia|lia|done].
Qed.

Lemma outstanding_at_insert m name n b q :
  outstanding_at (<[name := (b, q)]> m) n = if decide (name = n) then sub_outstanding b else outstanding_at m n.
Proof. unfold outstanding_at. rewrite lookup_insert. by case_decide. Qed.
Lemma arrived_at_insert m name n b q :
  arrived_at (<[name := (b, q)]> m) n = if decide (name = n) then sub_arrived b else arrived_at m n.
Proof. unfold arrived_at. rewrite lookup_insert. by case_decide. Qed.

Lemma replied_snoc r r' v s : replied r (reply r' v s) = replied r s + Z.b2z (bool_decide (r' = r)).
Proof.
  unfold replied, reply. simpl. rewrite filter_app, length_app, filter_cons. simpl.
  case_decide; [rewrite bool_decide_eq_true_2 by done|rewrite bool_decide_eq_false_2 by done]; simpl; lia.
Qed.

Lemma account_finished r k t r' v s tick :
  pending_requests s !! k = Some (t, r') →
  account r (with_ticks tick (reply r' v (with_pending_requests (delete k (pending_requests s)) s))) = account r s.
Proof.
  intros Hk. change (replied r (reply r' v s) + map_count (λ _ v, bool_decide (v.2 = r)) (delete k (pending_requests s)) = account r s).
  rewrite replied_snoc, (map_count_delete _ _ _ _ Hk). unfold account, owed. simpl. lia.
Qed.

(** A change of the behaviours that reports nothing. *)
Definition same_books (m m' : gmap ProtocolName (B * bool)) : Prop :=
  ∀ name, match m !! name, m' !! name with
          | None, None => True
          | Some (b, q), Some (b', q') =>
              q' = q ∧ sub_outstanding b' = sub_outstanding b ∧ sub_arrived b' = sub_arrived b ∧
              sub_inbound b' = sub_inbound b
          | _, _ => False
          end.

Lemma same_books_refl m : same_books m m.
Proof. intros name. by destruct (m !! name) as [[b q]|]. Qed.

Lemma same_books_insert m name b b' q :
  m !! name = Some (b, q) →
  sub_outstanding b' = sub_outstanding b ∧ sub_arrived b' = sub_arrived b ∧ sub_inbound b' = sub_inbound b →
  same_books m (<[name := (b', q)]> m).
Proof.
  intros Hm Hb n. rewrite lookup_insert. case_decide as E; [subst n; by rewrite Hm|].
  by destruct (m !! n) as [[]|].
Qed.

Lemma same_books_fmap m (f : B → B) :
  (∀ b, sub_outstanding (f b) = sub_outstanding b ∧ sub_arrived (f b) = sub_arrived b ∧ sub_inbound (f b) = sub_inbound b) →
  same_books m ((λ bq, (f bq.1, bq.2)) <$> m).
Proof.
  intros Hf n. rewrite lookup_fmap. destruct (m !! n) as [[b q]|]; simpl; [|done]. by split.
Qed.

Lemma same_books_outstanding m m' : same_books m m' → ∀ n, outstanding_at m' n = outstanding_at m n.
Proof.
  intros Hs n. unfold outstanding_at. specialize (Hs n).
  destruct (m !! n) as [[b q]|], (m' !! n) as [[b' q']|]; simpl; try done. tauto.
Qed.
Lemma same_books_arrived m m' : same_books m m' → ∀ n, arrived_at m' n = arrived_at m n.
Proof.
  intros Hs n. unfold arrived_at. specialize (Hs n).
  destruct (m !! n) as [[b q]|], (m' !! n) as [[b' q']|]; simpl; try done. tauto.
Qed.

(** The invariant depends on the books and four fields only. *)
Lemma rinv_books s s' :
  rinv s → same_books (protocols s) (protocols s') →
  pending_requests s' = pending_requests s → pending_responses_arrival_time s' = pending_responses_arrival_time s →
  message_request s' = message_request s ∨ message_request s' = None → rinv s'.
Proof.
  intros [Hq Hp Ha Hb] Hs Hpr Har Hmr. split.
  - intros n b q Hn Hin. specialize (Hs n). rewrite Hn in Hs.
    destruct (protocols s !! n) as [[b0 q0]|] eqn:E; [|done]. destruct Hs as (-> & _ & _ & Hi).
    apply (Hq n b0 q0 E). congruence.
  - intros n id. rewrite (same_books_outstanding _ _ Hs), Hpr. apply Hp.
  - intros n id. rewrite (same_books_arrived _ _ Hs), Har. apply Ha.
  - intros mr Hm. destruct Hmr as [E|E]; rewrite E in Hm; [by apply Hb|done].
Qed.

(** *** Requests of remotes

    [rep] gives the reputation the peer set answers to each query, [given] the
    answers of the response builders so far. *)
Context (rep : nat → Z).

(** The query [q] was asked for the request [x] that reached a response builder,
    and its answer was not under the threshold. *)
Definition admitted s (q : nat) (x : ProtocolName * IncomingRequest (PeerId := PeerId)) : Prop :=
  BANNED_THRESHOLD ≤ rep q ∧ ∃ id, queries s !! q = Some (ir_peer x.2, (x.1, id), ir_payload x.2).

(** Queries only become more. *)
Lemma admitted_more s s' qs l :
  queries s `prefix_of` queries s' → Forall2 (admitted s) qs l → Forall2 (admitted s') qs l.
Proof.
  intros Hq Hl. eapply Forall2_impl; [exact Hl|]. intros q x [Hrep (id & Hid)]. split; [done|].
  exists id. by eapply prefix_lookup_Some.
Qed.

Lemma admitted_bound s qs l : Forall2 (admitted s) qs l → Forall (λ q, q < length (queries s))%nat qs.
Proof.
  intros Hl. eapply Forall2_Forall_l; [exact Hl|]. apply Forall_forall. intros x _ q [_ (id & Hid)].
  by eapply lookup_lt_Some.
Qed.

Lemma sorted_snoc qs q : StronglySorted lt qs → Forall (λ x, x < q)%nat qs → StronglySorted lt (qs ++ [q]).
Proof.
  induction 1 as [|x qs Hs IH Hx]; intros Hq; [by repeat constructor|]. apply Forall_cons in Hq as [Hxq Hq].
  simpl. constructor; [by apply IH|]. apply Forall_app. by repeat constructor.
Qed.

Record served (given : list (nat * OutgoingResponse)) s : Prop := {
  sv_query mr : message_request s = Some mr →
    queries s !! mr_get_peer_reputation mr = Some (mr_peer mr, (mr_protocol mr, mr_request_id mr), mr_request mr);
  sv_submitted : ∃ qs, Forall2 (admitted s) qs (submitted s) ∧ StronglySorted lt qs ∧
    ∀ mr, message_request s = Some mr → Forall (λ q, q < mr_get_peer_reputation mr)%nat qs;
  sv_range name req : (name, req) ∈ submitted s → (ir_pending_response req < channels s)%nat;
  sv_channels : NoDup ((λ x, ir_pending_response x.2) <$> submitted s);
  sv_future p name req :
    p ∈ pending_responses s → (name, req) ∈ submitted s → ir_pending_response req = pr_rx p →
    ir_peer req = pr_peer p ∧ name = pr_protocol p;
  sv_future_range p : p ∈ pending_responses s → (pr_rx p < channels s)%nat;
  sv_completed rx og :
    (rx, Some og) ∈ completed s →
    (rx, og) ∈ given ∧ ∃ name req, (name, req) ∈ submitted s ∧ ir_pending_response req = rx;
}.

(** Reputation changes are charged to the peer whose request was answered. *)
Definition charged (given : list (nat * OutgoingResponse)) s
    (a : Poll (Action PeerId (Event (PeerId := PeerId)) (gmap ProtocolName Hd) (ProtocolName * M) Opts)) : Prop :=
  ∀ p changes, a = Ready (GenerateEvent (ReputationChanges p changes)) →
  ∃ name req og, (name, req) ∈ submitted s ∧ ir_peer req = p ∧
    (ir_pending_response req, og) ∈ given ∧ og_reputation_changes og = changes.

(** What holds after a part of a round. *)
Definition part_ok (given : list (nat * OutgoingResponse)) s
    (x : flow (PeerId := PeerId) (Hd := Hd) (M := M) (Opts := Opts) * Behaviour) : Prop :=
  rinv x.2 ∧ (∀ r, account r x.2 = account r s) ∧ served given x.2 ∧
  match x.1 with
  | Onward => (rank x.2 ≤ rank s)%nat
  | ContinueAll => (rank x.2 < rank s)%nat
  | Return a => charged given x.2 a
  end.

(** The environment of a poll: the peer set is alive and answers with [rep]. *)
Definition world_ok (w : world) : Prop :=
  ∀ q, w_reputation w q = Pending ∨ w_reputation w q = Ready (Ok (rep q)).

Lemma charged_other given s a :
  (∀ p changes, a ≠ Ready (GenerateEvent (ReputationChanges p changes))) → charged given s a.
Proof. intros Ha p changes E. by destruct (Ha p changes). Qed.

Lemma part_onward given s : rinv s → served given s → part_ok given s (Onward, s).
Proof. intros ??. split_and!; simpl; try done; lia. Qed.

Lemma poll_message_request_ok given w s :
  rinv s → served given s → world_ok w → runs (poll_message_request w s) (part_ok given s).
Proof.
  intros Hinv Hsv Hw. unfold poll_message_request.
  destruct (message_request s) as [mr|] eqn:Hmr; [|by apply runs_ret, part_onward].
  destruct (Hw (mr_get_peer_reputation mr)) as [-> | ->].
  { apply runs_ret. split_and!; [done..|]. by apply charged_other. }
  assert (rinv (with_message_request None s)) as Hinv'.
  { apply (rinv_books s); [done|apply same_books_refl|done|done|by right]. }
  assert (rank (with_message_request None s) < rank s)%nat as Hrank by (unfold rank; simpl; rewrite Hmr; lia).
  destruct Hsv as [Hq (qs & Hqs & Hsort & Hlast) Hrange Hch Hfut Hfr Hco].
  destruct (Z.ltb_spec (rep (mr_get_peer_reputation mr)) BANNED_THRESHOLD) as [|Hrep].
  { split_and!; [done|done| |done]. split; try done. by exists qs. }
  rewrite (ri_builder _ Hinv mr Hmr). specialize (Hq mr Hmr). simpl.
  assert (∀ name req, (name, req) ∈ submitted s → ir_pending_response req ≠ channels s) as Hfresh.
  { intros name req Hin. specialize (Hrange name req Hin). lia. }
  destruct (w_room w (channels s)); simpl.
  - split_and!; [by apply (rinv_books (with_message_request None s)); [|apply same_books_refl|..|left]|done| |done].
    split; simpl; [done| | | | | |].
    + exists (qs ++ [mr_get_peer_reputation mr]). split_and!; [|by apply sorted_snoc, Hlast|done].
      apply Forall2_app; [done|]. constructor; [|done]. split; [done|]. by exists (mr_request_id mr).
    + intros name req [Hin|Hin%list_elem_of_singleton]%elem_of_app; [specialize (Hrange name req Hin); lia|].
      injection Hin as -> ->. simpl. lia.
    + rewrite fmap_app. simpl. apply NoDup_app. split_and!; [done| |apply NoDup_singleton].
      intros x ([name req] & -> & Hin)%list_elem_of_fmap Hx%list_elem_of_singleton. simpl in Hx. by destruct (Hfresh name req Hin).
    + intros p name req [Hp|Hp%list_elem_of_singleton]%elem_of_app [Hin|Hin%list_elem_of_singleton]%elem_of_app Heq.
      * by eapply Hfut.
      * injection Hin as -> ->. simpl in Heq. specialize (Hfr p Hp). lia.
      * subst p. simpl in Heq. by destruct (Hfresh name req Hin).
      * subst p. by injection Hin as -> ->.
    + intros p [Hp|Hp%list_elem_of_singleton]%elem_of_app; [specialize (Hfr p Hp); lia|]. subst p. simpl. lia.
    + intros rx og Hin. destruct (Hco rx og Hin) as (Hg & name & req & Hs & Hr). split; [done|].
      exists name, req. split; [|done]. apply elem_of_app. by left.
  - split_and!; [by apply (rinv_books (with_message_request None s)); [|apply same_books_refl|..|left]|done| |done].
    split; simpl; [done| | |done| | |].
    + by exists qs.
    + intros name req Hin. specialize (Hrange name req Hin). lia.
    + intros p name req [Hp|Hp%list_elem_of_singleton]%elem_of_app Hin Heq; [by eapply Hfut|].
      subst p. simpl in Heq. by destruct (Hfresh name req Hin).
    + intros p [Hp|Hp%list_elem_of_singleton]%elem_of_app; [specialize (Hfr p Hp); lia|]. subst p. simpl. lia.
    + intros rx og [Hin|Hin%list_elem_of_singleton]%elem_of_app; [by apply Hco|done].
Qed.

Lemma part_trans given s s1 x :
  (∀ r, account r s1 = account r s) → (rank s1 ≤ rank s)%nat → part_ok given s1 x → part_ok given s x.
Proof.
  intros Ha Hr (Hinv & Hacc & Hsv & Hf). split_and!; [done| |done|].
  - intros r. by rewrite Hacc, Ha.
  - destruct x as [[] s']; simpl in *; [lia|lia|done].
Qed.

(** *** Answers of the response builders *)

Lemma send_built_response_ok given p payload fb s :
  rinv s → served given s →
  let s' := send_built_response p payload fb s in
  rinv s' ∧ served given s' ∧ (∀ r, account r s' = account r s) ∧ (rank s' ≤ rank s)%nat ∧ submitted s' = submitted s.
Proof.
  intros Hinv Hsv. unfold send_built_response. destruct (protocols s !! pr_protocol p) as [[b q]|] eqn:Hb; [|done].
  pose proof (law_send_response b (pr_inner_channel p) (Ok payload)) as Hlaw.
  pose proof (law_send_response_backlog b (pr_inner_channel p) (Ok payload)) as Hbl.
  destruct (sub_send_response b (pr_inner_channel p) (Ok payload)) as [r b']. simpl in Hlaw, Hbl.
  assert (∀ s', protocols s' = <[pr_protocol p := (b', q)]> (protocols s) → pending_requests s' = pending_requests s →
    pending_responses_arrival_time s' = pending_responses_arrival_time s → message_request s' = message_request s →
    replies s' = replies s → rinv s' ∧ (∀ r, account r s' = account r s) ∧ (rank s' ≤ rank s)%nat) as Hgen.
  { intros s' Hp Hpr Har Hmr Hre. split_and!.
    - apply (rinv_books s); [done| |done|done|by left]. rewrite Hp. by apply (same_books_insert _ _ b).
    - intros r0. unfold account, replied, owed. by rewrite Hpr, Hre.
    - unfold rank. rewrite Hmr, Hp. pose proof (backlog_update _ _ (b, q) (b', q) Hb) as Hu. simpl in Hu.
      destruct (message_request s); lia. }
  destruct Hsv as [???????].
  destruct r as [[]|e]; [destruct fb as [f|]|];
    (split; [by apply Hgen|]); (split; [by split|]); (split; [by apply Hgen|]); (split; [by apply Hgen|done]).
Qed.

Lemma find_future_elem rx (l : list (PendingResponse (PeerId := PeerId) (Chan := Chan))) i p :
  find_future rx l = Some (i, p) → p ∈ l ∧ pr_rx p = rx ∧ ∀ p', p' ∈ delete i l → p' ∈ l.
Proof.
  unfold find_future. intros (Hi & Hrx & _)%list_find_Some. split_and!; [by eapply list_elem_of_lookup_2|done|].
  intros p' Hp'. rewrite delete_take_drop in Hp'. rewrite <- (take_drop (S i) l), elem_of_app.
  apply elem_of_app in Hp' as [Hp'|Hp']; [|by right]. left.
  apply list_elem_of_lookup in Hp' as [j Hj]. apply lookup_take_Some in Hj as [Hj Hlt].
  apply list_elem_of_lookup. exists j. apply lookup_take_Some. split; [done|lia].
Qed.

Lemma poll_responses_ok given cs s :
  rinv s → served given s →
  (∀ rx og, (rx, Some og) ∈ cs →
     (rx, og) ∈ given ∧ ∃ name req, (name, req) ∈ submitted s ∧ ir_pending_response req = rx) →
  part_ok given s (poll_responses cs s).
Proof.
  revert s. induction cs as [|[rx answer] cs IH]; intros s Hinv Hsv Hcs.
  { split_and!; [apply (rinv_books s); [done|apply same_books_refl|done|done|by left]|done| |simpl; unfold rank; simpl; lia].
    destruct Hsv as [???????]. split; simpl; try done; intros ?? Hin; by apply elem_of_nil in Hin. }
  simpl. destruct (find_future rx (pending_responses s)) as [[i p]|] eqn:Hf.
  2: { apply IH; [done|done|]. intros rx' og Hin. apply Hcs. by apply list_elem_of_further. }
  destruct (find_future_elem _ _ _ _ Hf) as (Hp & Hrx & Hdel).
  set (s1 := with_pending_responses (delete i (pending_responses s)) cs s).
  assert (rinv s1) as Hinv1 by (apply (rinv_books s); [done|apply same_books_refl|done|done|by left]).
  assert (served given s1) as Hsv1.
  { destruct Hsv as [Hq Hsub Hrange Hch Hfut Hfr Hco]. split; simpl; try done.
    - intros p' name req Hp'. apply Hfut. by apply Hdel.
    - intros p' Hp'. by apply Hfr, Hdel.
    - intros rx' og Hin. apply Hcs. by apply list_elem_of_further. }
  assert (∀ rx' og, (rx', Some og) ∈ cs →
     (rx', og) ∈ given ∧ ∃ name req, (name, req) ∈ submitted s1 ∧ ir_pending_response req = rx') as Hcs1.
  { intros rx' og Hin. apply Hcs. by apply list_elem_of_further. }
  apply (part_trans given s s1); [done|unfold rank; simpl; lia|].
  destruct answer as [og|]; [|by apply IH].
  set (s2 := match og_result og with Ok payload => _ | Err _ => _ end).
  assert (rinv s2 ∧ served given s2 ∧ (∀ r, account r s2 = account r s1) ∧ (rank s2 ≤ rank s1)%nat ∧ submitted s2 = submitted s1)
    as (Hinv2 & Hsv2 & Hacc2 & Hrank2 & Hsub2).
  { unfold s2. destruct (og_result og) as [payload|[]]; [by apply send_built_response_ok|done]. }
  apply (part_trans given s1 s2); [done|done|].
  destruct (og_reputation_changes og) as [|ch changes] eqn:Hch; [apply IH; [done|done|by rewrite Hsub2]|].
  split_and!; [done|done|done|]. simpl. intros p0 changes0 [= <- <-].
  destruct (Hcs rx og) as (Hg & name & req & Hsub & Hreq); [apply list_elem_of_here|].
  exists name, req, og. rewrite Hsub2. split_and!; [done| |by rewrite Hreq|done].
  apply (sv_future _ _ Hsv p name req Hp Hsub). congruence.
Qed.

(** *** Events of the protocols *)

Lemma rinv_sub s s' name b b' q :
  rinv s → protocols s !! name = Some (b, q) → protocols s' = <[name := (b', q)]> (protocols s) →
  sub_inbound b' = sub_inbound b →
  (∀ id, id ∈ sub_outstanding b' ↔ is_Some (pending_requests s' !! (name, id))) →
  (∀ n id, n ≠ name → pending_requests s' !! (n, id) = pending_requests s !! (n, id)) →
  (∀ id, id ∈ sub_arrived b' → is_Some (pending_responses_arrival_time s' !! (name, id))) →
  (∀ n id, n ≠ name → pending_responses_arrival_time s' !! (n, id) = pending_responses_arrival_time s !! (n, id)) →
  (∀ mr, message_request s' = Some mr → mr_resp_builder mr = true) → rinv s'.
Proof.
  intros [Hq Hp Ha Hb] Hn Hprot Hin Hout Hout' Harr Harr' Hmr. split; rewrite ?Hprot.
  - intros n b0 q0. rewrite lookup_insert. case_decide as E; [|by apply Hq].
    intros [= <- <-]. rewrite Hin. by apply (Hq name).
  - intros n id. rewrite outstanding_at_insert. case_decide as E; [by subst n|]. rewrite Hout' by congruence. apply Hp.
  - intros n id. rewrite arrived_at_insert. case_decide as E; [subst n; apply Harr|].
    rewrite Harr' by congruence. apply Ha.
  - done.
Qed.

(** The invariant after one of the protocols was polled, with nothing but its
    books changed. *)
Lemma rinv_at s name b q : rinv s → protocols s !! name = Some (b, q) →
  (∀ id, id ∈ sub_outstanding b ↔ is_Some (pending_requests s !! (name, id))) ∧
  (∀ id, id ∈ sub_arrived b → is_Some (pending_responses_arrival_time s !! (name, id))).
Proof.
  intros [Hq Hp Ha Hb] Hn. split; intros id.
  - rewrite <- Hp. unfold outstanding_at. by rewrite Hn.
  - intros Hid. apply Ha. unfold arrived_at. by rewrite Hn.
Qed.

Lemma served_fields given s s' :
  served given s → message_request s' = message_request s → queries s' = queries s → submitted s' = submitted s →
  channels s' = channels s → pending_responses s' = pending_responses s → completed s' = completed s → served given s'.
Proof.
  intros [? (qs & Hqs & Hs) ? ? ? ? ?] E1 E2 E3 E4 E5 E6. split; rewrite ?E1, ?E2, ?E3, ?E4, ?E5, ?E6; try done.
  exists qs. split; [|done]. apply (admitted_more s); [by rewrite E2|done].
Qed.

(** One of our requests is over: the reply that was owed is sent. *)
Lemma request_finished_ok given w peer name id v delivered s b b' q :
  rinv s → served given s → protocols s !! name = Some (b, q) → sub_inbound b' = sub_inbound b →
  id ∈ sub_outstanding b → sub_outstanding b' = sub_outstanding b ∖ {[id]} → sub_arrived b' = sub_arrived b →
  runs (request_finished clock w peer name id v delivered (with_protocols (<[name := (b', q)]> (protocols s)) s))
    (part_ok given s).
Proof.
  intros Hinv Hsv Hn Hin Hid Hout Harr. unfold request_finished. simpl.
  destruct (rinv_at s name b q Hinv Hn) as [Hpend Hat].
  destruct (proj1 (Hpend id) Hid) as [[started r] Hr]. rewrite Hr. simpl. split_and!.
  - eapply rinv_sub; [done|exact Hn|done|done| | | | |]; simpl.
    + intros id'. rewrite Hout. destruct (decide (id' = id)) as [->|Hne].
      * rewrite lookup_delete_eq. split; [set_solver|by intros [? ?]].
      * rewrite lookup_delete_ne by congruence. rewrite <- Hpend. set_solver.
    + intros n id' Hne. by rewrite lookup_delete_ne by congruence.
    + intros id'. rewrite Harr. apply Hat.
    + done.
    + apply (ri_builder _ Hinv).
  - intros r'. exact (account_finished r' (name, id) started r v s 0 Hr).
  - by eapply served_fields.
  - by apply charged_other.
Qed.

Lemma on_sub_action_ok given w name q a s b b' :
  rinv s → served given s → protocols s !! name = Some (b, q) → sub_poll b = (Ready a, b') →
  runs (on_sub_action clock w name q a (with_protocols (<[name := (b', q)]> (protocols s)) s)) (part_ok given s).
Proof.
  intros Hinv Hsv Hn Hpoll. pose proof (law_poll b) as Hlaw. rewrite Hpoll in Hlaw.
  destruct Hlaw as (Hin & Hbooks & Hpre & Hbl). pose proof (backlog_update _ _ (b, q) (b', q) Hn) as Hrank. simpl in Hrank.
  destruct (rinv_at s name b q Hinv Hn) as [Hpend Hat].
  assert (∀ s' p, sub_outstanding b' = sub_outstanding b → sub_arrived b' = sub_arrived b →
    same_books (<[name := (b', q)]> (protocols s)) (protocols s') → pending_requests s' = pending_requests s →
    pending_responses_arrival_time s' = pending_responses_arrival_time s → message_request s' = message_request s →
    replies s' = replies s → served given s' → charged given s' p → part_ok given s (Return p, s')) as Hpass.
  { intros s' p Ho Ha Hb Hpr Har Hmr Hre Hsv' Hch. split_and!; [|by intros r; cbn [snd]; unfold account, replied, owed; rewrite Hpr, Hre|done|done].
    apply (rinv_books (with_protocols (<[name := (b', q)]> (protocols s)) s)); [|done..|by left].
    apply (rinv_books s); [done| |done..|by left]. by apply (same_books_insert _ _ b). }
  destruct a as [ev|opts hd|peer m|addr|peer]; simpl in Hbooks; try injection Hbooks as Hout Harr.
  - destruct ev as [peer id req ch|peer id resp|peer id err|peer id err|peer id]; simpl in Hpre;
      injection Hbooks as Hout Harr; simpl.
    + apply runs_ret. split_and!; simpl; [|done| |unfold rank; simpl; lia].
      * eapply rinv_sub; [done|exact Hn|done|done| | | | |]; simpl.
        -- intros id'. rewrite Hout. apply Hpend.
        -- done.
        -- intros id'. rewrite Harr, lookup_insert. case_decide as E; [done|].
           intros [->%elem_of_singleton|Hid]%elem_of_union; [done|]. by apply Hat.
        -- intros n id' Hne. by rewrite lookup_insert_ne by congruence.
        -- intros mr [= <-]. simpl. apply (ri_queue _ Hinv name b q Hn Hpre).
      * destruct Hsv as [Hq (qs & Hqs & Hsort & Hlast) Hrange Hch Hfut Hfr Hco]. split; simpl; try done.
        -- intros mr [= <-]. simpl. by rewrite lookup_app_r, Nat.sub_diag by lia.
        -- exists qs. split_and!; [eapply admitted_more; [|exact Hqs]; by apply prefix_app_r|done|].
           intros mr [= <-]. simpl. by eapply admitted_bound.
    + by eapply request_finished_ok.
    + by eapply request_finished_ok.
    + apply runs_ret. split_and!; simpl; [|done|by eapply served_fields|by apply charged_other].
      eapply rinv_sub; [done|exact Hn|done|done| | | | |]; simpl.
      * intros id'. rewrite Hout. apply Hpend.
      * done.
      * intros id'. rewrite Harr. intros [Hid Hne]%elem_of_difference.
        rewrite lookup_delete_ne by set_solver. by apply Hat.
      * intros n id' Hne. by rewrite lookup_delete_ne by congruence.
      * apply (ri_builder _ Hinv).
    + destruct (Hat id Hpre) as [t Ht]. apply runs_bind. eapply runs_expect; [exact Ht|]. simpl.
      assert (∀ s', protocols s' = <[name := (b', q)]> (protocols s) → pending_requests s' = pending_requests s →
        pending_responses_arrival_time s' = delete (name, id) (pending_responses_arrival_time s) →
        message_request s' = message_request s → rinv s') as Hgen.
      { intros s' E1 E2 E3 E4. eapply rinv_sub; [done|exact Hn|done|done|..]; rewrite ?E2, ?E3, ?E4.
        - intros id'. rewrite Hout. apply Hpend.
        - done.
        - intros id'. rewrite Harr. intros [Hid Hne]%elem_of_difference.
          rewrite lookup_delete_ne by set_solver. by apply Hat.
        - intros n id' Hne. by rewrite lookup_delete_ne by congruence.
        - apply (ri_builder _ Hinv). }
      destruct (send_feedback s !! (name, id)) as [f|]; apply runs_ret;
        (split_and!; simpl; [by apply Hgen|done|by eapply served_fields|by apply charged_other]).
  - unfold new_handler_with_replacement, new_handlers. simpl. apply Hpass; simpl; try done.
    + apply (same_books_fmap _ (λ b0, (sub_new_handler b0).2)). intros b0. apply (law_new_handler b0).
    + by eapply served_fields.
  - apply Hpass; simpl; try done; [apply same_books_refl|by eapply served_fields].
  - apply Hpass; simpl; try done; [apply same_books_refl|by eapply served_fields].
  - apply Hpass; simpl; try done; [apply same_books_refl|by eapply served_fields].
Qed.

Lemma poll_protocols_ok given w names s :
  rinv s → served given s → runs (poll_protocols clock w names s) (part_ok given s).
Proof.
  revert s. induction names as [|name names IH]; intros s Hinv Hsv; [by apply runs_ret, part_onward|]. simpl.
  destruct (protocols s !! name) as [[b q]|] eqn:Hn; [|by apply IH].
  destruct (sub_poll b) as [[|a] b'] eqn:Hpoll; [|by apply (on_sub_action_ok _ _ _ _ _ _ b)].
  pose proof (law_poll b) as Hlaw. rewrite Hpoll in Hlaw. destruct Hlaw as (Hin & Hbooks & _ & Hbl).
  injection Hbooks as Hout Harr. pose proof (backlog_update _ _ (b, q) (b', q) Hn) as Hrank. simpl in Hrank.
  eapply runs_mono; [apply IH|].
  - apply (rinv_books s); [done|by apply (same_books_insert _ _ b)|done|done|by left].
  - by eapply served_fields.
  - intros x. apply part_trans; [done|]. unfold rank. simpl. destruct (message_request s); lia.
Qed.

(** ** [poll] returns *)

Definition poll_ok given s (x : outcome (Poll (Action PeerId (Event (PeerId := PeerId)) (gmap ProtocolName Hd) (ProtocolName * M) Opts) * Behaviour)) : Prop :=
  runs x (λ r, rinv r.2 ∧ (∀ k, account k r.2 = account k s) ∧ served given r.2 ∧ charged given r.2 r.1).

Lemma poll_round_ok given w s :
  rinv s → served given s → world_ok w →
  match poll_round clock w s with
  | inl s' => rinv s' ∧ served given s' ∧ (∀ k, account k s' = account k s) ∧ (rank s' < rank s)%nat
  | inr x => poll_ok given s x
  end.
Proof.
  intros Hinv Hsv Hw. unfold poll_round.
  pose proof (poll_message_request_ok given w s Hinv Hsv Hw) as H1. apply runs_Done in H1 as ([f1 s1] & -> & Hi1 & Ha1 & Hs1 & Hf1).
  simpl in *. destruct f1 as [| |a]; [|done|done].
  pose proof (poll_responses_ok given (completed s1) s1 Hi1 Hs1 (sv_completed _ _ Hs1)) as (Hi2 & Ha2 & Hs2 & Hf2).
  destruct (poll_responses (completed s1) s1) as [f2 s2]. simpl in *.
  assert (∀ k, account k s2 = account k s) as Ha2' by (intros k; by rewrite Ha2).
  destruct f2 as [| |a]; [|split_and!; [done..|lia]|done].
  pose proof (poll_protocols_ok given w (hash_keys (dom (protocols s2))) s2 Hi2 Hs2) as H3.
  apply runs_Done in H3 as ([f3 s3] & -> & Hi3 & Ha3 & Hs3 & Hf3). simpl in *.
  assert (∀ k, account k s3 = account k s) as Ha3' by (intros k; by rewrite Ha3).
  destruct f3 as [| |a]; [|split_and!; [done..|lia]|done].
  apply runs_ret. split_and!; [done..|by apply charged_other].
Qed.

Lemma poll_returns given w n s :
  (rank s < n)%nat → rinv s → served given s → world_ok w →
  ∃ x, poll clock n w s = Some x ∧ poll_ok given s x.
Proof.
  unfold poll. revert s. induction n as [|n IH]; intros s Hn Hinv Hsv Hw; [lia|]. simpl.
  pose proof (poll_round_ok given w s Hinv Hsv Hw) as Hr. destruct (poll_round clock w s) as [s'|x]; [|by exists x].
  destruct Hr as (Hi & Hs & Ha & Hlt). destruct (IH s') as (x & -> & Hx); [lia|done|done|done|]. exists x. split; [done|].
  eapply runs_mono; [exact Hx|]. intros [p s2] (H1 & H2 & H3 & H4). split_and!; [done| |done|done].
  intros k. simpl in *. by rewrite H2, Ha.
Qed.

(** ** The other operations *)

Lemma books_ok given s m :
  rinv s → served given s → same_books (protocols s) m →
  rinv (with_protocols m s) ∧ served given (with_protocols m s) ∧ ∀ k, account k (with_protocols m s) = account k s.
Proof.
  intros Hinv Hsv Hm. split_and!; [|by eapply served_fields|done].
  apply (rinv_books s); [done|done|done|done|by left].
Qed.

Lemma on_handler_swarm_event_ok given e hs s :
  rinv s → served given s →
  let s' := on_handler_swarm_event e hs s in
  rinv s' ∧ served given s' ∧ ∀ k, account k s' = account k s.
Proof.
  unfold on_handler_swarm_event. revert s. induction hs as [|[name hd] hs IH]; intros s Hinv Hsv; [done|]. simpl.
  destruct (protocols s !! name) as [[b q]|] eqn:Hn; [|by apply IH].
  destruct (books_ok given s (<[name := (sub_on_handler_return b e hd, q)]> (protocols s)) Hinv Hsv) as (Hi & Hs & Ha).
  { eapply same_books_insert; [done|]. apply law_handler_return. }
  destruct (IH _ Hi Hs) as (Hi' & Hs' & Ha'). split_and!; [done|done|]. intros k. by rewrite Ha'.
Qed.

(** A request that is sent is owed a reply, one that cannot be sent gets it at
    once. *)
Lemma send_request_ok given target name request r connect s :
  rinv s → served given s →
  runs (send_request clock target name request r connect s) (λ s',
    rinv s' ∧ served given s' ∧ ∀ k, account k s' = account k s + Z.b2z (bool_decide (r = k))).
Proof.
  intros Hinv Hsv. unfold send_request.
  assert (∀ v, rinv (reply r v s) ∧ served given (reply r v s) ∧
    ∀ k, account k (reply r v s) = account k s + Z.b2z (bool_decide (r = k))) as Hreply.
  { intros v. split_and!; [apply (rinv_books s); [done|apply same_books_refl|done|done|by left]|by eapply served_fields|].
    intros k. unfold account. rewrite replied_snoc. change (owed k (reply r v s)) with (owed k s). lia. }
  destruct (protocols s !! name) as [[b q]|] eqn:Hn; [|apply runs_ret, Hreply].
  destruct (_ || _); [|apply runs_ret, Hreply].
  pose proof (law_send_request b target request) as Hlaw. destruct (sub_send_request b target request) as [id b'].
  destruct Hlaw as (Hid & Hout & Harr & Hin). destruct (rinv_at s name b q Hinv Hn) as [Hpend Hat]. simpl.
  assert (pending_requests s !! (name, id) = None) as Hnone.
  { destruct (pending_requests s !! (name, id)) eqn:E; [|done]. exfalso. apply Hid, Hpend. by rewrite E. }
  rewrite Hnone. simpl. split_and!; [|by eapply served_fields|].
  - eapply rinv_sub; [done|exact Hn|done|done| | | | |]; simpl.
    + intros id'. rewrite Hout, lookup_insert. case_decide as E; [|rewrite <- Hpend; set_solver].
      injection E as ->. split; [done|]. set_solver.
    + intros n id' Hne. by rewrite lookup_insert_ne by congruence.
    + intros id'. rewrite Harr. apply Hat.
    + done.
    + apply (ri_builder _ Hinv).
  - intros k. unfold account, owed. simpl. rewrite map_count_insert_new by done. simpl. unfold replied. simpl. lia.
Qed.

Lemma register_ok l m :
  (∀ name b q, m !! name = Some (b, q) →
     sub_outstanding b = ∅ ∧ sub_arrived b = ∅ ∧ (sub_inbound b = true → q = true)) →
  match register l m with
  | Ok m' => ∀ name b q, m' !! name = Some (b, q) →
      sub_outstanding b = ∅ ∧ sub_arrived b = ∅ ∧ (sub_inbound b = true → q = true)
  | Err _ => True
  end.
Proof.
  revert m. induction l as [|c l IH]; intros m Hm; [done|]. simpl.
  destruct (m !! rc_name c) eqn:E; [done|]. apply IH. intros name b q. rewrite lookup_insert. case_decide; [|by apply Hm].
  intros [= <- <-]. unfold sub_of_config. edestruct law_new as (Ho & Ha & Hfull). split_and!; [exact Ho|exact Ha|].
  intros (n & Hn)%Hfull. simpl in Hn. apply elem_of_cons in Hn as [Hn|(n' & Hn & _)%list_elem_of_fmap];
    destruct (rc_inbound_queue c); done.
Qed.

Lemma new_ok l s : new l = Ok s → rinv s ∧ served [] s ∧ ∀ k, account k s = 0.
Proof.
  unfold new. pose proof (register_ok l ∅) as Hreg. destruct (register l ∅) as [m|e]; [|done]. intros [= <-].
  specialize (Hreg ltac:(intros ??? E; by rewrite lookup_empty in E)). split_and!.
  - split; simpl.
    + intros name b q Hn. by apply (Hreg name b q).
    + intros name id. unfold outstanding_at. rewrite lookup_empty. split; [|by intros []].
      destruct (m !! name) as [[b q]|] eqn:Hn; simpl; [|set_solver]. destruct (Hreg name b q Hn) as (-> & _). set_solver.
    + intros name id. unfold arrived_at.
      destruct (m !! name) as [[b q]|] eqn:Hn; simpl; [|set_solver]. destruct (Hreg name b q Hn) as (_ & -> & _). set_solver.
    + done.
  - split; simpl; [done|exists []; by repeat constructor|intros ?? []%elem_of_nil|apply NoDup_nil_2|intros ??? []%elem_of_nil|intros ? []%elem_of_nil|
      intros ?? []%elem_of_nil].
  - intros k. unfold account, replied, owed. simpl. by rewrite map_count_empty.
Qed.
End facts.
