(* ===== verification/RequestResponsesTheorems.v ===== *)
(** * The request-response behaviour: claims

    No panics and no endless polling, replies, the requests of remotes, and the
    codec. *)

From Stdlib Require Import Sorting.Sorted.
From S2P Require Import Prelude PeersState Peerset Notifications Wire RequestResponses RequestResponsesFacts.
Import RequestResponses.

Section runs.
Context {PeerId : Type} `{Countable PeerId}.
Context {B Chan Hd M HE Opts D : Type} `{SL : SubBehaviourLaws PeerId B Chan Hd M HE Opts D}.
Context `{HO : !HashOrder string} (clock : nat → Instant).
Abbreviation Behaviour := (Behaviour (PeerId := PeerId) (B := B) (Chan := Chan)).
Abbreviation OutAction := (Action PeerId (Event (PeerId := PeerId)) (gmap ProtocolName Hd) (ProtocolName * M) Opts).

(** What can be done with the behaviour: its methods, and the response builders
    that answer a request they were given or drop its channel. *)
Inductive op :=
  | OpSendRequest (target : PeerId) (protocol : ProtocolName) (request : bytes) (reply : nat) (connect : IfDisconnected)
  | OpNewHandler
  | OpPlainEvent (e : PlainSwarmEvent D)
  | OpHandlerReturn (e : HandlerSwarmEvent D) (handlers : list (ProtocolName * Hd))
  | OpHandlerEvent (peer : PeerId) (protocol : ProtocolName) (e : HE)
  | OpAnswer (rx : nat) (og : OutgoingResponse)
  | OpDrop (rx : nat)
  | OpPoll (w : world).

(** The action [poll] returns, if any; [None] if its rounds do not suffice. *)
Definition run_op (o : op) (s : Behaviour) : option (outcome (Poll OutAction * Behaviour)) :=
  match o with
  | OpSendRequest target protocol request r connect =>
      Some (pair Pending <$> send_request clock target protocol request r connect s)
  | OpNewHandler => Some (Done (Pending, (new_handler s).2))
  | OpPlainEvent e => Some (Done (Pending, on_plain_swarm_event e s))
  | OpHandlerReturn e handlers => Some (Done (Pending, on_handler_swarm_event e handlers s))
  | OpHandlerEvent peer protocol e => Some (Done (Pending, on_connection_handler_event peer protocol e s))
  | OpAnswer rx og => Some (Done (Pending, with_pending_responses (pending_responses s) (completed s ++ [(rx, Some og)]) s))
  | OpDrop rx => Some (Done (Pending, with_pending_responses (pending_responses s) (completed s ++ [(rx, None)]) s))
  | OpPoll w => poll clock (rounds s) w s
  end.

(** A builder answers requests it was given; while [poll] runs the peer set is
    alive and its answers are those of [rep]. *)
Context (rep : nat → Z).
Definition op_ok (o : op) (s : Behaviour) : Prop :=
  match o with
  | OpAnswer rx _ => rx ∈ (λ x, ir_pending_response x.2) <$> submitted s
  | OpPoll w => world_ok rep w
  | _ => True
  end.

Definition answer_of (o : op) : option (nat * OutgoingResponse) :=
  match o with OpAnswer rx og => Some (rx, og) | _ => None end.
Definition asks (r : nat) (o : op) : bool :=
  match o with OpSendRequest _ _ _ r' _ => bool_decide (r' = r) | _ => false end.

(** The states reached by a sequence of operations, and what [poll] returned. *)
Inductive reaches (s0 : Behaviour) : list op → list (Poll OutAction) → Behaviour → Prop :=
  | reaches_start : reaches s0 [] [] s0
  | reaches_step ops acts s o a s' :
      reaches s0 ops acts s → op_ok o s → run_op o s = Some (Done (a, s')) →
      reaches s0 (ops ++ [o]) (acts ++ [a]) s'.

Lemma served_completed given given' (s : Behaviour) rx (answer : option OutgoingResponse) :
  served rep given s → (∀ x, x ∈ given → x ∈ given') →
  (∀ og, answer = Some og → (rx, og) ∈ given' ∧ rx ∈ (λ x, ir_pending_response x.2) <$> submitted s) →
  served rep given' (with_pending_responses (pending_responses s) (completed s ++ [(rx, answer)]) s).
Proof.
  intros [? ? ? ? ? ? Hco] Hg Ha. split; simpl; try done.
  intros rx' og [Hin|Hin%list_elem_of_singleton]%elem_of_app.
  - destruct (Hco rx' og Hin) as [? ?]. split; [by apply Hg|done].
  - injection Hin as -> <-. destruct (Ha og eq_refl) as [Hgiven ([name req] & -> & Hsub)%list_elem_of_fmap].
    split; [done|]. by exists name, req.
Qed.

(** Every operation returns, keeps the invariants and the accounts. *)
Lemma run_op_ok given o (s : Behaviour) :
  rinv s → served rep given s → op_ok o s →
  let given' := given ++ omap answer_of [o] in
  ∃ a s', run_op o s = Some (Done (a, s')) ∧ rinv s' ∧ served rep given' s' ∧
    (∀ k, account k s' = account k s + Z.b2z (asks k o)) ∧ charged given' s' a.
Proof.
  intros Hinv Hsv Hok. destruct o as [target name req r connect| |e|e hs|peer name e|rx og|rx|w];
    cbn [run_op omap list_omap answer_of]; rewrite ?app_nil_r.
  - pose proof (send_request_ok clock rep given target name req r connect s Hinv Hsv) as Hs.
    apply runs_Done in Hs as (s' & -> & Hi & Hsv' & Ha). eexists _, _.
    split_and!; [done|done|done|done|by apply charged_other].
  - eexists _, _. split; [done|]. unfold new_handler, new_handlers. simpl.
    destruct (books_ok rep given s ((λ bq, ((sub_new_handler bq.1).2, bq.2)) <$> protocols s) Hinv Hsv) as (Hi & Hs & Ha).
    { apply (same_books_fmap _ (λ b0, (sub_new_handler b0).2)). intros b0. apply (law_new_handler b0). }
    split_and!; [done|done|intros k; rewrite Ha; simpl; lia|by apply charged_other].
  - eexists _, _. split; [done|]. unfold on_plain_swarm_event.
    destruct (books_ok rep given s ((λ bq, (sub_on_plain_event bq.1 e, bq.2)) <$> protocols s) Hinv Hsv) as (Hi & Hs & Ha).
    { apply (same_books_fmap _ (λ b0, sub_on_plain_event b0 e)). intros b0. apply law_plain_event. }
    split_and!; [done|done|intros k; rewrite Ha; simpl; lia|by apply charged_other].
  - eexists _, _. split; [done|].
    destruct (on_handler_swarm_event_ok rep given e hs s Hinv Hsv) as (Hi & Hs & Ha).
    split_and!; [done|done|intros k; rewrite Ha; simpl; lia|by apply charged_other].
  - eexists _, _. split; [done|]. unfold on_connection_handler_event.
    destruct (protocols s !! name) as [[b q]|] eqn:Hn; [|split_and!; [done|done|intros; simpl; lia|by apply charged_other]].
    destruct (books_ok rep given s (<[name := (sub_on_connection_handler_event b peer e, q)]> (protocols s)) Hinv Hsv)
      as (Hi & Hs & Ha). { eapply same_books_insert; [done|]. apply law_handler_event. }
    split_and!; [done|done|intros k; rewrite Ha; simpl; lia|by apply charged_other].
  - eexists _, _. split; [done|]. split_and!; [|apply (served_completed given)|intros k; by rewrite Z.add_0_r|by apply charged_other].
    + apply (rinv_books s); [done|apply same_books_refl|done|done|by left].
    + done.
    + intros x Hx. apply elem_of_app. by left.
    + intros og' [= <-]. split; [apply elem_of_app; right; by apply list_elem_of_singleton|done].
  - eexists _, _. split; [done|]. split_and!; [|apply (served_completed given); done|intros k; by rewrite Z.add_0_r|by apply charged_other].
    apply (rinv_books s); [done|apply same_books_refl|done|done|by left].
  - destruct (poll_returns clock rep given w (rounds s) s) as (x & -> & Hx); [unfold rounds; lia|done|done|done|].
    apply runs_Done in Hx as ([a s'] & -> & Hi & Ha & Hs & Hc). eexists _, _.
    split_and!; [done|done|done|intros k; simpl in *; rewrite Ha; lia|done].
Qed.

Lemma reaches_ok l s0 ops acts s :
  new l = Ok s0 → reaches s0 ops acts s →
  rinv s ∧ served rep (omap answer_of ops) s ∧
  ∀ k, account k s = Z.of_nat (length (List.filter (asks k) ops)).
Proof.
  intros Hnew Hr. induction Hr as [|ops acts s o a s' Hr IH Hok Hrun].
  { destruct (new_ok rep l s0 Hnew) as (Hi & Hs & Ha). split_and!; [done|done|]. intros k. by rewrite Ha. }
  destruct IH as (Hi & Hs & Ha). destruct (run_op_ok _ o s Hi Hs Hok) as (a' & s1 & Hrun' & Hi' & Hs' & Ha' & _).
  rewrite Hrun in Hrun'. injection Hrun' as <- <-. rewrite omap_app. split_and!; [done|done|].
  intros k. rewrite Ha', Ha, List.filter_app, length_app. simpl. destruct (asks k o); simpl; lia.
Qed.
End runs.
Arguments op PeerId Hd HE D : clear implicits.

Section claims.
Context {PeerId : Type} `{Countable PeerId}.
Context {B Chan Hd M HE Opts D : Type} `{SL : !SubBehaviour PeerId B Chan Hd M HE Opts D}.
Context `{HO : !HashOrder string} (clock : nat → Instant).

(** C15: The behaviour never panics and polling it always returns. In every state
    reached from the registered protocols by any calls, answers of the response
    builders and events of libp2p that keep to its contract, every further call
    completes: no debug assertion fails (a request id is never used twice, a
    response always belongs to a pending request, a request of a remote never
    arrives on a protocol without a queue), the arrival time of a request whose
    response was sent is always known, and the loop of [poll] ends within the
    number of rounds its backlog allows. *)
Theorem request_responses_never_panics `{!SubBehaviourLaws PeerId B Chan Hd M HE Opts D}
    (rep : nat → Z) (l : list ProtocolConfig) s0 (ops : list (op PeerId Hd HE D)) acts s (o : op PeerId Hd HE D)
    (Hnew : new l = Ok s0) (Hr : reaches clock rep s0 ops acts s) (Hok : op_ok rep o s) :
  ∃ a s', run_op clock o s = Some (Done (a, s')).
Proof.
  destruct (reaches_ok clock rep l s0 ops acts s Hnew Hr) as (Hi & Hs & _).
  destruct (run_op_ok clock rep _ o s Hi Hs Hok) as (a & s' & Hrun & _). by exists a, s'.
Qed.

(** C16: Every request gets exactly one reply. After any run, for every reply
    channel the replies sent on it and the pending requests that still owe one
    are together as many as the requests sent with it: a request that cannot be
    sent is refused at once, a response and a failure are reported once, and
    nothing else is ever sent on the channel. *)
Theorem every_request_gets_one_reply `{!SubBehaviourLaws PeerId B Chan Hd M HE Opts D}
    (rep : nat → Z) (l : list ProtocolConfig) s0 (ops : list (op PeerId Hd HE D)) acts s (r : nat)
    (Hnew : new l = Ok s0) (Hr : reaches clock rep s0 ops acts s) :
  Z.of_nat (length (filter (λ x, x.1 = r) (replies s))) +
  map_count (λ _ v, bool_decide (v.2 = r)) (pending_requests s) =
  Z.of_nat (length (List.filter (asks r) ops)).
Proof. destruct (reaches_ok clock rep l s0 ops acts s Hnew Hr) as (_ & _ & Ha). apply Ha. Qed.

(** C17: How requests of remotes are served, while the peer set is alive and the
    behaviours of libp2p keep their contract. Every request that reached a
    response builder has a query of its own for the reputation of its sender,
    the one made when this very request (its peer, protocol and payload) came in
    (each query is recorded with the request it was made for), whose answer was
    not under the ban threshold: the queries of the requests that were
    submitted, in the order of submission, are different and in the order in
    which they were made. Every request has a response channel of its own; a
    response is only ever awaited for the peer and protocol of the request its
    channel was created for; and when [poll] reports reputation changes, they
    are those a builder attached to the answer of a request of that very peer.
    *)
Theorem requests_of_remotes_served `{!SubBehaviourLaws PeerId B Chan Hd M HE Opts D}
    (rep : nat → Z) (l : list ProtocolConfig) s0 (ops : list (op PeerId Hd HE D)) acts s (o : op PeerId Hd HE D) a s'
    (Hnew : new l = Ok s0) (Hr : reaches clock rep s0 ops acts s) (Hok : op_ok rep o s)
    (Hrun : run_op clock o s = Some (Done (a, s'))) :
  (∃ qs, Forall2 (λ q '(name, req), BANNED_THRESHOLD ≤ rep q ∧
           ∃ id, queries s' !! q = Some (ir_peer req, (name, id), ir_payload req)) qs (submitted s') ∧
         StronglySorted lt qs) ∧
  NoDup ((λ x, ir_pending_response x.2) <$> submitted s') ∧
  (∀ p name req, p ∈ pending_responses s' → (name, req) ∈ submitted s' → ir_pending_response req = pr_rx p →
     pr_peer p = ir_peer req ∧ pr_protocol p = name) ∧
  (∀ p changes, a = Ready (GenerateEvent (ReputationChanges p changes)) →
     ∃ name req og, (name, req) ∈ submitted s' ∧ ir_peer req = p ∧
       OpAnswer (ir_pending_response req) og ∈ ops ++ [o] ∧ og_reputation_changes og = changes).
Proof.
  destruct (reaches_ok clock rep l s0 ops acts s Hnew Hr) as (Hi & Hs & _).
  destruct (run_op_ok clock rep _ o s Hi Hs Hok) as (a' & s1 & Hrun' & _ & Hs' & _ & Hc).
  rewrite Hrun in Hrun'. injection Hrun' as <- <-. rewrite <- omap_app in Hs', Hc. split_and!.
  - destruct (sv_submitted _ _ _ Hs') as (qs & Hqs & Hsort & _). exists qs. split; [|done].
    eapply Forall2_impl; [exact Hqs|]. by intros q [name req].
  - apply Hs'.
  - intros p name req Hp Hin Heq. by destruct (sv_future _ _ _ Hs' p name req Hp Hin Heq).
  - intros p changes Ha. destruct (Hc p changes Ha) as (name & req & og & Hsub & Hp & Hgiven & Hch).
    exists name, req, og. split_and!; [done|done| |done].
    apply list_elem_of_omap in Hgiven as (o' & Hin & Ho'). destruct o'; try done. by injection Ho' as -> ->.
Qed.
End claims.

(** ** The codec *)

Section codec.
Context `{VL : VarintLaws}.

Lemma read_request_bound c r b r' :
  read_request c r = (Ok b, r') → blen b ≤ usize_from_u64 (max_request_size c).
Proof.
  unfold read_request. destruct (read_usize r) as [[n|] r0] eqn:E; [|done].
  destruct (Z.ltb_spec (usize_from_u64 (max_request_size c)) n); [done|]. intros Hr.
  by rewrite (read_exact_length _ _ _ _ (proj1 (read_is_usize _ _ _ E)) Hr).
Qed.

Lemma read_response_bound c r b r' :
  read_response c r = (Ok (Ok b), r') → blen b ≤ usize_from_u64 (max_response_size c).
Proof.
  unfold read_response. destruct (read_usize r) as [[n|[[]| |]] r0] eqn:E; try done.
  destruct (Z.ltb_spec (usize_from_u64 (max_response_size c)) n); [done|].
  destruct (read_exact n r0) as [[b'|] r1] eqn:Hr; [|done]. intros [= <- _].
  by rewrite (read_exact_length _ _ _ _ (proj1 (read_is_usize _ _ _ E)) Hr).
Qed.
End codec.

(** What one side writes the other reads: a request, a response, and the
    refusal to respond, which is a stream closed without a byte. A request or
    response over the limit of the reader is refused before it is read, and
    nothing that is accepted exceeds the limit, whatever bytes the remote
    sends. *)
Theorem codec_roundtrip `{VarintLaws} (c : GenericCodec) (b : bytes) (Hlen : blen b ≤ u64_max)
    (Hreq : is_u64 (max_request_size c)) (Hres : is_u64 (max_response_size c)) :
  (∃ w, write_request c fresh_writer b = (Ok tt, w) ∧ wr_closed w = true ∧
     (read_request c (remote_reader w)).1 = if max_request_size c <? blen b then Err InvalidInput else Ok b) ∧
  (∃ w, write_response c fresh_writer (Ok b) = (Ok tt, w) ∧ wr_closed w = true ∧
     (read_response c (remote_reader w)).1 = if max_response_size c <? blen b then Err InvalidInput else Ok (Ok b)) ∧
  (∃ w, write_response c fresh_writer (Err tt) = (Ok tt, w) ∧ wr_closed w = true ∧
     (read_response c (remote_reader w)).1 = Ok (Err tt)) ∧
  (∀ r b' r', read_request c r = (Ok b', r') → blen b' ≤ max_request_size c) ∧
  (∀ r b' r', read_response c r = (Ok (Ok b'), r') → blen b' ≤ max_response_size c).
Proof.
  assert (is_u64 (blen b)) as Hb by (split; [apply blen_nonneg|done]).
  pose proof (read_exact_app b [] None) as Hex. rewrite app_nil_r in Hex.
  pose proof (read_encoded (blen b) b None Hb) as Henc.
  split_and!.
  - eexists. split_and!; [done|done|]. unfold read_request, remote_reader. simpl. rewrite Henc.
    rewrite usize_from_u64_id by apply Hreq. destruct (_ <? _); [done|]. by rewrite Hex.
  - eexists. split_and!; [done|done|]. unfold read_response, remote_reader. simpl. rewrite Henc.
    rewrite usize_from_u64_id by apply Hres. destruct (_ <? _); [done|]. by rewrite Hex.
  - eexists. split_and!; [done|done|]. unfold read_response, remote_reader. simpl. by rewrite read_empty.
  - intros r b' r' Hr. rewrite <- (usize_from_u64_id (max_request_size c)) by apply Hreq. by eapply read_request_bound.
  - intros r b' r' Hr. rewrite <- (usize_from_u64_id (max_response_size c)) by apply Hres. by eapply read_response_bound.
Qed.

Lemma codec_roundtrip_witness :
  let c := mkGenericCodec 2 2 in
  ∃ w, write_request c fresh_writer [Byte.x01; Byte.x02; Byte.x03] = (Ok tt, w) ∧
    (read_request c (remote_reader w)).1 = Err InvalidInput.
Proof.
  destruct (codec_roundtrip (mkGenericCodec 2 2) [Byte.x01; Byte.x02; Byte.x03]
    ltac:(vm_compute; discriminate) ltac:(split; vm_compute; discriminate) ltac:(split; vm_compute; discriminate))
    as [(w & Hw & _ & Hr) _].
  exists w. split; [exact Hw|exact Hr].
Defined.

(** ** An example network

    A behaviour that reports the events it is given, as far as they keep to the
    contract. *)
Record scripted_sub := mkScriptedSub {
  ss_outstanding : gset RequestId;
  ss_arrived : gset RequestId;
  ss_inbound : bool;
  ss_queue : list (SubEvent nat nat);
  ss_next : RequestId;
}.

Definition legal (ev : SubEvent nat nat) (b : scripted_sub) : bool :=
  match ev with
  | EvRequest _ _ _ _ => ss_inbound b
  | EvResponse _ id _ | EvOutboundFailure _ id _ => bool_decide (id ∈ ss_outstanding b)
  | EvInboundFailure _ _ _ => true
  | EvResponseSent _ id => bool_decide (id ∈ ss_arrived b)
  end.

Definition reported (ev : SubEvent nat nat) (l : list (SubEvent nat nat)) (b : scripted_sub) : scripted_sub :=
  match ev with
  | EvRequest _ id _ _ => mkScriptedSub (ss_outstanding b) ({[id]} ∪ ss_arrived b) (ss_inbound b) l (ss_next b)
  | EvResponse _ id _ | EvOutboundFailure _ id _ =>
      mkScriptedSub (ss_outstanding b ∖ {[id]}) (ss_arrived b) (ss_inbound b) l (ss_next b)
  | EvInboundFailure _ id _ | EvResponseSent _ id =>
      mkScriptedSub (ss_outstanding b) (ss_arrived b ∖ {[id]}) (ss_inbound b) l (ss_next b)
  end.

Definition is_full (x : ProtocolName * ProtocolSupport) : bool := match x.2 with Full => true | Outbound => false end.

Section examples.

#[local] Instance scripted_sub_behaviour :
    SubBehaviour nat scripted_sub nat unit unit unit unit (SubEvent nat nat) := {|
  sub_new _ l _ := mkScriptedSub ∅ ∅ (existsb is_full l) [] 0;
  sub_is_connected _ _ := true;
  sub_send_request b _ _ :=
    let id := fresh (ss_outstanding b) in
    (id, mkScriptedSub ({[id]} ∪ ss_outstanding b) (ss_arrived b) (ss_inbound b) (ss_queue b) (S (ss_next b)));
  sub_send_response b _ _ := (Ok tt, b);
  sub_new_handler b := (tt, b);
  sub_on_plain_event b e :=
    match e with
    | SwConnectionEstablished _ ev =>
        mkScriptedSub (ss_outstanding b) (ss_arrived b) (ss_inbound b) (ss_queue b ++ [ev]) (ss_next b)
    | _ => b
    end;
  sub_on_handler_return b _ _ := b;
  sub_on_connection_handler_event b _ _ := b;
  sub_poll b :=
    match ss_queue b with
    | [] => (Pending, b)
    | ev :: l =>
        if legal ev b then (Ready (GenerateEvent ev), reported ev l b)
        else (Pending, mkScriptedSub (ss_outstanding b) (ss_arrived b) (ss_inbound b) l (ss_next b))
    end;
|}.

#[local] Instance scripted_sub_laws :
  SubBehaviourLaws nat scripted_sub nat unit unit unit unit (SubEvent nat nat).
Proof.
  refine {| sub_outstanding := ss_outstanding; sub_arrived := ss_arrived; sub_inbound := ss_inbound;
            sub_backlog := λ b, length (ss_queue b) |}; try done.
  - intros codec l cfg. split_and!; [done|done|]. simpl. intros ([name []] & Hin%list_elem_of_In & Hf)%existsb_exists;
      [by exists name|done].
  - intros b p r. simpl. split_and!; [apply is_fresh|done..].
  - intros b e. by destruct e.
  - intros b. simpl. destruct (ss_queue b) as [|ev l] eqn:Hq; [by rewrite Hq|].
    destruct (legal ev b) eqn:Hl; [|simpl; split_and!; [done..|lia]].
    destruct ev; simpl in *; split_and!; try done; try lia; by apply bool_decide_eq_true in Hl.
Defined.

#[local] Instance string_order : HashOrder string := canonical_order string.

Definition sync_config : ProtocolConfig := mkProtocolConfig "/dot/sync/2"%string [] 1024 1024 (from_secs 10) true.
Definition demo_clock (n : nat) : Instant := Z.of_nat n.
Definition demo_rep (q : nat) : Z := 0.
Definition demo_world : world := mkWorld (λ q, Ready (Ok (demo_rep q))) (λ _, true) (λ _, true).
Definition rude : ReputationChange := ReputationChange_new (-10) "same block requested twice"%string.

Abbreviation Demo := (Behaviour (PeerId := nat) (B := scripted_sub) (Chan := nat)).
Abbreviation demo_op := (op nat unit unit (SubEvent nat nat)).

(** Peer 7 sends a request, which is handed to the response builder; we send a
    request to it. *)
Definition demo_ops : list demo_op :=
  [OpPlainEvent (SwConnectionEstablished _ (EvRequest 7%nat 3 [Byte.x2a] 5%nat)); OpPoll demo_world;
   OpSendRequest 7%nat "/dot/sync/2"%string [Byte.x01] 40 TryConnect;
   OpAnswer 0 (mkOutgoingResponse (Ok [Byte.x2b]) [rude] None)].

Definition demo_start : Demo :=
  mkBehaviour {["/dot/sync/2"%string := (mkScriptedSub ∅ ∅ true [] 0, true)]} ∅ [] ∅ ∅ None [] 0 [] [] [] [] 0.

(** Executable side conditions: the builders answer requests they were given. *)
Fixpoint ops_ok (ops : list demo_op) (s : Demo) : bool :=
  match ops with
  | [] => true
  | o :: ops =>
      match o with
      | OpAnswer rx _ => bool_decide (rx ∈ (λ x, ir_pending_response x.2) <$> submitted s)
      | _ => true
      end && match run_op demo_clock o s with Some (Done (_, s')) => ops_ok ops s' | _ => false end
  end.
Definition polls_ok : list demo_op → Prop :=
  Forall (λ o, match o with OpPoll w => world_ok demo_rep w | _ => True end).
Fixpoint ops_end (ops : list demo_op) (s : Demo) : Demo :=
  match ops with
  | [] => s
  | o :: ops => match run_op demo_clock o s with Some (Done (_, s')) => ops_end ops s' | _ => s end
  end.

Lemma ops_reach ops s0 pre acts s :
  reaches demo_clock demo_rep s0 pre acts s → polls_ok ops → ops_ok ops s = true →
  ∃ acts', reaches demo_clock demo_rep s0 (pre ++ ops) acts' (ops_end ops s).
Proof.
  revert pre acts s. induction ops as [|o ops IH]; intros pre acts s Hr Hp Hok; [rewrite app_nil_r; by exists acts|].
  apply Forall_cons in Hp as [Ho Hp]. simpl in *. apply andb_prop in Hok as [Ho' Hok].
  destruct (run_op demo_clock o s) as [[[a s']|]|] eqn:E; try done.
  destruct (IH (pre ++ [o]) (acts ++ [a]) s') as [acts' Hr']; [|done|done|rewrite <- app_assoc in Hr'; by exists acts'].
  econstructor; [done| |done]. destruct o; try done. by apply bool_decide_eq_true in Ho'.
Qed.

Lemma demo_started : new [sync_config] = Ok demo_start.
Proof. vm_compute. reflexivity. Qed.

Lemma demo_world_ok : world_ok demo_rep demo_world.
Proof. intros q. by right. Qed.

Lemma demo_run_reaches : ∃ acts, reaches demo_clock demo_rep demo_start demo_ops acts (ops_end demo_ops demo_start).
Proof.
  apply (ops_reach demo_ops demo_start [] []); [apply reaches_start| |vm_compute; reflexivity].
  repeat (apply Forall_cons; split); try done. apply demo_world_ok.
Qed.

Lemma request_responses_never_panics_witness :
  ∃ a s', run_op demo_clock (OpPoll demo_world) (ops_end demo_ops demo_start) = Some (Done (a, s')).
Proof.
  destruct demo_run_reaches as [acts Hr].
  exact (request_responses_never_panics demo_clock demo_rep [sync_config] demo_start demo_ops acts _
           (OpPoll demo_world) demo_started Hr demo_world_ok).
Defined.

(** One request was sent, and its reply is still owed. *)
Lemma every_request_gets_one_reply_witness :
  map_count (λ _ v, bool_decide (v.2 = 40%nat)) (pending_requests (ops_end demo_ops demo_start)) = 1.
Proof.
  destruct demo_run_reaches as [acts Hr].
  pose proof (every_request_gets_one_reply demo_clock demo_rep [sync_config] demo_start demo_ops acts _ 40%nat demo_started Hr) as Hone.
  vm_compute in Hone. vm_compute. exact Hone.
Defined.

(** The next poll charges peer 7 for its request. *)
Lemma requests_of_remotes_served_witness :
  ∃ s', run_op demo_clock (OpPoll demo_world) (ops_end demo_ops demo_start) =
      Some (Done (Ready (GenerateEvent (ReputationChanges 7%nat [rude])), s')) ∧
    ∃ name req, (name, req) ∈ submitted s' ∧ ir_peer req = 7%nat.
Proof.
  destruct demo_run_reaches as [acts Hr].
  destruct (run_op demo_clock (OpPoll demo_world) (ops_end demo_ops demo_start)) as [[[a s']|]|] eqn:E;
    [|vm_compute in E; discriminate E..].
  destruct (requests_of_remotes_served demo_clock demo_rep [sync_config] demo_start demo_ops acts _
              (OpPoll demo_world) a s' demo_started Hr demo_world_ok E) as (_ & _ & _ & Hc).
  exists s'. assert (a = Ready (GenerateEvent (ReputationChanges 7%nat [rude]))) as ->.
  { vm_compute in E. injection E as <- _. reflexivity. }
  split; [reflexivity|]. destruct (Hc 7%nat [rude] eq_refl) as (name & req & og & Hsub & Hp & _).
  exists name, req. split; [exact Hsub|exact Hp].
Defined.
End examples.
