(* ===== verification/Config.v ===== *)
(** * Configuration of the network

    Models of [network/common/protocol/role.rs], [network/common/config.rs] and
    [network/config.rs]: the roles of a node, addresses that end in a peer
    identity, the configuration of the sets of peers, and the key of the node,
    which is kept in a file.

    Multiaddresses ([Multiaddr]) and Ed25519 keys ([NodeKeys]) are interfaces
    with the laws their crates document. The file system is a map from paths to
    contents with a set of directories; the environment may make any operation
    on it fail. *)

From S2P Require Import Prelude Wire Notifications RequestResponses.

(** ** [role.rs] *)
Module Roles.

Inductive Role := Full | Authority.
Inductive ObservedRole := ObservedFull | ObservedLight | ObservedAuthority.

(** [bitflags! { pub struct Roles: u8 }]. *)
Definition Roles := Z.
Definition NONE : Roles := 0.
Definition FULL : Roles := 1.
Definition LIGHT : Roles := 2.
Definition AUTHORITY : Roles := 4.

Definition all : Z := Z.lor FULL (Z.lor LIGHT AUTHORITY).
Definition intersects (a b : Roles) : bool := negb (Z.land a b =? 0).
Definition from_bits (bits : Z) : option Roles :=
  if Z.land bits (Z.lnot all) =? 0 then Some bits else None.

Definition is_full (r : Roles) : bool := intersects r (Z.lor FULL AUTHORITY).
Definition is_authority (r : Roles) : bool := r =? AUTHORITY.
Definition is_light (r : Roles) : bool := negb (is_full r).

Definition from_Role (r : Role) : Roles := match r with Full => FULL | Authority => AUTHORITY end.

Definition encode (r : Roles) : bytes := [byte_of r].

(** [Decode::decode]: the flags and the rest of the input. *)
Definition decode (input : bytes) : option (Roles * bytes) :=
  match input with
  | [] => None
  | b :: rest => r ← from_bits (byte_val b); Some (r, rest)
  end.

(** [behaviour.rs] *)
Definition reported_roles_to_observed_role (roles : Roles) : ObservedRole :=
  if is_authority roles then ObservedAuthority
  else if is_full roles then ObservedFull
  else ObservedLight.

(** A set of flags has no other bits. *)
Definition valid (r : Roles) : Prop := 0 ≤ r ≤ all.

Lemma from_bits_valid bits : 0 ≤ bits < 256 → from_bits bits = if bits <=? all then Some bits else None.
Proof.
  intros Hb. assert (bits ∈ (Z.of_nat <$> seq 0 256)) as Hin.
  { apply list_elem_of_fmap. exists (Z.to_nat bits). split; [lia|]. apply elem_of_seq. lia. }
  clear Hb. revert bits Hin. apply Forall_forall. vm_compute. repeat constructor.
Qed.

Lemma decode_encode r rest : valid r → decode (encode r ++ rest) = Some (r, rest).
Proof.
  intros [H1 H2]. assert (all = 7) as Ha by done.
  simpl. rewrite byte_val_of, from_bits_valid by lia.
  rewrite (proj2 (Z.leb_le _ _) H2). done.
Qed.
End Roles.

(** ** Addresses *)

(** [multiaddr::Protocol], as far as the code names its variants. *)
Inductive Component (Multihash : Type) :=
  | Ip4 (a b c d : Z)
  | Ip6 (addr : Z)
  | Dns (name : string)
  | Dns4 (name : string)
  | Dns6 (name : string)
  | Tcp (port : Z)
  | P2p (key : Multihash)
  | OtherComponent (repr : string).
Arguments Ip4 {Multihash} a b c d.
Arguments Ip6 {Multihash} addr.
Arguments Dns {Multihash} name.
Arguments Dns4 {Multihash} name.
Arguments Dns6 {Multihash} name.
Arguments Tcp {Multihash} port.
Arguments P2p {Multihash} key.
Arguments OtherComponent {Multihash} repr.

Class Multiaddr (PeerId Multihash MA : Type) := {
  ma_parse : string → result MA string;
  ma_display : MA → string;
  ma_collect : list (Component Multihash) → MA;
  ma_pop : MA → option (Component Multihash) * MA;
  ma_with : MA → Component Multihash → MA;
  ma_is_empty : MA → bool;
  from_multihash : Multihash → option PeerId;
  to_multihash : PeerId → Multihash;
}.

Class MultiaddrLaws (PeerId Multihash MA : Type) `{Multiaddr PeerId Multihash MA} := {
  parse_display a : ma_parse (ma_display a) = Ok a;
  (** [pop] takes off the last component, [with] puts one there. *)
  pop_with a c : ma_pop (ma_with a c) = (Some c, a);
  with_pop a a' c : ma_pop a = (Some c, a') → ma_with a' c = a;
  (** A peer identity is a multihash of a particular form. *)
  multihash_peer p : from_multihash (to_multihash p) = Some p;
  peer_multihash k p : from_multihash k = Some p → to_multihash p = k;
}.

(** ** The configuration *)
Module Config.
Section config.
Context {PeerId Multihash MA : Type} `{Multiaddr PeerId Multihash MA}.

Inductive ParseErr := MultiaddrParse (e : string) | InvalidPeerId | PeerIdMissing.

Definition parse_addr (addr : MA) : result (PeerId * MA) ParseErr :=
  match ma_pop addr with
  | (Some (P2p key), addr) =>
      match from_multihash key with
      | Some who => Ok (who, addr)
      | None => Err InvalidPeerId
      end
  | (_, _) => Err PeerIdMissing
  end.

Definition parse_str_addr (addr_str : string) : result (PeerId * MA) ParseErr :=
  match ma_parse addr_str with
  | Ok addr => parse_addr addr
  | Err e => Err (MultiaddrParse e)
  end.

Record MultiaddrWithPeerId := mkMultiaddrWithPeerId { mp_multiaddr : MA; mp_peer_id : PeerId }.

Definition concat (m : MultiaddrWithPeerId) : MA := ma_with (mp_multiaddr m) (P2p (to_multihash (mp_peer_id m))).

(** [Display] and [From<MultiaddrWithPeerId> for String]. *)
Definition to_string (m : MultiaddrWithPeerId) : string := ma_display (concat m).

(** [FromStr] and [TryFrom<String>]. *)
Definition from_str (s : string) : result MultiaddrWithPeerId ParseErr :=
  match parse_str_addr s with
  | Ok (peer_id, multiaddr) => Ok (mkMultiaddrWithPeerId multiaddr peer_id)
  | Err e => Err e
  end.

Inductive NonReservedPeerMode := Accept | Deny.

#[export] Instance NonReservedPeerMode_eq_dec : EqDecision NonReservedPeerMode.
Proof. solve_decision. Defined.

Definition NonReservedPeerMode_parse (s : string) : option NonReservedPeerMode :=
  if decide (s = "accept"%string) then Some Accept
  else if decide (s = "deny"%string) then Some Deny
  else None.

Record SetConfig := mkSetConfig {
  sc_in_peers : Z;
  sc_out_peers : Z;
  sc_reserved_nodes : list MultiaddrWithPeerId;
  sc_non_reserved_mode : NonReservedPeerMode;
}.

Definition SetConfig_default : SetConfig := mkSetConfig 25 75 [] Accept.

(** [NotificationHandshake] is its bytes. *)
Record NonDefaultSetConfig := mkNonDefaultSetConfig {
  nd_notifications_protocol : ProtocolName;
  nd_fallback_names : list ProtocolName;
  nd_handshake : option bytes;
  nd_max_notification_size : Z;
  nd_set_config : SetConfig;
}.

Definition NonDefaultSetConfig_new (notifications_protocol : ProtocolName) (max_notification_size : Z) :
    NonDefaultSetConfig :=
  mkNonDefaultSetConfig notifications_protocol [] None max_notification_size (mkSetConfig 0 0 [] Deny).

Definition with_set_config (sc : SetConfig) (c : NonDefaultSetConfig) : NonDefaultSetConfig :=
  mkNonDefaultSetConfig (nd_notifications_protocol c) (nd_fallback_names c) (nd_handshake c)
    (nd_max_notification_size c) sc.

Definition allow_non_reserved (in_peers out_peers : Z) (c : NonDefaultSetConfig) : NonDefaultSetConfig :=
  with_set_config (mkSetConfig in_peers out_peers (sc_reserved_nodes (nd_set_config c)) Accept) c.

Definition add_reserved (peer : MultiaddrWithPeerId) (c : NonDefaultSetConfig) : NonDefaultSetConfig :=
  let sc := nd_set_config c in
  with_set_config (mkSetConfig (sc_in_peers sc) (sc_out_peers sc) (sc_reserved_nodes sc ++ [peer])
                     (sc_non_reserved_mode sc)) c.

Definition add_fallback_names (names : list ProtocolName) (c : NonDefaultSetConfig) : NonDefaultSetConfig :=
  mkNonDefaultSetConfig (nd_notifications_protocol c) (nd_fallback_names c ++ names) (nd_handshake c)
    (nd_max_notification_size c) (nd_set_config c).

Inductive TransportConfig := Normal (enable_mdns allow_private_ip : bool) | MemoryOnly.

Inductive SyncMode := SyncFull | SyncFast (skip_proofs storage_chain_mode : bool) | SyncWarp.
Definition is_warp (m : SyncMode) : bool := match m with SyncWarp => true | _ => false end.
Definition is_fast (m : SyncMode) : bool := match m with SyncFast _ _ => true | _ => false end.
Definition SyncMode_default : SyncMode := SyncFull.
End config.

Arguments MultiaddrWithPeerId : clear implicits.
Arguments SetConfig : clear implicits.
Arguments NonDefaultSetConfig : clear implicits.

(** ** The key of the node *)

(** Paths are lists of components, from the root (or the current directory). *)
Abbreviation Path := (list string).

(** [Path::parent]. *)
Definition parent (p : Path) : option Path := match p with [] => None | _ => Some (removelast p) end.

(** Contents of files, the directories below the root, and what goes wrong, one
    entry per operation: an error and, for a write, how much was written. *)
Record FileSystem := mkFileSystem {
  files : gmap Path bytes;
  dirs : gset Path;
  fs_faults : list (option (io_error * nat));
}.

Definition is_dir (p : Path) (fs : FileSystem) : bool := bool_decide (p = [] ∨ p ∈ dirs fs).

Definition next_fs_fault (fs : FileSystem) : option (io_error * nat) * FileSystem :=
  match fs_faults fs with
  | [] => (None, fs)
  | f :: faults => (f, mkFileSystem (files fs) (dirs fs) faults)
  end.

(** [std::fs::read]. *)
Definition fs_read (p : Path) (fs : FileSystem) : result bytes io_error * FileSystem :=
  match next_fs_fault fs with
  | (Some (e, _), fs) => (Err e, fs)
  | (None, fs) =>
      match files fs !! p with
      | Some b => (Ok b, fs)
      | None => if is_dir p fs then (Err (OtherKind 21), fs) else (Err NotFound, fs)
      end
  end.

(** [std::fs::create_dir_all]: the directory and those above it. *)
Definition prefixes (p : Path) : list Path := (λ n, take n p) <$> seq 1 (length p).

Definition create_dir_all (p : Path) (fs : FileSystem) : result unit io_error * FileSystem :=
  match next_fs_fault fs with
  | (Some (e, _), fs) => (Err e, fs)
  | (None, fs) =>
      if existsb (λ q, bool_decide (is_Some (files fs !! q))) (prefixes p) then (Err (OtherKind 20), fs)
      else (Ok tt, mkFileSystem (files fs) (list_to_set (prefixes p) ∪ dirs fs) (fs_faults fs))
  end.

(** [OpenOptions::new().write(true).create_new(true).mode(0o600).open(path)]: an
    empty file, if there is none of that name. *)
Definition open_secret_file (p : Path) (fs : FileSystem) : result unit io_error * FileSystem :=
  match next_fs_fault fs with
  | (Some (e, _), fs) => (Err e, fs)
  | (None, fs) =>
      if bool_decide (is_Some (files fs !! p)) || is_dir p fs then (Err AlreadyExists, fs)
      else if negb (from_option (λ q, is_dir q fs) false (parent p)) then (Err NotFound, fs)
      else (Ok tt, mkFileSystem (<[p := []]> (files fs)) (dirs fs) (fs_faults fs))
  end.

(** [file.write_all(bytes)] on the file just created. *)
Definition fs_write_all (p : Path) (b : bytes) (fs : FileSystem) : result unit io_error * FileSystem :=
  match next_fs_fault fs with
  | (Some (e, n), fs) => (Err e, mkFileSystem (<[p := take n b]> (files fs)) (dirs fs) (fs_faults fs))
  | (None, fs) => (Ok tt, mkFileSystem (<[p := b]> (files fs)) (dirs fs) (fs_faults fs))
  end.

Definition write_secret_file (p : Path) (sk_bytes : bytes) (fs : FileSystem) : result unit io_error * FileSystem :=
  and_then (open_secret_file p fs) (λ _ fs, fs_write_all p sk_bytes fs).

(** [parse] fails with an error that only ends up in the message. *)
Definition get_secret {K} (file : Path) (parse : bytes → option K) (generated : K) (serialize : K → bytes)
    (fs : FileSystem) : result K io_error * FileSystem :=
  let '(r, fs) := and_then (fs_read file fs) (λ sk_bytes fs,
    match parse sk_bytes with
    | Some k => (Ok k, fs)
    | None => (Err InvalidData, fs)
    end) in
  match r with
  | Ok k => (Ok k, fs)
  | Err NotFound =>
      and_then (match parent file with Some dir => create_dir_all dir fs | None => (Ok tt, fs) end) (λ _ fs,
      and_then (write_secret_file file (serialize generated) fs) (λ _ fs,
        (Ok generated, fs)))
  | Err e => (Err e, fs)
  end.

Inductive Secret (K : Type) := Input (k : K) | File (path : Path) | New.
Arguments Input {K} k.
Arguments File {K} path.
Arguments New {K}.
End Config.

(** [ed25519], [array_bytes::hex2bytes] and [String::from_utf8]. *)
Class NodeKeys (SecretKey Keypair : Type) := {
  sk_from_bytes : bytes → option SecretKey;
  sk_as_ref : SecretKey → bytes;
  keypair_of : SecretKey → Keypair;
  hex2bytes : string → option bytes;
  from_utf8 : bytes → option string;
}.

Class NodeKeysLaws (SecretKey Keypair : Type) `{NodeKeys SecretKey Keypair} := {
  (** A secret key is 32 bytes, and they determine it. *)
  sk_roundtrip k : sk_from_bytes (sk_as_ref k) = Some k;
  sk_length k : length (sk_as_ref k) = 32%nat;
  (** The length of a string is that of its UTF-8 encoding. *)
  from_utf8_length b s : from_utf8 b = Some s → String.length s = length b;
}.

Module NodeKey.
Import Config.
Section keys.
Context {SecretKey Keypair : Type} `{NodeKeys SecretKey Keypair}.

(** [ProtocolId]: the bytes of a string. *)
Definition ProtocolId := bytes.
Definition ProtocolId_from (s : string) : ProtocolId := String.list_byte_of_string s.
Definition ProtocolId_as_ref (id : ProtocolId) : outcome string := expect (from_utf8 id).

(** [NodeKeyConfig::Ed25519]. *)
Abbreviation NodeKeyConfig := (Secret SecretKey).
Definition NodeKeyConfig_default : NodeKeyConfig := New.

(** The contents of the file: 64 hexadecimal digits, or the raw bytes. *)
Definition parse_key (b : bytes) : option SecretKey :=
  match (s ← from_utf8 b; if decide (String.length s = 64%nat) then hex2bytes s else None) with
  | Some s => sk_from_bytes s
  | None => sk_from_bytes b
  end.

(** [into_keypair]; [generated] is the key [SecretKey::generate] would give. *)
Definition into_keypair (c : NodeKeyConfig) (generated : SecretKey) (fs : FileSystem) :
    result Keypair io_error * FileSystem :=
  match c with
  | New => (Ok (keypair_of generated), fs)
  | Input k => (Ok (keypair_of k), fs)
  | File f =>
      match get_secret f parse_key generated sk_as_ref fs with
      | (Ok k, fs) => (Ok (keypair_of k), fs)
      | (Err e, fs) => (Err e, fs)
      end
  end.
End keys.
End NodeKey.

(** ** [config.rs]: the configuration of the whole network *)
Module Network.
Import Config NodeKey.
Section network.
Context {PeerId Multihash MA SecretKey : Type} `{Multiaddr PeerId Multihash MA}.

Record NetworkConfiguration := mkNetworkConfiguration {
  net_config_path : option Path;
  listen_addresses : list MA;
  public_addresses : list MA;
  boot_nodes : list (MultiaddrWithPeerId PeerId MA);
  node_key : Secret SecretKey;
  request_response_protocols : list RequestResponses.ProtocolConfig;
  default_peers_set : SetConfig PeerId MA;
  default_peers_set_num_full : Z;
  extra_sets : list (NonDefaultSetConfig PeerId MA);
  client_version : string;
  node_name : string;
  transport : TransportConfig;
  max_parallel_downloads : Z;
  sync_mode : SyncMode;
  enable_dht_random_walk : bool;
  allow_non_globals_in_dht : bool;
  kademlia_disjoint_query_paths : bool;
  ipfs_server : bool;
  yamux_window_size : option Z;
}.

Definition NetworkConfiguration_new (name version : string) (key : Secret SecretKey) (path : option Path) :
    outcome NetworkConfiguration :=
  let set := SetConfig_default in
  full ← u32_add (sc_in_peers set) (sc_out_peers set);
  mret {|
    net_config_path := path; listen_addresses := []; public_addresses := []; boot_nodes := [];
    node_key := key; request_response_protocols := []; default_peers_set := set;
    default_peers_set_num_full := full; extra_sets := []; client_version := version; node_name := name;
    transport := Normal false true; max_parallel_downloads := 5; sync_mode := SyncFull;
    enable_dht_random_walk := true; allow_non_globals_in_dht := false;
    kademlia_disjoint_query_paths := false; ipfs_server := false; yamux_window_size := None |}.

(** [config.listen_addresses = ..; config.allow_non_globals_in_dht = ..]. *)
Definition with_listen (addrs : list MA) (non_globals : bool) (c : NetworkConfiguration) : NetworkConfiguration :=
  {| net_config_path := net_config_path c; listen_addresses := addrs; public_addresses := public_addresses c;
     boot_nodes := boot_nodes c; node_key := node_key c;
     request_response_protocols := request_response_protocols c; default_peers_set := default_peers_set c;
     default_peers_set_num_full := default_peers_set_num_full c; extra_sets := extra_sets c;
     client_version := client_version c; node_name := node_name c; transport := transport c;
     max_parallel_downloads := max_parallel_downloads c; sync_mode := sync_mode c;
     enable_dht_random_walk := enable_dht_random_walk c; allow_non_globals_in_dht := non_globals;
     kademlia_disjoint_query_paths := kademlia_disjoint_query_paths c; ipfs_server := ipfs_server c;
     yamux_window_size := yamux_window_size c |}.

Definition with_key (key_config : Secret SecretKey) : outcome NetworkConfiguration :=
  c ← NetworkConfiguration_new "test-node" "test-client" key_config None;
  mret (with_listen [ma_collect [Ip4 127 0 0 1; Tcp 0]] true c).

Definition new_local : outcome NetworkConfiguration :=
  c ← NetworkConfiguration_new "test-node" "test-client" NodeKeyConfig_default None;
  mret (with_listen [ma_collect [Ip4 127 0 0 1; Tcp 0]] true c).

(** The same: no memory transport is asked for. *)
Definition new_memory : outcome NetworkConfiguration :=
  c ← NetworkConfiguration_new "test-node" "test-client" NodeKeyConfig_default None;
  mret (with_listen [ma_collect [Ip4 127 0 0 1; Tcp 0]] true c).

(** What upstream passes to the network; nothing here uses it. [Exec] spawns
    tasks, [Client] is the chain. *)
Record Params (Exec Client : Type) := mkParams {
  pa_role : Roles.Role;
  pa_executor : Exec;
  pa_network_config : NetworkConfiguration;
  pa_chain : Client;
  pa_protocol_id : ProtocolId;
  pa_fork_id : option string;
  pa_block_announce_config : NonDefaultSetConfig PeerId MA;
  pa_request_response_protocol_configs : list RequestResponses.ProtocolConfig;
}.

(** The protocols a node adds to its configuration. *)
Definition add_protocols (requests : list RequestResponses.ProtocolConfig)
    (sets : list (NonDefaultSetConfig PeerId MA)) (c : NetworkConfiguration) : NetworkConfiguration :=
  {| net_config_path := net_config_path c; listen_addresses := listen_addresses c;
     public_addresses := public_addresses c; boot_nodes := boot_nodes c; node_key := node_key c;
     request_response_protocols := request_response_protocols c ++ requests;
     default_peers_set := default_peers_set c;
     default_peers_set_num_full := default_peers_set_num_full c; extra_sets := extra_sets c ++ sets;
     client_version := client_version c; node_name := node_name c; transport := transport c;
     max_parallel_downloads := max_parallel_downloads c; sync_mode := sync_mode c;
     enable_dht_random_walk := enable_dht_random_walk c;
     allow_non_globals_in_dht := allow_non_globals_in_dht c;
     kademlia_disjoint_query_paths := kademlia_disjoint_query_paths c; ipfs_server := ipfs_server c;
     yamux_window_size := yamux_window_size c |}.
End network.

Arguments NetworkConfiguration : clear implicits.
End Network.
