(* ===== verification/ConfigTheorems.v ===== *)
(** * Configuration of the network: theorems

    The textual form of an address with a peer identity, and the key of the
    node in its file, whatever the file system does. *)

From Stdlib Require Import Ascii.
From S2P Require Import Prelude Wire Notifications RequestResponses Config.
Import Config NodeKey.

(** ** Addresses *)

Section addresses.
Context `{MultiaddrLaws PeerId Multihash MA}.

(** Why a text is refused, by how it parses as a multiaddress. *)
Definition refused (parsed : result MA string) (e : ParseErr) : Prop :=
  match e, parsed with
  | MultiaddrParse e, Err e' => e = e'
  | InvalidPeerId, Ok addr => ∃ key, (ma_pop addr).1 = Some (P2p key) ∧ from_multihash key = None
  | PeerIdMissing, Ok addr => ∀ key, (ma_pop addr).1 ≠ Some (P2p key)
  | _, _ => False
  end.

Lemma parse_addr_refused (addr : MA) e : parse_addr addr = Err e ↔ refused (Ok addr) e.
Proof.
  unfold parse_addr, refused. destruct (ma_pop addr) as [[[]|] rest]; simpl; try by destruct e; naive_solver.
  destruct (from_multihash key) as [who|] eqn:Ek; destruct e; naive_solver.
Qed.

Lemma parse_addr_ok (addr rest : MA) who : parse_addr addr = Ok (who, rest) ↔ addr = ma_with rest (P2p (to_multihash who)).
Proof.
  unfold parse_addr. split.
  - destruct (ma_pop addr) as [[[]|] rest'] eqn:E; try done.
    destruct (from_multihash key) as [who'|] eqn:Ek; [|done]. intros [= -> ->].
    rewrite (peer_multihash _ _ Ek). symmetry. by apply with_pop.
  - intros ->. by rewrite pop_with, multihash_peer.
Qed.
End addresses.

(** C18: An address with a peer identity survives its textual form, and reading
    one accepts exactly the texts of addresses that end in a valid peer
    identity; every other text is refused, with the error that says why. *)
Theorem address_roundtrip `{MultiaddrLaws PeerId Multihash MA} :
  (∀ m : MultiaddrWithPeerId PeerId MA, from_str (to_string m) = Ok m) ∧
  (∀ (s : string) (m : MultiaddrWithPeerId PeerId MA), from_str s = Ok m ↔ ma_parse s = Ok (concat m)) ∧
  (∀ (s : string) (e : ParseErr), from_str s = Err e ↔ refused (ma_parse s) e).
Proof.
  assert (∀ s (m : MultiaddrWithPeerId PeerId MA), from_str s = Ok m ↔ ma_parse s = Ok (concat m)) as Hok.
  { intros s [a p]. unfold from_str, parse_str_addr, concat. simpl. destruct (ma_parse s) as [addr|]; [|done].
    pose proof (parse_addr_ok addr a p) as Hp. destruct (parse_addr addr) as [[who rest]|]; naive_solver. }
  split_and!; [|done|].
  - intros m. apply Hok, parse_display.
  - intros s e. unfold from_str, parse_str_addr. destruct (ma_parse s) as [addr|e']; [|destruct e; naive_solver].
    rewrite <- parse_addr_refused. destruct (parse_addr addr) as [[]|]; naive_solver.
Qed.

(** ** The key of the node *)

Section keys.
Context `{NodeKeysLaws SecretKey Keypair}.

(** What is written is read back. *)
Lemma parse_written (k : SecretKey) : parse_key (sk_as_ref k) = Some k.
Proof.
  unfold parse_key. destruct (from_utf8 (sk_as_ref k)) as [s|] eqn:E; simpl; [|apply sk_roundtrip].
  rewrite decide_False; [apply sk_roundtrip|]. rewrite (from_utf8_length _ _ E), sk_length. lia.
Qed.

(** What every operation keeps. *)
Lemma and_then_keeps {A B E} (P : FileSystem → Prop) (r : result A E * FileSystem)
    (k : A → FileSystem → result B E * FileSystem) :
  P r.2 → (∀ a fs, P fs → P (k a fs).2) → P (and_then r k).2.
Proof. destruct r as [[a|e] fs]; simpl; auto. Qed.

(** An operation touches no file that is there. *)
Lemma keeps_file q b fs : files fs !! q = Some b → files (next_fs_fault fs).2 !! q = Some b.
Proof. unfold next_fs_fault. by destruct (fs_faults fs). Qed.

Lemma fs_read_keeps p fs q b : files fs !! q = Some b → files (fs_read p fs).2 !! q = Some b.
Proof.
  intros Hq. unfold fs_read. apply keeps_file in Hq. destruct (next_fs_fault fs) as [[[e n]|] fs1]; [done|].
  destruct (files fs1 !! p); [done|]. by destruct (is_dir p fs1).
Qed.

Lemma create_dir_all_keeps p fs q b : files fs !! q = Some b → files (create_dir_all p fs).2 !! q = Some b.
Proof.
  intros Hq. unfold create_dir_all. apply keeps_file in Hq. destruct (next_fs_fault fs) as [[[e n]|] fs1]; [done|].
  by destruct (existsb _ _).
Qed.

Lemma write_secret_file_keeps p sk fs q b :
  files fs !! q = Some b → files (write_secret_file p sk fs).2 !! q = Some b.
Proof.
  intros Hq%keeps_file. unfold write_secret_file, open_secret_file.
  destruct (next_fs_fault fs) as [[[e n]|] fs1]; simpl in *; [done|].
  destruct (bool_decide (is_Some (files fs1 !! p)) || is_dir p fs1) eqn:E; simpl; [done|].
  destruct (negb _); simpl; [done|]. apply orb_false_iff in E as [E%bool_decide_eq_false _].
  assert (q ≠ p) as Hne by (intros ->; apply E; eauto). unfold fs_write_all.
  set (fs2 := mkFileSystem _ _ _). assert (files fs2 !! q = Some b) as Hq2%keeps_file by (simpl; by rewrite lookup_insert_ne).
  destruct (next_fs_fault fs2) as [[[e n]|] fs3]; simpl in *; by rewrite lookup_insert_ne.
Qed.

Lemma get_secret_keeps {K} f parse (g : K) ser fs q b :
  files fs !! q = Some b → files (get_secret f parse g ser fs).2 !! q = Some b.
Proof.
  set (P := λ fs, files fs !! q = Some b). change (P fs → P (get_secret f parse g ser fs).2). intros Hq.
  unfold get_secret. set (r := and_then (fs_read f fs) _). assert (P r.2) as Hr.
  { apply and_then_keeps; [by apply fs_read_keeps|]. intros sk fs1 H1. by destruct (parse sk). }
  destruct r as [[k|e] fs1]; [done|]. simpl in Hr. destruct e; try done.
  apply and_then_keeps; [destruct (parent f); [by apply create_dir_all_keeps|done]|]. intros _ fs2 H2.
  apply and_then_keeps; [by apply write_secret_file_keeps|done].
Qed.

Lemma into_keypair_keeps c g fs q b :
  files fs !! q = Some b → files (into_keypair (Keypair := Keypair) c g fs).2 !! q = Some b.
Proof.
  intros Hq. destruct c as [k|f|]; simpl; [done| |done]. apply (get_secret_keeps f parse_key g sk_as_ref) in Hq.
  by destruct (get_secret f parse_key g sk_as_ref fs) as [[k|e] fs'].
Qed.

(** A file in a place where one can be made. *)
Definition creatable (f : Path) (fs : FileSystem) : Prop :=
  f ≠ [] ∧ f ∉ dirs fs ∧ ∀ q, q ∈ prefixes f → files fs !! q = None.

Lemma prefixes_removelast f q : q ∈ prefixes (removelast f) → q ∈ prefixes f.
Proof.
  unfold prefixes. rewrite !list_elem_of_fmap. intros (n & -> & Hn%elem_of_seq). exists n.
  rewrite removelast_firstn_len, length_firstn in *. split; [|apply elem_of_seq; lia].
  rewrite firstn_firstn. f_equal. lia.
Qed.

Lemma prefixes_last f : f ≠ [] → f ∈ prefixes f.
Proof.
  intros Hf. unfold prefixes. apply list_elem_of_fmap. exists (length f). rewrite firstn_all. split; [done|].
  apply elem_of_seq. destruct f; [done|simpl; lia].
Qed.

Lemma first_start f g fs :
  creatable f fs → fs_faults fs = [] →
  ∃ fs', into_keypair (Keypair := Keypair) (File f) g fs = (Ok (keypair_of g), fs') ∧
    files fs' = <[f := sk_as_ref g]> (files fs) ∧ fs_faults fs' = [].
Proof.
  intros (Hne & Hd & Hfree) Hff. pose proof (Hfree f (prefixes_last f Hne)) as Hf.
  unfold into_keypair, get_secret, fs_read, next_fs_fault. rewrite Hff, Hf.
  unfold is_dir at 1. rewrite bool_decide_eq_false_2 by (by intros [|]). simpl.
  assert (parent f = Some (removelast f)) as -> by (by destruct f).
  unfold create_dir_all, next_fs_fault. rewrite Hff.
  destruct (existsb _ (prefixes (removelast f))) eqn:E.
  { apply existsb_exists in E as (q & Hq & E%bool_decide_eq_true). apply list_elem_of_In, prefixes_removelast, Hfree in Hq.
    rewrite Hq in E. by destruct E. }
  cbn [and_then]. unfold write_secret_file, open_secret_file, next_fs_fault. cbn [fs_faults]. rewrite Hff. cbn [files dirs fs_faults]. rewrite Hf.
  rewrite bool_decide_eq_false_2 by (by intros []). unfold is_dir at 1. cbn [dirs].
  rewrite bool_decide_eq_false_2; cycle 1.
  { intros [|Hin]; [done|]. apply elem_of_union in Hin as [Hin|]; [|done]. apply elem_of_list_to_set in Hin.
    unfold prefixes in Hin. apply list_elem_of_fmap in Hin as (n & Hn & Hin%elem_of_seq).
    assert (length f = length (take n (removelast f))) as Hl by (by rewrite <- Hn).
    rewrite length_take, removelast_firstn_len, length_firstn in Hl. destruct f; simpl in *; [done|lia]. }
  cbn [orb]. assert (parent f = Some (removelast f)) as -> by (by destruct f). cbn [from_option].
  unfold is_dir. cbn [dirs]. rewrite bool_decide_eq_true_2; cycle 1.
  { destruct (removelast f) as [|x r] eqn:El; [by left|right]. apply elem_of_union_l, elem_of_list_to_set.
    by apply prefixes_last. }
  cbn [negb and_then]. unfold fs_write_all, next_fs_fault. cbn [fs_faults files]. eexists. split; [done|]. simpl.
  by rewrite insert_insert_eq.
Qed.

Lemma later_start f g b fs :
  fs_faults fs = [] → files fs !! f = Some b →
  into_keypair (Keypair := Keypair) (File f) g fs =
    (match parse_key b with Some k => Ok (keypair_of k) | None => Err InvalidData end, fs).
Proof.
  intros Hff Hf. unfold into_keypair, get_secret, fs_read, next_fs_fault. rewrite Hff, Hf. simpl.
  by destruct (parse_key b).
Qed.
End keys.

(** C19: The identity of a node is stable. The first start with a key file that
    does not exist creates it, and every later start, whatever key would have
    been generated then, gives the same identity and leaves the file alone. A
    file with an unusable content is refused, not replaced; and whatever goes
    wrong in the file system, no start changes or removes a file that is
    there. *)
Theorem node_key_persistent `{NodeKeysLaws SecretKey Keypair} (f : Path) (fs : FileSystem)
    (Hplace : creatable f fs) (Hfaults : fs_faults fs = []) (generated : SecretKey) :
  (∃ fs1, into_keypair (File f) generated fs = (Ok (keypair_of (Keypair := Keypair) generated), fs1) ∧
     ∀ other, into_keypair (File f) other fs1 = (Ok (keypair_of generated), fs1)) ∧
  (∀ b other fs1, fs_faults fs1 = [] → files fs1 !! f = Some b → parse_key b = None →
     into_keypair (Keypair := Keypair) (File f) other fs1 = (Err InvalidData, fs1)) ∧
  (∀ c other fs1 q b, files fs1 !! q = Some b →
     files (into_keypair (Keypair := Keypair) c other fs1).2 !! q = Some b).
Proof.
  split_and!.
  - destruct (first_start f generated fs Hplace Hfaults) as (fs1 & E & Hf & Hff). exists fs1. split; [done|].
    intros other. rewrite (later_start f other (sk_as_ref generated) fs1) by (rewrite ?Hf, ?lookup_insert_eq; done).
    by rewrite parse_written.
  - intros b other fs1 Hff Hf Hp. by rewrite (later_start f other b fs1), Hp.
  - intros c other fs1 q b. apply into_keypair_keeps.
Qed.

(** ** Examples *)

(** Binary numerals. *)
Fixpoint pos_text (p : positive) : string :=
  match p with xH => EmptyString | xO p => String "0"%char (pos_text p) | xI p => String "1"%char (pos_text p) end.
Fixpoint text_pos (s : string) : option positive :=
  match s with
  | EmptyString => Some xH
  | String c s => p ← text_pos s;
      if decide (c = "0"%char) then Some (xO p) else if decide (c = "1"%char) then Some (xI p) else None
  end.

Lemma text_pos_text p : text_pos (pos_text p) = Some p.
Proof. induction p as [p IH|p IH|]; simpl; [by rewrite IH..|done]. Qed.

(** Addresses as lists of components, written as the number that encodes them;
    a multihash is a string, and one that is not empty identifies a peer. *)
#[local] Instance Component_eq_dec : EqDecision (Component string).
Proof. solve_decision. Defined.
#[local] Instance Component_countable : Countable (Component string).
Proof.
  refine (inj_countable'
    (λ c, match c with Ip4 a b c d => inl (a, b, c, d) | Tcp n => inr (inl n) | P2p k => inr (inr (inl k))
          | Ip6 a => inr (inr (inr (inl a))) | Dns r => inr (inr (inr (inr (inl r))))
          | Dns4 r => inr (inr (inr (inr (inr (inl r))))) | Dns6 r => inr (inr (inr (inr (inr (inr (inl r))))))
          | OtherComponent r => inr (inr (inr (inr (inr (inr (inr r)))))) end)
    (λ x, match x with inl (a, b, c, d) => Ip4 a b c d | inr (inl n) => Tcp n | inr (inr (inl k)) => P2p k
          | inr (inr (inr (inl a))) => Ip6 a | inr (inr (inr (inr (inl r)))) => Dns r
          | inr (inr (inr (inr (inr (inl r))))) => Dns4 r | inr (inr (inr (inr (inr (inr (inl r)))))) => Dns6 r
          | inr (inr (inr (inr (inr (inr (inr r)))))) => OtherComponent r end) _).
  by intros [].
Defined.

#[local] Instance simple_addr : Multiaddr (Ascii.ascii * string) string (list (Component string)) := {|
  ma_parse s := match text_pos s ≫= decode with Some a => Ok a | None => Err "invalid multiaddress"%string end;
  ma_display a := pos_text (encode a);
  ma_collect l := l;
  ma_pop a := (last a, removelast a);
  ma_with a c := a ++ [c];
  ma_is_empty a := bool_decide (a = []);
  from_multihash k := match k with EmptyString => None | String c s => Some (c, s) end;
  to_multihash p := String p.1 p.2;
|}.

#[local] Instance simple_addr_laws : MultiaddrLaws (Ascii.ascii * string) string (list (Component string)).
Proof.
  split; simpl.
  - intros a. rewrite text_pos_text. simpl. by rewrite decode_encode.
  - intros a c. by rewrite last_snoc, removelast_last.
  - intros a a' c [= Hl <-]. apply last_Some in Hl as [l ->]. by rewrite removelast_last.
  - by intros [].
  - by intros [] [] [= -> ->].
Qed.

Lemma address_roundtrip_witness :
  from_str (to_string (mkMultiaddrWithPeerId [Ip4 127 0 0 1; Tcp 30333] ("Q"%char, "m"%string))) =
    Ok (mkMultiaddrWithPeerId [Ip4 127 0 0 1; Tcp 30333] ("Q"%char, "m"%string)) ∧
  from_str (PeerId := Ascii.ascii * string) (ma_display [Tcp 30333]) = Err PeerIdMissing.
Proof.
  destruct (address_roundtrip (PeerId := Ascii.ascii * string) (Multihash := string) (MA := list (Component string)))
    as (Hrt & _ & Herr).
  split; [apply Hrt|]. apply Herr. rewrite parse_display. by intros key.
Defined.

(** Secret keys of 32 equal bytes, no hexadecimal files. *)
Definition byte_text (b : bytes) : string := foldr (λ b s, String (Ascii.ascii_of_byte b) s) EmptyString b.

#[local] Instance simple_keys : NodeKeys Byte.byte Byte.byte := {|
  sk_from_bytes b := match b with x :: _ => if decide (b = replicate 32 x) then Some x else None | [] => None end;
  sk_as_ref k := replicate 32 k;
  keypair_of k := k;
  hex2bytes _ := None;
  from_utf8 b := Some (byte_text b);
|}.

#[local] Instance simple_keys_laws : NodeKeysLaws Byte.byte Byte.byte.
Proof.
  split; simpl; [|done|].
  - intros k. by rewrite decide_True.
  - intros b s [= <-]. induction b as [|x b IH]; simpl; [done|]. by rewrite IH.
Qed.

Lemma node_key_persistent_witness :
  let fs := mkFileSystem ∅ ∅ [] in
  (into_keypair (File ["net"; "key"]%string) Byte.x2a fs).1 = Ok Byte.x2a ∧
  (into_keypair (File ["net"; "key"]%string) Byte.x2b
     (into_keypair (File ["net"; "key"]%string) Byte.x2a fs).2).1 = Ok Byte.x2a.
Proof.
  intros fs. destruct (node_key_persistent ["net"; "key"]%string fs ltac:(done) eq_refl Byte.x2a)
    as ((fs1 & E & Hlater) & _ & _).
  rewrite E. cbn [fst snd]. split; [done|]. by rewrite Hlater.
Defined.
