(* ===== verification/SyncMessages.v ===== *)
(** * Messages of the substrate protocols

    Models of [network/common/sync/message.rs] and [network/protocol/message.rs]:
    the messages and their SCALE codecs. Most codecs are derived; those of
    [BlockAttributes], [BlockAnnounce] and the decoder of [Status] are written
    out in the source, the latter two to stay compatible with older versions.

    Headers, hashes, numbers, extrinsics, storage proofs, consensus engines and
    justifications are types of other crates, with their codecs as parameters.
    So is the numbering of the variants of an enum by the derived codecs, which
    matters for [Message], where some variants carry an explicit number. *)

From S2P Require Import Prelude PeersState Peerset Notifications Wire Scale RequestResponses Config.

#[local] Notation "c1 ⊗ c2" := (pair_codec c1 c2) (at level 60, right associativity).

(** ** Block attributes *)
Module BlockAttributes.
(** [bitflags! { pub struct BlockAttributes: u8 }]. *)
Definition BlockAttributes := Z.
Definition HEADER : BlockAttributes := 1.
Definition BODY : BlockAttributes := 2.
Definition RECEIPT : BlockAttributes := 4.
Definition MESSAGE_QUEUE : BlockAttributes := 8.
Definition JUSTIFICATION : BlockAttributes := 16.
Definition INDEXED_BODY : BlockAttributes := 32.
Definition all : Z :=
  Z.lor HEADER (Z.lor BODY (Z.lor RECEIPT (Z.lor MESSAGE_QUEUE (Z.lor JUSTIFICATION INDEXED_BODY)))).
Definition from_bits (bits : Z) : option BlockAttributes :=
  if Z.land bits (Z.lnot all) =? 0 then Some bits else None.

(** [u32::from_be_bytes([bits, 0, 0, 0])] and [to_be_bytes()[0]]. *)
Definition to_be_u32 (a : BlockAttributes) : Z := Z.shiftl a 24.
Definition from_be_u32 (encoded : Z) : result BlockAttributes string :=
  match from_bits (Z.shiftr encoded 24) with
  | Some a => Ok a
  | None => Err "Invalid BlockAttributes"%string
  end.

(** [Encode] and [Decode]. *)
Definition codec : Codec BlockAttributes := {|
  enc a := [byte_of a];
  dec b := match b with [] => (None, []) | x :: b => (from_bits (byte_val x), b) end;
|}.

Definition valid (a : BlockAttributes) : Prop := 0 ≤ a ≤ all.
End BlockAttributes.

Module SyncMessages.

Inductive Direction := Ascending | Descending.
Inductive BlockState := Normal | Best.

Definition direction_codec : Codec Direction := {|
  enc d := [byte_of match d with Ascending => 0 | Descending => 1 end];
  dec := dec_enum (λ i b, if i =? 0 then (Some Ascending, b) else if i =? 1 then (Some Descending, b) else (None, b));
|}.
Definition state_codec : Codec BlockState := {|
  enc s := [byte_of match s with Normal => 0 | Best => 1 end];
  dec := dec_enum (λ i b, if i =? 0 then (Some Normal, b) else if i =? 1 then (Some Best, b) else (None, b));
|}.
(** [Roles] of [role.rs]. *)
Definition roles_codec : Codec Roles.Roles := {|
  enc := Roles.encode;
  dec b := match b with [] => (None, []) | x :: b => (Roles.from_bits (byte_val x), b) end;
|}.

Section messages.
Context `{Scale} {Header Hash Number Extrinsic Proof Justifications : Type}.
Context (header : Codec Header) (hash : Codec Hash) (number : Codec Number) (extrinsic : Codec Extrinsic).
Context (storage_proof : Codec Proof) (justifications_codec : Codec Justifications).

(** ** [common/sync/message.rs] *)
Record BlockData := mkBlockData {
  bd_hash : Hash;
  bd_header : option Header;
  bd_body : option (list Extrinsic);
  bd_indexed_body : option (list bytes);
  bd_receipt : option bytes;
  bd_message_queue : option bytes;
  bd_justification : option bytes;
  bd_justifications : option Justifications;
}.
Definition block_data_codec : Codec BlockData :=
  map_codec (λ d, (bd_hash d, (bd_header d, (bd_body d, (bd_indexed_body d, (bd_receipt d, (bd_message_queue d,
      (bd_justification d, bd_justifications d))))))))
    (λ '(h, (hd, (bo, (ib, (re, (mq, (j, js))))))), mkBlockData h hd bo ib re mq j js)
    (hash ⊗ option_codec header ⊗ option_codec (vec_codec extrinsic) ⊗ option_codec (vec_codec bytes_codec) ⊗
     option_codec bytes_codec ⊗ option_codec bytes_codec ⊗ option_codec bytes_codec ⊗
     option_codec justifications_codec).

Inductive FromBlock := FromHash (h : Hash) | FromNumber (n : Number).
Definition from_block_codec : Codec FromBlock := {|
  enc f := match f with FromHash h => enc_variant 0 hash h | FromNumber n => enc_variant 1 number n end;
  dec := dec_enum (λ i b, if i =? 0 then dec_variant hash FromHash b
                          else if i =? 1 then dec_variant number FromNumber b else (None, b));
|}.

Record BlockRequest := mkBlockRequest {
  bq_id : Z;
  bq_fields : BlockAttributes.BlockAttributes;
  bq_from : FromBlock;
  bq_direction : Direction;
  bq_max : option Z;
}.
Definition block_request_codec : Codec BlockRequest :=
  map_codec (λ r, (bq_id r, (bq_fields r, (bq_from r, (bq_direction r, bq_max r)))))
    (λ '(i, (f, (fr, (d, m)))), mkBlockRequest i f fr d m)
    (u64_codec ⊗ BlockAttributes.codec ⊗ from_block_codec ⊗ direction_codec ⊗ option_codec u32_codec).

Record BlockResponse := mkBlockResponse { bs_id : Z; bs_blocks : list BlockData }.
Definition block_response_codec : Codec BlockResponse :=
  map_codec (λ r, (bs_id r, bs_blocks r)) (λ '(i, l), mkBlockResponse i l) (u64_codec ⊗ vec_codec block_data_codec).

Record BlockAnnounce := mkBlockAnnounce {
  ba_header : Header;
  ba_state : option BlockState;
  ba_data : option bytes;
}.
Definition block_announce_codec : Codec BlockAnnounce := {|
  enc a := enc header (ba_header a) ++
    (match ba_state a with Some state => enc state_codec state | None => [] end) ++
    (match ba_data a with Some data => enc bytes_codec data | None => [] end);
  dec b :=
    match dec header b with
    | (None, b) => (None, b)
    | (Some h, b) =>
        let '(state, b) := dec state_codec b in
        let '(data, b) := dec bytes_codec b in
        (Some (mkBlockAnnounce h state data), b)
    end;
|}.

(** The methods of the trait [Header] are parameters. *)
Record AnnouncementSummary := mkAnnouncementSummary {
  as_block_hash : Hash;
  as_number : Number;
  as_parent_hash : Hash;
  as_state : option BlockState;
}.
Definition summary (header_hash : Header → Hash) (header_number : Header → Number) (parent_hash : Header → Hash)
    (a : BlockAnnounce) : AnnouncementSummary :=
  mkAnnouncementSummary (header_hash (ba_header a)) (header_number (ba_header a)) (parent_hash (ba_header a)) (ba_state a).

Record BlockAnnouncesHandshake := mkHandshake {
  hs_roles : Roles.Roles;
  hs_best_number : Number;
  hs_best_hash : Hash;
  hs_genesis_hash : Hash;
}.
Definition handshake_build (roles : Roles.Roles) (best_number : Number) (best_hash genesis_hash : Hash) :
    BlockAnnouncesHandshake := mkHandshake roles best_number best_hash genesis_hash.
Definition handshake_codec : Codec BlockAnnouncesHandshake :=
  map_codec (λ h, (hs_roles h, (hs_best_number h, (hs_best_hash h, hs_genesis_hash h))))
    (λ '(r, (n, (b, g))), mkHandshake r n b g) (roles_codec ⊗ number ⊗ hash ⊗ hash).

(** ** [protocol/message.rs] *)
Record RemoteCallResponse := mkRemoteCallResponse { cr_id : Z; cr_proof : Proof }.
Definition remote_call_response_codec : Codec RemoteCallResponse :=
  map_codec (λ r, (cr_id r, cr_proof r)) (λ '(i, p), mkRemoteCallResponse i p) (u64_codec ⊗ storage_proof).

Record RemoteReadResponse := mkRemoteReadResponse { rr_id : Z; rr_proof : Proof }.
Definition remote_read_response_codec : Codec RemoteReadResponse :=
  map_codec (λ r, (rr_id r, rr_proof r)) (λ '(i, p), mkRemoteReadResponse i p) (u64_codec ⊗ storage_proof).

Record CompactStatus := mkCompactStatus {
  cs_version : Z;
  cs_min_supported_version : Z;
  cs_roles : Roles.Roles;
  cs_best_number : Number;
  cs_best_hash : Hash;
  cs_genesis_hash : Hash;
}.
Definition compact_status_codec : Codec CompactStatus :=
  map_codec (λ s, (cs_version s, (cs_min_supported_version s, (cs_roles s, (cs_best_number s, (cs_best_hash s,
      cs_genesis_hash s))))))
    (λ '(v, (m, (r, (n, (b, g))))), mkCompactStatus v m r n b g)
    (u32_codec ⊗ u32_codec ⊗ roles_codec ⊗ number ⊗ hash ⊗ hash).

Record Status := mkStatus {
  st_version : Z;
  st_min_supported_version : Z;
  st_roles : Roles.Roles;
  st_best_number : Number;
  st_best_hash : Hash;
  st_genesis_hash : Hash;
  st_chain_status : bytes;
}.
Definition LAST_CHAIN_STATUS_VERSION : Z := 5.

(** The derived [Encode] and the [Decode] that is written out. *)
Definition status_codec : Codec Status := {|
  enc s :=
    enc u32_codec (st_version s) ++ enc u32_codec (st_min_supported_version s) ++ enc roles_codec (st_roles s) ++
    enc number (st_best_number s) ++ enc hash (st_best_hash s) ++ enc hash (st_genesis_hash s) ++
    enc bytes_codec (st_chain_status s);
  dec b :=
    match dec compact_status_codec b with
    | (None, b) => (None, b)
    | (Some compact, b) =>
        let '(chain_status, b) := dec bytes_codec b in
        let chain_status := match chain_status with
                            | Some v => Some v
                            | None => if cs_version compact <=? LAST_CHAIN_STATUS_VERSION then None else Some []
                            end in
        ((λ chain_status, mkStatus (cs_version compact) (cs_min_supported_version compact) (cs_roles compact)
           (cs_best_number compact) (cs_best_hash compact) (cs_genesis_hash compact) chain_status) <$> chain_status, b)
    end;
|}.

Record RemoteCallRequest := mkRemoteCallRequest { cq_id : Z; cq_block : Hash; cq_method : string; cq_data : bytes }.
Definition remote_call_request_codec : Codec RemoteCallRequest :=
  map_codec (λ r, (cq_id r, (cq_block r, (cq_method r, cq_data r))))
    (λ '(i, (b, (m, d))), mkRemoteCallRequest i b m d) (u64_codec ⊗ hash ⊗ string_codec ⊗ bytes_codec).

Record RemoteReadRequest := mkRemoteReadRequest { rq_id : Z; rq_block : Hash; rq_keys : list bytes }.
Definition remote_read_request_codec : Codec RemoteReadRequest :=
  map_codec (λ r, (rq_id r, (rq_block r, rq_keys r))) (λ '(i, (b, k)), mkRemoteReadRequest i b k)
    (u64_codec ⊗ hash ⊗ vec_codec bytes_codec).

Record RemoteReadChildRequest := mkRemoteReadChildRequest {
  rc_id : Z; rc_block : Hash; rc_storage_key : bytes; rc_keys : list bytes;
}.
Definition remote_read_child_request_codec : Codec RemoteReadChildRequest :=
  map_codec (λ r, (rc_id r, (rc_block r, (rc_storage_key r, rc_keys r))))
    (λ '(i, (b, (s, k))), mkRemoteReadChildRequest i b s k)
    (u64_codec ⊗ hash ⊗ bytes_codec ⊗ vec_codec bytes_codec).

Record RemoteHeaderRequest := mkRemoteHeaderRequest { hq_id : Z; hq_block : Number }.
Definition remote_header_request_codec : Codec RemoteHeaderRequest :=
  map_codec (λ r, (hq_id r, hq_block r)) (λ '(i, b), mkRemoteHeaderRequest i b) (u64_codec ⊗ number).

Record RemoteHeaderResponse := mkRemoteHeaderResponse { hr_id : Z; hr_header : option Header; hr_proof : Proof }.
Definition remote_header_response_codec : Codec RemoteHeaderResponse :=
  map_codec (λ r, (hr_id r, (hr_header r, hr_proof r))) (λ '(i, (h, p)), mkRemoteHeaderResponse i h p)
    (u64_codec ⊗ option_codec header ⊗ storage_proof).

Record RemoteChangesRequest := mkRemoteChangesRequest {
  xq_id : Z;
  xq_first : Hash;
  xq_last : Hash;
  xq_min : Hash;
  xq_max : Hash;
  xq_storage_key : option bytes;
  xq_key : bytes;
}.
Definition remote_changes_request_codec : Codec RemoteChangesRequest :=
  map_codec (λ r, (xq_id r, (xq_first r, (xq_last r, (xq_min r, (xq_max r, (xq_storage_key r, xq_key r)))))))
    (λ '(i, (f, (l, (mi, (ma, (s, k)))))), mkRemoteChangesRequest i f l mi ma s k)
    (u64_codec ⊗ hash ⊗ hash ⊗ hash ⊗ hash ⊗ option_codec bytes_codec ⊗ bytes_codec).

Record RemoteChangesResponse := mkRemoteChangesResponse {
  xr_id : Z;
  xr_max : Number;
  xr_proof : list bytes;
  xr_roots : list (Number * Hash);
  xr_roots_proof : Proof;
}.
Definition remote_changes_response_codec : Codec RemoteChangesResponse :=
  map_codec (λ r, (xr_id r, (xr_max r, (xr_proof r, (xr_roots r, xr_roots_proof r)))))
    (λ '(i, (m, (p, (ro, rp)))), mkRemoteChangesResponse i m p ro rp)
    (u64_codec ⊗ number ⊗ vec_codec bytes_codec ⊗ vec_codec (number ⊗ hash) ⊗ storage_proof).

(** ** [Message] *)
Context {Engine : Type} (engine : Codec Engine).
(** The number the derived codecs give to a variant, from its position and the
    attribute [#[codec(index = ..)]]. *)
Context (variant_index : nat → option Z → Z).

Record ConsensusMessage := mkConsensusMessage { cm_protocol : Engine; cm_data : bytes }.
Definition consensus_message_codec : Codec ConsensusMessage :=
  map_codec (λ m, (cm_protocol m, cm_data m)) (λ '(p, d), mkConsensusMessage p d) (engine ⊗ bytes_codec).

Inductive Message :=
  | MStatus (m : Status)
  | MBlockRequest (m : BlockRequest)
  | MBlockResponse (m : BlockResponse)
  | MBlockAnnounce (m : BlockAnnounce)
  | MConsensus (m : ConsensusMessage)
  | MRemoteCallRequest (m : RemoteCallRequest)
  | MRemoteCallResponse (m : RemoteCallResponse)
  | MRemoteReadRequest (m : RemoteReadRequest)
  | MRemoteReadResponse (m : RemoteReadResponse)
  | MRemoteHeaderRequest (m : RemoteHeaderRequest)
  | MRemoteHeaderResponse (m : RemoteHeaderResponse)
  | MRemoteChangesRequest (m : RemoteChangesRequest)
  | MRemoteChangesResponse (m : RemoteChangesResponse)
  | MRemoteReadChildRequest (m : RemoteReadChildRequest)
  | MConsensusBatch (m : list ConsensusMessage).

Definition enc_message (m : Message) : bytes :=
  match m with
  | MStatus m => enc_variant (variant_index 0 None) status_codec m
  | MBlockRequest m => enc_variant (variant_index 1 None) block_request_codec m
  | MBlockResponse m => enc_variant (variant_index 2 None) block_response_codec m
  | MBlockAnnounce m => enc_variant (variant_index 3 None) block_announce_codec m
  | MConsensus m => enc_variant (variant_index 4 (Some 6)) consensus_message_codec m
  | MRemoteCallRequest m => enc_variant (variant_index 5 None) remote_call_request_codec m
  | MRemoteCallResponse m => enc_variant (variant_index 6 None) remote_call_response_codec m
  | MRemoteReadRequest m => enc_variant (variant_index 7 None) remote_read_request_codec m
  | MRemoteReadResponse m => enc_variant (variant_index 8 None) remote_read_response_codec m
  | MRemoteHeaderRequest m => enc_variant (variant_index 9 None) remote_header_request_codec m
  | MRemoteHeaderResponse m => enc_variant (variant_index 10 None) remote_header_response_codec m
  | MRemoteChangesRequest m => enc_variant (variant_index 11 None) remote_changes_request_codec m
  | MRemoteChangesResponse m => enc_variant (variant_index 12 None) remote_changes_response_codec m
  | MRemoteReadChildRequest m => enc_variant (variant_index 13 None) remote_read_child_request_codec m
  | MConsensusBatch m => enc_variant (variant_index 14 (Some 17)) (vec_codec consensus_message_codec) m
  end.

(** The variants are tried in the order of the enum. *)
Definition dec_message (i : Z) (b : bytes) : option Message * bytes :=
  if i =? variant_index 0 None then dec_variant status_codec MStatus b
  else if i =? variant_index 1 None then dec_variant block_request_codec MBlockRequest b
  else if i =? variant_index 2 None then dec_variant block_response_codec MBlockResponse b
  else if i =? variant_index 3 None then dec_variant block_announce_codec MBlockAnnounce b
  else if i =? variant_index 4 (Some 6) then dec_variant consensus_message_codec MConsensus b
  else if i =? variant_index 5 None then dec_variant remote_call_request_codec MRemoteCallRequest b
  else if i =? variant_index 6 None then dec_variant remote_call_response_codec MRemoteCallResponse b
  else if i =? variant_index 7 None then dec_variant remote_read_request_codec MRemoteReadRequest b
  else if i =? variant_index 8 None then dec_variant remote_read_response_codec MRemoteReadResponse b
  else if i =? variant_index 9 None then dec_variant remote_header_request_codec MRemoteHeaderRequest b
  else if i =? variant_index 10 None then dec_variant remote_header_response_codec MRemoteHeaderResponse b
  else if i =? variant_index 11 None then dec_variant remote_changes_request_codec MRemoteChangesRequest b
  else if i =? variant_index 12 None then dec_variant remote_changes_response_codec MRemoteChangesResponse b
  else if i =? variant_index 13 None then dec_variant remote_read_child_request_codec MRemoteReadChildRequest b
  else if i =? variant_index 14 (Some 17) then dec_variant (vec_codec consensus_message_codec) MConsensusBatch b
  else (None, b).

Definition message_codec : Codec Message := {| enc := enc_message; dec := dec_enum dec_message |}.
End messages.
End SyncMessages.
