(* ===== verification/SyncMessagesTheorems.v ===== *)
(** * Messages survive the wire

    What is encoded is decoded to the same message, for the derived codecs and
    for those the source writes out; the latter also accept what older versions
    send. *)

From S2P Require Import Prelude PeersState Peerset Notifications Wire Scale RequestResponses Config SyncMessages.
Import SyncMessages.

(** ** Flags *)
Lemma attributes_from_bits bits : 0 ≤ bits < 256 →
  BlockAttributes.from_bits bits = if bits <=? BlockAttributes.all then Some bits else None.
Proof.
  intros Hb. assert (bits ∈ (Z.of_nat <$> seq 0 256)) as Hin.
  { apply list_elem_of_fmap. exists (Z.to_nat bits). split; [lia|]. apply elem_of_seq. lia. }
  clear Hb. revert bits Hin. apply Forall_forall. vm_compute. repeat constructor.
Qed.

Lemma attributes_valid_bits a : BlockAttributes.valid a → BlockAttributes.from_bits a = Some a ∧ 0 ≤ a < 256.
Proof.
  unfold BlockAttributes.valid. intros Ha. change BlockAttributes.all with 63 in Ha.
  rewrite attributes_from_bits by lia. change BlockAttributes.all with 63.
  rewrite (proj2 (Z.leb_le a 63)) by lia. split; [done|lia].
Qed.

Lemma attributes_correct : correct BlockAttributes.codec BlockAttributes.valid.
Proof. intros a rest [Hf Hr]%attributes_valid_bits. simpl. by rewrite byte_val_of, Hf. Qed.

Lemma attributes_be_u32 a : BlockAttributes.valid a →
  BlockAttributes.from_be_u32 (BlockAttributes.to_be_u32 a) = Ok a ∧ is_uint 32 (BlockAttributes.to_be_u32 a).
Proof.
  intros [Hf Hr]%attributes_valid_bits. unfold BlockAttributes.from_be_u32, BlockAttributes.to_be_u32.
  rewrite Z.shiftr_shiftl_l, Z.sub_diag, Z.shiftl_0_r, Hf by lia. split; [done|].
  unfold is_uint. rewrite Z.shiftl_mul_pow2 by lia. lia.
Qed.

Lemma roles_correct : correct roles_codec Roles.valid.
Proof.
  intros r rest Hr. unfold Roles.valid in Hr. assert (Roles.all = 7) as Ha by done. simpl.
  rewrite byte_val_of, Roles.from_bits_valid by lia. by rewrite (proj2 (Z.leb_le _ _)) by lia.
Qed.

Lemma direction_correct : correct direction_codec (λ _, True).
Proof. by intros [] rest _. Qed.
Lemma state_correct : correct state_codec (λ _, True).
Proof. by intros [] rest _. Qed.

#[local] Hint Resolve attributes_correct roles_correct direction_correct state_correct : scale.

(** ** Messages *)
Section messages.
Context `{ScaleLaws} {Header Hash Number Extrinsic Proof Justifications : Type}.
Context (header : Codec Header) (hash : Codec Hash) (number : Codec Number) (extrinsic : Codec Extrinsic).
Context (storage_proof : Codec Proof) (justifications_codec : Codec Justifications).
Context (header_ok : Header → Prop) (hash_ok : Hash → Prop) (number_ok : Number → Prop)
  (extrinsic_ok : Extrinsic → Prop) (proof_ok : Proof → Prop) (justifications_ok : Justifications → Prop).
(** The codecs of the types of other crates decode what they encode. *)
Context (Hheader : correct header header_ok) (Hhash : correct hash hash_ok) (Hnumber : correct number number_ok)
  (Hextrinsic : correct extrinsic extrinsic_ok) (Hproof : correct storage_proof proof_ok)
  (Hjust : correct justifications_codec justifications_ok).

Definition all_of {A} (ok : A → Prop) (o : option A) : Prop := match o with Some a => ok a | None => True end.

Definition data_ok (d : BlockData (Header := Header) (Hash := Hash) (Extrinsic := Extrinsic)
    (Justifications := Justifications)) : Prop :=
  hash_ok (bd_hash d) ∧ all_of header_ok (bd_header d) ∧
  all_of (λ l, short l ∧ Forall extrinsic_ok l) (bd_body d) ∧
  all_of (λ l, short l ∧ Forall short l) (bd_indexed_body d) ∧
  all_of short (bd_receipt d) ∧ all_of short (bd_message_queue d) ∧ all_of short (bd_justification d) ∧
  all_of justifications_ok (bd_justifications d).

Definition from_ok (f : FromBlock (Hash := Hash) (Number := Number)) : Prop :=
  match f with FromHash h => hash_ok h | FromNumber n => number_ok n end.

Definition request_ok (r : BlockRequest (Hash := Hash) (Number := Number)) : Prop :=
  is_uint 64 (bq_id r) ∧ BlockAttributes.valid (bq_fields r) ∧ from_ok (bq_from r) ∧ True ∧ all_of (is_uint 32) (bq_max r).
Definition response_ok (r : BlockResponse (Header := Header) (Hash := Hash) (Extrinsic := Extrinsic)
    (Justifications := Justifications)) : Prop :=
  is_uint 64 (bs_id r) ∧ short (bs_blocks r) ∧ Forall data_ok (bs_blocks r).
Definition handshake_ok (h : BlockAnnouncesHandshake (Hash := Hash) (Number := Number)) : Prop :=
  Roles.valid (hs_roles h) ∧ number_ok (hs_best_number h) ∧ hash_ok (hs_best_hash h) ∧ hash_ok (hs_genesis_hash h).

(** Struct codecs: field by field. *)
Ltac fields := repeat first [eassumption | apply pair_correct | apply option_correct | apply vec_correct
  | apply u64_correct | apply u32_correct | apply bytes_correct | apply string_correct | apply attributes_correct
  | apply roles_correct | apply direction_correct ].
Ltac struct_correct := eapply map_correct; [fields|by intros []|].

Lemma data_correct : correct (block_data_codec header hash extrinsic justifications_codec) data_ok.
Proof. unfold block_data_codec. struct_correct. intros [] Hok. exact Hok. Qed.

Lemma from_correct : correct (from_block_codec hash number) from_ok.
Proof.
  intros [h|n] rest Hf; cbn [from_block_codec enc dec enc_variant app]; rewrite dec_enum_cons by lia; cbn;
    by eapply dec_variant_correct.
Qed.

Lemma request_correct : correct (block_request_codec hash number) request_ok.
Proof. unfold block_request_codec. eapply map_correct; [fields; apply from_correct|by intros []|]. intros [] Hok. exact Hok. Qed.

Lemma response_correct : correct (block_response_codec header hash extrinsic justifications_codec) response_ok.
Proof.
  unfold block_response_codec. eapply map_correct; [fields; apply data_correct|by intros []|]. intros [] Hok. exact Hok.
Qed.

Lemma handshake_correct : correct (handshake_codec hash number) handshake_ok.
Proof. unfold handshake_codec. struct_correct. intros [] Hok. exact Hok. Qed.

(** C23: A block request, a block response and the handshake of the block announce
    protocol are decoded to what was encoded, whatever follows them; the set of
    requested fields also survives its encoding as a big-endian [u32]. *)
Theorem sync_messages_roundtrip req res hs (rest : bytes) :
  request_ok req → response_ok res → handshake_ok hs →
  dec (block_request_codec hash number) (enc (block_request_codec hash number) req ++ rest) = (Some req, rest) ∧
  dec (block_response_codec header hash extrinsic justifications_codec)
    (enc (block_response_codec header hash extrinsic justifications_codec) res ++ rest) = (Some res, rest) ∧
  dec (handshake_codec hash number) (enc (handshake_codec hash number) hs ++ rest) = (Some hs, rest) ∧
  BlockAttributes.from_be_u32 (BlockAttributes.to_be_u32 (bq_fields req)) = Ok (bq_fields req).
Proof.
  intros Hreq Hres Hhs. split; [by apply request_correct|]. split; [by apply response_correct|].
  split; [by apply handshake_correct|]. by apply attributes_be_u32, Hreq.
Qed.

(** The messages of light clients survive as well. *)
Theorem remote_messages_roundtrip :
  correct (remote_call_request_codec hash)
    (λ r, is_uint 64 (cq_id r) ∧ hash_ok (cq_block r) ∧ short (String.list_byte_of_string (cq_method r)) ∧ short (cq_data r)) ∧
  correct (remote_call_response_codec storage_proof) (λ r, is_uint 64 (cr_id r) ∧ proof_ok (cr_proof r)) ∧
  correct (remote_read_request_codec hash)
    (λ r, is_uint 64 (rq_id r) ∧ hash_ok (rq_block r) ∧ short (rq_keys r) ∧ Forall short (rq_keys r)) ∧
  correct (remote_read_response_codec storage_proof) (λ r, is_uint 64 (rr_id r) ∧ proof_ok (rr_proof r)) ∧
  correct (remote_read_child_request_codec hash)
    (λ r, is_uint 64 (rc_id r) ∧ hash_ok (rc_block r) ∧ short (rc_storage_key r) ∧ short (rc_keys r) ∧
      Forall short (rc_keys r)) ∧
  correct (remote_header_request_codec number) (λ r, is_uint 64 (hq_id r) ∧ number_ok (hq_block r)) ∧
  correct (remote_header_response_codec header storage_proof)
    (λ r, is_uint 64 (hr_id r) ∧ all_of header_ok (hr_header r) ∧ proof_ok (hr_proof r)) ∧
  correct (remote_changes_request_codec hash)
    (λ r, is_uint 64 (xq_id r) ∧ hash_ok (xq_first r) ∧ hash_ok (xq_last r) ∧ hash_ok (xq_min r) ∧ hash_ok (xq_max r) ∧
      all_of short (xq_storage_key r) ∧ short (xq_key r)) ∧
  correct (remote_changes_response_codec hash number storage_proof)
    (λ r, is_uint 64 (xr_id r) ∧ number_ok (xr_max r) ∧ (short (xr_proof r) ∧ Forall short (xr_proof r)) ∧
      (short (xr_roots r) ∧ Forall (λ x, number_ok x.1 ∧ hash_ok x.2) (xr_roots r)) ∧ proof_ok (xr_roots_proof r)).
Proof. split_and!; struct_correct; by intros []. Qed.

(** ** Codecs that accept older messages *)

(** Data only comes with a state. *)
Definition announce_ok (a : BlockAnnounce (Header := Header)) : Prop :=
  header_ok (ba_header a) ∧ (ba_state a = None → ba_data a = None) ∧ all_of short (ba_data a).

Lemma announce_roundtrip a : announce_ok a →
  dec (block_announce_codec header) (enc (block_announce_codec header) a) = (Some a, []).
Proof.
  destruct a as [h st da]. intros (Hh & Hs & Hd). cbn [ba_header ba_state ba_data] in *.
  cbn [block_announce_codec enc dec ba_header ba_state ba_data]. rewrite Hheader by done.
  destruct st as [st|]; [|rewrite Hs by done; simpl; by rewrite bytes_empty].
  rewrite state_correct by done. destruct da as [da|]; [|by rewrite bytes_empty].
  rewrite <-(app_nil_r (enc bytes_codec da)). by rewrite bytes_correct.
Qed.

Definition compact_of (s : Status (Hash := Hash) (Number := Number)) : CompactStatus :=
  mkCompactStatus (st_version s) (st_min_supported_version s) (st_roles s) (st_best_number s) (st_best_hash s)
    (st_genesis_hash s).
Definition compact_ok (s : CompactStatus (Hash := Hash) (Number := Number)) : Prop :=
  is_uint 32 (cs_version s) ∧ is_uint 32 (cs_min_supported_version s) ∧ Roles.valid (cs_roles s) ∧
  number_ok (cs_best_number s) ∧ hash_ok (cs_best_hash s) ∧ hash_ok (cs_genesis_hash s).
(** The status without its last field, as newer versions send it. *)
Definition upgrade (s : CompactStatus (Hash := Hash) (Number := Number)) : Status :=
  mkStatus (cs_version s) (cs_min_supported_version s) (cs_roles s) (cs_best_number s) (cs_best_hash s)
    (cs_genesis_hash s) [].

Lemma compact_correct : correct (compact_status_codec hash number) compact_ok.
Proof. unfold compact_status_codec. struct_correct. intros [] Hok. exact Hok. Qed.

Lemma status_enc s :
  enc (status_codec hash number) s =
    enc (compact_status_codec hash number) (compact_of s) ++ enc bytes_codec (st_chain_status s).
Proof. simpl. rewrite <-!app_assoc. simpl. by rewrite <-!app_assoc. Qed.

Definition status_ok (s : Status (Hash := Hash) (Number := Number)) : Prop :=
  compact_ok (compact_of s) ∧ short (st_chain_status s).

Lemma status_correct : correct (status_codec hash number) status_ok.
Proof.
  intros s rest [Hs Hshort]. rewrite status_enc, <-app_assoc. cbn [status_codec dec].
  rewrite compact_correct, bytes_correct by done. by destruct s.
Qed.

(** C25: The codecs that are written out for compatibility. A block announcement
    alone in its packet is decoded to what was encoded, with or without state
    and data, provided that there is no data without a state. A status is
    decoded to what was encoded, whatever follows; one that ends before its
    [chain_status] is decoded with an empty one from version 6 on, and rejected
    for earlier versions. *)
Theorem legacy_messages_decode (a : BlockAnnounce (Header := Header)) s (c : CompactStatus) (rest : bytes) :
  announce_ok a → compact_ok (compact_of s) → short (st_chain_status s) → compact_ok c →
  dec (block_announce_codec header) (enc (block_announce_codec header) a) = (Some a, []) ∧
  dec (status_codec hash number) (enc (status_codec hash number) s ++ rest) = (Some s, rest) ∧
  dec (status_codec hash number) (enc (compact_status_codec hash number) c) =
    (if cs_version c <=? 5 then None else Some (upgrade c), []).
Proof.
  intros Ha Hs Hshort Hc. split; [by apply announce_roundtrip|]. split.
  - by apply status_correct.
  - rewrite <-(app_nil_r (enc _ c)). cbn [status_codec dec]. rewrite compact_correct by done. rewrite bytes_empty.
    unfold LAST_CHAIN_STATUS_VERSION. by destruct (cs_version c <=? 5).
Qed.

(** ** The enum of all messages *)
Context {Engine : Type} (engine : Codec Engine) (engine_ok : Engine → Prop) (Hengine : correct engine engine_ok).
Context (variant_index : nat → option Z → Z).
(** A variant has the number of its attribute, or else of its position. *)
Context (index_position : ∀ i, variant_index i None = Z.of_nat i).
Context (index_attribute : ∀ i n, variant_index i (Some n) = n).

Abbreviation messages := (message_codec header hash number extrinsic storage_proof justifications_codec engine variant_index).
Abbreviation AnyMessage := (Message (Header := Header) (Hash := Hash) (Number := Number) (Extrinsic := Extrinsic)
  (Proof := Proof) (Justifications := Justifications) (Engine := Engine)).

Definition consensus_ok (m : ConsensusMessage (Engine := Engine)) : Prop := engine_ok (cm_protocol m) ∧ short (cm_data m).
Lemma consensus_correct : correct (consensus_message_codec engine) consensus_ok.
Proof. unfold consensus_message_codec. struct_correct. intros [] Hok. exact Hok. Qed.

(** The fields are within their types. *)
Definition message_ok (m : AnyMessage) : Prop :=
  match m with
  | MStatus s => status_ok s
  | MBlockRequest r => request_ok r
  | MBlockResponse r => response_ok r
  | MBlockAnnounce a => announce_ok a
  | MConsensus m => consensus_ok m
  | MRemoteCallRequest r =>
      is_uint 64 (cq_id r) ∧ hash_ok (cq_block r) ∧ short (String.list_byte_of_string (cq_method r)) ∧ short (cq_data r)
  | MRemoteCallResponse r => is_uint 64 (cr_id r) ∧ proof_ok (cr_proof r)
  | MRemoteReadRequest r => is_uint 64 (rq_id r) ∧ hash_ok (rq_block r) ∧ short (rq_keys r) ∧ Forall short (rq_keys r)
  | MRemoteReadResponse r => is_uint 64 (rr_id r) ∧ proof_ok (rr_proof r)
  | MRemoteHeaderRequest r => is_uint 64 (hq_id r) ∧ number_ok (hq_block r)
  | MRemoteHeaderResponse r => is_uint 64 (hr_id r) ∧ all_of header_ok (hr_header r) ∧ proof_ok (hr_proof r)
  | MRemoteChangesRequest r =>
      is_uint 64 (xq_id r) ∧ hash_ok (xq_first r) ∧ hash_ok (xq_last r) ∧ hash_ok (xq_min r) ∧ hash_ok (xq_max r) ∧
      all_of short (xq_storage_key r) ∧ short (xq_key r)
  | MRemoteChangesResponse r =>
      is_uint 64 (xr_id r) ∧ number_ok (xr_max r) ∧ (short (xr_proof r) ∧ Forall short (xr_proof r)) ∧
      (short (xr_roots r) ∧ Forall (λ x, number_ok x.1 ∧ hash_ok x.2) (xr_roots r)) ∧ proof_ok (xr_roots_proof r)
  | MRemoteReadChildRequest r =>
      is_uint 64 (rc_id r) ∧ hash_ok (rc_block r) ∧ short (rc_storage_key r) ∧ short (rc_keys r) ∧ Forall short (rc_keys r)
  | MConsensusBatch l => short l ∧ Forall consensus_ok l
  end.

Lemma variant_alone {A B} (c : Codec A) (inj : A → B) (ok : A → Prop) a :
  correct c ok → ok a → dec_variant c inj (enc c a) = (Some (inj a), []).
Proof. intros Hc Ha. rewrite <-(app_nil_r (enc c a)). by eapply dec_variant_correct. Qed.

(** The number before the fields leads to the first variant that has it. *)
Ltac pick_variant :=
  cbn [message_codec enc dec enc_message]; unfold enc_variant; rewrite ?index_position, ?index_attribute, dec_enum_cons by lia;
  unfold dec_message; rewrite ?index_position, ?index_attribute; cbn [Z.eqb Z.of_nat Pos.eqb Pos.of_succ_nat Pos.succ].

(** C24: A network message alone in its packet, with its fields within their
    types and, if it is a block announcement, with data only when it has a state
    (data without a state is taken for one, see [announce_without_state]), is
    decoded to what was encoded, for every kind of message but one: a
    [RemoteCallResponse] has the number 6 of its position, which the attribute
    of [Consensus] gives to that variant too, and is never decoded to itself. *)
Theorem network_messages_roundtrip (m : AnyMessage) :
  message_ok m →
  match m with
  | MRemoteCallResponse _ => (dec messages (enc messages m)).1 ≠ Some m
  | _ => dec messages (enc messages m) = (Some m, [])
  end.
Proof.
  destruct remote_messages_roundtrip as (? & ? & ? & ? & ? & ? & ? & ? & ?).
  intros Hm. destruct m; pick_variant.
  - eapply variant_alone; [apply status_correct|done].
  - eapply variant_alone; [apply request_correct|done].
  - eapply variant_alone; [apply response_correct|done].
  - unfold dec_variant. by rewrite announce_roundtrip.
  - eapply variant_alone; [apply consensus_correct|done].
  - by eapply variant_alone.
  - unfold dec_variant. destruct (dec (consensus_message_codec engine) _) as [[]]; done.
  - by eapply variant_alone.
  - by eapply variant_alone.
  - by eapply variant_alone.
  - by eapply variant_alone.
  - by eapply variant_alone.
  - by eapply variant_alone.
  - by eapply variant_alone.
  - eapply variant_alone; [apply vec_correct, consensus_correct|done].
Qed.
End messages.

(** ** Witnesses
    Headers, hashes and the like are byte strings or numbers. *)
Lemma sync_messages_roundtrip_witness :
  let req := mkBlockRequest 7 (Z.lor BlockAttributes.HEADER BlockAttributes.BODY) (FromHash [Byte.x01; Byte.x02]) Descending
    (Some 64) in
  dec (block_request_codec bytes_codec u64_codec) (enc (block_request_codec bytes_codec u64_codec) req ++ [Byte.xff]) =
    (Some req, [Byte.xff]).
Proof.
  intros req.
  refine (proj1 (sync_messages_roundtrip bytes_codec bytes_codec u64_codec bytes_codec bytes_codec
    short short (is_uint 64) short short bytes_correct bytes_correct u64_correct bytes_correct bytes_correct
    req (mkBlockResponse 7 []) (mkHandshake 1 5 [] []) [Byte.xff] _ _ _)).
  - split_and!; try done; unfold is_uint, short, u32_max; simpl; lia.
  - split_and!; try done; unfold is_uint, short, u32_max; simpl; lia.
  - split_and!; try done; unfold is_uint, short, u32_max; simpl; lia.
Defined.

(** A status of version 6 without its last field. *)
Lemma legacy_messages_decode_witness :
  let c := mkCompactStatus (Hash := bytes) (Number := Z) 6 3 4 100 [Byte.x01] [Byte.x02] in
  dec (status_codec bytes_codec u64_codec) (enc (compact_status_codec bytes_codec u64_codec) c) = (Some (upgrade c), []) ∧
  dec (block_announce_codec bytes_codec)
    (enc (block_announce_codec bytes_codec) (mkBlockAnnounce [Byte.x05] (Some Best) None)) =
    (Some (mkBlockAnnounce [Byte.x05] (Some Best) None), []).
Proof.
  intros c.
  destruct (legacy_messages_decode bytes_codec bytes_codec u64_codec short short (is_uint 64)
    bytes_correct bytes_correct u64_correct (mkBlockAnnounce [Byte.x05] (Some Best) None) (upgrade c) c []) as (H1 & _ & H3).
  - split_and!; try done; unfold is_uint, short, u32_max; simpl; lia.
  - split_and!; try done; unfold is_uint, short, u32_max; simpl; lia.
  - unfold short, u32_max. simpl. lia.
  - split_and!; try done; unfold is_uint, short, u32_max; simpl; lia.
  - split; [exact H3|exact H1].
Defined.

(** An announcement with data but no state is decoded to something else. *)
Example announce_without_state :
  (dec (block_announce_codec bytes_codec) (enc (block_announce_codec bytes_codec)
    (mkBlockAnnounce [Byte.x05] None (Some [Byte.x07])))).1 = Some (mkBlockAnnounce [Byte.x05] None None).
Proof. vm_compute. reflexivity. Qed.

(** The numbering the derived codecs use. *)
Definition attribute_or_position (i : nat) (index : option Z) : Z := default (Z.of_nat i) index.

Lemma network_messages_roundtrip_witness :
  let codec := message_codec (Extrinsic := bytes) (Justifications := bytes) bytes_codec bytes_codec u64_codec bytes_codec
    bytes_codec bytes_codec bytes_codec attribute_or_position in
  let batch := MConsensusBatch [mkConsensusMessage [Byte.x01] [Byte.x02]; mkConsensusMessage [] []] in
  let answer := MRemoteCallResponse (mkRemoteCallResponse 5 [Byte.x07]) in
  dec codec (enc codec batch) = (Some batch, []) ∧ (dec codec (enc codec answer)).1 ≠ Some answer.
Proof.
  intros codec batch answer.
  pose proof (network_messages_roundtrip bytes_codec bytes_codec u64_codec bytes_codec bytes_codec bytes_codec
    short short (is_uint 64) short short short bytes_correct bytes_correct u64_correct bytes_correct bytes_correct
    bytes_correct bytes_codec short bytes_correct attribute_or_position (λ _, eq_refl) (λ _ _, eq_refl)) as Hrt.
  split; [apply (Hrt batch)|apply (Hrt answer)]; repeat constructor; unfold is_uint, short, u32_max; simpl; lia.
Defined.
