(* ===== verification/NodeInfo.v ===== *)
(** * What the node tells about itself and its synchronisation

    Models of [network/common/service/signature.rs] (messages signed with the
    identity of the node), [network/network_state.rs] (a snapshot of the network
    for diagnostics), [network/common/sync.rs], [sync/warp.rs] and
    [sync/metrics.rs] (the status of the synchronisation). The traits of
    [common/service.rs] and [common/sync.rs] have no implementation in the
    repository apart from forwarding through [Arc], and are left out. *)

From stdpp Require Import pretty.
From S2P Require Import Prelude PeersState Peerset Notifications Wire Scale RequestResponses Config SyncMessages.
Open Scope Z_scope.

(** ** [signature.rs] *)

(** [libp2p::identity]. *)
Class Identity (Keypair PublicKey PeerId SigningError : Type) := {
  public : Keypair → PublicKey;
  sign : Keypair → bytes → result bytes SigningError;
  to_peer_id : PublicKey → PeerId;
  pk_verify : PublicKey → bytes → bytes → bool;
}.

(** What a key pair has signed can be verified with its public key. *)
Class IdentityLaws (Keypair PublicKey PeerId SigningError : Type) `{Identity Keypair PublicKey PeerId SigningError} := {
  sign_verifies k msg s : sign k msg = Ok s → pk_verify (public k) msg s = true;
}.

Module Signature.
Section signature.
Context {Keypair PublicKey PeerId SigningError : Type} `{Identity Keypair PublicKey PeerId SigningError} `{EqDecision PeerId}.

Record Signature := mkSignature { public_key : PublicKey; sig_bytes : bytes }.

Definition sign_message (message : bytes) (keypair : Keypair) : result Signature SigningError :=
  match sign keypair message with
  | Ok b => Ok (mkSignature (public keypair) b)
  | Err e => Err e
  end.

Definition verify (s : Signature) (message : bytes) (peer_id : PeerId) : bool :=
  bool_decide (peer_id = to_peer_id (public_key s)) && pk_verify (public_key s) message (sig_bytes s).

(** A signature made with a key pair verifies for the message and the peer the
    key pair identifies, and for no other peer, whatever the message. *)
Theorem signature_identifies `{!IdentityLaws Keypair PublicKey PeerId SigningError} k msg s :
  sign_message msg k = Ok s →
  verify s msg (to_peer_id (public k)) = true ∧
  ∀ msg' p, verify s msg' p = true → p = to_peer_id (public k).
Proof.
  unfold sign_message. destruct (sign k msg) as [b|] eqn:Hs; [|done]. intros [= <-]. unfold verify. simpl. split.
  - by rewrite bool_decide_eq_true_2, (sign_verifies k msg b Hs).
  - intros msg' p [Hp _]%andb_true_iff. by apply bool_decide_eq_true in Hp.
Qed.
End signature.
End Signature.

(** ** [network_state.rs] *)
Module NetworkState.

(** [libp2p::core::Endpoint] and [ConnectedPoint]. *)
Inductive CoreEndpoint := CoreDialer | CoreListener.
Inductive ConnectedPoint (MA : Type) :=
  | PointDialer (address : MA) (role_override : CoreEndpoint)
  | PointListener (local_addr send_back_addr : MA).
Arguments PointDialer {MA}.
Arguments PointListener {MA}.

Section state.
Context {MA : Type} `{Countable MA} {Json : Type}.

Inductive Endpoint := Dialer | Listener.
Inductive PeerEndpoint :=
  | Dialing (address : MA) (endpoint : Endpoint)
  | Listening (local_addr send_back_addr : MA).

Definition Endpoint_from (e : CoreEndpoint) : Endpoint := match e with CoreDialer => Dialer | CoreListener => Listener end.
Definition PeerEndpoint_from (e : ConnectedPoint MA) : PeerEndpoint :=
  match e with
  | PointDialer address role_override => Dialing address (Endpoint_from role_override)
  | PointListener local_addr send_back_addr => Listening local_addr send_back_addr
  end.

Record Peer := mkPeer {
  endpoint : PeerEndpoint;
  version_string : option string;
  latest_ping_time : option Duration;
  known_addresses : gset MA;
}.

Record NotConnectedPeer := mkNotConnectedPeer {
  nc_known_addresses : gset MA;
  nc_version_string : option string;
  nc_latest_ping_time : option Duration;
}.

Record NetworkState := mkNetworkState {
  peer_id : string;
  listened_addresses : gset MA;
  external_addresses : gset MA;
  connected_peers : gmap string Peer;
  not_connected_peers : gmap string NotConnectedPeer;
  peerset : Json;
}.

(** The snapshot keeps endpoints apart. *)
Lemma PeerEndpoint_from_inj : Inj (=) (=) PeerEndpoint_from.
Proof. intros [a []|l s] [a' []|l' s']; naive_solver. Qed.
End state.
End NetworkState.

(** ** [sync.rs], [warp.rs], [metrics.rs] *)
Lemma closing_inj (s t : string) : (s +:+ ")")%string = (t +:+ ")")%string → s = t.
Proof.
  revert t. induction s as [|c s IH]; intros [|c' t] Heq; try done.
  - injection Heq as _ Heq. by destruct t.
  - injection Heq as _ Heq. by destruct s.
  - injection Heq as -> Heq. f_equal. by apply IH.
Qed.

Module Sync.
Section sync.
Context {PeerId Hash Number Header Justifications SetId AuthorityList : Type}.
(** [Display] of a block number. *)
Context (display_number : Number → string).

Record PeerInfo := mkPeerInfo { pi_best_hash : Hash; pi_best_number : Number }.
Record ExtendedPeerInfo := mkExtendedPeerInfo { ep_roles : Roles.Roles; ep_best_hash : Hash; ep_best_number : Number }.

Inductive SyncState := Idle | Downloading (target : Number) | Importing (target : Number).
Definition is_major_syncing (s : SyncState) : bool := match s with Idle => false | _ => true end.

Record StateDownloadProgress := mkStateDownloadProgress { percentage : Z; size : Z }.

Inductive WarpSyncPhase :=
  | AwaitingPeers
  | AwaitingTargetBlock
  | DownloadingWarpProofs
  | DownloadingTargetBlock
  | DownloadingState
  | ImportingState
  | DownloadingBlocks (n : Number).

(** [Display]. *)
Definition phase_display (p : WarpSyncPhase) : string :=
  match p with
  | AwaitingPeers => "Waiting for peers"
  | AwaitingTargetBlock => "Waiting for target block to be received"
  | DownloadingWarpProofs => "Downloading finality proofs"
  | DownloadingTargetBlock => "Downloading target block"
  | DownloadingState => "Downloading state"
  | ImportingState => "Importing state"
  | DownloadingBlocks n => "Downloading block history (#" +:+ display_number n +:+ ")"
  end%string.

Record WarpSyncProgress := mkWarpSyncProgress { phase : WarpSyncPhase; total_bytes : Z }.

(** [EncodedProof] and [WarpProofRequest]. *)
Record EncodedProof := mkEncodedProof { encoded_proof : bytes }.
Record WarpProofRequest := mkWarpProofRequest { begin : Hash }.
Definition warp_proof_request_codec (hash : Codec Hash) : Codec WarpProofRequest :=
  map_codec begin mkWarpProofRequest hash.

Inductive VerificationResult :=
  | Partial (set_id : SetId) (authorities : AuthorityList) (hash : Hash)
  | Complete (set_id : SetId) (authorities : AuthorityList) (header : Header).

Record SyncStatus := mkSyncStatus {
  state : SyncState;
  best_seen_block : option Number;
  num_peers : Z;
  queued_blocks : Z;
  state_sync : option StateDownloadProgress;
  warp_sync : option WarpSyncProgress;
}.

Record BadPeer := mkBadPeer { bad_peer : PeerId; bad_change : ReputationChange }.

Inductive OnBlockJustification :=
  | NoJustification
  | ImportJustification (peer : PeerId) (hash : Hash) (number : Number) (justifications : Justifications).

Inductive PollBlockAnnounceValidation :=
  | Failure (who : PeerId) (disconnect : bool)
  | Nothing (who : PeerId) (is_best : bool) (announce : SyncMessages.BlockAnnounce (Header := Header))
  | ImportHeader (who : PeerId) (is_best : bool) (announce : SyncMessages.BlockAnnounce (Header := Header))
  | Skip.

Inductive SyncMode := Light | Full | LightState (storage_chain_mode skip_proofs : bool) | Warp.

Record RequestMetrics := mkRequestMetrics {
  pending_requests : Z;
  active_requests : Z;
  importing_requests : Z;
  failed_requests : Z;
}.
Record Metrics := mkMetrics { m_queued_blocks : Z; m_fork_targets : Z; m_justifications : RequestMetrics }.

Inductive PeerRequest :=
  | RequestBlock (r : SyncMessages.BlockRequest (Hash := Hash) (Number := Number))
  | RequestState
  | RequestWarpProof.

Inductive SyncEvent := SyncPeerConnected (p : PeerId) | SyncPeerDisconnected (p : PeerId).

(** Different phases of a warp synchronisation are shown as different texts. *)
Theorem phase_display_inj : Inj (=) (=) display_number → Inj (=) (=) phase_display.
Proof.
  intros Hn p q. destruct p, q; simpl; try done. intros Heq. f_equal. apply Hn.
  apply (inj (String.app "Downloading block history (#")) in Heq. by apply closing_inj.
Qed.

Lemma warp_proof_request_correct hash ok :
  correct hash ok → correct (warp_proof_request_codec hash) (λ r, ok (begin r)).
Proof. intros Hh. eapply map_correct; [exact Hh|by intros []|done]. Qed.
End sync.
End Sync.
