(* ===== verification/Protocol.v ===== *)
(** * The substrate protocols as one behaviour

    Model of [network/protocol.rs]: [Protocol] builds the peer set manager and
    the notifications behaviour from the configuration, passes events on to
    the behaviour, and reports what it has to say by the names of the
    protocols.

    The handle of the peer set manager sends into the channel the manager
    reads; the manager is part of the behaviour, so that is where the handle
    acts. *)

From S2P Require Import Prelude PeersState Peerset Notifications Wire RequestResponses Config.
Import Behaviour Config Network.

Module Protocol.

Definition BLOCK_ANNOUNCES_TRANSACTIONS_SUBSTREAM_SIZE : Z := 16 * 1024 * 1024.
Definition NUM_HARDCODED_PEERSETS : nat := 1.
Definition HARDCODED_PEERSETS_SYNC : nat := 0.

Section protocol.
Context {PeerId : Type} `{Countable PeerId, !HashOrder PeerId} {NotificationsSink : Type}.
Context (clock : nat → Instant) (delay_ready : Instant → Instant → bool) (ban_sample : nat → Z).
Abbreviation Notifications := (Notifications PeerId NotificationsSink).

Inductive CustomMessageOutcome :=
  | NotificationStreamOpened (remote : PeerId) (protocol : ProtocolName) (negotiated_fallback : option ProtocolName)
      (notifications_sink : NotificationsSink) (handshake : bytes)
  | NotificationStreamReplaced (remote : PeerId) (protocol : ProtocolName) (notifications_sink : NotificationsSink)
  | NotificationStreamClosed (remote : PeerId) (protocol : ProtocolName)
  | NotificationsReceived (remote : PeerId) (messages : list (ProtocolName * bytes)).

Record Protocol := mkProtocol {
  pending_messages : list CustomMessageOutcome;
  behaviour : Notifications;
  notification_protocols : list ProtocolName;
}.

Definition with_behaviour (b : Notifications) (p : Protocol) : Protocol :=
  mkProtocol (pending_messages p) b (notification_protocols p).

(** ** [new] *)
Section construction.
Context {Multihash MA SecretKey : Type} `{Multiaddr PeerId Multihash MA}.
Abbreviation NetworkConfiguration := (NetworkConfiguration PeerId MA SecretKey).
Abbreviation NonDefaultSetConfig := (NonDefaultSetConfig PeerId MA).

Definition denies (sc : SetConfig PeerId MA) : bool := bool_decide (sc_non_reserved_mode sc = Deny).

(** The configuration of set 0 for the manager, and the addresses of its
    reserved nodes. *)
Definition default_set (cfg : NetworkConfiguration) : PeersetSetConfig PeerId * list (PeerId * MA) :=
  let sc := default_peers_set cfg in
  ({| cfg_in_peers := sc_in_peers sc; cfg_out_peers := sc_out_peers sc;
      cfg_bootnodes := mp_peer_id <$> boot_nodes cfg;
      cfg_reserved_nodes := list_to_set (mp_peer_id <$> sc_reserved_nodes sc);
      cfg_reserved_only := denies sc |},
   omap (λ r, if ma_is_empty (mp_multiaddr r) then None else Some (mp_peer_id r, mp_multiaddr r))
     (sc_reserved_nodes sc)).

(** The same for one of the extra sets. *)
Definition extra_set (set_cfg : NonDefaultSetConfig) : PeersetSetConfig PeerId * list (PeerId * MA) :=
  let sc := nd_set_config set_cfg in
  ({| cfg_in_peers := sc_in_peers sc; cfg_out_peers := sc_out_peers sc; cfg_bootnodes := [];
      cfg_reserved_nodes := list_to_set (mp_peer_id <$> sc_reserved_nodes sc);
      cfg_reserved_only := denies sc |},
   (λ r, (mp_peer_id r, mp_multiaddr r)) <$> sc_reserved_nodes sc).

Definition peerset_config (cfg : NetworkConfiguration) : list (PeersetSetConfig PeerId) :=
  (default_set cfg).1 :: (fst ∘ extra_set <$> extra_sets cfg).

(** [known_addresses]. *)
Definition known_addresses (cfg : NetworkConfiguration) : list (PeerId * MA) :=
  (default_set cfg).2 ++ mjoin (snd ∘ extra_set <$> extra_sets cfg).

Definition notifications_config (roles : Roles.Roles) (c : NonDefaultSetConfig) : ProtocolConfig :=
  mkProtocolConfig (nd_notifications_protocol c) (nd_fallback_names c)
    (from_option id (Roles.encode roles) (nd_handshake c)) (nd_max_notification_size c).

Definition new (roles : Roles.Roles) (cfg : NetworkConfiguration) (block_announces_protocol : NonDefaultSetConfig) :
    outcome (Protocol * list (PeerId * MA)) :=
  peerset ← from_config clock (peerset_config cfg);
  behaviour ← Behaviour.new peerset
    (notifications_config roles block_announces_protocol :: (notifications_config roles <$> extra_sets cfg));
  mret (mkProtocol [] behaviour
          (nd_notifications_protocol block_announces_protocol :: (nd_notifications_protocol <$> extra_sets cfg)),
        known_addresses cfg).
End construction.

(** ** Operations *)

Definition disconnect_peer (peer_id : PeerId) (set : nat) (p : Protocol) : outcome Protocol :=
  n ← Behaviour.disconnect_peer clock peer_id set (behaviour p); mret (with_behaviour n p).

(** The handle of the peer set manager. *)
Definition on_peerset (f : Peerset PeerId → Peerset PeerId) (p : Protocol) : Protocol :=
  with_behaviour (with_peerset (f (peerset (behaviour p))) (behaviour p)) p.

Definition report_peer (who : PeerId) (reputation : ReputationChange) (p : Protocol) : Protocol :=
  on_peerset (handle_report_peer who reputation) p.

Definition connect (peer : PeerId) (p : Protocol) : Protocol := on_peerset (handle_connect_to_peer peer) p.

Definition new_handler (p : Protocol) : list ProtocolConfig := Behaviour.new_handler (behaviour p).

(** [FromSwarm], as far as the behaviour reacts to it. *)
Inductive FromSwarm :=
  | FS_ConnectionEstablished (peer_id : PeerId) (connection_id : nat)
  | FS_ConnectionClosed (peer_id : PeerId) (connection_id : nat)
  | FS_DialFailure (peer_id : option PeerId)
  | FS_Other.

Definition on_swarm_event (event : FromSwarm) (p : Protocol) : outcome Protocol :=
  n ← match event with
      | FS_ConnectionEstablished peer c => on_connection_established peer c (behaviour p)
      | FS_ConnectionClosed peer c => on_connection_closed clock ban_sample peer c (behaviour p)
      | FS_DialFailure peer => on_dial_failure clock peer (behaviour p)
      | FS_Other => mret (behaviour p)
      end;
  mret (with_behaviour n p).

Definition on_connection_handler_event (peer_id : PeerId) (connection_id : nat)
    (event : NotifsHandlerOut NotificationsSink) (p : Protocol) : outcome Protocol :=
  n ← Behaviour.on_connection_handler_event clock ban_sample peer_id connection_id event (behaviour p);
  mret (with_behaviour n p).

(** ** [poll] *)

Inductive ProtocolAction :=
  | PA_GenerateEvent (event : CustomMessageOutcome)
  | PA_Dial (peer_id : PeerId) (handler : list ProtocolConfig)
  | PA_NotifyHandler (peer_id : PeerId) (handler : nat) (event : NotifsHandlerIn).

(** The outcome for an event of the notifications behaviour. *)
Definition outcome_of (names : list ProtocolName) (event : NotificationsOut PeerId NotificationsSink) :
    outcome CustomMessageOutcome :=
  match event with
  | CustomProtocolOpen peer_id set_id negotiated_fallback received_handshake notifications_sink =>
      protocol ← index names set_id;
      mret (NotificationStreamOpened peer_id protocol negotiated_fallback notifications_sink received_handshake)
  | CustomProtocolReplaced peer_id set_id notifications_sink =>
      protocol ← index names set_id;
      mret (NotificationStreamReplaced peer_id protocol notifications_sink)
  | CustomProtocolClosed peer_id set_id =>
      protocol ← index names set_id;
      mret (NotificationStreamClosed peer_id protocol)
  | Notification peer_id set_id message =>
      protocol ← index names set_id;
      mret (NotificationsReceived peer_id [(protocol, message)])
  end.

Definition action_of (names : list ProtocolName) (a : BehaviourAction PeerId NotificationsSink) :
    outcome ProtocolAction :=
  match a with
  | GenerateEvent ev => o ← outcome_of names ev; mret (PA_GenerateEvent o)
  | Dial peer_id handler => mret (PA_Dial peer_id handler)
  | NotifyHandler peer_id handler event => mret (PA_NotifyHandler peer_id handler event)
  end.

(** [None] when the fuel of the behaviour's [poll] runs out; the action is
    [None] for [Poll::Pending]. *)
Definition poll (fuel : nat) (fired : list nat) (p : Protocol) : outcome (option (option ProtocolAction * Protocol)) :=
  match pending_messages p with
  | message :: rest =>
      mret (Some (Some (PA_GenerateEvent message), mkProtocol rest (behaviour p) (notification_protocols p)))
  | [] =>
      r ← Behaviour.poll clock delay_ready fuel fired (behaviour p);
      match r with
      | None => mret None
      | Some (None, n) => mret (Some (None, with_behaviour n p))
      | Some (Some a, n) =>
          a ← action_of (notification_protocols p) a;
          mret (Some (Some a, with_behaviour n p))
      end
  end.
End protocol.

Arguments CustomMessageOutcome : clear implicits.
Arguments Protocol PeerId {_ _} NotificationsSink.
Arguments ProtocolAction : clear implicits.
Arguments FromSwarm : clear implicits.
End Protocol.
