(* ===== verification/NetBehaviour.v ===== *)
(** * The behaviour of the network node

    Model of [network/behaviour.rs]: the struct that combines the substrate
    protocols, the request-response protocols, discovery and peer information,
    with the calls the network service makes, and the event type all of their
    events are converted to. Discovery ([Discovery]) is an interface here, with
    the methods the struct calls; peer information is only carried along. *)

From S2P Require Import Prelude PeersState Peerset Notifications Wire RequestResponses Config Protocol.
Import Config.

Class Discovery (PeerId MA Disc : Type) := {
  di_known_peers : Disc → list PeerId;
  di_add_known_address : PeerId → MA → Disc → Disc;
  di_add_self_reported_address : PeerId → list bytes → MA → Disc → Disc;
  di_get_value : bytes → Disc → Disc;
  di_put_value : bytes → bytes → Disc → Disc;
  di_num_entries_per_kbucket : Disc → option (list (Z * nat));
  di_num_kademlia_records : Disc → option nat;
  di_kademlia_records_total_size : Disc → option nat;
}.

Module NetBehaviour.
Section events.
Context {PeerId MA NotificationsSink : Type}.

(** [identify::Info], as far as the code looks at it. *)
Record IdentifyInfo := mkIdentifyInfo {
  id_protocol_version : string;
  id_agent_version : string;
  id_listen_addrs : list MA;
  id_protocols : list bytes;
}.

(** [DhtEvent] of [common/protocol/event.rs]. *)
Inductive DhtEvent :=
  | DhtValueFound (results : list (bytes * bytes))
  | DhtValueNotFound (key : bytes)
  | DhtValuePut (key : bytes)
  | DhtValuePutFailed (key : bytes).

(** [DiscoveryOut] of [discovery.rs]. *)
Inductive DiscoveryOut :=
  | DoDiscovered (peer_id : PeerId)
  | DoUnroutablePeer (peer_id : PeerId)
  | DoValueFound (results : list (bytes * bytes)) (duration : Duration)
  | DoValueNotFound (key : bytes) (duration : Duration)
  | DoValuePut (key : bytes) (duration : Duration)
  | DoValuePutFailed (key : bytes) (duration : Duration)
  | DoRandomKademliaStarted.

(** [PeerInfoEvent] of [peer_info.rs]. *)
Inductive PeerInfoEvent := Identified (peer_id : PeerId) (info : IdentifyInfo).

Inductive BehaviourOut :=
  | RandomKademliaStarted
  | InboundRequest (peer : PeerId) (protocol : ProtocolName) (r : result Duration RequestResponses.ResponseFailure)
  | RequestFinished (peer : PeerId) (protocol : ProtocolName) (duration : Duration)
      (r : result unit RequestResponses.RequestFailure)
  | ReputationChanges (peer : PeerId) (changes : list ReputationChange)
  | NotificationStreamOpened (remote : PeerId) (protocol : ProtocolName) (negotiated_fallback : option ProtocolName)
      (notifications_sink : NotificationsSink) (handshake : bytes)
  | NotificationStreamReplaced (remote : PeerId) (protocol : ProtocolName) (notifications_sink : NotificationsSink)
  | NotificationStreamClosed (remote : PeerId) (protocol : ProtocolName)
  | NotificationsReceived (remote : PeerId) (messages : list (ProtocolName * bytes))
  | PeerIdentify (peer_id : PeerId) (info : IdentifyInfo)
  | Discovered (peer_id : PeerId)
  | Dht (event : DhtEvent) (duration : Duration)
  | NoEvent.

Definition from_CustomMessageOutcome (event : Protocol.CustomMessageOutcome PeerId NotificationsSink) : BehaviourOut :=
  match event with
  | Protocol.NotificationStreamOpened remote protocol fallback sink handshake =>
      NotificationStreamOpened remote protocol fallback sink handshake
  | Protocol.NotificationStreamReplaced remote protocol sink => NotificationStreamReplaced remote protocol sink
  | Protocol.NotificationStreamClosed remote protocol => NotificationStreamClosed remote protocol
  | Protocol.NotificationsReceived remote messages => NotificationsReceived remote messages
  end.

Definition from_request_responses_Event (event : RequestResponses.Event (PeerId := PeerId)) : BehaviourOut :=
  match event with
  | RequestResponses.InboundRequest peer protocol r => InboundRequest peer protocol r
  | RequestResponses.RequestFinished peer protocol duration r => RequestFinished peer protocol duration r
  | RequestResponses.ReputationChanges peer changes => ReputationChanges peer changes
  end.

Definition from_PeerInfoEvent (event : PeerInfoEvent) : BehaviourOut :=
  let 'Identified peer_id info := event in PeerIdentify peer_id info.

Definition from_DiscoveryOut (event : DiscoveryOut) : BehaviourOut :=
  match event with
  | DoUnroutablePeer _ => NoEvent
  | DoDiscovered peer_id => Discovered peer_id
  | DoValueFound results duration => Dht (DhtValueFound results) duration
  | DoValueNotFound key duration => Dht (DhtValueNotFound key) duration
  | DoValuePut key duration => Dht (DhtValuePut key) duration
  | DoValuePutFailed key duration => Dht (DhtValuePutFailed key) duration
  | DoRandomKademliaStarted => RandomKademliaStarted
  end.
End events.
Arguments IdentifyInfo : clear implicits.
Arguments DiscoveryOut : clear implicits.
Arguments PeerInfoEvent : clear implicits.
Arguments BehaviourOut : clear implicits.

Section behaviour.
Context {PeerId : Type} `{Countable PeerId, !HashOrder PeerId} {NotificationsSink MA : Type}.
Context {B Chan Hd M HE Opts D : Type} `{RequestResponses.SubBehaviour PeerId B Chan Hd M HE Opts D}.
Context {Disc PeerInfo : Type} `{Discovery PeerId MA Disc}.
Context (clock : nat → Instant).
Abbreviation Requests := (RequestResponses.Behaviour (PeerId := PeerId) (B := B) (Chan := Chan)).

Record Behaviour := mkBehaviour {
  substrate : Protocol.Protocol PeerId NotificationsSink;
  peer_info : PeerInfo;
  discovery : Disc;
  request_responses : Requests;
}.

Definition with_substrate (x : Protocol.Protocol PeerId NotificationsSink) (b : Behaviour) : Behaviour :=
  mkBehaviour x (peer_info b) (discovery b) (request_responses b).
Definition with_discovery (x : Disc) (b : Behaviour) : Behaviour :=
  mkBehaviour (substrate b) (peer_info b) x (request_responses b).
Definition with_requests (x : Requests) (b : Behaviour) : Behaviour :=
  mkBehaviour (substrate b) (peer_info b) (discovery b) x.

Definition new (substrate : Protocol.Protocol PeerId NotificationsSink) (peer_info : PeerInfo) (discovery : Disc)
    (request_response_protocols : list RequestResponses.ProtocolConfig) :
    result Behaviour RequestResponses.RegisterError :=
  match RequestResponses.new request_response_protocols with
  | Ok requests => Ok (mkBehaviour substrate peer_info discovery requests)
  | Err e => Err e
  end.

Definition known_peers (b : Behaviour) : list PeerId := di_known_peers (discovery b).
Definition add_known_address (peer_id : PeerId) (addr : MA) (b : Behaviour) : Behaviour :=
  with_discovery (di_add_known_address peer_id addr (discovery b)) b.

Definition num_entries_per_kbucket (b : Behaviour) : option (list (Z * nat)) :=
  di_num_entries_per_kbucket (discovery b).
Definition num_kademlia_records (b : Behaviour) : option nat := di_num_kademlia_records (discovery b).
Definition kademlia_records_total_size (b : Behaviour) : option nat :=
  di_kademlia_records_total_size (discovery b).

Definition send_request (target : PeerId) (protocol : ProtocolName) (request : bytes) (pending_response : nat)
    (connect : RequestResponses.IfDisconnected) (b : Behaviour) : outcome Behaviour :=
  r ← RequestResponses.send_request clock target protocol request pending_response connect (request_responses b);
  mret (with_requests r b).

Definition add_self_reported_address_to_dht (peer_id : PeerId) (supported_protocols : list bytes) (addr : MA)
    (b : Behaviour) : Behaviour :=
  with_discovery (di_add_self_reported_address peer_id supported_protocols addr (discovery b)) b.

Definition get_value (key : bytes) (b : Behaviour) : Behaviour :=
  with_discovery (di_get_value key (discovery b)) b.
Definition put_value (key value : bytes) (b : Behaviour) : Behaviour :=
  with_discovery (di_put_value key value (discovery b)) b.

(** Calls through [user_protocol] and [user_protocol_mut]. *)
Definition user_report_peer (who : PeerId) (change : ReputationChange) (b : Behaviour) : Behaviour :=
  with_substrate (Protocol.report_peer who change (substrate b)) b.
Definition user_connect (peer : PeerId) (b : Behaviour) : Behaviour :=
  with_substrate (Protocol.connect peer (substrate b)) b.
Definition user_disconnect_peer (peer : PeerId) (set : nat) (b : Behaviour) : outcome Behaviour :=
  p ← Protocol.disconnect_peer clock peer set (substrate b); mret (with_substrate p b).
End behaviour.
End NetBehaviour.
