(* ===== verification/Discovery.v ===== *)
(** * Discovery

    Model of [network/discovery.rs]: the behaviour that finds peers and their
    addresses. It keeps the addresses the user gave (permanent ones, and
    ephemeral ones, which a failed dial removes), walks the DHT at random with
    growing delays, and turns the events of Kademlia and mDNS into its own.

    Kademlia and mDNS are behaviours of libp2p, interfaces here. [Toggle] is an
    option: a disabled behaviour ignores every event, has no addresses and is
    never ready. A timer is the instant at which it fires; the instant of a poll
    and the random peer it would look up are arguments of [poll], as are the
    rounds of its loops. *)

From S2P Require Import Prelude PeersState Peerset Notifications Wire LruSet RequestResponses Config Protocol NetBehaviour.
Import RequestResponses(Action, GenerateEvent, Dial, NotifyHandler, ReportObservedAddr, CloseConnection).
Import NetBehaviour(DiscoveryOut, DoDiscovered, DoUnroutablePeer, DoValueFound, DoValueNotFound, DoValuePut,
  DoValuePutFailed, DoRandomKademliaStarted).

(** [addr.iter()] of a multiaddress. *)
Class AddressIter (Multihash MA : Type) := ma_iter : MA → list (Component Multihash).

(** [IpNetwork::from(ip).is_global()] of the [ip_network] crate. *)
Class IpNetwork := {
  ip4_is_global : Z → Z → Z → Z → bool;
  ip6_is_global : Z → bool;
}.

(** [DialError]: the addresses that were tried, each with its error. *)
Inductive DialError (MA D : Type) := DialTransport (errors : list (MA * D)) | DialOther (e : D).
Arguments DialTransport {MA D}.
Arguments DialOther {MA D}.

(** [FromSwarm], with endpoints [EP], handlers [Hd] and the payload [D] of what
    is only passed on. *)
Inductive DiscoveryFromSwarm (PeerId EP MA Hd D : Type) :=
  | DS_ConnectionEstablished (peer_id : PeerId) (connection_id : nat) (endpoint : EP)
  | DS_ConnectionClosed (peer_id : PeerId) (connection_id : nat) (endpoint : EP) (handler : Hd)
      (remaining_established : nat)
  | DS_DialFailure (peer_id : option PeerId) (handler : Hd) (error : DialError MA D)
  | DS_ListenerClosed (e : D)
  | DS_ListenFailure (e : D) (handler : Hd)
  | DS_ListenerError (e : D)
  | DS_ExpiredExternalAddr (addr : MA)
  | DS_NewListener (e : D)
  | DS_ExpiredListenAddr (e : D)
  | DS_NewExternalAddr (addr : MA)
  | DS_AddressChange (peer_id : PeerId) (connection_id : nat) (old new : EP)
  | DS_NewListenAddr (e : D).
Arguments DS_ConnectionEstablished {PeerId EP MA Hd D}.
Arguments DS_ConnectionClosed {PeerId EP MA Hd D}.
Arguments DS_DialFailure {PeerId EP MA Hd D}.
Arguments DS_ListenerClosed {PeerId EP MA Hd D}.
Arguments DS_ListenFailure {PeerId EP MA Hd D}.
Arguments DS_ListenerError {PeerId EP MA Hd D}.
Arguments DS_ExpiredExternalAddr {PeerId EP MA Hd D}.
Arguments DS_NewListener {PeerId EP MA Hd D}.
Arguments DS_ExpiredListenAddr {PeerId EP MA Hd D}.
Arguments DS_NewExternalAddr {PeerId EP MA Hd D}.
Arguments DS_AddressChange {PeerId EP MA Hd D}.
Arguments DS_NewListenAddr {PeerId EP MA Hd D}.

(** ** Kademlia *)
Module Kad.

(** [kad::Record]; [Record::new] sets neither publisher nor expiry. *)
Record DhtRecord (PeerId : Type) := mkRecord {
  rec_key : bytes;
  rec_value : bytes;
  rec_publisher : option PeerId;
  rec_expires : option Instant;
}.
Arguments mkRecord {PeerId}.
Arguments rec_key {PeerId}.
Arguments rec_value {PeerId}.
Definition Record_new {PeerId} (key value : bytes) : DhtRecord PeerId := mkRecord key value None None.

Inductive Quorum := QuorumOne | QuorumAll.

(** What the code sets of [KademliaConfig]. *)
Record KademliaConfig := mkKademliaConfig {
  kc_protocol_names : list bytes;
  kc_manual_inserts : bool;
  kc_disjoint_query_paths : bool;
}.

(** [GetRecordOk] and the errors of queries, of which the code takes the key. *)
Inductive GetRecordOk (PeerId : Type) :=
  | FoundRecord (record : DhtRecord PeerId)
  | FinishedWithNoAdditionalRecord (cache_candidates : list (Z * PeerId)).
Arguments FoundRecord {PeerId}.
Arguments FinishedWithNoAdditionalRecord {PeerId}.

Inductive GetRecordError :=
  | NotFound (key : bytes)
  | QuorumFailed (key : bytes)
  | Timeout (key : bytes).
Definition into_key (e : GetRecordError) : bytes :=
  match e with NotFound key | QuorumFailed key | Timeout key => key end.

Inductive QueryResult (PeerId : Type) :=
  | GetClosestPeers (res : result (bytes * list PeerId) (bytes * list PeerId))
  | GetRecord (res : result (GetRecordOk PeerId) GetRecordError)
  | PutRecord (res : result bytes bytes)
  | RepublishRecord (res : result bytes bytes)
  | OtherQueryResult.
Arguments GetClosestPeers {PeerId}.
Arguments GetRecord {PeerId}.
Arguments PutRecord {PeerId}.
Arguments RepublishRecord {PeerId}.
Arguments OtherQueryResult {PeerId}.

(** [KademliaEvent]; of the statistics of a query the duration. *)
Inductive KademliaEvent (PeerId QueryId : Type) :=
  | RoutingUpdated (peer : PeerId)
  | UnroutablePeer (peer : PeerId)
  | RoutablePeer (peer : PeerId)
  | PendingRoutablePeer (peer : PeerId)
  | KadInboundRequest
  | OutboundQueryProgressed (id : QueryId) (res : QueryResult PeerId) (duration : option Duration).
Arguments RoutingUpdated {PeerId QueryId}.
Arguments UnroutablePeer {PeerId QueryId}.
Arguments RoutablePeer {PeerId QueryId}.
Arguments PendingRoutablePeer {PeerId QueryId}.
Arguments KadInboundRequest {PeerId QueryId}.
Arguments OutboundQueryProgressed {PeerId QueryId}.

Inductive MdnsEvent (PeerId MA : Type) :=
  | MdnsDiscovered (list : list (PeerId * MA))
  | MdnsExpired (list : list (PeerId * MA)).
Arguments MdnsDiscovered {PeerId MA}.
Arguments MdnsExpired {PeerId MA}.
End Kad.

(** The methods of [Kademlia<MemoryStore>] that the code calls. *)
Class Kademlia (PeerId EP MA QueryId K Hd M HE Opts D : Type) := {
  kad_with_config : PeerId → Kad.KademliaConfig → K;
  kad_protocol_names : K → list bytes;
  kad_add_address : PeerId → MA → K → K;
  kad_get_record : bytes → K → K;
  kad_put_record : Kad.DhtRecord PeerId → Kad.Quorum → K → result unit D * K;
  kad_put_record_to : Kad.DhtRecord PeerId → list PeerId → Kad.Quorum → K → K;
  kad_get_closest_peers : PeerId → K → K;
  (** [query_mut(&id)] and [finish] of the query it gives. *)
  kad_has_query : QueryId → K → bool;
  kad_query_finish : QueryId → K → K;
  (** The buckets: the logarithm of the lower bound, and the peers. *)
  kad_kbuckets : K → list (option Z * list PeerId);
  kad_records : K → list (Kad.DhtRecord PeerId);
  kad_new_handler : K → Hd * K;
  kad_addresses_of_peer : PeerId → K → list MA * K;
  kad_on_swarm_event : DiscoveryFromSwarm PeerId EP MA (option Hd) D → K → K;
  kad_on_connection_handler_event : PeerId → nat → HE → K → K;
  kad_poll : K → Poll (Action PeerId (Kad.KademliaEvent PeerId QueryId) Hd M Opts) * K;
}.

(** The mDNS behaviour: its handlers take no message. *)
Class Mdns (PeerId MA Md Opts : Type) := {
  mdns_addresses_of_peer : PeerId → Md → list MA * Md;
  mdns_poll : Md → Poll (Action PeerId (Kad.MdnsEvent PeerId MA) unit Empty_set Opts) * Md;
}.

Module Discovery.
Import Kad.

Definition MAX_KNOWN_EXTERNAL_ADDRESSES : positive := 32.

(** [array_bytes::bytes2hex("", ..)] is a parameter. *)
Definition kademlia_protocol_name (bytes2hex : bytes → string) (genesis_hash : bytes) (fork_id : option string) : bytes :=
  let genesis_hash_hex := bytes2hex genesis_hash in
  match fork_id with
  | Some fork_id => String.list_byte_of_string ("/" +:+ genesis_hash_hex +:+ "/" +:+ fork_id +:+ "/kad")
  | None => String.list_byte_of_string ("/" +:+ genesis_hash_hex +:+ "/kad")
  end.

(** A [ProtocolId] is the bytes of its name. *)
Definition legacy_kademlia_protocol_name (id : bytes) : bytes :=
  let v := String.list_byte_of_string "/" in
  let v := v ++ id in
  v ++ String.list_byte_of_string "/kad".

Section discovery.
Context {PeerId : Type} `{Countable PeerId} {Multihash MA : Type} `{EqDecision MA}.
Context `{!Multiaddr PeerId Multihash MA, !AddressIter Multihash MA, !IpNetwork}.
Context {QueryId : Type} `{Countable QueryId}.
Context {EP K Hd M HE Opts D : Type} `{KA : !Kademlia PeerId EP MA QueryId K Hd M HE Opts D}.
Context {Md : Type} `{MD : !Mdns PeerId MA Md Opts}.
Context {S : Type} `{LS : !LinkedHashSet MA S}.
Context (bytes2hex : bytes → string).

(** ** Configuration *)
Record DiscoveryConfig := mkDiscoveryConfig {
  dc_local_peer_id : PeerId;
  dc_permanent_addresses : list (PeerId * MA);
  dc_dht_random_walk : bool;
  dc_allow_private_ip : bool;
  dc_allow_non_globals_in_dht : bool;
  dc_discovery_only_if_under_num : Z;
  dc_enable_mdns : bool;
  dc_kademlia_disjoint_query_paths : bool;
  dc_kademlia_protocols : list bytes;
}.
Implicit Types (c : DiscoveryConfig).

Definition config_new (local_peer_id : PeerId) : DiscoveryConfig :=
  mkDiscoveryConfig local_peer_id [] true true false u64_max false false [].

Definition discovery_limit (limit : Z) c : DiscoveryConfig :=
  mkDiscoveryConfig (dc_local_peer_id c) (dc_permanent_addresses c) (dc_dht_random_walk c) (dc_allow_private_ip c)
    (dc_allow_non_globals_in_dht c) limit (dc_enable_mdns c) (dc_kademlia_disjoint_query_paths c)
    (dc_kademlia_protocols c).
Definition with_permanent_addresses (l : list (PeerId * MA)) c : DiscoveryConfig :=
  mkDiscoveryConfig (dc_local_peer_id c) (dc_permanent_addresses c ++ l) (dc_dht_random_walk c)
    (dc_allow_private_ip c) (dc_allow_non_globals_in_dht c) (dc_discovery_only_if_under_num c) (dc_enable_mdns c)
    (dc_kademlia_disjoint_query_paths c) (dc_kademlia_protocols c).
Definition with_dht_random_walk (value : bool) c : DiscoveryConfig :=
  mkDiscoveryConfig (dc_local_peer_id c) (dc_permanent_addresses c) value (dc_allow_private_ip c)
    (dc_allow_non_globals_in_dht c) (dc_discovery_only_if_under_num c) (dc_enable_mdns c)
    (dc_kademlia_disjoint_query_paths c) (dc_kademlia_protocols c).
Definition config_allow_private_ip (value : bool) c : DiscoveryConfig :=
  mkDiscoveryConfig (dc_local_peer_id c) (dc_permanent_addresses c) (dc_dht_random_walk c) value
    (dc_allow_non_globals_in_dht c) (dc_discovery_only_if_under_num c) (dc_enable_mdns c)
    (dc_kademlia_disjoint_query_paths c) (dc_kademlia_protocols c).
Definition config_allow_non_globals_in_dht (value : bool) c : DiscoveryConfig :=
  mkDiscoveryConfig (dc_local_peer_id c) (dc_permanent_addresses c) (dc_dht_random_walk c) (dc_allow_private_ip c)
    value (dc_discovery_only_if_under_num c) (dc_enable_mdns c) (dc_kademlia_disjoint_query_paths c)
    (dc_kademlia_protocols c).
Definition with_mdns (value : bool) c : DiscoveryConfig :=
  mkDiscoveryConfig (dc_local_peer_id c) (dc_permanent_addresses c) (dc_dht_random_walk c) (dc_allow_private_ip c)
    (dc_allow_non_globals_in_dht c) (dc_discovery_only_if_under_num c) value (dc_kademlia_disjoint_query_paths c)
    (dc_kademlia_protocols c).
Definition with_kademlia (genesis_hash : bytes) (protocol_id : bytes) c : DiscoveryConfig :=
  mkDiscoveryConfig (dc_local_peer_id c) (dc_permanent_addresses c) (dc_dht_random_walk c) (dc_allow_private_ip c)
    (dc_allow_non_globals_in_dht c) (dc_discovery_only_if_under_num c) (dc_enable_mdns c)
    (dc_kademlia_disjoint_query_paths c)
    [kademlia_protocol_name bytes2hex genesis_hash None; legacy_kademlia_protocol_name protocol_id].
Definition use_kademlia_disjoint_query_paths (value : bool) c : DiscoveryConfig :=
  mkDiscoveryConfig (dc_local_peer_id c) (dc_permanent_addresses c) (dc_dht_random_walk c) (dc_allow_private_ip c)
    (dc_allow_non_globals_in_dht c) (dc_discovery_only_if_under_num c) (dc_enable_mdns c) value
    (dc_kademlia_protocols c).

(** ** State *)
Record DiscoveryBehaviour := mkDiscovery {
  permanent_addresses : list (PeerId * MA);
  ephemeral_addresses : gmap PeerId (list MA);
  kademlia : option K;
  mdns : option Md;
  next_kad_random_query : option Instant;
  duration_to_next_kad : Duration;
  pending_events : list (DiscoveryOut PeerId);
  local_peer_id : PeerId;
  num_connections : Z;
  allow_private_ip : bool;
  discovery_only_if_under_num : Z;
  allow_non_globals_in_dht : bool;
  known_external_addresses : LruHashSet S;
  records_to_publish : gmap QueryId (DhtRecord PeerId);
}.
Implicit Types (s : DiscoveryBehaviour).

Definition with_ephemeral (x : gmap PeerId (list MA)) s : DiscoveryBehaviour :=
  mkDiscovery (permanent_addresses s) x (kademlia s) (mdns s) (next_kad_random_query s) (duration_to_next_kad s)
    (pending_events s) (local_peer_id s) (num_connections s) (allow_private_ip s) (discovery_only_if_under_num s)
    (allow_non_globals_in_dht s) (known_external_addresses s) (records_to_publish s).
Definition with_kad (x : option K) s : DiscoveryBehaviour :=
  mkDiscovery (permanent_addresses s) (ephemeral_addresses s) x (mdns s) (next_kad_random_query s)
    (duration_to_next_kad s) (pending_events s) (local_peer_id s) (num_connections s) (allow_private_ip s)
    (discovery_only_if_under_num s) (allow_non_globals_in_dht s) (known_external_addresses s) (records_to_publish s).
Definition with_mdns_state (x : option Md) s : DiscoveryBehaviour :=
  mkDiscovery (permanent_addresses s) (ephemeral_addresses s) (kademlia s) x (next_kad_random_query s)
    (duration_to_next_kad s) (pending_events s) (local_peer_id s) (num_connections s) (allow_private_ip s)
    (discovery_only_if_under_num s) (allow_non_globals_in_dht s) (known_external_addresses s) (records_to_publish s).
Definition with_timer (x : option Instant) (d : Duration) s : DiscoveryBehaviour :=
  mkDiscovery (permanent_addresses s) (ephemeral_addresses s) (kademlia s) (mdns s) x d
    (pending_events s) (local_peer_id s) (num_connections s) (allow_private_ip s) (discovery_only_if_under_num s)
    (allow_non_globals_in_dht s) (known_external_addresses s) (records_to_publish s).
Definition with_pending (x : list (DiscoveryOut PeerId)) s : DiscoveryBehaviour :=
  mkDiscovery (permanent_addresses s) (ephemeral_addresses s) (kademlia s) (mdns s) (next_kad_random_query s)
    (duration_to_next_kad s) x (local_peer_id s) (num_connections s) (allow_private_ip s)
    (discovery_only_if_under_num s) (allow_non_globals_in_dht s) (known_external_addresses s) (records_to_publish s).
Definition with_connections (x : Z) s : DiscoveryBehaviour :=
  mkDiscovery (permanent_addresses s) (ephemeral_addresses s) (kademlia s) (mdns s) (next_kad_random_query s)
    (duration_to_next_kad s) (pending_events s) (local_peer_id s) x (allow_private_ip s)
    (discovery_only_if_under_num s) (allow_non_globals_in_dht s) (known_external_addresses s) (records_to_publish s).
Definition with_external (x : LruHashSet S) s : DiscoveryBehaviour :=
  mkDiscovery (permanent_addresses s) (ephemeral_addresses s) (kademlia s) (mdns s) (next_kad_random_query s)
    (duration_to_next_kad s) (pending_events s) (local_peer_id s) (num_connections s) (allow_private_ip s)
    (discovery_only_if_under_num s) (allow_non_globals_in_dht s) x (records_to_publish s).
Definition with_records (x : gmap QueryId (DhtRecord PeerId)) s : DiscoveryBehaviour :=
  mkDiscovery (permanent_addresses s) (ephemeral_addresses s) (kademlia s) (mdns s) (next_kad_random_query s)
    (duration_to_next_kad s) (pending_events s) (local_peer_id s) (num_connections s) (allow_private_ip s)
    (discovery_only_if_under_num s) (allow_non_globals_in_dht s) (known_external_addresses s) x.

(** [finish], at an instant; [new_mdns] is what [TokioMdns::new] returns. *)
Definition finish (now : Instant) (new_mdns : result Md D) c : DiscoveryBehaviour :=
  let kad :=
    match dc_kademlia_protocols c with
    | [] => None
    | protocols =>
        let kad := kad_with_config (dc_local_peer_id c)
                     (mkKademliaConfig protocols true (dc_kademlia_disjoint_query_paths c)) in
        Some (foldl (λ kad '(peer_id, addr), kad_add_address peer_id addr kad) kad (dc_permanent_addresses c))
    end in
  mkDiscovery (dc_permanent_addresses c) ∅ kad
    (if dc_enable_mdns c then match new_mdns with Ok m => Some m | Err _ => None end else None)
    (if dc_dht_random_walk c then Some now else None) (from_secs 1) [] (dc_local_peer_id c) 0
    (dc_allow_private_ip c) (dc_discovery_only_if_under_num c) (dc_allow_non_globals_in_dht c)
    (lru_new MAX_KNOWN_EXTERNAL_ADDRESSES) ∅.

(** ** Calls *)

(** The set that is returned, as the list of its elements. *)
Definition known_peers s : list PeerId :=
  match kademlia s with
  | Some k => elements (foldl (λ (peers : gset PeerId) '(_, entries),
                foldl (λ peers e, if decide (e ∈ peers) then peers else {[e]} ∪ peers) peers entries)
                ∅ (kad_kbuckets k))
  | None => []
  end.

Definition add_known_address (peer_id : PeerId) (addr : MA) s : DiscoveryBehaviour :=
  let addrs_list := default [] (ephemeral_addresses s !! peer_id) in
  let s := with_ephemeral (<[peer_id := addrs_list]> (ephemeral_addresses s)) s in
  if decide (addr ∈ addrs_list) then s
  else
    let s := with_kad (kad_add_address peer_id addr <$> kademlia s) s in
    let s := with_pending (pending_events s ++ [DoDiscovered peer_id]) s in
    with_ephemeral (<[peer_id := addrs_list ++ [addr]]> (ephemeral_addresses s)) s.

Definition can_add_to_dht (addr : MA) : bool :=
  match head (ma_iter addr) with
  | Some (Ip4 a b c d) => ip4_is_global a b c d
  | Some (Ip6 ip) => ip6_is_global ip
  | Some (Dns _) | Some (Dns4 _) | Some (Dns6 _) => true
  | _ => false
  end.

Definition add_self_reported_address (peer_id : PeerId) (supported_protocols : list bytes) (addr : MA) s :
    DiscoveryBehaviour :=
  match kademlia s with
  | Some k =>
      if negb (allow_non_globals_in_dht s) && negb (can_add_to_dht addr) then s
      else if existsb (λ p, existsb (λ k, bool_decide (k = p)) (kad_protocol_names k)) supported_protocols then
        with_kad (Some (kad_add_address peer_id addr k)) s
      else s
  | None => s
  end.

Definition get_value (key : bytes) s : DiscoveryBehaviour :=
  with_kad (kad_get_record key <$> kademlia s) s.

Definition put_value (key value : bytes) s : DiscoveryBehaviour :=
  match kademlia s with
  | Some k =>
      let '(r, k) := kad_put_record (Record_new key value) QuorumAll k in
      let s := with_kad (Some k) s in
      match r with
      | Ok _ => s
      | Err _ => with_pending (pending_events s ++ [DoValuePutFailed key (from_secs 0)]) s
      end
  | None => s
  end.

Definition num_entries_per_kbucket s : option (list (Z * nat)) :=
  (λ k, (λ '(log, entries), (default 0 log, length entries)) <$> kad_kbuckets k) <$> kademlia s.
Definition num_kademlia_records s : option nat := (λ k, length (kad_records k)) <$> kademlia s.
Definition kademlia_records_total_size s : option nat :=
  (λ k, foldl (λ tot rec, tot + length (rec_value rec))%nat O (kad_records k)) <$> kademlia s.

(** ** [NetworkBehaviour] *)
Definition new_handler s : option Hd * DiscoveryBehaviour :=
  match kademlia s with
  | Some k => let '(h, k) := kad_new_handler k in (Some h, with_kad (Some k) s)
  | None => (None, s)
  end.

(** The test of [retain] when private addresses are not allowed. *)
Definition not_private (addr : MA) : bool :=
  match head (ma_iter addr) with
  | Some (Ip4 a b c d) => ip4_is_global a b c d
  | Some (Ip6 ip) => ip6_is_global ip
  | _ => true
  end.

Definition addresses_of_peer (peer_id : PeerId) s : list MA * DiscoveryBehaviour :=
  let list := omap (λ '(p, a), if decide (p = peer_id) then Some a else None) (permanent_addresses s) in
  let list := list ++ default [] (ephemeral_addresses s !! peer_id) in
  let '(list_to_filter, s) :=
    match kademlia s with
    | Some k => let '(l, k) := kad_addresses_of_peer peer_id k in (l, with_kad (Some k) s)
    | None => ([], s)
    end in
  let '(list_to_filter, s) :=
    match mdns s with
    | Some m => let '(l, m) := mdns_addresses_of_peer peer_id m in (list_to_filter ++ l, with_mdns_state (Some m) s)
    | None => (list_to_filter, s)
    end in
  let list_to_filter :=
    if allow_private_ip s then list_to_filter else filter (λ addr, not_private addr = true) list_to_filter in
  (list ++ list_to_filter, s).

Definition kad_swarm_event (event : DiscoveryFromSwarm PeerId EP MA (option Hd) D) s : DiscoveryBehaviour :=
  with_kad (kad_on_swarm_event event <$> kademlia s) s.

(** The addresses that could not be dialed leave the list; an empty list is
    removed. *)
Definition drop_failed (peer_id : PeerId) (errors : list (MA * D)) (m : gmap PeerId (list MA)) : gmap PeerId (list MA) :=
  match m !! peer_id with
  | Some l =>
      let l := foldl (λ (l : list MA) '(addr, _), filter (λ a, a ≠ addr) l) l errors in
      if decide (l = []) then delete peer_id m else <[peer_id := l]> m
  | None => m
  end.

Definition on_swarm_event (event : DiscoveryFromSwarm PeerId EP MA (option Hd) D) s : outcome DiscoveryBehaviour :=
  match event with
  | DS_ConnectionEstablished _ _ _ =>
      n ← u64_add (num_connections s) 1; mret (kad_swarm_event event (with_connections n s))
  | DS_ConnectionClosed _ _ _ _ _ =>
      n ← u64_sub (num_connections s) 1; mret (kad_swarm_event event (with_connections n s))
  | DS_DialFailure peer_id _ error =>
      let s := match peer_id, error with
               | Some peer_id, DialTransport errors =>
                   with_ephemeral (drop_failed peer_id errors (ephemeral_addresses s)) s
               | _, _ => s
               end in
      mret (kad_swarm_event event s)
  | DS_NewExternalAddr addr =>
      let new_addr := ma_with addr (P2p (to_multihash (local_peer_id s))) in
      let s := if can_add_to_dht addr
               then with_external (lru_insert new_addr (known_external_addresses s)).2 s else s in
      mret (kad_swarm_event event s)
  | _ => mret (kad_swarm_event event s)
  end.

Definition on_connection_handler_event (peer_id : PeerId) (connection_id : nat) (event : HE) s : DiscoveryBehaviour :=
  with_kad (kad_on_connection_handler_event peer_id connection_id event <$> kademlia s) s.

(** ** [poll] *)
Abbreviation OutAction := (Action PeerId (DiscoveryOut PeerId) (option Hd) M Opts).

(** A round of the loop over the timer of the random walk, with Kademlia and
    the timer at hand. *)
Definition random_round (now : Instant) (random_peer_id : PeerId) s :
    DiscoveryBehaviour + (option OutAction * DiscoveryBehaviour) :=
  match kademlia s, next_kad_random_query s with
  | Some k, Some timer =>
      if timer <=? now then
        let '(actually_started, s) :=
          if num_connections s <? discovery_only_if_under_num s
          then (true, with_kad (Some (kad_get_closest_peers random_peer_id k)) s)
          else (false, s) in
        let s := with_timer (Some (now + duration_to_next_kad s)) (Z.min (duration_to_next_kad s * 2) (from_secs 60)) s in
        if actually_started then inr (Some (GenerateEvent DoRandomKademliaStarted), s) else inl s
      else inr (None, s)
  | _, _ => inr (None, s)
  end.

(** What is done with an event of Kademlia; [None] is going round again. *)
Definition on_get_record (id : QueryId) (res : result (GetRecordOk PeerId) GetRecordError) (duration : option Duration) s :
    option (DiscoveryOut PeerId) * DiscoveryBehaviour :=
  match res with
  | Ok (FoundRecord record) =>
      let s := match kademlia s with
               | Some k => if kad_has_query id k then with_kad (Some (kad_query_finish id k)) s else s
               | None => s
               end in
      let s := with_records (<[id := record]> (records_to_publish s)) s in
      (Some (DoValueFound [(rec_key record, rec_value record)] (default 0 duration)), s)
  | Ok (FinishedWithNoAdditionalRecord cache_candidates) =>
      match records_to_publish s !! id with
      | Some record =>
          let s := with_records (delete id (records_to_publish s)) s in
          if decide (cache_candidates = []) then (None, s)
          else (None, with_kad (kad_put_record_to record cache_candidates.*2 QuorumOne <$> kademlia s) s)
      | None => (None, s)
      end
  | Err e => (Some (DoValueNotFound (into_key e) (default 0 duration)), s)
  end.

Definition on_kademlia_event (ev : KademliaEvent PeerId QueryId) s : option (DiscoveryOut PeerId) * DiscoveryBehaviour :=
  match ev with
  | RoutingUpdated peer => (Some (DoDiscovered peer), s)
  | UnroutablePeer peer => (Some (DoUnroutablePeer peer), s)
  | RoutablePeer peer => (Some (DoDiscovered peer), s)
  | PendingRoutablePeer _ | KadInboundRequest => (None, s)
  | OutboundQueryProgressed _ (GetClosestPeers _) _ => (None, s)
  | OutboundQueryProgressed id (GetRecord res) duration => on_get_record id res duration s
  | OutboundQueryProgressed _ (PutRecord res) duration =>
      match res with
      | Ok key => (Some (DoValuePut key (default 0 duration)), s)
      | Err key => (Some (DoValuePutFailed key (default 0 duration)), s)
      end
  | OutboundQueryProgressed _ (RepublishRecord _) _ => (None, s)
  | OutboundQueryProgressed _ OtherQueryResult _ => (None, s)
  end.

Definition kad_round s : DiscoveryBehaviour + (option OutAction * DiscoveryBehaviour) :=
  match kademlia s with
  | None => inr (None, s)
  | Some k =>
      match kad_poll k with
      | (Pending, k) => inr (None, with_kad (Some k) s)
      | (Ready a, k) =>
          let s := with_kad (Some k) s in
          match a with
          | GenerateEvent ev =>
              match on_kademlia_event ev s with
              | (Some ev, s) => inr (Some (GenerateEvent ev), s)
              | (None, s) => inl s
              end
          | Dial opts handler => inr (Some (Dial opts (Some handler)), s)
          | NotifyHandler peer_id event => inr (Some (NotifyHandler peer_id event), s)
          | ReportObservedAddr address => inr (Some (ReportObservedAddr address), s)
          | CloseConnection peer_id => inr (Some (CloseConnection peer_id), s)
          end
      end
  end.

Definition mdns_round s : DiscoveryBehaviour + outcome (option OutAction * DiscoveryBehaviour) :=
  match mdns s with
  | None => inr (Done (None, s))
  | Some m =>
      match mdns_poll m with
      | (Pending, m) => inr (Done (None, with_mdns_state (Some m) s))
      | (Ready a, m) =>
          let s := with_mdns_state (Some m) s in
          match a with
          | GenerateEvent (MdnsDiscovered list) =>
              if discovery_only_if_under_num s <=? num_connections s then inl s
              else
                let s := with_pending (pending_events s ++ ((λ '(peer_id, _), DoDiscovered peer_id) <$> list)) s in
                match pending_events s with
                | ev :: rest => inr (Done (Some (GenerateEvent ev), with_pending rest s))
                | [] => inl s
                end
          | GenerateEvent (MdnsExpired _) => inl s
          | Dial _ _ => inr (Panicked UnreachableCode)
          | NotifyHandler _ event => match event with end
          | ReportObservedAddr address => inr (Done (Some (ReportObservedAddr address), s))
          | CloseConnection peer_id => inr (Done (Some (CloseConnection peer_id), s))
          end
      end
  end.

(** [None] when the rounds do not suffice. *)
Definition poll (rounds : nat) (now : Instant) (random_peer_id : PeerId) s :
    option (outcome (option OutAction * DiscoveryBehaviour)) :=
  match pending_events s with
  | ev :: rest => Some (Done (Some (GenerateEvent ev), with_pending rest s))
  | [] =>
      r ← loop (random_round now random_peer_id) rounds s;
      match r with
      | (Some a, s) => Some (Done (Some a, s))
      | (None, s) =>
          r ← loop kad_round rounds s;
          match r with
          | (Some a, s) => Some (Done (Some a, s))
          | (None, s) => loop mdns_round rounds s
          end
      end
  end.
End discovery.
Arguments DiscoveryConfig : clear implicits.
Arguments DiscoveryBehaviour PeerId {_ _} MA QueryId {_ _} K Md S.
End Discovery.

(** The part of the interface that the behaviour of the node calls. *)
#[export] Instance discovery_interface {PeerId : Type} `{Countable PeerId} {Multihash MA : Type} `{EqDecision MA}
    `{!Multiaddr PeerId Multihash MA, !AddressIter Multihash MA, !IpNetwork} {QueryId : Type} `{Countable QueryId}
    {EP K Hd M HE Opts D Md S : Type} `{!Kademlia PeerId EP MA QueryId K Hd M HE Opts D} :
    Discovery PeerId MA (Discovery.DiscoveryBehaviour PeerId MA QueryId K Md S) := {|
  di_known_peers := Discovery.known_peers;
  di_add_known_address := Discovery.add_known_address;
  di_add_self_reported_address := Discovery.add_self_reported_address;
  di_get_value := Discovery.get_value;
  di_put_value := Discovery.put_value;
  di_num_entries_per_kbucket := Discovery.num_entries_per_kbucket;
  di_num_kademlia_records := Discovery.num_kademlia_records;
  di_kademlia_records_total_size := Discovery.kademlia_records_total_size;
|}.
