(* ===== verification/DiscoveryTheorems.v ===== *)
(** * What discovery guarantees

    Runs of the discovery behaviour: the calls of the node, the events of the
    swarm and the polls, in any order. Every legal run ends without a panic,
    with polls that return; the connections are counted, the address book is
    what the calls and the failed dials make of it, and the random walk follows
    its schedule. *)

From S2P Require Import Prelude PeersState Peerset Notifications Wire LruSet RequestResponses Config Protocol NetBehaviour Discovery.
Import RequestResponses(Action, GenerateEvent, Dial, NotifyHandler, ReportObservedAddr, CloseConnection).
Import NetBehaviour(DiscoveryOut, DoDiscovered, DoUnroutablePeer, DoValueFound, DoValueNotFound, DoValuePut,
  DoValuePutFailed, DoRandomKademliaStarted).
Import Kad Discovery.Discovery.

(** The events of Kademlia that the loop of [poll] passes over. *)
Definition passed_over {PeerId QueryId} (ev : KademliaEvent PeerId QueryId) : bool :=
  match ev with
  | PendingRoutablePeer _ | KadInboundRequest
  | OutboundQueryProgressed _ (GetClosestPeers _) _
  | OutboundQueryProgressed _ (GetRecord (Ok (FinishedWithNoAdditionalRecord _))) _
  | OutboundQueryProgressed _ (RepublishRecord _) _
  | OutboundQueryProgressed _ OtherQueryResult _ => true
  | _ => false
  end.

(** They come to an end: each that is reported is one less to come, and
    [put_record_to] starts a query that ends with another kind of event. *)
Class KademliaLaws (PeerId EP MA QueryId K Hd M HE Opts D : Type)
    `{!Kademlia PeerId EP MA QueryId K Hd M HE Opts D} := {
  kad_backlog : K → nat;
  kad_poll_backlog k :
    match kad_poll k with
    | (Ready (GenerateEvent ev), k') => passed_over ev = true → (kad_backlog k' < kad_backlog k)%nat
    | _ => True
    end;
  kad_put_backlog r ps q k : (kad_backlog (kad_put_record_to r ps q k) ≤ kad_backlog k)%nat;
}.

(** The events of mDNS come to an end, and it never dials. *)
Class MdnsLaws (PeerId MA Md Opts : Type) `{!Mdns PeerId MA Md Opts} := {
  mdns_backlog : Md → nat;
  mdns_poll_law m :
    match mdns_poll m with
    | (Ready (GenerateEvent _), m') => (mdns_backlog m' < mdns_backlog m)%nat
    | (Ready (Dial _ _), _) => False
    | _ => True
    end;
}.

Section discovery_facts.
Context {PeerId : Type} `{Countable PeerId} {Multihash MA : Type} `{EqDecision MA}.
Context `{!Multiaddr PeerId Multihash MA, !AddressIter Multihash MA, !IpNetwork}.
Context {QueryId : Type} `{Countable QueryId}.
Context {EP K Hd M HE Opts D : Type} `{KA : !Kademlia PeerId EP MA QueryId K Hd M HE Opts D}.
Context `{KL : !KademliaLaws PeerId EP MA QueryId K Hd M HE Opts D}.
Context {Md : Type} `{MD : !Mdns PeerId MA Md Opts, ML : !MdnsLaws PeerId MA Md Opts}.
Context {S : Type} `{LS : !LinkedHashSet MA S, LL : !LinkedHashSetLaws MA S}.
Abbreviation State := (Discovery.DiscoveryBehaviour PeerId MA QueryId K Md S).
Implicit Types (s : State).

(** ** Inputs *)
Inductive Input :=
  | InAddKnown (peer_id : PeerId) (addr : MA)
  | InSelfReported (peer_id : PeerId) (protocols : list bytes) (addr : MA)
  | InGetValue (key : bytes)
  | InPutValue (key value : bytes)
  | InSwarm (event : DiscoveryFromSwarm PeerId EP MA (option Hd) D)
  | InHandler (peer_id : PeerId) (connection_id : nat) (event : HE)
  | InNewHandler
  | InAddresses (peer_id : PeerId)
  | InPoll (rounds : nat) (now : Instant) (random_peer_id : PeerId).

Definition step (i : Input) s : option (outcome State) :=
  match i with
  | InAddKnown p a => Some (Done (add_known_address p a s))
  | InSelfReported p l a => Some (Done (add_self_reported_address p l a s))
  | InGetValue k => Some (Done (get_value k s))
  | InPutValue k v => Some (Done (put_value k v s))
  | InSwarm e => Some (on_swarm_event e s)
  | InHandler p c e => Some (Done (on_connection_handler_event p c e s))
  | InNewHandler => Some (Done (new_handler s).2)
  | InAddresses p => Some (Done (addresses_of_peer p s).2)
  | InPoll rounds now p =>
      match poll rounds now p s with
      | Some (Done (_, s')) => Some (Done s')
      | Some (Panicked w) => Some (Panicked w)
      | None => None
      end
  end.

Fixpoint run (tr : list Input) s : option (outcome State) :=
  match tr with
  | [] => Some (Done s)
  | i :: tr =>
      match step i s with
      | Some (Done s') => run tr s'
      | r => r
      end
  end.

(** The open connections of the swarm. *)
Definition opened (i : Input) (O : gset nat) : gset nat :=
  match i with
  | InSwarm (DS_ConnectionEstablished _ c _) => {[c]} ∪ O
  | InSwarm (DS_ConnectionClosed _ c _ _ _) => O ∖ {[c]}
  | _ => O
  end.

(** Rounds that suffice for a poll. *)
Definition poll_bound s : nat :=
  (2 + from_option kad_backlog O (kademlia s) + from_option mdns_backlog O (mdns s))%nat.

(** Connections are new when they are established and open when they are
    closed, and are fewer than the counter can hold. *)
Definition legal (i : Input) (O : gset nat) s : Prop :=
  match i with
  | InSwarm (DS_ConnectionEstablished _ c _) => c ∉ O ∧ Z.of_nat (size O) < u64_max
  | InSwarm (DS_ConnectionClosed _ c _ _ _) => c ∈ O
  | InPoll rounds _ _ => (poll_bound s ≤ rounds)%nat
  | _ => True
  end.

Fixpoint legal_run (tr : list Input) (O : gset nat) s : Prop :=
  match tr with
  | [] => True
  | i :: tr =>
      legal i O s ∧
      match step i s with
      | Some (Done s') => legal_run tr (opened i O) s'
      | _ => True
      end
  end.

(** ** What a round leaves alone *)
Definition core s :=
  (permanent_addresses s, ephemeral_addresses s, num_connections s, known_external_addresses s,
   allow_private_ip s, discovery_only_if_under_num s).
Definition timer s := (next_kad_random_query s, duration_to_next_kad s).

(** The timer of the random walk is looked at and has fired. *)
Definition fires (now : Instant) s : bool :=
  match pending_events s, kademlia s, next_kad_random_query s with
  | [], Some _, Some t => t <=? now
  | _, _, _ => false
  end.

Definition fired_timer (now : Instant) s : option Instant * Duration :=
  (Some (now + duration_to_next_kad s), Z.min (duration_to_next_kad s * 2) (from_secs 60)).

Lemma on_kademlia_event_core ev s :
  core (on_kademlia_event ev s).2 = core s ∧ timer (on_kademlia_event ev s).2 = timer s ∧
  mdns (on_kademlia_event ev s).2 = mdns s.
Proof.
  destruct ev as [| | | | |id [|[[r|cs]|e]|[]| |] d]; try done; simpl.
  - destruct (kademlia s); [destruct (kad_has_query _ _)|]; done.
  - destruct (records_to_publish s !! id); [destruct (decide _)|]; done.
Qed.

Lemma on_kademlia_event_passed ev s s' :
  on_kademlia_event ev s = (None, s') →
  passed_over ev = true ∧
  (from_option kad_backlog O (kademlia s') ≤ from_option kad_backlog O (kademlia s))%nat.
Proof.
  destruct ev as [| | | | |id [|[[r|cs]|e]|[]| |] d]; simpl; intros E; simplify_eq/=; try (split; [done|lia]).
  split; [done|]. destruct (records_to_publish s !! id); [destruct (decide _)|]; simplify_eq/=; try lia.
  destruct (kademlia s); simpl; [|lia]. apply kad_put_backlog.
Qed.

Lemma kad_round_core s :
  match kad_round s with
  | inl s' => core s' = core s ∧ timer s' = timer s ∧ mdns s' = mdns s
  | inr (_, s') => core s' = core s ∧ timer s' = timer s ∧ mdns s' = mdns s
  end.
Proof.
  unfold kad_round. destruct (kademlia s) as [k|]; [|done].
  destruct (kad_poll k) as [[|[]] k']; try done. set (s1 := with_kad (Some k') s).
  pose proof (on_kademlia_event_core event s1) as Hc. by destruct (on_kademlia_event event s1) as [[] s2].
Qed.

Lemma kad_round_rank s s' : kad_round s = inl s' →
  (from_option kad_backlog O (kademlia s') < from_option kad_backlog O (kademlia s))%nat.
Proof.
  unfold kad_round. destruct (kademlia s) as [k|] eqn:Ek; [|done].
  pose proof (kad_poll_backlog k) as Hk. destruct (kad_poll k) as [[|[]] k']; try done.
  destruct (on_kademlia_event _ _) as [[] s2] eqn:E; [done|]. intros [= <-].
  apply on_kademlia_event_passed in E as [Hp Hb]. apply Hk in Hp. simpl in *. lia.
Qed.

Lemma mdns_round_core s :
  match mdns_round (Hd := Hd) (M := M) s with
  | inl s' => core s' = core s ∧ timer s' = timer s
  | inr (Done (_, s')) => core s' = core s ∧ timer s' = timer s
  | inr (Panicked _) => False
  end.
Proof.
  unfold mdns_round. destruct (mdns s) as [m|]; [|done].
  pose proof (mdns_poll_law m) as Hm. destruct (mdns_poll m) as [[|[[]| |? []| |]] m']; try done.
  simpl. destruct (_ <=? _); [done|]. by destruct (_ ++ _).
Qed.

Lemma mdns_round_rank s s' : mdns_round (Hd := Hd) (M := M) s = inl s' →
  (from_option mdns_backlog O (mdns s') < from_option mdns_backlog O (mdns s))%nat.
Proof.
  unfold mdns_round. destruct (mdns s) as [m|] eqn:Em; [|done].
  pose proof (mdns_poll_law m) as Hm. destruct (mdns_poll m) as [[|[[]| |? []| |]] m']; simpl; try done.
  - destruct (_ <=? _); [by intros [= <-]|]. destruct (_ ++ _); [by intros [= <-]|done].
  - by intros [= <-].
Qed.

(** ** A poll *)
Lemma random_loop n now p s : pending_events s = [] → 0 < duration_to_next_kad s →
  ∃ a s1, loop (random_round (Opts := Opts) now p) (2 + n) s = Some (a, s1) ∧
    core s1 = core s ∧ timer s1 = (if fires now s then fired_timer now s else timer s) ∧
    mdns s1 = mdns s ∧ pending_events s1 = [] ∧
    (a = if fires now s && (num_connections s <? discovery_only_if_under_num s)
         then Some (GenerateEvent DoRandomKademliaStarted) else None) ∧
    (a = None → kademlia s1 = kademlia s) ∧
    (a ≠ None → kademlia s1 = kad_get_closest_peers p <$> kademlia s).
Proof.
  intros Hp Hdur. unfold fires. rewrite Hp.
  assert (∀ s1, pending_events s1 = [] →
    match kademlia s1, next_kad_random_query s1 with Some _, Some t => (t <=? now) = false | _, _ => True end →
    random_round (M := M) (Hd := Hd) (Opts := Opts) now p s1 = inr (None, s1)) as Hstop.
  { intros s1 _ Hs1. unfold random_round. destruct (kademlia s1), (next_kad_random_query s1); try done. by rewrite Hs1. }
  destruct (kademlia s) as [k|] eqn:Ek, (next_kad_random_query s) as [t|] eqn:Et;
    [destruct (t <=? now) eqn:Ef|..];
    try (eexists None, s; simpl; rewrite Hstop by (rewrite ?Ek, ?Et; done); by rewrite ?Ek).
  cbn [loop Nat.add]. unfold random_round at 1. rewrite Ek, Et, Ef.
  destruct (num_connections s <? discovery_only_if_under_num s); simpl.
  - eexists _, _. split; [done|]. by rewrite ?Ek.
  - eexists None, _. rewrite Hstop; [|done|].
    + split; [done|]. by rewrite ?Ek.
    + simpl. rewrite Ek. apply Z.leb_gt. lia.
Qed.

Lemma kad_loop rounds s : (from_option kad_backlog O (kademlia s) < rounds)%nat →
  ∃ a s', loop kad_round rounds s = Some (a, s') ∧ core s' = core s ∧ timer s' = timer s ∧ mdns s' = mdns s.
Proof.
  intros Hr. destruct (loop_ranked kad_round (λ s, from_option kad_backlog O (kademlia s)) kad_round_rank rounds s Hr)
    as [[a s'] E].
  exists a, s'. split; [done|].
  apply (loop_inv kad_round (λ s1, core s1 = core s ∧ timer s1 = timer s ∧ mdns s1 = mdns s)
    (λ r, core r.2 = core s ∧ timer r.2 = timer s ∧ mdns r.2 = mdns s)) in E; [done| |done].
  intros s1 (Hs1 & Hs2 & Hs3). pose proof (kad_round_core s1) as Hc. rewrite Hs1, Hs2, Hs3 in Hc.
  by destruct (kad_round s1) as [|[]].
Qed.

Lemma mdns_loop rounds s : (from_option mdns_backlog O (mdns s) < rounds)%nat →
  ∃ a s', loop (mdns_round (Hd := Hd) (M := M)) rounds s = Some (Done (a, s')) ∧ core s' = core s ∧ timer s' = timer s.
Proof.
  intros Hr.
  destruct (loop_ranked _ (λ s, from_option mdns_backlog O (mdns s)) mdns_round_rank rounds s Hr) as [r E].
  apply (loop_inv (mdns_round (Hd := Hd) (M := M)) (λ s1, core s1 = core s ∧ timer s1 = timer s)
    (λ r, ∃ a s', r = Done (a, s') ∧ core s' = core s ∧ timer s' = timer s)) in E as Hq; [|clear E|done].
  - destruct Hq as (a & s' & -> & Hs'). by exists a, s'.
  - intros s1 (Hs1 & Hs2). pose proof (mdns_round_core s1) as Hc. rewrite Hs1, Hs2 in Hc.
    destruct (mdns_round s1) as [|[[]|]]; [done| |done]. eauto.
Qed.

(** Only the random walk reports the start of a query. *)
Abbreviation started := (GenerateEvent DoRandomKademliaStarted) (only parsing).

Lemma on_kademlia_event_out ev s : (on_kademlia_event ev s).1 ≠ Some DoRandomKademliaStarted.
Proof.
  destruct ev as [| | | | |id [|[[r|cs]|e]|[]| |] d]; try done; simpl.
  destruct (records_to_publish s !! id); [destruct (decide _)|]; done.
Qed.

Lemma kad_loop_out rounds s a s' : loop kad_round rounds s = Some (a, s') → pending_events s = [] →
  a ≠ Some started ∧ pending_events s' = [].
Proof.
  intros E Hp. revert E. apply (loop_inv kad_round (λ s, pending_events s = [])
    (λ r, r.1 ≠ Some started ∧ pending_events r.2 = []) ); [|done]. clear. intros s Hp.
  unfold kad_round. destruct (kademlia s) as [k|]; [|done]. destruct (kad_poll k) as [[|[]] k']; try done.
  set (s1 := with_kad (Some k') s). pose proof (on_kademlia_event_out event s1) as Ho.
  assert (pending_events (on_kademlia_event event s1).2 = []) as Hp'.
  { destruct event as [| | | | |id [|[[r|cs]|e]|[]| |] d]; try done; simpl.
    - destruct (kad_has_query _ _); done.
    - destruct (records_to_publish s !! id); [destruct (decide _)|]; done. }
  destruct (on_kademlia_event event s1) as [[o|] s2]; simpl in *; [|done]. split; [|done]. congruence.
Qed.

Lemma mdns_loop_out rounds s a s' : loop (mdns_round (Hd := Hd) (M := M)) rounds s = Some (Done (a, s')) →
  pending_events s = [] → a ≠ Some started.
Proof.
  intros E Hp. apply (loop_inv (mdns_round (Hd := Hd) (M := M)) (λ s, pending_events s = [])
    (λ r, match r with Done (a, _) => a ≠ Some started | _ => True end)) in E; [done| |done]. clear. intros s Hp.
  unfold mdns_round. destruct (mdns s) as [m|]; [|done].
  destruct (mdns_poll m) as [[|[[]| |? []| |]] m']; try done. simpl. rewrite Hp. destruct (_ <=? _); [done|].
  by destruct list as [|[]].
Qed.

Lemma discovery_poll_returns rounds now p s : (poll_bound s ≤ rounds)%nat → 0 < duration_to_next_kad s →
  ∃ a s', poll rounds now p s = Some (Done (a, s')) ∧ core s' = core s ∧
    timer s' = (if fires now s then fired_timer now s else timer s) ∧
    (fires now s && (num_connections s <? discovery_only_if_under_num s) = true →
     a = Some started ∧ kademlia s' = kad_get_closest_peers p <$> kademlia s) ∧
    (pending_events s = [] → fires now s && (num_connections s <? discovery_only_if_under_num s) = false →
     a ≠ Some started).
Proof.
  unfold poll_bound. intros Hr Hdur. unfold poll. destruct (pending_events s) as [|ev rest] eqn:Ep.
  2: { unfold fires. rewrite Ep. eexists _, _. split; [done|]. split; [done|]. split; [done|]. split; [done|]. discriminate. }
  destruct rounds as [|[|n]]; [lia..|].
  destruct (random_loop n now p s Ep Hdur) as (a & s1 & Hl & Hc & Ht & Hm & Hp1 & Ha & Hk & Hk').
  change (2 + n)%nat with (Datatypes.S (Datatypes.S n)) in Hl. rewrite Hl. simpl. destruct a as [a|].
  { eexists _, s1. split; [done|]. split; [done|]. split; [done|].
    destruct (_ && _); simplify_eq/=. split; [|done]. intros _. split; [done|]. by apply Hk'. }
  specialize (Hk eq_refl). rewrite <-Hk, <-Hm in Hr.
  destruct (kad_loop (Datatypes.S (Datatypes.S n)) s1) as (a2 & s2 & E2 & Hc2 & Ht2 & Hm2); [lia|].
  destruct (kad_loop_out _ _ _ _ E2 Hp1) as [Ho2 Hp2].
  rewrite <-Hm2 in Hr. cbn [loop] in E2. simpl. rewrite E2. simpl.
  assert (fires now s && (num_connections s <? discovery_only_if_under_num s) = false) as Hf by (by destruct (_ && _)).
  rewrite Hf. destruct a2 as [a2|].
  { eexists _, s2. split; [done|]. rewrite Hc2, Ht2. by split_and!. }
  destruct (mdns_loop (Datatypes.S (Datatypes.S n)) s2) as (a3 & s3 & E3 & Hc3 & Ht3); [lia|].
  pose proof (mdns_loop_out _ _ _ _ E3 Hp2) as Ho3.
  eexists a3, s3. cbn [loop] in E3. split; [exact E3|].
  rewrite Hc3, Ht3, Hc2, Ht2. by split_and!.
Qed.

(** ** The address book *)
Definition failed_dial (p : PeerId) (a : MA) (event : DiscoveryFromSwarm PeerId EP MA (option Hd) D) : bool :=
  match event with
  | DS_DialFailure (Some p') _ (DialTransport errors) => bool_decide (p' = p ∧ a ∈ errors.*1)
  | _ => false
  end.

(** An address is in the book when it was given after it last failed. *)
Definition book_step (p : PeerId) (a : MA) (known : bool) (i : Input) : bool :=
  match i with
  | InAddKnown p' a' => bool_decide (p' = p ∧ a' = a) || known
  | InSwarm event => negb (failed_dial p a event) && known
  | _ => known
  end.
Definition in_book (tr : list Input) (p : PeerId) (a : MA) : bool := foldl (book_step p a) false tr.

Definition ephemeral (p : PeerId) s : list MA := default [] (ephemeral_addresses s !! p).

Lemma elem_of_drop_errors a (errors : list (MA * D)) (l : list MA) :
  a ∈ foldl (λ (l : list MA) '(addr, _), filter (λ a, a ≠ addr) l) l errors ↔ a ∈ l ∧ a ∉ errors.*1.
Proof.
  revert l. induction errors as [|[e d] errors IH]; intros l; simpl.
  - rewrite elem_of_nil. naive_solver.
  - rewrite IH, list_elem_of_filter, not_elem_of_cons. naive_solver.
Qed.

Lemma NoDup_drop_errors (errors : list (MA * D)) (l : list MA) :
  NoDup l → NoDup (foldl (λ (l : list MA) '(addr, _), filter (λ a, a ≠ addr) l) l errors).
Proof.
  revert l. induction errors as [|[e d] errors IH]; intros l Hl; simpl; [done|]. by apply IH, list.NoDup_filter.
Qed.

Definition book_ok (m : gmap PeerId (list MA)) : Prop := ∀ p l, m !! p = Some l → l ≠ [] ∧ NoDup l.

Lemma drop_failed_ok (p : PeerId) (errors : list (MA * D)) m : book_ok m → book_ok (drop_failed p errors m).
Proof.
  intros Hm q l. unfold drop_failed. destruct (m !! p) as [l0|] eqn:E; [|apply Hm].
  destruct (decide _) as [E0|Hne].
  - intros [_ Hl]%lookup_delete_Some. by apply Hm in Hl.
  - intros [[<- <-]|[_ Hl]]%lookup_insert_Some; [|by apply Hm in Hl]. split; [done|].
    apply NoDup_drop_errors. by eapply Hm.
Qed.

Lemma drop_failed_book (p : PeerId) (errors : list (MA * D)) m q a :
  a ∈ default [] (drop_failed p errors m !! q) ↔ a ∈ default [] (m !! q) ∧ ¬ (p = q ∧ a ∈ errors.*1).
Proof.
  unfold drop_failed. destruct (m !! p) as [l0|] eqn:E.
  - destruct (decide (p = q)) as [<-|Hne].
    + rewrite E. simpl. pose proof (elem_of_drop_errors a errors l0) as He. destruct (decide _) as [E0|_].
      * rewrite E0 in He. rewrite lookup_delete_eq. simpl. rewrite elem_of_nil in *. naive_solver.
      * rewrite lookup_insert_eq. simpl. naive_solver.
    + destruct (decide _); [rewrite lookup_delete_ne by done|rewrite lookup_insert_ne by done]; naive_solver.
  - split; [|naive_solver]. intros Hin. split; [done|]. intros [<- _]. rewrite E in Hin. by apply elem_of_nil in Hin.
Qed.

Lemma add_known_ok p a s : book_ok (ephemeral_addresses s) → book_ok (ephemeral_addresses (add_known_address p a s)).
Proof.
  intros Hm q l. unfold add_known_address. simpl.
  assert (NoDup (default [] (ephemeral_addresses s !! p))) as Hnd.
  { destruct (ephemeral_addresses s !! p) eqn:E; [by eapply Hm|constructor]. }
  destruct (decide _) as [Hin|Hout]; simpl.
  - intros [[<- <-]|[_ Hl]]%lookup_insert_Some; [|by apply Hm in Hl]. split; [|done]. intros E. rewrite E in Hin. by apply elem_of_nil in Hin.
  - rewrite insert_insert_eq. intros [[<- <-]|[_ Hl]]%lookup_insert_Some; [|by apply Hm in Hl].
    split; [by destruct (default _ _)|]. apply NoDup_app. split; [done|]. split; [|by apply NoDup_singleton].
    intros x Hx ->%list_elem_of_singleton. done.
Qed.

Lemma add_known_book p a s q b :
  b ∈ ephemeral q (add_known_address p a s) ↔ (p = q ∧ a = b) ∨ b ∈ ephemeral q s.
Proof.
  unfold ephemeral, add_known_address. simpl. destruct (decide (a ∈ _)) as [Hin|Hout]; simpl.
  - destruct (decide (p = q)) as [<-|Hne]; [rewrite lookup_insert_eq|rewrite lookup_insert_ne by done]; naive_solver.
  - rewrite insert_insert_eq. destruct (decide (p = q)) as [<-|Hne];
      [rewrite lookup_insert_eq; simpl; rewrite elem_of_app, list_elem_of_singleton|rewrite lookup_insert_ne by done];
      naive_solver.
Qed.

(** ** The invariant *)

(** The delay after the [n]-th firing of the timer. *)
Definition walk_delay (n : nat) : Duration := from_secs (Z.min (2 ^ Z.of_nat n) 60).

Lemma walk_delay_pos n : from_secs 1 ≤ walk_delay n ≤ from_secs 60.
Proof. unfold walk_delay, from_secs. pose proof (Z.pow_pos_nonneg 2 (Z.of_nat n)). lia. Qed.

Lemma walk_delay_S n : Z.min (walk_delay n * 2) (from_secs 60) = walk_delay (Datatypes.S n).
Proof.
  unfold walk_delay, from_secs. rewrite Nat2Z.inj_succ, Z.pow_succ_r by lia.
  pose proof (Z.pow_pos_nonneg 2 (Z.of_nat n)). lia.
Qed.

(** The state after a run: [O] are the open connections, [B] the address book
    and [n] the firings of the timer. *)
Record wf (c : DiscoveryConfig PeerId MA) (O : gset nat) (B : PeerId → MA → bool) (n : nat) s : Prop := {
  wf_permanent : permanent_addresses s = dc_permanent_addresses c;
  wf_connections : num_connections s = Z.of_nat (size O);
  wf_count : Z.of_nat (size O) ≤ u64_max;
  wf_lists : book_ok (ephemeral_addresses s);
  wf_book p a : a ∈ ephemeral p s ↔ B p a = true;
  wf_external : ∃ l, known_external_addresses s = inserted MAX_KNOWN_EXTERNAL_ADDRESSES l;
  wf_private : allow_private_ip s = dc_allow_private_ip c;
  wf_limit : discovery_only_if_under_num s = dc_discovery_only_if_under_num c;
  wf_walk : is_Some (next_kad_random_query s) ↔ dc_dht_random_walk c = true;
  wf_delay : duration_to_next_kad s = walk_delay n;
}.

Definition fired (i : Input) s : nat :=
  match i with InPoll _ now _ => if fires now s then 1%nat else O | _ => O end.

Lemma wf_core c O B n s s' : core s' = core s → timer s' = timer s → wf c O B n s → wf c O B n s'.
Proof.
  unfold core, timer. intros [= E1 E2 E3 E4 E5 E6] [= E7 E8] [W1 W2 W3 W4 W5 W6 W7 W8 W9 W10].
  unfold ephemeral in *. constructor; unfold ephemeral; rewrite ?E1, ?E2, ?E3, ?E4, ?E5, ?E6, ?E7, ?E8; done.
Qed.

Lemma wf_book_ext c O B B' n s : (∀ p a, B p a = B' p a) → wf c O B n s → wf c O B' n s.
Proof. intros HB []. constructor; try done. intros p a. by rewrite <-HB. Qed.

Lemma add_known_core p a s :
  let s' := add_known_address p a s in
  core s' = core (with_ephemeral (ephemeral_addresses s') s) ∧ timer s' = timer s.
Proof. unfold add_known_address. by destruct (decide _). Qed.

Lemma wf_ephemeral c O B B' n m s :
  book_ok m → (∀ p a, a ∈ default [] (m !! p) ↔ B' p a = true) → wf c O B n s → wf c O B' n (with_ephemeral m s).
Proof. intros Hm HB []. by constructor. Qed.

Lemma wf_swarm c O B n e s : wf c O B n s → wf c O B n (kad_swarm_event e s).
Proof. by apply wf_core. Qed.

Lemma step_swarm_wf c O B n event s : wf c O B n s → legal (InSwarm event) O s →
  ∃ s', on_swarm_event event s = Done s' ∧
    wf c (opened (InSwarm event) O) (λ p a, book_step p a (B p a) (InSwarm event)) n s'.
Proof.
  intros W Hl. pose proof (wf_connections _ _ _ _ _ W) as Hn. pose proof (wf_count _ _ _ _ _ W) as Hmax.
  destruct event as [? cid ?|? cid ? ? ?|peer ? [errors|e]| | | | | | |addr| |]; simpl in Hl;
    try (eexists; split; [done|]; by apply wf_swarm).
  - destruct Hl as [Hnew Hlt]. simpl. unfold u64_add. rewrite (proj2 (Z.leb_le _ _)) by lia.
    eexists. split; [done|]. apply wf_swarm. destruct W. constructor; try done; simpl;
      rewrite size_union, size_singleton by set_solver; lia.
  - simpl. unfold u64_sub. assert (0 < size O)%nat as Hpos.
    { apply Nat.neq_0_lt_0. intros He%size_empty_inv. clear -Hl He. set_solver. }
    rewrite (proj2 (Z.leb_le _ _)) by lia. eexists. split; [done|]. apply wf_swarm.
    assert (size (O ∖ {[cid]}) = size O - 1)%nat as Hsz.
    { rewrite size_difference by set_solver. by rewrite size_singleton. }
    destruct W. constructor; try done; simpl; rewrite Hsz; lia.
  - destruct peer as [peer|]; (eexists; split; [done|]; apply wf_swarm); simpl.
    + eapply wf_ephemeral; [apply drop_failed_ok; apply W| |exact W]. intros p a. rewrite drop_failed_book.
      pose proof (wf_book _ _ _ _ _ W p a) as Hb. unfold ephemeral in Hb. rewrite Hb, andb_true_iff, negb_true_iff.
      rewrite bool_decide_eq_false. naive_solver.
    + by eapply wf_book_ext; [|exact W].
  - destruct peer; by (eexists; split; [done|]; apply wf_swarm).
  - simpl. eexists. split; [done|]. apply wf_swarm. destruct (can_add_to_dht addr); [|done].
    destruct W as [? ? ? ? ? [l Hl'] ? ? ? ?]. constructor; try done. simpl. rewrite Hl'.
    eexists (l ++ [_]). unfold inserted. by rewrite foldl_app.
Qed.

Lemma self_reported_core p l a s :
  core (add_self_reported_address p l a s) = core s ∧ timer (add_self_reported_address p l a s) = timer s.
Proof.
  unfold add_self_reported_address. destruct (kademlia s); [|done]. destruct (_ && _); [done|].
  by destruct (existsb _ _).
Qed.

Lemma put_value_core k v s : core (put_value k v s) = core s ∧ timer (put_value k v s) = timer s.
Proof. unfold put_value. destruct (kademlia s); [|done]. by destruct (kad_put_record _ _ _) as [[] ?]. Qed.

Lemma new_handler_core s : core (new_handler s).2 = core s ∧ timer (new_handler s).2 = timer s.
Proof. unfold new_handler. destruct (kademlia s); [|done]. by destruct (kad_new_handler _). Qed.

Lemma addresses_core p s : core (addresses_of_peer p s).2 = core s ∧ timer (addresses_of_peer p s).2 = timer s.
Proof.
  unfold addresses_of_peer. destruct (kademlia s); [destruct (kad_addresses_of_peer _ _)|]; simpl;
    (destruct (mdns s); [destruct (mdns_addresses_of_peer _ _)|]; done).
Qed.

Lemma step_wf c O B n i s : wf c O B n s → legal i O s →
  ∃ s', step i s = Some (Done s') ∧ wf c (opened i O) (λ p a, book_step p a (B p a) i) (n + fired i s) s'.
Proof.
  intros W Hl. destruct i as [p a|p l a|k|k v|e|p cid e| |p|rounds now p]; simpl fired; rewrite ?Nat.add_0_r.
  - eexists. split; [done|]. destruct (add_known_core p a s) as [Hc Ht].
    eapply wf_core; [exact Hc|exact Ht|]. eapply wf_ephemeral; [by apply add_known_ok, W| |exact W].
    intros q b. pose proof (add_known_book p a s q b) as Hb. unfold ephemeral in Hb at 1. rewrite Hb.
    simpl. rewrite orb_true_iff, bool_decide_eq_true, (wf_book _ _ _ _ _ W). done.
  - eexists. split; [done|]. eapply wf_core; [apply self_reported_core..|exact W].
  - eexists. split; [done|]. by eapply wf_core; [..|exact W].
  - eexists. split; [done|]. eapply wf_core; [apply put_value_core..|exact W].
  - destruct (step_swarm_wf c O B n e s W Hl) as (s' & E & W'). exists s'. simpl. by rewrite E.
  - eexists. split; [done|]. by eapply wf_core; [..|exact W].
  - eexists. split; [done|]. eapply wf_core; [apply new_handler_core..|exact W].
  - eexists. split; [done|]. eapply wf_core; [apply addresses_core..|exact W].
  - pose proof (walk_delay_pos n) as Hpos. rewrite <-(wf_delay _ _ _ _ _ W) in Hpos. simpl in Hl.
    destruct (discovery_poll_returns rounds now p s Hl) as (act & s' & E & Hc & Ht & _); [unfold from_secs in Hpos; lia|].
    exists s'. split; [simpl; by rewrite E|]. simpl. destruct (fires now s) eqn:Ef.
    + eapply (wf_core _ _ _ _ (with_timer (fired_timer now s).1 (fired_timer now s).2 s)); [exact Hc|exact Ht|].
      rewrite Nat.add_1_r. destruct W. constructor; try done; simpl.
      * unfold fires in Ef. destruct (pending_events s), (kademlia s), (next_kad_random_query s); try done.
        split; [|done]. intros _. by apply wf_walk0.
      * rewrite <-walk_delay_S. congruence.
    + rewrite Nat.add_0_r. by eapply wf_core.
Qed.

Definition open_after (tr : list Input) : gset nat := foldl (λ O i, opened i O) ∅ tr.

(** The firings of the timer of the random walk in a run. *)
Fixpoint firings (tr : list Input) s : nat :=
  match tr with
  | [] => O
  | i :: tr =>
      (fired i s + match step i s with
                   | Some (Done s') => firings tr s'
                   | _ => O
                   end)%nat
  end.

Lemma run_wf c tr O B n s : wf c O B n s → legal_run tr O s →
  ∃ s', run tr s = Some (Done s') ∧
    wf c (foldl (λ O i, opened i O) O tr) (λ p a, foldl (book_step p a) (B p a) tr) (n + firings tr s) s'.
Proof.
  revert O B n s. induction tr as [|i tr IH]; intros O B n s W; simpl.
  { intros _. exists s. by rewrite Nat.add_0_r. }
  intros [Hi Htr]. destruct (step_wf c O B n i s W Hi) as (s1 & E & W1). rewrite E in Htr |- *.
  destruct (IH _ _ _ _ W1 Htr) as (s2 & E2 & W2). exists s2. by rewrite Nat.add_assoc.
Qed.

Lemma finish_wf c now md : wf c ∅ (λ _ _, false) 0 (finish now md c).
Proof.
  constructor; try done.
  - intros p a. unfold ephemeral. simpl. rewrite lookup_empty. simpl. rewrite elem_of_nil. done.
  - by exists [].
  - simpl. destruct (dc_dht_random_walk c); split; try done; by intros [? ?].
Qed.

Lemma finish_run c now md tr : legal_run tr ∅ (finish now md c) →
  ∃ s, run tr (finish now md c) = Some (Done s) ∧ wf c (open_after tr) (in_book tr) (firings tr (finish now md c)) s.
Proof. intros Hl. destruct (run_wf c tr _ _ _ _ (finish_wf c now md) Hl) as (s & E & W). eauto. Qed.

(** C21: from the state [finish] creates, every legal sequence of calls, swarm
    events and polls runs to its end without a panic, each poll returning, and
    leaves a state within its bounds: the counter is the number of open
    connections and neither overflows nor underflows, the permanent addresses
    are the configured ones, no peer has an empty or repeating list of
    ephemeral addresses, the delay of the random walk is between one second and
    a minute and a timer is there exactly when the walk is enabled, and fewer
    than 32 external addresses are remembered. *)
Theorem discovery_runs (c : DiscoveryConfig PeerId MA) (now : Instant) (md : result Md D) (tr : list Input) :
  legal_run tr ∅ (finish now md c) →
  ∃ s, run tr (finish now md c) = Some (Done s) ∧
    num_connections s = Z.of_nat (size (open_after tr)) ∧ is_u64 (num_connections s) ∧
    permanent_addresses s = dc_permanent_addresses c ∧
    (∀ p l, ephemeral_addresses s !! p = Some l → l ≠ [] ∧ NoDup l) ∧
    from_secs 1 ≤ duration_to_next_kad s ≤ from_secs 60 ∧
    (is_Some (next_kad_random_query s) ↔ dc_dht_random_walk c = true) ∧
    (ls_len (lru_set (known_external_addresses s)) < 32)%nat.
Proof.
  intros (s & E & W)%finish_run. exists s. split; [done|].
  split; [apply W|]. split; [rewrite (wf_connections _ _ _ _ _ W); unfold is_u64; pose proof (wf_count _ _ _ _ _ W); lia|].
  split; [apply W|]. split; [apply W|]. split; [rewrite (wf_delay _ _ _ _ _ W); apply walk_delay_pos|].
  split; [apply W|]. destruct (wf_external _ _ _ _ _ W) as [l ->].
  destruct (inserted_recent MAX_KNOWN_EXTERNAL_ADDRESSES l) as [Hr Hl]. unfold holds_recent in Hr.
  rewrite ls_len_iter, Hr, Hl, length_reverse. unfold most_recent. rewrite length_take.
  change (Nat.pred (Pos.to_nat MAX_KNOWN_EXTERNAL_ADDRESSES)) with 31%nat. lia.
Qed.

(** What [addresses_of_peer] takes from Kademlia and mDNS. *)
Definition found_addresses (p : PeerId) s : list MA :=
  from_option (λ k, (kad_addresses_of_peer p k).1) [] (kademlia s) ++
  from_option (λ m, (mdns_addresses_of_peer p m).1) [] (mdns s).

Lemma addresses_of_peer_eq p s :
  (addresses_of_peer p s).1 =
    omap (λ '(q, a), if decide (q = p) then Some a else None) (permanent_addresses s) ++ ephemeral p s ++
    (if allow_private_ip s then found_addresses p s else filter (λ a, not_private a = true) (found_addresses p s)).
Proof.
  unfold addresses_of_peer, found_addresses, ephemeral.
  destruct (kademlia s) as [k|]; simpl; [destruct (kad_addresses_of_peer p k)|]; simpl;
    (destruct (mdns s) as [m|]; simpl; [destruct (mdns_addresses_of_peer p m)|]; simpl;
     by rewrite ?app_nil_r, <-?app_assoc).
Qed.

(** C22: the addresses of a peer after any legal run are its permanent
    addresses, in the configured order, followed by the addresses given by
    [add_known_address] that no dial has failed on since, each once, followed by
    what Kademlia and mDNS know, without the private addresses when these are
    not allowed. *)
Theorem discovery_address_book (c : DiscoveryConfig PeerId MA) (now : Instant) (md : result Md D) (tr : list Input) :
  legal_run tr ∅ (finish now md c) →
  ∃ s, run tr (finish now md c) = Some (Done s) ∧
    ∀ p, ∃ given found,
      (addresses_of_peer p s).1 =
        omap (λ '(q, a), if decide (q = p) then Some a else None) (dc_permanent_addresses c) ++ given ++ found ∧
      NoDup given ∧ (∀ a, a ∈ given ↔ in_book tr p a = true) ∧
      (dc_allow_private_ip c = true → found = found_addresses p s) ∧
      (dc_allow_private_ip c = false → ∀ a, a ∈ found ↔ a ∈ found_addresses p s ∧ not_private a = true).
Proof.
  intros (s & E & W)%finish_run. exists s. split; [done|]. intros p. rewrite addresses_of_peer_eq.
  rewrite (wf_permanent _ _ _ _ _ W), (wf_private _ _ _ _ _ W).
  eexists (ephemeral p s), _. split; [done|]. split.
  { unfold ephemeral. destruct (ephemeral_addresses s !! p) eqn:Ep; [|constructor]. by eapply W. }
  split; [apply W|]. split; intros ->; [done|]. intros a. rewrite list_elem_of_filter. naive_solver.
Qed.

(** The random walk of the DHT backs off exponentially: after a run in which
    the timer fired [n] times the next delay is [min (2^n) 60] seconds. A poll
    at which it fires (it is due, Kademlia is enabled and no event is waiting)
    sets the timer to that delay from now; it starts a query for the random
    peer and reports it exactly when there are fewer connections than the
    limit. Other polls leave the timer as it is. *)
Theorem random_walk_schedule (c : DiscoveryConfig PeerId MA) (now : Instant) (md : result Md D) (tr : list Input)
    (rounds : nat) (t : Instant) (random_peer_id : PeerId) :
  legal_run (tr ++ [InPoll rounds t random_peer_id]) ∅ (finish now md c) →
  ∃ s a s', run tr (finish now md c) = Some (Done s) ∧
    poll rounds t random_peer_id s = Some (Done (a, s')) ∧
    duration_to_next_kad s = from_secs (Z.min (2 ^ Z.of_nat (firings tr (finish now md c))) 60) ∧
    if fires t s then
      next_kad_random_query s' = Some (t + duration_to_next_kad s) ∧
      duration_to_next_kad s' = from_secs (Z.min (2 ^ Z.of_nat (Datatypes.S (firings tr (finish now md c)))) 60) ∧
      (if num_connections s <? dc_discovery_only_if_under_num c then
         a = Some (GenerateEvent DoRandomKademliaStarted) ∧
         kademlia s' = kad_get_closest_peers random_peer_id <$> kademlia s
       else a ≠ Some (GenerateEvent DoRandomKademliaStarted))
    else next_kad_random_query s' = next_kad_random_query s ∧ duration_to_next_kad s' = duration_to_next_kad s.
Proof.
  intros Hl.
  assert (∀ tr O s, legal_run (tr ++ [InPoll rounds t random_peer_id]) O s →
    legal_run tr O s ∧ ∀ s', run tr s = Some (Done s') → (poll_bound s' ≤ rounds)%nat) as Hsplit.
  { clear. intros tr. induction tr as [|i tr IH]; intros O s; simpl; [naive_solver|].
    intros [Hi Hrest]. destruct (step i s) as [[s1|]|]; [|naive_solver..]. apply IH in Hrest. naive_solver. }
  apply Hsplit in Hl as [Hl Hbound]. apply finish_run in Hl as (s & E & W). specialize (Hbound s E).
  pose proof (walk_delay_pos (firings tr (finish now md c))) as Hpos. rewrite <-(wf_delay _ _ _ _ _ W) in Hpos.
  destruct (discovery_poll_returns rounds t random_peer_id s Hbound) as (a & s' & Ep & _ & Ht & Hq & Hn);
    [unfold from_secs in Hpos; lia|].
  exists s, a, s'. split; [done|]. split; [done|]. split; [apply W|].
  rewrite (wf_limit _ _ _ _ _ W) in *. destruct (fires t s) eqn:Ef; unfold timer, fired_timer in Ht;
    injection Ht as Ht1 Ht2; rewrite Ht1, Ht2; [|done].
  split; [done|]. split.
  2: { destruct (_ <? _); [by apply Hq|]. apply Hn; [|done]. unfold fires in Ef. by destruct (pending_events s). }
  fold (walk_delay (Datatypes.S (firings tr (finish now md c)))).
  by rewrite <-walk_delay_S, <-(wf_delay _ _ _ _ _ W).
Qed.
End discovery_facts.

(** ** A run
    Addresses are lists of components; Kademlia reports the events its handlers
    hand it, and remembers the addresses it is given. *)
Definition Addr := list (Component nat).
#[local] Instance Component_nat_eq_dec : EqDecision (Component nat).
Proof. solve_decision. Defined.
#[local] Instance Addr_eq_dec : EqDecision Addr := list_eq_dec.
#[local] Instance list_addr : Multiaddr nat nat Addr := {|
  ma_parse _ := Err "unsupported"%string; ma_display _ := ""%string; ma_collect l := l;
  ma_pop a := (last a, removelast a); ma_with a c := a ++ [c]; ma_is_empty a := bool_decide (a = []);
  from_multihash k := Some k; to_multihash p := p;
|}.
#[local] Instance list_addr_iter : AddressIter nat Addr := λ a, a.
#[local] Instance private_ten : IpNetwork := {| ip4_is_global a _ _ _ := negb (a =? 10); ip6_is_global _ := true |}.

Record DemoKad := mkDemoKad { dk_names : list bytes; dk_events : list (KademliaEvent nat nat); dk_addrs : list (nat * Addr) }.
#[local] Instance demo_kademlia : Kademlia nat nat Addr nat DemoKad unit unit (KademliaEvent nat nat) unit unit := {|
  kad_with_config _ c := mkDemoKad (kc_protocol_names c) [] [];
  kad_protocol_names := dk_names;
  kad_add_address p a k := mkDemoKad (dk_names k) (dk_events k) ((p, a) :: dk_addrs k);
  kad_get_record _ k := k;
  kad_put_record _ _ k := (Ok tt, k);
  kad_put_record_to _ _ _ k := k;
  kad_get_closest_peers _ k := k;
  kad_has_query _ _ := false;
  kad_query_finish _ k := k;
  kad_kbuckets k := [(Some 3, (dk_addrs k).*1)];
  kad_records _ := [];
  kad_new_handler k := (tt, k);
  kad_addresses_of_peer p k := ((filter (λ x, x.1 = p) (dk_addrs k)).*2, k);
  kad_on_swarm_event _ k := k;
  kad_on_connection_handler_event _ _ e k := mkDemoKad (dk_names k) (dk_events k ++ [e]) (dk_addrs k);
  kad_poll k := match dk_events k with
                | [] => (Pending, k)
                | e :: l => (Ready (GenerateEvent e), mkDemoKad (dk_names k) l (dk_addrs k))
                end;
|}.
#[local] Instance demo_kademlia_laws : KademliaLaws nat nat Addr nat DemoKad unit unit (KademliaEvent nat nat) unit unit.
Proof.
  refine {| kad_backlog k := length (dk_events k) |}; [|done].
  intros [ns [|e l] m]; simpl; [done|]. intros _. lia.
Defined.
#[local] Instance demo_mdns : Mdns nat Addr (list (list (nat * Addr))) unit := {|
  mdns_addresses_of_peer _ m := ([], m);
  mdns_poll m := match m with [] => (Pending, []) | l :: m => (Ready (GenerateEvent (MdnsDiscovered l)), m) end;
|}.
#[local] Instance demo_mdns_laws : MdnsLaws nat Addr (list (list (nat * Addr))) unit.
Proof. refine {| mdns_backlog := length |}. intros [|l m]; simpl; [done|lia]. Defined.
#[local] Instance addr_set : LinkedHashSet Addr (list Addr) := {|
  ls_new := [];
  ls_insert e s := (bool_decide (e ∉ s), filter (λ x, x ≠ e) s ++ [e]);
  ls_len := length;
  ls_pop_front s := (head s, tail s);
  ls_iter s := s;
|}.
#[local] Instance addr_set_laws : LinkedHashSetLaws Addr (list Addr).
Proof. by constructor. Qed.

Definition public_addr : Addr := [Ip4 8 8 8 8; Tcp 30333].
Definition private_addr : Addr := [Ip4 10 0 0 1; Tcp 30333].
Definition dns_addr : Addr := [Dns "example.org"; Tcp 30333].

Definition demo_config : DiscoveryConfig nat Addr :=
  config_allow_private_ip false (discovery_limit 2 (with_permanent_addresses [(1%nat, private_addr)]
    (with_kademlia (λ _, "00"%string) [] [] (config_new O)))).
Definition demo_start := finish (Md := list (list (nat * Addr))) (S := list Addr) (D := unit) 0 (Err tt) demo_config.
Abbreviation demo_input := (Input (PeerId := nat) (MA := Addr) (EP := nat) (Hd := unit) (HE := KademliaEvent nat nat) (D := unit)).

(** Two addresses are given and announced, one of them fails; Kademlia finds a
    peer, and the second connection reaches the limit of the random walk. *)
Definition demo_run : list demo_input :=
  [InAddKnown 1%nat public_addr; InAddKnown 1%nat dns_addr; InAddKnown 1%nat dns_addr;
   InSwarm (DS_ConnectionEstablished 1%nat 7%nat O); InPoll 9 0 5%nat; InPoll 9 0 5%nat; InPoll 9 0 5%nat;
   InSwarm (DS_DialFailure (Some 1%nat) None (DialTransport [(public_addr, tt); (private_addr, tt)]));
   InHandler 3%nat 7%nat (PendingRoutablePeer 3%nat); InHandler 3%nat 7%nat (RoutingUpdated 3%nat);
   InPoll 9 0 5%nat; InSwarm (DS_ConnectionEstablished 2%nat 8%nat O);
   InSwarm (DS_NewExternalAddr public_addr); InAddresses 1%nat].

Abbreviation demo_state := (Discovery.DiscoveryBehaviour nat Addr nat DemoKad (list (list (nat * Addr))) (list Addr)).

Definition legal_b (i : demo_input) (O : gset nat) (s : demo_state) : bool :=
  match i with
  | InSwarm (DS_ConnectionEstablished _ c _) => bool_decide (c ∉ O) && (Z.of_nat (size O) <? u64_max)
  | InSwarm (DS_ConnectionClosed _ c _ _ _) => bool_decide (c ∈ O)
  | InPoll rounds _ _ => (poll_bound s <=? rounds)%nat
  | _ => true
  end.
Fixpoint legal_run_b (tr : list demo_input) (O : gset nat) (s : demo_state) : bool :=
  match tr with
  | [] => true
  | i :: tr =>
      legal_b i O s &&
      match step i s with Some (Done s') => legal_run_b tr (opened i O) s' | _ => true end
  end.
Lemma legal_run_b_sound tr O s : legal_run_b tr O s = true → legal_run tr O s.
Proof.
  revert O s. induction tr as [|i tr IH]; intros O s; [done|]. simpl. intros [Hi Hr]%andb_true_iff. split.
  - destruct i as [| | | |[]| | | |]; cbn [legal_b legal] in *; try done.
    + apply andb_true_iff in Hi as [?%bool_decide_eq_true ?%Z.ltb_lt]. done.
    + by apply bool_decide_eq_true in Hi.
    + by apply Nat.leb_le in Hi.
  - destruct (step i s) as [[]|]; try done. by apply IH.
Qed.

Lemma demo_legal : legal_run_b (demo_run ++ [InPoll 9 (from_secs 1) 5%nat]) ∅ demo_start = true.
Proof. vm_compute. done. Qed.
Lemma demo_run_legal : legal_run_b demo_run ∅ demo_start = true.
Proof. vm_compute. done. Qed.

Lemma discovery_runs_witness :
  ∃ s, run demo_run demo_start = Some (Done s) ∧ num_connections s = 2 ∧
    (ls_len (lru_set (known_external_addresses s)) < 32)%nat.
Proof.
  destruct (discovery_runs demo_config 0 (Err tt) demo_run) as (s & E & Hn & _ & _ & _ & _ & _ & Hl).
  - apply legal_run_b_sound, demo_run_legal.
  - exists s. split; [exact E|]. split; [|exact Hl]. rewrite Hn. vm_compute. reflexivity.
Defined.

(** The public address has failed, and the private one is permanent. *)
Lemma discovery_address_book_witness :
  ∃ s, run demo_run demo_start = Some (Done s) ∧
    in_book demo_run 1%nat dns_addr = true ∧ in_book demo_run 1%nat public_addr = false ∧
    ∃ given found, (addresses_of_peer 1%nat s).1 = [private_addr] ++ given ++ found ∧
      dns_addr ∈ given ∧ private_addr ∉ found.
Proof.
  destruct (discovery_address_book demo_config 0 (Err tt) demo_run) as (s & E & Hs).
  - apply legal_run_b_sound, demo_run_legal.
  - exists s. split; [exact E|]. split; [vm_compute; reflexivity|]. split; [vm_compute; reflexivity|].
    destruct (Hs 1%nat) as (given & found & Ha & _ & Hg & _ & Hf). exists given, found. split; [exact Ha|].
    split; [apply Hg; vm_compute; reflexivity|]. intros Hin. apply (Hf eq_refl) in Hin as [_ Hin]. discriminate Hin.
Defined.

(** The timer has fired once; the next poll sets it to two seconds, and does not
    start a query. *)
Lemma random_walk_schedule_witness :
  ∃ s a s', run demo_run demo_start = Some (Done s) ∧ poll 9 (from_secs 1) 5%nat s = Some (Done (a, s')) ∧
    next_kad_random_query s' = Some (from_secs 3) ∧ a ≠ Some (GenerateEvent DoRandomKademliaStarted).
Proof.
  destruct (random_walk_schedule demo_config 0 (Err tt) demo_run 9 (from_secs 1) 5%nat) as (s & a & s' & E & Ep & _ & Hf).
  - apply legal_run_b_sound, demo_legal.
  - exists s, a, s'. split; [exact E|]. split; [exact Ep|].
    assert (run demo_run demo_start = Some (Done s)) as E' by exact E. clear E. vm_compute in E'. injection E' as <-.
    vm_compute in Hf. destruct Hf as (H1 & _ & H2). split; [exact H1|exact H2].
Defined.

(** An address given by [add_known_address] does not stay when a dial to it
    fails. *)
Example known_address_can_expire :
  let tr : list demo_input := [InAddKnown 1%nat public_addr;
    InSwarm (DS_DialFailure (Some 1%nat) None (DialTransport [(public_addr, tt)]))] in
  in_book tr 1%nat public_addr = false ∧
  match run tr demo_start with Some (Done s) => ephemeral 1%nat s = [] | _ => False end.
Proof. vm_compute. split; reflexivity. Qed.
