(* ===== verification/PeerInfo.v ===== *)
(** * Information about peers

    Model of [network/peer_info.rs]: what is known of the peers of the node,
    for those it is connected to and, for a while, for those it was connected
    to. The behaviour runs libp2p's [ping] and [identify] side by side and
    keeps what they report; both are behind [InfoBehaviour].

    [Instant::now] reads the clock, a parameter; the record counts the reads.
    How often the timer of the garbage collection has fired is an argument of
    [poll]. *)

From S2P Require Import Prelude PeersState Peerset Notifications Wire RequestResponses Config Protocol NetBehaviour.
Import RequestResponses(Action, GenerateEvent, Dial, NotifyHandler, ReportObservedAddr, CloseConnection).

(** [FromSwarm], with endpoints [EP], handlers [Hd] and the payload [D] of what
    is only passed on. *)
Inductive SwarmInfo (PeerId EP Hd D : Type) :=
  | SI_ConnectionEstablished (peer_id : PeerId) (connection_id : nat) (endpoint : EP)
  | SI_ConnectionClosed (peer_id : PeerId) (connection_id : nat) (endpoint : EP) (handler : Hd)
      (remaining_established : nat)
  | SI_DialFailure (peer_id : option PeerId) (handler : Hd) (error : D)
  | SI_ListenerClosed (e : D)
  | SI_ListenFailure (addresses : D) (handler : Hd)
  | SI_ListenerError (e : D)
  | SI_ExpiredExternalAddr (e : D)
  | SI_NewListener (e : D)
  | SI_ExpiredListenAddr (e : D)
  | SI_NewExternalAddr (e : D)
  | SI_AddressChange (peer_id : PeerId) (connection_id : nat) (old new : EP)
  | SI_NewListenAddr (e : D).
Arguments SI_ConnectionEstablished {PeerId EP Hd D}.
Arguments SI_ConnectionClosed {PeerId EP Hd D}.
Arguments SI_DialFailure {PeerId EP Hd D}.
Arguments SI_ListenerClosed {PeerId EP Hd D}.
Arguments SI_ListenFailure {PeerId EP Hd D}.
Arguments SI_ListenerError {PeerId EP Hd D}.
Arguments SI_ExpiredExternalAddr {PeerId EP Hd D}.
Arguments SI_NewListener {PeerId EP Hd D}.
Arguments SI_ExpiredListenAddr {PeerId EP Hd D}.
Arguments SI_NewExternalAddr {PeerId EP Hd D}.
Arguments SI_AddressChange {PeerId EP Hd D}.
Arguments SI_NewListenAddr {PeerId EP Hd D}.

(** A network behaviour of libp2p with events [Ev]; [Beh] is its state, [M] a
    message for a handler, [HE] an event of one. *)
Class InfoBehaviour (PeerId EP Beh Hd M HE Opts D Ev : Type) := {
  ib_new_handler : Beh → Hd * Beh;
  ib_on_swarm_event : SwarmInfo PeerId EP Hd D → Beh → Beh;
  ib_on_connection_handler_event : PeerId → nat → HE → Beh → Beh;
  ib_poll : Beh → Poll (Action PeerId Ev Hd M Opts) * Beh;
}.

(** Its events come to an end: each one that is reported is one less to come. *)
Class InfoBehaviourLaws (PeerId EP Beh Hd M HE Opts D Ev : Type) `{InfoBehaviour PeerId EP Beh Hd M HE Opts D Ev} := {
  ib_backlog : Beh → nat;
  ib_poll_backlog b :
    match ib_poll b with
    | (Ready (GenerateEvent _), b') => (ib_backlog b' < ib_backlog b)%nat
    | _ => True
    end;
}.

Module PeerInfo.

(** [ping::Event], as far as the code tells them apart, and [identify::Event]. *)
Inductive PingEvent (PeerId : Type) := PingSuccess (peer : PeerId) (rtt : Duration) | PingOther (peer : PeerId).
Arguments PingSuccess {PeerId}.
Arguments PingOther {PeerId}.
Inductive IdentifyEvent (PeerId MA : Type) :=
  | Received (peer_id : PeerId) (info : NetBehaviour.IdentifyInfo MA)
  | IdentifyError (peer_id : PeerId)
  | Pushed (peer_id : PeerId)
  | Sent (peer_id : PeerId).
Arguments Received {PeerId MA}.
Arguments IdentifyError {PeerId MA}.
Arguments Pushed {PeerId MA}.
Arguments Sent {PeerId MA}.

Definition CACHE_EXPIRE : Duration := from_secs (10 * 60).
Definition GARBAGE_COLLECT_INTERVAL : Duration := from_secs (2 * 60).

Section peer_info.
Context {PeerId : Type} `{Countable PeerId, !HashOrder PeerId} {EP : Type} `{EqDecision EP} {MA : Type}.
Context {P Hp Mp HEp I Hi Mi HEi Opts D : Type}.
Context `{IP : InfoBehaviour PeerId EP P Hp Mp HEp Opts D (PingEvent PeerId)}.
Context `{II : InfoBehaviour PeerId EP I Hi Mi HEi Opts D (IdentifyEvent PeerId MA)}.
Context (clock : nat → Instant).

Record NodeInfo := mkNodeInfo {
  info_expire : option Instant;
  endpoints : list EP;
  client_version : option string;
  latest_ping : option Duration;
}.

Definition NodeInfo_new (endpoint : EP) : NodeInfo := mkNodeInfo None [endpoint] None None.

Record PeerInfoBehaviour := mkPeerInfo {
  ping : P;
  identify : I;
  nodes_info : gmap PeerId NodeInfo;
  reads : nat;
}.
Implicit Types (s : PeerInfoBehaviour).

Definition with_ping (x : P) s : PeerInfoBehaviour := mkPeerInfo x (identify s) (nodes_info s) (reads s).
Definition with_identify (x : I) s : PeerInfoBehaviour := mkPeerInfo (ping s) x (nodes_info s) (reads s).
Definition with_nodes (x : gmap PeerId NodeInfo) s : PeerInfoBehaviour := mkPeerInfo (ping s) (identify s) x (reads s).

Definition now s : Instant * PeerInfoBehaviour :=
  (clock (reads s), mkPeerInfo (ping s) (identify s) (nodes_info s) (S (reads s))).

Definition new (p : P) (i : I) : PeerInfoBehaviour := mkPeerInfo p i ∅ 0.

(** [node], with the three methods of [Node]. *)
Definition node (peer_id : PeerId) s : option NodeInfo := nodes_info s !! peer_id.
Definition endpoint (n : NodeInfo) : option EP := head (endpoints n).

Definition handle_ping_report (peer_id : PeerId) (ping_time : Duration) s : PeerInfoBehaviour :=
  match nodes_info s !! peer_id with
  | Some e => with_nodes (<[peer_id := mkNodeInfo (info_expire e) (endpoints e) (client_version e) (Some ping_time)]>
                            (nodes_info s)) s
  | None => s
  end.

Definition handle_identify_report (peer_id : PeerId) (info : NetBehaviour.IdentifyInfo MA) s : PeerInfoBehaviour :=
  match nodes_info s !! peer_id with
  | Some e => with_nodes (<[peer_id := mkNodeInfo (info_expire e) (endpoints e)
                                         (Some (NetBehaviour.id_agent_version info)) (latest_ping e)]> (nodes_info s)) s
  | None => s
  end.

(** The handlers of [ping] and [identify] side by side. *)
Definition new_handler s : (Hp * Hi) * PeerInfoBehaviour :=
  let '(hp, p) := ib_new_handler (ping s) in
  let '(hi, i) := ib_new_handler (identify s) in
  ((hp, hi), with_identify i (with_ping p s)).

(** ** Events of the swarm *)

Definition on_connection_established (peer_id : PeerId) (ep : EP) s : PeerInfoBehaviour :=
  match nodes_info s !! peer_id with
  | None => with_nodes (<[peer_id := NodeInfo_new ep]> (nodes_info s)) s
  | Some e =>
      let '(expired, s) := match info_expire e with
                           | Some exp => let '(t, s) := now s in (exp <? t, s)
                           | None => (false, s)
                           end in
      let (version, ping_time) := if expired then (None, None) else (client_version e, latest_ping e) in
      with_nodes (<[peer_id := mkNodeInfo None (endpoints e ++ [ep]) version ping_time]> (nodes_info s)) s
  end.

Definition on_connection_closed (peer_id : PeerId) (ep : EP) (remaining_established : nat) s : PeerInfoBehaviour :=
  match nodes_info s !! peer_id with
  | None => s
  | Some e =>
      let '(expire, s) := match remaining_established with
                          | O => let '(t, s) := now s in (Some (t + CACHE_EXPIRE), s)
                          | S _ => (info_expire e, s)
                          end in
      with_nodes (<[peer_id := mkNodeInfo expire (filter (λ x, x ≠ ep) (endpoints e)) (client_version e) (latest_ping e)]>
                    (nodes_info s)) s
  end.

(** [iter_mut().find(|e| e == old)], then the assignment. *)
Fixpoint replace_first (old new : EP) (l : list EP) : list EP :=
  match l with
  | [] => []
  | x :: l => if decide (x = old) then new :: l else x :: replace_first old new l
  end.

Definition on_address_change (peer_id : PeerId) (old new : EP) s : PeerInfoBehaviour :=
  match nodes_info s !! peer_id with
  | None => s
  | Some e => with_nodes (<[peer_id := mkNodeInfo (info_expire e) (replace_first old new (endpoints e))
                                         (client_version e) (latest_ping e)]> (nodes_info s)) s
  end.

(** The event with one of the handlers. *)
Definition map_handler {Hd Hd'} (f : Hd → Hd') (event : SwarmInfo PeerId EP Hd D) : SwarmInfo PeerId EP Hd' D :=
  match event with
  | SI_ConnectionEstablished p c ep => SI_ConnectionEstablished p c ep
  | SI_ConnectionClosed p c ep h n => SI_ConnectionClosed p c ep (f h) n
  | SI_DialFailure p h e => SI_DialFailure p (f h) e
  | SI_ListenerClosed e => SI_ListenerClosed e
  | SI_ListenFailure a h => SI_ListenFailure a (f h)
  | SI_ListenerError e => SI_ListenerError e
  | SI_ExpiredExternalAddr e => SI_ExpiredExternalAddr e
  | SI_NewListener e => SI_NewListener e
  | SI_ExpiredListenAddr e => SI_ExpiredListenAddr e
  | SI_NewExternalAddr e => SI_NewExternalAddr e
  | SI_AddressChange p c old new => SI_AddressChange p c old new
  | SI_NewListenAddr e => SI_NewListenAddr e
  end.

Definition on_swarm_event (event : SwarmInfo PeerId EP (Hp * Hi) D) s : PeerInfoBehaviour :=
  let s := with_ping (ib_on_swarm_event (map_handler fst event) (ping s)) s in
  let s := with_identify (ib_on_swarm_event (map_handler snd event) (identify s)) s in
  match event with
  | SI_ConnectionEstablished peer_id _ ep => on_connection_established peer_id ep s
  | SI_ConnectionClosed peer_id _ ep _ remaining => on_connection_closed peer_id ep remaining s
  | SI_AddressChange peer_id _ old new => on_address_change peer_id old new s
  | _ => s
  end.

(** [EitherOutput] is a sum. *)
Definition on_connection_handler_event (peer_id : PeerId) (connection_id : nat) (event : HEp + HEi) s : PeerInfoBehaviour :=
  match event with
  | inl event => with_ping (ib_on_connection_handler_event peer_id connection_id event (ping s)) s
  | inr event => with_identify (ib_on_connection_handler_event peer_id connection_id event (identify s)) s
  end.

(** ** [poll] *)
Abbreviation OutAction := (Action PeerId (NetBehaviour.PeerInfoEvent PeerId MA) (Hp * Hi) (Mp + Mi) Opts).

(** A round of the first loop, over the events of [ping]; [None] when it is
    left by [break]. *)
Definition ping_round s : PeerInfoBehaviour + (option OutAction * PeerInfoBehaviour) :=
  match ib_poll (ping s) with
  | (Pending, p) => inr (None, with_ping p s)
  | (Ready a, p) =>
      let s := with_ping p s in
      match a with
      | GenerateEvent (PingSuccess peer rtt) => inl (handle_ping_report peer rtt s)
      | GenerateEvent (PingOther _) => inl s
      | Dial opts handler =>
          let '(hi, i) := ib_new_handler (identify s) in
          inr (Some (Dial opts (handler, hi)), with_identify i s)
      | NotifyHandler peer_id event => inr (Some (NotifyHandler peer_id (inl event)), s)
      | ReportObservedAddr address => inr (Some (ReportObservedAddr address), s)
      | CloseConnection peer_id => inr (Some (CloseConnection peer_id), s)
      end
  end.

(** A round of the second loop, over the events of [identify]. *)
Definition identify_round s : PeerInfoBehaviour + (option OutAction * PeerInfoBehaviour) :=
  match ib_poll (identify s) with
  | (Pending, i) => inr (None, with_identify i s)
  | (Ready a, i) =>
      let s := with_identify i s in
      match a with
      | GenerateEvent (Received peer_id info) =>
          inr (Some (GenerateEvent (NetBehaviour.Identified peer_id info)), handle_identify_report peer_id info s)
      | GenerateEvent (IdentifyError _) | GenerateEvent (Pushed _) | GenerateEvent (Sent _) => inl s
      | Dial opts handler =>
          let '(hp, p) := ib_new_handler (ping s) in
          inr (Some (Dial opts (hp, handler)), with_ping p s)
      | NotifyHandler peer_id event => inr (Some (NotifyHandler peer_id (inr event)), s)
      | ReportObservedAddr address => inr (Some (ReportObservedAddr address), s)
      | CloseConnection peer_id => inr (Some (CloseConnection peer_id), s)
      end
  end.

(** [nodes_info.retain(..)]: the entries in the order of the map, reading the
    clock for those that expire. *)
Definition retain_node s (peer_id : PeerId) : PeerInfoBehaviour :=
  match nodes_info s !! peer_id ≫= info_expire with
  | Some exp =>
      let '(t, s) := now s in
      if t <=? exp then s else with_nodes (delete peer_id (nodes_info s)) s
  | None => s
  end.
Definition collect s : PeerInfoBehaviour := foldl retain_node s (hash_keys (dom (nodes_info s))).

(** [None] when the rounds do not suffice; the timer has fired [ticks] times. *)
Definition poll (rounds ticks : nat) s : option (option OutAction * PeerInfoBehaviour) :=
  match loop ping_round rounds s with
  | None => None
  | Some (Some a, s) => Some (Some a, s)
  | Some (None, s) =>
      match loop identify_round rounds s with
      | None => None
      | Some (Some a, s) => Some (Some a, s)
      | Some (None, s) => Some (None, Nat.iter ticks collect s)
      end
  end.
End peer_info.
Arguments NodeInfo : clear implicits.
Arguments PeerInfoBehaviour PeerId {_ _} EP P I.
End PeerInfo.
