(* ===== verification/PeerInfoTheorems.v ===== *)
(** * Information about peers: the cache follows the connections

    Whatever the order of events and polls, the cache of [PeerInfo] has an entry
    for every connected peer, expires only the others, and lists the endpoints of
    the connections. *)

From S2P Require Import Prelude PeersState Peerset Notifications Wire RequestResponses Config Protocol NetBehaviour PeerInfo.
Import RequestResponses(Action, GenerateEvent, Dial, NotifyHandler, ReportObservedAddr, CloseConnection).
Import PeerInfo.

Section tracking.
Context {PeerId : Type} `{Countable PeerId, !HashOrder PeerId} {EP : Type} `{EqDecision EP} {MA : Type}.
Context {P Hp Mp HEp I Hi Mi HEi Opts D : Type}.
Context `{IP : InfoBehaviour PeerId EP P Hp Mp HEp Opts D (PingEvent PeerId)}.
Context `{II : InfoBehaviour PeerId EP I Hi Mi HEi Opts D (IdentifyEvent PeerId MA)}.
Context (clock : nat → Instant).
Abbreviation PeerInfoBehaviour := (PeerInfoBehaviour PeerId EP P I).
Implicit Types (s : PeerInfoBehaviour).

(** ** Operations and connections *)
Inductive op :=
  | OpSwarm (event : SwarmInfo PeerId EP (Hp * Hi) D)
  | OpHandler (peer_id : PeerId) (connection_id : nat) (event : HEp + HEi)
  | OpPoll (rounds ticks : nat).

Definition run_op (o : op) s : option PeerInfoBehaviour :=
  match o with
  | OpSwarm event => Some (on_swarm_event clock event s)
  | OpHandler p c event => Some (on_connection_handler_event p c event s)
  | OpPoll rounds ticks => snd <$> poll clock rounds ticks s
  end.

(** The endpoints of the connections, in the order they were established. *)
Definition live := PeerId → list EP.
Definition update (f : live) (p : PeerId) (l : list EP) : live := λ q, if decide (q = p) then l else f q.

Fixpoint remove_first (ep : EP) (l : list EP) : list EP :=
  match l with
  | [] => []
  | x :: l => if decide (x = ep) then l else x :: remove_first ep l
  end.

Definition live_step (o : op) (f : live) : live :=
  match o with
  | OpSwarm (SI_ConnectionEstablished p _ ep) => update f p (f p ++ [ep])
  | OpSwarm (SI_ConnectionClosed p _ ep _ _) => update f p (remove_first ep (f p))
  | OpSwarm (SI_AddressChange p _ old new) => update f p (replace_first old new (f p))
  | _ => f
  end.

(** What the swarm reports is so. *)
Definition legal (o : op) (f : live) : Prop :=
  match o with
  | OpSwarm (SI_ConnectionClosed p _ ep _ remaining) => ep ∈ f p ∧ S remaining = length (f p)
  | OpSwarm (SI_AddressChange p _ old _) => old ∈ f p
  | _ => True
  end.

(** The connections of a peer have different endpoints. *)
Definition distinct (o : op) (f : live) : bool :=
  match o with
  | OpSwarm (SI_ConnectionEstablished p _ ep) => bool_decide (ep ∉ f p)
  | OpSwarm (SI_AddressChange p _ _ new) => bool_decide (new ∉ f p)
  | _ => true
  end.

(** [run s0 f d s]: from [s0], the connections are [f] and the state is [s]; the
    endpoints were always distinct if [d]. *)
Inductive run (s0 : PeerInfoBehaviour) : live → bool → PeerInfoBehaviour → Prop :=
  | run_start : run s0 (λ _, []) true s0
  | run_next f d s o s' :
      run s0 f d s → legal o f → run_op o s = Some s' → run s0 (live_step o f) (d && distinct o f) s'.

(** ** What polling does to the cache *)

(** Entries keep what the connections determine, or are removed after the time
    they expire. *)
Definition entry_kept s (n : nat) (o o' : option (NodeInfo EP)) : Prop :=
  match o, o' with
  | Some e, Some e' => info_expire e' = info_expire e ∧ endpoints e' = endpoints e
  | Some e, None => ∃ t k, info_expire e = Some t ∧ (reads s ≤ k < n)%nat ∧ t < clock k
  | None, Some _ => False
  | None, None => True
  end.
Record kept s s' : Prop := {
  kp_reads : (reads s ≤ reads s')%nat;
  kp_nodes p : entry_kept s (reads s') (nodes_info s !! p) (nodes_info s' !! p);
}.

Lemma kept_refl s s' : nodes_info s' = nodes_info s → reads s' = reads s → kept s s'.
Proof. intros E1 E2. split; rewrite ?E1, ?E2; [lia|]. intros p. by destruct (nodes_info s !! p). Qed.

Lemma kept_trans s1 s2 s3 : kept s1 s2 → kept s2 s3 → kept s1 s3.
Proof.
  intros [R1 N1] [R2 N2]. split; [lia|]. intros p. specialize (N1 p). specialize (N2 p). unfold entry_kept in *.
  destruct (nodes_info s1 !! p), (nodes_info s2 !! p), (nodes_info s3 !! p); try done.
  - destruct N1, N2. split; congruence.
  - destruct N1 as [E1 E2], N2 as (t & k & Ht & Hk & Hlt). exists t, k. split_and!; [congruence|lia|lia|done].
  - destruct N1 as (t & k & Ht & Hk & Hlt). exists t, k. split_and!; [done|lia|lia|done].
Qed.

Lemma kept_insert s p e e' : nodes_info s !! p = Some e → info_expire e' = info_expire e → endpoints e' = endpoints e →
  kept s (with_nodes (<[p := e']> (nodes_info s)) s).
Proof.
  intros Hlk Hx He. split; simpl; [lia|]. intros q. destruct (decide (q = p)) as [->|Hne].
  - by rewrite Hlk, lookup_insert_eq.
  - rewrite lookup_insert_ne by done. by destruct (nodes_info s !! q).
Qed.

Lemma ping_report_kept p d s : kept s (handle_ping_report p d s).
Proof. unfold handle_ping_report. destruct (nodes_info s !! p) eqn:E; [by eapply kept_insert|by apply kept_refl]. Qed.
Lemma identify_report_kept p (info : NetBehaviour.IdentifyInfo MA) s : kept s (handle_identify_report p info s).
Proof. unfold handle_identify_report. destruct (nodes_info s !! p) eqn:E; [by eapply kept_insert|by apply kept_refl]. Qed.

Lemma retain_kept p s : kept s (retain_node clock s p).
Proof.
  unfold retain_node. destruct (nodes_info s !! p) as [e|] eqn:E; [|by apply kept_refl]. simpl.
  destruct (info_expire e) as [t|] eqn:Ht; [|by apply kept_refl]. simpl.
  destruct (clock (reads s) <=? t) eqn:Hle.
  - split; simpl; [lia|]. intros q. by destruct (nodes_info s !! q).
  - split; simpl; [lia|]. intros q. destruct (decide (q = p)) as [->|Hne].
    + rewrite E, lookup_delete_eq. exists t, (reads s). apply Z.leb_gt in Hle. split_and!; [done|lia|lia|lia].
    + rewrite lookup_delete_ne by done. by destruct (nodes_info s !! q).
Qed.

Lemma collect_kept s : kept s (collect clock s).
Proof.
  unfold collect. generalize (hash_keys (dom (nodes_info s))) as l. intros l. revert s. induction l as [|p l IH]; intros s; simpl.
  - by apply kept_refl.
  - eapply kept_trans; [apply retain_kept|apply IH].
Qed.

Lemma ping_loop_kept rounds s r : loop ping_round rounds s = Some r → kept s r.2.
Proof.
  intros E. eapply (loop_inv ping_round (kept s) (λ r, kept s r.2)); [|by apply kept_refl|exact E].
  intros s1 Hk. unfold ping_round. destruct (ib_poll (ping s1)) as [[|[[p d|p]|o h|p m|o|p]] b]; simpl;
    try (eapply kept_trans; [exact Hk|by apply kept_refl]).
  - eapply kept_trans; [exact Hk|]. eapply kept_trans; [|apply ping_report_kept]. by apply kept_refl.
  - destruct (ib_new_handler (identify s1)) as [hi i]. simpl. eapply kept_trans; [exact Hk|by apply kept_refl].
Qed.

Lemma identify_loop_kept rounds s r : loop identify_round rounds s = Some r → kept s r.2.
Proof.
  intros E. eapply (loop_inv identify_round (kept s) (λ r, kept s r.2)); [|by apply kept_refl|exact E].
  intros s1 Hk. unfold identify_round. destruct (ib_poll (identify s1)) as [[|[[p info|p|p|p]|o h|p m|o|p]] b]; simpl;
    try (eapply kept_trans; [exact Hk|by apply kept_refl]).
  - eapply kept_trans; [exact Hk|]. eapply kept_trans; [|apply identify_report_kept]. by apply kept_refl.
  - destruct (ib_new_handler (ping s1)) as [hp q]. simpl. eapply kept_trans; [exact Hk|by apply kept_refl].
Qed.

Lemma poll_kept rounds ticks s a s' : poll clock rounds ticks s = Some (a, s') → kept s s'.
Proof.
  unfold poll. destruct (loop ping_round rounds s) as [[[a1|] s1]|] eqn:E1; try done.
  { intros [= <- <-]. apply (ping_loop_kept _ _ _ E1). }
  pose proof (ping_loop_kept _ _ _ E1) as K1. simpl in K1.
  destruct (loop identify_round rounds s1) as [[[a2|] s2]|] eqn:E2; try done; intros [= <- <-];
    pose proof (identify_loop_kept _ _ _ E2) as K2; simpl in K2; (eapply kept_trans; [exact K1|]); [done|].
  clear -K2. revert s2 K2. induction ticks as [|n IH]; intros s2 K2; simpl; [done|].
  eapply kept_trans; [by apply IH|apply collect_kept].
Qed.

(** ** The invariant *)
Definition tracks (f : live) (d : bool) s : Prop := ∀ p,
  match nodes_info s !! p with
  | Some e => (info_expire e = None ↔ f p ≠ []) ∧ (d = true → endpoints e = f p)
  | None => f p = []
  end.

Lemma tracks_kept f d s s' : tracks f d s → kept s s' → tracks f d s'.
Proof.
  intros Ht [_ Hk] p. specialize (Ht p). specialize (Hk p). unfold entry_kept in Hk.
  destruct (nodes_info s !! p) as [e|], (nodes_info s' !! p) as [e'|]; try done.
  - destruct Ht as [H1 H2], Hk as [-> ->]. done.
  - destruct Ht as [H1 _], Hk as (t & k & E & _). rewrite E in H1. destruct (f p) as [|x l]; [done|].
    by assert (Some t = None) by (by apply H1).
Qed.

(** An event changes the entry of one peer. *)
Lemma tracks_insert f d s s' p e l :
  tracks f d s → nodes_info s' = <[p := e]> (nodes_info s) →
  (info_expire e = None ↔ l ≠ []) → ∀ d', (d' = true → d = true ∧ endpoints e = l) → tracks (update f p l) d' s'.
Proof.
  intros Ht E He d' Hd' q. rewrite E. unfold update. destruct (decide (q = p)) as [->|Hne].
  - rewrite lookup_insert_eq. split; [done|]. intros Hd2. by apply Hd'.
  - rewrite lookup_insert_ne by done. specialize (Ht q). destruct (nodes_info s !! q) as [e'|]; [|done].
    destruct Ht as [H1 H2]. split; [done|]. intros Hd2. by apply H2, Hd'.
Qed.

Lemma tracks_nodes f d s s' : nodes_info s' = nodes_info s → tracks f d s → tracks f d s'.
Proof. intros E Ht p. rewrite E. apply Ht. Qed.

Lemma established_tracks f d p ep s :
  tracks f d s → tracks (update f p (f p ++ [ep])) d (PeerInfo.on_connection_established clock p ep s).
Proof.
  intros Ht. pose proof (Ht p) as Htp. unfold PeerInfo.on_connection_established.
  assert (f p ++ [ep] ≠ []) as Hne by (by destruct (f p)).
  destruct (nodes_info s !! p) as [e|] eqn:E.
  - destruct Htp as [_ Hep]. destruct (info_expire e) as [t|]; simpl;
      [destruct (t <? clock (reads s)); simpl|];
      (eapply tracks_insert; [exact Ht|done|done|]; simpl; intros Hd'; split; [done|]; by rewrite Hep).
  - eapply tracks_insert; [exact Ht|done|done|]. intros Hd'. by rewrite Htp.
Qed.

(** With distinct endpoints, dropping all that are equal is dropping one. *)
Lemma filter_remove_first ep (l : list EP) : NoDup l → filter (λ x, x ≠ ep) l = remove_first ep l.
Proof.
  induction 1 as [|x l Hx Hl IH]; [done|]. rewrite filter_cons. simpl. destruct (decide (x = ep)) as [->|Hne].
  - rewrite decide_False by tauto. induction l as [|y l IHl]; [done|]. rewrite filter_cons, decide_True; [|set_solver].
    f_equal. apply IHl; [set_solver|by apply NoDup_cons in Hl as [_ ?]|].
    rewrite filter_cons in IH. simpl in IH. rewrite decide_True, decide_False in IH by set_solver. by injection IH.
  - rewrite decide_True by done. by rewrite IH.
Qed.

Lemma length_remove_first ep (l : list EP) : ep ∈ l → S (length (remove_first ep l)) = length l.
Proof.
  induction l as [|x l IH]; [set_solver|]. simpl. intros Hin. destruct (decide (x = ep)) as [->|Hne]; [done|]. simpl.
  rewrite IH; [done|]. set_solver.
Qed.

Lemma closed_tracks f d p ep remaining s :
  tracks f d s → ep ∈ f p → S remaining = length (f p) → (d = true → NoDup (f p)) →
  tracks (update f p (remove_first ep (f p))) d (PeerInfo.on_connection_closed clock p ep remaining s).
Proof.
  intros Ht Hin Hlen Hnd. pose proof (Ht p) as Htp. unfold PeerInfo.on_connection_closed.
  pose proof (length_remove_first ep (f p) Hin) as Hrl.
  destruct (nodes_info s !! p) as [e|] eqn:E; [|rewrite Htp in Hin; by apply elem_of_nil in Hin].
  destruct Htp as [Hx Hep].
  assert (d = true → d = true ∧ filter (λ x, x ≠ ep) (endpoints e) = remove_first ep (f p)) as Hd'.
  { intros Hd'. split; [done|]. rewrite Hep by done. apply filter_remove_first. auto. }
  destruct remaining as [|n]; simpl; (eapply tracks_insert; [exact Ht|done| |done]; simpl).
  - assert (remove_first ep (f p) = []) as -> by (apply nil_length_inv; lia). done.
  - destruct (remove_first ep (f p)) as [|x l]; [simpl in Hrl; lia|]. rewrite Hx. split; [done|].
    intros _ E'. by rewrite E' in Hin; apply elem_of_nil in Hin.
Qed.

Lemma replace_first_nil old new (l : list EP) : replace_first old new l = [] ↔ l = [].
Proof. destruct l as [|x l]; [done|]. simpl. by destruct (decide (x = old)). Qed.

Lemma changed_tracks f d p old new s :
  tracks f d s → tracks (update f p (replace_first old new (f p))) d (PeerInfo.on_address_change p old new s).
Proof.
  intros Ht. pose proof (Ht p) as Htp. unfold PeerInfo.on_address_change. destruct (nodes_info s !! p) as [e|] eqn:E.
  - destruct Htp as [Hx Hep]. eapply tracks_insert; [exact Ht|done| |]; simpl.
    + by rewrite replace_first_nil.
    + intros Hd'. split; [done|]. by rewrite Hep.
  - intros q. specialize (Ht q). unfold update. destruct (decide (q = p)) as [->|Hne]; [|done]. rewrite E. by rewrite Htp.
Qed.

(** ** Runs *)
Lemma elem_remove_first x ep (l : list EP) : x ∈ remove_first ep l → x ∈ l.
Proof.
  induction l as [|y l IH]; [done|]. simpl. destruct (decide (y = ep)); [set_solver|].
  intros [->|Hin]%elem_of_cons; [left|right; auto].
Qed.
Lemma elem_replace_first x old new (l : list EP) : x ∈ replace_first old new l → x = new ∨ x ∈ l.
Proof.
  induction l as [|y l IH]; [by right|]. simpl. destruct (decide (y = old)); [set_solver|].
  intros [->|Hin]%elem_of_cons; [set_solver|]. apply IH in Hin. set_solver.
Qed.

Lemma NoDup_remove_first ep (l : list EP) : NoDup l → NoDup (remove_first ep l).
Proof.
  induction 1 as [|x l Hx Hl IH]; [by apply NoDup_nil_2|]. simpl. destruct (decide (x = ep)); [done|].
  apply NoDup_cons. split; [|done]. by intros ?%elem_remove_first.
Qed.
Lemma NoDup_replace_first old new (l : list EP) : new ∉ l → NoDup l → NoDup (replace_first old new l).
Proof.
  intros Hn Hl. induction Hl as [|x l Hx Hl IH]; [by apply NoDup_nil_2|]. simpl. destruct (decide (x = old)).
  - apply NoDup_cons. set_solver.
  - apply NoDup_cons. split; [|apply IH; set_solver]. intros [->|?]%elem_replace_first; set_solver.
Qed.

Definition all_distinct (f : live) (d : bool) : Prop := d = true → ∀ p, NoDup (f p).

Lemma distinct_update (f : live) d p l b :
  all_distinct f d → (b = true → NoDup (f p) → NoDup l) → all_distinct (update f p l) (d && b).
Proof.
  intros Hf Hl [Hd' Hb]%andb_prop q. unfold update. destruct (decide (q = p)) as [->|]; [|by apply Hf].
  apply Hl; [done|]. by apply Hf.
Qed.

Lemma step_distinct o f d : all_distinct f d → all_distinct (live_step o f) (d && distinct o f).
Proof.
  intros Hf. assert (all_distinct f (d && true)) as Hsame by (by rewrite andb_true_r).
  destruct o as [[p c ep|p c ep h n| | | | | | | | |p c old new|]| |]; simpl; try done.
  - apply distinct_update; [done|]. intros Hb%bool_decide_eq_true Hnd. apply NoDup_app.
    split_and!; [done|set_solver|apply NoDup_singleton].
  - apply distinct_update; [done|]. intros _. apply NoDup_remove_first.
  - apply distinct_update; [done|]. intros Hb%bool_decide_eq_true. by apply NoDup_replace_first.
Qed.

Lemma weaken_tracks f d b s : tracks f d s → tracks f (d && b) s.
Proof.
  intros Ht p. specialize (Ht p). destruct (nodes_info s !! p); [|done]. destruct Ht as [H1 H2]. split; [done|].
  intros [Hd' _]%andb_prop. auto.
Qed.

Lemma step_tracks o f d s s' :
  tracks f d s → all_distinct f d → legal o f → run_op o s = Some s' → tracks (live_step o f) (d && distinct o f) s'.
Proof.
  intros Ht Hd' Hl Ho. apply weaken_tracks. destruct o as [event|p c event|rounds ticks].
  - injection Ho as <-. unfold on_swarm_event.
    set (s1 := with_identify _ (with_ping _ s)). assert (tracks f d s1) as Ht1 by (by eapply tracks_nodes).
    destruct event as [p c ep|p c ep h n| | | | | | | | |p c old new|]; simpl; try done.
    + by apply established_tracks.
    + destruct Hl as [Hin Hlen]. apply closed_tracks; auto.
    + by apply changed_tracks.
  - injection Ho as <-. destruct event; by eapply tracks_nodes.
  - simpl in Ho. destruct (poll clock rounds ticks s) as [[a s1]|] eqn:E; [|done]. injection Ho as <-.
    eapply tracks_kept; [exact Ht|by eapply poll_kept].
Qed.

Lemma run_tracks p i f d s : run (new p i) f d s → tracks f d s ∧ all_distinct f d.
Proof.
  induction 1 as [|f d s o s' _ [Ht Hd'] Hl Ho].
  - split; [intros q; simpl; by rewrite lookup_empty|]. intros _ q. by apply NoDup_nil_2.
  - split; [by eapply step_tracks|by apply step_distinct].
Qed.

(** ** Polling returns *)
Context `{!InfoBehaviourLaws PeerId EP P Hp Mp HEp Opts D (PingEvent PeerId)}.
Context `{!InfoBehaviourLaws PeerId EP I Hi Mi HEi Opts D (IdentifyEvent PeerId MA)}.

Lemma ping_round_rank s s' : ping_round s = inl s' →
  (ib_backlog (ping s') < ib_backlog (ping s))%nat ∧ identify s' = identify s.
Proof.
  unfold ping_round. pose proof (ib_poll_backlog (ping s)) as Hb.
  destruct (ib_poll (ping s)) as [[|[[p d|p]|o h|p m|o|p]] b]; try done.
  - intros [= <-]. unfold handle_ping_report. simpl. destruct (nodes_info s !! p); done.
  - by intros [= <-].
  - simpl. by destruct (ib_new_handler (identify s)).
Qed.

Lemma identify_round_rank s s' : identify_round s = inl s' → (ib_backlog (identify s') < ib_backlog (identify s))%nat.
Proof.
  unfold identify_round. pose proof (ib_poll_backlog (identify s)) as Hb.
  destruct (ib_poll (identify s)) as [[|[[p info|p|p|p]|o h|p m|o|p]] b]; try done; try (by intros [= <-]).
  simpl. by destruct (ib_new_handler (ping s)).
Qed.

Lemma ping_loop_identify rounds s s' : loop ping_round rounds s = Some (None, s') → identify s' = identify s.
Proof.
  intros E.
  refine (loop_inv ping_round (λ s1, identify s1 = identify s) (λ r, r.1 = None → identify r.2 = identify s)
    _ rounds s _ eq_refl E eq_refl).
  intros s1 Hi1. destruct (ping_round s1) as [s2|[a s2]] eqn:Er; [by apply ping_round_rank in Er as [_ ->]|].
  simpl. intros ->. unfold ping_round in Er.
  destruct (ib_poll (ping s1)) as [[|[[p d|p]|o h|p m|o|p]] b]; try done; [by injection Er as <-|].
  simpl in Er. by destruct (ib_new_handler (identify s1)).
Qed.

Lemma info_poll_returns ticks s rounds :
  (ib_backlog (ping s) < rounds)%nat → (ib_backlog (identify s) < rounds)%nat → is_Some (poll clock rounds ticks s).
Proof.
  intros Hr1 Hr2. unfold poll.
  destruct (loop_ranked ping_round (λ s, ib_backlog (ping s))
    (λ s s' E, proj1 (ping_round_rank s s' E)) rounds s Hr1) as [[[a|] s1] E1]; rewrite E1; [done|].
  apply ping_loop_identify in E1. rewrite <- E1 in Hr2.
  destruct (loop_ranked identify_round (λ s, ib_backlog (identify s)) identify_round_rank rounds s1 Hr2)
    as [[[a|] s2] E2]; by rewrite E2.
Qed.

(** C20: The cache of peer information. Whatever the order of connections,
    handler events and polls, as long as the swarm reports its connections
    truthfully: every connected peer is known and does not expire; a peer that is
    not connected is unknown or expires; if the connections of a peer never have
    equal endpoints, the endpoints listed are those of its connections, in order.
    Polling returns, and it removes an entry only after the time it expires. *)
Theorem peer_info_tracks_connections p i f d s (Hrun : run (new p i) f d s) :
  (∀ q, f q ≠ [] → ∃ e, node q s = Some e ∧ info_expire e = None) ∧
  (∀ q e, f q = [] → node q s = Some e → is_Some (info_expire e)) ∧
  (∀ q e, d = true → node q s = Some e → endpoints e = f q ∧ endpoint e = head (f q)) ∧
  (∀ ticks, ∃ rounds r, poll clock rounds ticks s = Some r) ∧
  (∀ rounds ticks a s' q e, poll clock rounds ticks s = Some (a, s') → node q s = Some e → node q s' = None →
     ∃ t k, info_expire e = Some t ∧ (reads s ≤ k < reads s')%nat ∧ t < clock k).
Proof.
  destruct (run_tracks p i f d s Hrun) as [Ht _]. unfold node. split_and!.
  - intros q Hq. specialize (Ht q). destruct (nodes_info s !! q) as [e|]; [|done]. exists e. split; [done|]. by apply Ht.
  - intros q e Hq E. specialize (Ht q). rewrite E in Ht. destruct Ht as [Hx _].
    destruct (info_expire e); [done|]. by destruct (proj1 Hx eq_refl).
  - intros q e Hd' E. specialize (Ht q). rewrite E in Ht. destruct Ht as [_ Hep]. unfold endpoint. by rewrite Hep.
  - intros ticks. exists (S (ib_backlog (ping s) + ib_backlog (identify s))).
    destruct (info_poll_returns ticks s (S (ib_backlog (ping s) + ib_backlog (identify s)))) as [r ?]; [lia|lia|by exists r].
  - intros rounds ticks a s' q e E Hq Hq'. destruct (poll_kept _ _ _ _ _ E) as [_ Hk]. specialize (Hk q).
    unfold entry_kept in Hk. by rewrite Hq, Hq' in Hk.
Qed.
End tracking.

(** ** Examples *)
Section examples.
#[local] Existing Instance canonical_order.

(** A behaviour that reports what its handlers report. *)
#[local] Instance queue_behaviour Ev : InfoBehaviour nat string (list Ev) unit unit Ev unit unit Ev := {|
  ib_new_handler b := (tt, b);
  ib_on_swarm_event _ b := b;
  ib_on_connection_handler_event _ _ e b := b ++ [e];
  ib_poll b := match b with [] => (Pending, []) | e :: b => (Ready (GenerateEvent e), b) end;
|}.

#[local] Instance queue_laws Ev : InfoBehaviourLaws nat string (list Ev) unit unit Ev unit unit Ev.
Proof. refine {| ib_backlog := length |}. by intros [|e b]; simpl; [|lia]. Defined.

Abbreviation Pings := (list (PingEvent nat)).
Abbreviation Identities := (list (IdentifyEvent nat string)).
Abbreviation demo_op := (op (PeerId := nat) (EP := string) (Hp := unit) (HEp := PingEvent nat) (Hi := unit)
  (HEi := IdentifyEvent nat string) (D := unit)).
Definition minute_clock (k : nat) : Instant := from_secs (60 * Z.of_nat k).
Definition demo_start : PeerInfo.PeerInfoBehaviour nat string Pings Identities := new [] [].

Definition legal_b (o : demo_op) (f : nat → list string) : bool :=
  match o with
  | OpSwarm (SI_ConnectionClosed p _ ep _ remaining) => bool_decide (ep ∈ f p ∧ S remaining = length (f p))
  | OpSwarm (SI_AddressChange p _ old _) => bool_decide (old ∈ f p)
  | _ => true
  end.

Lemma legal_b_sound o f : legal_b o f = true → legal o f.
Proof. destruct o as [[]| |]; simpl; try done; by intros ?%bool_decide_eq_true. Qed.

Fixpoint demo_ops (os : list demo_op) (f : nat → list string) (d : bool) (s : PeerInfo.PeerInfoBehaviour nat string Pings Identities) :
    option ((nat → list string) * bool * PeerInfo.PeerInfoBehaviour nat string Pings Identities) :=
  match os with
  | [] => Some (f, d, s)
  | o :: os =>
      s' ← run_op minute_clock o s;
      if legal_b o f then demo_ops os (live_step o f) (d && distinct o f) s' else None
  end.

Lemma demo_ops_run os f d s f' d' s' :
  run minute_clock demo_start f d s → demo_ops os f d s = Some (f', d', s') → run minute_clock demo_start f' d' s'.
Proof.
  revert f d s. induction os as [|o os IH]; intros f d s Hrun Ho; simpl in Ho; [by injection Ho as <- <- <-|].
  destruct (run_op minute_clock o s) as [s1|] eqn:E; [|done]. simpl in Ho.
  destruct (legal_b o f) eqn:Hl; [|done]. eapply IH; [|exact Ho]. eapply run_next; [exact Hrun|by apply legal_b_sound|exact E].
Qed.

(** Peer 1 connects twice and is identified; peer 2 comes and goes. *)
Definition demo_trace : list demo_op :=
  [OpSwarm (SI_ConnectionEstablished 1%nat 0 "a"%string); OpSwarm (SI_ConnectionEstablished 2%nat 1 "b"%string);
   OpSwarm (SI_ConnectionEstablished 1%nat 2 "c"%string);
   OpHandler 1%nat 0 (inr (Received 1%nat (NetBehaviour.mkIdentifyInfo "1" "agent" [] []))); OpPoll 3 0;
   OpSwarm (SI_ConnectionClosed 2%nat 1 "b"%string (tt, tt) 0); OpSwarm (SI_AddressChange 1%nat 0 "a"%string "x"%string)].

Lemma peer_info_tracks_connections_witness :
  ∃ f s e, demo_ops demo_trace (λ _, []) true demo_start = Some (f, true, s) ∧ node 1%nat s = Some e ∧
    endpoints e = ["x"; "c"]%string ∧ info_expire e = None.
Proof.
  destruct (demo_ops demo_trace (λ _, []) true demo_start) as [[[f d] s]|] eqn:E; [|vm_compute in E; discriminate E].
  destruct (peer_info_tracks_connections minute_clock [] [] f d s
              (demo_ops_run _ _ _ _ _ _ _ (run_start _ _) E)) as (Hc & _ & Hep & _).
  assert (d = true) as -> by (vm_compute in E; congruence).
  assert (f 1%nat = ["x"; "c"]%string) as Hf by (vm_compute in E; injection E as <- _; reflexivity).
  destruct (Hc 1%nat) as (e & He & Hx); [by rewrite Hf|]. exists f, s, e. split; [done|]. split; [done|].
  split; [|done]. rewrite <- Hf. by apply Hep.
Defined.

(** Two connections to the same endpoint: when one is closed both are dropped
    from the list, and the peer, still connected, has no endpoint. *)
Theorem equal_endpoints_dropped_together :
  ∃ f s e, demo_ops [OpSwarm (SI_ConnectionEstablished 1%nat 0 "a"%string); OpSwarm (SI_ConnectionEstablished 1%nat 1 "a"%string);
                     OpSwarm (SI_ConnectionClosed 1%nat 0 "a"%string (tt, tt) 1)] (λ _, []) true demo_start = Some (f, false, s) ∧
    f 1%nat = ["a"]%string ∧ node 1%nat s = Some e ∧ info_expire e = None ∧ endpoint e = None.
Proof. vm_compute. by eexists _, _, _. Qed.
End examples.
