(* ===== verification/Backend.v ===== *)
(** * Errors, the network backend and the executor

    Models of [error.rs], [backend/mod.rs], [executor/mod.rs] and [types.rs]:
    the error type every fallible operation returns, the traits the filter and
    the overseer are generic over, as classes, and the events that travel
    between the parts. *)

From S2P Require Import Prelude.

(** ** [error.rs] *)

(** [std::net::SocketAddr]: the bits of an address of either family and a
    port. *)
Inductive SocketAddr :=
  | SocketAddrV4 (ip port : Z)
  | SocketAddrV6 (ip port flowinfo scope_id : Z).

#[export] Instance SocketAddr_eq_dec : EqDecision SocketAddr.
Proof. solve_decision. Defined.

Inductive ExecutorError :=
  | RuntimeError (why : string)
  | ExecutorDoesntExist
  | ExecutorFilterDoesntExist.

Inductive FilterError := InvalidFilter (why : string).

(** The errors of libraries are kept as far as the code looks at them: the
    [kind] of an I/O error, the [classify] category of a CBOR error. *)
Inductive Error :=
  | InvalidAddress (address : string)
  | AddressInUse (address : SocketAddr)
  | Io (kind : string)
  | SerdeCbor (category : string)
  | InterfaceAlreadyExists
  | PeerAlreadyExists
  | InterfaceDoesntExist
  | PeerDoesntExist
  | LinkDoesntExist
  | FilterAlreadyExists
  | FilterDoesntExist
  | RequestDoesntExist
  | Substrate (why : string)
  | Custom (why : string)
  | EFilterError (e : FilterError)
  | EExecutorError (e : ExecutorError).

(** [impl From<pyo3::PyErr> for Error]: an exception of the embedded
    interpreter is a runtime error of the executor. *)
Definition Error_from_PyErr (error : string) : Error := EExecutorError (RuntimeError error).

(** [impl PartialEq for Error]. *)
Definition Error_eq (e1 e2 : Error) : bool :=
  match e1, e2 with
  | InvalidAddress a1, InvalidAddress a2 => bool_decide (a1 = a2)
  | AddressInUse a1, AddressInUse a2 => bool_decide (a1 = a2)
  | Io k1, Io k2 => bool_decide (k1 = k2)
  | SerdeCbor c1, SerdeCbor c2 => bool_decide (c1 = c2)
  | InterfaceAlreadyExists, InterfaceAlreadyExists => true
  | PeerAlreadyExists, PeerAlreadyExists => true
  | InterfaceDoesntExist, InterfaceDoesntExist => true
  | PeerDoesntExist, PeerDoesntExist => true
  | LinkDoesntExist, LinkDoesntExist => true
  | FilterAlreadyExists, FilterAlreadyExists => true
  | FilterDoesntExist, FilterDoesntExist => true
  | RequestDoesntExist, RequestDoesntExist => true
  | _, _ => false
  end.

(** ** [backend/mod.rs] *)

(** [NetworkBackend]: the identifier and message types of a network, with what
    [WithMessageInfo] and [Idable] read off a message. *)
Class NetworkBackend := {
  PeerId : Type;
  InterfaceId : Type;
  RequestId : Type;
  Protocol : Type;
  Message : Type;
  Request : Type;
  Response : Type;
  InterfaceHandle : Type;
  NetworkParameters : Type;
  InterfaceParameters : Type;
  #[export] PeerId_eq_dec :: EqDecision PeerId;
  #[export] PeerId_countable :: Countable PeerId;
  #[export] InterfaceId_eq_dec :: EqDecision InterfaceId;
  #[export] InterfaceId_countable :: Countable InterfaceId;
  #[export] RequestId_eq_dec :: EqDecision RequestId;
  #[export] Protocol_eq_dec :: EqDecision Protocol;
  #[export] Protocol_countable :: Countable Protocol;
  message_hash : Message → Z;
  message_size : Message → Z;
  request_hash : Request → Z;
  request_size : Request → Z;
  response_hash : Response → Z;
  response_size : Response → Z;
  request_id : Request → RequestId;
}.

Inductive InterfaceType := Masquerade.

(** ** Channels

    A [tokio::sync::mpsc] channel seen from its sending side: the values sent
    through it, which the receiver gets in this order, and whether the receiver
    still exists. Sending to a bounded channel waits for room, so the value is
    appended in the end. *)
Record channel (A : Type) := mkChannel { queue : list A; receiver_alive : bool }.
Arguments mkChannel {A} queue receiver_alive.
Arguments queue {A} c.
Arguments receiver_alive {A} c.

(** [tx.send(a).expect("channel to stay open")]. *)
Definition send {A} (a : A) (c : channel A) : outcome (channel A) :=
  if receiver_alive c then Done (mkChannel (queue c ++ [a]) true) else Panicked ExpectFailed.

Definition new_channel {A} : channel A := mkChannel [] true.

Lemma send_alive {A} (a : A) c :
  receiver_alive c = true → send a c = Done (mkChannel (queue c ++ [a]) true).
Proof. unfold send. by intros ->. Qed.

Lemma runs_send {A} (a : A) c (Q : channel A → Prop) :
  receiver_alive c = true → Q (mkChannel (queue c ++ [a]) true) → runs (send a c) Q.
Proof. intros Hc ?. by rewrite send_alive. Qed.

Section backend.
Context `{NetworkBackend}.

(** One event of [ExecutorEvent]: what a filter asks for. *)
Inductive ExecutorEvent :=
  | EvConnect (peer : PeerId)
  | EvForward (peers : list PeerId) (protocol : Protocol) (notification : Message)
  | EvSendRequest (peer : PeerId) (protocol : Protocol) (payload : list Z)
  | EvSendResponse (peer : PeerId) (payload : list Z).

(** The trait [Executor]. An executor keeps a state of its own; every method
    returns the new state along with its result, also when it fails. A method
    may panic, as the conversions of the values user code returns do. *)
Class Executor := {
  executor_state : Type;
  initialize_interface : string → NetworkParameters → outcome (result InterfaceParameters Error);
  executor_new : InterfaceId → string → option string → outcome (result executor_state Error);
  executor_poll : executor_state → outcome (executor_state * result (list ExecutorEvent) Error);
  executor_register_peer :
    executor_state → PeerId → outcome (executor_state * result (list ExecutorEvent) Error);
  executor_discover_peer :
    executor_state → PeerId → outcome (executor_state * result (list ExecutorEvent) Error);
  executor_unregister_peer :
    executor_state → PeerId → outcome (executor_state * result (list ExecutorEvent) Error);
  executor_protocol_opened :
    executor_state → PeerId → Protocol → outcome (executor_state * result (list ExecutorEvent) Error);
  executor_protocol_closed :
    executor_state → PeerId → Protocol → outcome (executor_state * result (list ExecutorEvent) Error);
  executor_install_notification_filter :
    executor_state → Protocol → string → outcome (executor_state * result unit Error);
  executor_install_request_response_filter :
    executor_state → Protocol → string → outcome (executor_state * result unit Error);
  executor_inject_notification :
    executor_state → Protocol → PeerId → Message →
    outcome (executor_state * result (list ExecutorEvent) Error);
  executor_inject_request :
    executor_state → Protocol → PeerId → Request →
    outcome (executor_state * result (list ExecutorEvent) Error);
  executor_inject_response :
    executor_state → Protocol → PeerId → Response →
    outcome (executor_state * result (list ExecutorEvent) Error);
}.

(** An executor that does not panic, whatever it answers. *)
Class ExecutorRuns `{!Executor} := {
  initialize_interface_runs code params : runs (initialize_interface code params) (λ _, True);
  executor_new_runs i code ctx : runs (executor_new i code ctx) (λ _, True);
  executor_poll_runs st : runs (executor_poll st) (λ _, True);
  executor_register_peer_runs st p : runs (executor_register_peer st p) (λ _, True);
  executor_discover_peer_runs st p : runs (executor_discover_peer st p) (λ _, True);
  executor_unregister_peer_runs st p : runs (executor_unregister_peer st p) (λ _, True);
  executor_protocol_opened_runs st p pr : runs (executor_protocol_opened st p pr) (λ _, True);
  executor_protocol_closed_runs st p pr : runs (executor_protocol_closed st p pr) (λ _, True);
  executor_install_notification_filter_runs st pr c :
    runs (executor_install_notification_filter st pr c) (λ _, True);
  executor_install_request_response_filter_runs st pr c :
    runs (executor_install_request_response_filter st pr c) (λ _, True);
  executor_inject_notification_runs st pr p n : runs (executor_inject_notification st pr p n) (λ _, True);
  executor_inject_request_runs st pr p r : runs (executor_inject_request st pr p r) (λ _, True);
  executor_inject_response_runs st pr p r : runs (executor_inject_response st pr p r) (λ _, True);
}.

(** A call of a method of [PacketSink]. *)
Inductive SinkCall :=
  | SendPacket (protocol : option Protocol) (message : Message)
  | SendRequest (protocol : Protocol) (payload : list Z)
  | SendResponse (request_id : RequestId) (payload : list Z).

(** [Box<dyn PacketSink<T>>]: what a sink answers to a call may depend on all
    calls made before, to which peer, and on how they ended. The request id
    [send_request] returns is not used by the code: the answer is only
    whether the call succeeded. Sinks answer, that is, they do not panic: those
    of the substrate backend never do, but [send_request] and [send_response]
    of the mock chain are [todo!()] ([Mockchain.send_request] and
    [Mockchain.send_response] are panics), so that filters of the mock chain
    whose code asks for requests or responses are not covered. *)
Class PacketSink := {
  sink : Type;
  sink_answer : list (PeerId * SinkCall * bool) → sink → SinkCall → result unit Error;
}.

(** [ConnectionUpgrade] and [InterfaceEvent]. *)
Inductive ConnectionUpgrade :=
  | UpProtocolOpened (protocols : gset Protocol)
  | UpProtocolClosed (protocols : gset Protocol).

Inductive InterfaceEvent `{PacketSink} :=
  | PeerConnected (interface : InterfaceId) (peer : PeerId) (protocols : list Protocol) (s : sink)
  | PeerDisconnected (interface : InterfaceId) (peer : PeerId)
  | ConnectionUpgraded (interface : InterfaceId) (peer : PeerId) (upgrade : ConnectionUpgrade)
  | MessageReceived (interface : InterfaceId) (peer : PeerId) (protocol : Protocol)
      (message : Message)
  | RequestReceived (interface : InterfaceId) (peer : PeerId) (protocol : Protocol)
      (request : Request)
  | ResponseReceived (interface : InterfaceId) (peer : PeerId) (protocol : Protocol)
      (rid : RequestId) (response : Response)
  | PeerDiscovered (peer : PeerId).

(** The methods of [NetworkBackend] and [Interface] that act: starting an
    interface gives a handle and the stream of its events, and the handle
    connects to peers. *)
Class Interfaces := {
  backend_state : Type;
  event_stream : Type;
  backend_new : NetworkParameters → backend_state;
  spawn_interface :
    backend_state → SocketAddr → InterfaceType → option InterfaceParameters →
    outcome (backend_state * result (InterfaceHandle * event_stream) Error);
  handle_interface_id : InterfaceHandle → InterfaceId;
  handle_peer_id : InterfaceHandle → PeerId;
  handle_connect : InterfaceHandle → PeerId → outcome (InterfaceHandle * result unit Error);
}.

(** Interfaces whose backend does not panic. *)
Class InterfacesRun `{!Interfaces} := {
  spawn_runs b a t params : runs (spawn_interface b a t params) (λ _, True);
  connect_runs h p : runs (handle_connect h p) (λ _, True);
}.

(** ** [types.rs]: requests of the RPC to the overseer. The [oneshot] channel
    an event carries is its number and whether the requester still waits. *)
Record oneshot := mkOneshot { reply_to : nat; waiting : bool }.

Inductive OverseerEvent :=
  | CreateInterface (address : SocketAddr) (filter : string) (poll_interval : Duration)
      (preinit : option string) (reply : oneshot)
  | LinkInterface (first second : InterfaceId) (reply : oneshot)
  | UnlinkInterface (first second : InterfaceId) (reply : oneshot)
  | OvInstallNotificationFilter (interface : InterfaceId) (protocol : Protocol)
      (filter_code context : string) (reply : oneshot)
  | OvInstallRequestResponseFilter (interface : InterfaceId) (protocol : Protocol)
      (filter_code context : string) (reply : oneshot).
End backend.

(** A backend whose identifiers and messages are numbers, a message being its
    hash and its size: the concrete network of the examples. *)
Definition numbers_backend : NetworkBackend := {|
  PeerId := Z; InterfaceId := Z; RequestId := Z; Protocol := Z;
  Message := Z * Z; Request := Z * (Z * Z); Response := Z * Z;
  InterfaceHandle := Z; NetworkParameters := unit; InterfaceParameters := unit;
  message_hash := fst; message_size := snd;
  request_hash := λ r, r.2.1; request_size := λ r, r.2.2;
  response_hash := fst; response_size := snd;
  request_id := fst;
|}.
