(* ===== verification/SocketText.v ===== *)
(** * Socket addresses as text

    What the program uses of [std::net]: [SocketAddr::from_str], by which the
    RPC reads the address of an interface and the main program its own, with
    the recursive descent parser of the standard library for both address
    families, and the text of an IPv4 socket address. Text is a sequence of
    bytes, as the parser sees it. *)

From stdpp Require Import pretty.
From Stdlib Require Import Ascii.
From S2P Require Import Prelude Backend.

Module SocketText.

(** ** The parser *)
Definition parser (A : Type) := string → option (A * string).

(** [char::to_digit]. *)
Definition to_digit (radix : Z) (c : ascii) : option Z :=
  let n := Z.of_N (N_of_ascii c) in
  let d := if (48 <=? n) && (n <=? 57) then n - 48
           else if (97 <=? n) && (n <=? 122) then n - 87
           else if (65 <=? n) && (n <=? 90) then n - 55
           else radix in
  if d <? radix then Some d else None.

(** The digits at the front of the text: their value, how many there are and
    what follows. With a bound on their number more digits are an error,
    without one a value above [max] is. *)
Fixpoint read_digits (radix : Z) (max_digits : option Z) (max acc count : Z) (s : string) :
    option (Z * Z * string) :=
  match s with
  | EmptyString => Some (acc, count, s)
  | String c s' =>
      match to_digit radix c with
      | None => Some (acc, count, s)
      | Some d =>
          let acc := acc * radix + d in
          let count := count + 1 in
          if match max_digits with Some m => m <? count | None => max <? acc end then None
          else read_digits radix max_digits max acc count s'
      end
  end.

Definition starts_with_zero (s : string) : bool :=
  match s with String c _ => bool_decide (c = "0"%char) | EmptyString => false end.

(** [Parser::read_number] for an unsigned integer up to [max]. *)
Definition read_number (radix : Z) (max_digits : option Z) (allow_zero_prefix : bool) (max : Z) :
    parser Z := λ s,
  '(n, count, rest) ← read_digits radix max_digits max 0 0 s;
  if count =? 0 then None
  else if negb allow_zero_prefix && starts_with_zero s && (1 <? count) then None
  else if n <=? max then Some (n, rest) else None.

Definition read_given_char (c : ascii) : parser unit := λ s,
  match s with
  | String c' rest => if decide (c' = c) then Some (tt, rest) else None
  | EmptyString => None
  end.

(** [Parser::read_separator]. *)
Definition read_separator {A} (sep : ascii) (index : nat) (inner : parser A) : parser A := λ s,
  match index with
  | O => inner s
  | S _ => '(_, s) ← read_given_char sep s; inner s
  end.

Definition read_octet (index : nat) : parser Z :=
  read_separator "." index (read_number 10 (Some 3) false 255).

Definition read_ipv4_addr : parser Z := λ s,
  '(a, s) ← read_octet 0 s; '(b, s) ← read_octet 1 s;
  '(c, s) ← read_octet 2 s; '(d, s) ← read_octet 3 s;
  Some (((a * 256 + b) * 256 + c) * 256 + d, s).

(** [read_groups]: up to [slots] groups of 16 bits, the last two of which may
    be an IPv4 address; whether they are. *)
Fixpoint read_groups (index slots : nat) (s : string) : list Z * bool * string :=
  match slots with
  | O => ([], false, s)
  | S slots' =>
      match (if decide (slots' = O) then None else read_separator ":" index read_ipv4_addr s) with
      | Some (v4, s) => ([v4 / 65536; v4 mod 65536], true, s)
      | None =>
          match read_separator ":" index (read_number 16 (Some 4) true 65535) s with
          | Some (group, s) =>
              let '(groups, ipv4, s) := read_groups (S index) slots' s in (group :: groups, ipv4, s)
          | None => ([], false, s)
          end
      end
  end.

Definition from_segments (l : list Z) : Z := fold_left (λ acc g, acc * 65536 + g) l 0.

Definition read_ipv6_addr : parser Z := λ s,
  let '(head, head_ipv4, s) := read_groups 0 8 s in
  if decide (length head = 8%nat) then Some (from_segments head, s)
  else if head_ipv4 then None
  else
    '(_, s) ← read_given_char ":" s; '(_, s) ← read_given_char ":" s;
    let '(tail, _, s) := read_groups 0 (7 - length head) s in
    Some (from_segments (head ++ replicate (8 - length head - length tail) 0 ++ tail), s).

Definition read_port : parser Z := λ s,
  '(_, s) ← read_given_char ":" s; read_number 10 None true 65535 s.
Definition read_scope_id : parser Z := λ s,
  '(_, s) ← read_given_char "%" s; read_number 10 None true u32_max s.

Definition read_socket_addr_v4 : parser SocketAddr := λ s,
  '(ip, s) ← read_ipv4_addr s; '(port, s) ← read_port s; Some (SocketAddrV4 ip port, s).
Definition read_socket_addr_v6 : parser SocketAddr := λ s,
  '(_, s) ← read_given_char "[" s;
  '(ip, s) ← read_ipv6_addr s;
  let '(scope_id, s) := default (0, s) (read_scope_id s) in
  '(_, s) ← read_given_char "]" s;
  '(port, s) ← read_port s;
  Some (SocketAddrV6 ip port 0 scope_id, s).

(** [SocketAddr::from_str]: nothing may follow the address. *)
Definition from_str (s : string) : option SocketAddr :=
  match (match read_socket_addr_v4 s with Some r => Some r | None => read_socket_addr_v6 s end) with
  | Some (a, EmptyString) => Some a
  | _ => None
  end.

(** ** The text of an IPv4 socket address *)
Definition octet (ip : Z) (k : Z) : Z := (ip / 2 ^ (8 * k)) mod 256.
Definition v4_to_string (ip port : Z) : string :=
  (pretty (octet ip 3) +:+ "." +:+ pretty (octet ip 2) +:+ "." +:+ pretty (octet ip 1) +:+ "." +:+
   pretty (octet ip 0) +:+ ":" +:+ pretty port)%string.
End SocketText.

(** ** Reading back what was written *)
Section roundtrip.
Import SocketText.

Lemma read_digits_app radix md max acc count s n k rest :
  read_digits radix md max acc count s = Some (n, k, ""%string) →
  (match rest with String c _ => to_digit radix c = None | EmptyString => True end) →
  read_digits radix md max acc count (s +:+ rest) = Some (n, k, rest).
Proof.
  intros Hs Hrest. revert acc count Hs. induction s as [|c s IH]; intros acc count; simpl.
  - intros [= -> ->]. destruct rest as [|c rest]; [done|]. simpl. by rewrite Hrest.
  - destruct (to_digit radix c) as [d|]; [|done].
    destruct (match md with Some m => m <? count + 1 | None => max <? acc * radix + d end); [done|].
    apply IH.
Qed.

Lemma read_number_app radix md z max s n rest :
  read_number radix md z max s = Some (n, ""%string) →
  (match rest with String c _ => to_digit radix c = None | EmptyString => True end) →
  s ≠ ""%string →
  read_number radix md z max (s +:+ rest) = Some (n, rest).
Proof.
  unfold read_number. intros Hs Hrest Hne. destruct (read_digits radix md max 0 0 s) as [[[v k] r]|] eqn:E; [|done].
  simpl in Hs. destruct (k =? 0) eqn:Hk; [done|].
  destruct (negb z && starts_with_zero s && (1 <? k)) eqn:Hz; [done|].
  destruct (v <=? max) eqn:Hv; [|done]. injection Hs as -> ->.
  rewrite (read_digits_app _ _ _ _ _ _ _ _ _ E Hrest). simpl. rewrite Hk.
  replace (starts_with_zero (s +:+ rest)) with (starts_with_zero s) by (by destruct s).
  by rewrite Hz, Hv.
Qed.

(** The octets of an address are read back, by evaluation of all of them. *)
Definition octet_ok (n : Z) : bool :=
  bool_decide (read_number 10 (Some 3) false 255 (pretty n) = Some (n, ""%string) ∧ pretty n ≠ ""%string).

Lemma octets_ok n : 0 ≤ n < 256 → octet_ok n = true.
Proof.
  intros Hn. assert (forallb octet_ok (seqZ 0 256) = true) as Hall by (by vm_compute).
  rewrite forallb_forall in Hall. apply Hall, list_elem_of_In, elem_of_seqZ. lia.
Qed.
Lemma digit_char_read x : (x < 10)%N → to_digit 10 (pretty_N_char x) = Some (Z.of_N x).
Proof.
  intros Hx. assert (x = 0 ∨ x = 1 ∨ x = 2 ∨ x = 3 ∨ x = 4 ∨ x = 5 ∨ x = 6 ∨ x = 7 ∨ x = 8 ∨ x = 9)%N as H by lia.
  naive_solver.
Qed.

Lemma read_digits_pretty max x count s :
  Z.of_N x ≤ max → 0 ≤ count →
  ∃ count', (if decide (x = 0%N) then count' = count else 0 < count') ∧
    read_digits 10 None max 0 count (pretty_N_go x s) = read_digits 10 None max (Z.of_N x) count' s.
Proof.
  revert s. induction (N.lt_wf_0 x) as [x _ IH]; intros s Hx Hc. case_decide as H0.
  { subst x. exists count. by rewrite pretty_N_go_0. }
  rewrite pretty_N_go_step by lia.
  destruct (IH (x `div` 10)%N) with (String (pretty_N_char (x `mod` 10)) s) as (k & Hk & ->);
    [apply N.div_lt; lia| |done|].
  { etrans; [|exact Hx]. apply N2Z.inj_le, N.Div0.div_le_upper_bound. lia. }
  exists (k + 1). split; [case_decide; lia|]. simpl. rewrite digit_char_read by (apply N.mod_lt; lia).
  replace (Z.of_N (x `div` 10) * 10 + Z.of_N (x `mod` 10)) with (Z.of_N x)
    by (rewrite (N.div_mod x 10) at 1 by lia; lia).
  by rewrite (proj2 (Z.ltb_ge max (Z.of_N x))).
Qed.

Lemma read_port_pretty n : 0 ≤ n ≤ 65535 → read_number 10 None true 65535 (pretty n) = Some (n, ""%string).
Proof.
  intros Hn. destruct n as [|n|]; [done| |lia]. unfold pretty, pretty_Z, pretty, pretty_positive, pretty, pretty_N.
  rewrite decide_False by done. unfold read_number.
  destruct (read_digits_pretty 65535 (N.pos n) 0 "") as (k & Hk & ->); [lia..|].
  rewrite decide_False in Hk by done. cbn [read_digits mbind option_bind].
  rewrite (proj2 (Z.eqb_neq k 0)) by lia. cbn [negb andb].
  by rewrite (proj2 (Z.leb_le (Z.of_N (N.pos n)) 65535)) by lia.
Qed.

Lemma read_octet_first n rest :
  0 ≤ n < 256 → (match rest with String c _ => to_digit 10 c = None | EmptyString => True end) →
  read_octet 0 (pretty n +:+ rest)%string = Some (n, rest).
Proof.
  intros Hn Hrest. pose proof (octets_ok n Hn) as [Hread Hne]%bool_decide_eq_true.
  exact (read_number_app _ _ _ _ _ _ rest Hread Hrest Hne).
Qed.
Lemma read_octet_next i n rest :
  0 ≤ n < 256 → (match rest with String c _ => to_digit 10 c = None | EmptyString => True end) →
  read_octet (S i) ("." +:+ pretty n +:+ rest)%string = Some (n, rest).
Proof. exact (read_octet_first n rest). Qed.

Lemma octet_range ip k : 0 ≤ octet ip k < 256.
Proof. unfold octet. apply Z.mod_pos_bound. lia. Qed.

Lemma octets_value ip :
  0 ≤ ip ≤ u32_max →
  ((octet ip 3 * 256 + octet ip 2) * 256 + octet ip 1) * 256 + octet ip 0 = ip.
Proof.
  unfold u32_max, octet. intros Hip. change (2 ^ (8 * 3)) with 16777216.
  change (2 ^ (8 * 2)) with 65536. change (2 ^ (8 * 1)) with 256. change (2 ^ (8 * 0)) with 1.
  rewrite (Z.mod_small (ip / 16777216)) by (split; [apply Z.div_pos|apply Z.div_lt_upper_bound]; lia).
  Z.to_euclidean_division_equations. lia.
Qed.

(** Every IPv4 socket address is read back from its text. *)
Lemma v4_from_to_string ip port :
  0 ≤ ip ≤ u32_max → 0 ≤ port ≤ 65535 →
  from_str (v4_to_string ip port) = Some (SocketAddrV4 ip port).
Proof.
  intros Hip Hport. unfold from_str, v4_to_string, read_socket_addr_v4, read_ipv4_addr.
  pose proof (octet_range ip) as Ho.
  rewrite read_octet_first by first [apply Ho|reflexivity]. cbn [mbind option_bind].
  do 3 (rewrite read_octet_next by first [apply Ho|reflexivity]; cbn [mbind option_bind]).
  unfold read_port.
  change (read_given_char ":" (":" +:+ pretty port)) with (Some (tt, pretty port)).
  cbn [mbind option_bind]. rewrite read_port_pretty by done. cbn [mbind option_bind]. by rewrite octets_value.
Qed.

Example from_str_examples :
  from_str "[fe80::1%3]:443" = Some (SocketAddrV6 (65152 * 2 ^ 112 + 1) 443 0 3) ∧
  from_str "[::ffff:1.2.3.4]:1" = Some (SocketAddrV6 (65535 * 2 ^ 32 + 16909060) 1 0 0) ∧
  from_str "[1:2:3:4:5:6:7:8]:80" = Some (SocketAddrV6 (from_segments [1; 2; 3; 4; 5; 6; 7; 8]) 80 0 0) ∧
  from_str "127.0.0.1:0080" = Some (SocketAddrV4 2130706433 80) ∧
  from_str "01.2.3.4:80" = None ∧ from_str "1.2.3.4:65536" = None ∧ from_str "1.2.3.4" = None ∧
  from_str "[1::2::3]:80" = None ∧ from_str "localhost:80" = None.
Proof. by vm_compute. Qed.
End roundtrip.
