(* ===== verification/Python.v ===== *)
(** * Python objects and the embedded interpreter

    The part of [pyo3] that the program uses, as interfaces: [PyObjects] are the
    objects that are built and taken apart by the conversions, [Python] is the
    interpreter, whose state every call may change. The state is shared by all
    executors of the program. A fallible operation of the interpreter ends with
    the text of its exception; [?] passes it on, [unwrap] panics. *)

From S2P Require Import Prelude.

Class PyObjects (Obj : Type) := {
  (** [into_py] of numbers, booleans, strings and vectors of bytes. *)
  py_int : Z → Obj;
  py_bool : bool → Obj;
  py_str : string → Obj;
  py_vec_u8 : list Z → Obj;
  (** A tuple of a string and a port, [PyList::append] of the items in order,
      [PyDict::set_item] of the items in order. *)
  py_pair : Obj → Obj → Obj;
  py_list : list Obj → Obj;
  py_dict : list (string * Obj) → Obj;
  py_none : Obj;
  (** [is_none], [downcast] and [extract]. *)
  py_is_none : Obj → bool;
  py_is_dict : Obj → bool;
  py_get_item : Obj → string → option Obj;
  py_as_list : Obj → option (list Obj);
  py_as_str : Obj → option string;
  py_as_u64 : Obj → option Z;
  py_as_vec_u8 : Obj → option (list Z);
  (** The texts of the errors of [downcast] and [extract], and how an object is
      displayed. *)
  py_type_error : Obj → string → string;
  py_display : Obj → string;
}.

(** The item of a key in a list of items. *)
Fixpoint assoc {A} (k : string) (l : list (string * A)) : option A :=
  match l with
  | [] => None
  | (k', a) :: l => if String.eqb k' k then Some a else assoc k l
  end.

(** What a conversion builds, the opposite conversion takes apart. *)
Class PyObjectsLaws (Obj : Type) `{PyObjects Obj} := {
  as_u64_int z : is_u64 z → py_as_u64 (py_int z) = Some z;
  as_str_str s : py_as_str (py_str s) = Some s;
  as_vec_vec l : Forall (λ b, 0 ≤ b < 256) l → py_as_vec_u8 (py_vec_u8 l) = Some l;
  as_list_list l : py_as_list (py_list l) = Some l;
  is_none_list l : py_is_none (py_list l) = false;
  is_none_none : py_is_none py_none = true;
  is_dict_dict l : py_is_dict (py_dict l) = true;
  get_item_dict l k : NoDup l.*1 → py_get_item (py_dict l) k = assoc k l;
}.

(** [PyModule::from_code], [getattr] and [call1]. *)
Class Python (Obj Mod W : Type) := {
  py_from_code : string → string → W → result Mod string * W;
  py_getattr : Mod → string → W → result Obj string * W;
  py_call1 : Obj → list Obj → W → result Obj string * W;
}.

(** ** Fallible steps *)

(** A computation that may panic or end with an exception. *)
Definition attempt (A : Type) := outcome (result A string).
Definition attempt_bind {A B} (m : attempt A) (f : A → attempt B) : attempt B :=
  match m with
  | Done (Ok a) => f a
  | Done (Err e) => Done (Err e)
  | Panicked w => Panicked w
  end.
Notation "'let?' x := m 'in' k" := (attempt_bind m (λ x, k)) (at level 200, x name, m at level 100, k at level 200).

Definition raise {A} (e : string) : attempt A := Done (Err e).
Definition succeed {A} (a : A) : attempt A := Done (Ok a).
Definition unwrap {A} (o : option A) : attempt A := match o with Some a => Done (Ok a) | None => Panicked ExpectFailed end.
Definition from_outcome {A} (o : outcome A) : attempt A :=
  match o with Done a => Done (Ok a) | Panicked w => Panicked w end.
Definition ok_or {A} (o : option A) (e : string) : attempt A := match o with Some a => Done (Ok a) | None => Done (Err e) end.

(** A [for] loop that collects the results of its body. *)
Fixpoint attempt_each {A B} (f : A → attempt B) (l : list A) : attempt (list B) :=
  match l with
  | [] => succeed []
  | a :: l => let? b := f a in let? bs := attempt_each f l in succeed (b :: bs)
  end.

(** The same, with the state of the interpreter. *)
Definition py (W A : Type) := W → outcome (result A string * W).
Definition py_bind {W A B} (m : py W A) (f : A → py W B) : py W B := λ w,
  match m w with
  | Done (Ok a, w) => f a w
  | Done (Err e, w) => Done (Err e, w)
  | Panicked why => Panicked why
  end.
Notation "'let!' x := m 'in' k" := (py_bind m (λ x, k)) (at level 200, x name, m at level 100, k at level 200).
Definition py_step {W A} (m : W → result A string * W) : py W A := λ w, Done (m w).
Definition py_attempt {W A} (m : attempt A) : py W A := λ w,
  match m with Done r => Done (r, w) | Panicked why => Panicked why end.

Lemma attempt_each_ok {A B} (f : A → attempt B) (g : B → A) (l : list B) :
  (∀ b, b ∈ l → f (g b) = succeed b) → attempt_each f (g <$> l) = succeed l.
Proof.
  induction l as [|b l IH]; intros Hf; [done|]. rewrite fmap_cons. cbn [attempt_each].
  rewrite Hf by set_solver. cbn [attempt_bind succeed]. rewrite IH by set_solver. done.
Qed.

(** ** Objects as data *)
#[local] Set Warnings "-register-all".
Inductive PyValue :=
  | PyNone
  | PyInt (z : Z)
  | PyBool (b : bool)
  | PyStr (s : string)
  | PyPair (a b : PyValue)
  | PyList (l : list PyValue)
  | PyDict (l : list (string * PyValue)).

(** A vector of bytes becomes a list of numbers. *)
Definition value_u8 (v : PyValue) : option Z :=
  match v with PyInt z => if (0 <=? z) && (z <? 256) then Some z else None | _ => None end.

#[export] Instance py_values : PyObjects PyValue := {|
  py_int := PyInt; py_bool := PyBool; py_str := PyStr; py_vec_u8 l := PyList (PyInt <$> l);
  py_pair := PyPair; py_list := PyList; py_dict := PyDict; py_none := PyNone;
  py_is_none v := match v with PyNone => true | _ => false end;
  py_is_dict v := match v with PyDict _ => true | _ => false end;
  py_get_item v k := match v with PyDict l => assoc k l | _ => None end;
  py_as_list v := match v with PyList l => Some l | _ => None end;
  py_as_str v := match v with PyStr s => Some s | _ => None end;
  py_as_u64 v := match v with PyInt z => if (0 <=? z) && (z <=? u64_max) then Some z else None | _ => None end;
  py_as_vec_u8 v := match v with PyList l => mapM value_u8 l | _ => None end;
  py_type_error _ expected := ("not a " +:+ expected)%string;
  py_display _ := "object"%string;
|}.

#[export] Instance py_values_laws : PyObjectsLaws PyValue.
Proof.
  constructor; try done.
  - intros z [??]. simpl. by rewrite (proj2 (Z.leb_le 0 z)), (proj2 (Z.leb_le z u64_max)).
  - intros l Hl. apply mapM_fmap_Forall_Some. eapply Forall_impl; [exact Hl|]. intros b [??]. simpl.
    by rewrite (proj2 (Z.leb_le 0 b)), (proj2 (Z.ltb_lt b 256)).
Qed.
