(* ===== verification/PyExecutor.v ===== *)
(** * The Python executor

    Model of [executor/pyo3/mod.rs] and [executor/pyo3/conversion.rs]: the
    executor keeps the context object of its filter and the code of the filters
    that are installed; every call runs a function of the code in the
    interpreter, then the function [poll] of the same code, and takes the events
    the filter asks for out of the object that returns.

    The types of the backend are converted by [ExecutorObjects], which stands for
    [IntoExecutorObject] and [FromExecutorObject]; the latter may panic. The
    [Debug] text of an interface is a parameter, and so are the random numbers in
    the names of modules, arguments of the calls. *)

From S2P Require Import Prelude Backend Python.
From stdpp Require Import pretty.

(** [IntoExecutorObject] and [FromExecutorObject] for the types of a backend. *)
Class ExecutorObjects `{NetworkBackend} (Obj : Type) := {
  peer_into_object : PeerId → Obj;
  message_into_object : Message → Obj;
  request_into_object : Request → Obj;
  response_into_object : Response → Obj;
  protocol_into_object : Protocol → Obj;
  parameters_into_object : NetworkParameters → Obj;
  peer_from_object : Obj → outcome PeerId;
  message_from_object : Obj → outcome Message;
  protocol_from_object : Obj → outcome Protocol;
  interface_parameters_from_object : Obj → outcome InterfaceParameters;
}.

Module PyExecutor.
Section conversion.
Context `{NB : NetworkBackend} {Obj : Type} `{PO : !PyObjects Obj, EO : !ExecutorObjects Obj}.

(** ** [conversion.rs] *)

(** [downcast] and [extract] with [?]. *)
Definition downcast_dict (o : Obj) : attempt Obj :=
  if py_is_dict o then succeed o else raise (py_type_error o "PyDict").
Definition downcast_list (o : Obj) : attempt (list Obj) := ok_or (py_as_list o) (py_type_error o "PyList").
Definition extract_usize (o : Obj) : attempt Z := ok_or (py_as_u64 o) (py_type_error o "usize").
Definition extract_vec_u8 (o : Obj) : attempt (list Z) := ok_or (py_as_vec_u8 o) (py_type_error o "Vec<u8>").
Definition invalid_type {A} (o : Obj) : attempt A :=
  raise ("TypeError: Invalid type received: `" +:+ py_display o +:+ "`")%string.

Inductive NotificationHandlingResult := NhDrop | NhDelay (delay : Z) | NhForward.
Inductive RequestHandlingResult :=
  | RqDoNothing
  | RqRequest (peer : PeerId) (payload : list Z)
  | RqResponse (responses : list (PeerId * list Z)).
Inductive ResponseHandlingResult :=
  | RsDoNothing
  | RsResponse (responses : list (PeerId * list Z)) (request : option (RequestId * list Z)).

Definition extract_notification_result (object : Obj) : attempt NotificationHandlingResult :=
  let? dict := downcast_dict object in
  if py_get_item dict "Drop" is Some _ then succeed NhDrop
  else if py_get_item dict "Forward" is Some _ then succeed NhForward
  else match py_get_item dict "Delay" with
       | Some delay => let? delay := extract_usize delay in succeed (NhDelay delay)
       | None => invalid_type dict
       end.

(** An entry of a list of responses. *)
Definition extract_response_entry (missing : string) (entry : Obj) : attempt (PeerId * list Z) :=
  let? dict := downcast_dict entry in
  let? peer := ok_or (py_get_item dict "peer") "TypeError: Peer missing" in
  let? payload := ok_or (py_get_item dict "payload") missing in
  let? payload := extract_vec_u8 payload in
  let? peer := from_outcome (peer_from_object peer) in
  succeed (peer, payload).

Definition extract_request_result (object : Obj) : attempt RequestHandlingResult :=
  let? dict := downcast_dict object in
  if py_get_item dict "DoNothing" is Some _ then succeed RqDoNothing
  else match py_get_item dict "Request" with
       | Some request =>
           let? dict := downcast_dict request in
           let? peer := ok_or (py_get_item dict "peer") "TypeError: Peer ID missing" in
           let? payload := ok_or (py_get_item dict "payload") "TypeError: Request missing" in
           let? payload := extract_vec_u8 payload in
           let? peer := from_outcome (peer_from_object peer) in
           succeed (RqRequest peer payload)
       | None =>
           match py_get_item dict "Response" with
           | Some result =>
               let? results := downcast_list result in
               let? responses := attempt_each (extract_response_entry "TypeError: Response missing") results in
               succeed (RqResponse responses)
           | None => invalid_type dict
           end
       end.

Definition extract_response_result (object : Obj) : attempt ResponseHandlingResult :=
  let? dict := downcast_dict object in
  if py_get_item dict "DoNothing" is Some _ then succeed RsDoNothing
  else match py_get_item dict "Response" with
       | Some result =>
           let? results := downcast_dict result in
           let? responses := ok_or (py_get_item results "Responses") "TypeError: Responses missing" in
           let? responses := downcast_list responses in
           let? responses := attempt_each (extract_response_entry "TypeError: Request missing") responses in
           succeed (RsResponse responses None)
       | None => invalid_type dict
       end.

(** The events of one item of the list a filter returns: one, or none when no
    key is known. *)
Definition extract_event (item : Obj) : attempt (list ExecutorEvent) :=
  let? dict := downcast_dict item in
  if py_get_item dict "Connect" is Some peer then
    let? peer := from_outcome (peer_from_object peer) in
    succeed [EvConnect peer]
  else if py_get_item dict "Forward" is Some info then
    let? info := downcast_dict info in
    let? notification := unwrap (py_get_item info "notification") in
    let? notification := from_outcome (message_from_object notification) in
    let? peers := unwrap (py_get_item info "peers") in
    let? peers := downcast_list peers in
    let? peers := attempt_each (λ peer, from_outcome (peer_from_object peer)) peers in
    let? protocol := unwrap (py_get_item info "protocol") in
    let? protocol := from_outcome (protocol_from_object protocol) in
    succeed [EvForward peers protocol notification]
  else if py_get_item dict "SendRequest" is Some info then
    let? info := downcast_dict info in
    let? payload := unwrap (py_get_item info "request") in
    let? payload := extract_vec_u8 payload in
    let? peer := unwrap (py_get_item info "peer") in
    let? peer := from_outcome (peer_from_object peer) in
    let? protocol := unwrap (py_get_item info "protocol") in
    let? protocol := from_outcome (protocol_from_object protocol) in
    succeed [EvSendRequest peer protocol payload]
  else if py_get_item dict "SendResponse" is Some info then
    let? info := downcast_dict info in
    let? payload := unwrap (py_get_item info "response") in
    let? payload := extract_vec_u8 payload in
    let? peer := unwrap (py_get_item info "peer") in
    let? peer := from_outcome (peer_from_object peer) in
    succeed [EvSendResponse peer payload]
  else succeed [].

(** [ExecutorEvents::extract]. *)
Definition extract_events (object : Obj) : attempt (list ExecutorEvent) :=
  if py_is_none object then succeed []
  else
    let? events := unwrap (py_as_list object) in
    let? results := attempt_each extract_event events in
    succeed (mjoin results).
End conversion.

Section executor.
Context `{NB : NetworkBackend} {Obj Mod W : Type} `{PO : !PyObjects Obj, EO : !ExecutorObjects Obj, PY : !Python Obj Mod W}.
(** The [Debug] text of an interface. *)
Context (interface_debug : InterfaceId → string).

Definition from_code (code name : string) : py W Mod := py_step (py_from_code code name).
Definition getattr (m : Mod) (name : string) : py W Obj := py_step (py_getattr m name).
Definition call1 (f : Obj) (args : list Obj) : py W Obj := py_step (py_call1 f args).

(** The end of [with_gil]: an exception becomes an [Error]. *)
Definition with_gil {A} (m : py W A) (w : W) : outcome (result A Error * W) :=
  match m w with
  | Done (Ok a, w) => Done (Ok a, w)
  | Done (Err e, w) => Done (Err (Error_from_PyErr e), w)
  | Panicked why => Panicked why
  end.

Record PyO3Executor := mkExecutor {
  context : Obj;
  interface : InterfaceId;
  code : string;
  notification_filters : gmap Protocol string;
  request_response_filters : gmap Protocol string;
}.
Implicit Types (e : PyO3Executor).

Definition module_name (interface : InterfaceId) : string := ("module" +:+ interface_debug interface)%string.
Definition random_module_name (number : Z) : string := ("module" +:+ pretty number)%string.

(** The macro [call_executor!]. *)
Definition call_executor (interface : InterfaceId) (code fn_name : string) (ctx : Obj) (args : list Obj) :
    py W (list ExecutorEvent) :=
  let module := module_name interface in
  let! m := from_code code module in
  let! function := getattr m fn_name in
  let! _ := call1 function (ctx :: args) in
  let! m := from_code code module in
  let! poll := getattr m "poll" in
  let! object := call1 poll [ctx] in
  py_attempt (extract_events object).

Definition initialize_interface (code : string) (parameters : NetworkParameters) (number : Z) :
    W → outcome (result InterfaceParameters Error * W) :=
  with_gil (
    let! m := from_code code (random_module_name number) in
    let! fun_ := getattr m "initialize_interface" in
    let! interface_parameters := call1 fun_ [parameters_into_object parameters] in
    py_attempt (from_outcome (interface_parameters_from_object interface_parameters))).

(** The argument [context] is [None] or a string. *)
Definition new (interface : InterfaceId) (code : string) (context : option string) (w : W) :
    outcome (result PyO3Executor Error * W) :=
  with_gil (
    let! m := from_code code (module_name interface) in
    let! fun_ := getattr m "initialize_ctx" in
    let! context := call1 fun_ [match context with Some c => py_str c | None => py_none end] in
    py_attempt (succeed (mkExecutor context interface code ∅ ∅))) w.

Definition poll e (number : Z) : W → outcome (result (list ExecutorEvent) Error * W) :=
  with_gil (
    let! m := from_code (code e) (random_module_name number) in
    let! poll := getattr m "poll" in
    let! object := call1 poll [context e] in
    py_attempt (extract_events object)).

Definition register_peer e (peer : PeerId) : W → outcome (result (list ExecutorEvent) Error * W) :=
  with_gil (call_executor (interface e) (code e) "register_peer" (context e) [peer_into_object peer]).
Definition discover_peer e (peer : PeerId) : W → outcome (result (list ExecutorEvent) Error * W) :=
  with_gil (call_executor (interface e) (code e) "discover_peer" (context e) [peer_into_object peer]).
Definition unregister_peer e (peer : PeerId) : W → outcome (result (list ExecutorEvent) Error * W) :=
  with_gil (call_executor (interface e) (code e) "unregister_peer" (context e) [peer_into_object peer]).
Definition protocol_opened e (peer : PeerId) (protocol : Protocol) :
    W → outcome (result (list ExecutorEvent) Error * W) :=
  with_gil (call_executor (interface e) (code e) "protocol_opened" (context e)
    [peer_into_object peer; protocol_into_object protocol]).
Definition protocol_closed e (peer : PeerId) (protocol : Protocol) :
    W → outcome (result (list ExecutorEvent) Error * W) :=
  with_gil (call_executor (interface e) (code e) "protocol_closed" (context e)
    [peer_into_object peer; protocol_into_object protocol]).

Definition install_notification_filter e (protocol : Protocol) (new_code : string) :
    W → outcome (result PyO3Executor Error * W) :=
  with_gil (
    let! m := from_code new_code (module_name (interface e)) in
    let! _ := getattr m "inject_notification" in
    py_attempt (succeed (mkExecutor (context e) (interface e) (code e) (<[protocol := new_code]> (notification_filters e))
      (request_response_filters e)))).

Definition install_request_response_filter e (protocol : Protocol) (new_code : string) :
    W → outcome (result PyO3Executor Error * W) :=
  with_gil (
    let! m := from_code new_code (module_name (interface e)) in
    let! _ := getattr m "inject_request" in
    let! _ := getattr m "inject_response" in
    py_attempt (succeed (mkExecutor (context e) (interface e) (code e) (notification_filters e)
      (<[protocol := new_code]> (request_response_filters e))))).

Definition filter_missing {A} (w : W) : outcome (result A Error * W) :=
  Done (Err (EExecutorError ExecutorFilterDoesntExist), w).

Definition inject_notification e (protocol : Protocol) (peer : PeerId) (notification : Message) :
    W → outcome (result (list ExecutorEvent) Error * W) :=
  match notification_filters e !! protocol with
  | None => filter_missing
  | Some code =>
      with_gil (call_executor (interface e) code "inject_notification" (context e)
        [peer_into_object peer; protocol_into_object protocol; message_into_object notification])
  end.

Definition inject_request e (protocol : Protocol) (peer : PeerId) (request : Request) :
    W → outcome (result (list ExecutorEvent) Error * W) :=
  match request_response_filters e !! protocol with
  | None => filter_missing
  | Some code =>
      with_gil (call_executor (interface e) code "inject_request" (context e)
        [protocol_into_object protocol; peer_into_object peer; request_into_object request])
  end.

Definition inject_response e (protocol : Protocol) (peer : PeerId) (response : Response) :
    W → outcome (result (list ExecutorEvent) Error * W) :=
  match request_response_filters e !! protocol with
  | None => filter_missing
  | Some code =>
      with_gil (call_executor (interface e) code "inject_response" (context e)
        [peer_into_object peer; response_into_object response])
  end.
End executor.
Arguments PyO3Executor {NB} Obj.
End PyExecutor.
