(* ===== verification/PyExecutorTheorems.v ===== *)
(** * What the Python executor runs

    Which code is loaded for a call, with which arguments, and what becomes of
    the objects a filter returns. The calls are observed by an interpreter that
    keeps a log ([logged]) next to any interpreter. *)

From S2P Require Import Prelude Backend Python PyExecutor.
Import PyExecutor.

(** The conversions from objects undo those to objects. *)
Class ExecutorObjectsLaws `{NetworkBackend} (Obj : Type) `{!ExecutorObjects Obj} := {
  peer_from_into p : peer_from_object (peer_into_object p) = Done p;
  message_from_into m : message_from_object (message_into_object m) = Done m;
  protocol_from_into p : protocol_from_object (protocol_into_object p) = Done p;
}.

(** ** Events of a filter *)
Section events.
Context `{NB : NetworkBackend} {Obj : Type} `{PO : !PyObjects Obj, EO : !ExecutorObjects Obj}.
Context `{PL : !PyObjectsLaws Obj, EL : !ExecutorObjectsLaws Obj}.

(** The object of an event: a dictionary with its kind as the only key. *)
Definition event_object (ev : ExecutorEvent) : Obj :=
  match ev with
  | EvConnect peer => py_dict [("Connect"%string, peer_into_object peer)]
  | EvForward peers protocol notification =>
      py_dict [("Forward"%string, py_dict [("peers"%string, py_list (peer_into_object <$> peers));
        ("protocol"%string, protocol_into_object protocol); ("notification"%string, message_into_object notification)])]
  | EvSendRequest peer protocol payload =>
      py_dict [("SendRequest"%string, py_dict [("peer"%string, peer_into_object peer);
        ("protocol"%string, protocol_into_object protocol); ("request"%string, py_vec_u8 payload)])]
  | EvSendResponse peer payload =>
      py_dict [("SendResponse"%string, py_dict [("peer"%string, peer_into_object peer);
        ("response"%string, py_vec_u8 payload)])]
  end.

Definition payload_ok (ev : ExecutorEvent) : Prop :=
  match ev with
  | EvSendRequest _ _ payload | EvSendResponse _ payload => Forall (λ b, 0 ≤ b < 256) payload
  | _ => True
  end.

(** An item of the list a filter returns: an event, or a dictionary without a
    key of one. *)
Definition event_keys : list string := ["Connect"; "Forward"; "SendRequest"; "SendResponse"]%string.
Definition item_object (item : ExecutorEvent + list (string * Obj)) : Obj :=
  match item with inl ev => event_object ev | inr l => py_dict l end.
Definition item_ok (item : ExecutorEvent + list (string * Obj)) : Prop :=
  match item with
  | inl ev => payload_ok ev
  | inr l => NoDup l.*1 ∧ ∀ k, k ∈ event_keys → k ∉ l.*1
  end.

Ltac get_items :=
  repeat (first
    [ rewrite is_dict_dict | rewrite as_list_list
    | rewrite get_item_dict by (simpl; compute_done)
    | rewrite peer_from_into | rewrite message_from_into | rewrite protocol_from_into
    | rewrite as_vec_vec by done ]; cbn).

Lemma extract_event_object ev : payload_ok ev → extract_event (event_object ev) = succeed [ev].
Proof.
  destruct ev as [peer|peers protocol n|peer protocol payload|peer payload]; intros Hp; simpl in Hp;
    unfold extract_event, event_object, downcast_dict, downcast_list, extract_vec_u8; get_items; [done| |done|done].
  rewrite attempt_each_ok; [done|]. intros p _. by rewrite peer_from_into.
Qed.

Lemma assoc_not_in {A} (k : string) (l : list (string * A)) : k ∉ l.*1 → assoc k l = None.
Proof.
  induction l as [|[k' a] l IH]; [done|]. rewrite fmap_cons, not_elem_of_cons. intros [Hk Hl]. simpl.
  destruct (String.eqb_spec k' k) as [->|_]; [done|]. by apply IH.
Qed.

Lemma extract_event_other (l : list (string * Obj)) :
  NoDup l.*1 → (∀ k, k ∈ event_keys → k ∉ l.*1) → extract_event (py_dict l) = succeed [].
Proof.
  intros Hnd Hk. unfold extract_event, downcast_dict. rewrite is_dict_dict. simpl.
  rewrite !get_item_dict by done. rewrite !assoc_not_in by (apply Hk; unfold event_keys; set_solver). done.
Qed.

Lemma extract_items (items : list (ExecutorEvent + list (string * Obj))) : Forall item_ok items →
  attempt_each extract_event (item_object <$> items) =
    succeed ((λ item, match item with inl ev => [ev] | inr _ => [] end) <$> items).
Proof.
  induction 1 as [|item items Hi _ IH]; [done|]. rewrite fmap_cons. cbn [attempt_each]. destruct item as [ev|l].
  - simpl. rewrite extract_event_object by done. simpl. by rewrite IH.
  - destruct Hi as [Hnd Hk]. simpl. rewrite extract_event_other by done. simpl. by rewrite IH.
Qed.

Lemma events_extracted (items : list (ExecutorEvent + list (string * Obj))) :
  Forall item_ok items →
  extract_events (py_list (item_object <$> items)) =
    Done (Ok (omap (λ item, match item with inl ev => Some ev | inr _ => None end) items)) ∧
  extract_events (py_none : Obj) = Done (Ok []).
Proof.
  intros Hi. split; [|unfold extract_events; by rewrite is_none_none].
  unfold extract_events. rewrite is_none_list, as_list_list. simpl. rewrite extract_items by done. simpl.
  unfold succeed. do 2 f_equal. clear. induction items as [|[ev|l] items IH]; [done| |exact IH].
  simpl. f_equal. exact IH.
Qed.

(** C32: The events a filter returns arrive as they were built: from a list of
    event dictionaries the executor gets exactly these events, in order, passing
    over dictionaries without a known key, and from [None] no event. *)
Theorem events_roundtrip (items : list (ExecutorEvent + list (string * Obj))) :
  Forall item_ok items →
  extract_events (py_list (item_object <$> items)) =
    Done (Ok (omap (λ item, match item with inl ev => Some ev | inr _ => None end) items)) ∧
  extract_events (py_none : Obj) = Done (Ok []).
Proof. apply events_extracted. Qed.
End events.

(** ** The calls of the interpreter *)
Section calls.
Context `{NB : NetworkBackend} {Obj Mod W : Type} `{PO : !PyObjects Obj, EO : !ExecutorObjects Obj, PY : !Python Obj Mod W}.
Context (interface_debug : InterfaceId → string).

(** A script: load code, take a name from the module loaded last, call the
    object taken last. *)
Inductive PyOp := Load (code : string) | Get (name : string) | Call (args : list Obj).

(** What the interpreter was asked to do, with its answers. *)
Inductive PyEvent :=
  | Loaded (code : string) (answer : result Mod string)
  | Got (from : Mod) (name : string) (answer : result Obj string)
  | Called (function : Obj) (args : list Obj) (answer : result Obj string).
Abbreviation World := (list PyEvent * W)%type.
Abbreviation Executor := (PyExecutor.PyO3Executor Obj).

(** An interpreter with a log of what it is asked to do. *)
#[local] Instance logged : Python Obj Mod World := {|
  py_from_code code name w := let '(r, w') := py_from_code code name w.2 in (r, (w.1 ++ [Loaded code r], w'));
  py_getattr m name w := let '(r, w') := py_getattr m name w.2 in (r, (w.1 ++ [Got m name r], w'));
  py_call1 f args w := let '(r, w') := py_call1 f args w.2 in (r, (w.1 ++ [Called f args r], w'));
|}.

Definition answered {A} (r : result A string) : option A := match r with Ok a => Some a | Err _ => None end.

(** The log [l] is the script [s], or its beginning. [m] is the module loaded
    last and [f] the object taken from it last: that very object is the one a
    [Call] calls. After an exception there is none, so that nothing follows. *)
Fixpoint enacts (m : option Mod) (f : option Obj) (s : list PyOp) (l : list PyEvent) : Prop :=
  match s, l with
  | _, [] => True
  | Load code :: s, Loaded code' r :: l => code' = code ∧ enacts (answered r) None s l
  | Get name :: s, Got m' name' r :: l => m = Some m' ∧ name' = name ∧ enacts (match r with Ok _ => m | Err _ => None end) (answered r) s l
  | Call args :: s, Called f' args' r :: l =>
      f = Some f' ∧ args' = args ∧ enacts (match r with Ok _ => m | Err _ => None end) None s l
  | _, _ => False
  end.

Lemma enacts_nil m f s : enacts m f s [].
Proof. by destruct s as [|[]]. Qed.

(** The object the last call returned. *)
Definition returned (o : option Obj) (l : list PyEvent) : option Obj :=
  foldl (λ o x, match x with Called _ _ r => answered r | _ => o end) o l.

(** A computation does the beginning of a script, and all of it if it
    succeeds; its value is then related to the object the last call returned. *)
Definition log_ok {A E} (m : option Mod) (f o : option Obj) (w : World) (c : outcome (result A E * World))
    (s : list PyOp) (Q : option Obj → A → Prop) : Prop :=
  match c with
  | Done (r, w') => ∃ l, w'.1 = w.1 ++ l ∧ enacts m f s l ∧
      ∀ a, r = Ok a → length l = length s ∧ Q (returned o l) a
  | Panicked _ => True
  end.
Definition does {A} (w : World) (r : outcome (result A Error * World)) (s : list PyOp) (Q : option Obj → A → Prop) : Prop :=
  log_ok None None None w r s Q.
Definition logs {A} (m : option Mod) (f o : option Obj) (c : py World A) (s : list PyOp) (Q : option Obj → A → Prop) : Prop :=
  ∀ w, log_ok m f o w (c w) s Q.

Lemma logs_attempt {A} m f o (x : attempt A) (Q : option Obj → A → Prop) :
  (∀ a, x = Done (Ok a) → Q o a) → logs m f o (py_attempt x) [] Q.
Proof.
  intros HQ w. unfold log_ok, py_attempt. destruct x as [r|]; [|done]. exists []. rewrite app_nil_r.
  split_and!; [done..|]. intros a ->. split; [done|]. by apply HQ.
Qed.

(** One more event in front of a log. *)
Lemma log_cons {A} m f o m1 f1 op s ev (w w1 : World) (c : outcome (result A string * World)) (Q : option Obj → A → Prop) :
  w1.1 = w.1 ++ [ev] → (∀ l, enacts m1 f1 s l → enacts m f (op :: s) (ev :: l)) →
  log_ok m1 f1 (returned o [ev]) w1 c s Q → log_ok m f o w c (op :: s) Q.
Proof.
  intros Hw1 Hen Hc. unfold log_ok in *. destruct c as [[r w']|]; [|done]. destruct Hc as (l & Hl & He & Hr).
  exists (ev :: l). split_and!; [by rewrite Hl, Hw1, <- app_assoc|by apply Hen|]. intros a Ha.
  destruct (Hr a Ha) as [Hlen HQ]. split; [by rewrite !length_cons, Hlen|done].
Qed.

Lemma logs_load {A} m f o c n (k : Mod → py World A) s Q :
  (∀ m', logs (Some m') None o (k m') s Q) → logs m f o (py_bind (from_code c n) k) (Load c :: s) Q.
Proof.
  intros Hk w. unfold py_bind, from_code, py_step. cbn [py_from_code logged]. destruct (py_from_code c n w.2) as [r w'] eqn:E.
  destruct r as [m'|e].
  - apply (log_cons _ _ _ (Some m') None _ _ (Loaded c (Ok m')) w (w.1 ++ [Loaded c (Ok m')], w')); [done..|]. apply Hk.
  - exists [Loaded c (Err e)]. split_and!; [done|simpl; auto using enacts_nil|done].
Qed.

Lemma logs_get {A} m f o n (k : Obj → py World A) s Q :
  (∀ f', logs (Some m) (Some f') o (k f') s Q) → logs (Some m) f o (py_bind (getattr m n) k) (Get n :: s) Q.
Proof.
  intros Hk w. unfold py_bind, getattr, py_step. cbn [py_getattr logged]. destruct (py_getattr m n w.2) as [r w'] eqn:E.
  destruct r as [f'|e].
  - apply (log_cons _ _ _ (Some m) (Some f') _ _ (Got m n (Ok f')) w (w.1 ++ [Got m n (Ok f')], w')); [done..|]. apply Hk.
  - exists [Got m n (Err e)]. split_and!; [done|simpl; auto using enacts_nil|done].
Qed.

Lemma logs_call {A} m f o args (k : Obj → py World A) s Q :
  (∀ o', logs m None (Some o') (k o') s Q) → logs m (Some f) o (py_bind (call1 f args) k) (Call args :: s) Q.
Proof.
  intros Hk w. unfold py_bind, call1, py_step. cbn [py_call1 logged]. destruct (py_call1 f args w.2) as [r w'] eqn:E.
  destruct r as [o'|e].
  - apply (log_cons _ _ _ m None _ _ (Called f args (Ok o')) w (w.1 ++ [Called f args (Ok o')], w')); [done..|]. apply Hk.
  - exists [Called f args (Err e)]. split_and!; [done|simpl; auto using enacts_nil|done].
Qed.

Ltac logging := repeat (intros; first [apply logs_load | apply logs_get | apply logs_call | apply logs_attempt]).

Lemma does_with_gil {A} (c : py World A) s w Q : logs None None None c s Q → does w (with_gil c w) s Q.
Proof.
  intros Hm. specialize (Hm w). unfold does, log_ok, with_gil in *. destruct (c w) as [[[a|e] w']|]; [|..|done].
  - destruct Hm as (l & Hl & He & Hr). exists l. split_and!; [done..|]. intros ? [= <-]. by apply Hr.
  - destruct Hm as (l & Hl & He & Hr). by exists l.
Qed.

(** The events an operation returns are those of the object [poll] returned. *)
Definition events_from (o : option Obj) (events : list ExecutorEvent) : Prop :=
  ∃ object, o = Some object ∧ extract_events object = Done (Ok events).

Definition call_script (code fn_name : string) (ctx : Obj) (args : list Obj) : list PyOp :=
  [Load code; Get fn_name; Call (ctx :: args); Load code; Get "poll"; Call [ctx]].

Lemma call_executor_logs i code fn ctx args :
  logs None None None (call_executor interface_debug i code fn ctx args) (call_script code fn ctx args) events_from.
Proof. unfold call_executor, call_script. logging. by eexists. Qed.

(** ** Operations of the executor *)
Inductive Op :=
  | OpPoll (number : Z)
  | OpRegister (peer : PeerId)
  | OpDiscover (peer : PeerId)
  | OpUnregister (peer : PeerId)
  | OpOpened (peer : PeerId) (protocol : Protocol)
  | OpClosed (peer : PeerId) (protocol : Protocol)
  | OpInstallNotification (protocol : Protocol) (code : string)
  | OpInstallRequestResponse (protocol : Protocol) (code : string)
  | OpNotification (protocol : Protocol) (peer : PeerId) (notification : Message)
  | OpRequest (protocol : Protocol) (peer : PeerId) (request : Request)
  | OpResponse (protocol : Protocol) (peer : PeerId) (response : Response).

Definition events_of (e : Executor) (r : outcome (result (list ExecutorEvent) Error * World)) :
    outcome (Executor * result (list ExecutorEvent) Error * World) :=
  match r with Done (r, w) => Done (e, r, w) | Panicked why => Panicked why end.
(** A failed installation leaves the executor as it is. *)
Definition installed_by (e : Executor) (r : outcome (result Executor Error * World)) :
    outcome (Executor * result (list ExecutorEvent) Error * World) :=
  match r with
  | Done (Ok e', w) => Done (e', Ok [], w)
  | Done (Err x, w) => Done (e, Err x, w)
  | Panicked why => Panicked why
  end.

Definition op_step (e : Executor) (op : Op) (w : World) :
    outcome (Executor * result (list ExecutorEvent) Error * World) :=
  match op with
  | OpPoll number => events_of e (poll e number w)
  | OpRegister peer => events_of e (register_peer interface_debug e peer w)
  | OpDiscover peer => events_of e (discover_peer interface_debug e peer w)
  | OpUnregister peer => events_of e (unregister_peer interface_debug e peer w)
  | OpOpened peer protocol => events_of e (protocol_opened interface_debug e peer protocol w)
  | OpClosed peer protocol => events_of e (protocol_closed interface_debug e peer protocol w)
  | OpInstallNotification protocol code => installed_by e (install_notification_filter interface_debug e protocol code w)
  | OpInstallRequestResponse protocol code =>
      installed_by e (install_request_response_filter interface_debug e protocol code w)
  | OpNotification protocol peer m => events_of e (inject_notification interface_debug e protocol peer m w)
  | OpRequest protocol peer r => events_of e (inject_request interface_debug e protocol peer r w)
  | OpResponse protocol peer r => events_of e (inject_response interface_debug e protocol peer r w)
  end.

(** A run, with the operations and whether they succeeded. *)
Fixpoint run_ops (e : Executor) (ops : list Op) (w : World) : outcome (Executor * list (Op * bool) * World) :=
  match ops with
  | [] => Done (e, [], w)
  | op :: ops =>
      match op_step e op w with
      | Done (e, r, w) =>
          match run_ops e ops w with
          | Done (e, h, w) => Done (e, (op, is_ok r) :: h, w)
          | Panicked why => Panicked why
          end
      | Panicked why => Panicked why
      end
  end.

(** The filter of a protocol: the last that was installed with success. *)
Definition notification_code (h : list (Op * bool)) (p : Protocol) : option string :=
  foldl (λ c x, match x with
                | (OpInstallNotification p' code, true) => if decide (p' = p) then Some code else c
                | _ => c
                end) None h.
Definition request_code (h : list (Op * bool)) (p : Protocol) : option string :=
  foldl (λ c x, match x with
                | (OpInstallRequestResponse p' code, true) => if decide (p' = p) then Some code else c
                | _ => c
                end) None h.

(** What an operation asks of the interpreter, after a history; nothing when
    there is no filter for the protocol. *)
Definition script (code : string) (ctx : Obj) (h : list (Op * bool)) (op : Op) : option (list PyOp) :=
  match op with
  | OpPoll _ => Some [Load code; Get "poll"; Call [ctx]]
  | OpRegister p => Some (call_script code "register_peer" ctx [peer_into_object p])
  | OpDiscover p => Some (call_script code "discover_peer" ctx [peer_into_object p])
  | OpUnregister p => Some (call_script code "unregister_peer" ctx [peer_into_object p])
  | OpOpened p pr => Some (call_script code "protocol_opened" ctx [peer_into_object p; protocol_into_object pr])
  | OpClosed p pr => Some (call_script code "protocol_closed" ctx [peer_into_object p; protocol_into_object pr])
  | OpInstallNotification _ c => Some [Load c; Get "inject_notification"]
  | OpInstallRequestResponse _ c => Some [Load c; Get "inject_request"; Get "inject_response"]
  | OpNotification pr p m => (λ c, call_script c "inject_notification" ctx
      [peer_into_object p; protocol_into_object pr; message_into_object m]) <$> notification_code h pr
  | OpRequest pr p r => (λ c, call_script c "inject_request" ctx
      [protocol_into_object pr; peer_into_object p; request_into_object r]) <$> request_code h pr
  | OpResponse pr p r => (λ c, call_script c "inject_response" ctx
      [peer_into_object p; response_into_object r]) <$> request_code h pr
  end.

(** The filters of an executor are those of its history. *)
Record matches (e0 : Executor) (h : list (Op * bool)) (e : Executor) : Prop := {
  m_context : context e = context e0;
  m_code : code e = code e0;
  m_notifications p : notification_filters e !! p = notification_code h p;
  m_requests p : request_response_filters e !! p = request_code h p;
}.

Lemma matches_other e0 h e op b : matches e0 h e →
  match op with OpInstallNotification _ _ | OpInstallRequestResponse _ _ => b = false | _ => True end →
  matches e0 (h ++ [(op, b)]) e.
Proof.
  intros [Hc Hco Hn Hr] Hop. constructor; [done..| |]; intros p; unfold notification_code, request_code;
    rewrite foldl_app; simpl; destruct op, b; done.
Qed.

(** What an operation returns: an installation no events, every other operation
    those of the object its last call returned. *)
Definition results (op : Op) (o : option Obj) (events : list ExecutorEvent) : Prop :=
  match op with
  | OpInstallNotification _ _ | OpInstallRequestResponse _ _ => events = []
  | _ => events_from o events
  end.

(** What [op_step] must satisfy, for the script of the operation. *)
Definition follows (e0 : Executor) (h : list (Op * bool)) (e : Executor) (op : Op) (w : World) (s : option (list PyOp))
    (o : outcome (Executor * result (list ExecutorEvent) Error * World)) : Prop :=
  match o with
  | Done (e', r, w') =>
      matches e0 (h ++ [(op, is_ok r)]) e' ∧
      match s with
      | Some s => does w (Done (r, w')) s (results op)
      | None => r = Err (EExecutorError ExecutorFilterDoesntExist) ∧ w' = w ∧ e' = e
      end
  | Panicked _ => is_Some s
  end.

Lemma events_follow e0 h e op w s r : matches e0 h e →
  match op with OpInstallNotification _ _ | OpInstallRequestResponse _ _ => False | _ => True end →
  does w r s events_from → follows e0 h e op w (Some s) (events_of e r).
Proof.
  intros Hm Hop Hd. unfold follows, events_of. destruct r as [[r w']|]; [|done].
  split; [apply matches_other; [done|by destruct op]|by destruct op].
Qed.

Lemma missing_follows e0 h e op w : matches e0 h e →
  match op with OpInstallNotification _ _ | OpInstallRequestResponse _ _ => False | _ => True end →
  follows e0 h e op w None (events_of e (filter_missing w)).
Proof. intros Hm Hop. split; [apply matches_other; [done|by destruct op]|done]. Qed.

(** The log of an installation, for the answer of the operation. *)
Lemma installed_does w w' (e : Executor) s (Q : option Obj → list ExecutorEvent → Prop) :
  (∀ o, Q o []) → does w (Done (Ok e, w')) s (λ _ _, True) → does w (Done (Ok [], w')) s Q.
Proof.
  intros HQ (l & Hl & He & Hr). exists l. split_and!; [done..|]. intros ? [= <-].
  destruct (Hr e eq_refl). by split.
Qed.
Lemma refused_does {A B} w w' x s (P : option Obj → A → Prop) (Q : option Obj → B → Prop) :
  does w (Done (Err x, w')) s P → does w (Done (Err x, w')) s Q.
Proof. intros (l & Hl & He & _). by exists l. Qed.

Lemma install_notification_follows e0 h e p c w : matches e0 h e →
  follows e0 h e (OpInstallNotification p c) w (Some [Load c; Get "inject_notification"])
    (installed_by e (install_notification_filter interface_debug e p c w)).
Proof.
  intros Hm. unfold install_notification_filter.
  match goal with |- context [with_gil ?m w] =>
    pose proof (does_with_gil m [Load c; Get "inject_notification"] w (λ _ _, True)) as Hd; set (q := m) in * end.
  assert (logs None None None q [Load c; Get "inject_notification"] (λ _ _, True)) as Hl by (unfold q; logging; done).
  specialize (Hd Hl).
  assert (∀ e' w', with_gil q w = Done (Ok e', w') →
    e' = mkExecutor (context e) (interface e) (code e) (<[p := c]> (notification_filters e)) (request_response_filters e)) as He.
  { intros e' w'. unfold q, with_gil, py_bind, py_attempt, succeed.
    destruct (from_code _ _ w) as [[[] ?]|]; try done. destruct (getattr _ _ _) as [[[] ?]|]; naive_solver. }
  destruct (with_gil q w) as [[[e'|x] w']|]; [| |by eexists].
  - rewrite (He e' w' eq_refl). split; [|by eapply installed_does]. destruct Hm as [Hc Hco Hn Hr].
    constructor; [done..| |]; intros p'; unfold notification_code, request_code; rewrite foldl_app; simpl; [|apply Hr].
    destruct (decide (p = p')) as [<-|Hne]; [by rewrite lookup_insert_eq|by rewrite lookup_insert_ne].
  - split; [by apply matches_other|by eapply refused_does].
Qed.

Lemma install_request_follows e0 h e p c w : matches e0 h e →
  follows e0 h e (OpInstallRequestResponse p c) w (Some [Load c; Get "inject_request"; Get "inject_response"])
    (installed_by e (install_request_response_filter interface_debug e p c w)).
Proof.
  intros Hm. unfold install_request_response_filter.
  match goal with |- context [with_gil ?m w] =>
    pose proof (does_with_gil m [Load c; Get "inject_request"; Get "inject_response"] w (λ _ _, True)) as Hd; set (q := m) in * end.
  assert (logs None None None q [Load c; Get "inject_request"; Get "inject_response"] (λ _ _, True)) as Hl by (unfold q; logging; done).
  specialize (Hd Hl).
  assert (∀ e' w', with_gil q w = Done (Ok e', w') →
    e' = mkExecutor (context e) (interface e) (code e) (notification_filters e) (<[p := c]> (request_response_filters e))) as He.
  { intros e' w'. unfold q, with_gil, py_bind, py_attempt, succeed.
    destruct (from_code _ _ w) as [[[] ?]|]; try done. destruct (getattr _ _ _) as [[[] ?]|]; try done.
    destruct (getattr _ _ _) as [[[] ?]|]; naive_solver. }
  destruct (with_gil q w) as [[[e'|x] w']|]; [| |by eexists].
  - rewrite (He e' w' eq_refl). split; [|by eapply installed_does]. destruct Hm as [Hc Hco Hn Hr].
    constructor; [done..| |]; intros p'; unfold notification_code, request_code; rewrite foldl_app; simpl; [apply Hn|].
    destruct (decide (p = p')) as [<-|Hne]; [by rewrite lookup_insert_eq|by rewrite lookup_insert_ne].
  - split; [by apply matches_other|by eapply refused_does].
Qed.

Lemma op_follows e0 h e op w : matches e0 h e →
  follows e0 h e op w (script (code e0) (context e0) h op) (op_step e op w).
Proof.
  intros Hm. pose proof Hm as [Hc Hco Hn Hr]. rewrite <-Hc, <-Hco.
  destruct op; simpl script; simpl op_step;
    try (apply events_follow; [done..|apply does_with_gil, call_executor_logs]).
  - apply events_follow; [done..|]. apply does_with_gil. logging. by eexists.
  - by apply install_notification_follows.
  - by apply install_request_follows.
  - unfold inject_notification. rewrite <-Hn. destruct (notification_filters e !! protocol); simpl.
    + apply events_follow; [done..|apply does_with_gil, call_executor_logs].
    + by apply missing_follows.
  - unfold inject_request. rewrite <-Hr. destruct (request_response_filters e !! protocol); simpl.
    + apply events_follow; [done..|apply does_with_gil, call_executor_logs].
    + by apply missing_follows.
  - unfold inject_response. rewrite <-Hr. destruct (request_response_filters e !! protocol); simpl.
    + apply events_follow; [done..|apply does_with_gil, call_executor_logs].
    + by apply missing_follows.
Qed.

Lemma run_matches e0 h e ops w e' h' w' : matches e0 h e → run_ops e ops w = Done (e', h', w') → matches e0 (h ++ h') e'.
Proof.
  revert h e w h'. induction ops as [|op ops IH]; intros h e w h' Hm; simpl.
  { intros [= <- <- <-]. by rewrite app_nil_r. }
  pose proof (op_follows e0 h e op w Hm) as Hf. destruct (op_step e op w) as [[[e1 r] w1]|]; [|done].
  destruct Hf as [Hm1 _]. destruct (run_ops e1 ops w1) as [[[e2 h2] w2]|] eqn:E; [|done]. intros [= <- <- <-].
  apply (IH _ _ _ _ Hm1) in E. by rewrite <-app_assoc in E.
Qed.

Lemma new_does i c ctx w :
  does w (new interface_debug i c ctx w)
    [Load c; Get "initialize_ctx"; Call [match ctx with Some c => py_str c | None => py_none end]]
    (λ o e, o = Some (context e)).
Proof. apply does_with_gil. logging. by intros e [= <-]. Qed.

(** C31: An executor runs the code that was installed. A new executor has loaded
    its code, taken [initialize_ctx] from that module, called that very function
    and kept what it returned as its context. After any run, an operation asks
    the interpreter for exactly its script (the beginning of it when the
    interpreter raises an exception): it loads the code, takes the function of
    the operation from the module and calls the object it got, with the context
    as first argument; then it loads the code again, takes [poll] from that
    module and calls the object it got with the context; the events it returns
    are those of the object this last call returned. The code is the one given
    to [new] for peers and protocols, and the filter last installed with success
    for the protocol of a notification, request or response. Without such a
    filter the operation fails with [FilterDoesntExist] and the interpreter is
    not used. *)
Theorem executor_runs_installed_code (i : InterfaceId) (c : string) (ctx : option string) (w0 : World)
    (e0 : Executor) (w1 : World) (ops : list Op) (e : Executor) (h : list (Op * bool)) (w : World) (op : Op) :
  new interface_debug i c ctx w0 = Done (Ok e0, w1) →
  run_ops e0 ops w1 = Done (e, h, w) →
  (∃ l, w1.1 = w0.1 ++ l ∧
     enacts None None [Load c; Get "initialize_ctx"; Call [match ctx with Some c => py_str c | None => py_none end]] l ∧
     length l = 3%nat ∧ returned None l = Some (context e0)) ∧
  match op_step e op w with
  | Done (e', r, w') =>
      match script c (context e0) h op with
      | Some s => ∃ l, w'.1 = w.1 ++ l ∧ enacts None None s l ∧
          ∀ events, r = Ok events → length l = length s ∧ results op (returned None l) events
      | None => r = Err (EExecutorError ExecutorFilterDoesntExist) ∧ w' = w ∧ e' = e
      end
  | Panicked _ => is_Some (script c (context e0) h op)
  end.
Proof.
  intros Hnew Hrun. pose proof (new_does i c ctx w0) as Hd. rewrite Hnew in Hd. destruct Hd as (l & Hl & He & Hr).
  split; [exists l; destruct (Hr e0 eq_refl); by split_and!|]. clear Hr.
  assert (e0 = mkExecutor (context e0) i c ∅ ∅) as He0.
  { clear -Hnew. unfold new, with_gil, py_bind, py_attempt, succeed in Hnew.
    destruct (from_code _ _ w0) as [[[] ?]|]; try done. destruct (getattr _ _ _) as [[[] ?]|]; try done.
    destruct (call1 _ _ _) as [[[] ?]|]; try done. by injection Hnew as <- _. }
  assert (matches e0 [] e0) as Hm0.
  { rewrite He0. constructor; [done..| |]; intros p; simpl; by rewrite lookup_empty. }
  pose proof (run_matches e0 [] e0 ops w1 e h w Hm0 Hrun) as Hm. pose proof (op_follows e0 h e op w Hm) as Hf.
  rewrite He0 in Hf at 2. simpl in Hf. unfold follows in Hf. destruct (op_step e op w) as [[[e' r] w']|]; [|done].
  by destruct Hf.
Qed.
End calls.

(** ** An interpreter
    A module is its code; the code [filter] defines every function, other code
    all but those of filters, and no code is not a program. [poll] asks for a
    connection. *)
#[local] Existing Instance numbers_backend.
#[local] Instance number_objects : ExecutorObjects (H := numbers_backend) PyValue := {|
  peer_into_object := PyInt : PeerId → PyValue;
  message_into_object m := PyPair (PyInt m.1) (PyInt m.2);
  request_into_object r := PyInt r.1;
  response_into_object r := PyInt r.1;
  protocol_into_object := PyInt : Protocol → PyValue;
  parameters_into_object _ := PyNone;
  peer_from_object v := match v with PyInt z => Done z | _ => Panicked ExpectFailed end;
  message_from_object v := match v with PyPair (PyInt a) (PyInt b) => Done (a, b) | _ => Panicked ExpectFailed end;
  protocol_from_object v := match v with PyInt z => Done z | _ => Panicked ExpectFailed end;
  interface_parameters_from_object _ := Done tt;
|}.
#[local] Instance number_objects_laws : ExecutorObjectsLaws (H := numbers_backend) PyValue.
Proof. constructor; [done| |done]. by intros []. Qed.

Definition injects (name : string) : bool :=
  bool_decide (name ∈ ["inject_notification"; "inject_request"; "inject_response"]%string).
#[local] Instance demo_python : Python PyValue string nat := {|
  py_from_code code _ w := (if String.eqb code "" then Err "SyntaxError"%string else Ok code, S w);
  py_getattr m name w :=
    (if injects name && negb (String.eqb m "filter") then Err "AttributeError"%string else Ok (PyStr name), w);
  py_call1 f _ w :=
    (Ok match f with PyStr name => if String.eqb name "poll" then PyList [PyDict [("Connect"%string, PyInt 9)]] else PyNone
        | _ => PyNone end, w);
|}.

Abbreviation nEvent := (@ExecutorEvent numbers_backend) (only parsing).
Definition demo_items : list (nEvent + list (string * PyValue)) :=
  [inl (EvConnect (9 : @PeerId numbers_backend)); inr [("Log"%string, PyStr "hello")];
   inl (EvForward ([1; 2] : list (@PeerId numbers_backend)) (5 : @Protocol numbers_backend) ((7, 8) : @Message numbers_backend));
   inl (EvSendResponse (3 : @PeerId numbers_backend) [0; 255])].

Lemma events_roundtrip_witness :
  extract_events (PyList (item_object <$> demo_items)) =
    Done (Ok [EvConnect (9 : @PeerId numbers_backend);
      EvForward ([1; 2] : list (@PeerId numbers_backend)) (5 : @Protocol numbers_backend) ((7, 8) : @Message numbers_backend);
      EvSendResponse (3 : @PeerId numbers_backend) [0; 255]]).
Proof.
  refine (proj1 (events_roundtrip (Obj := PyValue) demo_items _)).
  repeat constructor; simpl; try lia; try set_solver.
Defined.

Definition demo_debug (i : InterfaceId) : string := "0".
Definition demo_new := new (Mod := string) (PY := logged) demo_debug (0 : @InterfaceId numbers_backend) "main" (Some "ctx"%string) ([], O).
Definition demo_executor : PyExecutor.PyO3Executor PyValue := mkExecutor PyNone (0 : @InterfaceId numbers_backend) "main" ∅ ∅.
Abbreviation nProtocol := (@Protocol numbers_backend) (only parsing).
Abbreviation nPeer := (@PeerId numbers_backend) (only parsing).
Definition demo_ops : list (@Op numbers_backend) :=
  [OpInstallNotification (5 : nProtocol) "main"; OpInstallNotification (5 : nProtocol) "filter"; OpRegister (7 : nPeer)].
Definition demo_notification : @Op numbers_backend :=
  OpNotification (5 : nProtocol) (7 : nPeer) ((1, 2) : @Message numbers_backend).
Definition demo_world : list PyEvent * nat :=
  ([Loaded "main" (Ok "main"%string); Got "main"%string "initialize_ctx" (Ok (PyStr "initialize_ctx"));
    Called (PyStr "initialize_ctx") [PyStr "ctx"] (Ok PyNone)], 1%nat).

Lemma demo_history :
  match run_ops demo_debug demo_executor demo_ops demo_world with
  | Done (_, h, _) => notification_code h (5 : nProtocol) = Some "filter"%string
  | Panicked _ => False
  end.
Proof. vm_compute. reflexivity. Qed.

(** Of the two installations the first fails; the notification goes to the
    second. *)
Lemma executor_runs_installed_code_witness :
  ∃ e h w, run_ops demo_debug demo_executor demo_ops demo_world = Done (e, h, w) ∧
    match op_step demo_debug e demo_notification w with
    | Done (_, r, w') => ∃ l, w'.1 = w.1 ++ l ∧
        enacts None None (call_script "filter" "inject_notification" PyNone
          [PyInt 7; PyInt 5; PyPair (PyInt 1) (PyInt 2)]) l ∧ length l = 6%nat ∧
        events_from (returned None l) [EvConnect (9 : nPeer)]
    | Panicked _ => False
    end.
Proof.
  assert (demo_new = Done (Ok demo_executor, demo_world)) as Hnew by (vm_compute; reflexivity).
  pose proof demo_history as Hh.
  destruct (run_ops demo_debug demo_executor demo_ops demo_world) as [[[e h] w]|] eqn:E; [|destruct Hh].
  exists e, h, w. split; [reflexivity|].
  destruct (executor_runs_installed_code demo_debug (0 : @InterfaceId numbers_backend) "main" (Some "ctx"%string) ([], O)
    demo_executor demo_world demo_ops e h w demo_notification Hnew E) as [_ Hs].
  assert (match op_step demo_debug e demo_notification w with
          | Done (_, r, _) => r = Ok [EvConnect (9 : nPeer)] | Panicked _ => False end) as Hr.
  { clear -E. vm_compute in E. injection E as <- _ <-. vm_compute. reflexivity. }
  unfold script, demo_notification in Hs. rewrite Hh in Hs. unfold demo_notification in Hr |- *.
  destruct (op_step demo_debug e _ w) as [[[e' r] w']|]; [|destruct Hr].
  destruct Hs as (l & Hl & He & Hall). destruct (Hall _ Hr) as [Hlen Hev]. exists l.
  split; [exact Hl|]. split; [exact He|]. split; [exact Hlen|exact Hev].
Defined.
