(* ===== verification/MockTypes.v ===== *)
(** * Types of the mock chain

    Model of [backend/mockchain/types.rs]: the messages of a toy chain with their
    SCALE codecs, from which the hash and the size of a message are taken, the
    messages drawn at random, and the conversions to and from Python objects.

    A random number generator is an interface ([Rng]); [DefaultHasher] is a
    parameter. *)

From S2P Require Import Prelude PeersState Peerset Notifications Wire Scale Backend Python PyExecutor.
From stdpp Require Import pretty.
#[local] Open Scope Z_scope.

#[local] Notation "c1 ⊗ c2" := (pair_codec c1 c2) (at level 60, right associativity).

Module MockTypes.

(** [PeerId], [AccountId] and [BlockId] are [u64], [InterfaceId] is [usize]. *)
Record Transaction := mkTransaction { tx_sender : Z; tx_receiver : Z; tx_amount : Z }.
Record Block := mkBlock { bl_number : Z; bl_time : Z; bl_transactions : list Transaction }.
Record Vote := mkVote { vo_block : Z; vo_peer : Z; vo_vote : bool }.
Record Dispute := mkDispute { di_block : Z; di_peer : Z }.
Record Pex := mkPex { px_peers : list (string * Z) }.
Inductive Message :=
  | MTransaction (t : Transaction)
  | MBlock (b : Block)
  | MVote (v : Vote)
  | MDispute (d : Dispute)
  | MPeerExchange (p : Pex).
Inductive ProtocolId := PTransaction | PBlock | PPeerExchange | PBlockRequest | PGeneric.
Record Handshake := mkMockHandshake { hs_peer : Z; hs_protocols : list ProtocolId }.
Inductive ConnectionType := Inbound | Outbound.
Record Request := mkRequest { mq_id : Z; mq_payload : list Z }.
Record Response := mkResponse { mr_id : Z; mr_payload : list Z }.
Record BlockRequest := mkMockBlockRequest { br_start_from : Z; br_num_blocks : Z }.
Record BlockResponse := mkMockBlockResponse { br_blocks : list Block }.

#[export] Instance ProtocolId_eq_dec : EqDecision ProtocolId.
Proof. solve_decision. Defined.
#[export] Instance ProtocolId_countable : Countable ProtocolId.
Proof.
  refine (inj_countable' (λ p, match p with PTransaction => 0 | PBlock => 1 | PPeerExchange => 2 | PBlockRequest => 3
    | PGeneric => 4 end%nat) (λ n, match n with 0 => PTransaction | 1 => PBlock | 2 => PPeerExchange | 3 => PBlockRequest
    | _ => PGeneric end%nat) _).
  by intros [].
Defined.

(** ** Constructors *)
Definition from_transactions (number : Z) (transactions : list Transaction) : Block := mkBlock number 1337 transactions.
Definition Block_new (number : Z) : Block := from_transactions number [].

(** ** Codecs *)
Section codecs.
Context `{Scale}.

Definition transaction_codec : Codec Transaction :=
  map_codec (λ t, (tx_sender t, (tx_receiver t, tx_amount t))) (λ '(s, (r, a)), mkTransaction s r a)
    (u64_codec ⊗ u64_codec ⊗ u64_codec).
Definition block_codec : Codec Block :=
  map_codec (λ b, (bl_number b, (bl_time b, bl_transactions b))) (λ '(n, (t, l)), mkBlock n t l)
    (u128_codec ⊗ u64_codec ⊗ vec_codec transaction_codec).
Definition vote_codec : Codec Vote :=
  map_codec (λ v, (vo_block v, (vo_peer v, vo_vote v))) (λ '(b, (p, v)), mkVote b p v)
    (u64_codec ⊗ u64_codec ⊗ bool_codec).
Definition dispute_codec : Codec Dispute :=
  map_codec (λ d, (di_block d, di_peer d)) (λ '(b, p), mkDispute b p) (u64_codec ⊗ u64_codec).
Definition pex_codec : Codec Pex := map_codec px_peers mkPex (vec_codec (string_codec ⊗ u16_codec)).
Definition message_codec : Codec Message := {|
  enc m :=
    match m with
    | MTransaction t => enc_variant 0 transaction_codec t
    | MBlock b => enc_variant 1 block_codec b
    | MVote v => enc_variant 2 vote_codec v
    | MDispute d => enc_variant 3 dispute_codec d
    | MPeerExchange p => enc_variant 4 pex_codec p
    end;
  dec := dec_enum (λ i b,
    match i with
    | 0 => dec_variant transaction_codec MTransaction b
    | 1 => dec_variant block_codec MBlock b
    | 2 => dec_variant vote_codec MVote b
    | 3 => dec_variant dispute_codec MDispute b
    | 4 => dec_variant pex_codec MPeerExchange b
    | _ => (None, b)
    end);
|}.
Definition block_request_codec : Codec BlockRequest :=
  map_codec (λ r, (br_start_from r, br_num_blocks r)) (λ '(s, n), mkMockBlockRequest s n) (u128_codec ⊗ u8_codec).
Definition block_response_codec : Codec BlockResponse :=
  map_codec br_blocks mkMockBlockResponse (vec_codec block_codec).

(** [WithMessageInfo for Message]. *)
Definition message_hash (digest : bytes → Z) (m : Message) : Z := digest (enc message_codec m).
Definition message_size (m : Message) : Z := blen (enc message_codec m).
End codecs.

(** ** Messages at random *)

(** [rng.gen()] for the types drawn, and [gen_range] with both ends included. *)
Class Rng (R : Type) := {
  gen_u16 : R → Z * R;
  gen_u64 : R → Z * R;
  gen_u128 : R → Z * R;
  gen_bool : R → bool * R;
  gen_range : Z → Z → R → Z * R;
}.
Class RngLaws (R : Type) `{Rng R} := {
  gen_u16_range r : is_uint 16 (gen_u16 r).1;
  gen_u64_range r : is_uint 64 (gen_u64 r).1;
  gen_u128_range r : is_uint 128 (gen_u128 r).1;
  gen_range_range lo hi r : lo ≤ hi → lo ≤ (gen_range lo hi r).1 ≤ hi;
}.

Section sample.
Context {R : Type} `{Rng R}.

Definition sample_transaction (r : R) : Transaction * R :=
  let '(s, r) := gen_u64 r in
  let '(d, r) := gen_u64 r in
  let '(a, r) := gen_u64 r in
  (mkTransaction s d a, r).

(** [(0..n).map(..).collect()]. *)
Fixpoint collect {A} (f : R → A * R) (n : nat) (r : R) : list A * R :=
  match n with
  | O => ([], r)
  | S n => let '(a, r) := f r in let '(l, r) := collect f n r in (a :: l, r)
  end.

Definition sample_address (r : R) : (string * Z) * R :=
  let '(a, r) := gen_range 1 255 r in
  let '(b, r) := gen_range 0 255 r in
  let '(c, r) := gen_range 0 255 r in
  let '(d, r) := gen_range 0 255 r in
  let '(port, r) := gen_u16 r in
  ((pretty a +:+ "." +:+ pretty b +:+ "." +:+ pretty c +:+ "." +:+ pretty d, port)%string, r).

Definition sample_message (r : R) : outcome (Message * R) :=
  let '(kind, r) := gen_range 0 4 r in
  match kind with
  | 0 => let '(t, r) := sample_transaction r in Done (MTransaction t, r)
  | 1 =>
      let '(number, r) := gen_u128 r in
      let '(n, r) := gen_range 1 5 r in
      let '(l, r) := collect sample_transaction (Z.to_nat n) r in
      Done (MBlock (from_transactions number l), r)
  | 2 =>
      let '(b, r) := gen_u64 r in
      let '(p, r) := gen_u64 r in
      let '(v, r) := gen_bool r in
      Done (MVote (mkVote b p v), r)
  | 3 =>
      let '(b, r) := gen_u64 r in
      let '(p, r) := gen_u64 r in
      Done (MDispute (mkDispute b p), r)
  | 4 =>
      let '(n, r) := gen_range 2 6 r in
      let '(l, r) := collect sample_address (Z.to_nat n) r in
      Done (MPeerExchange (mkPex l), r)
  | _ => Panicked NotYetImplemented
  end.
End sample.

(** ** Python objects *)
Section objects.
Context {Obj : Type} `{PyObjects Obj}.

Definition transaction_into_py (t : Transaction) : Obj :=
  py_dict [("sender"%string, py_int (tx_sender t)); ("receiver"%string, py_int (tx_receiver t));
           ("amount"%string, py_int (tx_amount t))].
Definition block_into_py (b : Block) : Obj :=
  py_dict [("time"%string, py_int (bl_time b));
           ("transactions"%string,
            py_list ((λ t, py_dict [("payload"%string, transaction_into_py t)]) <$> bl_transactions b))].
Definition vote_into_py (v : Vote) : Obj :=
  py_dict [("block"%string, py_int (vo_block v)); ("peer"%string, py_int (vo_peer v)); ("vote"%string, py_bool (vo_vote v))].
Definition dispute_into_py (d : Dispute) : Obj :=
  py_dict [("block"%string, py_int (di_block d)); ("peer"%string, py_int (di_peer d))].
Definition pex_into_py (p : Pex) : Obj :=
  py_dict [("peers"%string,
    py_list ((λ '(host, port), py_dict [("Entry"%string, py_pair (py_str host) (py_int port))]) <$> px_peers p))].
Definition message_into_py (m : Message) : Obj :=
  match m with
  | MTransaction t => py_dict [("Transaction"%string, transaction_into_py t)]
  | MBlock b => py_dict [("Block"%string, block_into_py b)]
  | MVote v => py_dict [("Vote"%string, vote_into_py v)]
  | MDispute d => py_dict [("Dispute"%string, dispute_into_py d)]
  | MPeerExchange p => py_dict [("PeerExchange"%string, pex_into_py p)]
  end.
(** [todo!()]. *)
Definition message_from_py (o : Obj) : outcome Message := Panicked NotYetImplemented.

Definition protocol_into_py (p : ProtocolId) : Obj :=
  py_str match p with
         | PTransaction => "Transaction"
         | PBlock => "Block"
         | PPeerExchange => "PeerExchange"
         | PBlockRequest => "BlockRequest"
         | PGeneric => "Generic"
         end.
Definition protocol_from_py (o : Obj) : outcome ProtocolId :=
  protocol ← expect (py_as_str o);
  if String.eqb protocol "Transaction" then Done PTransaction
  else if String.eqb protocol "Block" then Done PBlock
  else if String.eqb protocol "PeerExchange" then Done PPeerExchange
  else if String.eqb protocol "BlockRequest" then Done PBlockRequest
  else if String.eqb protocol "Generic" then Done PGeneric
  else Panicked ExplicitPanic.

Definition peer_from_py (o : Obj) : outcome Z := expect (py_as_u64 o).
Definition request_id_from_py (o : Obj) : outcome Z := expect (py_as_u64 o).

Definition request_into_py (r : Request) : Obj :=
  let fields := py_dict [("id"%string, py_int (mq_id r)); ("payload"%string, py_vec_u8 (mq_payload r))] in
  py_dict [("Request"%string, fields)].
Definition response_into_py (r : Response) : Obj :=
  let fields := py_dict [("id"%string, py_int (mr_id r)); ("payload"%string, py_vec_u8 (mr_payload r))] in
  py_dict [("Response"%string, fields)].
Definition request_from_py (o : Obj) : outcome Request :=
  _ ← expect (if py_is_dict o then Some tt else None);
  id ← expect (py_get_item o "id");
  id ← expect (py_as_u64 id);
  payload ← expect (py_get_item o "payload");
  payload ← expect (py_as_vec_u8 payload);
  mret (mkRequest id payload).
End objects.
End MockTypes.
