(* ===== verification/Mockchain.v ===== *)
(** * The mock chain backend

    Models of [backend/mockchain/mod.rs] and [backend/mockchain/masquerade.rs]: a
    backend that listens on TCP sockets. Each connection has a task that sends a
    handshake, reads the one of the peer and then turns every read into a
    message for the overseer.

    A socket is the list of what its reads return, as far as it has happened, and
    what its writes return: arguments of the operations. CBOR ([serde_cbor]) is
    an interface. *)

From S2P Require Import Prelude PeersState Peerset Notifications Wire Scale Backend Python PyExecutor MockTypes.
Import MockTypes.

(** [serde_cbor::to_vec] and [from_slice]; an error is its category. *)
Class Cbor := {
  handshake_to_vec : Handshake → result bytes string;
  handshake_from_slice : bytes → result Handshake string;
  message_to_vec : Message → result bytes string;
  message_from_slice : bytes → result Message string;
}.

#[export] Instance SocketAddr_countable : Countable SocketAddr.
Proof.
  refine (inj_countable'
    (λ a, match a with SocketAddrV4 i p => inl (i, p) | SocketAddrV6 i p f s => inr (i, p, f, s) end)
    (λ x, match x with inl (i, p) => SocketAddrV4 i p | inr (i, p, f, s) => SocketAddrV6 i p f s end) _).
  by intros [].
Defined.

Module Mockchain.

(** ** The types of the backend *)

(** [_peers] is never used. *)
Record MockchainHandle := mkMockchainHandle { mh_id : Z; mh_peer_id : Z }.

Section types.
Context `{Scale} (digest : bytes → Z).

(** [WithMessageInfo] of requests and responses. *)
Definition payload_hash (payload : list Z) : Z := digest (byte_of <$> payload).
Definition payload_size (payload : list Z) : Z := Z.of_nat (length payload).

Definition mockchain_network : NetworkBackend := {|
  PeerId := Z; InterfaceId := Z; RequestId := Z; Protocol := ProtocolId;
  Backend.Message := Message; Backend.Request := Request; Backend.Response := Response;
  InterfaceHandle := MockchainHandle; NetworkParameters := unit; InterfaceParameters := Z;
  Backend.message_hash := message_hash digest; Backend.message_size := message_size;
  request_hash r := payload_hash (mq_payload r); request_size r := payload_size (mq_payload r);
  response_hash r := payload_hash (mr_payload r); response_size r := payload_size (mr_payload r);
  request_id := mq_id;
|}.

(** The conversions for the executor. The parameters of an interface have none
    in the source. *)
Definition mockchain_objects {Obj : Type} `{PyObjects Obj} (interface_parameters : Obj → outcome Z) :
    ExecutorObjects (H := mockchain_network) Obj := {|
  peer_into_object := py_int : @PeerId mockchain_network → Obj;
  message_into_object := message_into_py : @Backend.Message mockchain_network → Obj;
  request_into_object := request_into_py : @Backend.Request mockchain_network → Obj;
  response_into_object := response_into_py : @Backend.Response mockchain_network → Obj;
  protocol_into_object := protocol_into_py : @Protocol mockchain_network → Obj;
  parameters_into_object _ := py_dict [];
  peer_from_object := peer_from_py : Obj → outcome (@PeerId mockchain_network);
  message_from_object := message_from_py : Obj → outcome (@Backend.Message mockchain_network);
  protocol_from_object := protocol_from_py : Obj → outcome (@Protocol mockchain_network);
  interface_parameters_from_object := interface_parameters;
|}.
End types.

(** ** [MockPacketSink] *)
Record MockPacketSink := mkMockPacketSink { ps_interface : Z; ps_peer : Z }.

Section sinks.
Context `{Cbor}.

(** [written] is what [write] returns: the number of bytes it took, which is not
    looked at, or the kind of an error. The bytes handed to [write] are returned
    as well. *)
Definition send_packet (packet : Message) (written : result Z string) : outcome (result unit Error * bytes) :=
  match message_to_vec packet with
  | Err _ => Panicked ExpectFailed
  | Ok packet =>
      mret (match written with Ok _ => Ok tt | Err kind => Err (Io kind) end, packet)
  end.
Definition send_request (protocol : ProtocolId) (request : list Z) : outcome (result Z Error) := Panicked NotYetImplemented.
Definition send_response (request_id : Z) (response : list Z) : outcome (result unit Error) := Panicked NotYetImplemented.
End sinks.

(** ** The task of a peer *)
Section peers.
Context `{Scale, Cbor} (digest : bytes → Z).
#[local] Instance mock_network : NetworkBackend := mockchain_network digest.
(** What the sinks answer to packets depends on their sockets; requests and
    responses, on which they panic, are outside of this instance. *)
Context (answers : list (@PeerId mock_network * SinkCall * bool) → MockPacketSink → SinkCall → result unit Error).
#[local] Instance mock_sink : PacketSink := {| sink := MockPacketSink; sink_answer := answers |}.
Abbreviation Events := (channel InterfaceEvent).

(** [if tx.send(..).await.is_err() { panic!(..) }]. *)
Definition send_or_panic (event : InterfaceEvent) (tx : Events) : outcome Events :=
  if receiver_alive tx then Done (mkChannel (queue tx ++ [event]) true) else Panicked ExplicitPanic.

(** A task waits for its socket or has returned. *)
Inductive Task := Waiting | Returned (r : result unit Error).

(** The loop: one message per read; an empty read is the end of the stream. *)
Fixpoint read_loop (peer iface_id : Z) (reads : list (result bytes string)) (tx : Events) : outcome (Task * Events) :=
  match reads with
  | [] => Done (Waiting, tx)
  | Err kind :: _ => Done (Returned (Err (Io kind)), tx)
  | Ok [] :: _ =>
      tx ← send_or_panic (PeerDisconnected (iface_id : @InterfaceId mock_network) (peer : @PeerId mock_network)) tx;
      Done (Returned (Ok tt), tx)
  | Ok buf :: reads =>
      match message_from_slice buf with
      | Ok message =>
          tx ← send_or_panic (MessageReceived (iface_id : @InterfaceId mock_network) (peer : @PeerId mock_network)
                 (PGeneric : @Protocol mock_network) (message : @Backend.Message mock_network)) tx;
          read_loop peer iface_id reads tx
      | Err _ => read_loop peer iface_id reads tx
      end
  end.

Definition local_handshake : Handshake := mkMockHandshake 0 [PTransaction; PBlock; PPeerExchange].

Definition read_handshake (iface_id : Z) (reads : list (result bytes string)) (tx : Events) : outcome (Task * Events) :=
  match reads with
  | [] => Done (Waiting, tx)
  | Err kind :: _ => Done (Returned (Err (Io kind)), tx)
  | Ok buf :: reads =>
      match handshake_from_slice buf with
      | Err category => Done (Returned (Err (SerdeCbor category)), tx)
      | Ok handshake =>
          tx ← send_or_panic (PeerConnected (iface_id : @InterfaceId mock_network)
                 (hs_peer handshake : @PeerId mock_network) (hs_protocols handshake : list (@Protocol mock_network))
                 (mkMockPacketSink iface_id (hs_peer handshake))) tx;
          read_loop (hs_peer handshake) iface_id reads tx
      end
  end.

(** [Peer::start]; [written] is what the write of the handshake returns. *)
Definition peer_start (connection_type : ConnectionType) (iface_id : Z) (written : result Z string)
    (reads : list (result bytes string)) (tx : Events) : outcome (Task * Events) :=
  match connection_type with
  | Inbound =>
      match handshake_to_vec local_handshake with
      | Err category => Done (Returned (Err (SerdeCbor category)), tx)
      | Ok _ =>
          match written with
          | Err kind => Done (Returned (Err (Io kind)), tx)
          | Ok _ => read_handshake iface_id reads tx
          end
      end
  | Outbound => read_handshake iface_id reads tx
  end.

End peers.

(** [P2p::start]: the tasks that are spawned, one for each connection that is
    accepted; a failed [accept] is only logged. *)
Definition p2p_start {Stream : Type} (iface_id : Z) (accepted : list (result Stream string)) :
    list (Stream * ConnectionType * Z) :=
  omap (λ a, match a with Err _ => None | Ok stream => Some (stream, Inbound, iface_id) end) accepted.

(** ** [MockchainBackend] *)
Record MockchainBackend := mkMockchainBackend { next_iface_id : Z; interfaces : gmap SocketAddr Z }.

Definition new : MockchainBackend := mkMockchainBackend 0 ∅.

Definition next_interface_id (b : MockchainBackend) : outcome (Z * MockchainBackend) :=
  let iface_id := next_iface_id b in
  next ← u64_add iface_id 1;
  mret (iface_id, mkMockchainBackend next (interfaces b)).

(** [MockchainHandle::new]; [bound] is what [TcpListener::bind] returns. The
    interface listens from then on. *)
Definition handle_new (id : Z) (bound : result unit string) : result MockchainHandle Error :=
  match bound with
  | Err kind => Err (Io kind)
  | Ok _ => Ok (mkMockchainHandle id id)
  end.

Definition handle_interface_id (h : MockchainHandle) : Z := mh_id h.
Definition handle_peer_id (h : MockchainHandle) : Z := mh_peer_id h.
Definition handle_connect (h : MockchainHandle) (peer : Z) : outcome (result unit Error) := Panicked NotYetImplemented.
Definition handle_disconnect (h : MockchainHandle) (peer : Z) : outcome (result unit Error) := Panicked NotYetImplemented.

Definition spawn_interface (address : SocketAddr) (interface_type : InterfaceType) (bound : result unit string)
    (b : MockchainBackend) : outcome (result MockchainHandle Error * MockchainBackend) :=
  if decide (address ∈ dom (interfaces b)) then mret (Err (AddressInUse address), b)
  else
    match interface_type with
    | Masquerade =>
        '(id, b) ← next_interface_id b;
        match handle_new id bound with
        | Ok handle => mret (Ok handle, mkMockchainBackend (next_iface_id b) (<[address := id]> (interfaces b)))
        | Err e => mret (Err e, b)
        end
    end.
End Mockchain.
