(* ===== verification/MockchainTheorems.v ===== *)
(** * What the mock chain backend guarantees

    The messages are identified by their encoding; a session of a peer is
    reported to the overseer as it happens; interfaces are numbered without
    repetition, one per address. *)

From S2P Require Import Prelude PeersState Peerset Notifications Wire Scale Backend Python PyExecutor MockTypes Mockchain.
Import MockTypes.

(** ** Codecs *)
Section codecs.
Context `{ScaleLaws}.

Definition transaction_ok (t : Transaction) : Prop :=
  is_uint 64 (tx_sender t) ∧ is_uint 64 (tx_receiver t) ∧ is_uint 64 (tx_amount t).
Definition block_ok (b : Block) : Prop :=
  is_uint 128 (bl_number b) ∧ is_uint 64 (bl_time b) ∧ short (bl_transactions b) ∧ Forall transaction_ok (bl_transactions b).
Definition pex_ok (p : Pex) : Prop :=
  short (px_peers p) ∧ Forall (λ x, short (String.list_byte_of_string x.1) ∧ is_uint 16 x.2) (px_peers p).
(** The numbers fit their types and the vectors can be encoded. *)
Definition message_ok (m : Message) : Prop :=
  match m with
  | MTransaction t => transaction_ok t
  | MBlock b => block_ok b
  | MVote v => is_uint 64 (vo_block v) ∧ is_uint 64 (vo_peer v) ∧ True
  | MDispute d => is_uint 64 (di_block d) ∧ is_uint 64 (di_peer d)
  | MPeerExchange p => pex_ok p
  end.

Ltac fields := repeat first [eassumption | apply pair_correct | apply vec_correct | apply u64_correct | apply u128_correct
  | apply u16_correct | apply u8_correct | apply bool_correct | apply string_correct].
Ltac struct_correct := eapply map_correct; [fields|by intros []|by intros []].

Lemma transaction_correct : correct transaction_codec transaction_ok.
Proof. struct_correct. Qed.
Lemma block_correct : correct block_codec block_ok.
Proof. pose proof transaction_correct. struct_correct. Qed.
Lemma vote_correct : correct vote_codec (λ v, is_uint 64 (vo_block v) ∧ is_uint 64 (vo_peer v) ∧ True).
Proof. struct_correct. Qed.
Lemma dispute_correct : correct dispute_codec (λ d, is_uint 64 (di_block d) ∧ is_uint 64 (di_peer d)).
Proof. struct_correct. Qed.
Lemma pex_correct : correct pex_codec pex_ok.
Proof. struct_correct. Qed.

Lemma message_correct : correct message_codec message_ok.
Proof.
  intros m rest Hm. destruct m; cbn [message_codec enc dec enc_variant app]; rewrite dec_enum_cons by lia;
    cbv beta iota; eapply dec_variant_correct; first [exact Hm|apply transaction_correct|apply block_correct|apply vote_correct
      |apply dispute_correct|apply pex_correct].
Qed.

(** Requests for blocks and their responses. *)
Lemma block_messages_correct :
  correct block_request_codec (λ r, is_uint 128 (br_start_from r) ∧ is_uint 8 (br_num_blocks r)) ∧
  correct block_response_codec (λ r, short (br_blocks r) ∧ Forall block_ok (br_blocks r)).
Proof. pose proof block_correct. split; struct_correct. Qed.

Lemma sum_same {A} (f : A → bytes) (k : nat) (l : list A) :
  (∀ a, length (f a) = k) → sum_list (length <$> (f <$> l)) = (k * length l)%nat.
Proof.
  intros Hf. induction l as [|a l IH]; [simpl; lia|]. rewrite !fmap_cons.
  change (length (f a) + sum_list (length <$> (f <$> l)) = k * S (length l))%nat. rewrite Hf, IH. lia.
Qed.

Lemma transaction_size t : length (enc transaction_codec t) = 24%nat.
Proof. destruct t. simpl. by rewrite !length_app, !u64_size. Qed.

(** The encoding of a message identifies it: it is decoded to the same
    message, whatever follows, so messages with the same encoding, the input of
    their hash, are equal. A transaction has 25 bytes, a vote 18, a dispute 17,
    and a block 25 bytes and 24 per transaction, with one to five for their
    number. *)
Theorem mock_messages_identified (m : Message) (rest : bytes) :
  message_ok m →
  dec message_codec (enc message_codec m ++ rest) = (Some m, rest) ∧
  (∀ m', message_ok m' → enc message_codec m' = enc message_codec m → m' = m) ∧
  match m with
  | MTransaction _ => message_size m = 25
  | MVote _ => message_size m = 18
  | MDispute _ => message_size m = 17
  | MBlock b => ∃ n, 1 ≤ n ≤ 5 ∧ message_size m = 25 + n + 24 * Z.of_nat (length (bl_transactions b))
  | MPeerExchange _ => True
  end.
Proof.
  intros Hm. split; [by apply message_correct|]. split; [intros m' Hm' He; by eapply correct_inj, He; [apply message_correct|..]|].
  unfold message_size, blen. destruct m as [t|b|v|d|p]; cbn [message_codec enc enc_variant length].
  - by rewrite transaction_size.
  - destruct b as [n t l]. destruct Hm as (_ & _ & Hs & _). simpl in Hs |- *.
    rewrite !length_app, u128_size, u64_size. destruct (vec_size transaction_codec l Hs) as (k & Hk & ->).
    exists (Z.of_nat k). split; [lia|].
    rewrite (sum_same _ 24) by apply transaction_size. lia.
  - destruct v. simpl. by rewrite !length_app, !u64_size, bool_size.
  - destruct d. simpl. by rewrite !length_app, !u64_size.
  - done.
Qed.
End codecs.

Lemma mock_messages_identified_witness :
  let m := MBlock (from_transactions 3 [mkTransaction 1 2 3; mkTransaction 4 5 6]) in
  dec message_codec (enc message_codec m ++ [Byte.xff]) = (Some m, [Byte.xff]) ∧
  ∃ n, 1 ≤ n ≤ 5 ∧ message_size m = 25 + n + 24 * 2.
Proof.
  intros m. destruct (mock_messages_identified m [Byte.xff]) as (H1 & _ & H3).
  - split_and!; [..|repeat constructor]; unfold is_uint, short, u32_max; simpl; lia.
  - split; [exact H1|exact H3].
Defined.

(** ** Sessions *)
Section sessions.
Context `{Scale, Cbor} (digest : bytes → Z).
#[local] Instance network : NetworkBackend := Mockchain.mockchain_network digest.
Context (answers : list (@PeerId network * SinkCall * bool) → Mockchain.MockPacketSink → SinkCall → result unit Error).
#[local] Instance sinks : PacketSink := {| sink := Mockchain.MockPacketSink; sink_answer := answers |}.
Abbreviation Events := (channel InterfaceEvent).

(** The reads up to the end of the stream or an error, and what follows. *)
Fixpoint split_reads (reads : list (result bytes string)) : list bytes * list (result bytes string) :=
  match reads with
  | Ok (b :: buf) :: reads => let '(l, t) := split_reads reads in ((b :: buf) :: l, t)
  | _ => ([], reads)
  end.

Definition connected (iface peer : Z) (protocols : list ProtocolId) : InterfaceEvent :=
  PeerConnected (iface : @InterfaceId network) (peer : @PeerId network) (protocols : list (@Protocol network))
    (Mockchain.mkMockPacketSink iface peer).
Definition disconnected (iface peer : Z) : InterfaceEvent :=
  PeerDisconnected (iface : @InterfaceId network) (peer : @PeerId network).
(** The event of a read, if it is a message. *)
Definition received (iface peer : Z) (buf : bytes) : option InterfaceEvent :=
  match message_from_slice buf with
  | Ok m => Some (MessageReceived (iface : @InterfaceId network) (peer : @PeerId network) (PGeneric : @Protocol network)
                    (m : @Backend.Message network))
  | Err _ => None
  end.
(** How the session ends: what is reported, and where the task is. *)
Definition ending (iface peer : Z) (rest : list (result bytes string)) : list InterfaceEvent * Mockchain.Task :=
  match rest with
  | [] => ([], Mockchain.Waiting)
  | Ok _ :: _ => ([disconnected iface peer], Mockchain.Returned (Ok tt))
  | Err kind :: _ => ([], Mockchain.Returned (Err (Io kind)))
  end.

Lemma read_loop_session iface peer reads (tx : Events) : receiver_alive tx = true →
  Mockchain.read_loop digest answers peer iface reads tx =
    let '(bufs, rest) := split_reads reads in
    Done ((ending iface peer rest).2,
          mkChannel (queue tx ++ omap (received iface peer) bufs ++ (ending iface peer rest).1) true).
Proof.
  revert tx. induction reads as [|[[|b buf]|k] reads IH]; intros [q al] Ha; simpl in Ha; subst al.
  - simpl. by rewrite app_nil_r.
  - done.
  - cbn [Mockchain.read_loop split_reads]. unfold received at 1.
    destruct (split_reads reads) as [bufs rest]. cbn [omap list_omap].
    destruct (message_from_slice (b :: buf)) as [m|e] eqn:Em.
    + cbn. rewrite IH by done. cbn. unfold received; rewrite ?Em. by rewrite <-app_assoc.
    + rewrite IH by done. cbn. unfold received; by rewrite ?Em.
  - simpl. by rewrite app_nil_r.
Qed.

(** C30: What the overseer hears of an inbound connection. Nothing before the
    handshake of the peer has been read and understood; then that the peer has
    connected, with the identity and protocols of the handshake, then one
    message of the generic protocol for every read that is a message, in order,
    the others being dropped, and at the end of the stream, and only then, that
    the peer has disconnected; the task returns there, or at the first error. *)
Theorem mock_session_reported (iface : Z) (own : bytes) (written : Z) (reads : list (result bytes string)) (tx : Events) :
  receiver_alive tx = true → handshake_to_vec Mockchain.local_handshake = Ok own →
  Mockchain.peer_start digest answers Inbound iface (Ok written) reads tx =
    match reads with
    | [] => Done (Mockchain.Waiting, tx)
    | Err kind :: _ => Done (Mockchain.Returned (Err (Io kind)), tx)
    | Ok buf :: reads =>
        match handshake_from_slice buf with
        | Err category => Done (Mockchain.Returned (Err (SerdeCbor category)), tx)
        | Ok hs =>
            let '(bufs, rest) := split_reads reads in
            Done ((ending iface (hs_peer hs) rest).2,
                  mkChannel (queue tx ++ [connected iface (hs_peer hs) (hs_protocols hs)] ++
                    omap (received iface (hs_peer hs)) bufs ++ (ending iface (hs_peer hs) rest).1) true)
        end
    end.
Proof.
  intros Ha Hown. unfold Mockchain.peer_start. rewrite Hown. destruct reads as [|[buf|k] reads]; [done| |done].
  simpl. destruct (handshake_from_slice buf) as [hs|c]; [|done].
  destruct tx as [q al]. simpl in Ha. subst al. simpl. rewrite read_loop_session by done.
  destruct (split_reads reads) as [bufs rest]. simpl. by rewrite <-app_assoc.
Qed.
End sessions.

(** A CBOR of one byte for handshakes, and SCALE for messages. *)
#[local] Instance demo_cbor : Cbor := {|
  handshake_to_vec h := Ok [byte_of (hs_peer h)];
  handshake_from_slice b := match b with [x] => Ok (mkMockHandshake (byte_val x) [PBlock]) | _ => Err "Syntax"%string end;
  message_to_vec m := Ok (enc message_codec m);
  message_from_slice b := match dec message_codec b with (Some m, []) => Ok m | _ => Err "Syntax"%string end;
|}.
Definition demo_digest (b : bytes) : Z := blen b.
Definition demo_answers : list (@PeerId (Mockchain.mockchain_network demo_digest) *
    @SinkCall (Mockchain.mockchain_network demo_digest) * bool) → Mockchain.MockPacketSink →
    @SinkCall (Mockchain.mockchain_network demo_digest) → result unit Error := λ _ _ _, Ok tt.
Definition demo_vote : Message := MVote (mkVote 1 2 true).

Lemma demo_vote_read : message_from_slice (enc message_codec demo_vote) = Ok demo_vote.
Proof. vm_compute. reflexivity. Qed.
Lemma demo_votes_read : message_from_slice (enc message_codec demo_vote ++ enc message_codec demo_vote) = Err "Syntax"%string.
Proof. vm_compute. reflexivity. Qed.
Lemma demo_handshake_read : handshake_from_slice [Byte.x07] = Ok (mkMockHandshake 7 [PBlock]).
Proof. vm_compute. reflexivity. Qed.
Lemma demo_handshake_written : handshake_to_vec Mockchain.local_handshake = Ok [Byte.x00].
Proof. vm_compute. reflexivity. Qed.
Lemma demo_vote_bytes : ∃ b l, enc message_codec demo_vote = b :: l.
Proof. by eexists _, _. Qed.

(** A handshake, a vote, rubbish, and the end of the stream. *)
Lemma mock_session_reported_witness :
  Mockchain.peer_start demo_digest demo_answers Inbound 3 (Ok 1)
    [Ok [Byte.x07]; Ok (enc message_codec demo_vote); Ok [Byte.xff]; Ok []] new_channel =
  Done (Mockchain.Returned (Ok tt),
    mkChannel [connected demo_digest demo_answers 3 7 [PBlock];
               MessageReceived (3 : @InterfaceId (Mockchain.mockchain_network demo_digest))
                 (7 : @PeerId (Mockchain.mockchain_network demo_digest)) PGeneric
                 (demo_vote : @Backend.Message (Mockchain.mockchain_network demo_digest));
               disconnected demo_digest demo_answers 3 7] true).
Proof.
  rewrite (mock_session_reported demo_digest demo_answers 3 [Byte.x00] 1
    [Ok [Byte.x07]; Ok (enc message_codec demo_vote); Ok [Byte.xff]; Ok []] new_channel eq_refl demo_handshake_written).
  rewrite demo_handshake_read. pose proof demo_vote_read as Hv. destruct demo_vote_bytes as (b & l & E).
  rewrite E in *. cbn [split_reads omap list_omap]. unfold received. rewrite Hv. reflexivity.
Defined.

(** A connection that is lost with an error is not reported. *)
Example lost_connection_not_reported :
  Mockchain.peer_start demo_digest demo_answers Inbound 3 (Ok 1) [Ok [Byte.x07]; Err "ConnectionReset"%string] new_channel =
  Done (Mockchain.Returned (Err (Io "ConnectionReset")),
    mkChannel [connected demo_digest demo_answers 3 7 [PBlock]] true).
Proof.
  unfold Mockchain.peer_start, Mockchain.read_handshake. by rewrite demo_handshake_written, demo_handshake_read.
Qed.

(** Two messages that arrive in one read are both dropped. *)
Example messages_in_one_read_dropped :
  Mockchain.peer_start demo_digest demo_answers Inbound 3 (Ok 1)
    [Ok [Byte.x07]; Ok (enc message_codec demo_vote ++ enc message_codec demo_vote)] new_channel =
  Done (Mockchain.Waiting, mkChannel [connected demo_digest demo_answers 3 7 [PBlock]] true).
Proof.
  unfold Mockchain.peer_start, Mockchain.read_handshake. rewrite demo_handshake_written, demo_handshake_read.
  pose proof demo_votes_read as Hv. destruct demo_vote_bytes as (b & l & E). rewrite E in *.
  cbn [app] in *. cbn [Mockchain.read_loop]. rewrite Hv. reflexivity.
Qed.

(** ** Interfaces *)
Section interfaces.
(** What is asked of a backend: an address, and what binding it would return;
    with the results. *)
Definition spawn_step (s : list (SocketAddr * result Mockchain.MockchainHandle Error) * Mockchain.MockchainBackend)
    (call : SocketAddr * result unit string) :
    outcome (list (SocketAddr * result Mockchain.MockchainHandle Error) * Mockchain.MockchainBackend) :=
  '(r, b) ← Mockchain.spawn_interface call.1 Masquerade call.2 s.2;
  mret (s.1 ++ [(call.1, r)], b).
Definition spawn_all (calls : list (SocketAddr * result unit string)) :
    outcome (list (SocketAddr * result Mockchain.MockchainHandle Error) * Mockchain.MockchainBackend) :=
  for_each spawn_step calls ([], Mockchain.new).

Definition ids (done_ : list (SocketAddr * result Mockchain.MockchainHandle Error)) : list Z :=
  omap (λ x, match x.2 with Ok h => Some (Mockchain.mh_id h) | Err _ => None end) done_.

Record spawned (done_ : list (SocketAddr * result Mockchain.MockchainHandle Error)) (b : Mockchain.MockchainBackend) : Prop := {
  sp_next : 0 ≤ Mockchain.next_iface_id b ≤ Z.of_nat (length done_);
  sp_ids : NoDup (ids done_);
  sp_below id : id ∈ ids done_ → 0 ≤ id < Mockchain.next_iface_id b;
  sp_map a id : Mockchain.interfaces b !! a = Some id ↔ (a, Ok (Mockchain.mkMockchainHandle id id)) ∈ done_;
  sp_handles a h : (a, Ok h) ∈ done_ → Mockchain.mh_peer_id h = Mockchain.mh_id h;
  sp_in_use l1 a r l2 : done_ = l1 ++ (a, r) :: l2 → (r = Err (AddressInUse a) ↔ ∃ h, (a, Ok h) ∈ l1);
}.

Lemma in_use_snoc (P : list (SocketAddr * result Mockchain.MockchainHandle Error) → SocketAddr →
      result Mockchain.MockchainHandle Error → Prop) done_ a r :
  (∀ l1 a' r' l2, done_ = l1 ++ (a', r') :: l2 → P l1 a' r') → P done_ a r →
  ∀ l1 a' r' l2, done_ ++ [(a, r)] = l1 ++ (a', r') :: l2 → P l1 a' r'.
Proof.
  intros Hall Hlast l1 a' r' l2 E. destruct (decide (l2 = [])) as [->|Hne].
  - apply app_inj_tail in E as [-> [= -> ->]]. done.
  - destruct (exists_last Hne) as (l3 & x & ->). rewrite app_comm_cons, app_assoc in E.
    apply app_inj_tail in E as [E _]. by eapply Hall.
Qed.

Lemma known_ok done_ b a : spawned done_ b → (a ∈ dom (Mockchain.interfaces b) ↔ ∃ h, (a, Ok h) ∈ done_).
Proof.
  intros Hs. rewrite elem_of_dom. split.
  - intros [id Hid]. apply (sp_map _ _ Hs) in Hid. eauto.
  - intros [[i p] Hh]. pose proof (sp_handles _ _ Hs _ _ Hh) as Hp. simpl in Hp. subst p. exists i. by apply (sp_map _ _ Hs).
Qed.

Lemma ids_snoc done_ x : ids (done_ ++ [x]) = ids done_ ++ ids [x].
Proof. unfold ids. apply omap_app. Qed.

Lemma spawn_step_ok done_ b call : spawned done_ b → Z.of_nat (length done_) < u64_max →
  ∃ r b', spawn_step (done_, b) call = Done (done_ ++ [(call.1, r)], b') ∧ spawned (done_ ++ [(call.1, r)]) b'.
Proof.
  intros Hs Hlen. destruct call as [a bound]. unfold spawn_step, Mockchain.spawn_interface. simpl.
  destruct (decide (a ∈ dom (Mockchain.interfaces b))) as [Hin|Hout]; simpl.
  - eexists _, b. split; [done|]. pose proof (known_ok _ _ a Hs) as Hk. destruct Hs as [H1 H2 H3 H4 H5 H6].
    constructor; rewrite ?ids_snoc; simpl; rewrite ?app_nil_r; [rewrite length_app; simpl; lia|done|done| | |].
    + intros a' id. rewrite H4, elem_of_app, list_elem_of_singleton. naive_solver.
    + intros a' h. rewrite elem_of_app, list_elem_of_singleton. naive_solver.
    + apply in_use_snoc; [exact H6|]. naive_solver.
  - unfold Mockchain.next_interface_id, u64_add. pose proof (sp_next _ _ Hs) as Hn.
    rewrite (proj2 (Z.leb_le _ _)) by lia. simpl. pose proof (known_ok _ _ a Hs) as Hk.
    destruct Hs as [H1 H2 H3 H4 H5 H6]. destruct bound as [[]|kind]; simpl.
    + eexists _, _. split; [done|]. constructor; rewrite ?ids_snoc; simpl; [rewrite length_app; simpl; lia| | | | |].
      * apply NoDup_app. split; [done|]. split; [|apply NoDup_singleton].
        intros id Hid%H3 ->%list_elem_of_singleton. lia.
      * intros id. rewrite elem_of_app, list_elem_of_singleton. intros [Hid%H3| ->]; lia.
      * intros a' id. rewrite elem_of_app, list_elem_of_singleton, <-H4, lookup_insert_Some.
        split; [naive_solver|]. intros [Hl|[= -> ->]]; [|naive_solver].
        right. split; [|done]. intros <-. apply Hout. apply elem_of_dom. eauto.
      * intros a' h. rewrite elem_of_app, list_elem_of_singleton. naive_solver.
      * apply in_use_snoc; [exact H6|]. split; [done|]. intros Hex. destruct Hout. by apply Hk.
    + eexists _, _. split; [done|]. constructor; rewrite ?ids_snoc; simpl; rewrite ?app_nil_r;
        [rewrite length_app; simpl; lia|done| | | |].
      * intros id Hid%H3. lia.
      * intros a' id. rewrite H4, elem_of_app, list_elem_of_singleton. naive_solver.
      * intros a' h. rewrite elem_of_app, list_elem_of_singleton. naive_solver.
      * apply in_use_snoc; [exact H6|]. split; [done|]. intros Hex. destruct Hout. by apply Hk.
Qed.

Lemma spawn_loop_ok calls done_ b : spawned done_ b → Z.of_nat (length done_ + length calls) ≤ u64_max →
  ∃ done' b', for_each spawn_step calls (done_, b) = Done (done_ ++ done', b') ∧ spawned (done_ ++ done') b' ∧ done'.*1 = calls.*1.
Proof.
  revert done_ b. induction calls as [|call calls IH]; intros done_ b Hs Hlen; simpl in *.
  { exists [], b. by rewrite app_nil_r. }
  destruct (spawn_step_ok done_ b call Hs) as (r & b1 & -> & Hs1); [lia|].
  destruct (IH _ _ Hs1) as (done' & b' & E & Hs' & Hf); [rewrite length_app; simpl; lia|].
  exists ((call.1, r) :: done'), b'. rewrite <-app_assoc in E, Hs'. simpl in *. rewrite E. split; [done|]. split; [done|]. by f_equal.
Qed.

(** Interfaces of the mock chain have different numbers and different
    addresses. For any calls to [spawn_interface], a call is refused with
    [AddressInUse] exactly when an earlier one for the address has succeeded, so
    an address whose binding failed can be tried again; no number is given
    twice, and the backend knows exactly the interfaces it has created. *)
Theorem mock_interfaces_unique (calls : list (SocketAddr * result unit string)) :
  Z.of_nat (length calls) ≤ u64_max →
  ∃ done_ b, spawn_all calls = Done (done_, b) ∧ done_.*1 = calls.*1 ∧ NoDup (ids done_) ∧
    (∀ a id, Mockchain.interfaces b !! a = Some id ↔ (a, Ok (Mockchain.mkMockchainHandle id id)) ∈ done_) ∧
    (∀ l1 a r l2, done_ = l1 ++ (a, r) :: l2 → (r = Err (AddressInUse a) ↔ ∃ h, (a, Ok h) ∈ l1)).
Proof.
  intros Hlen. destruct (spawn_loop_ok calls [] Mockchain.new) as (done_ & b & E & Hs & Hf); [|done|].
  - constructor.
    + simpl. lia.
    + constructor.
    + intros id Hin. by apply elem_of_nil in Hin.
    + intros a id. simpl. rewrite lookup_empty. split; [done|]. by intros ?%elem_of_nil.
    + intros a h Hin. by apply elem_of_nil in Hin.
    + intros [] a r l2; done.
  - exists done_, b. simpl in E. split; [exact E|]. split; [done|]. split; [apply Hs|]. split; apply Hs.
Qed.
End interfaces.

Definition demo_addr (p : Z) : SocketAddr := SocketAddrV4 2130706433 p.

Lemma mock_interfaces_unique_witness :
  ∃ done_ b, spawn_all [(demo_addr 80, Err "PermissionDenied"%string); (demo_addr 80, Ok tt); (demo_addr 80, Ok tt)] =
    Done (done_, b) ∧ NoDup (ids done_) ∧ Mockchain.interfaces b !! demo_addr 80 = Some 1.
Proof.
  destruct (mock_interfaces_unique [(demo_addr 80, Err "PermissionDenied"%string); (demo_addr 80, Ok tt); (demo_addr 80, Ok tt)])
    as (done_ & b & E & _ & Hn & _); [vm_compute; discriminate|].
  exists done_, b. split; [exact E|]. split; [exact Hn|]. vm_compute in E. injection E as _ <-. vm_compute. reflexivity.
Defined.

(** ** Messages at random *)
Section sample.
Context {R : Type} `{RngLaws R}.

Lemma pretty_octet z : 0 ≤ z ≤ 255 → (length (String.list_byte_of_string (pretty.pretty z)) ≤ 3)%nat.
Proof.
  intros Hz.
  assert (forallb (λ z, (length (String.list_byte_of_string (pretty.pretty z)) <=? 3)%nat) (Z.of_nat <$> seq 0 256) = true)
    as Hall by (vm_compute; reflexivity).
  rewrite forallb_forall in Hall. apply Nat.leb_le, Hall, list_elem_of_In, list_elem_of_fmap.
  exists (Z.to_nat z). split; [lia|]. apply elem_of_seq. lia.
Qed.

Lemma list_byte_app (s t : string) :
  String.list_byte_of_string (s +:+ t) = String.list_byte_of_string s ++ String.list_byte_of_string t.
Proof. unfold String.list_byte_of_string. induction s as [|a s IH]; [done|]. simpl. by f_equal. Qed.

Lemma sample_transaction_ok r : transaction_ok (sample_transaction r).1.
Proof.
  unfold sample_transaction. pose proof (gen_u64_range r). destruct (gen_u64 r) as [s r1].
  pose proof (gen_u64_range r1). destruct (gen_u64 r1) as [d r2]. pose proof (gen_u64_range r2).
  by destruct (gen_u64 r2) as [a r3].
Qed.

Lemma sample_address_ok r :
  short (String.list_byte_of_string (sample_address r).1.1) ∧ is_uint 16 (sample_address r).1.2.
Proof.
  unfold sample_address.
  pose proof (gen_range_range 1 255 r ltac:(lia)) as Ha. destruct (gen_range 1 255 r) as [a r1].
  pose proof (gen_range_range 0 255 r1 ltac:(lia)) as Hb. destruct (gen_range 0 255 r1) as [b r2].
  pose proof (gen_range_range 0 255 r2 ltac:(lia)) as Hc. destruct (gen_range 0 255 r2) as [c r3].
  pose proof (gen_range_range 0 255 r3 ltac:(lia)) as Hd. destruct (gen_range 0 255 r3) as [d r4].
  pose proof (gen_u16_range r4) as Hp. destruct (gen_u16 r4) as [p r5]. simpl in *. split; [|done].
  unfold short, u32_max. rewrite !list_byte_app, !length_app.
  pose proof (pretty_octet a). pose proof (pretty_octet b). pose proof (pretty_octet c). pose proof (pretty_octet d).
  change (length (String.list_byte_of_string ".")) with 1%nat. lia.
Qed.

Lemma collect_ok {A} (f : R → A * R) (ok : A → Prop) n r : (∀ r, ok (f r).1) →
  Forall ok (collect f n r).1 ∧ length (collect f n r).1 = n.
Proof.
  intros Hf. revert r. induction n as [|n IH]; intros r; simpl; [by split|].
  specialize (Hf r). destruct (f r) as [a r1]. destruct (IH r1). destruct (collect f n r1) as [l r2]. simpl in *.
  split; [by constructor|by f_equal].
Qed.

(** A message drawn at random can be encoded; the arm that is not implemented is
    never taken. *)
Theorem sample_message_ok r : ∃ m r', sample_message r = Done (m, r') ∧ message_ok m.
Proof.
  unfold sample_message. pose proof (gen_range_range 0 4 r ltac:(lia)) as Hk.
  destruct (gen_range 0 4 r) as [kind r0]. simpl in Hk.
  assert (kind = 0 ∨ kind = 1 ∨ kind = 2 ∨ kind = 3 ∨ kind = 4) as Hkind by lia.
  destruct Hkind as [->|[->|[->|[->| ->]]]].
  - pose proof (sample_transaction_ok r0). destruct (sample_transaction r0). by eexists _, _.
  - pose proof (gen_u128_range r0) as Hn. destruct (gen_u128 r0) as [number r1].
    pose proof (gen_range_range 1 5 r1 ltac:(lia)) as Hl. destruct (gen_range 1 5 r1) as [n r2]. simpl in *.
    destruct (collect_ok sample_transaction transaction_ok (Z.to_nat n) r2 sample_transaction_ok) as [Ht Hlen].
    destruct (collect sample_transaction (Z.to_nat n) r2) as [l r3]. simpl in *.
    eexists _, _. split; [done|]. unfold message_ok, block_ok, short, u32_max, is_uint in *. simpl. split_and!; try done; lia.
  - pose proof (gen_u64_range r0). destruct (gen_u64 r0) as [b r1]. pose proof (gen_u64_range r1).
    destruct (gen_u64 r1) as [p r2]. destruct (gen_bool r2). by eexists _, _.
  - pose proof (gen_u64_range r0). destruct (gen_u64 r0) as [b r1]. pose proof (gen_u64_range r1).
    destruct (gen_u64 r1) as [p r2]. by eexists _, _.
  - pose proof (gen_range_range 2 6 r0 ltac:(lia)) as Hl. destruct (gen_range 2 6 r0) as [n r1]. simpl in *.
    destruct (collect_ok sample_address (λ x, short (String.list_byte_of_string x.1) ∧ is_uint 16 x.2) (Z.to_nat n) r1
      sample_address_ok) as [Ht Hlen].
    destruct (collect sample_address (Z.to_nat n) r1) as [l r2]. simpl in *.
    eexists _, _. split; [done|]. split; [unfold short, u32_max; simpl; lia|done].
Qed.
End sample.

(** ** Conversions *)
Section objects.
Context {Obj : Type} `{PyObjectsLaws Obj}.

Lemma protocol_objects p : protocol_from_py (protocol_into_py p : Obj) = Done p.
Proof. unfold protocol_from_py, protocol_into_py. rewrite as_str_str. by destruct p. Qed.

(** A request is not found in the object it is converted to: the fields are one
    level deeper than they are looked for. *)
Theorem request_objects_mismatch (r : Request) : request_from_py (request_into_py r : Obj) = Panicked ExpectFailed.
Proof.
  unfold request_from_py, request_into_py. rewrite is_dict_dict. cbn.
  rewrite !get_item_dict by (simpl; apply NoDup_singleton). done.
Qed.
End objects.
