(* ===== verification/Service.v ===== *)
(** * The network service

    Model of [network/service.rs]: [SubstrateNetwork] builds the behaviour of
    the node from its configuration and runs the event loop between the swarm
    and the interface. It keeps the sinks of open notification streams, gives
    numbers to requests in both directions, and caches responses by the hash of
    the request.

    The loop calls the behaviour through [Swarm]; [behaviour_swarm] is the
    implementation by [NetBehaviour]. What the branches of [tokio::select!]
    yield is an [input]; the hash function of [DefaultHasher] is a parameter.
    Numbers stand for the [oneshot] channels commands and requests carry, and
    the record logs what is sent into them. *)

From S2P Require Import Prelude PeersState Peerset Notifications Wire RequestResponses Config Protocol NetBehaviour Backend.
Import Config Network.

(** What the service asks of the behaviour of the swarm. *)
Class Swarm (PeerId MA Sw : Type) := {
  sw_send_request :
    PeerId → ProtocolName → bytes → nat → RequestResponses.IfDisconnected → Sw → outcome Sw;
  sw_report_peer : PeerId → ReputationChange → Sw → Sw;
  sw_add_self_reported_address : PeerId → list bytes → MA → Sw → Sw;
  sw_connect : PeerId → Sw → Sw;
  sw_disconnect_peer : PeerId → nat → Sw → outcome Sw;
}.

Module Service.
Section data.
Context {PeerId : Type} `{Countable PeerId} {MA NotificationsSink : Type}.

Inductive SubstrateNetworkEvent :=
  | PeerConnected (peer : PeerId)
  | PeerDisconnected (peer : PeerId)
  | ProtocolOpened (peer : PeerId) (protocol : ProtocolName)
  | ProtocolClosed (peer : PeerId) (protocol : ProtocolName)
  | NotificationReceived (peer : PeerId) (protocol : ProtocolName) (notification : bytes)
  | RequestReceived (peer : PeerId) (protocol : ProtocolName) (request_id : Z) (request : bytes)
  | ResponseReceived (peer : PeerId) (protocol : ProtocolName) (request_id : Z) (response : bytes)
  | PeerDiscovered (peer : PeerId).

Inductive Command :=
  | SendNotification (peer : PeerId) (protocol : ProtocolName) (message : bytes)
  | SendRequest (peer : PeerId) (protocol : ProtocolName) (request : bytes) (tx : nat)
  | SendResponse (peer : PeerId) (request_id : Z) (response : bytes)
  | Connect (peer : PeerId)
  | Disconnect (peer : PeerId).

(** A future of [pending_responses]: it waits on the channel [pd_rx], for ever
    if there is none. *)
Record PendingResponse := mkPending {
  pd_peer : PeerId;
  pd_protocol : ProtocolName;
  pd_request_id : Z;
  pd_rx : option nat;
}.

(** The fields of the source, then the logs: notifications handed to sinks,
    numbers sent to those who asked for a request, responses sent to remotes. *)
Record SubstrateNetwork {Sw : Type} := mkSubstrateNetwork {
  swarm : Sw;
  event_tx : channel SubstrateNetworkEvent;
  notification_sinks : gmap (PeerId * ProtocolName) NotificationsSink;
  next_request_id : Z;
  pending_requests : gmap Z (Z * nat);
  pending_responses : list PendingResponse;
  cached_responses : gmap Z bytes;
  discovered : gset PeerId;
  rename : gset PeerId;
  oneshots : nat;
  handed : list (NotificationsSink * bytes);
  told : list (nat * Z);
  answered : list (nat * bytes);
}.

(** [SwarmEvent]; the variants that are only logged are one. *)
Inductive SwarmEvent :=
  | Sw_Behaviour (event : NetBehaviour.BehaviourOut PeerId MA NotificationsSink)
  | Sw_ConnectionEstablished (peer_id : PeerId)
  | Sw_ConnectionClosed (peer_id : PeerId)
  | Sw_Logged.

(** A branch of [select!]: a request of a remote from one of the queues, a
    pending response by its position and how its channel ended ([Err] when the
    sender was dropped), a command, an event. [None] is the end of a stream. *)
Inductive input :=
  | In_Request (r : option (ProtocolName * RequestResponses.IncomingRequest (PeerId := PeerId)))
  | In_Response (position : nat) (r : result (result bytes RequestResponses.RequestFailure) unit)
  | In_Command (c : option Command)
  | In_Swarm (e : SwarmEvent).
End data.
Arguments SubstrateNetworkEvent : clear implicits.
Arguments Command : clear implicits.
Arguments PendingResponse : clear implicits.
Arguments SubstrateNetwork PeerId {_ _} NotificationsSink Sw.
Arguments SwarmEvent : clear implicits.
Arguments mkSubstrateNetwork {PeerId EqDecision0 H NotificationsSink Sw}.
Arguments input : clear implicits.

(** ** The event loop *)
Section service.
Context {PeerId : Type} `{Countable PeerId} {MA NotificationsSink Sw : Type} `{SW : Swarm PeerId MA Sw}.
(** [DefaultHasher] over the bytes of a request. *)
Context (digest : bytes → Z).
Abbreviation SubstrateNetwork := (SubstrateNetwork PeerId NotificationsSink Sw).

Definition with_swarm (x : Sw) (s : SubstrateNetwork) : SubstrateNetwork :=
  mkSubstrateNetwork x (event_tx s) (notification_sinks s) (next_request_id s) (pending_requests s)
    (pending_responses s) (cached_responses s) (discovered s) (rename s) (oneshots s) (handed s) (told s) (answered s).
Definition with_event_tx (x : channel (SubstrateNetworkEvent PeerId)) (s : SubstrateNetwork) : SubstrateNetwork :=
  mkSubstrateNetwork (swarm s) x (notification_sinks s) (next_request_id s) (pending_requests s)
    (pending_responses s) (cached_responses s) (discovered s) (rename s) (oneshots s) (handed s) (told s) (answered s).
Definition with_sinks (x : gmap (PeerId * ProtocolName) NotificationsSink) (s : SubstrateNetwork) : SubstrateNetwork :=
  mkSubstrateNetwork (swarm s) (event_tx s) x (next_request_id s) (pending_requests s)
    (pending_responses s) (cached_responses s) (discovered s) (rename s) (oneshots s) (handed s) (told s) (answered s).
Definition with_next_id (x : Z) (s : SubstrateNetwork) : SubstrateNetwork :=
  mkSubstrateNetwork (swarm s) (event_tx s) (notification_sinks s) x (pending_requests s)
    (pending_responses s) (cached_responses s) (discovered s) (rename s) (oneshots s) (handed s) (told s) (answered s).
Definition with_pending_requests (x : gmap Z (Z * nat)) (s : SubstrateNetwork) : SubstrateNetwork :=
  mkSubstrateNetwork (swarm s) (event_tx s) (notification_sinks s) (next_request_id s) x
    (pending_responses s) (cached_responses s) (discovered s) (rename s) (oneshots s) (handed s) (told s) (answered s).
Definition with_pending_responses (x : list (PendingResponse PeerId)) (n : nat) (s : SubstrateNetwork) :
    SubstrateNetwork :=
  mkSubstrateNetwork (swarm s) (event_tx s) (notification_sinks s) (next_request_id s) (pending_requests s)
    x (cached_responses s) (discovered s) (rename s) n (handed s) (told s) (answered s).
Definition with_cached (x : gmap Z bytes) (s : SubstrateNetwork) : SubstrateNetwork :=
  mkSubstrateNetwork (swarm s) (event_tx s) (notification_sinks s) (next_request_id s) (pending_requests s)
    (pending_responses s) x (discovered s) (rename s) (oneshots s) (handed s) (told s) (answered s).
Definition with_discovered (x : gset PeerId) (s : SubstrateNetwork) : SubstrateNetwork :=
  mkSubstrateNetwork (swarm s) (event_tx s) (notification_sinks s) (next_request_id s) (pending_requests s)
    (pending_responses s) (cached_responses s) x (rename s) (oneshots s) (handed s) (told s) (answered s).
Definition with_rename (x : gset PeerId) (s : SubstrateNetwork) : SubstrateNetwork :=
  mkSubstrateNetwork (swarm s) (event_tx s) (notification_sinks s) (next_request_id s) (pending_requests s)
    (pending_responses s) (cached_responses s) (discovered s) x (oneshots s) (handed s) (told s) (answered s).
Definition with_handed (x : list (NotificationsSink * bytes)) (s : SubstrateNetwork) : SubstrateNetwork :=
  mkSubstrateNetwork (swarm s) (event_tx s) (notification_sinks s) (next_request_id s) (pending_requests s)
    (pending_responses s) (cached_responses s) (discovered s) (rename s) (oneshots s) x (told s) (answered s).
Definition with_told (x : list (nat * Z)) (s : SubstrateNetwork) : SubstrateNetwork :=
  mkSubstrateNetwork (swarm s) (event_tx s) (notification_sinks s) (next_request_id s) (pending_requests s)
    (pending_responses s) (cached_responses s) (discovered s) (rename s) (oneshots s) (handed s) x (answered s).
Definition with_answered (x : list (nat * bytes)) (s : SubstrateNetwork) : SubstrateNetwork :=
  mkSubstrateNetwork (swarm s) (event_tx s) (notification_sinks s) (next_request_id s) (pending_requests s)
    (pending_responses s) (cached_responses s) (discovered s) (rename s) (oneshots s) (handed s) (told s) x.

(** [self.event_tx.send(..).await.expect("channel to stay open")]. *)
Definition emit (e : SubstrateNetworkEvent PeerId) (s : SubstrateNetwork) : outcome SubstrateNetwork :=
  tx ← send e (event_tx s); mret (with_event_tx tx s).

Definition take_request_id (s : SubstrateNetwork) : outcome (Z * SubstrateNetwork) :=
  let request_id := next_request_id s in
  next ← u64_add request_id 1;
  mret (request_id, with_next_id next s).

Definition on_send_request (peer : PeerId) (protocol : ProtocolName) (request : bytes) (tx : nat)
    (s : SubstrateNetwork) : outcome SubstrateNetwork :=
  '(request_id, s) ← take_request_id s;
  let res_tx := oneshots s in
  let s := with_told (told s ++ [(tx, request_id)]) (with_pending_responses (pending_responses s) (S res_tx) s) in
  match cached_responses s !! digest request with
  | Some response => emit (ResponseReceived peer protocol request_id response) s
  | None =>
      sw ← sw_send_request peer protocol request res_tx RequestResponses.ImmediateError (swarm s);
      let s := with_swarm sw s in
      mret (with_pending_responses (pending_responses s ++ [mkPending peer protocol request_id (Some res_tx)])
              (oneshots s) s)
  end.

Definition on_send_response (request_id : Z) (response : bytes) (s : SubstrateNetwork) : SubstrateNetwork :=
  match pending_requests s !! request_id with
  | Some (d, pending_response) =>
      let s := with_pending_requests (delete request_id (pending_requests s)) s in
      let s := with_cached (<[d := response]> (cached_responses s)) s in
      with_answered (answered s ++ [(pending_response, response)]) s
  | None => s
  end.

Definition on_command (command : Command PeerId) (s : SubstrateNetwork) : outcome SubstrateNetwork :=
  match command with
  | SendNotification peer protocol message =>
      match notification_sinks s !! (peer, protocol) with
      | Some sink => mret (with_handed (handed s ++ [(sink, message)]) s)
      | None => mret s
      end
  | SendRequest peer protocol request tx => on_send_request peer protocol request tx s
  | SendResponse _ request_id response => mret (on_send_response request_id response s)
  | Connect peer => mret (with_swarm (sw_connect peer (swarm s)) s)
  | Disconnect peer =>
      sw ← sw_disconnect_peer peer Protocol.HARDCODED_PEERSETS_SYNC (swarm s); mret (with_swarm sw s)
  end.

Definition on_swarm_event (event : NetBehaviour.BehaviourOut PeerId MA NotificationsSink) (s : SubstrateNetwork) :
    outcome SubstrateNetwork :=
  match event with
  | NetBehaviour.InboundRequest _ _ _ | NetBehaviour.RequestFinished _ _ _ _ => mret s
  | NetBehaviour.ReputationChanges peer changes =>
      mret (foldl (λ s change, with_swarm (sw_report_peer peer change (swarm s)) s) s changes)
  | NetBehaviour.PeerIdentify peer_id info =>
      mret (foldl (λ s addr, with_swarm
                     (sw_add_self_reported_address peer_id (NetBehaviour.id_protocols info) addr (swarm s)) s)
              s (NetBehaviour.id_listen_addrs info))
  | NetBehaviour.Discovered peer =>
      if decide (peer ∈ discovered s) then mret s
      else emit (PeerDiscovered peer) (with_discovered ({[peer]} ∪ discovered s) s)
  | NetBehaviour.RandomKademliaStarted => mret s
  | NetBehaviour.NotificationStreamOpened remote protocol _ sink _ =>
      emit (ProtocolOpened remote protocol) (with_sinks (<[(remote, protocol) := sink]> (notification_sinks s)) s)
  | NetBehaviour.NotificationStreamReplaced remote protocol sink =>
      mret (with_sinks (<[(remote, protocol) := sink]> (notification_sinks s)) s)
  | NetBehaviour.NotificationStreamClosed remote protocol =>
      emit (ProtocolClosed remote protocol) (with_sinks (delete (remote, protocol) (notification_sinks s)) s)
  | NetBehaviour.NotificationsReceived remote messages =>
      for_each (λ s m, emit (NotificationReceived remote m.1 m.2) s) messages s
  | NetBehaviour.Dht _ _ | NetBehaviour.NoEvent => mret s
  end.

(** One iteration of the loop. A pending response that is not there or waits for
    ever cannot be the one that is ready. *)
Definition step (s : SubstrateNetwork) (i : input PeerId MA NotificationsSink) : outcome SubstrateNetwork :=
  match i with
  | In_Request (Some (protocol, request)) =>
      '(request_id, s) ← take_request_id s;
      let d := digest (RequestResponses.ir_payload request) in
      s ← emit (RequestReceived (RequestResponses.ir_peer request) protocol request_id
                  (RequestResponses.ir_payload request)) s;
      mret (with_pending_requests
              (<[request_id := (d, RequestResponses.ir_pending_response request)]> (pending_requests s)) s)
  | In_Request None => Panicked ExplicitPanic
  | In_Response position r =>
      match pending_responses s !! position with
      | Some (mkPending peer protocol request_id (Some _)) =>
          let s := with_pending_responses (delete position (pending_responses s)) (oneshots s) s in
          match r with
          | Ok (Ok response) => emit (ResponseReceived peer protocol request_id response) s
          | _ => mret s
          end
      | _ => mret s
      end
  | In_Command (Some command) => on_command command s
  | In_Command None => Panicked ExplicitPanic
  | In_Swarm (Sw_Behaviour event) => on_swarm_event event s
  | In_Swarm (Sw_ConnectionEstablished peer_id) => emit (PeerConnected peer_id) s
  | In_Swarm (Sw_ConnectionClosed peer_id) =>
      s ← emit (PeerDisconnected peer_id) s;
      s ← emit (PeerDisconnected peer_id) s;
      mret (with_rename (rename s ∖ {[peer_id]}) s)
  | In_Swarm Sw_Logged => mret s
  end.

(** [run]: first a pending response that never comes, for an arbitrary peer. *)
Definition run (random : PeerId) (inputs : list (input PeerId MA NotificationsSink)) (s : SubstrateNetwork) :
    outcome SubstrateNetwork :=
  for_each step inputs
    (with_pending_responses (pending_responses s ++ [mkPending random "test" 0 None]) (oneshots s) s).

(** The fields of a new network. *)
Definition start (sw : Sw) (tx : channel (SubstrateNetworkEvent PeerId)) : SubstrateNetwork :=
  mkSubstrateNetwork sw tx ∅ 0 ∅ [] ∅ ∅ ∅ 0 [] [] [].
End service.

(** ** [new] *)
Section construction.
Context {PeerId : Type} `{Countable PeerId, !HashOrder PeerId} {NotificationsSink : Type}.
Context {Multihash MA SecretKey Keypair : Type} `{Multiaddr PeerId Multihash MA, NodeKeys SecretKey Keypair}.
Context {B Chan Hd M HE Opts D : Type} `{RequestResponses.SubBehaviour PeerId B Chan Hd M HE Opts D}.
Context {Disc PeerInfo : Type} `{Discovery PeerId MA Disc}.
Context (clock : nat → Instant).
Abbreviation Behaviour := (NetBehaviour.Behaviour (PeerId := PeerId) (NotificationsSink := NotificationsSink)
  (B := B) (Chan := Chan) (Disc := Disc) (PeerInfo := PeerInfo)).
Abbreviation NonDefaultSetConfig := (NonDefaultSetConfig PeerId MA).
Abbreviation NetworkConfiguration := (NetworkConfiguration PeerId MA SecretKey).

#[export] Instance behaviour_swarm : Swarm PeerId MA Behaviour := {|
  sw_send_request := NetBehaviour.send_request clock;
  sw_report_peer := NetBehaviour.user_report_peer;
  sw_add_self_reported_address := NetBehaviour.add_self_reported_address_to_dht;
  sw_connect := NetBehaviour.user_connect;
  sw_disconnect_peer := NetBehaviour.user_disconnect_peer clock;
|}.

Definition build_block_announce_protocol (handshake : option bytes) : NonDefaultSetConfig :=
  mkNonDefaultSetConfig "/sup/block-announces/1" [] handshake (8 * 1024 * 1024) (mkSetConfig 25 25 [] Deny).
Definition build_transaction_protocol : NonDefaultSetConfig :=
  mkNonDefaultSetConfig "/sup/transactions/1" [] None (16 * 1024 * 1024) (mkSetConfig 400 400 [] Accept).
Definition build_grandpa_protocol : NonDefaultSetConfig :=
  mkNonDefaultSetConfig "/paritytech/grandpa/1" [] None (1024 * 1024) (mkSetConfig 400 400 [] Accept).

(** Each of these also puts the receiving end of its queue into the map of
    streams the loop reads. *)
Definition build_sync_protocol : RequestResponses.ProtocolConfig :=
  RequestResponses.mkProtocolConfig "/sup/sync/2" [] (1024 * 1024) (16 * 1024 * 1024) (from_secs 20) true.
Definition build_state_sync_protocol : RequestResponses.ProtocolConfig :=
  RequestResponses.mkProtocolConfig "/sup/state/2" [] (1024 * 1024) (16 * 1024 * 1024) (from_secs 40) true.
Definition build_warp_sync_protocol : RequestResponses.ProtocolConfig :=
  RequestResponses.mkProtocolConfig "/sup/sync/warp" [] 32 (16 * 1024 * 1024) (from_secs 10) true.
Definition build_light_protocol : RequestResponses.ProtocolConfig :=
  RequestResponses.mkProtocolConfig "/sup/light/2" [] (1 * 1024 * 1024) (16 * 1024 * 1024) (from_secs 15) true.

(** [result.unwrap()]. *)
Definition unwrap {A E} (r : result A E) : outcome A :=
  match r with Ok a => Done a | Err _ => Panicked ExpectFailed end.

Definition network_config : outcome NetworkConfiguration :=
  c ← with_key NodeKey.NodeKeyConfig_default;
  a6 ← unwrap (ma_parse "/ip6/::0/tcp/0");
  a4 ← unwrap (ma_parse "/ip4/0.0.0.0/tcp/0");
  mret (add_protocols
          [build_sync_protocol; build_state_sync_protocol; build_warp_sync_protocol; build_light_protocol]
          [build_transaction_protocol; build_grandpa_protocol]
          (with_listen [a6; a4] (allow_non_globals_in_dht c) c)).

Definition yamux_maximum_buffer_size (c : NetworkConfiguration) : Z :=
  let requests_max := usize_from_u64 ∘ RequestResponses.rc_max_request_size <$> request_response_protocols c in
  let responses_max := usize_from_u64 ∘ RequestResponses.rc_max_response_size <$> request_response_protocols c in
  let notifs_max := usize_from_u64 ∘ nd_max_notification_size <$> extra_sets c in
  let default_max :=
    Z.max (1024 * 1024) (usize_from_u64 Protocol.BLOCK_ANNOUNCES_TRANSACTIONS_SUBSTREAM_SIZE) in
  Z.min usize_max (foldl Z.max default_max (requests_max ++ responses_max ++ notifs_max) + 10).

(** The key pair, the network and the size of the buffers of the transport, or
    an error of the file system. The transport and the swarm around the
    behaviour are built by libp2p; discovery is built from the addresses known
    at the start and its limit. *)
Definition new (handshake : option bytes) (generated : SecretKey) (fs : FileSystem) (peer_info : PeerInfo)
    (make_discovery : list (PeerId * MA) → Z → Disc) (tx : channel (SubstrateNetworkEvent PeerId)) :
    outcome (result (Keypair * SubstrateNetwork PeerId NotificationsSink Behaviour * Z) io_error * FileSystem) :=
  config ← network_config;
  let '(key, fs) := NodeKey.into_keypair (node_key config) generated fs in
  match key with
  | Err e => mret (Err e, fs)
  | Ok keypair =>
      let '(made, fs) := match net_config_path config with
                         | Some path => create_dir_all path fs
                         | None => (Ok tt, fs)
                         end in
      match made with
      | Err e => mret (Err e, fs)
      | Ok _ =>
          '(protocol, known) ← Protocol.new clock (Roles.from_Role Roles.Full) config
                                 (build_block_announce_protocol handshake);
          let known := known ++ ((λ b, (mp_peer_id b, mp_multiaddr b)) <$> boot_nodes config) in
          behaviour ← unwrap (NetBehaviour.new protocol peer_info
                        (make_discovery known (sc_out_peers (default_peers_set config) + 15))
                        (request_response_protocols config));
          mret (Ok (keypair, start behaviour tx, yamux_maximum_buffer_size config), fs)
      end
  end.
End construction.
End Service.
