(* ===== verification/ServiceTheorems.v ===== *)
(** * The network service: requests and responses

    How the loop of [Service] numbers the requests of remotes and of the
    interface, and what becomes of their responses, in every run. The theorems
    are about any [Swarm] whose calls do not panic. *)

From S2P Require Import Prelude PeersState Peerset Notifications Wire RequestResponses Config Protocol NetBehaviour Backend Service.
Import Service.

Section requests.
Context {PeerId : Type} `{Countable PeerId} {MA NotificationsSink Sw : Type} `{Swarm PeerId MA Sw}.
Context (digest : bytes → Z) (ok : Sw → Prop).
Abbreviation SubstrateNetwork := (SubstrateNetwork PeerId NotificationsSink Sw).
Abbreviation IncomingRequest := (RequestResponses.IncomingRequest (PeerId := PeerId)).
Abbreviation input := (input PeerId MA NotificationsSink).
Implicit Types (s : SubstrateNetwork) (i : input) (l : list input).

(** The swarm keeps its invariant, and then none of its calls panics. *)
Class SwarmLaws : Prop := {
  send_request_ok p n b r c sw : ok sw → runs (sw_send_request p n b r c sw) ok;
  report_peer_ok p c sw : ok sw → ok (sw_report_peer p c sw);
  add_address_ok p ps a sw : ok sw → ok (sw_add_self_reported_address p ps a sw);
  connect_ok p sw : ok sw → ok (sw_connect p sw);
  disconnect_ok p sw : ok sw → runs (sw_disconnect_peer p Protocol.HARDCODED_PEERSETS_SYNC sw) ok;
}.

(** ** The numbers of requests, read off the inputs *)

Definition takes_id (i : input) : bool :=
  match i with In_Request (Some _) | In_Command (Some (SendRequest _ _ _ _)) => true | _ => false end.
Definition used (l : list input) : Z := Z.of_nat (length (filter (λ i, takes_id i = true) l)).

(** The requests of remotes and those of the interface, with their numbers. *)
Definition arrival (n : Z) (i : input) : list (Z * (ProtocolName * IncomingRequest)) :=
  match i with In_Request (Some x) => [(n, x)] | _ => [] end.
Definition asking (n : Z) (i : input) : list (Z * (PeerId * ProtocolName * bytes * nat)) :=
  match i with In_Command (Some (SendRequest peer protocol request tx)) => [(n, (peer, protocol, request, tx))] | _ => [] end.

Fixpoint numbered {A} (f : Z → input → list (Z * A)) (n : Z) (l : list input) : list (Z * A) :=
  match l with
  | [] => []
  | i :: l => f n i ++ numbered f (if takes_id i then n + 1 else n) l
  end.
Abbreviation arrivals := (numbered arrival 0).
Abbreviation asked := (numbered asking 0).

Lemma used_snoc l i : used (l ++ [i]) = if takes_id i then used l + 1 else used l.
Proof.
  unfold used. rewrite filter_app, length_app, filter_cons. destruct (takes_id i); simpl; lia.
Qed.

Lemma numbered_snoc {A} (f : Z → input → list (Z * A)) l i : numbered f 0 (l ++ [i]) = numbered f 0 l ++ f (used l) i.
Proof.
  assert (∀ n, numbered f n (l ++ [i]) = numbered f n l ++ f (n + used l) i) as Hn; [|apply Hn].
  induction l as [|j l IH]; intros n; simpl.
  { rewrite app_nil_r. do 2 f_equal. unfold used. simpl. lia. }
  rewrite IH, <- app_assoc. do 3 f_equal. unfold used. rewrite filter_cons. destruct (takes_id j); simpl; lia.
Qed.

Lemma arrivals_snoc l i : arrivals (l ++ [i]) = arrivals l ++ arrival (used l) i.
Proof. apply numbered_snoc. Qed.
Lemma asked_snoc l i : asked (l ++ [i]) = asked l ++ asking (used l) i.
Proof. apply numbered_snoc. Qed.

Lemma numbered_range {A} (f : Z → input → list (Z * A)) l id x :
  (∀ n i, f n i ⊆ (λ y, (n, y)) <$> (snd <$> f n i)) → (∀ n i, takes_id i = false → f n i = []) →
  (id, x) ∈ numbered f 0 l → id < used l.
Proof.
  intros Hf Hno. induction l as [|i l IH] using rev_ind; [set_solver|]. rewrite numbered_snoc, used_snoc.
  intros [Hin|Hin]%elem_of_app; [apply IH in Hin; destruct (takes_id i); lia|].
  destruct (takes_id i) eqn:E; [|rewrite Hno in Hin by done; set_solver].
  apply Hf, list_elem_of_fmap in Hin as (y & [= -> ->] & _). lia.
Qed.

Lemma arrivals_range l id x : (id, x) ∈ arrivals l → id < used l.
Proof. apply numbered_range; [|by intros ? [[]| |[[]|]|]]. intros n i. destruct i as [[]| | |]; set_solver. Qed.
Lemma asked_range l id x : (id, x) ∈ asked l → id < used l.
Proof. apply numbered_range; [|by intros ? [[]| |[[]|]|]]. intros n i. destruct i as [| |[[]|]|]; set_solver. Qed.

(** ** What the interface sees *)

Definition received (e : SubstrateNetworkEvent PeerId) : option (PeerId * ProtocolName * Z * bytes) :=
  match e with RequestReceived peer protocol id request => Some (peer, protocol, id, request) | _ => None end.
Definition responded (e : SubstrateNetworkEvent PeerId) : option (Z * (PeerId * ProtocolName)) :=
  match e with ResponseReceived peer protocol id _ => Some (id, (peer, protocol)) | _ => None end.

Definition arrival_event (a : Z * (ProtocolName * IncomingRequest)) : PeerId * ProtocolName * Z * bytes :=
  (RequestResponses.ir_peer a.2.2, a.2.1, a.1, RequestResponses.ir_payload a.2.2).
Definition waits (p : PendingResponse PeerId) : option (Z * (PeerId * ProtocolName)) :=
  match pd_rx p with Some _ => Some (pd_request_id p, (pd_peer p, pd_protocol p)) | None => None end.

(** A response of the interface to a request of a remote. *)
Record answer := mkAnswer { an_id : Z; an_request : IncomingRequest; an_response : bytes }.
Definition answer_sent (a : answer) : nat * bytes := (RequestResponses.ir_pending_response (an_request a), an_response a).

(** Every answer is one the interface gave to that request. *)
Definition answer_ok (l : list input) (a : answer) : Prop :=
  (∃ protocol, (an_id a, (protocol, an_request a)) ∈ arrivals l) ∧
  ∃ peer, In_Command (Some (SendResponse peer (an_id a) (an_response a))) ∈ l.

(** The requests of remotes that wait for an answer. *)
Definition waiting (l : list input) (A : list answer) : list (Z * (ProtocolName * IncomingRequest)) :=
  filter (λ a, a.1 ∉ an_id <$> A) (arrivals l).

Record sinv (l : list input) (s : SubstrateNetwork) : Prop := {
  si_alive : receiver_alive (event_tx s) = true;
  si_ok : ok (swarm s);
  si_next : next_request_id s = used l;
  si_received : omap received (queue (event_tx s)) = arrival_event <$> arrivals l;
  si_told : told s = (λ a, (a.2.2, a.1)) <$> asked l;
  si_answers : ∃ A, answered s = answer_sent <$> A ∧ NoDup (an_id <$> A) ∧ Forall (answer_ok l) A ∧
    (∀ id d ch, pending_requests s !! id = Some (d, ch) ↔ ∃ p r, (id, (p, r)) ∈ waiting l A ∧
       d = digest (RequestResponses.ir_payload r) ∧ ch = RequestResponses.ir_pending_response r) ∧
    (∀ d r, cached_responses s !! d = Some r →
       ∃ a, a ∈ A ∧ digest (RequestResponses.ir_payload (an_request a)) = d ∧ an_response a = r);
  si_responses : let R := omap responded (queue (event_tx s)) ++ omap waits (pending_responses s) in
    NoDup R.*1 ∧ ∀ id peer protocol, (id, (peer, protocol)) ∈ R → ∃ request tx, (id, (peer, protocol, request, tx)) ∈ asked l;
}.

(** ** Every step keeps the invariant *)

Definition emitted (es : list (SubstrateNetworkEvent PeerId)) (s : SubstrateNetwork) : SubstrateNetwork :=
  with_event_tx (mkChannel (queue (event_tx s) ++ es) true) s.

Lemma runs_emit e s (Q : SubstrateNetwork → Prop) :
  receiver_alive (event_tx s) = true → Q (emitted [e] s) → runs (emit e s) Q.
Proof. intros Ha HQ. unfold emit. apply runs_bind, runs_send; [done|]. by apply runs_ret. Qed.

Lemma emitted_emitted es1 es2 s : emitted es2 (emitted es1 s) = emitted (es1 ++ es2) s.
Proof. unfold emitted. simpl. by rewrite app_assoc. Qed.

(** What neither takes a number nor concerns a request leaves it all alone. *)
Record idle (es : list (SubstrateNetworkEvent PeerId)) (s s' : SubstrateNetwork) : Prop := {
  id_events : event_tx s' = mkChannel (queue (event_tx s) ++ es) true;
  id_received : omap received es = [];
  id_responded : omap responded es = [];
  id_next : next_request_id s' = next_request_id s;
  id_told : told s' = told s;
  id_answered : answered s' = answered s;
  id_requests : pending_requests s' = pending_requests s;
  id_cached : cached_responses s' = cached_responses s;
  id_responses : pending_responses s' = pending_responses s;
}.

Lemma no_id_numbers l i : takes_id i = false →
  used (l ++ [i]) = used l ∧ arrivals (l ++ [i]) = arrivals l ∧ asked (l ++ [i]) = asked l.
Proof.
  intros E. rewrite used_snoc, arrivals_snoc, asked_snoc, E. split; [done|].
  destruct i as [[]| |[[]|]|]; try done; by rewrite !app_nil_r.
Qed.

Lemma answer_ok_snoc l i a : answer_ok l a → answer_ok (l ++ [i]) a.
Proof. intros [(pr & Ha) (pe & Hc)]. split; [exists pr; rewrite arrivals_snoc|exists pe]; set_solver. Qed.

Lemma waiting_snoc l i A : Forall (answer_ok l) A → waiting (l ++ [i]) A = waiting l A ++ arrival (used l) i.
Proof.
  intros HA. unfold waiting. rewrite arrivals_snoc, filter_app. f_equal. unfold arrival.
  destruct i as [[x|]| | |]; try done. rewrite filter_cons, filter_nil. rewrite decide_True; [done|]. simpl.
  intros (a & Ea & Ha)%list_elem_of_fmap. rewrite Forall_forall in HA. destruct (HA a Ha) as [(pr & Hin) _].
  rewrite <- Ea in Hin. apply arrivals_range in Hin. lia.
Qed.

Lemma sinv_idle es l i s s' :
  sinv l s → idle es s s' → takes_id i = false → ok (swarm s') → sinv (l ++ [i]) s'.
Proof.
  intros [Ha Ho Hn Hr Ht (A & HA & Hnd & Hall & Hp & Hc) Hs] [E1 E2 E3 E4 E5 E6 E7 E8 E9] Hid Ho'.
  destruct (no_id_numbers l i Hid) as (U & Ar & As).
  split; rewrite ?U, ?Ar, ?As, ?E1, ?E4, ?E5; simpl; rewrite ?omap_app, ?E2, ?E3, ?E9, ?app_nil_r; try done.
  exists A. rewrite E6, E7, E8. split_and!; try done.
  - eapply Forall_impl; [exact Hall|]. intros a. apply answer_ok_snoc.
  - intros id d ch. rewrite Hp, waiting_snoc by done. destruct i as [[]| | |]; try done; by rewrite app_nil_r.
Qed.

Lemma idle_emitted es s : omap received es = [] → omap responded es = [] → idle es s (emitted es s).
Proof. by split. Qed.
Lemma idle_same s : receiver_alive (event_tx s) = true → idle [] s s.
Proof. intros Ha. split; try done. rewrite app_nil_r. destruct (event_tx s). simpl in *. by subst. Qed.

Lemma runs_emits {X} (f : X → SubstrateNetworkEvent PeerId) xs s (Q : SubstrateNetwork → Prop) :
  receiver_alive (event_tx s) = true → Q (emitted (f <$> xs) s) → runs (for_each (λ s x, emit (f x) s) xs s) Q.
Proof.
  revert s. induction xs as [|x xs IH]; intros s Ha HQ; simpl.
  { unfold emitted in HQ. rewrite app_nil_r in HQ. destruct s as [sw [q []]]; [done|simpl in Ha; congruence]. }
  apply runs_bind, runs_emit; [done|]. apply IH; [done|]. by rewrite emitted_emitted.
Qed.

Context `{SL : SwarmLaws}.

(** A loop of calls of the swarm. *)
Lemma swarm_calls {X} (f : Sw → X → Sw) (xs : list X) s :
  receiver_alive (event_tx s) = true → (∀ sw x, ok sw → ok (f sw x)) → ok (swarm s) →
  let s' := foldl (λ s x, with_swarm (f (swarm s) x) s) s xs in idle [] s s' ∧ ok (swarm s').
Proof.
  intros Ha Hf. revert s Ha. induction xs as [|x xs IH]; intros s Ha Ho; simpl; [split; [by apply idle_same|done]|].
  destruct (IH (with_swarm (f (swarm s) x) s) Ha ltac:(simpl; auto)) as [[] Ho']. split; [by split|done].
Qed.

Lemma on_swarm_event_idle ev l i s :
  takes_id i = false → sinv l s → runs (on_swarm_event ev s) (sinv (l ++ [i])).
Proof.
  intros Hi Hs. pose proof (si_alive _ _ Hs) as Ha. pose proof (si_ok _ _ Hs) as Ho.
  assert (sinv (l ++ [i]) s) as Hsame by (eapply sinv_idle; [done|by apply idle_same|done|done]).
  destruct ev as [|?|?|peer changes|remote protocol fb sink hs|remote protocol sink|remote protocol|remote messages|peer info|peer|?|];
    simpl; try (by apply runs_ret).
  - apply runs_ret. destruct (swarm_calls (λ sw c, sw_report_peer peer c sw) changes s Ha) as [Hid Ho']; auto.
    { intros. by apply report_peer_ok. } by eapply sinv_idle.
  - apply runs_emit; [done|]. eapply (sinv_idle [ProtocolOpened remote protocol]); [exact Hs|by split|done|done].
  - apply runs_ret. eapply sinv_idle; [exact Hs| |done|done]. destruct (idle_same s Ha). by split.
  - apply runs_emit; [done|]. eapply (sinv_idle [ProtocolClosed remote protocol]); [exact Hs|by split|done|done].
  - apply (runs_emits (λ m, NotificationReceived remote m.1 m.2)); [done|].
    eapply sinv_idle; [exact Hs|apply idle_emitted|done|done]; clear; induction messages; simpl; auto.
  - apply runs_ret. destruct (swarm_calls (λ sw a, sw_add_self_reported_address peer (NetBehaviour.id_protocols info) a sw)
      (NetBehaviour.id_listen_addrs info) s Ha) as [Hid Ho']; auto.
    { intros. by apply add_address_ok. } by eapply sinv_idle.
  - case_decide; [by apply runs_ret|]. apply runs_emit; [done|].
    eapply (sinv_idle [PeerDiscovered peer]); [exact Hs|by split|done|done].
Qed.

Lemma runs_take_id s (Q : Z * SubstrateNetwork → Prop) :
  next_request_id s + 1 ≤ u64_max → Q (next_request_id s, with_next_id (next_request_id s + 1) s) → runs (take_request_id s) Q.
Proof. intros Hn HQ. unfold take_request_id. apply runs_bind, runs_u64_add; [done|]. by apply runs_ret. Qed.

(** A request of a remote arrives. *)
Lemma step_request protocol r l s :
  sinv l s → used l + 1 ≤ u64_max →
  runs (step digest s (In_Request (Some (protocol, r)))) (sinv (l ++ [In_Request (Some (protocol, r))])).
Proof.
  intros [Ha Ho Hn Hr Ht (A & HA & Hnd & Hall & Hp & Hc) Hs] Hu. simpl.
  apply runs_bind, runs_take_id; [by rewrite Hn|]. rewrite Hn. apply runs_bind, runs_emit; [done|]. apply runs_ret.
  split; simpl; rewrite ?used_snoc, ?arrivals_snoc, ?asked_snoc, ?omap_app, ?fmap_app; simpl; rewrite ?app_nil_r; try done.
  - by rewrite Hr.
  - exists A. split_and!; try done.
    + eapply Forall_impl; [exact Hall|]. intros a. apply answer_ok_snoc.
    + intros id d ch. rewrite waiting_snoc by done. simpl. destruct (decide (id = used l)) as [->|Hne].
      * rewrite lookup_insert_eq. split.
        -- intros [= <- <-]. exists protocol, r. set_solver.
        -- intros (p & r' & [Hin|Hin%list_elem_of_singleton]%elem_of_app & -> & ->); [|naive_solver].
           apply list_elem_of_filter in Hin as [_ Hin%arrivals_range]. lia.
      * rewrite lookup_insert_ne, Hp by done. split; intros (p & r' & Hin & E); exists p, r'; (split; [|done]); set_solver.
  - cbv zeta in Hs. by rewrite fmap_app in Hs.
Qed.

Lemma omap_delete {X Y} (f : X → option Y) (xs : list X) k x y :
  xs !! k = Some x → f x = Some y → y :: omap f (delete k xs) ≡ₚ omap f xs.
Proof.
  intros Hk Hf. rewrite delete_take_drop, omap_app. rewrite <- (take_drop_middle xs k x Hk) at 3.
  rewrite omap_app. simpl. rewrite Hf. by rewrite Permutation_middle.
Qed.

(** A pending response is ready. *)
Lemma step_response k r l s :
  sinv l s → runs (step digest s (In_Response k r)) (sinv (l ++ [In_Response k r])).
Proof.
  intros Hs. pose proof (si_alive _ _ Hs) as Ha. simpl.
  assert (sinv (l ++ [In_Response k r]) s) as Hsame by (eapply sinv_idle; [done|by apply idle_same|done|apply Hs]).
  destruct (pending_responses s !! k) as [[peer protocol id [rx|]]|] eqn:Hk; [|by apply runs_ret..].
  pose proof (omap_delete waits _ k _ (id, (peer, protocol)) Hk eq_refl) as Hperm.
  destruct Hsame as [_ Ho Hn Hr Ht HA [HR Hasked]].
  assert (∀ R', R' ⊆+ omap responded (queue (event_tx s)) ++ omap waits (pending_responses s) →
    NoDup R'.*1 ∧ ∀ id peer protocol, (id, (peer, protocol)) ∈ R' →
      ∃ request tx, (id, (peer, protocol, request, tx)) ∈ asked (l ++ [In_Response k r])) as HR'.
  { intros R' [R2 HP]%submseteq_Permutation. rewrite HP, fmap_app in HR. apply NoDup_app in HR as [HR _].
    split; [done|]. intros id' peer' protocol' Hin. apply Hasked. rewrite HP. set_solver. }
  assert (sinv (l ++ [In_Response k r]) (with_pending_responses (delete k (pending_responses s)) (oneshots s) s)) as Hgone.
  { split; simpl; try done. apply HR'. apply submseteq_app; [done|]. rewrite <- Hperm. by apply submseteq_cons. }
  destruct r as [[response|]|]; [|by apply runs_ret..]. apply runs_emit; [done|].
  destruct Hgone as [_ _ _ _ _ _ _]. split; simpl; try done.
  - by rewrite omap_app, Hr, app_nil_r.
  - apply HR'. rewrite omap_app, <- app_assoc. apply submseteq_app; [done|]. simpl. by rewrite Hperm.
Qed.

(** The interface sends a request: from the cache, or over the network. *)
Lemma step_send_request peer protocol request tx l s (i := In_Command (Some (SendRequest peer protocol request tx))) :
  sinv l s → used l + 1 ≤ u64_max → runs (step digest s i) (sinv (l ++ [i])).
Proof.
  intros [Ha Ho Hn Hr Ht (A & HA & Hnd & Hall & Hp & Hc) [HR Hasked]] Hu. simpl.
  unfold on_send_request. apply runs_bind, runs_take_id; [by rewrite Hn|]. rewrite Hn. cbn [told pending_responses oneshots
    with_told with_pending_responses with_next_id cached_responses swarm].
  assert (used l ∉ (omap responded (queue (event_tx s)) ++ omap waits (pending_responses s)).*1) as Hfresh.
  { intros ([id [pe pr]] & E & Hin)%list_elem_of_fmap. simpl in E. subst id.
    destruct (Hasked _ _ _ Hin) as (? & ? & Hin2%asked_range). lia. }
  assert (∀ R', R' ≡ₚ (used l, (peer, protocol)) :: omap responded (queue (event_tx s)) ++ omap waits (pending_responses s) →
    NoDup R'.*1 ∧ ∀ id pe pr, (id, (pe, pr)) ∈ R' → ∃ rq t, (id, (pe, pr, rq, t)) ∈ asked (l ++ [i])) as HR'.
  { intros R' HP. split.
    - rewrite HP. simpl. by apply NoDup_cons.
    - intros id pe pr. rewrite HP, asked_snoc. intros [[= -> -> ->]|Hin]%elem_of_cons; [exists request, tx; set_solver|].
      destruct (Hasked _ _ _ Hin) as (rq & t & ?). exists rq, t. set_solver. }
  assert (∃ A, answered s = answer_sent <$> A ∧ NoDup (an_id <$> A) ∧ Forall (answer_ok (l ++ [i])) A ∧
    (∀ id d ch, pending_requests s !! id = Some (d, ch) ↔ ∃ p r, (id, (p, r)) ∈ waiting (l ++ [i]) A ∧
       d = digest (RequestResponses.ir_payload r) ∧ ch = RequestResponses.ir_pending_response r) ∧
    (∀ d r, cached_responses s !! d = Some r →
       ∃ a, a ∈ A ∧ digest (RequestResponses.ir_payload (an_request a)) = d ∧ an_response a = r)) as HA'.
  { exists A. rewrite waiting_snoc by done. simpl. rewrite app_nil_r. split_and!; try done.
    eapply Forall_impl; [exact Hall|]. intros a. apply answer_ok_snoc. }
  assert (arrivals (l ++ [i]) = arrivals l) as Har by (rewrite arrivals_snoc; apply app_nil_r).
  assert (told s ++ [(tx, used l)] = (λ a, (a.2.2, a.1)) <$> asked (l ++ [i])) as Hto by (by rewrite asked_snoc, fmap_app, Ht).
  destruct (cached_responses s !! digest request) as [response|].
  - apply runs_emit; [done|]. split; simpl; rewrite ?used_snoc, ?Har, ?omap_app; simpl; rewrite ?app_nil_r; try done.
    apply HR'. rewrite <- app_assoc. simpl. by rewrite Permutation_middle.
  - apply runs_bind. eapply runs_mono; [by apply send_request_ok|]. intros sw Hsw. apply runs_ret.
    split; simpl; rewrite ?used_snoc, ?Har; simpl; try done.
    apply HR'. rewrite omap_app. simpl. rewrite app_assoc. by rewrite <- Permutation_cons_append.
Qed.

(** The interface sends a response. *)
Lemma step_send_response peer id response l s (i := In_Command (Some (SendResponse peer id response))) :
  sinv l s → sinv (l ++ [i]) (on_send_response id response s).
Proof.
  intros Hs. assert (sinv (l ++ [i]) s) as Hsame.
  { eapply sinv_idle; [done|apply idle_same, Hs|done|apply Hs]. }
  unfold on_send_response. destruct (pending_requests s !! id) as [[d ch]|] eqn:Hid; [|done].
  destruct Hsame as [Ha Ho Hn Hr Ht (A & HA & Hnd & Hall & Hp & Hc) HR].
  destruct (proj1 (Hp id d ch) Hid) as (pr & r & Hin & -> & ->).
  unfold waiting in Hin. apply list_elem_of_filter in Hin as [Hnew Hin]. simpl in Hnew.
  split; simpl; try done. exists (A ++ [mkAnswer id r response]). rewrite !fmap_app, HA. simpl. split_and!.
  - done.
  - apply NoDup_app. split_and!; [done|set_solver|apply NoDup_singleton].
  - apply Forall_app. split; [done|]. constructor; [|done]. split; [by exists pr|]. exists peer. simpl. set_solver.
  - intros id' d' ch'. destruct (decide (id' = id)) as [->|Hne].
    + rewrite lookup_delete_eq. split; [done|]. intros (p' & r' & Hin' & _).
      apply list_elem_of_filter in Hin' as [Hno _]. simpl in Hno. rewrite fmap_app in Hno. set_solver.
    + rewrite lookup_delete_ne, Hp by done. unfold waiting. split; intros (p' & r' & Hin' & E); exists p', r'; (split; [|done]);
        apply list_elem_of_filter in Hin' as [Hno Hin']; apply list_elem_of_filter; (split; [|done]); simpl in *;
        rewrite ?fmap_app in *; set_solver.
  - intros d' r'. destruct (decide (digest (RequestResponses.ir_payload r) = d')) as [<-|Hne].
    + rewrite lookup_insert_eq. intros [= <-]. exists (mkAnswer id r response). set_solver.
    + rewrite lookup_insert_ne by done. intros (a & ? & ?)%Hc. exists a. set_solver.
Qed.

(** ** Runs *)

(** The streams the loop reads do not end: on the end of the stream of requests
    and of the stream of commands the source panics explicitly. *)
Definition fed (i : input) : Prop := match i with In_Request None | In_Command None => False | _ => True end.

Lemma step_sinv i l s : sinv l s → fed i → used l + 1 ≤ u64_max → runs (step digest s i) (sinv (l ++ [i])).
Proof.
  intros Hs Hf Hu. pose proof (si_alive _ _ Hs) as Ha. pose proof (si_ok _ _ Hs) as Ho.
  assert (∀ s', takes_id i = false → idle [] s s' → ok (swarm s') → sinv (l ++ [i]) s') as Hidle.
  { intros s' Hi Hid Ho'. by eapply sinv_idle. }
  assert (takes_id i = false → sinv (l ++ [i]) s) as Hsame by (intros; apply Hidle; [done|by apply idle_same|done]).
  destruct i as [[[pr r]|]|k r|[[peer pr m|peer pr rq tx|peer id rs|peer|peer]|]|[ev|peer|peer|]]; try done.
  - by apply step_request.
  - by apply step_response.
  - simpl. destruct (notification_sinks s !! (peer, pr)); apply runs_ret; [|by apply Hsame].
    apply Hidle; [done| |done]. destruct (idle_same s Ha). by split.
  - by apply step_send_request.
  - by apply runs_ret, step_send_response.
  - apply runs_ret, Hidle; [done| |by apply connect_ok]. destruct (idle_same s Ha). by split.
  - simpl. apply runs_bind. eapply runs_mono; [by apply disconnect_ok|]. intros sw Hsw. apply runs_ret, Hidle; [done| |done].
    destruct (idle_same s Ha). by split.
  - by apply on_swarm_event_idle.
  - apply runs_emit; [done|]. by eapply (sinv_idle [PeerConnected peer]).
  - simpl. apply runs_bind, runs_emit; [done|]. apply runs_bind, runs_emit; [done|]. apply runs_ret. rewrite emitted_emitted.
    eapply (sinv_idle [PeerDisconnected peer; PeerDisconnected peer]); [exact Hs|by split|done|done].
  - by apply runs_ret, Hsame.
Qed.

Lemma run_sinv inputs l s :
  sinv l s → Forall fed inputs → used l + Z.of_nat (length inputs) ≤ u64_max →
  runs (for_each (step digest) inputs s) (sinv (l ++ inputs)).
Proof.
  revert l s. induction inputs as [|i inputs IH]; intros l s Hs Hf Hu; simpl; [by rewrite app_nil_r|].
  apply Forall_cons in Hf as [Hi Hf]. simpl in Hu. apply runs_bind.
  eapply runs_mono; [apply step_sinv; [exact Hs|done|lia]|]. intros s' Hs'.
  replace (l ++ i :: inputs) with ((l ++ [i]) ++ inputs) by (by rewrite <- app_assoc).
  apply IH; [done|done|]. rewrite used_snoc. destruct (takes_id i); lia.
Qed.

Lemma numbered_NoDup l : NoDup ((arrivals l).*1 ++ (asked l).*1).
Proof.
  induction l as [|i l IH] using rev_ind; [by apply NoDup_nil_2|]. rewrite arrivals_snoc, asked_snoc, !fmap_app.
  assert (used l ∉ (arrivals l).*1 ++ (asked l).*1) as Hfresh.
  { intros [([id x] & E & Hin)%list_elem_of_fmap|([id x] & E & Hin)%list_elem_of_fmap]%elem_of_app; simpl in E; subst id;
      [apply arrivals_range in Hin|apply asked_range in Hin]; lia. }
  assert (NoDup (used l :: (arrivals l).*1 ++ (asked l).*1)) as Hcons by (by apply NoDup_cons).
  destruct i as [[x|]| |[[]|]|]; simpl; rewrite ?app_nil_r; try done.
  - rewrite <- app_assoc. simpl. by rewrite <- Permutation_middle.
  - rewrite app_assoc. by rewrite <- Permutation_cons_append.
Qed.

Lemma start_sinv random sw tx : ok sw → receiver_alive tx = true → queue tx = [] →
  sinv [] (with_pending_responses (pending_responses (start (NotificationsSink := NotificationsSink) sw tx) ++
    [mkPending random "test"%string 0 None]) 0 (start sw tx)).
Proof.
  intros Ho Ha Hq. split; simpl; rewrite ?Hq; try done.
  - exists []. split_and!; try done; [by apply NoDup_nil_2|].
    intros id d ch. rewrite lookup_empty. split; [done|]. intros (? & ? & Hin & _). unfold waiting in Hin. set_solver.
  - split; [by apply NoDup_nil_2|set_solver].
Qed.

Lemma run_reaches random sw tx inputs :
  ok sw → receiver_alive tx = true → queue tx = [] → Forall fed inputs → Z.of_nat (length inputs) ≤ u64_max →
  ∃ s : SubstrateNetwork, run digest random inputs (start sw tx) = Done s ∧ sinv inputs s.
Proof.
  intros Ho Ha Hq Hf Hu. apply runs_Done. apply (run_sinv inputs []); [by apply start_sinv|done|]. unfold used. simpl. lia.
Qed.
End requests.

(** C26: The requests of remotes. Let the overseer keep the event stream of the
    interface, let the streams of requests and of commands not end (the service
    panics explicitly when one does), let the calls of the swarm not panic, and
    let fewer than [2 ^ 64] inputs come. Then the service never panics, and in
    every run the interface is told of exactly the requests that arrived, in
    order, each under a number of its own, which no request of the interface has
    either. A remote is sent at most one response, and only one that the
    interface gave to the number of its request; a request is answered or still
    waits for an answer. What the cache holds for a hash is the answer to a
    request with that hash. *)
Theorem remote_requests_answered_once {PeerId : Type} `{Countable PeerId} {MA NotificationsSink Sw : Type}
    `{Swarm PeerId MA Sw} (digest : bytes → Z) (ok : Sw → Prop) (SL : SwarmLaws ok)
    (random : PeerId) (sw : Sw) (tx : channel (SubstrateNetworkEvent PeerId))
    (inputs : list (input PeerId MA NotificationsSink)) :
  ok sw → receiver_alive tx = true → queue tx = [] → Forall fed inputs → Z.of_nat (length inputs) ≤ u64_max →
  ∃ (s : SubstrateNetwork PeerId NotificationsSink Sw) A,
    run digest random inputs (start sw tx) = Done s ∧
    omap received (queue (event_tx s)) = arrival_event <$> numbered arrival 0 inputs ∧
    NoDup ((numbered arrival 0 inputs).*1 ++ (numbered asking 0 inputs).*1) ∧
    answered s = answer_sent <$> A ∧ NoDup (an_id <$> A) ∧ Forall (answer_ok inputs) A ∧
    (∀ id, is_Some (pending_requests s !! id) ↔
       id ∈ (numbered arrival 0 inputs).*1 ∧ id ∉ an_id <$> A) ∧
    (∀ d r, cached_responses s !! d = Some r →
       ∃ a, a ∈ A ∧ digest (RequestResponses.ir_payload (an_request a)) = d ∧ an_response a = r).
Proof.
  intros Ho Ha Hq Hf Hu. destruct (run_reaches digest ok random sw tx inputs Ho Ha Hq Hf Hu) as (s & Hrun & Hs).
  destruct Hs as [_ _ _ Hr _ (A & HA & Hnd & Hall & Hp & Hc) _]. exists s, A.
  split_and!; try done; [apply numbered_NoDup|]. intros id. split.
  - intros [[d ch] (p & r & Hin & _)%Hp]. apply list_elem_of_filter in Hin as [? Hin]. split; [|done].
    apply list_elem_of_fmap. by exists (id, (p, r)).
  - intros [([id' [p r]] & -> & Hin)%list_elem_of_fmap Hno]. eexists. apply Hp. exists p, r.
    split; [by apply list_elem_of_filter|done].
Qed.

(** C27: The requests of the interface. Every request is told its number, in
    order, and gets at most one response, which is reported under that number
    and for the peer and the protocol it was sent to, whether it comes from the
    network or from the cache; what still waits for a response was asked for and
    has not been reported. *)
Theorem own_requests_answered_once {PeerId : Type} `{Countable PeerId} {MA NotificationsSink Sw : Type}
    `{Swarm PeerId MA Sw} (digest : bytes → Z) (ok : Sw → Prop) (SL : SwarmLaws ok)
    (random : PeerId) (sw : Sw) (tx : channel (SubstrateNetworkEvent PeerId))
    (inputs : list (input PeerId MA NotificationsSink)) :
  ok sw → receiver_alive tx = true → queue tx = [] → Forall fed inputs → Z.of_nat (length inputs) ≤ u64_max →
  ∃ s : SubstrateNetwork PeerId NotificationsSink Sw,
    run digest random inputs (start sw tx) = Done s ∧
    told s = (λ a, (a.2.2, a.1)) <$> numbered asking 0 inputs ∧
    let R := omap responded (queue (event_tx s)) ++ omap waits (pending_responses s) in
    NoDup R.*1 ∧
    ∀ id peer protocol, (id, (peer, protocol)) ∈ R →
      ∃ request tx, (id, (peer, protocol, request, tx)) ∈ numbered asking 0 inputs.
Proof.
  intros Ho Ha Hq Hf Hu. destruct (run_reaches digest ok random sw tx inputs Ho Ha Hq Hf Hu) as (s & Hrun & Hs).
  exists s. split_and!; [done|apply Hs|]. apply Hs.
Qed.

(** ** Examples *)
Section examples.

(** A swarm that only remembers the requests it sent. *)
#[local] Instance request_log : Swarm nat unit (list (nat * bytes)) := {|
  sw_send_request peer _ request _ _ sw := Done (sw ++ [(peer, request)]);
  sw_report_peer _ _ sw := sw;
  sw_add_self_reported_address _ _ _ sw := sw;
  sw_connect _ sw := sw;
  sw_disconnect_peer _ _ sw := Done sw;
|}.

Lemma request_log_laws : SwarmLaws (PeerId := nat) (MA := unit) (Sw := list (nat * bytes)) (λ _, True).
Proof. by split. Qed.

Definition demo_digest (b : bytes) : Z := Z.of_nat (length b).

(** Peers 7 and 8 send requests; the first is answered; then the interface asks
    for the same, which comes from the cache, and for something else, which is
    answered over the network. *)
Definition demo_inputs : list (input nat unit nat) :=
  [In_Request (Some ("/sup/sync/2"%string, RequestResponses.mkIncomingRequest 7%nat [Byte.x01] 70%nat));
   In_Request (Some ("/sup/sync/2"%string, RequestResponses.mkIncomingRequest 8%nat [Byte.x02; Byte.x03] 80%nat));
   In_Command (Some (SendResponse 7%nat 0 [Byte.x0a]));
   In_Command (Some (SendRequest 9%nat "/sup/sync/2"%string [Byte.x01] 90%nat));
   In_Command (Some (SendRequest 9%nat "/sup/sync/2"%string [] 91%nat));
   In_Response 1 (Ok (Ok [Byte.x0b]))].

Lemma demo_fed : Forall fed demo_inputs.
Proof. by repeat constructor. Qed.

Lemma remote_requests_answered_once_witness :
  ∃ s : SubstrateNetwork nat nat (list (nat * bytes)),
    run demo_digest 0%nat demo_inputs (start [] new_channel) = Done s ∧
    omap received (queue (event_tx s)) =
      [(7%nat, "/sup/sync/2"%string, 0, [Byte.x01]); (8%nat, "/sup/sync/2"%string, 1, [Byte.x02; Byte.x03])] ∧
    answered s = [(70%nat, [Byte.x0a])] ∧ is_Some (pending_requests s !! 1).
Proof.
  destruct (remote_requests_answered_once demo_digest (λ _, True) request_log_laws 0%nat [] new_channel demo_inputs
              I eq_refl eq_refl demo_fed ltac:(done)) as (s & A & E & Hr & _ & Ha & _ & _ & Hp & _).
  exists s. split; [exact E|]. rewrite Hr. split; [done|].
  assert (answered s = [(70%nat, [Byte.x0a])]) as Hs.
  { vm_compute in E. injection E as <-. reflexivity. }
  split; [exact Hs|]. apply Hp. split; [right; left|].
  vm_compute in E. injection E as <-. destruct (Hp 1) as [Hin _]. apply Hin. by eexists.
Defined.

Lemma own_requests_answered_once_witness :
  ∃ s : SubstrateNetwork nat nat (list (nat * bytes)),
    run demo_digest 0%nat demo_inputs (start [] new_channel) = Done s ∧
    told s = [(90%nat, 2); (91%nat, 3)] ∧ omap responded (queue (event_tx s)) =
      [(2, (9%nat, "/sup/sync/2"%string)); (3, (9%nat, "/sup/sync/2"%string))].
Proof.
  destruct (own_requests_answered_once demo_digest (λ _, True) request_log_laws 0%nat [] new_channel demo_inputs
              I eq_refl eq_refl demo_fed ltac:(done)) as (s & E & Ht & _).
  exists s. split; [exact E|]. rewrite Ht. split; [done|]. vm_compute in E. injection E as <-. reflexivity.
Defined.
End examples.
