(* ===== verification/NodeSwarm.v ===== *)
(** * The behaviour of the node as the swarm of the service

    [ServiceTheorems.v] asks of the swarm that its calls do not panic. The
    behaviour [Service.new] builds keeps that promise: sending a request and
    disconnecting a peer run in every state that satisfies the invariants of
    the request-response behaviour and of the peer set manager. *)

From S2P Require Import Prelude Wire RequestResponses RequestResponsesFacts PeersState PeersSpecFacts Peerset PeersetFacts PeersetRun Notifications NotificationsFacts Config Protocol NetBehaviour Backend Service ServiceTheorems.

Section swarm.
Context {PeerId : Type} `{Countable PeerId, !HashOrder PeerId} {NotificationsSink : Type}.
Context {Multihash MA SecretKey Keypair : Type} `{Multiaddr PeerId Multihash MA, NodeKeys SecretKey Keypair}.
Context {B Chan Hd M HE Opts D : Type} `{RequestResponses.SubBehaviour PeerId B Chan Hd M HE Opts D}.
Context `{RL : !SubBehaviourLaws PeerId B Chan Hd M HE Opts D}.
Context {Disc PeerInfo : Type} `{Discovery PeerId MA Disc}.
Context (clock : nat → Instant) (clock_mono : ∀ m n, (m ≤ n)%nat → clock m ≤ clock n).
Context (U : gset PeerId) (U_small : Z.of_nat (size U) ≤ u32_max).
Abbreviation Behaviour := (NetBehaviour.Behaviour (PeerId := PeerId) (NotificationsSink := NotificationsSink)
  (B := B) (Chan := Chan) (Disc := Disc) (PeerInfo := PeerInfo)).
Implicit Types (n : Behaviour.Notifications PeerId NotificationsSink).

(** The manager of the notifications behaviour has the set [s]. *)
Definition managed (s : nat) n : Prop :=
  ∃ a, pinv clock PeersetRun.idle U (Behaviour.peerset n) a ∧ (s < length (Spec.tables a))%nat.

Lemma managed_peerset s n n' : Behaviour.peerset n' = Behaviour.peerset n → managed s n → managed s n'.
Proof. intros E. unfold managed. by rewrite E. Qed.

Lemma managed_rx s x n : managed s n →
  managed s (Behaviour.with_peerset (unbounded_send x (Behaviour.peerset n)) n).
Proof. intros (a & Hi & Hs). exists a. split; [by apply inv_with_rx|done]. Qed.

Lemma dropped_managed s p n : managed s n → runs (Behaviour.peerset_dropped clock s p DR_Unknown n) (managed s).
Proof.
  intros (a & Hi & Hs). unfold Behaviour.peerset_dropped. apply runs_bind.
  destruct (pinv_lookup _ _ _ _ _ _ Hi Hs) as (r & _ & Hr & _).
  eapply runs_mono; [by eapply (dropped_spec clock U clock_mono s p DR_Unknown _ a r)|].
  intros ps' (a' & Hdd). apply runs_ret. exists a'. split; [apply Hdd|]. by rewrite (dd_length _ _ _ _ _ _ _ _ _ Hdd).
Qed.

(** No connection that passes the test is left after all were changed. *)
Lemma notified (test : Behaviour.ConnectionState NotificationsSink → bool) new mk l :
  test new = false → Behaviour.any test (Behaviour.notify_filtered (PeerId := PeerId) test new mk l).1 = false.
Proof.
  intros Hn. rewrite notify_any, Hn. simpl. unfold Behaviour.any. induction l as [|c l IH]; [done|]. simpl.
  rewrite IH. by destruct (test c.2).
Qed.

Lemma any_weaken (f g : Behaviour.ConnectionState NotificationsSink → bool) l :
  Behaviour.any f l = false → Behaviour.any (λ st, f st && g st) l = false.
Proof.
  unfold Behaviour.any. induction l as [|c l IH]; [done|]. simpl. intros [-> Hl]%orb_false_elim. simpl. auto.
Qed.

Lemma disconnect_managed s p n : managed s n → runs (Behaviour.disconnect_peer clock p s n) (managed s).
Proof.
  intros Hm. unfold Behaviour.disconnect_peer, Behaviour.disconnect_peer_inner.
  destruct (Behaviour.peers n !! (p, s)) as [st|]; [|by apply runs_ret].
  destruct st as [|t|t d| |b l|t d l|l|b l]; try (by apply runs_ret).
  - apply runs_bind. eapply runs_mono; [by apply dropped_managed|]. intros n' Hm'. by apply runs_ret.
  - apply runs_bind. eapply runs_mono; [by apply dropped_managed|]. intros n' Hm'.
    pose proof (notified Behaviour.is_open_state Behaviour.Closing (Behaviour.send_close p s) l eq_refl) as H1'.
    destruct (Behaviour.notify_filtered Behaviour.is_open_state _ _ l) as [l1 evs1]. simpl in H1'.
    pose proof (notified Behaviour.is_opening Behaviour.OpeningThenClosing (Behaviour.send_close p s) l1 eq_refl) as H2'.
    pose proof (notify_any Behaviour.is_open_state Behaviour.is_opening Behaviour.OpeningThenClosing (Behaviour.send_close p s) l1) as H3'.
    destruct (Behaviour.notify_filtered Behaviour.is_opening _ _ l1) as [l2 evs2]. simpl in H2', H3'.
    apply runs_bind, runs_debug_assert; [|apply runs_bind, runs_debug_assert; [by rewrite H2'|by apply runs_ret]].
    by rewrite H3', any_weaken.
  - destruct (Behaviour.kill_incoming p s _) as [inc|]; [|by apply runs_ret].
    pose proof (notified Behaviour.is_desired Behaviour.Closing (Behaviour.send_close p s) l eq_refl) as H1'.
    destruct (Behaviour.notify_filtered Behaviour.is_desired _ _ l) as [l1 evs1]. simpl in H1'.
    destruct b; apply runs_bind, runs_debug_assert; try (by rewrite H1'); by apply runs_ret.
Qed.

(** ** The laws *)
Context (rep : nat → Z).

Definition node_ok (b : Behaviour) : Prop :=
  (∃ given, rinv (NetBehaviour.request_responses b) ∧ served rep given (NetBehaviour.request_responses b)) ∧
  managed Protocol.HARDCODED_PEERSETS_SYNC (Protocol.behaviour (NetBehaviour.substrate b)).

Lemma behaviour_swarm_laws : SwarmLaws (H0 := Service.behaviour_swarm clock) node_ok.
Proof.
  split; simpl.
  - intros p name request r c b [(given & Hr & Hs) Hm]. apply runs_bind.
    eapply runs_mono; [by apply RequestResponsesFacts.send_request_ok|]. intros r' (Hr' & Hs' & _). apply runs_ret.
    split; [by exists given|done].
  - intros p c b [Hr Hm]. split; [done|]. by apply managed_rx.
  - intros p ps a b [Hr Hm]. by split.
  - intros p b [Hr Hm]. split; [done|]. by apply managed_rx.
  - intros p b [Hr Hm]. apply runs_bind. apply runs_bind. eapply runs_mono; [by apply disconnect_managed|].
    intros n Hn. apply runs_ret. by split.
Qed.

(** The loop of the service on such a behaviour. *)
Lemma loop_runs digest random (b : Behaviour) tx (inputs : list (Service.input PeerId MA NotificationsSink)) :
  node_ok b → receiver_alive tx = true → queue tx = [] → Forall fed inputs → Z.of_nat (length inputs) ≤ u64_max →
  ∃ s, Service.run (SW := Service.behaviour_swarm clock) digest random inputs (Service.start b tx) = Done s.
Proof.
  intros Hb Ha Hq Hf Hu. pose proof behaviour_swarm_laws as SL.
  destruct (run_reaches (H0 := Service.behaviour_swarm clock) digest node_ok random b tx inputs Hb Ha Hq Hf Hu) as (s & E & _). by exists s.
Qed.
End swarm.
