(* ===== verification/NodeTheorems.v ===== *)
(** * The node: service, protocols and notifications behaviour together

    The network service with the behaviour [Service.new] builds, as the swarm
    drives it: events of connections and handlers reach the notifications
    behaviour, what the behaviour reports goes through [Protocol] to the loop of
    the service, and commands of the interface go the other way. *)

From S2P Require Import Prelude Wire RequestResponses RequestResponsesFacts RequestResponsesTheorems PeersState PeersSpecFacts Peerset PeersetFacts PeersetRun Notifications NotificationsFacts NotificationsSteps NotificationsPoll NotificationsTheorems Config Protocol NetBehaviour Backend Service ServiceTheorems NodeSwarm.
Import Service.

Section node.
Context {PeerId : Type} `{Countable PeerId, !HashOrder PeerId} {NotificationsSink : Type}.
Context {Multihash MA SecretKey Keypair : Type} `{Multiaddr PeerId Multihash MA, NodeKeys SecretKey Keypair}.
Context {B Chan Hd M HE Opts D : Type} `{RequestResponses.SubBehaviour PeerId B Chan Hd M HE Opts D}.
Context {Disc PeerInfo : Type} `{Discovery PeerId MA Disc}.
Context (clock : nat → Instant) (delay_ready : Instant → Instant → bool) (ban_sample : nat → Z) (digest : bytes → Z).
Abbreviation Behaviour := (NetBehaviour.Behaviour (PeerId := PeerId) (NotificationsSink := NotificationsSink)
  (B := B) (Chan := Chan) (Disc := Disc) (PeerInfo := PeerInfo)).
Abbreviation Node := (SubstrateNetwork PeerId NotificationsSink Behaviour).
Abbreviation BehaviourAction := (Behaviour.BehaviourAction PeerId NotificationsSink).
Abbreviation service_step := (step (SW := behaviour_swarm clock) digest).
Implicit Types (nd : Node) (p : PeerId) (name : ProtocolName).

Definition protocol_of (nd : Node) : Protocol.Protocol PeerId NotificationsSink := NetBehaviour.substrate (swarm nd).
Definition notif (nd : Node) : Behaviour.Notifications PeerId NotificationsSink := Protocol.behaviour (protocol_of nd).
Definition with_protocol (x : Protocol.Protocol PeerId NotificationsSink) (nd : Node) : Node :=
  with_swarm (NetBehaviour.with_substrate x (swarm nd)) nd.

(** What happens to the node. Inputs of the loop that report notification
    streams come from polling, not from elsewhere. *)
Inductive node_move :=
  | NM_Swarm (e : Protocol.FromSwarm PeerId)
  | NM_Handler (p : PeerId) (c : nat) (e : Behaviour.NotifsHandlerOut NotificationsSink)
  | NM_Poll (fuel : nat) (fired : list nat)
  | NM_Loop (i : input PeerId MA NotificationsSink).

Definition about_streams (i : input PeerId MA NotificationsSink) : bool :=
  match i with
  | In_Swarm (Sw_Behaviour (NetBehaviour.NotificationStreamOpened _ _ _ _ _))
  | In_Swarm (Sw_Behaviour (NetBehaviour.NotificationStreamReplaced _ _ _))
  | In_Swarm (Sw_Behaviour (NetBehaviour.NotificationStreamClosed _ _))
  | In_Swarm (Sw_Behaviour (NetBehaviour.NotificationsReceived _ _)) => true
  | _ => false
  end.

(** [None] when the fuel of polling runs out. *)
Definition node_step (m : node_move) (nd : Node) : outcome (option Node) :=
  match m with
  | NM_Swarm e =>
      x ← Protocol.on_swarm_event clock ban_sample e (protocol_of nd); mret (Some (with_protocol x nd))
  | NM_Handler p c e =>
      x ← Protocol.on_connection_handler_event clock ban_sample p c e (protocol_of nd);
      mret (Some (with_protocol x nd))
  | NM_Poll fuel fired =>
      r ← Protocol.poll clock delay_ready fuel fired (protocol_of nd);
      match r with
      | None => mret None
      | Some (Some (Protocol.PA_GenerateEvent ev), x) =>
          nd ← service_step (with_protocol x nd)
                 (In_Swarm (Sw_Behaviour (NetBehaviour.from_CustomMessageOutcome ev)));
          mret (Some nd)
      | Some (_, x) => mret (Some (with_protocol x nd))
      end
  | NM_Loop i => nd ← service_step nd i; mret (Some nd)
  end.

(** A connection has a new identifier. *)
Definition move_ok (m : node_move) (nd : Node) : Prop :=
  match m with
  | NM_Swarm (Protocol.FS_ConnectionEstablished p c) => ∀ k, c ∉ ids (Behaviour.peers (notif nd) !! (p, k))
  | NM_Loop i => about_streams i = false
  | _ => True
  end.

(** The states a node reaches while no entry of the behaviour is poisoned. *)
Inductive node_run (nd0 : Node) : Node → Prop :=
  | node_start : node_run nd0 nd0
  | node_next nd m nd' :
      node_run nd0 nd → move_ok m nd → node_step m nd = Done (Some nd') → healthy (notif nd') →
      node_run nd0 nd'.

(** ** The streams the interface sees *)

(** One event of the interface, for the stream of a peer and a protocol. *)
Definition stream_step (k : PeerId * ProtocolName) (open : bool) (e : SubstrateNetworkEvent PeerId) : option bool :=
  match e with
  | ProtocolOpened p name => if decide ((p, name) = k) then (if open then None else Some true) else Some open
  | ProtocolClosed p name => if decide ((p, name) = k) then (if open then Some false else None) else Some open
  | NotificationReceived p name _ => if decide ((p, name) = k) then (if open then Some true else None) else Some open
  | _ => Some open
  end.

Fixpoint stream (k : PeerId * ProtocolName) (evs : list (SubstrateNetworkEvent PeerId)) (open : bool) : option bool :=
  match evs with
  | [] => Some open
  | e :: evs => open ← stream_step k open e; stream k evs open
  end.

Lemma stream_app k evs1 evs2 b : stream k (evs1 ++ evs2) b = stream k evs1 b ≫= stream k evs2.
Proof.
  revert b. induction evs1 as [|e evs1 IH]; intros b; [done|]. simpl. destruct (stream_step k b e); simpl; [apply IH|done].
Qed.

(** ** The invariant *)

Context (ps : Peerset PeerId) (protocols : list ProtocolConfig) (n0 : Behaviour.Notifications PeerId NotificationsSink).
Context (names : list ProtocolName).
Context (Hnew : Behaviour.new ps protocols = Done n0) (Hlen : length names = length protocols) (Hnames : NoDup names).
Abbreviation nrun := (NotificationsTheorems.run clock delay_ready ban_sample n0).

(** What has been delivered of one stream: to the interface, and to the map of
    sinks. *)
Definition streams_agree (delivered : list BehaviourAction) (nd : Node) : Prop :=
  ∀ p k name, names !! k = Some name →
    stream (p, name) (queue (event_tx nd)) false = session (p, k) delivered false ∧
    (is_Some (notification_sinks nd !! (p, name)) ↔ session (p, k) delivered false = Some true).

Record node_inv (nd : Node) : Prop := {
  nv_names : Protocol.notification_protocols (protocol_of nd) = names;
  nv_pending : Protocol.pending_messages (protocol_of nd) = [];
  nv_streams : ∃ delivered, nrun delivered (notif nd) ∧ streams_agree delivered nd;
}.

Lemma delivered_session delivered n p k : nrun delivered n → ∃ b,
  session (p, k) delivered false = Some b ∧ session (p, k) (Behaviour.events n) b = Some (Behaviour.is_open p k n).
Proof.
  intros Hrun. pose proof (run_session clock delay_ready ban_sample ps protocols n0 delivered n p k Hnew Hrun) as Hs.
  rewrite session_app in Hs. destruct (session (p, k) delivered false) as [b|]; [|done]. by exists b.
Qed.

(** Calls of the behaviour that return nothing. *)
Lemma run_call o delivered n n' :
  nrun delivered n → op_ok o n → run_op clock delay_ready ban_sample o n = Done (Some ([], n')) → healthy n' →
  nrun delivered n'.
Proof.
  intros Hrun Hok Hop Hh. rewrite <- (app_nil_r delivered). by eapply run_step.
Qed.

Lemma run_peerset x delivered n : nrun delivered n →
  nrun delivered (Behaviour.with_peerset (unbounded_send x (Behaviour.peerset n)) n).
Proof.
  intros Hrun. apply (run_call (PeersetSend x) delivered n); [done|done|done|].
  destruct (run_ninv clock delay_ready ban_sample _ _ _ _ _ Hnew Hrun) as [_ Hh]. exact Hh.
Qed.

(** ** Events of streams *)

Lemma same_stream p0 k0 name0 p k name :
  names !! k0 = Some name0 → names !! k = Some name → (p0, name0) = (p, name) ↔ (p0, k0) = (p, k).
Proof.
  intros Hk0 Hk. split; intros [= -> E]; f_equal; [|congruence]. subst. by eapply NoDup_lookup.
Qed.

(** The event of the interface for an event of the behaviour. *)
Definition event_of (name : ProtocolName) (ev : Behaviour.NotificationsOut PeerId NotificationsSink) :
    list (SubstrateNetworkEvent PeerId) :=
  match ev with
  | Behaviour.CustomProtocolOpen p _ _ _ _ => [ProtocolOpened p name]
  | Behaviour.CustomProtocolReplaced _ _ _ => []
  | Behaviour.CustomProtocolClosed p _ => [ProtocolClosed p name]
  | Behaviour.Notification p _ m => [NotificationReceived p name m]
  end.
Definition sinks_after (name : ProtocolName) (ev : Behaviour.NotificationsOut PeerId NotificationsSink)
    (sinks : gmap (PeerId * ProtocolName) NotificationsSink) : gmap (PeerId * ProtocolName) NotificationsSink :=
  match ev with
  | Behaviour.CustomProtocolOpen p _ _ _ sink | Behaviour.CustomProtocolReplaced p _ sink => <[(p, name) := sink]> sinks
  | Behaviour.CustomProtocolClosed p _ => delete (p, name) sinks
  | Behaviour.Notification _ _ _ => sinks
  end.

Lemma deliver_service ev ev' nd nd' :
  Protocol.outcome_of names ev = Done ev' →
  service_step nd (In_Swarm (Sw_Behaviour (NetBehaviour.from_CustomMessageOutcome ev'))) = Done nd' →
  ∃ name, names !! (event_key ev).2 = Some name ∧
    queue (event_tx nd') = queue (event_tx nd) ++ event_of name ev ∧
    notification_sinks nd' = sinks_after name ev (notification_sinks nd) ∧ swarm nd' = swarm nd.
Proof.
  intros Hout Hstep. destruct ev as [p k fb hs sink|p k sink|p k|p k m]; simpl in Hout; unfold index in Hout;
    destruct (names !! k) as [name|] eqn:Hk; try done; injection Hout as <-; exists name; (split; [done|]);
    simpl in Hstep; unfold emit, send in Hstep; cbn [event_tx with_sinks] in Hstep;
    try destruct (receiver_alive (event_tx nd)); try done; injection Hstep as <-; simpl; rewrite ?app_nil_r; done.
Qed.

(** The service handles it as the API is meant to. *)
Lemma deliver_event delivered ev ev' nd nd' :
  streams_agree delivered nd → (∀ p k, is_Some (session (p, k) (delivered ++ [Behaviour.GenerateEvent ev]) false)) →
  Protocol.outcome_of names ev = Done ev' →
  service_step nd (In_Swarm (Sw_Behaviour (NetBehaviour.from_CustomMessageOutcome ev'))) = Done nd' →
  streams_agree (delivered ++ [Behaviour.GenerateEvent ev]) nd' ∧ swarm nd' = swarm nd.
Proof.
  intros Hag Hsome Hout Hstep. destruct (deliver_service ev ev' nd nd' Hout Hstep) as (name0 & Hk0 & Hq & Hsk & Hsw).
  split; [|done]. intros p k name Hk. destruct (Hag p k name Hk) as [Hst Hsi]. specialize (Hsome p k).
  rewrite Hq, Hsk, stream_app, Hst. rewrite session_app in *. destruct (session (p, k) delivered false) as [b|]; [|by destruct Hsome].
  pose proof (same_stream (event_key ev).1 (event_key ev).2 name0 p k name Hk0 Hk) as Hsame. simpl in *.
  destruct (decide (event_key ev = (p, k))) as [E|E].
  - assert ((event_key ev).1 = p ∧ name0 = name) as [Ep <-].
    { rewrite <- surjective_pairing in Hsame. apply Hsame in E. naive_solver. }
    destruct ev as [p' k' fb hs sink|p' k' sink|p' k'|p' k' m]; simpl in *; subst p'; rewrite ?decide_True in * by done;
      destruct b; simpl in *; try (by destruct Hsome); split; try done;
      rewrite ?lookup_insert_eq, ?lookup_delete_eq; naive_solver.
  - assert (((event_key ev).1, name0) ≠ (p, name)) as E'.
    { rewrite <- surjective_pairing in Hsame. naive_solver. }
    destruct ev as [p' k' fb hs sink|p' k' sink|p' k'|p' k' m]; simpl in *; rewrite ?decide_False by done; simpl;
      (split; [done|]); rewrite ?lookup_insert_ne, ?lookup_delete_ne by done; naive_solver.
Qed.

(** ** Everything else *)

(** Events of the interface that concern no stream. *)
Definition neutral (e : SubstrateNetworkEvent PeerId) : Prop := ∀ k b, stream_step k b e = Some b.

Lemma stream_neutral es k b : Forall neutral es → stream k es b = Some b.
Proof. induction 1 as [|e es He _ IH]; [done|]. simpl. by rewrite He. Qed.

(** The rest of the node moves; the streams stay. *)
Record framed (nd nd' : Node) : Prop := {
  fr_events : ∃ es, queue (event_tx nd') = queue (event_tx nd) ++ es ∧ Forall neutral es;
  fr_sinks : notification_sinks nd' = notification_sinks nd;
  fr_names : Protocol.notification_protocols (protocol_of nd') = Protocol.notification_protocols (protocol_of nd);
  fr_pending : Protocol.pending_messages (protocol_of nd') = Protocol.pending_messages (protocol_of nd);
  fr_notif : ∀ delivered, nrun delivered (notif nd) → healthy (notif nd') → nrun delivered (notif nd');
}.

Lemma node_inv_framed nd nd' : node_inv nd → framed nd nd' → healthy (notif nd') → node_inv nd'.
Proof.
  intros [Hn Hp (delivered & Hrun & Hag)] [(es & Hq & Hes) Hs Hn' Hp' Hf] Hh. split; [congruence|congruence|].
  exists delivered. split; [auto|]. intros p k name Hk. destruct (Hag p k name Hk) as [Hst Hsi].
  rewrite Hq, Hs, stream_app, Hst. split; [|done].
  destruct (session (p, k) delivered false); [|done]. simpl. by apply stream_neutral.
Qed.

(** Only the swarm changes, and there perhaps the behaviour. *)
Lemma framed_swarm nd nd' n' :
  event_tx nd' = event_tx nd → notification_sinks nd' = notification_sinks nd →
  protocol_of nd' = Protocol.with_behaviour n' (protocol_of nd) →
  (∀ delivered, nrun delivered (notif nd) → healthy n' → nrun delivered n') → framed nd nd'.
Proof.
  intros Ht Hs Hp Hn. split; unfold notif in *; rewrite ?Hp; [|done|done|done|exact Hn]. exists []. by rewrite Ht, app_nil_r.
Qed.

Lemma framed_refl nd nd' :
  event_tx nd' = event_tx nd → notification_sinks nd' = notification_sinks nd → protocol_of nd' = protocol_of nd →
  framed nd nd'.
Proof.
  intros Ht Hs Hp. split; unfold notif; rewrite ?Hp; try done. exists []. by rewrite Ht, app_nil_r.
Qed.

Lemma framed_emit e nd nd1 nd' :
  neutral e → emit e nd1 = Done nd' → event_tx nd1 = event_tx nd → notification_sinks nd1 = notification_sinks nd →
  protocol_of nd1 = protocol_of nd → framed nd nd'.
Proof.
  intros He Hem Ht Hs Hp. unfold emit, send in Hem. destruct (receiver_alive _); [|done]. injection Hem as <-.
  split; unfold notif, protocol_of in *; simpl; rewrite ?Hp, ?Ht; try done. exists [e]. by rewrite Forall_singleton.
Qed.

Lemma framed_call o nd nd' n' :
  event_tx nd' = event_tx nd → notification_sinks nd' = notification_sinks nd →
  protocol_of nd' = Protocol.with_behaviour n' (protocol_of nd) → op_ok o (notif nd) →
  run_op clock delay_ready ban_sample o (notif nd) = Done (Some ([], n')) → framed nd nd'.
Proof. intros Ht Hs Hp Hok Hop. apply (framed_swarm _ _ n'); try done. intros delivered Hrun Hh. by eapply run_call. Qed.

(** Reputation changes go to the peer set manager one by one. *)
Lemma framed_reports peer changes nd :
  framed nd (foldl (λ s change, with_swarm (NetBehaviour.user_report_peer peer change (swarm s)) s) nd changes).
Proof.
  assert (∀ nd', nd' = foldl (λ s change, with_swarm (NetBehaviour.user_report_peer peer change (swarm s)) s) nd changes →
    event_tx nd' = event_tx nd ∧ notification_sinks nd' = notification_sinks nd ∧
    ∃ n', protocol_of nd' = Protocol.with_behaviour n' (protocol_of nd) ∧
      ∀ delivered, nrun delivered (notif nd) → nrun delivered n') as Hall.
  2: { destruct (Hall _ eq_refl) as (Ht & Hs & n' & Hp & Hn). apply (framed_swarm _ _ n'); auto. }
  revert nd. induction changes as [|c changes IH]; intros nd nd' ->; simpl.
  { split_and!; try done. exists (notif nd). split; [|done]. unfold notif. by destruct (protocol_of nd). }
  destruct (IH (with_swarm (NetBehaviour.user_report_peer peer c (swarm nd)) nd) _ eq_refl) as (Ht & Hs & n' & Hp & Hn). split_and!; try done. exists n'. split; [by rewrite Hp|].
  intros delivered Hrun. apply Hn. by apply (run_peerset (ReportPeer peer c)).
Qed.

(** Addresses go to discovery. *)
Lemma framed_addresses peer protos addrs nd :
  framed nd (foldl (λ s addr, with_swarm
    (NetBehaviour.add_self_reported_address_to_dht peer protos addr (swarm s)) s) nd addrs).
Proof.
  apply framed_refl; revert nd; induction addrs as [|a addrs IH]; intros nd; simpl; try done; by rewrite IH.
Qed.

Lemma loop_framed i nd nd' : about_streams i = false → service_step nd i = Done nd' → framed nd nd'.
Proof.
  intros Ha Hstep.
  destruct i as [[[pr r]|]|k r|[[peer pr m|peer pr rq tx|peer id rs|peer|peer]|]|[ev|peer|peer|]]; simpl in Hstep; try done.
  - unfold take_request_id in Hstep. destruct (u64_add _ 1) as [next|]; [|done]. simpl in Hstep.
    destruct (emit _ _) as [nd1|] eqn:E; [|done]. injection Hstep as <-.
    apply (framed_emit _ nd) in E; [|done..]. by destruct E.
  - destruct (pending_responses nd !! k) as [[peer pr id [rx|]]|]; [|injection Hstep as <-; by apply framed_refl..].
    destruct r as [[response|]|]; [by apply (framed_emit _ nd) in Hstep|injection Hstep as <-; by apply framed_refl..].
  - destruct (notification_sinks nd !! (peer, pr)); injection Hstep as <-; by apply framed_refl.
  - unfold on_send_request, take_request_id in Hstep. destruct (u64_add _ 1) as [next|]; [|done]. simpl in Hstep.
    destruct (cached_responses nd !! digest rq); [by apply (framed_emit _ nd) in Hstep|].
    unfold NetBehaviour.send_request in Hstep.
    destruct (RequestResponses.send_request _ _ _ _ _ _ _) as [r|]; [|done]. injection Hstep as <-. by apply framed_refl.
  - injection Hstep as <-. unfold on_send_response. destruct (pending_requests nd !! id) as [[]|]; by apply framed_refl.
  - injection Hstep as <-. eapply (framed_call (PeersetSend (ConnectToPeer peer))); done.
  - unfold NetBehaviour.user_disconnect_peer, Protocol.disconnect_peer in Hstep.
    destruct (Behaviour.disconnect_peer _ _ _ _) as [n'|] eqn:E; [|done]. injection Hstep as <-.
    apply (framed_call (DisconnectPeer peer Protocol.HARDCODED_PEERSETS_SYNC) _ _ n'); try done.
    simpl. unfold called. unfold notif, protocol_of. by rewrite E.
  - destruct ev as [| | |peer changes| | | | |peer info|peer| |]; simpl in *; try done; try (injection Hstep as <-; by apply framed_refl).
    + injection Hstep as <-. apply framed_reports.
    + injection Hstep as <-. apply framed_addresses.
    + destruct (decide (peer ∈ discovered nd)); [injection Hstep as <-; by apply framed_refl|].
      by apply (framed_emit _ nd) in Hstep.
  - by apply (framed_emit _ nd) in Hstep.
  - unfold emit, send in Hstep. destruct (receiver_alive (event_tx nd)); [|done]. simpl in Hstep. injection Hstep as <-.
    split; try done. exists [PeerDisconnected peer; PeerDisconnected peer]. simpl. rewrite <- app_assoc.
    split; [done|]. by repeat constructor.
  - injection Hstep as <-. by apply framed_refl.
Qed.

(** ** Steps *)

Lemma delivered_some delivered n p k : nrun delivered n → is_Some (session (p, k) delivered false).
Proof. intros Hrun. destruct (delivered_session delivered n p k Hrun) as (b & -> & _). done. Qed.

(** The names the events are reported under exist. *)
Lemma poll_named delivered n fuel fired a n' :
  nrun delivered n → Behaviour.poll clock delay_ready fuel fired n = Done (Some (Some a, n')) → healthy n' →
  nrun (delivered ++ [a]) n' ∧ ∃ a', Protocol.action_of names a = Done a'.
Proof.
  intros Hrun Hpoll Hh.
  assert (nrun (delivered ++ [a]) n') as Hrun'.
  { eapply (run_step _ _ _ _ _ _ (Poll fuel fired)); [exact Hrun|done| |done]. simpl. by rewrite Hpoll. }
  split; [done|]. pose proof (run_in_range clock delay_ready ban_sample _ _ _ _ _ Hnew Hrun') as Hr.
  rewrite <- Hlen in Hr. rewrite !Forall_app, Forall_singleton in Hr. destruct Hr as [[_ Hr] _].
  destruct a as [ev|p h|p c e]; [|by eexists..]. simpl in Hr.
  destruct (lookup_lt_is_Some_2 names (event_key ev).2 Hr) as [name Hname].
  destruct ev; simpl in *; unfold index; rewrite Hname; by eexists.
Qed.

Lemma agree_unheard delivered a x nd :
  (∀ k b, session k [a] b = Some b) → streams_agree delivered nd → streams_agree (delivered ++ [a]) (with_protocol x nd).
Proof.
  intros Ha Hag p k name Hk. destruct (Hag p k name Hk) as [Hst Hsi].
  assert (session (p, k) (delivered ++ [a]) false = session (p, k) delivered false) as ->; [|done].
  rewrite session_app. destruct (session (p, k) delivered false); [apply Ha|done].
Qed.

Lemma poll_inv fuel fired nd nd' :
  node_inv nd → node_step (NM_Poll fuel fired) nd = Done (Some nd') → healthy (notif nd') → node_inv nd'.
Proof.
  intros [Hn Hp (delivered & Hrun & Hag)] Hstep Hh. simpl in Hstep. unfold Protocol.poll in Hstep. rewrite Hp, Hn in Hstep.
  change (Protocol.behaviour (protocol_of nd)) with (notif nd) in Hstep.
  destruct (Behaviour.poll clock delay_ready fuel fired (notif nd)) as [[[[a|] n]|]|] eqn:E; try done; simpl in Hstep.
  2: { injection Hstep as <-. split; [done|done|]. exists delivered. split; [|done].
       rewrite <- (app_nil_r delivered). eapply (run_step _ _ _ _ _ _ (Poll fuel fired)); [exact Hrun|done| |done].
       simpl. by rewrite E. }
  destruct a as [ev|p h|p c e]; simpl in Hstep.
  - destruct (Protocol.outcome_of names ev) as [o|] eqn:Ho; [|done]. simpl in Hstep.
    destruct (on_swarm_event _ _) as [nd1|] eqn:Hs; [|done]. injection Hstep as <-.
    set (nd0 := with_protocol (Protocol.with_behaviour n (protocol_of nd)) nd) in *.
    assert (swarm nd1 = swarm nd0) as Hsw by (by destruct (deliver_service ev o nd0 nd1 Ho Hs) as (? & _ & _ & _ & ?)).
    assert (notif nd1 = n) as Hnf by (unfold notif, protocol_of; by rewrite Hsw).
    rewrite Hnf in Hh. destruct (poll_named _ _ _ _ _ _ Hrun E Hh) as [Hrun' _].
    destruct (deliver_event delivered ev o nd0 nd1) as [Hag' _]; [done|intros; by eapply delivered_some|done|done|].
    split; [by unfold protocol_of in *; rewrite Hsw..|]. exists (delivered ++ [Behaviour.GenerateEvent ev]). by rewrite Hnf.
  - injection Hstep as <-. destruct (poll_named _ _ _ _ _ _ Hrun E Hh) as [Hrun' _]. split; [done|done|].
    eexists. split; [exact Hrun'|]. by apply agree_unheard.
  - injection Hstep as <-. destruct (poll_named _ _ _ _ _ _ Hrun E Hh) as [Hrun' _]. split; [done|done|].
    eexists. split; [exact Hrun'|]. by apply agree_unheard.
Qed.

Lemma node_step_inv m nd nd' :
  node_inv nd → move_ok m nd → node_step m nd = Done (Some nd') → healthy (notif nd') → node_inv nd'.
Proof.
  intros Hi Hok Hstep Hh. destruct m as [e|p c e|fuel fired|i]; [| |by eapply poll_inv|].
  - simpl in Hstep. unfold Protocol.on_swarm_event in Hstep.
    change (Protocol.behaviour (protocol_of nd)) with (notif nd) in Hstep.
    assert (∀ o n', run_op clock delay_ready ban_sample o (notif nd) = Done (Some ([], n')) → op_ok o (notif nd) →
      nd' = with_protocol (Protocol.with_behaviour n' (protocol_of nd)) nd → node_inv nd') as Hcall.
    { intros o n' Hop Hk ->. eapply node_inv_framed; [exact Hi| |done]. by eapply (framed_call o). }
    destruct e as [p c|p c|p|]; simpl in Hok.
    + destruct (Behaviour.on_connection_established _ _ _) as [n'|] eqn:E; [|done]. injection Hstep as <-.
      apply (Hcall (ConnectionEstablished p c) n'); [simpl; by rewrite E|done|done].
    + destruct (Behaviour.on_connection_closed _ _ _ _ _) as [n'|] eqn:E; [|done]. injection Hstep as <-.
      apply (Hcall (ConnectionClosed p c) n'); [simpl; by rewrite E|done|done].
    + destruct (Behaviour.on_dial_failure _ _ _) as [n'|] eqn:E; [|done]. injection Hstep as <-.
      apply (Hcall (DialFailure p) n'); [simpl; by rewrite E|done|done].
    + injection Hstep as <-. eapply node_inv_framed; [exact Hi| |done]. apply framed_refl; try done.
      unfold notif. simpl. by destruct (protocol_of nd).
  - simpl in Hstep. unfold Protocol.on_connection_handler_event in Hstep.
    destruct (Behaviour.on_connection_handler_event _ _ _ _ _ _) as [n'|] eqn:E; [|done]. injection Hstep as <-.
    eapply node_inv_framed; [exact Hi| |done]. apply (framed_call (HandlerEvent p c e) _ _ n'); try done.
    simpl. change (notif nd) with (Protocol.behaviour (protocol_of nd)). by rewrite E.
  - simpl in Hstep, Hok. destruct (step _ _ _) as [nd1|] eqn:E; [|done]. injection Hstep as <-.
    eapply node_inv_framed; [exact Hi|by eapply loop_framed|done].
Qed.

Lemma node_run_inv nd0 nd : node_inv nd0 → node_run nd0 nd → node_inv nd.
Proof. intros Hstart. induction 1 as [|nd m nd' _ IH Hok Hstep Hh]; [done|]. by eapply node_step_inv. Qed.
End node.

(** ** A new node *)
Section start.
Context {PeerId : Type} `{Countable PeerId, !HashOrder PeerId} {NotificationsSink : Type}.
Context {Multihash MA SecretKey Keypair : Type} `{Multiaddr PeerId Multihash MA, NodeKeys SecretKey Keypair}.
Context {B Chan Hd M HE Opts D : Type} `{RequestResponses.SubBehaviour PeerId B Chan Hd M HE Opts D}.
Context {Disc PeerInfo : Type} `{Discovery PeerId MA Disc}.
Context (clock : nat → Instant).
Abbreviation Behaviour := (NetBehaviour.Behaviour (PeerId := PeerId) (NotificationsSink := NotificationsSink)
  (B := B) (Chan := Chan) (Disc := Disc) (PeerInfo := PeerInfo)).
Abbreviation Node := (SubstrateNetwork PeerId NotificationsSink Behaviour).

(** The notification protocols of a node, in the order of their sets. *)
Definition node_protocols (handshake : option bytes) : list ProtocolConfig :=
  Protocol.notifications_config (PeerId := PeerId) (MA := MA) Roles.FULL <$>
    [build_block_announce_protocol handshake; build_transaction_protocol; build_grandpa_protocol].
Definition node_names : list ProtocolName := ["/sup/block-announces/1"; "/sup/transactions/1"; "/paritytech/grandpa/1"].
Lemma node_names_NoDup : NoDup node_names.
Proof. by apply (bool_decide_unpack _). Qed.

Definition node_requests : list RequestResponses.ProtocolConfig :=
  [build_sync_protocol; build_state_sync_protocol; build_warp_sync_protocol; build_light_protocol].

(** The sets of the peer set manager. *)
Definition node_sets : list (PeersetSetConfig PeerId) :=
  [{| cfg_in_peers := 25; cfg_out_peers := 75; cfg_bootnodes := []; cfg_reserved_nodes := ∅; cfg_reserved_only := false |};
   {| cfg_in_peers := 400; cfg_out_peers := 400; cfg_bootnodes := []; cfg_reserved_nodes := ∅; cfg_reserved_only := false |};
   {| cfg_in_peers := 400; cfg_out_peers := 400; cfg_bootnodes := []; cfg_reserved_nodes := ∅; cfg_reserved_only := false |}].

(** What [new] comes to. *)
Lemma new_eq handshake generated fs (peer_info : PeerInfo) (make_discovery : list (PeerId * MA) → Z → Disc) tx (a6 a4 : MA) :
  ma_parse "/ip6/::0/tcp/0" = Ok a6 → ma_parse "/ip4/0.0.0.0/tcp/0" = Ok a4 →
  Service.new (Keypair := Keypair) (B := B) (Chan := Chan) clock handshake generated fs peer_info make_discovery tx =
    ps ← from_config clock node_sets;
    n ← Behaviour.new ps (node_protocols handshake);
    b ← unwrap (NetBehaviour.new (NotificationsSink := NotificationsSink) (Protocol.mkProtocol [] n node_names) peer_info
                  (make_discovery [] 90) node_requests);
    mret (Ok (keypair_of generated, start b tx, 16777226), fs).
Proof.
  intros E6 E4. unfold Service.new, network_config. rewrite E6, E4. simpl. unfold Protocol.new.
  change (Protocol.peerset_config _) with node_sets.
  destruct (from_config clock node_sets) as [ps|]; [|done]. reflexivity.
Qed.

(** The parts of a new node are new themselves. *)
Record new_node (handshake : option bytes) (tx : channel (SubstrateNetworkEvent PeerId)) (nd : Node) : Prop := {
  nn_peerset : from_config clock node_sets = Done (Behaviour.peerset (notif nd));
  nn_notifications : Behaviour.new (Behaviour.peerset (notif nd)) (node_protocols handshake) = Done (notif nd);
  nn_requests : RequestResponses.new node_requests = Ok (NetBehaviour.request_responses (swarm nd));
  nn_protocol : protocol_of nd = Protocol.mkProtocol [] (notif nd) node_names;
  nn_events : event_tx nd = tx;
  nn_sinks : notification_sinks nd = ∅;
}.

Lemma new_inv handshake generated fs (peer_info : PeerInfo) (make_discovery : list (PeerId * MA) → Z → Disc) tx kp nd y fs' :
  Service.new (Keypair := Keypair) clock handshake generated fs peer_info make_discovery tx = Done (Ok (kp, nd, y), fs') →
  new_node handshake tx nd ∧ kp = keypair_of generated ∧ y = 16777226 ∧ fs' = fs.
Proof.
  intros E. destruct (ma_parse "/ip6/::0/tcp/0") as [a6|] eqn:E6; [|unfold Service.new, network_config in E; by rewrite E6 in E].
  destruct (ma_parse "/ip4/0.0.0.0/tcp/0") as [a4|] eqn:E4; [|unfold Service.new, network_config in E; by rewrite E6, E4 in E].
  rewrite (new_eq _ _ _ _ _ _ a6 a4 E6 E4) in E. destruct (from_config clock node_sets) as [ps|] eqn:Eps; [|done]. simpl in E.
  unfold NetBehaviour.new in E. destruct (RequestResponses.new node_requests) as [r|] eqn:Er; [|done]. simpl in E.
  injection E as <- <- <- <-. by split.
Qed.

(** The requests of a node are registered under different names. *)
Lemma requests_registered :
  ∃ r : RequestResponses.Behaviour (PeerId := PeerId) (B := B) (Chan := Chan),
    RequestResponses.new node_requests = Ok r ∧
    ∀ c, c ∈ node_requests → RequestResponses.protocols r !! RequestResponses.rc_name c =
      Some (RequestResponses.sub_of_config c, true).
Proof.
  eexists. split; [reflexivity|]. intros c Hc. simpl.
  repeat (apply elem_of_cons in Hc as [->|Hc]; [reflexivity|]). by apply elem_of_nil in Hc.
Qed.
End start.

(** The network starts. If time does not run backwards and the two listen
    addresses of the source parse, [new] returns the network, without touching
    the file system, and its parts are as configured: the peer set manager has a
    set for each of the three notification protocols, which are registered and
    reported under the same distinct names; the four request protocols are
    registered, none twice; nothing is reported yet; and the buffers of the
    transport hold any request, response or notification. The loop then handles
    any inputs without a panic, its calls being all that happens to the
    behaviour in between. *)
Theorem network_starts {PeerId : Type} `{Countable PeerId, !HashOrder PeerId} {NotificationsSink : Type}
    {Multihash MA SecretKey Keypair : Type} `{Multiaddr PeerId Multihash MA, NodeKeys SecretKey Keypair}
    {B Chan Hd M HE Opts D : Type} `{RequestResponses.SubBehaviour PeerId B Chan Hd M HE Opts D}
    {Disc PeerInfo : Type} `{Discovery PeerId MA Disc} (clock : nat → Instant)
    `{!SubBehaviourLaws PeerId B Chan Hd M HE Opts D}
    (clock_mono : ∀ m n, (m ≤ n)%nat → clock m ≤ clock n) (a6 a4 : MA)
    (parse_ip6 : ma_parse "/ip6/::0/tcp/0" = Ok a6) (parse_ip4 : ma_parse "/ip4/0.0.0.0/tcp/0" = Ok a4)
    (handshake : option bytes) (generated : SecretKey) (fs : Config.FileSystem) (peer_info : PeerInfo)
    (make_discovery : list (PeerId * MA) → Z → Disc) (tx : channel (SubstrateNetworkEvent PeerId)) :
  ∃ (nd : SubstrateNetwork PeerId NotificationsSink (NetBehaviour.Behaviour (B := B) (Chan := Chan))) y,
    Service.new clock handshake generated fs peer_info make_discovery tx =
      Done (Ok (keypair_of (Keypair := Keypair) generated, nd, y), fs) ∧
    length (reserved_nodes (Behaviour.peerset (notif nd))) = length node_names ∧
    pc_name <$> Behaviour.notif_protocols (notif nd) = node_names ∧
    Protocol.notification_protocols (protocol_of nd) = node_names ∧ NoDup node_names ∧
    (∀ c, c ∈ node_requests → RequestResponses.protocols (NetBehaviour.request_responses (swarm nd)) !!
       RequestResponses.rc_name c = Some (RequestResponses.sub_of_config c, true)) ∧
    NoDup (RequestResponses.rc_name <$> node_requests) ∧
    event_tx nd = tx ∧ Behaviour.events (notif nd) = [] ∧ notification_sinks nd = ∅ ∧
    Forall (λ c, RequestResponses.rc_max_request_size c < y ∧ RequestResponses.rc_max_response_size c < y) node_requests ∧
    Forall (λ c, pc_max_notification_size c < y) (Behaviour.notif_protocols (notif nd)) ∧ y ≤ usize_max ∧
    ∀ digest random (inputs : list (input PeerId MA NotificationsSink)),
      receiver_alive tx = true → queue tx = [] → Forall fed inputs → Z.of_nat (length inputs) ≤ u64_max →
      ∃ s, Service.run (SW := behaviour_swarm clock) digest random inputs nd = Done s.
Proof.
  pose proof (from_config_spec clock ∅ clock_mono ltac:(rewrite size_empty; done) node_sets) as Hps.
  destruct requests_registered as (r & Er & Hr).
  apply runs_Done in Hps as (ps & Eps & a & Hpi & Hpl & Hrn & _).
  2: { repeat (apply Forall_cons; split); try done; (split; [done|split; [done|]]); intros p Hp; by apply elem_of_nil in Hp. }
  eexists _, _. split.
  { rewrite (new_eq clock handshake generated fs peer_info make_discovery tx a6 a4 parse_ip6 parse_ip4), Eps. simpl.
    unfold NetBehaviour.new. rewrite Er. reflexivity. }
  cbn [swarm start]. split_and!; try done; [|apply node_names_NoDup|by apply (bool_decide_unpack _)|by repeat constructor..|].
  { change (length (reserved_nodes ps) = length node_names). by rewrite Hrn. }
  intros digest random inputs Ha Hq Hf Hu.
  eapply (loop_runs clock clock_mono ∅ (λ _, 0)); [|done..]. split; simpl.
  - exists []. by destruct (new_ok (λ _, 0) _ _ Er) as (? & ? & _).
  - exists a. split; [done|]. rewrite Hpl. simpl. unfold Protocol.HARDCODED_PEERSETS_SYNC. lia.
Qed.

(** A run of a new node keeps the invariant. *)
Section reached.
Context {PeerId : Type} `{Countable PeerId, !HashOrder PeerId} {NotificationsSink : Type}.
Context {Multihash MA SecretKey Keypair : Type} `{Multiaddr PeerId Multihash MA, NodeKeys SecretKey Keypair}.
Context {B Chan Hd M HE Opts D : Type} `{RequestResponses.SubBehaviour PeerId B Chan Hd M HE Opts D}.
Context {Disc PeerInfo : Type} `{Discovery PeerId MA Disc}.
Context (clock : nat → Instant) (delay_ready : Instant → Instant → bool) (ban_sample : nat → Z) (digest : bytes → Z).
Context (handshake : option bytes) (generated : SecretKey) (fs : Config.FileSystem) (peer_info : PeerInfo).
Context (make_discovery : list (PeerId * MA) → Z → Disc) (tx : channel (SubstrateNetworkEvent PeerId)).
Context (kp : Keypair) (y : Z) (fs' : Config.FileSystem).
Context (nd0 nd : SubstrateNetwork PeerId NotificationsSink (NetBehaviour.Behaviour (PeerId := PeerId)
  (NotificationsSink := NotificationsSink) (B := B) (Chan := Chan) (Disc := Disc) (PeerInfo := PeerInfo))).
Context (Hnew : Service.new clock handshake generated fs peer_info make_discovery tx = Done (Ok (kp, nd0, y), fs')).
Context (Htx : queue tx = []) (Hrun : node_run clock delay_ready ban_sample digest nd0 nd).

Lemma reached_inv : node_inv clock delay_ready ban_sample (notif nd0) node_names nd.
Proof.
  destruct (new_inv clock _ _ _ _ _ _ _ _ _ _ Hnew) as ([_ Hn Hr Hp He Hs] & _).
  eapply (node_run_inv clock delay_ready ban_sample digest); [exact Hn|done|apply node_names_NoDup| |exact Hrun].
  split; [by rewrite Hp..|]. exists []. split; [apply run_start|].
  intros p k name _. rewrite He, Htx, Hs, lookup_empty. split; [done|]. simpl. split; [by intros []|done].
Qed.

Lemma reached_streams p k name : node_names !! k = Some name → ∃ b,
  stream (p, name) (queue (event_tx nd)) false = Some b ∧
  (is_Some (notification_sinks nd !! (p, name)) ↔ b = true) ∧
  session (p, k) (Behaviour.events (notif nd)) b = Some (Behaviour.is_open p k (notif nd)).
Proof.
  destruct (new_inv clock _ _ _ _ _ _ _ _ _ _ Hnew) as ([_ Hn _ _ _ _] & _).
  destruct reached_inv as [_ _ (delivered & Hdr & Hag)]. intros Hk. destruct (Hag p k name Hk) as [Hst Hsi].
  destruct (delivered_session clock delay_ready ban_sample _ _ _ Hn delivered (notif nd) p k Hdr) as (b & Hb & Hss).
  exists b. rewrite Hst, Hb in *. split_and!; [done|rewrite Hsi; naive_solver|done].
Qed.

(** C28: The streams of the node, from the peers to the interface. However the
    swarm drives a new network (connections, events of handlers, polling,
    commands of the interface, other events) while no entry of the notifications
    behaviour is poisoned: the interface sees the streams of every peer and
    protocol as well-formed sessions; the service holds a sink exactly for those
    the interface sees as open; and what the behaviour has still to report takes
    that view to the behaviour's own. Every event the behaviour reports has the
    name of a protocol. *)
Theorem node_streams_consistent :
  (∀ p k name, node_names !! k = Some name → ∃ b,
     stream (p, name) (queue (event_tx nd)) false = Some b ∧
     (is_Some (notification_sinks nd !! (p, name)) ↔ b = true) ∧
     session (p, k) (Behaviour.events (notif nd)) b = Some (Behaviour.is_open p k (notif nd))) ∧
  (∀ fuel fired a n', Behaviour.poll clock delay_ready fuel fired (notif nd) = Done (Some (Some a, n')) → healthy n' →
     ∃ r, Protocol.poll clock delay_ready fuel fired (protocol_of nd) = Done (Some r)).
Proof.
  split; [apply reached_streams|]. intros fuel fired a n' Ha Hh.
  destruct (new_inv clock _ _ _ _ _ _ _ _ _ _ Hnew) as ([_ Hn _ _ _ _] & _).
  destruct reached_inv as [Hnm Hpm (delivered & Hdr & _)].
  destruct (poll_named clock delay_ready ban_sample _ _ _ node_names Hn eq_refl delivered _ _ _ _ _ Hdr Ha Hh)
    as [_ [a' Ea]].
  unfold Protocol.poll. rewrite Hpm, Hnm. unfold notif in Ha. rewrite Ha. simpl. rewrite Ea. by eexists.
Qed.
End reached.

(** ** Examples *)
Section examples.
#[local] Existing Instance canonical_order.
#[local] Existing Instances RequestResponsesTheorems.scripted_sub_behaviour RequestResponsesTheorems.scripted_sub_laws.

(** Any string is an address, and an address says nothing about peers. *)
#[local] Instance opaque_addr : Multiaddr nat nat string := {|
  ma_parse s := Ok s;
  ma_display a := a;
  ma_collect _ := "local"%string;
  ma_pop a := (None, a);
  ma_with a _ := a;
  ma_is_empty a := bool_decide (a = EmptyString);
  from_multihash k := Some k;
  to_multihash p := p;
|}.

(** Keys are numbers. *)
#[local] Instance numbered_keys : NodeKeys nat nat := {|
  sk_from_bytes b := Some (length b);
  sk_as_ref k := replicate k Byte.x00;
  keypair_of k := k;
  hex2bytes _ := None;
  from_utf8 _ := None;
|}.

(** Discovery that only remembers addresses. *)
#[local] Instance address_book : Discovery nat string (list (nat * string)) := {|
  di_known_peers d := fst <$> d;
  di_add_known_address p a d := d ++ [(p, a)];
  di_add_self_reported_address p _ a d := d ++ [(p, a)];
  di_get_value _ d := d;
  di_put_value _ _ d := d;
  di_num_entries_per_kbucket _ := None;
  di_num_kademlia_records _ := None;
  di_kademlia_records_total_size _ := None;
|}.

Abbreviation DemoBehaviour := (NetBehaviour.Behaviour (PeerId := nat) (NotificationsSink := nat)
  (B := RequestResponsesTheorems.scripted_sub) (Chan := nat) (Disc := list (nat * string)) (PeerInfo := unit)).
Abbreviation DemoNode := (SubstrateNetwork nat nat DemoBehaviour).
Abbreviation demo_move := (node_move (PeerId := nat) (NotificationsSink := nat) (MA := string)).
Abbreviation demo_step := (node_step demo_clock demo_ready demo_ban (λ b, Z.of_nat (length b))
  (PeerId := nat) (NotificationsSink := nat) (B := RequestResponsesTheorems.scripted_sub) (Chan := nat)).

Definition demo_service : outcome (result (nat * DemoNode * Z) io_error * Config.FileSystem) :=
  Service.new demo_clock None 42%nat (Config.mkFileSystem ∅ ∅ []) tt (λ l _, l) new_channel.

Definition demo_move_ok (m : demo_move) (nd : DemoNode) : bool :=
  match m with
  | NM_Swarm (Protocol.FS_ConnectionEstablished p c) => fresh_b p c (notif nd)
  | NM_Loop i => negb (about_streams i)
  | _ => true
  end.

Fixpoint demo_moves (ms : list demo_move) (nd : DemoNode) : option DemoNode :=
  match ms with
  | [] => Some nd
  | m :: ms =>
      match demo_step m nd with
      | Done (Some nd') =>
          if demo_move_ok m nd && healthy_b (notif nd') then demo_moves ms nd' else None
      | _ => None
      end
  end.

Lemma demo_moves_run ms nd0 nd nd' :
  node_run demo_clock demo_ready demo_ban (λ b, Z.of_nat (length b)) nd0 nd → demo_moves ms nd = Some nd' →
  node_run demo_clock demo_ready demo_ban (λ b, Z.of_nat (length b)) nd0 nd'.
Proof.
  revert nd. induction ms as [|m ms IH]; intros nd Hrun Hms; simpl in Hms; [by injection Hms as <-|].
  destruct (demo_step m nd) as [[nd1|]|] eqn:E; try done.
  destruct (demo_move_ok m nd && healthy_b (notif nd1)) eqn:Hb; [|done]. apply andb_prop in Hb as [Hok Hh%healthy_b_sound].
  eapply IH; [|exact Hms]. eapply node_next; [exact Hrun| |exact E|exact Hh].
  destruct m as [[p c|p c|p|]|p c e|fuel fired|i]; try done.
  - exact (op_ok_b_sound (ConnectionEstablished p c) _ Hok).
  - by apply negb_true_iff in Hok.
Qed.

(** Peer 2 connects and opens a stream of set 1, transactions. *)
Definition stream_opens : list demo_move :=
  [NM_Swarm (Protocol.FS_ConnectionEstablished 2%nat 0);
   NM_Handler 2%nat 0 (Behaviour.Out_OpenDesiredByRemote 1);
   NM_Poll 5 []; NM_Poll 5 [];
   NM_Loop (In_Swarm (Sw_ConnectionEstablished 2%nat));
   NM_Handler 2%nat 0 (Behaviour.Out_OpenResultOk 1 None [] 20%nat);
   NM_Poll 5 []].

Lemma network_starts_witness :
  ∃ (nd : DemoNode) y, demo_service = Done (Ok (42%nat, nd, y), Config.mkFileSystem ∅ ∅ []) ∧
    pc_name <$> Behaviour.notif_protocols (notif nd) = node_names ∧ event_tx nd = new_channel ∧
    ∃ s, Service.run (SW := behaviour_swarm demo_clock) (λ b, Z.of_nat (length b)) 0%nat
      [In_Command (Some (Connect 2%nat)); In_Command (Some (SendRequest 2%nat "/sup/sync/2"%string [] 9%nat));
       In_Command (Some (Disconnect 2%nat))] nd = Done s.
Proof.
  destruct (network_starts (PeerId := nat) (NotificationsSink := nat) (Multihash := nat) (MA := string)
              (SecretKey := nat) (Keypair := nat) (H0 := opaque_addr) (B := RequestResponsesTheorems.scripted_sub) demo_clock
              ltac:(intros; unfold demo_clock, from_secs; lia) "/ip6/::0/tcp/0"%string "/ip4/0.0.0.0/tcp/0"%string
              eq_refl eq_refl None 42%nat (Config.mkFileSystem ∅ ∅ []) tt (λ l _, l) new_channel)
    as (nd & y & E & _ & Hn & _ & _ & _ & _ & He & _ & _ & _ & _ & _ & Hrun).
  exists nd, y. split; [exact E|]. split; [exact Hn|]. split; [exact He|].
  apply Hrun; [done|done|by repeat constructor|done].
Defined.

Definition demo_stream_opens : bool :=
  match demo_service with
  | Done (Ok (kp, nd0, y), fs) =>
      match demo_moves stream_opens nd0 with
      | Some nd => bool_decide (kp = 42%nat ∧
          stream (2%nat, "/sup/transactions/1"%string) (queue (event_tx nd)) false = Some true)
      | None => false
      end
  | _ => false
  end.

Lemma demo_stream_opens_true : demo_stream_opens = true.
Proof. vm_compute. reflexivity. Qed.

Lemma node_streams_consistent_witness :
  ∃ (nd0 nd : DemoNode) y fs, demo_service = Done (Ok (42%nat, nd0, y), fs) ∧ demo_moves stream_opens nd0 = Some nd ∧
    stream (2%nat, "/sup/transactions/1"%string) (queue (event_tx nd)) false = Some true ∧
    is_Some (notification_sinks nd !! (2%nat, "/sup/transactions/1"%string)).
Proof.
  pose proof demo_stream_opens_true as Hdemo. unfold demo_stream_opens in Hdemo.
  destruct demo_service as [[[[[kp nd0] y]|] fs]|] eqn:E; try discriminate Hdemo.
  destruct (demo_moves stream_opens nd0) as [nd|] eqn:Em; [|discriminate Hdemo].
  apply bool_decide_eq_true in Hdemo as [-> Ht]. exists nd0, nd, y, fs. split; [done|]. split; [done|]. split; [done|].
  destruct (node_streams_consistent demo_clock demo_ready demo_ban (λ b, Z.of_nat (length b)) None 42%nat
              (Config.mkFileSystem ∅ ∅ []) tt (λ l _, l) new_channel 42%nat y fs nd0 nd E eq_refl
              (demo_moves_run stream_opens nd0 nd0 nd (node_start _ _ _ _ _) Em)) as [Hs _].
  destruct (Hs 2%nat 1%nat "/sup/transactions/1"%string eq_refl) as (b & Hb & Hsink & _).
  apply Hsink. rewrite Hb in Ht. by injection Ht.
Defined.
End examples.
