(* ===== verification/Substrate.v ===== *)
(** * The substrate backend

    Model of [backend/substrate/mod.rs]: the backend gives numbers to its
    interfaces and starts a network for each; a task relays the events of the
    network to the overseer; packet sinks and the handle of the interface send
    commands to the network, or actions to its peer set manager.

    The command channel of an interface is shared by its handle and its sinks,
    so the operations take its state and return it. *)

From S2P Require Import Prelude PeersState Peerset Notifications Wire RequestResponses Config Protocol NetBehaviour Backend Service.

Module Substrate.
Section substrate.
Context {Peer : Type} `{Countable Peer}.
(** [DefaultHasher]. *)
Context (digest : bytes → Z).

(** ** Messages *)
Record SubstrateRequest := mkSubstrateRequest { sq_id : Z; sq_payload : bytes }.
Record SubstrateResponse := mkSubstrateResponse { sp_id : Z; sp_payload : bytes }.

Record SubstrateParameters := mkSubstrateParameters { sp_genesis_hash : bytes }.
Record InterfaceParameters := mkInterfaceParameters { ip_handshake : bytes }.

(** The channels of the handle are those of its interface. *)
Record InterfaceHandle := mkInterfaceHandle { ih_interface_id : Z; ih_peer_id : Peer }.

Definition payload_hash (payload : bytes) : Z := digest payload.
Definition payload_size (payload : bytes) : Z := blen payload.

(** The types of the backend. *)
#[export] Instance substrate_network : NetworkBackend := {|
  Backend.PeerId := Peer; InterfaceId := Z; RequestId := Z; Backend.Protocol := ProtocolName;
  Message := bytes; Request := SubstrateRequest; Response := SubstrateResponse;
  Backend.InterfaceHandle := InterfaceHandle; NetworkParameters := SubstrateParameters;
  Backend.InterfaceParameters := InterfaceParameters;
  message_hash := payload_hash; message_size := payload_size;
  request_hash r := payload_hash (sq_payload r); request_size r := payload_size (sq_payload r);
  response_hash r := payload_hash (sp_payload r); response_size r := payload_size (sp_payload r);
  request_id := sq_id;
|}.

(** ** [SubstratePacketSink] *)
Record SubstratePacketSink := mkSubstratePacketSink { ps_peer : Peer }.

(** A sink of an interface that lives answers every call. *)
#[export] Instance substrate_sink : PacketSink := {| sink := SubstratePacketSink; sink_answer _ _ _ := Ok tt |}.

Abbreviation Commands := (channel (Service.Command Peer)).

Definition send_packet (s : SubstratePacketSink) (protocol : option ProtocolName) (message : bytes) (tx : Commands) :
    outcome (result unit Error * Commands) :=
  protocol ← expect protocol;
  tx ← send (Service.SendNotification (ps_peer s) protocol message) tx;
  mret (Ok tt, tx).

(** [answer] is what arrives on the channel of the command, numbered [reply]:
    the number of the request, or nothing if the network drops it. *)
Definition send_request (s : SubstratePacketSink) (protocol : ProtocolName) (payload : bytes) (reply : nat)
    (answer : option Z) (tx : Commands) : outcome (result Z Error * Commands) :=
  tx ← send (Service.SendRequest (ps_peer s) protocol payload reply) tx;
  request_id ← expect answer;
  mret (Ok request_id, tx).

Definition send_response (s : SubstratePacketSink) (request_id : Z) (payload : bytes) (tx : Commands) :
    outcome (result unit Error * Commands) :=
  tx ← send (Service.SendResponse (ps_peer s) request_id payload) tx;
  mret (Ok tt, tx).

(** ** Events of an interface *)
Definition relay (interface_id : Z) (event : Service.SubstrateNetworkEvent Peer) : InterfaceEvent :=
  match event with
  | Service.PeerConnected peer => PeerConnected interface_id peer [] (mkSubstratePacketSink peer)
  | Service.PeerDisconnected peer => PeerDisconnected interface_id peer
  | Service.ProtocolOpened peer protocol =>
      ConnectionUpgraded interface_id peer (UpProtocolOpened {[protocol : Backend.Protocol]})
  | Service.ProtocolClosed peer protocol =>
      ConnectionUpgraded interface_id peer (UpProtocolClosed {[protocol : Backend.Protocol]})
  | Service.NotificationReceived peer protocol notification =>
      MessageReceived interface_id peer protocol notification
  | Service.RequestReceived peer protocol request_id request =>
      RequestReceived interface_id peer protocol (mkSubstrateRequest request_id request)
  | Service.ResponseReceived peer protocol request_id response =>
      ResponseReceived interface_id peer protocol request_id (mkSubstrateResponse request_id response)
  | Service.PeerDiscovered peer => PeerDiscovered peer
  end.

(** One iteration of the relaying task; [None] is the end of the stream. *)
Definition relay_event (interface_id : Z) (event : option (Service.SubstrateNetworkEvent Peer))
    (tx : channel InterfaceEvent) : outcome (channel InterfaceEvent) :=
  event ← expect event;
  send (relay interface_id event) tx.

(** ** [InterfaceHandle] *)
Definition connect (peer : Peer) (ps : Peerset Peer) : result unit Error * Peerset Peer :=
  (Ok tt, handle_connect_to_peer peer ps).

Definition disconnect (peer : Peer) (tx : Commands) : outcome (result unit Error * Commands) :=
  tx ← send (Service.Disconnect peer) tx; mret (Ok tt, tx).

(** ** [SubstrateBackend] *)
Record SubstrateBackend := mkSubstrateBackend { next_iface_id : Z; genesis_hash : bytes }.

Definition new (parameters : SubstrateParameters) : SubstrateBackend :=
  mkSubstrateBackend 0 (sp_genesis_hash parameters).

Definition next_interface_id (b : SubstrateBackend) : outcome (Z * SubstrateBackend) :=
  let iface_id := next_iface_id b in
  next ← u64_add iface_id 1;
  mret (iface_id, mkSubstrateBackend next (genesis_hash b)).

(** ** Starting an interface *)

(** The state of an interface: its network, its command channel, of which the
    network has read [in_read], and the stream of its events, into which
    [in_relayed] of the events of the network have been relayed. *)
Record Interface {Network : Type} := mkInterface {
  in_id : Z;
  in_network : Network;
  in_commands : Commands;
  in_read : nat;
  in_events : channel InterfaceEvent;
  in_relayed : nat;
}.
End substrate.

Arguments SubstratePacketSink : clear implicits.
Arguments InterfaceHandle : clear implicits.
Arguments Interface {Peer _ _} digest Network.
Arguments mkInterface {Peer _ _ digest Network}.
Arguments in_id {Peer _ _ digest Network}.
Arguments in_network {Peer _ _ digest Network}.
Arguments in_commands {Peer _ _ digest Network}.
Arguments in_read {Peer _ _ digest Network}.
Arguments in_events {Peer _ _ digest Network}.
Arguments in_relayed {Peer _ _ digest Network}.

Section interfaces.
Context {PeerId : Type} `{Countable PeerId, !HashOrder PeerId} {NotificationsSink : Type}.
Context {Multihash MA SecretKey Keypair : Type} `{Multiaddr PeerId Multihash MA, NodeKeys SecretKey Keypair}.
Context {B Chan Hd M HE Opts D : Type} `{RequestResponses.SubBehaviour PeerId B Chan Hd M HE Opts D}.
Context {Disc PeerInfo : Type} `{Discovery PeerId MA Disc}.
Context (digest : bytes → Z) (clock : nat → Instant).
(** [public().to_peer_id()]. *)
Context (to_peer_id : Keypair → PeerId).
Abbreviation Behaviour := (NetBehaviour.Behaviour (PeerId := PeerId) (NotificationsSink := NotificationsSink)
  (B := B) (Chan := Chan) (Disc := Disc) (PeerInfo := PeerInfo)).
Abbreviation Node := (Service.SubstrateNetwork PeerId NotificationsSink Behaviour).
Abbreviation Interface := (Interface (Peer := PeerId) digest Node).

(** [InterfaceHandle::new]: the handle and the interface. Discovery is built
    from the genesis hash too. *)
Definition InterfaceHandle_new (interface_id : Z) (genesis_hash : bytes) (parameters : option InterfaceParameters)
    (generated : SecretKey) (fs : Config.FileSystem) (peer_info : PeerInfo)
    (make_discovery : bytes → list (PeerId * MA) → Z → Disc) :
    outcome (result (InterfaceHandle PeerId * Interface) Error * Config.FileSystem) :=
  '(r, fs) ← Service.new clock (ip_handshake <$> parameters) generated fs peer_info
               (make_discovery genesis_hash) new_channel;
  match r with
  | Ok (keypair, network, _) =>
      mret (Ok (mkInterfaceHandle interface_id (to_peer_id keypair),
                mkInterface interface_id network new_channel 0 new_channel 0), fs)
  | Err _ => mret (Err (Substrate "io error"), fs)
  end.

Definition spawn_interface (b : SubstrateBackend) (parameters : option InterfaceParameters)
    (generated : SecretKey) (fs : Config.FileSystem) (peer_info : PeerInfo)
    (make_discovery : bytes → list (PeerId * MA) → Z → Disc) :
    outcome (SubstrateBackend * result (InterfaceHandle PeerId * Interface) Error * Config.FileSystem) :=
  '(iface_id, b) ← next_interface_id b;
  '(r, fs) ← InterfaceHandle_new iface_id (genesis_hash b) parameters generated fs peer_info make_discovery;
  mret (b, r, fs).
End interfaces.
End Substrate.
