(* ===== verification/SubstratePython.v ===== *)
(** * Python objects of the substrate backend

    The conversions of [backend/substrate/mod.rs] between the types of the
    backend and Python objects, as an instance of [ExecutorObjects], with the
    proof that they undo each other: what the Python executor guarantees of the
    events of a filter holds for this backend.

    The base-58 text of a peer identity and [try_from_multiaddr] are those of
    libp2p, an interface. *)

From S2P Require Import Prelude PeersState Peerset Notifications Wire RequestResponses Config Protocol NetBehaviour Backend Python PyExecutor PyExecutorTheorems Service Substrate.

Class PeerText (PeerId MA : Type) := {
  to_base58 : PeerId → string;
  try_from_multiaddr : MA → option PeerId;
}.
(** The address of a peer by its text parses to an address of that peer. *)
Class PeerTextLaws (PeerId Multihash MA : Type) `{!Multiaddr PeerId Multihash MA, !PeerText PeerId MA} :=
  parse_base58 p : ∃ a, ma_parse ("/p2p/" +:+ to_base58 p) = Ok a ∧ try_from_multiaddr a = Some p.

Section objects.
Context {Peer : Type} `{Countable Peer} {Multihash MA : Type}.
Context `{!Multiaddr Peer Multihash MA, !PeerText Peer MA} {Obj : Type} `{!PyObjects Obj}.
Context (digest : bytes → Z).

Definition protocol_from_object (o : Obj) : outcome ProtocolName := expect (py_as_str o).
Definition protocol_into_object (p : ProtocolName) : Obj := py_str p.

Definition request_into_object (r : Substrate.SubstrateRequest) : Obj :=
  let fields := py_dict [("id"%string, py_int (Substrate.sq_id r));
                         ("payload"%string, py_vec_u8 (byte_val <$> Substrate.sq_payload r))] in
  py_dict [("Request"%string, fields)].
Definition response_into_object (r : Substrate.SubstrateResponse) : Obj :=
  let fields := py_dict [("id"%string, py_int (Substrate.sp_id r));
                         ("payload"%string, py_vec_u8 (byte_val <$> Substrate.sp_payload r))] in
  py_dict [("Response"%string, fields)].

Definition peer_into_object (p : Peer) : Obj := py_str (to_base58 p).
Definition peer_from_object (o : Obj) : outcome Peer :=
  text ← expect (py_as_str o);
  multiaddr ← match ma_parse ("/p2p/" +:+ text) with Ok a => Done a | Err _ => Panicked ExpectFailed end;
  expect (try_from_multiaddr multiaddr).

(** [Vec<u8>]. *)
Definition vec_bytes (l : list Z) : bytes := byte_of <$> l.

Definition message_into_object (m : bytes) : Obj := py_vec_u8 (byte_val <$> m).
Definition message_from_object (o : Obj) : outcome bytes := l ← expect (py_as_vec_u8 o); mret (vec_bytes l).
Definition request_id_from_object (o : Obj) : outcome Z := expect (py_as_u64 o).

Definition parameters_into_object (p : Substrate.SubstrateParameters) : Obj :=
  py_dict [("genesis_hash"%string, py_vec_u8 (byte_val <$> Substrate.sp_genesis_hash p))].
Definition interface_parameters_from_object (o : Obj) : outcome Substrate.InterfaceParameters :=
  handshake ← expect (py_as_vec_u8 o); mret (Substrate.mkInterfaceParameters (vec_bytes handshake)).

#[local] Instance network : NetworkBackend := Substrate.substrate_network (Peer := Peer) digest.

#[export] Instance substrate_objects : ExecutorObjects (H := network) Obj := {|
  PyExecutor.peer_into_object := peer_into_object : @Backend.PeerId network → Obj;
  PyExecutor.message_into_object := message_into_object : @Backend.Message network → Obj;
  PyExecutor.request_into_object := request_into_object : @Backend.Request network → Obj;
  PyExecutor.response_into_object := response_into_object : @Backend.Response network → Obj;
  PyExecutor.protocol_into_object := protocol_into_object : @Backend.Protocol network → Obj;
  PyExecutor.parameters_into_object := parameters_into_object : @Backend.NetworkParameters network → Obj;
  PyExecutor.peer_from_object := peer_from_object : Obj → outcome (@Backend.PeerId network);
  PyExecutor.message_from_object := message_from_object : Obj → outcome (@Backend.Message network);
  PyExecutor.protocol_from_object := protocol_from_object : Obj → outcome (@Backend.Protocol network);
  PyExecutor.interface_parameters_from_object := interface_parameters_from_object;
|}.

Lemma byte_of_val b : byte_of (byte_val b) = b.
Proof. unfold byte_of, byte_val. rewrite N2Z.id. by rewrite Byte.of_to_N. Qed.

Lemma bytes_of_vals (l : bytes) : vec_bytes (byte_val <$> l) = l.
Proof. unfold vec_bytes. rewrite <-list_fmap_compose. rewrite <-(list_fmap_id l) at 2. apply list_fmap_ext. intros i b _. apply byte_of_val. Qed.

Lemma peer_objects `{!PyObjectsLaws Obj, !PeerTextLaws Peer Multihash MA} (p : Peer) :
  peer_from_object (peer_into_object p) = Done p.
Proof.
  unfold peer_from_object, peer_into_object. rewrite as_str_str. cbn [expect mbind outcome_bind].
  destruct (parse_base58 p) as (a & E & Ha). rewrite E. cbn [mbind outcome_bind]. by rewrite Ha.
Qed.

(** What is converted to an object is found in it. *)
#[export] Instance substrate_objects_laws `{!PyObjectsLaws Obj, !PeerTextLaws Peer Multihash MA} :
  ExecutorObjectsLaws (H := network) Obj.
Proof.
  constructor.
  - exact peer_objects.
  - intros m. simpl. unfold message_from_object, message_into_object. rewrite as_vec_vec.
    + simpl. by rewrite bytes_of_vals.
    + apply Forall_fmap, Forall_true. intros b. apply byte_val_range.
  - intros p. simpl. unfold protocol_from_object, protocol_into_object. by rewrite as_str_str.
Qed.
End objects.
