(* ===== verification/SubstrateTheorems.v ===== *)
(** * The substrate backend: from the network to the overseer

    An interface of the backend with everything that runs in it: the network,
    the task that relays its events, the sinks and the handle. The overseer
    sees the streams of every peer and protocol as well-formed sessions, and
    once the task has caught up these are the streams the network has. *)

From S2P Require Import Prelude Wire RequestResponses RequestResponsesTheorems PeersState Peerset Notifications NotificationsFacts NotificationsPoll NotificationsTheorems Config Protocol NetBehaviour Backend Service NodeTheorems Substrate.
Import Service Substrate.

(** ** The network only adds events *)
Section events.
Context {PeerId : Type} `{Countable PeerId, !HashOrder PeerId} {NotificationsSink : Type}.
Context {Multihash MA SecretKey Keypair : Type} `{Multiaddr PeerId Multihash MA, NodeKeys SecretKey Keypair}.
Context {B Chan Hd M HE Opts D : Type} `{RequestResponses.SubBehaviour PeerId B Chan Hd M HE Opts D}.
Context {Disc PeerInfo : Type} `{Discovery PeerId MA Disc}.
Context (clock : nat → Instant) (delay_ready : Instant → Instant → bool) (ban_sample : nat → Z) (digest : bytes → Z).
Abbreviation Behaviour := (NetBehaviour.Behaviour (PeerId := PeerId) (NotificationsSink := NotificationsSink)
  (B := B) (Chan := Chan) (Disc := Disc) (PeerInfo := PeerInfo)).
Abbreviation Node := (SubstrateNetwork PeerId NotificationsSink Behaviour).
Implicit Types (nd : Node).

Definition extends (nd nd' : Node) : Prop := queue (event_tx nd) `prefix_of` queue (event_tx nd').

Lemma emit_extends e nd1 nd : event_tx nd1 = event_tx nd → ensures (emit e nd1) (extends nd).
Proof.
  intros E. unfold emit, send, extends. rewrite E. destruct (receiver_alive (event_tx nd)); [|done]. simpl.
  by apply prefix_app_r.
Qed.

Lemma same_extends nd nd' : event_tx nd' = event_tx nd → extends nd nd'.
Proof. unfold extends. by intros ->. Qed.

Lemma fold_event_tx {X} (f : Behaviour → X → Behaviour) (xs : list X) nd :
  event_tx (foldl (λ s x, with_swarm (f (swarm s) x) s) nd xs) = event_tx nd.
Proof. revert nd. induction xs as [|x xs IH]; intros nd; simpl; [done|]. by rewrite IH. Qed.

Lemma step_extends (i : input PeerId MA NotificationsSink) nd :
  ensures (step (SW := behaviour_swarm clock) digest nd i) (extends nd).
Proof.
  destruct i as [[[pr r]|]|k r|[[peer pr m|peer pr rq tx|peer id rs|peer|peer]|]|[ev|peer|peer|]]; simpl; try done.
  - apply ensures_bind. unfold take_request_id. destruct (u64_add _ 1) as [next|]; [|done]. simpl.
    apply ensures_bind. by eapply ensures_mono; [by apply emit_extends|].
  - destruct (pending_responses nd !! k) as [[peer pr id [rx|]]|]; [|by apply same_extends..].
    destruct r as [[response|]|]; [by apply emit_extends|by apply same_extends..].
  - destruct (notification_sinks nd !! (peer, pr)); by apply same_extends.
  - unfold on_send_request, take_request_id. destruct (u64_add _ 1) as [next|]; [|done]. simpl.
    destruct (cached_responses nd !! digest rq); [by apply emit_extends|].
    apply ensures_bind, ensures_true. intros sw. by apply same_extends.
  - unfold on_send_response. destruct (pending_requests nd !! id) as [[]|]; by apply same_extends.
  - by apply same_extends.
  - apply ensures_bind, ensures_true. intros sw. by apply same_extends.
  - destruct ev as [| | |peer changes| | | |remote ms|peer info|peer| |]; simpl; try (by apply same_extends);
      try (by apply emit_extends).
    + apply same_extends. apply (fold_event_tx (λ sw c, NetBehaviour.user_report_peer peer c sw)).
    + apply (ensures_for_each _ (extends nd)); [by apply same_extends|]. intros m s Hs.
      eapply ensures_mono; [by apply emit_extends|]. intros s' Hs'. unfold extends in *. by etrans.
    + apply same_extends.
      apply (fold_event_tx (λ sw a, NetBehaviour.add_self_reported_address_to_dht peer (NetBehaviour.id_protocols info) a sw)).
    + destruct (decide (peer ∈ discovered nd)); [by apply same_extends|by apply emit_extends].
  - by apply emit_extends.
  - apply ensures_bind. eapply ensures_mono; [by apply emit_extends|]. intros s1 H1'.
    apply ensures_bind. eapply ensures_mono; [by apply emit_extends|]. intros s2 H2'. simpl. unfold extends in *. by etrans.
  - by apply same_extends.
Qed.

Lemma node_step_extends (m : node_move) nd nd' :
  node_step clock delay_ready ban_sample digest m nd = Done (Some nd') → extends nd nd'.
Proof.
  destruct m as [e|p c e|fuel fired|i]; simpl.
  - destruct (Protocol.on_swarm_event _ _ _ _) as [x|]; [|done]. simpl. intros [= <-]. by apply same_extends.
  - destruct (Protocol.on_connection_handler_event _ _ _ _ _ _) as [x|]; [|done]. simpl. intros [= <-]. by apply same_extends.
  - destruct (Protocol.poll _ _ _ _ _) as [[[[[ev| |]|] x]|]|]; try done; simpl; try (intros [= <-]; by apply same_extends).
    destruct (on_swarm_event _ _) as [nd1|] eqn:E; [|done]. simpl. intros [= <-].
    pose proof (step_extends (In_Swarm (Sw_Behaviour (NetBehaviour.from_CustomMessageOutcome ev))) (with_protocol x nd)) as Hs.
    simpl in Hs. by rewrite E in Hs.
  - destruct (step _ _ _) as [nd1|] eqn:E; [|done]. simpl. intros [= <-].
    pose proof (step_extends i nd) as Hs. by rewrite E in Hs.
Qed.
End events.

(** ** An interface at work *)
Section interface.
Context {PeerId : Type} `{Countable PeerId, !HashOrder PeerId} {NotificationsSink : Type}.
Context {Multihash MA SecretKey Keypair : Type} `{Multiaddr PeerId Multihash MA, NodeKeys SecretKey Keypair}.
Context {B Chan Hd M HE Opts D : Type} `{RequestResponses.SubBehaviour PeerId B Chan Hd M HE Opts D}.
Context {Disc PeerInfo : Type} `{Discovery PeerId MA Disc}.
Context (clock : nat → Instant) (delay_ready : Instant → Instant → bool) (ban_sample : nat → Z) (digest : bytes → Z).
Abbreviation Behaviour := (NetBehaviour.Behaviour (PeerId := PeerId) (NotificationsSink := NotificationsSink)
  (B := B) (Chan := Chan) (Disc := Disc) (PeerInfo := PeerInfo)).
Abbreviation Node := (SubstrateNetwork PeerId NotificationsSink Behaviour).
Abbreviation Interface := (Interface (Peer := PeerId) digest Node).
Abbreviation nmove := (node_move (PeerId := PeerId) (MA := MA) (NotificationsSink := NotificationsSink)).
Abbreviation IEvent := (InterfaceEvent (H := substrate_network (Peer := PeerId) digest)).
Abbreviation nstep := (node_step clock delay_ready ban_sample digest : nmove → Node → outcome (option Node)).
Implicit Types (i : Interface).

Definition with_network (nd : Node) i : Interface :=
  mkInterface (in_id i) nd (in_commands i) (in_read i) (in_events i) (in_relayed i).
Definition with_commands (tx : channel (Command PeerId)) i : Interface :=
  mkInterface (in_id i) (in_network i) tx (in_read i) (in_events i) (in_relayed i).

(** The events of the network that wait for the relaying task. *)
Definition backlog i : list (SubstrateNetworkEvent PeerId) := drop (in_relayed i) (queue (event_tx (in_network i))).

(** The task takes the next event; without one it waits. *)
Definition relay_step i : outcome Interface :=
  match backlog i with
  | [] => mret i
  | e :: _ =>
      tx ← relay_event digest (in_id i) (Some e) (in_events i);
      mret (mkInterface (in_id i) (in_network i) (in_commands i) (in_read i) tx (S (in_relayed i)))
  end.

(** The network moves, by itself or by reading the next command; the task
    relays; the overseer and the filter use the handle and the sinks. *)
Inductive imove :=
  | IM_Network (m : nmove)
  | IM_Command
  | IM_Relay
  | IM_Packet (s : SubstratePacketSink PeerId) (protocol : option ProtocolName) (message : bytes)
  | IM_Request (s : SubstratePacketSink PeerId) (protocol : ProtocolName) (payload : bytes) (reply : nat) (answer : option Z)
  | IM_Response (s : SubstratePacketSink PeerId) (request_id : Z) (payload : bytes)
  | IM_Connect (p : PeerId)
  | IM_Disconnect (p : PeerId).

Definition on_peerset (f : Peerset PeerId → Peerset PeerId) (nd : Node) : Node :=
  with_protocol (Protocol.on_peerset f (protocol_of nd)) nd.

Definition istep (m : imove) i : outcome (option Interface) :=
  match m with
  | IM_Network m => r ← nstep m (in_network i); mret (option_map (λ nd, with_network nd i) r)
  | IM_Command =>
      match queue (in_commands i) !! in_read i with
      | None => mret (Some i)
      | Some c =>
          r ← nstep (NM_Loop (In_Command (Some c))) (in_network i);
          mret (option_map (λ nd, mkInterface (in_id i) nd (in_commands i) (S (in_read i)) (in_events i) (in_relayed i)) r)
      end
  | IM_Relay => Some <$> relay_step i
  | IM_Packet s protocol message =>
      '(_, tx) ← send_packet s protocol message (in_commands i); mret (Some (with_commands tx i))
  | IM_Request s protocol payload reply answer =>
      '(_, tx) ← send_request s protocol payload reply answer (in_commands i); mret (Some (with_commands tx i))
  | IM_Response s request_id payload =>
      '(_, tx) ← send_response s request_id payload (in_commands i); mret (Some (with_commands tx i))
  | IM_Connect p => mret (Some (with_network (on_peerset (λ ps, (connect p ps).2) (in_network i)) i))
  | IM_Disconnect p => '(_, tx) ← disconnect p (in_commands i); mret (Some (with_commands tx i))
  end.

(** What reaches the loop as a command comes through the channel. *)
Definition imove_ok (m : imove) i : Prop :=
  match m with
  | IM_Network m => move_ok m (in_network i) ∧ ∀ c, m ≠ NM_Loop (In_Command c)
  | _ => True
  end.

Inductive interface_run (i0 : Interface) : Interface → Prop :=
  | interface_start : interface_run i0 i0
  | interface_next i m i' :
      interface_run i0 i → imove_ok m i → istep m i = Done (Some i') → healthy (notif (in_network i')) →
      interface_run i0 i'.

(** ** What the overseer sees of a stream *)
Definition seen_step (k : PeerId * ProtocolName) (open : bool) (e : IEvent) : option bool :=
  match e with
  | ConnectionUpgraded _ p (UpProtocolOpened names) =>
      if decide (p = k.1 ∧ (k.2 : @Backend.Protocol (substrate_network (Peer := PeerId) digest)) ∈ names) then (if open then None else Some true) else Some open
  | ConnectionUpgraded _ p (UpProtocolClosed names) =>
      if decide (p = k.1 ∧ (k.2 : @Backend.Protocol (substrate_network (Peer := PeerId) digest)) ∈ names) then (if open then Some false else None) else Some open
  | MessageReceived _ p name _ => if decide (p = k.1 ∧ name = k.2) then (if open then Some true else None) else Some open
  | _ => Some open
  end.

Fixpoint seen_stream (k : PeerId * ProtocolName) (evs : list IEvent) (open : bool) : option bool :=
  match evs with
  | [] => Some open
  | e :: evs => open ← seen_step k open e; seen_stream k evs open
  end.

Lemma seen_step_relay k b id e : seen_step k b (relay digest id e) = stream_step k b e.
Proof.
  clear clock delay_ready ban_sample. destruct k as [p name], e as [q|q|q n|q n|q n m|q n r m|q n r m|q]; simpl; try done; repeat case_decide; try done; set_solver.
Qed.

Lemma seen_stream_relay k b id es : seen_stream k (relay digest id <$> es) b = stream k es b.
Proof.
  revert b. induction es as [|e es IH]; intros b; [done|]. simpl. rewrite seen_step_relay.
  destruct (stream_step k b e); simpl; [apply IH|done].
Qed.

Lemma stream_prefix (k : PeerId * ProtocolName) es1 es2 b b' : es1 `prefix_of` es2 → stream k es2 b = Some b' → is_Some (stream k es1 b).
Proof. intros [es ->]. rewrite stream_app. destruct (stream k es1 b); [by eexists|done]. Qed.

(** ** The invariant *)
Record interface_inv (nd0 : Node) (id : Z) i : Prop := {
  iv_network : node_run clock delay_ready ban_sample digest nd0 (in_network i);
  iv_id : in_id i = id;
  iv_alive : receiver_alive (in_events i) = true;
  iv_relayed : (in_relayed i ≤ length (queue (event_tx (in_network i))))%nat;
  iv_events : queue (in_events i) = relay digest id <$> take (in_relayed i) (queue (event_tx (in_network i)));
}.

Lemma inv_extends nd0 id i nd' i' :
  interface_inv nd0 id i → extends (in_network i) nd' → node_run clock delay_ready ban_sample digest nd0 nd' →
  in_network i' = nd' → in_id i' = in_id i → in_events i' = in_events i → in_relayed i' = in_relayed i →
  interface_inv nd0 id i'.
Proof.
  intros [Hr Hid Ha Hle He] [es Hes] Hrun' En Ei Ee Er. split; rewrite ?En, ?Ei, ?Ee, ?Er; try done.
  - rewrite Hes, length_app. lia.
  - rewrite Hes, take_app_le by done. done.
Qed.

Lemma relay_step_ok nd0 id i : interface_inv nd0 id i →
  ∃ i', relay_step i = Done i' ∧ interface_inv nd0 id i' ∧ in_network i' = in_network i ∧
    length (backlog i') = pred (length (backlog i)).
Proof.
  intros [Hr Hid Ha Hle He]. unfold relay_step. destruct (backlog i) as [|e es] eqn:Eb.
  { exists i. rewrite Eb. by repeat split. }
  unfold relay_event, send. simpl. rewrite Ha. simpl. eexists. split; [done|].
  assert (queue (event_tx (in_network i)) !! in_relayed i = Some e) as Hlk.
  { unfold backlog in Eb. rewrite <- (Nat.add_0_r (in_relayed i)), <- lookup_drop, Eb. done. }
  split; [split; simpl; try done|split; [done|]].
  - apply lookup_lt_Some in Hlk. lia.
  - rewrite He, (take_S_r _ _ _ Hlk), fmap_app, Hid. done.
  - unfold backlog in *. simpl. rewrite length_drop. apply (f_equal length) in Eb. rewrite length_drop in Eb. simpl in Eb. lia.
Qed.

Lemma istep_inv nd0 id m i i' :
  interface_inv nd0 id i → imove_ok m i → istep m i = Done (Some i') → healthy (notif (in_network i')) →
  interface_inv nd0 id i'.
Proof.
  intros Hi Hok Hstep Hh. pose proof (iv_network _ _ _ Hi) as Hrun.
  assert (∀ tx, i' = with_commands tx i → interface_inv nd0 id i') as Hcmd.
  { intros tx ->. eapply (inv_extends _ _ _ (in_network i)); try done. by apply same_extends. }
  assert (∀ m nd', nstep m (in_network i) = Done (Some nd') → move_ok m (in_network i) → in_network i' = nd' →
    in_id i' = in_id i → in_events i' = in_events i → in_relayed i' = in_relayed i → interface_inv nd0 id i') as Hnet.
  { intros m' nd' Hm Hmok <- E1 E2 E3. eapply (inv_extends _ _ _ (in_network i')); try done; [by eapply node_step_extends|].
    by eapply node_next. }
  destruct m as [m| | |s protocol message|s protocol payload reply answer|s rid payload|p|p]; cbn [istep] in Hstep.
  - destruct (nstep m (in_network i)) as [[nd|]|] eqn:E; try done. injection Hstep as <-. destruct Hok. by eapply Hnet.
  - destruct (queue (in_commands i) !! in_read i) as [c|]; [|by injection Hstep as <-].
    destruct (nstep (NM_Loop (In_Command (Some c))) (in_network i)) as [[nd|]|] eqn:E; try done.
    injection Hstep as <-. by eapply Hnet.
  - destruct (relay_step_ok nd0 id i Hi) as (i1 & E & Hi1 & _). rewrite E in Hstep. by injection Hstep as <-.
  - unfold send_packet, send in Hstep. destruct protocol; [|done]. simpl in Hstep.
    destruct (receiver_alive _); [|done]. injection Hstep as <-. by eapply Hcmd.
  - unfold send_request, send in Hstep. destruct (receiver_alive _); [|done]. simpl in Hstep.
    destruct answer; [|done]. injection Hstep as <-. by eapply Hcmd.
  - unfold send_response, send in Hstep. destruct (receiver_alive _); [|done]. injection Hstep as <-. by eapply Hcmd.
  - injection Hstep as <-. by eapply (Hnet (NM_Loop (In_Command (Some (Connect p))))).
  - unfold disconnect, send in Hstep. destruct (receiver_alive _); [|done]. injection Hstep as <-. by eapply Hcmd.
Qed.

Lemma interface_run_inv nd0 id i0 i : interface_inv nd0 id i0 → interface_run i0 i → interface_inv nd0 id i.
Proof. intros Hstart. induction 1 as [|i m i' _ IH Hok Hstep Hh]; [done|]. by eapply istep_inv. Qed.

(** The relaying task on its own, [n] times. *)
Fixpoint relays (n : nat) i : outcome Interface :=
  match n with O => mret i | S n => i ← relay_step i; relays n i end.

Lemma relays_ok nd0 id i : interface_inv nd0 id i →
  ∃ i', relays (length (backlog i)) i = Done i' ∧ interface_inv nd0 id i' ∧ in_network i' = in_network i ∧ backlog i' = [].
Proof.
  remember (length (backlog i)) as n eqn:Hn. revert i Hn. induction n as [|n IH]; intros i Hn Hi; simpl.
  { exists i. repeat split; try done; try apply Hi. by apply nil_length_inv. }
  destruct (relay_step_ok nd0 id i Hi) as (i1 & -> & Hi1 & Hnet & Hlen). simpl.
  destruct (IH i1) as (i2 & E2 & Hi2 & Hnet2 & Hb2); [rewrite Hlen, <- Hn; done|done|].
  exists i2. split_and!; [done|done|congruence|done].
Qed.
End interface.

(** C29: From the network to the overseer. An interface gets the next number of
    the backend. Whatever then happens in it (the network moving and reading
    commands, the relaying task, sinks and handle in use), as long as no step
    panics or leaves an entry of the notifications behaviour [Poisoned] (one
    legal event does, see [close_desired_while_incoming_poisons]), the overseer
    has been sent the first events of the network, in order and with that
    number, and what it sees of every stream is a well-formed session. The
    relaying task catches up, in as many steps as there are events waiting, and
    then the overseer sees a stream as open exactly if the network has a sink
    for it. *)
Theorem interface_streams_consistent {PeerId : Type} `{Countable PeerId, !HashOrder PeerId} {NotificationsSink : Type}
    {Multihash MA SecretKey Keypair : Type} `{Multiaddr PeerId Multihash MA, NodeKeys SecretKey Keypair}
    {B Chan Hd M HE Opts D : Type} `{RequestResponses.SubBehaviour PeerId B Chan Hd M HE Opts D}
    {Disc PeerInfo : Type} `{Discovery PeerId MA Disc}
    (clock : nat → Instant) (delay_ready : Instant → Instant → bool) (ban_sample : nat → Z) (digest : bytes → Z)
    (to_peer_id : Keypair → PeerId) (b b' : SubstrateBackend) parameters (generated : SecretKey) fs fs' (peer_info : PeerInfo)
    (make_discovery : bytes → list (PeerId * MA) → Z → Disc) h
    (i0 i : Interface digest (SubstrateNetwork PeerId NotificationsSink (NetBehaviour.Behaviour (B := B) (Chan := Chan))))
    (Hspawn : spawn_interface digest clock to_peer_id b parameters generated fs peer_info make_discovery =
       Done (b', Ok (h, i0), fs'))
    (Hrun : interface_run clock delay_ready ban_sample digest i0 i) :
  ih_interface_id h = next_iface_id b ∧ next_iface_id b' = next_iface_id b + 1 ∧
  queue (in_events i) =
    relay digest (ih_interface_id h) <$> take (in_relayed i) (queue (event_tx (in_network i))) ∧
  (∀ p name, name ∈ node_names → is_Some (seen_stream digest (p, name) (queue (in_events i)) false)) ∧
  ∃ i', relays digest (length (backlog digest i)) i = Done i' ∧ in_network i' = in_network i ∧
    ∀ p name, name ∈ node_names →
      seen_stream digest (p, name) (queue (in_events i')) false =
        Some (bool_decide (is_Some (notification_sinks (in_network i') !! (p, name)))).
Proof.
  unfold spawn_interface, next_interface_id, u64_add in Hspawn. destruct (_ <=? _); [|done]. simpl in Hspawn.
  unfold InterfaceHandle_new in Hspawn.
  destruct (Service.new _ _ _ _ _ _ _) as [[[[[kp nd0] y]|e] fs1]|] eqn:Hnew; try done. simpl in Hspawn.
  injection Hspawn as <- <- <- <-. simpl.
  pose proof (new_inv clock _ _ _ _ _ _ _ _ _ _ Hnew) as ([_ _ _ _ Htx _] & _).
  assert (interface_inv clock delay_ready ban_sample digest nd0 (next_iface_id b) i) as Hi.
  { eapply interface_run_inv; [|exact Hrun]. split; simpl; try done; [apply node_start|lia]. }
  assert (∀ p name, name ∈ node_names → ∃ b, stream (p, name) (queue (event_tx (in_network i))) false = Some b ∧
    (is_Some (notification_sinks (in_network i) !! (p, name)) ↔ b = true)) as Hst.
  { intros p name [k Hk]%list_elem_of_lookup. destruct Hi as [Hnrun _ _ _ _].
    destruct (reached_streams clock delay_ready ban_sample digest _ _ _ _ _ _ _ _ _ _ _ Hnew eq_refl Hnrun p k name Hk)
      as (b0 & ? & ? & _). by exists b0. }
  split_and!; try done; [apply Hi| |].
  - intros p name Hin. rewrite (iv_events _ _ _ _ _ _ _ Hi), seen_stream_relay.
    destruct (Hst p name Hin) as (b0 & Hb & _). eapply stream_prefix; [|exact Hb]. apply prefix_take.
  - destruct (relays_ok clock delay_ready ban_sample digest nd0 _ i Hi) as (i' & E & Hi' & Hnet & Hb).
    exists i'. split_and!; [done|done|]. intros p name Hin. rewrite (iv_events _ _ _ _ _ _ _ Hi'), seen_stream_relay, Hnet.
    rewrite take_ge; [|unfold backlog in Hb; rewrite Hnet in Hb; apply (f_equal length) in Hb; rewrite length_drop in Hb; simpl in Hb; lia].
    destruct (Hst p name Hin) as (b0 & -> & Hsi). f_equal. case_bool_decide; destruct b0; naive_solver.
Qed.

(** ** Examples *)
Section examples.
#[local] Existing Instance canonical_order.
#[local] Existing Instances RequestResponsesTheorems.scripted_sub_behaviour opaque_addr numbered_keys address_book.

Abbreviation DemoNode := (SubstrateNetwork nat nat (NetBehaviour.Behaviour (PeerId := nat) (NotificationsSink := nat)
  (B := RequestResponsesTheorems.scripted_sub) (Chan := nat) (Disc := list (nat * string)) (PeerInfo := unit))).
Definition length_digest (b : bytes) : Z := Z.of_nat (length b).
Abbreviation DemoInterface := (Interface (Peer := nat) length_digest DemoNode).
Abbreviation demo_imove := (imove (PeerId := nat) (MA := string) (NotificationsSink := nat)).
Abbreviation demo_run := (interface_run NotificationsTheorems.demo_clock demo_ready demo_ban length_digest
  (PeerId := nat) (NotificationsSink := nat) (MA := string) (B := RequestResponsesTheorems.scripted_sub)).

Definition demo_spawn : outcome (SubstrateBackend * result (InterfaceHandle nat * DemoInterface) Error * Config.FileSystem) :=
  spawn_interface length_digest NotificationsTheorems.demo_clock id (mkSubstrateBackend 4 []) None 42%nat
    (Config.mkFileSystem ∅ ∅ []) tt (λ _ l _, l).

Definition demo_imove_ok (m : demo_imove) (i : DemoInterface) : bool :=
  match m with
  | IM_Network (NM_Loop (In_Command _)) => false
  | IM_Network m => demo_move_ok m (in_network i)
  | _ => true
  end.

Fixpoint demo_imoves (ms : list demo_imove) (i : DemoInterface) : option DemoInterface :=
  match ms with
  | [] => Some i
  | m :: ms =>
      match istep NotificationsTheorems.demo_clock demo_ready demo_ban length_digest m i with
      | Done (Some i') =>
          if demo_imove_ok m i && healthy_b (notif (in_network i')) then demo_imoves ms i' else None
      | _ => None
      end
  end.

Lemma demo_imoves_run ms i0 i i' : demo_run i0 i → demo_imoves ms i = Some i' → demo_run i0 i'.
Proof.
  revert i. induction ms as [|m ms IH]; intros i Hrun Hms; simpl in Hms; [by injection Hms as <-|].
  destruct (istep _ _ _ _ m i) as [[i1|]|] eqn:E; try done.
  destruct (demo_imove_ok m i && healthy_b (notif (in_network i1))) eqn:Hb; [|done].
  apply andb_prop in Hb as [Hok Hh%healthy_b_sound].
  eapply IH; [|exact Hms]. eapply interface_next; [exact Hrun| |exact E|exact Hh].
  destruct m as [[[p c|p c|p|]|p c e|fuel fired|[| |c|]]| | | | | | |]; try done; split; try done.
  - exact (op_ok_b_sound (ConnectionEstablished p c) _ Hok).
  - by apply negb_true_iff in Hok.
Qed.

(** Peer 2 opens a stream; its connection is relayed, the stream not yet. A
    sink sends a notification, which the network hands on. *)
Definition stream_in_use : list demo_imove :=
  (IM_Network <$> stream_opens) ++
  [IM_Relay; IM_Packet (mkSubstratePacketSink 2%nat) (Some "/sup/transactions/1"%string) [Byte.x07]; IM_Command].

Definition demo_in_use : bool :=
  match demo_spawn with
  | Done (b', Ok (h, i0), fs') =>
      match demo_imoves stream_in_use i0 with
      | Some i => bool_decide (handed (in_network i) = [(20%nat, [Byte.x07])] ∧
          is_Some (notification_sinks (in_network i) !! (2%nat, "/sup/transactions/1"%string)) ∧
          length (queue (in_events i)) = 1%nat)
      | None => false
      end
  | _ => false
  end.

Lemma demo_in_use_true : demo_in_use = true.
Proof. vm_compute. reflexivity. Qed.

Lemma interface_streams_consistent_witness :
  ∃ b' h (i0 i i' : DemoInterface) fs, demo_spawn = Done (b', Ok (h, i0), fs) ∧ demo_imoves stream_in_use i0 = Some i ∧
    ih_interface_id h = 4 ∧ length (queue (in_events i)) = 1%nat ∧ handed (in_network i) = [(20%nat, [Byte.x07])] ∧
    relays length_digest (length (backlog length_digest i)) i = Done i' ∧
    seen_stream length_digest (2%nat, "/sup/transactions/1"%string) (queue (in_events i')) false = Some true.
Proof.
  pose proof demo_in_use_true as Hdemo. unfold demo_in_use in Hdemo.
  destruct demo_spawn as [[[b' [[h i0]|]] fs]|] eqn:E; try discriminate Hdemo.
  destruct (demo_imoves stream_in_use i0) as [i|] eqn:Em; [|discriminate Hdemo].
  apply bool_decide_eq_true in Hdemo as (Hh & Hs & Hl).
  destruct (interface_streams_consistent NotificationsTheorems.demo_clock demo_ready demo_ban length_digest id
              (mkSubstrateBackend 4 []) b' None 42%nat (Config.mkFileSystem ∅ ∅ []) fs tt (λ _ l _, l) h i0 i E
              (demo_imoves_run stream_in_use i0 i0 i (interface_start _ _ _ _ _) Em))
    as (Hid & _ & _ & _ & i' & Hi' & Hnet & Hseen).
  exists b', h, i0, i, i', fs. repeat (split; [done|]).
  rewrite (Hseen 2%nat "/sup/transactions/1"%string) by (right; left). rewrite Hnet. by rewrite bool_decide_eq_true_2.
Defined.
End examples.
