(* ===== verification/Heuristics.v ===== *)
(** * The heuristics backend

    Model of [heuristics/mod.rs]: the events the handle sends, the counters
    kept per peer and protocol, [handle_event] and the event loop [run]. The
    WebSocket server, which only copies the snapshots to a socket, is the
    channel [ws_tx] of the loop; the JSON printer is a parameter. *)

From S2P Require Import Prelude Backend.

(** [usize] on a 64-bit target. *)
Definition usize_max : Z := u64_max.
Definition usize_add : Z → Z → outcome Z := u64_add.

(** Update heuristics front-end every 3 seconds. *)
Definition UPDATE_INTERVAL : Z := 3.

Section data.
Context `{NetworkBackend}.

Inductive HeuristicsEvent :=
  | HRegisterInterface (interface : InterfaceId)
  | HLinkInterfaces (first second : InterfaceId)
  | HUnlinkInterfaces (first second : InterfaceId)
  | HRegisterPeer (interface : InterfaceId) (peer : PeerId)
  | HUnregisterPeer (interface : InterfaceId) (peer : PeerId)
  | HMessageReceived (interface : InterfaceId) (protocol : Protocol) (peer : PeerId)
      (hash size : Z)
  | HMessageSent (interface : InterfaceId) (protocol : Protocol) (peers : list PeerId)
      (hash size : Z)
  | HOpenProtocol (interface : InterfaceId) (peer : PeerId) (protocol : Protocol)
  | HCloseProtocol (interface : InterfaceId) (peer : PeerId) (protocol : Protocol).

(** ** [HeuristicsHandle]: the sending side of the event channel. *)
Definition HeuristicsHandle := channel HeuristicsEvent.

Definition h_register_interface (i : InterfaceId) : HeuristicsHandle → outcome HeuristicsHandle :=
  send (HRegisterInterface i).
Definition h_link_interfaces (first second : InterfaceId) :
    HeuristicsHandle → outcome HeuristicsHandle := send (HLinkInterfaces first second).
Definition h_unlink_interfaces (first second : InterfaceId) :
    HeuristicsHandle → outcome HeuristicsHandle := send (HUnlinkInterfaces first second).
Definition h_register_peer (i : InterfaceId) (p : PeerId) :
    HeuristicsHandle → outcome HeuristicsHandle := send (HRegisterPeer i p).
Definition h_unregister_peer (i : InterfaceId) (p : PeerId) :
    HeuristicsHandle → outcome HeuristicsHandle := send (HUnregisterPeer i p).
Definition register_protocol_opened (i : InterfaceId) (p : PeerId) (pr : Protocol) :
    HeuristicsHandle → outcome HeuristicsHandle := send (HOpenProtocol i p pr).
Definition register_protocol_closed (i : InterfaceId) (p : PeerId) (pr : Protocol) :
    HeuristicsHandle → outcome HeuristicsHandle := send (HCloseProtocol i p pr).
Definition register_notification_received (i : InterfaceId) (pr : Protocol) (p : PeerId)
    (n : Message) : HeuristicsHandle → outcome HeuristicsHandle :=
  send (HMessageReceived i pr p (message_hash n) (message_size n)).
Definition register_notification_sent (i : InterfaceId) (pr : Protocol) (ps : list PeerId)
    (n : Message) : HeuristicsHandle → outcome HeuristicsHandle :=
  send (HMessageSent i pr ps (message_hash n) (message_size n)).
Definition register_request_received (i : InterfaceId) (pr : Protocol) (p : PeerId)
    (r : Request) : HeuristicsHandle → outcome HeuristicsHandle :=
  send (HMessageReceived i pr p (request_hash r) (request_size r)).
(** The event is sent, then [todo!()] panics. *)
Definition register_request_sent (i : InterfaceId) (pr : Protocol) (p : PeerId)
    (r : Request) (h : HeuristicsHandle) : outcome HeuristicsHandle :=
  _ ← send (HMessageSent i pr [p] (request_hash r) (request_size r)) h;
  Panicked NotYetImplemented.
Definition register_response_received (i : InterfaceId) (pr : Protocol) (p : PeerId)
    (r : Response) : HeuristicsHandle → outcome HeuristicsHandle :=
  send (HMessageReceived i pr p (response_hash r) (response_size r)).
Definition register_response_sent (i : InterfaceId) (pr : Protocol) (p : PeerId)
    (r : Response) : HeuristicsHandle → outcome HeuristicsHandle :=
  send (HMessageSent i pr [p] (response_hash r) (response_size r)).

(** ** Counters *)
Record MessageHeuristics := mkMessageHeuristics {
  total_bytes_sent : Z;
  total_messages_sent : Z;
  total_bytes_received : Z;
  total_messages_received : Z;
  redundant_bytes_sent : Z;
  redundant_bytes_received : Z;
  unique_messages_sent : gset Z;
  unique_messages_received : gset Z;
  mh_interfaces : gset InterfaceId;
}.

Definition MessageHeuristics_new : MessageHeuristics := {|
  total_bytes_sent := 0; total_messages_sent := 0;
  total_bytes_received := 0; total_messages_received := 0;
  redundant_bytes_sent := 0; redundant_bytes_received := 0;
  unique_messages_sent := ∅; unique_messages_received := ∅;
  mh_interfaces := ∅;
|}.

Record PeerHeuristics := mkPeerHeuristics {
  ph_interfaces : gset InterfaceId;
  protocols : gmap Protocol MessageHeuristics;
}.

(** [impl Default for PeerHeuristics]. *)
Definition PeerHeuristics_default : PeerHeuristics :=
  {| ph_interfaces := ∅; protocols := ∅ |}.

Definition register_message_received (protocol : Protocol) (hash size : Z)
    (ph : PeerHeuristics) : outcome PeerHeuristics :=
  let entry := default MessageHeuristics_new (protocols ph !! protocol) in
  bytes ← usize_add (total_bytes_received entry) size;
  messages ← usize_add (total_messages_received entry) 1;
  redundant ← (if decide (hash ∈ unique_messages_received entry)
               then usize_add (redundant_bytes_received entry) size
               else mret (redundant_bytes_received entry));
  mret {|
    ph_interfaces := ph_interfaces ph;
    protocols := <[protocol := {|
      total_bytes_sent := total_bytes_sent entry;
      total_messages_sent := total_messages_sent entry;
      total_bytes_received := bytes;
      total_messages_received := messages;
      redundant_bytes_sent := redundant_bytes_sent entry;
      redundant_bytes_received := redundant;
      unique_messages_sent := unique_messages_sent entry;
      unique_messages_received := {[hash]} ∪ unique_messages_received entry;
      mh_interfaces := mh_interfaces entry |}]> (protocols ph) |}.

Definition register_message_sent (protocol : Protocol) (hash size : Z)
    (ph : PeerHeuristics) : outcome PeerHeuristics :=
  let entry := default MessageHeuristics_new (protocols ph !! protocol) in
  bytes ← usize_add (total_bytes_sent entry) size;
  messages ← usize_add (total_messages_sent entry) 1;
  redundant ← (if decide (hash ∈ unique_messages_sent entry)
               then usize_add (redundant_bytes_sent entry) size
               else mret (redundant_bytes_sent entry));
  mret {|
    ph_interfaces := ph_interfaces ph;
    protocols := <[protocol := {|
      total_bytes_sent := bytes;
      total_messages_sent := messages;
      total_bytes_received := total_bytes_received entry;
      total_messages_received := total_messages_received entry;
      redundant_bytes_sent := redundant;
      redundant_bytes_received := redundant_bytes_received entry;
      unique_messages_sent := {[hash]} ∪ unique_messages_sent entry;
      unique_messages_received := unique_messages_received entry;
      mh_interfaces := mh_interfaces entry |}]> (protocols ph) |}.

(** ** [HeuristicsBackend] *)
Abbreviation peers_map := (gmap PeerId PeerHeuristics).

(** [if let Some(info) = self.peers.get_mut(&peer) { f(info) }]. *)
Definition update_known (peer : PeerId) (f : PeerHeuristics → outcome PeerHeuristics)
    (peers : peers_map) : outcome peers_map :=
  match peers !! peer with
  | Some info => info' ← f info; mret (<[peer := info']> peers)
  | None => mret peers
  end.

Definition with_ph_interfaces (f : gset InterfaceId → gset InterfaceId)
    (ph : PeerHeuristics) : PeerHeuristics :=
  {| ph_interfaces := f (ph_interfaces ph); protocols := protocols ph |}.

(** [if let Some(info) = info.protocols.get_mut(&protocol) { .. }]. *)
Definition with_protocol_interfaces (protocol : Protocol)
    (f : gset InterfaceId → gset InterfaceId) (ph : PeerHeuristics) : PeerHeuristics :=
  match protocols ph !! protocol with
  | Some m => {|
      ph_interfaces := ph_interfaces ph;
      protocols := <[protocol := {|
        total_bytes_sent := total_bytes_sent m;
        total_messages_sent := total_messages_sent m;
        total_bytes_received := total_bytes_received m;
        total_messages_received := total_messages_received m;
        redundant_bytes_sent := redundant_bytes_sent m;
        redundant_bytes_received := redundant_bytes_received m;
        unique_messages_sent := unique_messages_sent m;
        unique_messages_received := unique_messages_received m;
        mh_interfaces := f (mh_interfaces m) |}]> (protocols ph) |}
  | None => ph
  end.

Definition handle_event (peers : peers_map) (event : HeuristicsEvent) : outcome peers_map :=
  match event with
  | HRegisterInterface _ => mret peers
  | HLinkInterfaces _ _ => mret peers
  | HUnlinkInterfaces _ _ => mret peers
  | HRegisterPeer interface peer =>
      let info := default PeerHeuristics_default (peers !! peer) in
      mret (<[peer := with_ph_interfaces (λ s, {[interface]} ∪ s) info]> peers)
  | HUnregisterPeer interface peer =>
      update_known peer (λ info, mret (with_ph_interfaces (λ s, s ∖ {[interface]}) info)) peers
  | HMessageReceived _ protocol peer hash size =>
      update_known peer (register_message_received protocol hash size) peers
  | HMessageSent _ protocol ps hash size =>
      for_each (λ peers peer,
        update_known peer (register_message_sent protocol hash size) peers) ps peers
  | HOpenProtocol interface peer protocol =>
      update_known peer
        (λ info, mret (with_protocol_interfaces protocol (λ s, {[interface]} ∪ s) info)) peers
  | HCloseProtocol interface peer protocol =>
      update_known peer
        (λ info, mret (with_protocol_interfaces protocol (λ s, s ∖ {[interface]}) info)) peers
  end.

(** ** The event loop *)
Record HeuristicsBackend := mkHeuristicsBackend {
  ws_tx : list string;
  hb_peers : peers_map;
  (** The local variable [now] of [run]: when the last update was sent. *)
  last_update : Instant;
}.

(** [HeuristicsBackend::new] and the first line of [run], at time [t]. *)
Definition HeuristicsBackend_new (t : Instant) : HeuristicsBackend :=
  {| ws_tx := []; hb_peers := ∅; last_update := t |}.

(** What wakes one iteration of the loop: an event or the timer. [checked] is
    the time [now.elapsed()] reads, [restarted] the time of the new [now]. *)
Record wakeup := mkWakeup {
  received : option HeuristicsEvent;
  checked : Instant;
  restarted : Instant;
}.

(** [serde_json::to_string] on the map of peers. *)
Context (to_json : peers_map → option string).

Definition run_iteration (hb : HeuristicsBackend) (w : wakeup) : outcome HeuristicsBackend :=
  peers ← match received w with
          | Some event => handle_event (hb_peers hb) event
          | None => mret (hb_peers hb)
          end;
  if UPDATE_INTERVAL <=? as_secs (instant_sub (checked w) (last_update hb))
  then
    json ← expect (to_json peers);
    mret {| ws_tx := ws_tx hb ++ [json]; hb_peers := peers; last_update := restarted w |}
  else mret {| ws_tx := ws_tx hb; hb_peers := peers; last_update := last_update hb |}.

Definition run (ws : list wakeup) (hb : HeuristicsBackend) : outcome HeuristicsBackend :=
  for_each run_iteration ws hb.
End data.
