(* ===== verification/HeuristicsTheorems.v ===== *)
(** * Correctness of the heuristics backend

    The counters of [Heuristics.v] are a function of the events handled: the
    specification reads, off the list of events, the traffic exchanged with a
    peer over a protocol since the peer was first registered, and every
    counter is a sum, a length or a set of that list. *)

From S2P Require Import Prelude Backend Heuristics.

Inductive direction := Sent | Received.
#[export] Instance direction_eq_dec : EqDecision direction.
Proof. solve_decision. Defined.

(** ** Lists of (hash, size) *)
Definition bytes (l : list (Z * Z)) : Z := foldr (λ x n, x.2 + n) 0 l.
Definition hashes (l : list (Z * Z)) : gset Z := list_to_set l.*1.

(** The messages whose hash was not met before. *)
Fixpoint first_occurrences (seen : gset Z) (l : list (Z * Z)) : list (Z * Z) :=
  match l with
  | [] => []
  | x :: l' =>
      if decide (x.1 ∈ seen) then first_occurrences seen l'
      else x :: first_occurrences ({[x.1]} ∪ seen) l'
  end.

(** Bytes spent on messages whose hash was met before. *)
Definition redundant (l : list (Z * Z)) : Z := bytes l - bytes (first_occurrences ∅ l).

Lemma bytes_app l1 l2 : bytes (l1 ++ l2) = bytes l1 + bytes l2.
Proof. induction l1; simpl; [done|]. fold (bytes (l1 ++ l2)) (bytes l1). lia. Qed.

Lemma bytes_nonneg l : Forall (λ x, 0 ≤ x.2) l → 0 ≤ bytes l.
Proof. induction 1; simpl in *; [done|]. fold (bytes l) in *. lia. Qed.

Lemma hashes_app l1 l2 : hashes (l1 ++ l2) = hashes l1 ∪ hashes l2.
Proof. unfold hashes. by rewrite fmap_app, list_to_set_app_L. Qed.

Lemma hashes_snoc l h s : hashes (l ++ [(h, s)]) = {[h]} ∪ hashes l.
Proof. rewrite hashes_app. unfold hashes. simpl. set_solver. Qed.

Lemma first_occurrences_app seen l1 l2 :
  first_occurrences seen (l1 ++ l2) =
  first_occurrences seen l1 ++ first_occurrences (hashes l1 ∪ seen) l2.
Proof.
  revert seen; induction l1 as [|x l1 IH]; intros seen; simpl.
  - change (hashes []) with (∅ : gset Z). by rewrite (left_id_L ∅ (∪)).
  - assert (hashes (x :: l1) = {[x.1]} ∪ hashes l1) as -> by done.
    case_decide; rewrite IH; simpl; do 2 f_equal; [set_solver|f_equal; set_solver].
Qed.

Lemma redundant_snoc l h s :
  redundant (l ++ [(h, s)]) = redundant l + (if decide (h ∈ hashes l) then s else 0).
Proof.
  unfold redundant. rewrite first_occurrences_app, !bytes_app, (right_id_L ∅ (∪)). simpl.
  case_decide; simpl; lia.
Qed.

Lemma first_occurrences_sublist seen l : sublist (first_occurrences seen l) l.
Proof.
  revert seen; induction l as [|x l IH]; intros seen; simpl; [constructor|].
  case_decide; by constructor.
Qed.

Lemma bytes_sublist k l : sublist k l → Forall (λ x, 0 ≤ x.2) l → bytes k ≤ bytes l.
Proof.
  induction 1; intros Hl; [done| |]; apply Forall_cons in Hl as [? Hl]; simpl in *;
    specialize (IHsublist Hl); unfold bytes in *; lia.
Qed.

Lemma redundant_le l : Forall (λ x, 0 ≤ x.2) l → 0 ≤ redundant l ≤ bytes l.
Proof.
  intros Hl. unfold redundant.
  pose proof (bytes_sublist _ _ (first_occurrences_sublist ∅ l) Hl).
  assert (0 ≤ bytes (first_occurrences ∅ l)); [|lia]. apply bytes_nonneg.
  apply Forall_forall. intros x Hx. rewrite Forall_forall in Hl. apply Hl.
  eapply elem_of_sublist; [done|]. apply first_occurrences_sublist.
Qed.

Section spec.
Context `{NetworkBackend}.
Implicit Types (e : HeuristicsEvent) (es : list HeuristicsEvent) (p : PeerId) (pr : Protocol).

(** ** What an event log says *)

(** The events after the first registration of [p]. *)
Fixpoint since_registered p es : list HeuristicsEvent :=
  match es with
  | [] => []
  | HRegisterPeer _ p' :: es' => if decide (p' = p) then es' else since_registered p es'
  | _ :: es' => since_registered p es'
  end.

Definition registers p e : bool :=
  match e with HRegisterPeer _ p' => bool_decide (p' = p) | _ => false end.
Definition registered p es : bool := existsb (registers p) es.

(** The messages an event reports for [p] over [pr]. *)
Definition traffic_of p pr e : list (direction * (Z * Z)) :=
  match e with
  | HMessageReceived _ pr' p' h s =>
      if decide (p' = p ∧ pr' = pr) then [(Received, (h, s))] else []
  | HMessageSent _ pr' ps h s =>
      flat_map (λ p', if decide (p' = p ∧ pr' = pr) then [(Sent, (h, s))] else []) ps
  | _ => []
  end.

Definition all_traffic p pr es : list (direction * (Z * Z)) :=
  flat_map (traffic_of p pr) (since_registered p es).

Definition traffic d p pr es : list (Z * Z) :=
  (filter (λ x, x.1 = d) (all_traffic p pr es)).*2.

(** The events after the first message of the protocol: only openings and
    closings among these reach the entry of the protocol, which that message
    creates; earlier ones find no entry and are dropped
    ([opened_before_traffic_is_lost]). *)
Fixpoint since_traffic p pr es : list HeuristicsEvent :=
  match es with
  | [] => []
  | e :: es' => if decide (traffic_of p pr e = []) then since_traffic p pr es' else es'
  end.

Definition toggle_protocol p pr (s : gset InterfaceId) e : gset InterfaceId :=
  match e with
  | HOpenProtocol i p' pr' => if decide (p' = p ∧ pr' = pr) then {[i]} ∪ s else s
  | HCloseProtocol i p' pr' => if decide (p' = p ∧ pr' = pr) then s ∖ {[i]} else s
  | _ => s
  end.

Definition toggle_peer p (s : gset InterfaceId) e : gset InterfaceId :=
  match e with
  | HRegisterPeer i p' => if decide (p' = p) then {[i]} ∪ s else s
  | HUnregisterPeer i p' => if decide (p' = p) then s ∖ {[i]} else s
  | _ => s
  end.

Definition expected_entry p pr es : MessageHeuristics := {|
  total_bytes_sent := bytes (traffic Sent p pr es);
  total_messages_sent := Z.of_nat (length (traffic Sent p pr es));
  total_bytes_received := bytes (traffic Received p pr es);
  total_messages_received := Z.of_nat (length (traffic Received p pr es));
  redundant_bytes_sent := redundant (traffic Sent p pr es);
  redundant_bytes_received := redundant (traffic Received p pr es);
  unique_messages_sent := hashes (traffic Sent p pr es);
  unique_messages_received := hashes (traffic Received p pr es);
  mh_interfaces :=
    fold_left (toggle_protocol p pr) (since_traffic p pr (since_registered p es)) ∅;
|}.

(** The heuristics agree with the log: an entry for the registered peers, a
    protocol for the traffic there was, with the counters expected. *)
Definition expected_protocol p pr es : option MessageHeuristics :=
  if decide (all_traffic p pr es = []) then None else Some (expected_entry p pr es).

Definition describes_peer p (o : option PeerHeuristics) es : Prop :=
  match o with
  | None => registered p es = false
  | Some ph =>
      registered p es = true ∧
      ph_interfaces ph = fold_left (toggle_peer p) es ∅ ∧
      ∀ pr, protocols ph !! pr = expected_protocol p pr es
  end.

Definition describes (peers : gmap PeerId PeerHeuristics) es : Prop :=
  ∀ p, describes_peer p (peers !! p) es.

(** Every counter fits its machine word. *)
Definition fits es : Prop := ∀ d p pr,
  bytes (traffic d p pr es) ≤ usize_max ∧ Z.of_nat (length (traffic d p pr es)) ≤ usize_max.

Definition size_ok e : Prop :=
  match e with
  | HMessageReceived _ _ _ _ s | HMessageSent _ _ _ _ s => 0 ≤ s
  | _ => True
  end.

(** ** Appending an event *)
Lemma since_registered_snoc p es e :
  since_registered p (es ++ [e]) = if registered p es then since_registered p es ++ [e] else [].
Proof.
  induction es as [|e' es IH]; simpl.
  - destruct e; simpl; try done. by case_decide.
  - destruct e' as [| | |i p'| | | | |]; try exact IH. unfold registers.
    destruct (decide (p' = p)); [by rewrite bool_decide_true|by rewrite bool_decide_false].
Qed.

Lemma since_registered_none p es : registered p es = false → since_registered p es = [].
Proof.
  induction es as [|e es IH]; [done|]. simpl. intros [He Hes]%orb_false_iff.
  destruct e as [| | |i p'| | | | |]; auto. apply bool_decide_eq_false in He.
  rewrite decide_False; auto.
Qed.

Lemma registered_snoc p es e : registered p (es ++ [e]) = registered p es || registers p e.
Proof. unfold registered. rewrite existsb_app. simpl. by rewrite orb_false_r. Qed.

Lemma all_traffic_snoc p pr es e :
  all_traffic p pr (es ++ [e]) =
  all_traffic p pr es ++ if registered p es then traffic_of p pr e else [].
Proof.
  unfold all_traffic. rewrite since_registered_snoc. destruct (registered p es) eqn:Hr.
  - rewrite flat_map_app. simpl. by rewrite app_nil_r.
  - by rewrite since_registered_none.
Qed.

Lemma traffic_snoc d p pr es e :
  traffic d p pr (es ++ [e]) =
  traffic d p pr es ++
    if registered p es then (filter (λ x, x.1 = d) (traffic_of p pr e)).*2 else [].
Proof.
  unfold traffic. rewrite all_traffic_snoc, filter_app, fmap_app. by destruct (registered p es).
Qed.

Lemma since_traffic_snoc p pr es e :
  since_traffic p pr (es ++ [e]) =
  if decide (flat_map (traffic_of p pr) es = []) then [] else since_traffic p pr es ++ [e].
Proof.
  induction es as [|e' es IH]; simpl.
  - by case_decide.
  - destruct (decide (traffic_of p pr e' = [])) as [He|He].
    + rewrite IH, He. simpl. done.
    + rewrite decide_False; [done|]. intros [? _]%app_nil. done.
Qed.

Lemma since_traffic_none p pr es :
  flat_map (traffic_of p pr) es = [] → since_traffic p pr es = [].
Proof.
  induction es as [|e es IH]; [done|]. simpl. intros [He Hes]%app_nil.
  rewrite decide_True by done. auto.
Qed.

Lemma expected_entry_new p pr es :
  all_traffic p pr es = [] → expected_entry p pr es = MessageHeuristics_new.
Proof.
  intros Hn. unfold expected_entry, traffic. rewrite Hn, since_traffic_none by done. done.
Qed.

(** The entry [or_insert] works on is the expected one. *)
Lemma or_insert_expected p pr es :
  default MessageHeuristics_new (expected_protocol p pr es) = expected_entry p pr es.
Proof.
  unfold expected_protocol. case_decide; [|done]. by rewrite expected_entry_new.
Qed.

Lemma protocol_interfaces_snoc p pr es e :
  registered p es = true →
  mh_interfaces (expected_entry p pr (es ++ [e])) =
  if decide (all_traffic p pr es = []) then ∅
  else toggle_protocol p pr (mh_interfaces (expected_entry p pr es)) e.
Proof.
  intros Hr. simpl. rewrite since_registered_snoc, Hr, since_traffic_snoc.
  unfold all_traffic. case_decide; [done|]. by rewrite fold_left_app.
Qed.

(** Nothing changes for a protocol the event is not about. *)
Lemma expected_protocol_frame p pr es e :
  registered p es = true → traffic_of p pr e = [] → (∀ s, toggle_protocol p pr s e = s) →
  expected_protocol p pr (es ++ [e]) = expected_protocol p pr es.
Proof.
  intros Hr Ht Htog. unfold expected_protocol. rewrite all_traffic_snoc, Hr, Ht, app_nil_r.
  case_decide as Hn; [done|]. f_equal.
  pose proof (protocol_interfaces_snoc p pr es e Hr) as Hi.
  rewrite decide_False, Htog in Hi by done. simpl in Hi. unfold expected_entry.
  rewrite !traffic_snoc, Hr, Ht. simpl. rewrite !app_nil_r. by rewrite Hi.
Qed.

(** Nothing changes for a peer the event is not about. *)
Lemma describes_peer_frame p o es e :
  registers p e = false → (∀ pr, traffic_of p pr e = []) →
  (∀ s, toggle_peer p s e = s) → (∀ pr s, toggle_protocol p pr s e = s) →
  describes_peer p o es → describes_peer p o (es ++ [e]).
Proof.
  intros Hr Ht Hp Hpr. unfold describes_peer. rewrite registered_snoc, Hr, orb_false_r.
  destruct o as [ph|]; [|done]. intros (Hreg & Hi & Hprot). split_and!; [done| |].
  - by rewrite fold_left_app, Hi; simpl; rewrite Hp.
  - intros pr. rewrite expected_protocol_frame; auto.
Qed.

Lemma traffic_sizes d p pr es :
  Forall size_ok es → Forall (λ x, 0 ≤ x.2) (traffic d p pr es).
Proof.
  induction es as [|e es IH] using rev_ind; intros Hok; [constructor|].
  apply Forall_app in Hok as [Hok He]. apply Forall_cons in He as [He _].
  rewrite traffic_snoc. apply Forall_app. split; [auto|]. destruct (registered p es); [|constructor].
  apply Forall_fmap, Forall_forall. intros [d' [h sz]] [_ Hx]%list_elem_of_filter.
  apply list_elem_of_In in Hx. destruct e; simpl in *; try done.
  - case_decide; set_solver.
  - apply in_flat_map in Hx as (p' & _ & Hx). case_decide; set_solver.
Qed.

Lemma protocol_interfaces_message p pr es e :
  registered p es = true → (∀ s, toggle_protocol p pr s e = s) →
  mh_interfaces (expected_entry p pr (es ++ [e])) = mh_interfaces (expected_entry p pr es).
Proof.
  intros Hr Htog. rewrite protocol_interfaces_snoc by done. case_decide as Hn; [|apply Htog].
  by rewrite expected_entry_new.
Qed.

(** An event that reports a message is about no interface. *)
Definition is_message e : Prop :=
  match e with HMessageReceived _ _ _ _ _ | HMessageSent _ _ _ _ _ => True | _ => False end.

Lemma message_toggles e :
  is_message e →
  (∀ p, registers p e = false) ∧ (∀ p s, toggle_peer p s e = s) ∧
  (∀ p pr s, toggle_protocol p pr s e = s).
Proof. by destruct e. Qed.

(** One more message of [p] over [pr]: the peer's entry is again as expected,
    unless one of the two totals does not fit any more. *)
Definition message_step d p pr s es e (m : outcome PeerHeuristics) : Prop :=
  (bytes (traffic d p pr es) + s ≤ usize_max ∧
   Z.of_nat (length (traffic d p pr es)) + 1 ≤ usize_max ∧
   ∃ ph', m = Done ph' ∧ describes_peer p (Some ph') (es ++ [e])) ∨
  (¬ (bytes (traffic d p pr es) + s ≤ usize_max ∧
      Z.of_nat (length (traffic d p pr es)) + 1 ≤ usize_max) ∧ ∃ why, m = Panicked why).

Lemma describes_message p pr h s d es e ph m :
  describes_peer p (Some ph) es → is_message e →
  (∀ pr', traffic_of p pr' e = if decide (pr = pr') then [(d, (h, s))] else []) →
  expected_entry p pr (es ++ [e]) = m →
  describes_peer p (Some {| ph_interfaces := ph_interfaces ph;
                            protocols := <[pr := m]> (protocols ph) |}) (es ++ [e]).
Proof.
  intros (Hr & Hi & Hp) Hm Ht He. destruct (message_toggles e Hm) as (Htr & Htp & Htpr).
  unfold describes_peer. rewrite registered_snoc, Hr, Htr. split_and!; [done| |].
  - by rewrite fold_left_app; simpl; rewrite Htp.
  - intros pr'. simpl. destruct (decide (pr = pr')) as [<-|Hne].
    + rewrite lookup_insert_eq. unfold expected_protocol.
      rewrite all_traffic_snoc, Hr, Ht, (decide_True (P := pr = pr)) by done.
      rewrite decide_False; [by rewrite He|]. by intros [_ ?]%app_nil.
    + rewrite lookup_insert_ne by done. rewrite Hp, expected_protocol_frame; auto.
      by rewrite Ht, decide_False.
Qed.

(** The three additions of [register_message_*]. *)
Lemma add_message (l : list (Z * Z)) h s {B} (f : Z → Z → Z → B) :
  Forall (λ x, 0 ≤ x.2) l → 0 ≤ s →
  (bs ← usize_add (bytes l) s; n ← usize_add (Z.of_nat (length l)) 1;
   r ← (if decide (h ∈ hashes l) then usize_add (redundant l) s else mret (redundant l));
   mret (f bs n r)) =
  if decide (bytes l + s ≤ usize_max ∧ Z.of_nat (length l) + 1 ≤ usize_max)
  then Done (f (bytes (l ++ [(h, s)])) (Z.of_nat (length (l ++ [(h, s)])))
               (redundant (l ++ [(h, s)])))
  else Panicked ArithmeticOverflow.
Proof.
  intros Hl Hs. pose proof (redundant_le l Hl). unfold usize_add, u64_add. fold usize_max.
  rewrite redundant_snoc, bytes_app, length_app.
  assert (bytes [(h, s)] = s) as -> by (simpl; lia).
  replace (Z.of_nat (length l + length [(h, s)])) with (Z.of_nat (length l) + 1) by (simpl; lia).
  destruct (Z.leb_spec (bytes l + s) usize_max); simpl;
    [|rewrite decide_False by lia; done].
  destruct (Z.leb_spec (Z.of_nat (length l) + 1) usize_max); simpl;
    [|rewrite decide_False by lia; done].
  rewrite (decide_True (P := _ ∧ _)) by lia. case_decide; simpl.
  - rewrite (proj2 (Z.leb_le _ _)) by lia. done.
  - by rewrite Z.add_0_r.
Qed.

Section message_steps.
Context (p : PeerId) (pr : Protocol) (h s : Z) (es : list HeuristicsEvent)
  (e : HeuristicsEvent) (ph : PeerHeuristics).
Context (Hd : describes_peer p (Some ph) es) (Hm : is_message e) (Hs : 0 ≤ s)
  (Hok : Forall size_ok es).

Lemma register_message_received_step :
  (∀ pr', traffic_of p pr' e = if decide (pr = pr') then [(Received, (h, s))] else []) →
  message_step Received p pr s es e (register_message_received pr h s ph).
Proof.
  intros Ht. pose proof Hd as (Hr & _ & Hp). unfold message_step, register_message_received.
  rewrite Hp, or_insert_expected.
  cbn [total_bytes_received total_messages_received redundant_bytes_received
    unique_messages_received expected_entry].
  rewrite (add_message (traffic Received p pr es) h s) by auto using traffic_sizes.
  case_decide; [left|right; eauto].
  split_and!; try tauto. eexists; split; [done|]. eapply describes_message; [done..|].
  pose proof (protocol_interfaces_message p pr es e Hr
    (proj2 (proj2 (message_toggles e Hm)) p pr)) as Hi. simpl in Hi.
  unfold expected_entry at 1.
  rewrite Hi, !traffic_snoc, Hr, Ht, (decide_True (P := pr = pr)) by done.
  simpl. by rewrite app_nil_r, !hashes_snoc.
Qed.

Lemma register_message_sent_step :
  (∀ pr', traffic_of p pr' e = if decide (pr = pr') then [(Sent, (h, s))] else []) →
  message_step Sent p pr s es e (register_message_sent pr h s ph).
Proof.
  intros Ht. pose proof Hd as (Hr & _ & Hp). unfold message_step, register_message_sent.
  rewrite Hp, or_insert_expected.
  cbn [total_bytes_sent total_messages_sent redundant_bytes_sent
    unique_messages_sent expected_entry].
  rewrite (add_message (traffic Sent p pr es) h s) by auto using traffic_sizes.
  case_decide; [left|right; eauto].
  split_and!; try tauto. eexists; split; [done|]. eapply describes_message; [done..|].
  pose proof (protocol_interfaces_message p pr es e Hr
    (proj2 (proj2 (message_toggles e Hm)) p pr)) as Hi. simpl in Hi.
  unfold expected_entry at 1.
  rewrite Hi, !traffic_snoc, Hr, Ht, (decide_True (P := pr = pr)) by done.
  simpl. by rewrite app_nil_r, !hashes_snoc.
Qed.

End message_steps.

(** ** One event *)

(** The peer an event is about. A message sent to several peers stands for
    one event for each of them, [unicast]. *)
Definition subject e : option PeerId :=
  match e with
  | HRegisterPeer _ p | HUnregisterPeer _ p | HMessageReceived _ _ p _ _
  | HOpenProtocol _ p _ | HCloseProtocol _ p _ | HMessageSent _ _ [p] _ _ => Some p
  | _ => None
  end.

Definition unicast e : list HeuristicsEvent :=
  match e with
  | HMessageSent i pr ps h s => (λ p, HMessageSent i pr [p] h s) <$> ps
  | _ => [e]
  end.

Definition is_unicast e : Prop :=
  match e with HMessageSent _ _ ps _ _ => ∃ p, ps = [p] | _ => True end.

Lemma not_subject p e :
  is_unicast e → subject e ≠ Some p →
  registers p e = false ∧ (∀ pr, traffic_of p pr e = []) ∧
  (∀ s, toggle_peer p s e = s) ∧ (∀ pr s, toggle_protocol p pr s e = s).
Proof.
  destruct e as [| | |i p'|i p'|i pr' p'|i pr' ps|i p' pr'|i p' pr']; simpl; intros Hu Hs;
    [..|destruct Hu as [p' ->]| |];
    split_and!; intros; simpl; repeat case_decide; try case_bool_decide; naive_solver.
Qed.

Lemma describes_peer_other p o es e :
  is_unicast e → subject e ≠ Some p → describes_peer p o es → describes_peer p o (es ++ [e]).
Proof.
  intros Hu Hs. destruct (not_subject p e Hu Hs) as (?&?&?&?). by apply describes_peer_frame.
Qed.

(** The traffic of everybody else stays as it is. *)
Lemma fits_other es e :
  fits es → (∀ p pr, registered p es = true → traffic_of p pr e = []) → fits (es ++ [e]).
Proof.
  intros Hf Ht d p pr. rewrite traffic_snoc. destruct (registered p es) eqn:Hr.
  - rewrite Ht by done. simpl. rewrite app_nil_r. apply Hf.
  - rewrite app_nil_r. apply Hf.
Qed.

(** One more message fits exactly when the two totals it adds to do. *)
Lemma fits_message d p pr h s es e :
  registered p es = true → fits es → is_unicast e → subject e = Some p →
  (∀ pr', traffic_of p pr' e = if decide (pr = pr') then [(d, (h, s))] else []) →
  fits (es ++ [e]) ↔ bytes (traffic d p pr es) + s ≤ usize_max ∧
                     Z.of_nat (length (traffic d p pr es)) + 1 ≤ usize_max.
Proof.
  intros Hr Hf Hu Hs Ht.
  assert (traffic d p pr (es ++ [e]) = traffic d p pr es ++ [(h, s)]) as Hsnoc.
  { by rewrite traffic_snoc, Hr, Ht, decide_True, filter_cons_True by done. }
  split.
  - intros Hf'. specialize (Hf' d p pr). rewrite Hsnoc, bytes_app, length_app in Hf'.
    simpl in Hf'. lia.
  - intros Hb d' p' pr'. destruct (decide ((d', p', pr') = (d, p, pr))) as [Heq|Hne].
    + simplify_eq. rewrite Hsnoc, bytes_app, length_app. simpl. lia.
    + rewrite traffic_snoc. enough (filter (λ x, x.1 = d') (traffic_of p' pr' e) = []) as ->.
      { destruct (registered p' es); simpl; rewrite app_nil_r; apply Hf. }
      destruct (decide (p' = p)) as [->|Hp].
      * rewrite Ht. case_decide; [|done]. rewrite filter_cons_False; [done|]. naive_solver.
      * destruct (not_subject p' e Hu) as (_ & -> & _); [congruence|done].
Qed.

(** What handling an event must achieve after the log [es]. *)
Definition step_ok (m : outcome (gmap PeerId PeerHeuristics)) es e : Prop :=
  match m with
  | Done peers' => describes peers' (es ++ [e]) ∧ fits (es ++ [e])
  | Panicked _ => ¬ fits (es ++ [e])
  end.

(** Putting back the entry of the subject of an event. *)
Lemma describes_insert peers es e p ph :
  is_unicast e → subject e = Some p → describes peers es →
  describes_peer p (Some ph) (es ++ [e]) → describes (<[p:=ph]> peers) (es ++ [e]).
Proof.
  intros Hu Hs Hd Hp p'. destruct (decide (p' = p)) as [->|Hne].
  - by rewrite lookup_insert_eq.
  - rewrite lookup_insert_ne by done. apply describes_peer_other; [done|congruence|apply Hd].
Qed.

(** An event about an unknown peer, other than its registration. *)
Lemma describes_unknown peers es e p :
  is_unicast e → subject e = Some p → registers p e = false →
  describes peers es → peers !! p = None → describes peers (es ++ [e]).
Proof.
  intros Hu Hs Hr Hd Hp p'. destruct (decide (p' = p)) as [->|Hne].
  - specialize (Hd p). rewrite Hp in *. simpl in *. by rewrite registered_snoc, Hd, Hr.
  - apply describes_peer_other; [done|congruence|apply Hd].
Qed.

Lemma unknown_not_registered peers es p :
  describes peers es → peers !! p = None → registered p es = false.
Proof. intros Hd Hp. specialize (Hd p). by rewrite Hp in Hd. Qed.

Lemma update_known_message d p pr h s es e peers f :
  describes peers es → fits es → is_message e → is_unicast e → subject e = Some p →
  (∀ pr', traffic_of p pr' e = if decide (pr = pr') then [(d, (h, s))] else []) →
  (∀ ph, describes_peer p (Some ph) es → message_step d p pr s es e (f ph)) →
  step_ok (update_known p f peers) es e.
Proof.
  intros Hd Hf Hm Hu Hs Ht Hstep. unfold update_known.
  destruct (message_toggles e Hm) as (Hreg & _ & _).
  destruct (peers !! p) as [ph|] eqn:Hp; simpl.
  - pose proof (Hd p) as Hdp. rewrite Hp in Hdp. pose proof Hdp as [Hr _].
    pose proof (fits_message d p pr h s es e Hr Hf Hu Hs Ht) as Hfit.
    destruct (Hstep ph Hdp) as [(? & ? & ph' & -> & Hdp')|[Hno [why ->]]]; simpl; [|tauto].
    split; [|tauto]. by apply describes_insert.
  - split; [by eapply describes_unknown|]. apply fits_other; [done|]. intros p' pr' Hr.
    apply not_subject; [done|]. pose proof (unknown_not_registered peers es p Hd Hp). congruence.
Qed.

Lemma update_known_quiet p es e peers g :
  describes peers es → fits es → (∀ p pr, traffic_of p pr e = []) →
  is_unicast e → subject e = Some p → registers p e = false →
  (∀ ph, describes_peer p (Some ph) es → describes_peer p (Some (g ph)) (es ++ [e])) →
  step_ok (update_known p (λ ph, mret (g ph)) peers) es e.
Proof.
  intros Hd Hf Ht Hu Hs Hreg Hstep. unfold update_known.
  destruct (peers !! p) as [ph|] eqn:Hp; simpl.
  - split; [|by apply fits_other]. apply describes_insert; [done..|].
    apply Hstep. rewrite <- Hp. apply Hd.
  - split; [by eapply describes_unknown|by apply fits_other].
Qed.

(** Opening or closing a protocol. *)
Lemma describes_toggle_protocol p pr f es e ph :
  registers p e = false → (∀ pr', traffic_of p pr' e = []) → (∀ s, toggle_peer p s e = s) →
  (∀ pr' s, toggle_protocol p pr' s e = if decide (pr = pr') then f s else s) →
  describes_peer p (Some ph) es →
  describes_peer p (Some (with_protocol_interfaces pr f ph)) (es ++ [e]).
Proof.
  intros Hreg Ht Htp Htog (Hr & Hi & Hp). unfold describes_peer.
  rewrite registered_snoc, Hr, fold_left_app. simpl. rewrite Htp.
  unfold with_protocol_interfaces. rewrite (Hp pr).
  assert (∀ pr', pr ≠ pr' → expected_protocol p pr' (es ++ [e]) = expected_protocol p pr' es)
    as Hframe.
  { intros pr' Hne. apply expected_protocol_frame; auto. intros s'. by rewrite Htog, decide_False. }
  destruct (expected_protocol p pr es) as [m|] eqn:Hm; unfold expected_protocol in Hm;
    case_decide as Hn; simplify_eq; swap 1 2.
  - split_and!; [done..|]. intros pr'. rewrite Hp. destruct (decide (pr = pr')) as [<-|Hne].
    + unfold expected_protocol. by rewrite all_traffic_snoc, Hn, Ht, Hr.
    + by rewrite Hframe.
  - split_and!; [done..|]. intros pr'. simpl. destruct (decide (pr = pr')) as [<-|Hne].
    + rewrite lookup_insert_eq. unfold expected_protocol.
      rewrite all_traffic_snoc, Ht, Hr, app_nil_r, decide_False by done. f_equal.
      pose proof (protocol_interfaces_snoc p pr es e Hr) as Hpi.
      rewrite decide_False, Htog, decide_True in Hpi by done. simpl in Hpi. rewrite <- Hpi.
      unfold expected_entry. rewrite !traffic_snoc, Hr, Ht. simpl. by rewrite !app_nil_r.
    + by rewrite lookup_insert_ne, Hp, Hframe.
Qed.

(** Registering a peer, known or not, and unregistering it. *)
Lemma describes_toggle_peer p f es e ph :
  (∀ pr', traffic_of p pr' e = []) → (∀ s, toggle_peer p s e = f s) →
  (∀ pr' s, toggle_protocol p pr' s e = s) →
  registered p (es ++ [e]) = true →
  describes_peer p (Some ph) es ∨
    registered p es = false ∧ ph = PeerHeuristics_default ∧ fold_left (toggle_peer p) es ∅ = ∅ →
  describes_peer p (Some (with_ph_interfaces f ph)) (es ++ [e]).
Proof.
  intros Ht Htp Htpr Hreg Hcase. unfold describes_peer. rewrite fold_left_app. simpl.
  rewrite Htp. destruct Hcase as [(Hr & Hi & Hp)|(Hr & -> & Hi)]; split_and!; try done.
  - by rewrite Hi.
  - intros pr. rewrite Hp, expected_protocol_frame; auto.
  - by rewrite Hi.
  - intros pr. simpl. rewrite lookup_empty. unfold expected_protocol.
    rewrite all_traffic_snoc, Hr. unfold all_traffic. by rewrite since_registered_none.
Qed.

Lemma not_registered_no_interfaces p es :
  registered p es = false → fold_left (toggle_peer p) es ∅ = ∅.
Proof.
  induction es as [|e es IH] using rev_ind; [done|]. rewrite registered_snoc, fold_left_app.
  intros [Hes He]%orb_false_iff. simpl. rewrite IH by done. destruct e; simpl; try done.
  - case_decide; [|done]. subst. simpl in He. by rewrite bool_decide_true in He.
  - case_decide; set_solver.
Qed.

Lemma handle_event_step peers es e :
  describes peers es → fits es → Forall size_ok es → size_ok e → is_unicast e →
  step_ok (handle_event peers e) es e.
Proof.
  intros Hd Hf Hok He Hu.
  destruct e as [i|i j|i j|i p|i p|i pr p h s|i pr ps h s|i p pr|i p pr]; simpl handle_event.
  1-3: split; [intros p; by apply describes_peer_other|by apply fits_other].
  - split; [|by apply fits_other]. apply describes_insert; [done..|].
    apply describes_toggle_peer; try done.
    + intros s. simpl. by rewrite decide_True.
    + rewrite registered_snoc. simpl. rewrite bool_decide_true by done. apply orb_true_r.
    + pose proof (Hd p) as Hdp. destruct (peers !! p); simpl; [by left|right].
      split_and!; [done..|]. by apply not_registered_no_interfaces.
  - apply update_known_quiet; try done. intros ph Hdp. apply describes_toggle_peer; try done.
    + intros s. simpl. by rewrite decide_True.
    + by rewrite registered_snoc, (proj1 Hdp).
    + by left.
  - assert (∀ pr', traffic_of p pr' (HMessageReceived i pr p h s) =
      if decide (pr = pr') then [(Received, (h, s))] else []) as Ht.
    { intros pr'. simpl. repeat case_decide; naive_solver. }
    eapply update_known_message; try done. intros ph Hdp.
    by apply register_message_received_step.
  - destruct Hu as [p ->]. simpl.
    assert (∀ pr', traffic_of p pr' (HMessageSent i pr [p] h s) =
      if decide (pr = pr') then [(Sent, (h, s))] else []) as Ht.
    { intros pr'. simpl. repeat case_decide; naive_solver. }
    assert (step_ok (update_known p (register_message_sent pr h s) peers) es
      (HMessageSent i pr [p] h s)) as Hstep.
    { eapply update_known_message; try done. { by exists p. } intros ph Hdp.
      by apply register_message_sent_step. }
    by destruct (update_known _ _ _).
  - apply update_known_quiet; try done. intros ph Hdp. apply describes_toggle_protocol; try done.
    intros pr' s. simpl. repeat case_decide; naive_solver.
  - apply update_known_quiet; try done. intros ph Hdp. apply describes_toggle_protocol; try done.
    intros pr' s. simpl. repeat case_decide; naive_solver.
Qed.

(** ** Sending to several peers is sending to one after the other *)
Lemma handle_event_unicast e peers :
  handle_event peers e = for_each handle_event (unicast e) peers.
Proof.
  assert (∀ m : outcome (gmap PeerId PeerHeuristics), (x ← m; mret x) = m) as Hid.
  { by intros []. }
  destruct e as [| | | | | |i pr ps h s| |]; try (symmetry; apply Hid). simpl.
  revert peers; induction ps as [|p ps IH]; intros peers; [done|]. simpl.
  rewrite (Hid (update_known _ _ _)). destruct (update_known _ _ _); simpl; [apply IH|done].
Qed.

Lemma run_unicast es peers :
  for_each handle_event es peers = for_each handle_event (flat_map unicast es) peers.
Proof.
  revert peers; induction es as [|e es IH]; intros peers; [done|]. simpl.
  rewrite for_each_app, <- handle_event_unicast. destruct (handle_event _ _); simpl; auto.
Qed.

Lemma unicast_ok e : Forall is_unicast (unicast e) ∧ (size_ok e → Forall size_ok (unicast e)).
Proof.
  destruct e; simpl; try (split; [|intros ?]; by repeat constructor).
  split; intros; apply Forall_fmap, Forall_forall; simpl; eauto.
Qed.

Lemma flat_map_unicast_ok es :
  Forall size_ok es →
  Forall is_unicast (flat_map unicast es) ∧ Forall size_ok (flat_map unicast es).
Proof.
  induction 1 as [|e es He Hes [IH1 IH2]]; [done|]. destruct (unicast_ok e).
  split; apply Forall_app; auto.
Qed.

Lemma since_registered_app_quiet p es es' :
  existsb (registers p) es = false → since_registered p (es ++ es') = since_registered p es'.
Proof.
  induction es as [|e es IH]; [done|]. simpl. intros [He Hes]%orb_false_iff.
  destruct e as [| | |i p'| | | | |]; auto. apply bool_decide_eq_false in He.
  rewrite decide_False; auto.
Qed.

Lemma unicast_registers p e : existsb (registers p) (unicast e) = registers p e.
Proof.
  destruct e as [| | | | | |i pr ps h s| |]; simpl; try (by rewrite ?orb_false_r).
  by induction ps.
Qed.

Lemma registered_unicast p es : registered p (flat_map unicast es) = registered p es.
Proof.
  unfold registered. induction es as [|e es IH]; [done|]. simpl.
  by rewrite existsb_app, unicast_registers, IH.
Qed.

Lemma since_registered_unicast p es :
  since_registered p (flat_map unicast es) = flat_map unicast (since_registered p es).
Proof.
  induction es as [|e es IH]; [done|]. destruct (registers p e) eqn:He.
  - destruct e as [| | |i p'| | | | |]; try done. apply bool_decide_eq_true in He.
    simpl. by rewrite !decide_True.
  - simpl flat_map. rewrite since_registered_app_quiet, IH by by rewrite unicast_registers.
    destruct e as [| | |i p'| | | | |]; try done. apply bool_decide_eq_false in He.
    simpl. by rewrite decide_False.
Qed.

Lemma traffic_unicast p pr es :
  flat_map (traffic_of p pr) (flat_map unicast es) = flat_map (traffic_of p pr) es.
Proof.
  induction es as [|e es IH]; [done|]. simpl. rewrite flat_map_app, IH. f_equal.
  destruct e as [| | | | | |i pr' ps h s| |]; simpl; try (by rewrite ?app_nil_r).
  induction ps as [|p' ps IHps]; [done|]. simpl. rewrite app_nil_r. apply (f_equal (app _)), IHps.
Qed.

Lemma all_traffic_unicast p pr es : all_traffic p pr (flat_map unicast es) = all_traffic p pr es.
Proof. unfold all_traffic. by rewrite since_registered_unicast, traffic_unicast. Qed.

(** Messages do not move an interface. *)
Lemma toggles_unicast {S} (f : S → HeuristicsEvent → S) e l s :
  (∀ e s, is_message e → f s e = s) → fold_left f (unicast e ++ l) s = fold_left f (e :: l) s.
Proof.
  intros Hf. destruct e as [| | | | | |i pr ps h sz| |]; try done. simpl.
  rewrite (Hf (HMessageSent i pr ps h sz)) by done.
  revert s; induction ps as [|p ps IH]; intros s; [done|]. simpl. by rewrite Hf.
Qed.

Lemma peer_interfaces_unicast p es s :
  fold_left (toggle_peer p) (flat_map unicast es) s = fold_left (toggle_peer p) es s.
Proof.
  revert s; induction es as [|e es IH]; intros s; [done|]. simpl flat_map.
  rewrite toggles_unicast; [apply IH|]. intros; by apply message_toggles.
Qed.

Lemma open_interfaces_unicast p pr es s :
  fold_left (toggle_protocol p pr) (flat_map unicast es) s = fold_left (toggle_protocol p pr) es s.
Proof.
  revert s; induction es as [|e es IH]; intros s; [done|]. simpl flat_map.
  rewrite toggles_unicast; [apply IH|]. intros; by apply message_toggles.
Qed.

Lemma protocol_interfaces_unicast p pr es s :
  fold_left (toggle_protocol p pr) (since_traffic p pr (flat_map unicast es)) s =
  fold_left (toggle_protocol p pr) (since_traffic p pr es) s.
Proof.
  induction es as [|e es IH]; [done|]. simpl flat_map.
  assert (unicast e = [e] ∨ ∃ i pr' ps h sz, e = HMessageSent i pr' ps h sz)
    as [->|(i & pr' & ps & h & sz & ->)] by (destruct e; eauto 10).
  { cbn [app since_traffic]. by destruct (decide (traffic_of p pr e = []));
      [|apply open_interfaces_unicast]. }
  assert (∀ ps', fold_left (toggle_protocol p pr)
      (((λ p, HMessageSent i pr' [p] h sz) <$> ps') ++ flat_map unicast es) s =
      fold_left (toggle_protocol p pr) es s) as Hrest.
  { intros ps'. rewrite <- (open_interfaces_unicast p pr es).
    refine (toggles_unicast (toggle_protocol p pr) (HMessageSent i pr' ps' h sz)
      (flat_map unicast es) s _). intros; by apply message_toggles. }
  induction ps as [|p' ps IHps]; [exact IH|].
  simpl in IHps |- *. destruct (decide (p' = p ∧ pr' = pr)) as [Hp|Hp]; simpl.
  - apply Hrest.
  - exact IHps.
Qed.

Lemma describes_unicast peers es :
  describes peers (flat_map unicast es) → describes peers es.
Proof.
  intros Hd p. specialize (Hd p). unfold describes_peer in *.
  rewrite registered_unicast in Hd. destruct (peers !! p) as [ph|]; [|done].
  destruct Hd as (Hr & Hi & Hp). rewrite peer_interfaces_unicast in Hi. split_and!; [done..|].
  intros pr. rewrite Hp. unfold expected_protocol. rewrite all_traffic_unicast. case_decide; [done|].
  unfold expected_entry, traffic. rewrite all_traffic_unicast, since_registered_unicast.
  by rewrite protocol_interfaces_unicast.
Qed.

Lemma fits_unicast es : fits (flat_map unicast es) ↔ fits es.
Proof. unfold fits, traffic. by setoid_rewrite all_traffic_unicast. Qed.

(** A log that fits had fitting prefixes. *)
Lemma fits_prefix es es' : Forall size_ok (es ++ es') → fits (es ++ es') → fits es.
Proof.
  induction es' as [|e es' IH] using rev_ind; rewrite ?app_nil_r; [done|].
  rewrite (assoc_L (++)). intros [Hok He]%Forall_app Hf. apply IH; [done|]. intros d p pr.
  pose proof (Hf d p pr) as Hb. pose proof (traffic_sizes d p pr ((es ++ es') ++ [e])) as Hs.
  rewrite traffic_snoc in Hb, Hs. rewrite bytes_app, length_app in Hb.
  apply Forall_app in Hs as [_ Hs]; [|by apply Forall_app].
  apply bytes_nonneg in Hs. lia.
Qed.

(** Handling a whole log, from the state described by [pre]. *)
Lemma handle_events_unicast es pre peers :
  describes peers pre → fits pre → Forall size_ok (pre ++ es) → Forall is_unicast es →
  match for_each handle_event es peers with
  | Done peers' => describes peers' (pre ++ es) ∧ fits (pre ++ es)
  | Panicked _ => ¬ fits (pre ++ es)
  end.
Proof.
  revert pre peers; induction es as [|e es IH]; intros pre peers Hd Hf Hok Hu; simpl.
  - by rewrite app_nil_r.
  - apply Forall_cons in Hu as [Hue Hu]. pose proof Hok as [Hpre Hes]%Forall_app.
    apply Forall_cons in Hes as [He Hes].
    pose proof (handle_event_step peers pre e Hd Hf Hpre He Hue) as Hstep.
    replace (pre ++ e :: es) with ((pre ++ [e]) ++ es) in * by by rewrite <- (assoc_L (++)).
    destruct (handle_event peers e) as [peers'|why]; simpl.
    + destruct Hstep. apply IH; auto.
    + intros Hfit. by apply Hstep, (fits_prefix _ es).
Qed.

Lemma handle_events_ok es :
  Forall size_ok es →
  match for_each handle_event es ∅ with
  | Done peers => describes peers es ∧ fits es
  | Panicked _ => ¬ fits es
  end.
Proof.
  intros Hok. destruct (flat_map_unicast_ok es Hok) as [Hu Hok'].
  assert (describes ∅ []) as Hd by (intros p; by rewrite lookup_empty).
  assert (fits []) as Hf by done.
  pose proof (handle_events_unicast (flat_map unicast es) [] ∅ Hd Hf Hok' Hu) as Hrun.
  rewrite <- run_unicast in Hrun. simpl in Hrun.
  destruct (for_each handle_event es ∅) as [peers|why]; rewrite fits_unicast in Hrun; [|done].
  destruct Hrun. auto using describes_unicast.
Qed.

(** C33: The counters the front-end shows are exact. After any sequence of
    events whose messages have a size, starting from no peers, either every
    counter fits its [usize] and the backend holds one entry per registered
    peer, with the interfaces it is registered on and, per protocol with traffic
    since the first registration, the byte and message totals of both
    directions, the bytes spent on messages whose hash was met before, the sets
    of hashes, and the interfaces that opened the protocol after its first
    message and have not closed it since (an opening before the first message of
    the protocol leaves no trace, see [opened_before_traffic_is_lost]); or some
    total exceeds the machine word, and only then the backend panics. *)
Theorem heuristics_account_for_traffic (es : list HeuristicsEvent) :
  Forall size_ok es →
  match for_each handle_event es ∅ with
  | Done peers => describes peers es ∧ fits es
  | Panicked _ => ¬ fits es
  end.
Proof. apply handle_events_ok. Qed.

(** ** The event loop *)
Section loop.
Context (to_json : gmap PeerId PeerHeuristics → option string).

(** The clock does not go backwards: a wakeup is checked after the previous
    one was dealt with. *)
Fixpoint monotone (t : Instant) (ws : list wakeup) : Prop :=
  match ws with
  | [] => True
  | w :: ws' => t ≤ checked w ∧ checked w ≤ restarted w ∧ monotone (restarted w) ws'
  end.

Definition events (ws : list wakeup) : list HeuristicsEvent := omap received ws.

(** A snapshot: the peers as they were after some of the events. *)
Definition snapshot es (json : string) : Prop :=
  ∃ n peers, for_each handle_event (take n es) ∅ = Done peers ∧ to_json peers = Some json.

Record loop_inv (t0 t : Instant) es (hb : HeuristicsBackend) : Prop := {
  li_peers : for_each handle_event es ∅ = Done (hb_peers hb);
  li_rate : from_secs UPDATE_INTERVAL * Z.of_nat (length (ws_tx hb)) ≤ last_update hb - t0;
  li_fresh : last_update hb ≤ t;
  li_snapshots : Forall (snapshot es) (ws_tx hb);
}.

Lemma as_secs_le (d : Duration) n : n <=? as_secs d = true ↔ from_secs n ≤ d.
Proof.
  unfold as_secs, from_secs. rewrite Z.leb_le. split; intros.
  - pose proof (Z.mul_div_le d 1000000000). lia.
  - apply Z.div_le_lower_bound; lia.
Qed.

Lemma snapshot_more es es' json : snapshot es json → snapshot (es ++ es') json.
Proof.
  intros (n & peers & Hrun & Hj). exists (n `min` length es)%nat, peers. split; [|done].
  rewrite <- Hrun, take_app_le by lia. f_equal. rewrite <- take_take. by rewrite (take_ge es).
Qed.

(** One iteration, when the event it handles fits. *)
Lemma run_iteration_inv t0 t es hb w :
  (∀ m, is_Some (to_json m)) → Forall size_ok (es ++ events [w]) → fits (es ++ events [w]) →
  loop_inv t0 t es hb → t ≤ checked w → checked w ≤ restarted w →
  runs (run_iteration to_json hb w) (λ hb',
    loop_inv t0 (restarted w) (es ++ events [w]) hb' ∧
    checked w - last_update hb' < from_secs UPDATE_INTERVAL).
Proof.
  intros Hjson Hok Hfit [Hp Hrate Hfresh Hsnap] Ht Hw. unfold run_iteration.
  pose proof (handle_events_ok _ Hok) as Hrun. rewrite for_each_app, Hp in Hrun. simpl in Hrun.
  assert (∃ peers, for_each handle_event (es ++ events [w]) ∅ = Done peers ∧
    match received w with
    | Some event => handle_event (hb_peers hb) event | None => mret (hb_peers hb)
    end = Done peers) as (peers & Hpeers & ->).
  { rewrite for_each_app, Hp. unfold events in *. simpl in *.
    destruct (received w) as [e|]; simpl in *; [|by eexists].
    destruct (handle_event (hb_peers hb) e); simpl in *; [by eexists|done]. }
  clear Hrun. simpl. destruct (_ <=? _) eqn:Hle.
  - apply as_secs_le in Hle. destruct (Hjson peers) as [j Hj]. rewrite Hj. simpl.
    unfold instant_sub in Hle. split; [split; simpl|simpl].
    + done.
    + rewrite length_app. simpl. unfold UPDATE_INTERVAL, from_secs in *. lia.
    + done.
    + apply Forall_app. split; [eauto using Forall_impl, snapshot_more|].
      apply Forall_singleton. exists (length (es ++ events [w])), peers.
      by rewrite take_ge.
    + unfold UPDATE_INTERVAL, from_secs. lia.
  - assert (¬ from_secs UPDATE_INTERVAL ≤ instant_sub (checked w) (last_update hb)) as Hlt.
    { rewrite <- as_secs_le. by rewrite Hle. }
    simpl. unfold instant_sub in Hlt. split; [split; simpl; try done; [lia|]|lia].
    eauto using Forall_impl, snapshot_more.
Qed.

(** How stale the front-end is after the last iteration. *)
Definition up_to_date (ws : list wakeup) (hb : HeuristicsBackend) : Prop :=
  ∀ w, last ws = Some w → checked w - last_update hb < from_secs UPDATE_INTERVAL.

Lemma events_app ws ws' : events (ws ++ ws') = events ws ++ events ws'.
Proof. apply omap_app. Qed.

Lemma run_inv ws t0 t es hb :
  (∀ m, is_Some (to_json m)) → Forall size_ok (es ++ events ws) → fits (es ++ events ws) →
  monotone t ws → loop_inv t0 t es hb →
  runs (run to_json ws hb) (λ hb',
    (∃ t', loop_inv t0 t' (es ++ events ws) hb') ∧ up_to_date ws hb' ∧ (ws = [] → hb' = hb)).
Proof.
  intros Hjson. revert t es hb. induction ws as [|w ws IH]; intros t es hb Hok Hfit Hmono Hinv.
  { simpl. rewrite app_nil_r. split; [by exists t|done]. }
  destruct Hmono as (Ht & Hw & Hmono). unfold run. cbn [for_each]. apply runs_bind.
  assert (es ++ events (w :: ws) = (es ++ events [w]) ++ events ws) as Heq.
  { change (w :: ws) with ([w] ++ ws). by rewrite events_app, (assoc_L (++)). }
  rewrite Heq in Hok, Hfit. pose proof Hok as [Hok1 _]%Forall_app.
  eapply runs_mono; [eapply run_iteration_inv; try done; by eapply fits_prefix|].
  intros hb' [Hinv' Hstale]. eapply runs_mono; [by eapply IH|]. intros hb'' (Hfin & Hup & Hnil).
  split_and!; [by rewrite Heq| |by intros]. intros w' Hlast. destruct ws as [|w2 ws]; [|by apply Hup].
  simpl in Hlast. simplify_eq. by rewrite Hnil.
Qed.

(** The event loop: as long as the counters fit and the JSON printer
    succeeds, the loop never stops, whatever the interleaving of events and
    timer; it has handled every event received, in order; every update sent
    to the front-end is the state after some prefix of the events; there is
    at most one update per [UPDATE_INTERVAL] of time, and after an iteration
    the last update is less than one interval old. *)
Theorem heuristics_updates (t0 : Instant) (ws : list wakeup) :
  (∀ m, is_Some (to_json m)) → Forall size_ok (events ws) → fits (events ws) →
  monotone t0 ws →
  ∃ hb, run to_json ws (HeuristicsBackend_new t0) = Done hb ∧
    describes (hb_peers hb) (events ws) ∧
    Forall (snapshot (events ws)) (ws_tx hb) ∧
    from_secs UPDATE_INTERVAL * Z.of_nat (length (ws_tx hb)) ≤ last_update hb - t0 ∧
    up_to_date ws hb.
Proof.
  intros Hjson Hok Hfit Hmono.
  assert (loop_inv t0 t0 [] (HeuristicsBackend_new t0)) as Hinv.
  { split; simpl; [done|lia|lia|constructor]. }
  pose proof (run_inv ws t0 t0 [] _ Hjson Hok Hfit Hmono Hinv) as Hrun.
  apply runs_Done in Hrun as (hb & Hhb & [t' [Hp Hrate Hfresh Hsnap]] & Hup & _).
  exists hb. split_and!; try done. pose proof (handle_events_ok _ Hok) as Hev.
  simpl in Hp. rewrite Hp in Hev. by destruct Hev.
Qed.
End loop.
End spec.

(** ** Concrete logs *)
Section examples.
#[local] Existing Instance numbers_backend.

(** Peer 7 is registered on interface 1; message 42 of 10 bytes is received
    twice and forwarded to peers 7 and 8, of which 8 is unknown. *)
Definition example_log : list (HeuristicsEvent (H := numbers_backend)) :=
  [HRegisterPeer 1 7; HMessageReceived 1 0 7 42 10; HOpenProtocol 1 7 0;
   HMessageReceived 1 0 7 42 10; HMessageSent 1 0 [7; 8] 42 10].

Example heuristics_account_for_traffic_witness :
  match for_each handle_event example_log ∅ with
  | Done peers => describes peers example_log ∧ fits example_log
  | Panicked _ => ¬ fits example_log
  end ∧
  (peers ← for_each handle_event example_log ∅; ph ← expect (peers !! 7);
   m ← expect (protocols ph !! 0);
   mret (total_bytes_received m, redundant_bytes_received m, total_bytes_sent m,
         elements (mh_interfaces m))) = Done (20, 10, 10, [1]).
Proof.
  split.
  - apply (heuristics_account_for_traffic example_log). repeat constructor; simpl; lia.
  - vm_compute. reflexivity.
Defined.

(** The protocol was opened before its first message: no interface is listed,
    although it is open. *)
Example opened_before_traffic_is_lost :
  (peers ← for_each handle_event
     [HRegisterPeer 1 7; HOpenProtocol 1 7 0; HMessageReceived 1 0 7 42 10 : HeuristicsEvent (H := numbers_backend)] ∅;
   ph ← expect (peers !! 7); m ← expect (protocols ph !! 0); mret (elements (mh_interfaces m))) = Done [].
Proof. vm_compute. reflexivity. Qed.

Definition example_wakeups : list (wakeup (H := numbers_backend)) :=
  [mkWakeup (Some (HRegisterPeer 1 7)) 1000000000 1000000000;
   mkWakeup None 4000000000 4000000001;
   mkWakeup (Some (HMessageReceived 1 0 7 42 10)) 5000000000 5000000000].

Example heuristics_updates_witness :
  ∃ hb, run (λ _, Some "{}"%string) example_wakeups (HeuristicsBackend_new 0) = Done hb ∧
    describes (hb_peers hb) (events example_wakeups) ∧
    Forall (snapshot (λ _, Some "{}"%string) (events example_wakeups)) (ws_tx hb) ∧
    from_secs UPDATE_INTERVAL * Z.of_nat (length (ws_tx hb)) ≤ last_update hb - 0 ∧
    up_to_date example_wakeups hb.
Proof.
  apply (heuristics_updates (λ _, Some "{}"%string) 0 example_wakeups).
  - by intros.
  - repeat constructor; simpl; lia.
  - pose proof (handle_events_ok (events example_wakeups)) as Hok.
    vm_compute for_each in Hok. apply Hok. repeat constructor; simpl; lia.
  - vm_compute. intuition discriminate.
Defined.
End examples.
