(* ===== verification/Filter.v ===== *)
(** * The message filter

    Model of [filter/mod.rs]: the commands the overseer sends, the state of a
    [Filter], the processing of the events its executor produces, every
    handler and the event loop. The executor and the packet sinks are the
    traits of [Backend.v]; the calls made to the sinks are recorded in
    [sink_calls], with whether they succeeded. *)

From S2P Require Import Prelude Backend Heuristics.

Section filter.
Context `{HB : NetworkBackend} `{HE : !Executor} `{HS : !PacketSink} `{HO : !HashOrder PeerId}.

(** ** Data *)
Inductive FilterEvent := FConnect (interface : InterfaceId) (peer : PeerId).

Inductive FilterCommand :=
  | CRegisterPeer (peer : PeerId) (s : sink)
  | CDiscoverPeer (peer : PeerId)
  | CUnregisterPeer (peer : PeerId)
  | CProtocolOpened (peer : PeerId) (protocol : Protocol)
  | CProtocolClosed (peer : PeerId) (protocol : Protocol)
  | CInstallNotificationFilter (protocol : Protocol) (filter : string) (context : option string)
  | CInstallRequestResponseFilter (protocol : Protocol) (filter : string)
      (context : option string)
  | CInjectNotification (protocol : Protocol) (peer : PeerId) (notification : Message)
  | CInjectRequest (protocol : Protocol) (peer : PeerId) (request : Request)
  | CInjectResponse (protocol : Protocol) (peer : PeerId) (response : Response).

(** ** [FilterHandle]: the sending side of the command channel. *)
Definition FilterHandle := channel FilterCommand.

Definition fh_register_peer (p : PeerId) (s : sink) : FilterHandle → outcome FilterHandle :=
  send (CRegisterPeer p s).
Definition fh_discover_peer (p : PeerId) : FilterHandle → outcome FilterHandle :=
  send (CDiscoverPeer p).
Definition fh_unregister_peer (p : PeerId) : FilterHandle → outcome FilterHandle :=
  send (CUnregisterPeer p).
Definition fh_protocol_opened (p : PeerId) (pr : Protocol) : FilterHandle → outcome FilterHandle :=
  send (CProtocolOpened p pr).
Definition fh_protocol_closed (p : PeerId) (pr : Protocol) : FilterHandle → outcome FilterHandle :=
  send (CProtocolClosed p pr).
Definition fh_install_notification_filter (pr : Protocol) (code : string)
    (context : option string) : FilterHandle → outcome FilterHandle :=
  send (CInstallNotificationFilter pr code context).
Definition fh_install_request_response_filter (pr : Protocol) (code : string)
    (context : option string) : FilterHandle → outcome FilterHandle :=
  send (CInstallRequestResponseFilter pr code context).
Definition fh_inject_notification (pr : Protocol) (p : PeerId) (n : Message) :
    FilterHandle → outcome FilterHandle := send (CInjectNotification pr p n).
Definition fh_inject_request (pr : Protocol) (p : PeerId) (r : Request) :
    FilterHandle → outcome FilterHandle := send (CInjectRequest pr p r).
Definition fh_inject_response (pr : Protocol) (p : PeerId) (r : Response) :
    FilterHandle → outcome FilterHandle := send (CInjectResponse pr p r).

(** ** State *)
Record PeerInfo := mkPeerInfo {
  pi_sink : sink;
  pi_protocols : gset Protocol;
}.

Record Filter := mkFilter {
  executor : executor_state;
  interface : InterfaceId;
  event_tx : channel FilterEvent;
  peers : gmap PeerId PeerInfo;
  pending_inbound : gmap PeerId RequestId;
  heuristics_handle : HeuristicsHandle;
  poll_interval : Duration;
  (** The calls made so far to the sinks. *)
  sink_calls : list (PeerId * SinkCall * bool);
}.

Definition with_executor ex (f : Filter) : Filter :=
  {| executor := ex; interface := interface f; event_tx := event_tx f; peers := peers f;
     pending_inbound := pending_inbound f; heuristics_handle := heuristics_handle f;
     poll_interval := poll_interval f; sink_calls := sink_calls f |}.
Definition with_event_tx tx (f : Filter) : Filter :=
  {| executor := executor f; interface := interface f; event_tx := tx; peers := peers f;
     pending_inbound := pending_inbound f; heuristics_handle := heuristics_handle f;
     poll_interval := poll_interval f; sink_calls := sink_calls f |}.
Definition with_peers ps (f : Filter) : Filter :=
  {| executor := executor f; interface := interface f; event_tx := event_tx f; peers := ps;
     pending_inbound := pending_inbound f; heuristics_handle := heuristics_handle f;
     poll_interval := poll_interval f; sink_calls := sink_calls f |}.
Definition with_pending pi (f : Filter) : Filter :=
  {| executor := executor f; interface := interface f; event_tx := event_tx f; peers := peers f;
     pending_inbound := pi; heuristics_handle := heuristics_handle f;
     poll_interval := poll_interval f; sink_calls := sink_calls f |}.
Definition with_heuristics h (f : Filter) : Filter :=
  {| executor := executor f; interface := interface f; event_tx := event_tx f; peers := peers f;
     pending_inbound := pending_inbound f; heuristics_handle := h;
     poll_interval := poll_interval f; sink_calls := sink_calls f |}.
Definition with_calls cs (f : Filter) : Filter :=
  {| executor := executor f; interface := interface f; event_tx := event_tx f; peers := peers f;
     pending_inbound := pending_inbound f; heuristics_handle := heuristics_handle f;
     poll_interval := poll_interval f; sink_calls := cs |}.

Definition new (interface : InterfaceId) (filter : string) (poll_interval : Duration)
    (event_tx : channel FilterEvent) (heuristics_handle : HeuristicsHandle) :
    outcome (result (Filter * FilterHandle) Error) :=
  ex ← executor_new interface filter None;
  mret match ex with
  | Ok ex => Ok
      ({| executor := ex; interface := interface; event_tx := event_tx; peers := ∅;
          pending_inbound := ∅; heuristics_handle := heuristics_handle;
          poll_interval := poll_interval; sink_calls := [] |}, new_channel)
  | Err e => Err e
  end.

(** ** Processing the events of the executor *)

(** [info.sink.send_*(..).await]. *)
Definition call_sink (peer : PeerId) (info : PeerInfo) (call : SinkCall) (f : Filter) :
    Filter * result unit Error :=
  let r := sink_answer (sink_calls f) (pi_sink info) call in
  (with_calls (sink_calls f ++ [(peer, call, is_ok r)]) f, r).

(** Send a notification to a known peer and report it when it was sent. *)
Definition send_notification (protocol : Protocol) (notification : Message) (f : Filter)
    (entry : PeerId * PeerInfo) : outcome Filter :=
  let '(peer, info) := entry in
  let '(f, r) := call_sink peer info (SendPacket (Some protocol) notification) f in
  match r with
  | Ok _ =>
      h ← register_notification_sent (interface f) protocol [peer] notification
            (heuristics_handle f);
      mret (with_heuristics h f)
  | Err _ => mret f
  end.

Definition forward_to (protocol : Protocol) (notification : Message) (f : Filter)
    (peer : PeerId) : outcome Filter :=
  match peers f !! peer with
  | None => mret f
  | Some info => send_notification protocol notification f (peer, info)
  end.

Definition process_event (f : Filter) (event : ExecutorEvent) :
    outcome (Filter * result unit Error) :=
  match event with
  | EvConnect peer =>
      tx ← send (FConnect (interface f) peer) (event_tx f);
      mret (with_event_tx tx f, Ok tt)
  | EvForward ps protocol notification =>
      f ← for_each (forward_to protocol notification) ps f;
      mret (f, Ok tt)
  | EvSendRequest peer protocol payload =>
      match peers f !! peer with
      | None => mret (f, Err PeerDoesntExist)
      | Some info => mret ((call_sink peer info (SendRequest protocol payload) f).1, Ok tt)
      end
  | EvSendResponse peer payload =>
      match pending_inbound f !! peer with
      | Some request_id =>
          let f := with_pending (delete peer (pending_inbound f)) f in
          match peers f !! peer with
          | None => mret (f, Err PeerDoesntExist)
          | Some info => mret ((call_sink peer info (SendResponse request_id payload) f).1, Ok tt)
          end
      | None => mret (f, Ok tt)
      end
  end.

(** The loop stops at the first [?] that finds an error. *)
Fixpoint process_events (events : list ExecutorEvent) (f : Filter) :
    outcome (Filter * result unit Error) :=
  match events with
  | [] => mret (f, Ok tt)
  | event :: events =>
      '(f, r) ← process_event f event;
      match r with
      | Ok _ => process_events events f
      | Err e => mret (f, Err e)
      end
  end.

(** [let events = self.executor.method(..)?; self.process_events(events).await]. *)
Definition process_answer (answer : outcome (executor_state * result (list ExecutorEvent) Error))
    (f : Filter) : outcome (Filter * result unit Error) :=
  '(ex, answer) ← answer;
  let f := with_executor ex f in
  match answer with
  | Ok events => process_events events f
  | Err e => mret (f, Err e)
  end.

(** ** Handlers *)
Definition poll_filter (f : Filter) : outcome (Filter * result unit Error) :=
  process_answer (executor_poll (executor f)) f.

Definition register_peer (peer : PeerId) (s : sink) (f : Filter) :
    outcome (Filter * result unit Error) :=
  match peers f !! peer with
  | Some _ => mret (f, Err PeerAlreadyExists)
  | None =>
      '(ex, answer) ← executor_register_peer (executor f) peer;
      let f := with_executor ex f in
      match answer with
      | Err e => mret (f, Err e)
      | Ok events =>
          process_events events
            (with_peers (<[peer := {| pi_sink := s; pi_protocols := ∅ |}]> (peers f)) f)
      end
  end.

Definition discover_peer (peer : PeerId) (f : Filter) : outcome (Filter * result unit Error) :=
  process_answer (executor_discover_peer (executor f) peer) f.

Definition unregister_peer (peer : PeerId) (f : Filter) : outcome (Filter * result unit Error) :=
  match peers f !! peer with
  | None => mret (f, Err PeerDoesntExist)
  | Some _ =>
      let f := with_peers (delete peer (peers f)) f in
      process_answer (executor_unregister_peer (executor f) peer) f
  end.

Definition protocol_opened (peer : PeerId) (protocol : Protocol) (f : Filter) :
    outcome (Filter * result unit Error) :=
  match peers f !! peer with
  | None => mret (f, Err PeerDoesntExist)
  | Some info =>
      let info' := {| pi_sink := pi_sink info; pi_protocols := {[protocol]} ∪ pi_protocols info |} in
      let f := with_peers (<[peer := info']> (peers f)) f in
      process_answer (executor_protocol_opened (executor f) peer protocol) f
  end.

Definition protocol_closed (peer : PeerId) (protocol : Protocol) (f : Filter) :
    outcome (Filter * result unit Error) :=
  match peers f !! peer with
  | None => mret (f, Err PeerDoesntExist)
  | Some info =>
      let info' := {| pi_sink := pi_sink info; pi_protocols := {[protocol]} ∪ pi_protocols info |} in
      let f := with_peers (<[peer := info']> (peers f)) f in
      process_answer (executor_protocol_closed (executor f) peer protocol) f
  end.

Definition install_notification_filter (protocol : Protocol) (filter : string) (f : Filter) :
    outcome (Filter * result unit Error) :=
  '(ex, r) ← executor_install_notification_filter (executor f) protocol filter;
  mret (with_executor ex f, r).

Definition install_request_response_filter (protocol : Protocol) (filter : string) (f : Filter) :
    outcome (Filter * result unit Error) :=
  '(ex, r) ← executor_install_request_response_filter (executor f) protocol filter;
  mret (with_executor ex f, r).

Definition inject_notification (protocol : Protocol) (peer : PeerId) (notification : Message)
    (f : Filter) : outcome (Filter * result unit Error) :=
  h ← register_notification_received (interface f) protocol peer notification
        (heuristics_handle f);
  let f := with_heuristics h f in
  '(ex, answer) ← executor_inject_notification (executor f) protocol peer notification;
  let f := with_executor ex f in
  match answer with
  | Ok events => process_events events f
  | Err (EExecutorError ExecutorFilterDoesntExist) =>
      f ← for_each (send_notification protocol notification) (hash_iter (peers f)) f;
      mret (f, Ok tt)
  | Err err => mret (f, Err err)
  end.

Definition inject_request (protocol : Protocol) (peer : PeerId) (request : Request) (f : Filter) :
    outcome (Filter * result unit Error) :=
  let f := with_pending (<[peer := request_id request]> (pending_inbound f)) f in
  h ← register_request_received (interface f) protocol peer request (heuristics_handle f);
  let f := with_heuristics h f in
  process_answer (executor_inject_request (executor f) protocol peer request) f.

Definition inject_response (protocol : Protocol) (peer : PeerId) (response : Response)
    (f : Filter) : outcome (Filter * result unit Error) :=
  h ← register_response_received (interface f) protocol peer response (heuristics_handle f);
  let f := with_heuristics h f in
  process_answer (executor_inject_response (executor f) protocol peer response) f.

(** ** The event loop *)

(** One iteration: a command, or [None] when the poll timer fires first. *)
Definition handle (input : option FilterCommand) (f : Filter) :
    outcome (Filter * result unit Error) :=
  match input with
  | Some (CRegisterPeer peer s) => register_peer peer s f
  | Some (CDiscoverPeer peer) => discover_peer peer f
  | Some (CUnregisterPeer peer) => unregister_peer peer f
  | Some (CProtocolOpened peer protocol) => protocol_opened peer protocol f
  | Some (CProtocolClosed peer protocol) => protocol_closed peer protocol f
  | Some (CInstallNotificationFilter protocol filter _) =>
      install_notification_filter protocol filter f
  | Some (CInstallRequestResponseFilter protocol filter _) =>
      install_request_response_filter protocol filter f
  | Some (CInjectNotification protocol peer notification) =>
      inject_notification protocol peer notification f
  | Some (CInjectRequest protocol peer request) => inject_request protocol peer request f
  | Some (CInjectResponse protocol peer response) => inject_response protocol peer response f
  | None => poll_filter f
  end.

(** Errors are logged and the loop goes on. *)
Definition run (inputs : list (option FilterCommand)) (f : Filter) : outcome Filter :=
  for_each (λ f input, fst <$> handle input f) inputs f.
End filter.
