(* ===== verification/FilterTheorems.v ===== *)
(** * Correctness of the message filter

    The events of the executor are processed according to a plan, which
    depends on the registered peers and the pending requests and not on what
    the packet sinks answer; the theorems on the handlers and on the event
    loop follow from the plan. *)

From S2P Require Import Prelude Backend Heuristics Filter.

Section plan.
Context `{HB : NetworkBackend} `{HE : !Executor} `{HS : !PacketSink} `{HO : !HashOrder PeerId}.
Context `{HER : !ExecutorRuns}.
Implicit Types (f : Filter) (p : PeerId) (evs : list ExecutorEvent).

(** ** The plan *)
Record Plan := mkPlan {
  pl_calls : list (PeerId * SinkCall);
  pl_connects : list PeerId;
  pl_pending : gmap PeerId RequestId;
  pl_result : result unit Error;
}.

Definition plan_event (known : gset PeerId) (pending : gmap PeerId RequestId)
    (ev : ExecutorEvent) : Plan :=
  match ev with
  | EvConnect p => mkPlan [] [p] pending (Ok tt)
  | EvForward ps pr n =>
      mkPlan ((λ p, (p, SendPacket (Some pr) n)) <$> filter (λ p, p ∈ known) ps) [] pending (Ok tt)
  | EvSendRequest p pr payload =>
      if decide (p ∈ known) then mkPlan [(p, SendRequest pr payload)] [] pending (Ok tt)
      else mkPlan [] [] pending (Err PeerDoesntExist)
  | EvSendResponse p payload =>
      match pending !! p with
      | None => mkPlan [] [] pending (Ok tt)
      | Some rid =>
          if decide (p ∈ known) then mkPlan [(p, SendResponse rid payload)] [] (delete p pending) (Ok tt)
          else mkPlan [] [] (delete p pending) (Err PeerDoesntExist)
      end
  end.

(** Events are carried out in order, up to the first one that fails. *)
Fixpoint plan (known : gset PeerId) (pending : gmap PeerId RequestId) evs : Plan :=
  match evs with
  | [] => mkPlan [] [] pending (Ok tt)
  | ev :: evs =>
      let pl := plan_event known pending ev in
      match pl_result pl with
      | Err e => pl
      | Ok _ =>
          let rest := plan known (pl_pending pl) evs in
          mkPlan (pl_calls pl ++ pl_calls rest) (pl_connects pl ++ pl_connects rest)
            (pl_pending rest) (pl_result rest)
      end
  end.

(** What the heuristics are told about calls: the packets a sink accepted. *)
Definition report (i : InterfaceId) (c : PeerId * SinkCall * bool) : option HeuristicsEvent :=
  match c with
  | (p, SendPacket (Some pr) n, true) =>
      Some (HMessageSent i pr [p] (message_hash n) (message_size n))
  | _ => None
  end.
Definition reports i (cs : list (PeerId * SinkCall * bool)) : list HeuristicsEvent :=
  omap (report i) cs.

Definition channels_open f : Prop :=
  receiver_alive (event_tx f) = true ∧ receiver_alive (heuristics_handle f) = true.

(** [f'] is [f] after the calls [cs] and the connection requests [conns]. *)
Record did f (cs : list (PeerId * SinkCall * bool)) (conns : list PeerId)
    (pending : gmap PeerId RequestId) f' : Prop := {
  did_executor : executor f' = executor f;
  did_interface : interface f' = interface f;
  did_peers : peers f' = peers f;
  did_interval : poll_interval f' = poll_interval f;
  did_pending : pending_inbound f' = pending;
  did_calls : sink_calls f' = sink_calls f ++ cs;
  did_connects : event_tx f' = mkChannel (queue (event_tx f) ++ (FConnect (interface f) <$> conns)) true;
  did_reports : heuristics_handle f' =
    mkChannel (queue (heuristics_handle f) ++ reports (interface f) cs) true;
}.

Lemma did_nothing f : channels_open f → did f [] [] (pending_inbound f) f.
Proof.
  intros [He Hh]. split; try done; simpl; rewrite ?app_nil_r; [done| |].
  - by destruct (event_tx f); simpl in *; subst.
  - by destruct (heuristics_handle f); simpl in *; subst.
Qed.

Lemma did_open f cs conns pending f' : did f cs conns pending f' → channels_open f'.
Proof. intros []. split; by rewrite ?did_connects0, ?did_reports0. Qed.

Lemma did_trans f cs conns pending f' cs' conns' pending' f'' :
  did f cs conns pending f' → did f' cs' conns' pending' f'' →
  did f (cs ++ cs') (conns ++ conns') pending' f''.
Proof.
  intros [] []. split; try congruence.
  - by rewrite did_calls1, did_calls0, (assoc_L (++)).
  - rewrite did_connects1, did_connects0, did_interface0. simpl.
    by rewrite fmap_app, (assoc_L (++)).
  - rewrite did_reports1, did_reports0, did_interface0. unfold reports. simpl.
    by rewrite omap_app, (assoc_L (++)).
Qed.

Lemma reports_cons i c cs :
  reports i (c :: cs) = option_list (report i c) ++ reports i cs.
Proof. unfold reports. cbn [omap list_omap]. by destruct (report i c). Qed.

(** One call of a sink, which is not reported. *)
Lemma did_call f p info c :
  channels_open f → (∀ b, report (interface f) (p, c, b) = None) →
  ∃ b, did f [(p, c, b)] [] (pending_inbound f) (call_sink p info c f).1.
Proof.
  intros Ho Hr. eexists. pose proof (did_nothing f Ho) as []. split; try done.
  rewrite reports_cons, Hr. done.
Qed.

Lemma send_notification_did pr n f p info :
  channels_open f →
  runs (send_notification pr n f (p, info)) (λ f', ∃ b,
    did f [(p, SendPacket (Some pr) n, b)] [] (pending_inbound f) f').
Proof.
  intros Ho. pose proof (did_nothing f Ho) as []. unfold send_notification, call_sink.
  destruct (sink_answer _ _ _) eqn:Ha; simpl.
  - apply runs_bind, runs_send; [by destruct Ho|]. simpl. exists true. split; done.
  - exists false. split; done.
Qed.

(** Sending a notification to a list of entries, each a peer with its sink. *)
Lemma send_all_did pr n l f :
  channels_open f →
  runs (for_each (send_notification pr n) l f) (λ f', ∃ cs,
    cs.*1 = (λ p, (p, SendPacket (Some pr) n)) <$> l.*1 ∧ did f cs [] (pending_inbound f) f').
Proof.
  revert f; induction l as [|[p info] l IH]; intros f Ho; simpl.
  - exists []. split; [done|by apply did_nothing].
  - apply runs_bind. eapply runs_mono; [by apply send_notification_did|].
    intros f1 [b Hb]. eapply runs_mono; [apply IH; by eapply did_open|].
    intros f2 (cs & Hcs & Hdid). exists ((p, SendPacket (Some pr) n, b) :: cs).
    split; [simpl; f_equal; exact Hcs|]. rewrite (did_pending _ _ _ _ _ Hb) in Hdid.
    by eapply (did_trans _ [_] []).
Qed.

(** Looking every peer up first is skipping the unknown ones. *)
Lemma forward_to_entries pr n ps f :
  channels_open f →
  for_each (forward_to pr n) ps f =
  for_each (send_notification pr n) (omap (λ p, pair p <$> peers f !! p) ps) f.
Proof.
  revert f; induction ps as [|p ps IH]; intros f Ho; [done|]. cbn [for_each omap list_omap].
  assert (forward_to pr n f p = match peers f !! p with
    | None => mret f | Some info => send_notification pr n f (p, info) end) as -> by done.
  destruct (peers f !! p) as [info|] eqn:Hp; cbn [fmap option_fmap option_map]; [|by apply IH].
  pose proof (send_notification_did pr n f p info Ho) as Hs.
  apply runs_Done in Hs as (f1 & Hf1 & b & Hdid). cbn [for_each]. rewrite Hf1.
  cbn [mbind outcome_bind]. rewrite IH by by eapply did_open.
  by rewrite (did_peers _ _ _ _ _ Hdid).
Qed.

Lemma known_entries f ps :
  (omap (λ p, pair p <$> peers f !! p) ps).*1 = filter (λ p, p ∈ dom (peers f)) ps.
Proof.
  induction ps as [|p ps IH]; [done|]. simpl. rewrite filter_cons.
  destruct (peers f !! p) as [info|] eqn:Hp; simpl.
  - rewrite decide_True by (apply elem_of_dom; eauto). f_equal. exact IH.
  - rewrite decide_False by (by apply not_elem_of_dom). exact IH.
Qed.

Definition follows f (pl : Plan) (fr : Filter * result unit Error) : Prop :=
  fr.2 = pl_result pl ∧
  ∃ cs, cs.*1 = pl_calls pl ∧ did f cs (pl_connects pl) (pl_pending pl) fr.1.

Lemma process_event_follows f ev :
  channels_open f →
  runs (process_event f ev) (follows f (plan_event (dom (peers f)) (pending_inbound f) ev)).
Proof.
  intros Ho. destruct ev as [p|ps pr n|p pr payload|p payload]; simpl.
  - apply runs_bind, runs_send; [by destruct Ho|]. split; [done|]. exists [].
    split; [done|]. pose proof (did_nothing f Ho) as []. by split.
  - rewrite forward_to_entries by done. apply runs_bind.
    eapply runs_mono; [by apply send_all_did|]. intros f' (cs & Hcs & Hdid).
    split; [done|]. exists cs. split; [|done]. by rewrite Hcs, known_entries.
  - destruct (peers f !! p) as [info|] eqn:Hp.
    + rewrite decide_True by (apply elem_of_dom; eauto).
      destruct (did_call f p info (SendRequest pr payload) Ho) as [b Hb]; [done|].
      split; [done|]. by exists [(p, SendRequest pr payload, b)].
    + rewrite decide_False by (by apply not_elem_of_dom). split; [done|]. exists [].
      split; [done|]. by apply did_nothing.
  - destruct (pending_inbound f !! p) as [rid|] eqn:Hr; [|split; [done|]; exists [];
      split; [done|by apply did_nothing]].
    set (f1 := with_pending (delete p (pending_inbound f)) f).
    assert (channels_open f1) as Ho1 by done.
    destruct (peers f !! p) as [info|] eqn:Hp; simpl.
    + rewrite decide_True by (apply elem_of_dom; eauto).
      destruct (did_call f1 p info (SendResponse rid payload) Ho1) as [b Hb]; [done|].
      split; [done|]. exists [(p, SendResponse rid payload, b)]. split; [done|].
      destruct Hb. by split.
    + rewrite decide_False by (by apply not_elem_of_dom). split; [done|]. exists [].
      split; [done|]. destruct (did_nothing f1 Ho1). by split.
Qed.

Lemma process_events_follows evs f :
  channels_open f →
  runs (process_events evs f) (follows f (plan (dom (peers f)) (pending_inbound f) evs)).
Proof.
  revert f; induction evs as [|ev evs IH]; intros f Ho; simpl.
  - split; [done|]. exists []. split; [done|by apply did_nothing].
  - apply runs_bind. eapply runs_mono; [by apply process_event_follows|].
    intros [f1 r1] (Hr & cs & Hcs & Hdid). simpl in *. subst r1.
    destruct (pl_result _) eqn:Hres; simpl.
    + eapply runs_mono; [apply IH; by eapply did_open|].
      intros [f2 r2] (Hr2 & cs2 & Hcs2 & Hdid2). simpl in *.
      rewrite (did_peers _ _ _ _ _ Hdid), (did_pending _ _ _ _ _ Hdid) in *.
      split; [done|]. exists (cs ++ cs2). simpl. rewrite fmap_app, Hcs, Hcs2. split; [done|].
      by eapply did_trans.
    + split; [done|]. by exists cs.
Qed.

(** ** Requests and responses *)

(** Responses sent to [p] for the request [rid], and whether one is owed. *)
Definition answers p (rid : RequestId) (c : PeerId * SinkCall) : bool :=
  match c.2 with SendResponse rid' _ => bool_decide (c.1 = p ∧ rid' = rid) | _ => false end.
Definition answered p rid (cs : list (PeerId * SinkCall)) : nat :=
  length (filter (λ c, answers p rid c = true) cs).
Definition owed (pending : gmap PeerId RequestId) p (rid : RequestId) : nat :=
  if decide (pending !! p = Some rid) then 1 else 0.

#[local] Arguments answered : simpl never.
#[local] Arguments owed : simpl never.

Lemma answered_app p rid cs cs' : answered p rid (cs ++ cs') = (answered p rid cs + answered p rid cs')%nat.
Proof. unfold answered. by rewrite filter_app, length_app. Qed.

Lemma answered_packets p rid (l : list (PeerId * SinkCall)) :
  Forall (λ c, ∀ rid' payload, c.2 ≠ SendResponse rid' payload) l → answered p rid l = 0%nat.
Proof.
  induction 1 as [|[p' c] l Hc Hl IH]; [done|]. unfold answered in *.
  rewrite filter_cons_False; [done|]. unfold answers; destruct c; naive_solver.
Qed.

Lemma owed_delete pending p rid p' :
  (owed (delete p' pending) p rid ≤ owed pending p rid)%nat.
Proof.
  unfold owed. case_decide as Hd; [|lia]. apply lookup_delete_Some in Hd as [_ Hd].
  by rewrite decide_True.
Qed.

(** A response is sent for a request that was pending, which is not pending
    any more. *)
Lemma plan_event_answers known pending ev p rid :
  (answered p rid (pl_calls (plan_event known pending ev)) +
   owed (pl_pending (plan_event known pending ev)) p rid ≤ owed pending p rid)%nat.
Proof.
  destruct ev as [p'|ps pr n|p' pr payload|p' payload]; simpl.
  - done.
  - rewrite answered_packets; [done|]. by apply Forall_fmap, Forall_forall.
  - by case_decide.
  - destruct (pending !! p') as [rid'|] eqn:Hp; [|done].
    case_decide; simpl; [|apply owed_delete]. unfold answered, answers.
    destruct (decide (p' = p ∧ rid' = rid)) as [[-> ->]|Hne].
    + rewrite filter_cons_True by (simpl; by rewrite bool_decide_true).
      unfold owed. rewrite lookup_delete_eq, Hp, decide_False, decide_True by done. simpl. lia.
    + rewrite filter_cons_False; [apply owed_delete|]. simpl. by rewrite bool_decide_false.
Qed.

Lemma plan_answers known pending evs p rid :
  (answered p rid (pl_calls (plan known pending evs)) +
   owed (pl_pending (plan known pending evs)) p rid ≤ owed pending p rid)%nat.
Proof.
  revert pending; induction evs as [|ev evs IH]; intros pending; [done|]. simpl.
  pose proof (plan_event_answers known pending ev p rid).
  destruct (pl_result _); simpl; [|done]. rewrite answered_app.
  specialize (IH (pl_pending (plan_event known pending ev))). lia.
Qed.

Lemma plan_known known pending evs :
  Forall (λ c, c.1 ∈ known) (pl_calls (plan known pending evs)).
Proof.
  revert pending; induction evs as [|ev evs IH]; intros pending; [constructor|]. simpl.
  assert (Forall (λ c, c.1 ∈ known) (pl_calls (plan_event known pending ev))).
  { destruct ev as [p'|ps pr n|p' pr payload|p' payload]; simpl.
    - constructor.
    - apply Forall_fmap, Forall_forall. by intros p [? _]%list_elem_of_filter.
    - by case_decide; repeat constructor.
    - destruct (pending !! p'); [|constructor]. by case_decide; repeat constructor. }
  destruct (pl_result _); simpl; [|done]. by apply Forall_app.
Qed.

(** ** What a handler does after it prepared the state [f] *)
Definition acted f f' : Prop :=
  ∃ ex cs conns pend, did (with_executor ex f) cs conns pend f' ∧
    Forall (λ c, c.1.1 ∈ dom (peers f)) cs ∧
    ∀ p rid, (answered p rid cs.*1 + owed pend p rid ≤ owed (pending_inbound f) p rid)%nat.

Lemma acted_nothing f ex : channels_open f → acted f (with_executor ex f).
Proof. intros Ho. exists ex, [], [], (pending_inbound f). by split; [apply (did_nothing (with_executor ex f))|]. Qed.

Lemma with_executor_same f : with_executor (executor f) f = f.
Proof. by destruct f. Qed.

Lemma process_events_acted evs f ex :
  channels_open f → runs (process_events evs (with_executor ex f)) (λ fr, acted f fr.1).
Proof.
  intros Ho. eapply runs_mono; [by apply process_events_follows|].
  intros fr (_ & cs & Hcs & Hdid). exists ex, cs. do 2 eexists. split; [exact Hdid|].
  simpl in *. split.
  - change (Forall ((λ c : PeerId * SinkCall, c.1 ∈ dom (peers f)) ∘ fst) cs).
    apply Forall_fmap. rewrite Hcs. apply plan_known.
  - intros p rid. rewrite Hcs. apply plan_answers.
Qed.

Lemma process_answer_acted answer f :
  runs answer (λ _, True) → channels_open f → runs (process_answer answer f) (λ fr, acted f fr.1).
Proof.
  intros Ha Ho. unfold process_answer. destruct answer as [[ex [evs|e]]|]; [..|done]; simpl.
  - by apply process_events_acted.
  - by apply acted_nothing.
Qed.

Lemma broadcast_acted pr n f ex :
  channels_open f →
  runs (for_each (send_notification pr n) (hash_iter (peers f)) (with_executor ex f)) (acted f).
Proof.
  intros Ho. eapply runs_mono; [by apply send_all_did|]. intros f' (cs & Hcs & Hdid).
  exists ex, cs. do 2 eexists. split; [exact Hdid|]. split.
  - change (Forall ((λ c : PeerId * SinkCall, c.1 ∈ dom (peers f)) ∘ fst) cs).
    apply Forall_fmap. rewrite Hcs.
    apply Forall_fmap, Forall_fmap, Forall_forall. intros [p info] Hp%elem_of_hash_iter. simpl.
    apply elem_of_dom. eauto.
  - intros p rid. rewrite Hcs, answered_packets; [done|]. by apply Forall_fmap, Forall_forall.
Qed.

(** ** One iteration of the event loop *)

(** The heuristics event an input gives rise to before the executor runs. *)
Definition received_report (i : InterfaceId) (input : option FilterCommand) :
    list HeuristicsEvent :=
  match input with
  | Some (CInjectNotification pr p n) => [HMessageReceived i pr p (message_hash n) (message_size n)]
  | Some (CInjectRequest pr p r) => [HMessageReceived i pr p (request_hash r) (request_size r)]
  | Some (CInjectResponse pr p r) => [HMessageReceived i pr p (response_hash r) (response_size r)]
  | _ => []
  end.

(** Does the executor accept the registration of a peer? *)
Definition accepts (ex : executor_state) p : bool :=
  match executor_register_peer ex p with Done (_, r) => is_ok r | Panicked _ => false end.

(** The registered peers and their sinks, after an input. *)
Definition sinks f : gmap PeerId sink := pi_sink <$> peers f.
Definition next_sinks (input : option FilterCommand) f : gmap PeerId sink :=
  match input with
  | Some (CRegisterPeer p s) =>
      if decide (p ∈ dom (peers f)) then sinks f
      else if accepts (executor f) p then <[p := s]> (sinks f)
      else sinks f
  | Some (CUnregisterPeer p) => delete p (sinks f)
  | _ => sinks f
  end.

(** Requests the input brings in. *)
Definition asks p (rid : RequestId) (input : option FilterCommand) : nat :=
  match input with
  | Some (CInjectRequest _ p' r) => if decide (p' = p ∧ request_id r = rid) then 1 else 0
  | _ => 0
  end.

Record handled (input : option FilterCommand) f f' : Prop := {
  h_open : channels_open f';
  h_interface : interface f' = interface f;
  h_sinks : sinks f' = next_sinks input f;
  h_effects : ∃ cs conns,
    sink_calls f' = sink_calls f ++ cs ∧
    Forall (λ c, c.1.1 ∈ dom (sinks f')) cs ∧
    queue (event_tx f') = queue (event_tx f) ++ (FConnect (interface f) <$> conns) ∧
    queue (heuristics_handle f') =
      queue (heuristics_handle f) ++ received_report (interface f) input ++
      reports (interface f) cs ∧
    ∀ p rid, (answered p rid cs.*1 + owed (pending_inbound f') p rid ≤
              owed (pending_inbound f) p rid + asks p rid input)%nat;
}.

Lemma acted_handled input f f1 f' :
  acted f1 f' →
  interface f1 = interface f → event_tx f1 = event_tx f → sink_calls f1 = sink_calls f →
  sinks f1 = next_sinks input f →
  queue (heuristics_handle f1) =
    queue (heuristics_handle f) ++ received_report (interface f) input →
  (∀ p rid, owed (pending_inbound f1) p rid ≤
            owed (pending_inbound f) p rid + asks p rid input)%nat →
  handled input f f'.
Proof.
  intros (ex & cs & conns & pend & Hdid & Hknown & Hans) Hi He Hc Hs Hh Hp.
  pose proof (did_open _ _ _ _ _ Hdid) as Ho. destruct Hdid. simpl in *.
  split; [done|congruence|unfold sinks in *; congruence|].
  exists cs, conns. split_and!.
  - congruence.
  - unfold sinks. rewrite dom_fmap_L. by rewrite did_peers0.
  - rewrite did_connects0. simpl. congruence.
  - rewrite did_reports0. simpl. by rewrite Hh, Hi, (assoc_L (++)).
  - intros p rid. rewrite did_pending0. specialize (Hans p rid). specialize (Hp p rid). lia.
Qed.

(** An input that is refused at once, or only reaches the executor. *)
Lemma nothing_handled input f ex :
  channels_open f → received_report (interface f) input = [] →
  sinks f = next_sinks input f → handled input f (with_executor ex f).
Proof.
  intros Ho Hr Hs. eapply acted_handled; [by apply acted_nothing|..]; try done.
  - by rewrite Hr, app_nil_r.
  - intros; lia.
Qed.

Lemma process_answer_handled input answer f f1 :
  runs answer (λ _, True) → channels_open f1 →
  interface f1 = interface f → event_tx f1 = event_tx f → sink_calls f1 = sink_calls f →
  sinks f1 = next_sinks input f →
  queue (heuristics_handle f1) =
    queue (heuristics_handle f) ++ received_report (interface f) input →
  (∀ p rid, owed (pending_inbound f1) p rid ≤
            owed (pending_inbound f) p rid + asks p rid input)%nat →
  runs (process_answer answer f1) (λ fr, handled input f fr.1).
Proof.
  intros. eapply runs_mono; [by apply process_answer_acted|]. intros fr Hfr.
  by apply (acted_handled input f f1).
Qed.

Lemma register_peer_handled p s f :
  channels_open f →
  runs (register_peer p s f) (λ fr, handled (Some (CRegisterPeer p s)) f fr.1).
Proof.
  intros Ho. unfold register_peer.
  pose proof (acted_handled (Some (CRegisterPeer p s)) f) as Hact. simpl in Hact.
  destruct (peers f !! p) as [info|] eqn:Hp.
  { rewrite decide_True in Hact by (apply elem_of_dom; eauto). simpl.
    rewrite <- (with_executor_same f) at 2. eapply Hact; [by apply acted_nothing|..]; try done.
    - by rewrite app_nil_r.
    - intros; lia. }
  rewrite decide_False in Hact by (by apply not_elem_of_dom).
  pose proof (executor_register_peer_runs (executor f) p) as Hruns. unfold accepts in Hact.
  destruct (executor_register_peer (executor f) p) as [[ex [evs|e]]|] eqn:Hex; [..|done]; simpl in *.
  - set (f1 := with_peers (<[p:={| pi_sink := s; pi_protocols := ∅ |}]> (peers f)) f).
    assert (channels_open f1) as Ho1 by done.
    eapply runs_mono; [exact (process_events_acted evs f1 ex Ho1)|].
    intros fr Hfr. apply (Hact f1); try done.
    + unfold sinks. simpl. by rewrite fmap_insert.
    + simpl. by rewrite app_nil_r.
    + intros; simpl; lia.
  - eapply Hact; [by apply acted_nothing|..]; try done; [by rewrite app_nil_r|intros; lia].
Qed.

Lemma inject_notification_handled pr p n f :
  channels_open f →
  runs (inject_notification pr p n f) (λ fr, handled (Some (CInjectNotification pr p n)) f fr.1).
Proof.
  intros Ho. unfold inject_notification. apply runs_bind, runs_send; [by destruct Ho|]. simpl.
  set (f1 := with_heuristics _ f). assert (channels_open f1) as Ho1 by (by destruct Ho).
  assert (∀ f', acted f1 f' → handled (Some (CInjectNotification pr p n)) f f') as Hact.
  { intros f' Hf'. eapply acted_handled; try done. simpl. intros; lia. }
  pose proof (executor_inject_notification_runs (executor f1) pr p n) as Hruns.
  destruct (executor_inject_notification _ _ _ _) as [[ex [evs|e]]|]; [..|done]; cbn [mbind outcome_bind].
  - eapply runs_mono; [by apply process_events_acted|]. auto.
  - assert (runs (mret (with_executor ex f1, Err e) : outcome (Filter * result unit Error))
      (λ fr, handled (Some (CInjectNotification pr p n)) f fr.1)) as Herr.
    { by apply Hact, acted_nothing. }
    destruct e as [| | | | | | | | | | | | | | |[]]; try exact Herr.
    apply runs_bind. eapply runs_mono; [by apply (broadcast_acted pr n f1 ex)|]. auto.
Qed.

Ltac answers :=
  first [apply executor_poll_runs|apply executor_discover_peer_runs|apply executor_unregister_peer_runs
        |apply executor_protocol_opened_runs|apply executor_protocol_closed_runs
        |apply executor_inject_request_runs|apply executor_inject_response_runs].

Lemma handle_handled input f :
  channels_open f → runs (handle input f) (λ fr, handled input f fr.1).
Proof.
  intros Ho. destruct input as [[p s|p|p|p pr|p pr|pr code ctx|pr code ctx|pr p n|pr p r|pr p r]|];
    simpl.
  - by apply register_peer_handled.
  - apply process_answer_handled; try done; try answers; simpl; [by rewrite app_nil_r|intros; lia].
  - unfold unregister_peer. destruct (peers f !! p) as [info|] eqn:Hp; simpl.
    + apply process_answer_handled; try done; try answers; simpl; [|by rewrite app_nil_r|intros; lia].
      unfold sinks. simpl. by rewrite fmap_delete.
    + rewrite <- (with_executor_same f) at 2. apply nothing_handled; try done. simpl.
      rewrite delete_id; [done|]. unfold sinks. by rewrite lookup_fmap, Hp.
  - unfold protocol_opened. destruct (peers f !! p) as [info|] eqn:Hp; simpl.
    + apply process_answer_handled; try done; try answers; simpl; [|by rewrite app_nil_r|intros; lia].
      unfold sinks. simpl. rewrite fmap_insert, insert_id; [done|]. by rewrite lookup_fmap, Hp.
    + rewrite <- (with_executor_same f) at 2. by apply nothing_handled.
  - unfold protocol_closed. destruct (peers f !! p) as [info|] eqn:Hp; simpl.
    + apply process_answer_handled; try done; try answers; simpl; [|by rewrite app_nil_r|intros; lia].
      unfold sinks. simpl. rewrite fmap_insert, insert_id; [done|]. by rewrite lookup_fmap, Hp.
    + rewrite <- (with_executor_same f) at 2. by apply nothing_handled.
  - unfold install_notification_filter. apply runs_bind. eapply runs_mono; [apply executor_install_notification_filter_runs|]. intros [ex r] _.
    by apply nothing_handled.
  - unfold install_request_response_filter.
    apply runs_bind. eapply runs_mono; [apply executor_install_request_response_filter_runs|]. intros [ex r] _.
    by apply nothing_handled.
  - by apply inject_notification_handled.
  - unfold inject_request. apply runs_bind, runs_send; [by destruct Ho|].
    apply process_answer_handled; try done; try answers; simpl; [by destruct Ho|]. intros p' rid.
    unfold owed. destruct (decide (p = p')) as [<-|Hne].
    + rewrite lookup_insert_eq. repeat case_decide; naive_solver lia.
    + rewrite lookup_insert_ne by done. repeat case_decide; naive_solver lia.
  - unfold inject_response. apply runs_bind, runs_send; [by destruct Ho|].
    apply process_answer_handled; try done; try answers; simpl; [by destruct Ho|]. intros; lia.
  - apply process_answer_handled; try done; try answers; simpl; [by rewrite app_nil_r|intros; lia].
Qed.

(** ** Runs of the event loop *)
Definition is_sent (e : HeuristicsEvent) : bool :=
  match e with HMessageSent _ _ _ _ _ => true | _ => false end.
Definition asked p rid (inputs : list (option FilterCommand)) : nat :=
  foldr (λ input n, asks p rid input + n)%nat 0%nat inputs.

(** The effects of a run, summed up. *)
Record ran (inputs : list (option FilterCommand)) f f' : Prop := {
  r_open : channels_open f';
  r_interface : interface f' = interface f;
  r_effects : ∃ cs,
    sink_calls f' = sink_calls f ++ cs ∧
    filter (λ e, is_sent e = true) (queue (heuristics_handle f')) =
      filter (λ e, is_sent e = true) (queue (heuristics_handle f)) ++ reports (interface f) cs ∧
    filter (λ e, is_sent e = false) (queue (heuristics_handle f')) =
      filter (λ e, is_sent e = false) (queue (heuristics_handle f)) ++
      flat_map (received_report (interface f)) inputs ∧
    ∀ p rid, (answered p rid cs.*1 + owed (pending_inbound f') p rid ≤
              owed (pending_inbound f) p rid + asked p rid inputs)%nat;
}.

Lemma received_report_not_sent i input : Forall (λ e, is_sent e = false) (received_report i input).
Proof. destruct input as [[]|]; by repeat constructor. Qed.

Lemma reports_sent i cs : Forall (λ e, is_sent e = true) (reports i cs).
Proof.
  apply Forall_forall. intros e ([[p c] b] & _ & Hc)%list_elem_of_omap.
  destruct c as [[pr|] n| |]; destruct b; try discriminate. by injection Hc as <-.
Qed.

Lemma filter_none {A} (P : A → Prop) `{∀ x, Decision (P x)} l :
  Forall (λ x, ¬ P x) l → filter P l = [].
Proof. induction 1; [done|]. by rewrite filter_cons_False. Qed.

Lemma filter_all {A} (P : A → Prop) `{∀ x, Decision (P x)} l : Forall P l → filter P l = l.
Proof. induction 1; [done|]. rewrite filter_cons_True by done. by f_equal. Qed.

Lemma run_ran inputs f : channels_open f → runs (run inputs f) (ran inputs f).
Proof.
  revert f; induction inputs as [|input inputs IH]; intros f Ho.
  { simpl. split; [done..|]. exists []. rewrite !app_nil_r. simpl.
    split_and!; try done. intros; simpl; lia. }
  unfold run. cbn [for_each]. apply runs_bind, runs_fmap.
  eapply runs_mono; [by apply handle_handled|]. intros [f1 r] [Ho1 Hi1 _ (cs1 & _ & Hc1 & _ & _ & Hh1 & Ha1)].
  simpl in *. eapply runs_mono; [by apply IH|]. intros f2 [Ho2 Hi2 (cs2 & Hc2 & Hs2 & Hr2 & Ha2)].
  split; [done|congruence|]. exists (cs1 ++ cs2).
  pose proof (received_report_not_sent (interface f) input) as Hrn.
  pose proof (reports_sent (interface f) cs1) as Hrs.
  assert (Forall (λ e, ¬ is_sent e = true) (received_report (interface f) input)) as Hrn'.
  { eapply Forall_impl; [done|]. simpl. by intros ? ->. }
  assert (Forall (λ e, ¬ is_sent e = false) (reports (interface f) cs1)) as Hrs'.
  { eapply Forall_impl; [done|]. simpl. by intros ? ->. }
  split_and!.
  - by rewrite Hc2, Hc1, (assoc_L (++)).
  - rewrite Hs2, Hh1, Hi1, !filter_app, (filter_none _ _ Hrn'), (filter_all _ _ Hrs). simpl.
    unfold reports. by rewrite omap_app, (assoc_L (++)).
  - rewrite Hr2, Hh1, Hi1, !filter_app, (filter_all _ _ Hrn), (filter_none _ _ Hrs'). simpl.
    by rewrite app_nil_r, (assoc_L (++)).
  - intros p rid. rewrite fmap_app, answered_app. simpl.
    specialize (Ha1 p rid). specialize (Ha2 p rid). lia.
Qed.

Lemma new_channels i code d etx hh f0 h :
  new i code d etx hh = Done (Ok (f0, h)) → receiver_alive etx = true → receiver_alive hh = true →
  channels_open f0 ∧ interface f0 = i ∧ peers f0 = ∅ ∧ sink_calls f0 = [] ∧
  pending_inbound f0 = ∅ ∧ heuristics_handle f0 = hh.
Proof.
  unfold new. destruct (executor_new _ _ _) as [[|]|]; [|discriminate..]. by intros [= <- _] ??.
Qed.

(** ** Theorems *)

(** C35: Processing the events of the executor follows a plan fixed by the
    events, the registered peers and the pending requests: the calls made to
    the packet sinks, in order, the connection requests passed to the
    overseer, the requests still pending and the result do not depend on what
    the sinks answer. A failing sink hence never keeps a notification from
    the other peers; only a request, or a response to a pending request, for
    a peer that is not registered stops the processing, and the events before
    it have been carried out. *)
Theorem process_events_follows_plan evs f :
  channels_open f →
  ∃ f' r cs, process_events evs f = Done (f', r) ∧
    let pl := plan (dom (peers f)) (pending_inbound f) evs in
    r = pl_result pl ∧ cs.*1 = pl_calls pl ∧
    did f cs (pl_connects pl) (pl_pending pl) f'.
Proof.
  intros Ho. pose proof (process_events_follows evs f Ho) as Hrun.
  apply runs_Done in Hrun as ([f' r] & Hrun & Hr & cs & Hcs & Hdid). eauto 10.
Qed.

(** One iteration of the filter's event loop never panics while the
    overseer and the heuristics backend are alive and the executor does not. A peer is known exactly
    from a registration the executor accepted to its unregistration, with
    the sink it was registered with (a second registration does not replace
    it), whatever the executor answers when it is unregistered; and packets,
    requests and responses only go to peers that are known after the input,
    never to the peer just unregistered. *)
Theorem filter_iteration (input : option FilterCommand) f :
  channels_open f →
  ∃ f' r cs, handle input f = Done (f', r) ∧ channels_open f' ∧
    sinks f' = next_sinks input f ∧
    sink_calls f' = sink_calls f ++ cs ∧ Forall (λ c, c.1.1 ∈ dom (sinks f')) cs.
Proof.
  intros Ho. pose proof (handle_handled input f Ho) as Hrun.
  apply runs_Done in Hrun as ([f' r] & Hrun & [Ho' Hi Hs (cs & conns & Hc & Hk & _)]).
  exists f', r, cs. done.
Qed.

(** C36: The filter reports to the heuristics exactly the traffic it sees: over
    any run in which the executor does not panic, the received messages reported
    are the notifications, requests and responses injected, in order, and the
    sent messages reported are the packets a sink accepted, in order, with their
    peer, protocol, hash and size. *)
Theorem filter_reports_traffic i code d etx hh f0 h (inputs : list (option FilterCommand)) :
  new i code d etx hh = Done (Ok (f0, h)) → receiver_alive etx = true → receiver_alive hh = true →
  ∃ f, run inputs f0 = Done f ∧
    filter (λ e, is_sent e = true) (queue (heuristics_handle f)) =
      filter (λ e, is_sent e = true) (queue hh) ++ reports i (sink_calls f) ∧
    filter (λ e, is_sent e = false) (queue (heuristics_handle f)) =
      filter (λ e, is_sent e = false) (queue hh) ++ flat_map (received_report i) inputs.
Proof.
  intros Hnew He Hh. destruct (new_channels _ _ _ _ _ _ _ Hnew He Hh) as (Ho & Hi & _ & Hc & _ & Hq).
  pose proof (run_ran inputs f0 Ho) as Hrun.
  apply runs_Done in Hrun as (f & Hrun & [_ _ (cs & Hcs & Hs & Hr & _)]).
  rewrite Hi, Hq in *. rewrite Hc in Hcs. simpl in Hcs. subst cs. eauto.
Qed.

(** C37: A request is answered at most once: over any run in which the executor
    does not panic, the responses sent to a peer for a request id, plus one if a
    response is still owed, are at most the requests with that id the peer sent.
    In particular a filter never sends a response nobody asked for. *)
Theorem requests_answered_at_most_once i code d etx hh f0 h (inputs : list (option FilterCommand)) :
  new i code d etx hh = Done (Ok (f0, h)) → receiver_alive etx = true → receiver_alive hh = true →
  ∃ f, run inputs f0 = Done f ∧ ∀ p rid,
    (answered p rid (sink_calls f).*1 + owed (pending_inbound f) p rid ≤ asked p rid inputs)%nat.
Proof.
  intros Hnew He Hh. destruct (new_channels _ _ _ _ _ _ _ Hnew He Hh) as (Ho & _ & _ & Hc & Hp & _).
  pose proof (run_ran inputs f0 Ho) as Hrun.
  apply runs_Done in Hrun as (f & Hrun & [_ _ (cs & Hcs & _ & _ & Ha)]).
  rewrite Hc in Hcs. simpl in Hcs. subst cs. exists f. split; [done|]. intros p rid.
  specialize (Ha p rid). rewrite Hp in Ha. unfold owed at 2 in Ha.
  rewrite lookup_empty, decide_False in Ha by done. done.
Qed.

(** Without a filter for the protocol a notification is forwarded by
    default: exactly one packet with this protocol and notification to every
    registered peer, the sender included, in some order, whatever the sinks
    answer, and the injection succeeds. *)
Theorem notification_forwarded_by_default pr p n f ex :
  channels_open f →
  executor_inject_notification (executor f) pr p n =
    Done (ex, Err (EExecutorError ExecutorFilterDoesntExist)) →
  ∃ f' cs, inject_notification pr p n f = Done (f', Ok tt) ∧
    sink_calls f' = sink_calls f ++ cs ∧
    cs.*1 ≡ₚ (λ q, (q, SendPacket (Some pr) n)) <$> elements (dom (peers f)) ∧
    peers f' = peers f ∧ pending_inbound f' = pending_inbound f.
Proof.
  intros Ho Hex. unfold inject_notification, register_notification_received.
  rewrite send_alive by (by destruct Ho). simpl. rewrite Hex. cbn [mbind outcome_bind].
  set (f1 := with_executor ex _). assert (channels_open f1) as Ho1 by (by destruct Ho).
  pose proof (send_all_did pr n (hash_iter (peers f1)) f1 Ho1) as Hrun.
  apply runs_Done in Hrun as (f' & Hrun & cs & Hcs & Hdid). destruct Hdid. simpl in *.
  rewrite Hrun. simpl. exists f', cs. split_and!; try done. rewrite Hcs.
  apply Permutation_map. by apply hash_iter_keys.
Qed.

(** What closing a protocol does to the set of open protocols of a known
    peer: the protocol is in the set afterwards, whether it was open before or
    not, since the handler inserts it as the handler of openings does. *)
Theorem closed_protocol_stays_open p pr f info :
  channels_open f → peers f !! p = Some info →
  ∃ f' r info', protocol_closed p pr f = Done (f', r) ∧
    peers f' !! p = Some info' ∧ pr ∈ pi_protocols info'.
Proof.
  intros Ho Hp. unfold protocol_closed. rewrite Hp.
  set (info' := {| pi_sink := _; pi_protocols := _ |}).
  set (f1 := with_peers (<[p:=info']> (peers f)) f). assert (channels_open f1) as Ho1 by done.
  pose proof (process_answer_acted (executor_protocol_closed (executor f1) p pr) f1 (executor_protocol_closed_runs _ _ _) Ho1) as Hrun.
  apply runs_Done in Hrun as ([f' r] & Hrun & ex & cs & conns & pend & Hdid & _).
  exists f', r, info'. split_and!; [done| |set_solver].
  pose proof (did_peers _ _ _ _ _ Hdid) as Hps. simpl in Hps. rewrite Hps.
  apply lookup_insert_eq.
Qed.
End plan.

(** ** Concrete runs *)
Section examples.
#[local] Existing Instance numbers_backend.

(** An executor without notification filters, which asks for the same events
    whenever it is polled. *)
#[local] Instance script_executor : Executor := {|
  executor_state := list ExecutorEvent;
  initialize_interface _ _ := Done (Ok tt);
  executor_new _ _ _ := Done (Ok [EvSendResponse 7 [1]]);
  executor_poll st := Done (st, Ok st);
  executor_register_peer st _ := Done (st, Ok []);
  executor_discover_peer st p := Done (st, Ok [EvConnect p]);
  executor_unregister_peer st _ := Done (st, Ok []);
  executor_protocol_opened st _ _ := Done (st, Ok []);
  executor_protocol_closed st _ _ := Done (st, Ok []);
  executor_install_notification_filter st _ _ := Done (st, Ok tt);
  executor_install_request_response_filter st _ _ := Done (st, Ok tt);
  executor_inject_notification st _ _ _ := Done (st, Err (EExecutorError ExecutorFilterDoesntExist));
  executor_inject_request st _ _ _ := Done (st, Ok []);
  executor_inject_response st _ _ _ := Done (st, Ok []);
|}.

#[local] Instance script_executor_runs : ExecutorRuns.
Proof. by split. Qed.

(** A sink is a number; the sink 0 is closed. *)
#[local] Instance numbered_sinks : PacketSink := {|
  sink := Z;
  sink_answer _ s _ := if s =? 0 then Err (Custom "closed") else Ok tt;
|}.

#[local] Instance peers_order : HashOrder PeerId := canonical_order PeerId.

Definition example_filter (ps : gmap Z PeerInfo) (pending : gmap Z Z) : Filter :=
  {| executor := [EvSendResponse 7 [1]] : executor_state; interface := 1 : InterfaceId;
     event_tx := new_channel; peers := ps : gmap PeerId PeerInfo;
     pending_inbound := pending : gmap PeerId RequestId;
     heuristics_handle := new_channel; poll_interval := 0; sink_calls := [] |}.

Definition two_peers : gmap Z PeerInfo :=
  {[ 7 := {| pi_sink := 1 : sink; pi_protocols := ∅ |};
     8 := {| pi_sink := 0 : sink; pi_protocols := ∅ |} ]}.

(** Peer 8's sink fails, peer 9 is unknown: 7 still gets the notification, and
    the request for 9 keeps the connection to 10 from being asked for. *)
Example process_events_follows_plan_witness :
  let evs : list ExecutorEvent :=
    [EvForward [8; 9; 7] (3 : Protocol) ((42, 10) : Message); EvSendRequest 9 3 []; EvConnect 10] in
  (∃ f' r cs, process_events evs (example_filter two_peers ∅) = Done (f', r) ∧
    let pl := plan (dom two_peers : gset PeerId) ∅ evs in
    r = pl_result pl ∧ cs.*1 = pl_calls pl ∧
    did (example_filter two_peers ∅) cs (pl_connects pl) (pl_pending pl) f') ∧
  pl_connects (plan (dom two_peers : gset PeerId) ∅ evs) = [] ∧
  pl_calls (plan (dom two_peers : gset PeerId) ∅ evs) =
    [(8, SendPacket (Some 3) (42, 10)); (7, SendPacket (Some 3) (42, 10))].
Proof.
  intros evs. split.
  - apply (process_events_follows_plan evs (example_filter two_peers ∅)). done.
  - by vm_compute.
Defined.

#[local] Abbreviation nPeerId := (@PeerId numbers_backend) (only parsing).
#[local] Abbreviation nProtocol := (@Protocol numbers_backend) (only parsing).
#[local] Abbreviation nMessage := (@Message numbers_backend) (only parsing).
#[local] Abbreviation nRequest := (@Request numbers_backend) (only parsing).
#[local] Abbreviation nRequestId := (@RequestId numbers_backend) (only parsing).
#[local] Abbreviation nInterfaceId := (@InterfaceId numbers_backend) (only parsing).
#[local] Abbreviation nSink := (@sink numbers_backend numbered_sinks) (only parsing).

Example filter_iteration_witness :
  ∃ f' r cs, handle (Some (CUnregisterPeer (7 : nPeerId))) (example_filter two_peers ∅) = Done (f', r) ∧
    channels_open f' ∧
    sinks f' = next_sinks (Some (CUnregisterPeer (7 : nPeerId))) (example_filter two_peers ∅) ∧
    sink_calls f' = [] ++ cs ∧ Forall (λ c, c.1.1 ∈ dom (sinks f')) cs.
Proof.
  apply (filter_iteration (Some (CUnregisterPeer (7 : nPeerId))) (example_filter two_peers ∅)). done.
Defined.

Definition example_inputs : list (option FilterCommand) :=
  [Some (CRegisterPeer (7 : nPeerId) (1 : nSink)); Some (CInjectRequest (3 : nProtocol) (7 : nPeerId) ((5, (42, 10)) : nRequest)); None;
   Some (CInjectNotification (3 : nProtocol) (7 : nPeerId) ((43, 20) : nMessage)); None].

Definition example_new : Filter := example_filter ∅ ∅.

Example filter_reports_traffic_witness :
  ∃ f, run example_inputs example_new = Done f ∧
    filter (λ e, is_sent e = true) (queue (heuristics_handle f)) = [] ++ reports (1 : nInterfaceId) (sink_calls f) ∧
    filter (λ e, is_sent e = false) (queue (heuristics_handle f)) =
      [] ++ flat_map (received_report (1 : nInterfaceId)) example_inputs.
Proof.
  apply (filter_reports_traffic (1 : nInterfaceId) "" 0 new_channel new_channel example_new
           new_channel example_inputs); reflexivity.
Defined.

Example requests_answered_at_most_once_witness :
  ∃ f, run example_inputs example_new = Done f ∧ ∀ p rid,
    (answered p rid (sink_calls f).*1 + owed (pending_inbound f) p rid ≤
     asked p rid example_inputs)%nat.
Proof.
  apply (requests_answered_at_most_once (1 : nInterfaceId) "" 0 new_channel new_channel example_new
           new_channel example_inputs); reflexivity.
Defined.

Example notification_forwarded_by_default_witness :
  ∃ f' cs, inject_notification (3 : nProtocol) (7 : nPeerId) ((43, 20) : nMessage)
             (example_filter two_peers ∅) = Done (f', Ok tt) ∧
    sink_calls f' = [] ++ cs ∧
    cs.*1 ≡ₚ (λ q : nPeerId, (q, SendPacket (Some (3 : nProtocol)) ((43, 20) : nMessage))) <$> elements (dom two_peers : gset nPeerId) ∧
    peers f' = two_peers ∧ pending_inbound f' = ∅.
Proof.
  eapply (notification_forwarded_by_default (3 : nProtocol) (7 : nPeerId) ((43, 20) : nMessage)
           (example_filter two_peers ∅)); [done|reflexivity].
Defined.

Example closed_protocol_stays_open_witness :
  ∃ f' r info', protocol_closed (7 : nPeerId) (3 : nProtocol) (example_filter two_peers ∅) =
      Done (f', r) ∧
    peers f' !! (7 : nPeerId) = Some info' ∧ (3 : nProtocol) ∈ pi_protocols info'.
Proof.
  eapply (closed_protocol_stays_open (7 : nPeerId) (3 : nProtocol) (example_filter two_peers ∅));
    [done|reflexivity].
Defined.

(** Requests outlive the connection they came from: peer 7 sends request
    5, disconnects before it is answered and connects again with another
    sink; the response the executor then asks for is sent with the old request
    id over the new connection. *)
Theorem stale_request_answered_on_new_connection :
  (f ← run [Some (CRegisterPeer (7 : nPeerId) (1 : nSink)); Some (CInjectRequest (3 : nProtocol) (7 : nPeerId) ((5, (42, 10)) : nRequest));
            Some (CUnregisterPeer (7 : nPeerId)); Some (CRegisterPeer (7 : nPeerId) (2 : nSink)); None] example_new;
   mret (sink_calls f, sinks f !! (7 : nPeerId))) =
  Done ([((7 : nPeerId), SendResponse (5 : nRequestId) [1], true)], Some (2 : nSink)).
Proof. by vm_compute. Qed.
End examples.
