(* ===== verification/PyFilter.v ===== *)
(** * The Python executor in a filter

    [PyO3Executor] as the executor of [Filter.v]: the state of the executor is
    the one of [PyExecutor.v] with the interpreter as the filter finds it, so
    that whatever other filters do to the interpreter in between is part of how
    it behaves. *)

From S2P Require Import Prelude Backend Python PyExecutor Heuristics Filter.

Module PyFilter.
Section instance.
Context `{NB : NetworkBackend} {Obj Mod W : Type} `{PO : !PyObjects Obj, EO : !ExecutorObjects Obj, PY : !Python Obj Mod W}.
(** The [Debug] text of an interface, [rand::thread_rng().gen::<u64>()], and the
    interpreter at the time an executor is made. *)
Context (interface_debug : InterfaceId → string) (random : W → Z) (interpreter : W).

Abbreviation PyState := (PyExecutor.PyO3Executor Obj * W)%type.

(** A method that leaves the executor as it is. *)
Definition answer {A} (st : PyState) (m : W → outcome (result A Error * W)) : outcome (PyState * result A Error) :=
  '(r, w) ← m st.2; Done ((st.1, w), r).

(** An installation that succeeds changes the executor. *)
Definition install (st : PyState) (m : W → outcome (result (PyExecutor.PyO3Executor Obj) Error * W)) :
    outcome (PyState * result unit Error) :=
  '(r, w) ← m st.2;
  Done match r with Ok e => ((e, w), Ok tt) | Err err => ((st.1, w), Err err) end.

(** [impl Executor for PyO3Executor]. *)
Definition pyo3_executor : Executor := {|
  executor_state := PyState;
  initialize_interface code params :=
    fst <$> PyExecutor.initialize_interface code params (random interpreter) interpreter;
  executor_new i code ctx :=
    '(r, w) ← PyExecutor.new interface_debug i code ctx interpreter;
    Done match r with Ok e => Ok (e, w) | Err err => Err err end;
  executor_poll st := answer st (PyExecutor.poll st.1 (random st.2));
  executor_register_peer st p := answer st (PyExecutor.register_peer interface_debug st.1 p);
  executor_discover_peer st p := answer st (PyExecutor.discover_peer interface_debug st.1 p);
  executor_unregister_peer st p := answer st (PyExecutor.unregister_peer interface_debug st.1 p);
  executor_protocol_opened st p pr := answer st (PyExecutor.protocol_opened interface_debug st.1 p pr);
  executor_protocol_closed st p pr := answer st (PyExecutor.protocol_closed interface_debug st.1 p pr);
  executor_install_notification_filter st pr code :=
    install st (PyExecutor.install_notification_filter interface_debug st.1 pr code);
  executor_install_request_response_filter st pr code :=
    install st (PyExecutor.install_request_response_filter interface_debug st.1 pr code);
  executor_inject_notification st pr p n := answer st (PyExecutor.inject_notification interface_debug st.1 pr p n);
  executor_inject_request st pr p r := answer st (PyExecutor.inject_request interface_debug st.1 pr p r);
  executor_inject_response st pr p r := answer st (PyExecutor.inject_response interface_debug st.1 pr p r);
|}.

(** The two calls of [call_executor!], up to the object [poll] returns. *)
Definition run_filter (interface : InterfaceId) (code fn_name : string) (ctx : Obj) (args : list Obj) : py W Obj :=
  let module := PyExecutor.module_name interface_debug interface in
  let! m := PyExecutor.from_code code module in
  let! function := PyExecutor.getattr m fn_name in
  let! _ := PyExecutor.call1 function (ctx :: args) in
  let! m := PyExecutor.from_code code module in
  let! poll := PyExecutor.getattr m "poll" in
  PyExecutor.call1 poll [ctx].
End instance.
End PyFilter.
