(* ===== verification/PyFilterTheorems.v ===== *)
(** * A notification on its way through Python

    The filter and the Python executor together: what becomes of a
    notification, from the code that is run for it to the packets that are
    sent, for everything the code may return. *)

From S2P Require Import Prelude Backend Python PyExecutor PyExecutorTheorems Heuristics Filter FilterTheorems PyFilter.
Import PyFilter.

Section theorems.
Context `{NB : NetworkBackend} {Obj Mod W : Type} `{PO : !PyObjects Obj, EO : !ExecutorObjects Obj, PY : !Python Obj Mod W}.
Context `{PL : !PyObjectsLaws Obj, EL : !ExecutorObjectsLaws Obj}.
Context `{HS : !PacketSink} `{HO : !HashOrder PeerId}.
Context (interface_debug : InterfaceId → string) (random : W → Z) (interpreter : W).
#[local] Instance python_executor : Executor := pyo3_executor interface_debug random interpreter.
Implicit Types (f : Filter) (p : PeerId) (pr : Protocol) (n : Message) (w : W).
Abbreviation PyE := (PyExecutor.PyO3Executor Obj).

(** [call_executor!] reads the events from the object. *)
Lemma call_executor_run i code fn ctx args w :
  PyExecutor.call_executor interface_debug i code fn ctx args w =
    py_bind (run_filter interface_debug i code fn ctx args) (λ o, py_attempt (PyExecutor.extract_events o)) w.
Proof.
  unfold PyExecutor.call_executor, run_filter, py_bind. cbv zeta.
  repeat (match goal with |- context [match ?m with Done _ => _ | Panicked _ => _ end] => destruct m as [[[] ?]|] end; try done).
Qed.

(** The object the code of the filter for a notification returns. *)
Definition notification_run (e : PyE) code pr p n : W → outcome (result Obj string * W) :=
  run_filter interface_debug (PyExecutor.interface e) code "inject_notification" (PyExecutor.context e)
    [peer_into_object p; protocol_into_object pr; message_into_object n].

Lemma inject_installed (e : PyE) code pr p n w :
  PyExecutor.notification_filters e !! pr = Some code →
  executor_inject_notification (Executor := python_executor) (e, w) pr p n =
    match notification_run e code pr p n w with
    | Done (Ok o, w') =>
        match PyExecutor.extract_events o with
        | Done (Ok evs) => Done ((e, w'), Ok evs)
        | Done (Err why) => Done ((e, w'), Err (Error_from_PyErr why))
        | Panicked why => Panicked why
        end
    | Done (Err why, w') => Done ((e, w'), Err (Error_from_PyErr why))
    | Panicked why => Panicked why
    end.
Proof.
  intros Hcode. simpl. unfold answer, PyExecutor.inject_notification. rewrite Hcode. simpl.
  unfold PyExecutor.with_gil. rewrite call_executor_run. unfold py_bind, notification_run.
  destruct (run_filter _ _ _ _ _ _ w) as [[[o|why] w']|]; try done. unfold py_attempt.
  by destruct (PyExecutor.extract_events o) as [[]|].
Qed.

(** The filter after the report of the received notification. *)
Definition reported f pr p n : Filter :=
  with_heuristics (mkChannel (queue (heuristics_handle f) ++
    [HMessageReceived (interface f) pr p (message_hash n) (message_size n)]) true) f.

Lemma inject_reports pr p n f :
  channels_open f →
  inject_notification pr p n f =
    ('(ex, answer) ← executor_inject_notification (executor f) pr p n;
     let f := with_executor ex (reported f pr p n) in
     match answer with
     | Ok events => process_events events f
     | Err (EExecutorError ExecutorFilterDoesntExist) =>
         f ← for_each (send_notification pr n) (hash_iter (peers f)) f; mret (f, Ok tt)
     | Err err => mret (f, Err err)
     end).
Proof.
  intros [_ Hh]. unfold inject_notification, register_notification_received. by rewrite send_alive.
Qed.

Definition events_in (items : list (ExecutorEvent + list (string * Obj))) : list ExecutorEvent :=
  omap (λ item, match item with inl ev => Some ev | inr _ => None end) items.

(** C34: A notification on its way through Python. The filter reports it to the
    heuristics and runs the code installed for its protocol. The list of events
    the code returns is carried out as planned, dictionaries of other kinds
    being passed over: the packets sent, the connections asked for, the
    requests still pending and the result are those of the plan. An exception
    of the code ends the handling with an error and nothing is sent. A result
    that is neither a list nor None panics, and so ends the task of the
    filter. *)
Theorem notification_through_python pr p n f (e : PyE) w code :
  channels_open f → executor f = (e, w) → PyExecutor.notification_filters e !! pr = Some code →
  (∀ items w', notification_run e code pr p n w = Done (Ok (py_list (item_object <$> items)), w') →
     Forall item_ok items →
     let pl := plan (dom (peers f)) (pending_inbound f) (events_in items) in
     ∃ f' cs, inject_notification pr p n f = Done (f', pl_result pl) ∧ cs.*1 = pl_calls pl ∧
       did (with_executor (e, w') (reported f pr p n)) cs (pl_connects pl) (pl_pending pl) f') ∧
  (∀ why w', notification_run e code pr p n w = Done (Err why, w') →
     inject_notification pr p n f =
       Done (with_executor (e, w') (reported f pr p n), Err (Error_from_PyErr why))) ∧
  (∀ o w', notification_run e code pr p n w = Done (Ok o, w') → py_is_none o = false → py_as_list o = None →
     inject_notification pr p n f = Panicked ExpectFailed).
Proof.
  intros Ho He Hcode. rewrite inject_reports, He, (inject_installed e code pr p n w Hcode) by done. split_and!.
  - intros items w' -> Hitems pl. destruct (events_extracted items Hitems) as [-> _]. cbn [mbind outcome_bind].
    set (f1 := with_executor _ _). assert (channels_open f1) as Ho1 by (by destruct Ho).
    pose proof (process_events_follows (events_in items) f1 Ho1) as Hrun.
    apply runs_Done in Hrun as ([f' r] & Hrun & Hr & cs & Hcs & Hdid). simpl in Hr, Hcs, Hdid.
    exists f', cs. split; [|done]. etrans; [exact Hrun|]. by rewrite Hr.
  - intros why w' ->. done.
  - intros o w' -> Hnone Hlist. unfold PyExecutor.extract_events. rewrite Hnone, Hlist. done.
Qed.
End theorems.

(** ** A concrete interpreter *)
Section examples.
#[local] Existing Instances numbers_backend number_objects number_objects_laws demo_python numbered_sinks peers_order.
#[local] Instance demo_filter_executor : Executor := python_executor (Obj := PyValue) demo_debug Z.of_nat O.

#[local] Abbreviation nPeerId := (@PeerId numbers_backend) (only parsing).
#[local] Abbreviation nProtocolId := (@Protocol numbers_backend) (only parsing).
#[local] Abbreviation nMessage := (@Message numbers_backend) (only parsing).

Definition demo_installed : PyExecutor.PyO3Executor PyValue :=
  PyExecutor.mkExecutor PyNone (1 : @InterfaceId numbers_backend) "main"
    {[ (5 : nProtocolId) := "filter"%string ]} ∅.
Definition demo_filter : Filter :=
  {| executor := (demo_installed, O) : executor_state; interface := 1 : @InterfaceId numbers_backend;
     event_tx := new_channel; peers := ∅ : gmap nPeerId PeerInfo; pending_inbound := ∅;
     heuristics_handle := new_channel; poll_interval := 0; sink_calls := [] |}.
Definition demo_event : ExecutorEvent + list (string * PyValue) := inl (EvConnect (9 : nPeerId)).

Lemma notification_through_python_witness :
  ∃ f' cs, inject_notification (5 : nProtocolId) (7 : nPeerId) ((1, 2) : nMessage) demo_filter = Done (f', Ok tt) ∧
    cs.*1 = [] ∧
    did (with_executor ((demo_installed, 2%nat) : executor_state)
           (reported demo_debug Z.of_nat O demo_filter (5 : nProtocolId) (7 : nPeerId) ((1, 2) : nMessage)))
        cs [9 : nPeerId] ∅ f'.
Proof.
  destruct (notification_through_python demo_debug Z.of_nat O (5 : nProtocolId) (7 : nPeerId) ((1, 2) : nMessage)
    demo_filter demo_installed O "filter") as [Hok _]; [done|done|by vm_compute|].
  apply (Hok [demo_event] 2%nat); [by vm_compute|]. by repeat constructor.
Defined.
End examples.
