(* ===== verification/LinkGraph.v ===== *)
(** * The graph of linked interfaces

    What the overseer uses of [petgraph::graph::UnGraph], as an interface: the
    operations with their documented behaviour. Node indices are stable as
    long as no node is removed; removing an edge moves the edge with the last
    index to the index freed; a depth-first traversal visits every node
    reachable from its start exactly once. An adjacency list shows that the
    interface can be implemented. *)

From S2P Require Import Prelude.

Class LinkGraph (W : Type) := {
  graph : Type;
  new_undirected : graph;
  add_node : graph → W → graph * nat;
  (** Panics when one of the nodes does not exist. *)
  add_edge : graph → nat → nat → outcome (graph * nat);
  remove_edge : graph → nat → graph * option unit;
  node_weight : graph → nat → option W;
  edge_endpoints : graph → nat → option (nat * nat);
  (** [Dfs::new(&g, start).iter(&g)]. *)
  dfs : graph → nat → list nat;
}.

Section reachability.
Context `{LinkGraph W}.

(** Two nodes with an edge between them, in either direction. *)
Definition adjacent (g : graph) (a b : nat) : Prop :=
  ∃ e, edge_endpoints g e = Some (a, b) ∨ edge_endpoints g e = Some (b, a).
Definition reachable (g : graph) : nat → nat → Prop := rtc (adjacent g).

Lemma adjacent_sym g a b : adjacent g a b → adjacent g b a.
Proof. intros [e []]; exists e; auto. Qed.

Lemma reachable_sym g a b : reachable g a b → reachable g b a.
Proof.
  induction 1 as [|a b c Hab _ IH]; [done|]. etrans; [exact IH|].
  by apply rtc_once, adjacent_sym.
Qed.

(** The graph after the removal of edge [e], where [l] is the last index. *)
Definition edge_removed (g g' : graph) (e l : nat) : Prop :=
  is_Some (edge_endpoints g l) ∧ edge_endpoints g' l = None ∧
  (e ≠ l → edge_endpoints g' e = edge_endpoints g l) ∧
  ∀ i, i ≠ e → i ≠ l → edge_endpoints g' i = edge_endpoints g i.
End reachability.

Class LinkGraphLaws W `{LinkGraph W} := {
  new_no_nodes n : node_weight new_undirected n = None;
  new_no_edges e : edge_endpoints new_undirected e = None;
  add_node_fresh g w : node_weight g (add_node g w).2 = None;
  add_node_weight g w n :
    node_weight (add_node g w).1 n = if decide (n = (add_node g w).2) then Some w else node_weight g n;
  add_node_edges g w e : edge_endpoints (add_node g w).1 e = edge_endpoints g e;
  add_edge_ok g a b :
    is_Some (node_weight g a) → is_Some (node_weight g b) →
    ∃ g' e, add_edge g a b = Done (g', e) ∧ edge_endpoints g e = None ∧
      (∀ i, edge_endpoints g' i = if decide (i = e) then Some (a, b) else edge_endpoints g i) ∧
      (∀ n, node_weight g' n = node_weight g n) ∧
      (** The new edge has the last index. *)
      (∀ i, is_Some (edge_endpoints g i) → (i < e)%nat);
  remove_edge_missing g e : edge_endpoints g e = None → remove_edge g e = (g, None);
  remove_edge_ok g e :
    is_Some (edge_endpoints g e) →
    ∃ g' l, remove_edge g e = (g', Some tt) ∧ edge_removed g g' e l ∧
      (∀ i, is_Some (edge_endpoints g i) → (i ≤ l)%nat) ∧
      (∀ n, node_weight g' n = node_weight g n);
  dfs_nodup g n : NoDup (dfs g n);
  dfs_reachable g n m : is_Some (node_weight g n) → m ∈ dfs g n ↔ reachable g n m;
}.

(** ** An adjacency list *)
Section adjacency.
Context {W : Type}.

Record adjacency := mkAdjacency { nodes : list W; edge_list : list (nat * nat) }.

Definition neighbours (es : list (nat * nat)) (n : nat) : list nat :=
  omap (λ e, if decide (e.1 = n) then Some e.2 else if decide (e.2 = n) then Some e.1 else None) es.

Definition grow (es : list (nat * nat)) (s : gset nat) : gset nat :=
  s ∪ list_to_set (flat_map (neighbours es) (elements s)).

(** Every round adds a node or nothing more is reachable. *)
Definition closure (es : list (nat * nat)) (start : nat) : gset nat :=
  Nat.iter (2 * length es) (grow es) {[start]}.

(** [Vec::swap_remove]. *)
Definition swap_remove {A} (l : list A) (i : nat) : list A :=
  match last l with
  | Some x => take (length l - 1) (<[i := x]> l)
  | None => l
  end.

#[export] Instance adjacency_graph : LinkGraph W := {|
  graph := adjacency;
  new_undirected := mkAdjacency [] [];
  add_node g w := (mkAdjacency (nodes g ++ [w]) (edge_list g), length (nodes g));
  add_edge g a b :=
    if decide (a < length (nodes g) ∧ b < length (nodes g))%nat
    then Done (mkAdjacency (nodes g) (edge_list g ++ [(a, b)]), length (edge_list g))
    else Panicked IndexOutOfBounds;
  remove_edge g e :=
    match edge_list g !! e with
    | Some _ => (mkAdjacency (nodes g) (swap_remove (edge_list g) e), Some tt)
    | None => (g, None)
    end;
  node_weight g n := nodes g !! n;
  edge_endpoints g e := edge_list g !! e;
  dfs g n := elements (closure (edge_list g) n);
|}.

(** ** The adjacency list obeys the laws *)
Lemma elem_of_neighbours es n m :
  m ∈ neighbours es n ↔ (n, m) ∈ es ∨ (m, n) ∈ es.
Proof.
  unfold neighbours. rewrite list_elem_of_omap. split.
  - intros ([a b] & Hin & Heq). simpl in *. repeat case_decide; simplify_eq; auto.
  - intros [Hin|Hin]; [exists (n, m)|exists (m, n)]; (split; [done|]); simpl.
    + by rewrite decide_True.
    + case_decide; [by subst|]. by rewrite decide_True.
Qed.

Lemma elem_of_grow es s m :
  m ∈ grow es s ↔ m ∈ s ∨ ∃ n, n ∈ s ∧ ((n, m) ∈ es ∨ (m, n) ∈ es).
Proof.
  unfold grow. rewrite elem_of_union, elem_of_list_to_set, list_elem_of_In, in_flat_map.
  setoid_rewrite <- list_elem_of_In. setoid_rewrite elem_of_elements.
  by setoid_rewrite elem_of_neighbours.
Qed.

(** The nodes that can occur. *)
Definition universe (es : list (nat * nat)) (start : nat) : gset nat :=
  list_to_set (start :: es.*1 ++ es.*2).

Lemma size_list_to_set_le (l : list nat) : (size (list_to_set l : gset nat) ≤ length l)%nat.
Proof.
  induction l as [|x l IH]; [done|]. cbn [list_to_set length]. rewrite size_union_alt, size_singleton.
  enough (size (list_to_set l ∖ {[x]} : gset nat) ≤ size (list_to_set l : gset nat))%nat by lia.
  apply subseteq_size. set_solver.
Qed.

Lemma grow_universe es start s : s ⊆ universe es start → grow es s ⊆ universe es start.
Proof.
  intros Hs m [Hm|(n & Hn & Hm)]%elem_of_grow; [auto|]. unfold universe.
  apply elem_of_list_to_set, list_elem_of_further, elem_of_app.
  destruct Hm as [Hm|Hm]; [right|left]; apply list_elem_of_fmap; by eexists (_, _).
Qed.

(** Each round adds a node, unless the set is closed already. *)
Lemma iter_grow es start k :
  let s := Nat.iter k (grow es) {[start]} in
  s ⊆ universe es start ∧ (grow es s = s ∨ (k < size s)%nat).
Proof.
  intros s. subst s. induction k as [|k [Hsub IH]].
  - change (Nat.iter 0 _ ?s) with s. rewrite size_singleton. split; [set_solver|right; lia].
  - rewrite Nat.iter_succ. split; [by apply grow_universe|].
    set (s := Nat.iter k (grow es) {[start]}) in *.
    destruct (decide (grow es s = s)) as [Heq|Hne]; [left; by rewrite !Heq|right].
    destruct IH as [|IH]; [done|].
    assert (s ⊂ grow es s) as Hlt%subset_size; [|lia].
    split; [unfold grow; set_solver|]. intros Hsup. apply Hne. unfold grow in *. set_solver.
Qed.

Lemma closure_closed es start : grow es (closure es start) = closure es start.
Proof.
  destruct (iter_grow es start (2 * length es)) as [Hsub [Hc|Hlt]]; [done|].
  fold (closure es start) in *.
  assert (size (universe es start) ≤ S (2 * length es))%nat as Hu.
  { unfold universe. etrans; [apply size_list_to_set_le|]. simpl.
    rewrite length_app, !length_fmap. lia. }
  assert (closure es start = universe es start) as Heq.
  { apply set_eq. apply set_subseteq_size_equiv; [done|lia]. }
  rewrite Heq. apply set_eq. intros m. split; [apply grow_universe; done|].
  rewrite elem_of_grow. auto.
Qed.

Lemma elem_of_closure (g : adjacency) start m :
  m ∈ closure (edge_list g) start ↔ reachable g start m.
Proof.
  assert (∀ a b, adjacent g a b ↔ (a, b) ∈ edge_list g ∨ (b, a) ∈ edge_list g) as Hadj.
  { intros a b. unfold adjacent. simpl. rewrite !list_elem_of_lookup. naive_solver. }
  split.
  - unfold closure. generalize (2 * length (edge_list g))%nat as k. intros k. revert m.
    induction k as [|k IH]; simpl; intros m.
    + rewrite elem_of_singleton. by intros ->.
    + intros [Hm|(n & Hn & Hm)]%elem_of_grow; [auto|]. eapply rtc_r; [by apply IH|].
      by apply Hadj.
  - intros Hr. assert (start ∈ closure (edge_list g) start) as Hs.
    { unfold closure. generalize (2 * length (edge_list g))%nat as k. induction k; simpl;
        [set_solver|]. apply elem_of_grow. auto. }
    revert Hs. generalize (closure (edge_list g) start), (closure_closed (edge_list g) start).
    intros s Hc Hs. induction Hr as [|a b c Hab _ IH]; [done|]. apply IH. rewrite <- Hc.
    apply elem_of_grow. right. exists a. split; [done|]. by apply Hadj.
Qed.

Lemma length_swap_remove {A} (l : list A) e : length (swap_remove l e) = (length l - 1)%nat.
Proof.
  unfold swap_remove. destruct (last l) eqn:Hl.
  - rewrite length_take, length_insert. lia.
  - apply last_None in Hl. by subst.
Qed.

Lemma lookup_swap_remove {A} (l : list A) e i :
  (e < length l)%nat →
  swap_remove l e !! i =
    if decide (i < length l - 1)%nat
    then if decide (i = e) then l !! (length l - 1)%nat else l !! i
    else None.
Proof.
  intros He. unfold swap_remove. destruct (last l) as [x|] eqn:Hl; rewrite last_lookup in Hl.
  - replace (pred (length l)) with (length l - 1)%nat in Hl by lia. case_decide.
    + rewrite lookup_take_lt by lia. case_decide as Hie.
      * subst. by rewrite list_lookup_insert_eq.
      * by rewrite list_lookup_insert_ne.
    + rewrite lookup_take_ge; [done|lia].
  - apply lookup_ge_None in Hl. lia.
Qed.

#[export] Instance adjacency_laws : LinkGraphLaws W.
Proof.
  split; simpl.
  - done.
  - done.
  - intros g w. apply lookup_ge_None. lia.
  - intros g w n. case_decide; subst.
    + by rewrite list_lookup_middle.
    + destruct (decide (n < length (nodes g))%nat).
      * by rewrite lookup_app_l.
      * rewrite !(proj2 (lookup_ge_None _ _)); [done| |]; rewrite ?length_app; simpl; lia.
  - done.
  - intros g a b Ha%lookup_lt_is_Some Hb%lookup_lt_is_Some. rewrite decide_True by done.
    do 2 eexists. split_and!; [done| | |done|].
    + apply lookup_ge_None. lia.
    + intros i. simpl. case_decide; subst.
      * by rewrite list_lookup_middle.
      * destruct (decide (i < length (edge_list g))%nat).
        -- by rewrite lookup_app_l.
        -- rewrite !(proj2 (lookup_ge_None _ _)); [done| |]; rewrite ?length_app; simpl; lia.
    + intros i Hi%lookup_lt_is_Some. done.
  - intros g e ->. done.
  - intros g e [x Hx]. rewrite Hx. pose proof (lookup_lt_Some _ _ _ Hx) as He.
    exists (mkAdjacency (nodes g) (swap_remove (edge_list g) e)), (length (edge_list g) - 1)%nat.
    split_and!; [done| | |done].
    + unfold edge_removed. simpl. split_and!.
      * apply lookup_lt_is_Some. lia.
      * rewrite lookup_swap_remove, decide_False by lia. done.
      * intros Hne. rewrite lookup_swap_remove, decide_True, decide_True by lia. done.
      * intros i Hie Hil. rewrite lookup_swap_remove by done. case_decide.
        -- by rewrite decide_False.
        -- symmetry. apply lookup_ge_None. lia.
    + intros i Hi%lookup_lt_is_Some. lia.
  - intros g n. apply NoDup_elements.
  - intros g n m _. by rewrite elem_of_elements, elem_of_closure.
Qed.
End adjacency.
