(* ===== verification/Overseer.v ===== *)
(** * The overseer

    Model of [overseer.rs]: the interfaces with their peers and filters, the
    graph of links between interfaces, every handler and the dispatch of the
    event loop. The filters are reached through their command channels, the
    network through the traits of [Backend.v], the graph through
    [LinkGraph.v]. *)

From S2P Require Import Prelude Backend Heuristics Filter LinkGraph.

Section overseer.
Context `{HB : NetworkBackend} `{HE : !Executor} `{HS : !PacketSink} `{HI : !Interfaces}.
Context `{HG : !LinkGraph InterfaceId} `{HO : !HashOrder InterfaceId} `{HP : !HashOrder Protocol}.

(** ** State *)
Record PeerInfo := mkPeerInfo { protocols : gset Protocol }.

Record InterfaceInfo := mkInterfaceInfo {
  handle : InterfaceHandle;
  discovered : gset PeerId;
  ii_peers : gmap PeerId PeerInfo;
  filter : FilterHandle;
  index : nat;
  ii_peer : PeerId;
}.

Definition InterfaceInfo_new (index : nat) (peer : PeerId) (handle : InterfaceHandle)
    (filter : FilterHandle) : InterfaceInfo :=
  {| handle := handle; discovered := ∅; ii_peers := ∅; filter := filter; index := index;
     ii_peer := peer |}.

Definition with_handle h (i : InterfaceInfo) : InterfaceInfo :=
  {| handle := h; discovered := discovered i; ii_peers := ii_peers i; filter := filter i;
     index := index i; ii_peer := ii_peer i |}.
Definition with_discovered d (i : InterfaceInfo) : InterfaceInfo :=
  {| handle := handle i; discovered := d; ii_peers := ii_peers i; filter := filter i;
     index := index i; ii_peer := ii_peer i |}.
Definition with_ii_peers p (i : InterfaceInfo) : InterfaceInfo :=
  {| handle := handle i; discovered := discovered i; ii_peers := p; filter := filter i;
     index := index i; ii_peer := ii_peer i |}.
Definition with_filter f (i : InterfaceInfo) : InterfaceInfo :=
  {| handle := handle i; discovered := discovered i; ii_peers := ii_peers i; filter := f;
     index := index i; ii_peer := ii_peer i |}.

Record Overseer := mkOverseer {
  backend : backend_state;
  interfaces : gmap InterfaceId InterfaceInfo;
  interface_peer_ids : gmap PeerId InterfaceId;
  event_streams : list event_stream;
  filter_event_tx : channel FilterEvent;
  links : graph;
  edges : gmap (InterfaceId * InterfaceId) nat;
  heuristics_handle : HeuristicsHandle;
  parameters : NetworkParameters;
  (** The filters started with [tokio::spawn(filter.run())]. *)
  spawned : list Filter;
  (** The answers sent to the RPC, with the number of their [oneshot]. *)
  replies : list (nat * result (option InterfaceId) Error);
}.

Definition with_backend b (o : Overseer) : Overseer :=
  {| backend := b; interfaces := interfaces o; interface_peer_ids := interface_peer_ids o;
     event_streams := event_streams o; filter_event_tx := filter_event_tx o; links := links o;
     edges := edges o; heuristics_handle := heuristics_handle o; parameters := parameters o;
     spawned := spawned o; replies := replies o |}.
Definition with_interfaces i (o : Overseer) : Overseer :=
  {| backend := backend o; interfaces := i; interface_peer_ids := interface_peer_ids o;
     event_streams := event_streams o; filter_event_tx := filter_event_tx o; links := links o;
     edges := edges o; heuristics_handle := heuristics_handle o; parameters := parameters o;
     spawned := spawned o; replies := replies o |}.
Definition with_links l (o : Overseer) : Overseer :=
  {| backend := backend o; interfaces := interfaces o; interface_peer_ids := interface_peer_ids o;
     event_streams := event_streams o; filter_event_tx := filter_event_tx o; links := l;
     edges := edges o; heuristics_handle := heuristics_handle o; parameters := parameters o;
     spawned := spawned o; replies := replies o |}.
Definition with_edges e (o : Overseer) : Overseer :=
  {| backend := backend o; interfaces := interfaces o; interface_peer_ids := interface_peer_ids o;
     event_streams := event_streams o; filter_event_tx := filter_event_tx o; links := links o;
     edges := e; heuristics_handle := heuristics_handle o; parameters := parameters o;
     spawned := spawned o; replies := replies o |}.
Definition with_heuristics h (o : Overseer) : Overseer :=
  {| backend := backend o; interfaces := interfaces o; interface_peer_ids := interface_peer_ids o;
     event_streams := event_streams o; filter_event_tx := filter_event_tx o; links := links o;
     edges := edges o; heuristics_handle := h; parameters := parameters o;
     spawned := spawned o; replies := replies o |}.
Definition with_replies r (o : Overseer) : Overseer :=
  {| backend := backend o; interfaces := interfaces o; interface_peer_ids := interface_peer_ids o;
     event_streams := event_streams o; filter_event_tx := filter_event_tx o; links := links o;
     edges := edges o; heuristics_handle := heuristics_handle o; parameters := parameters o;
     spawned := spawned o; replies := r |}.

Definition new (parameters : NetworkParameters) : Overseer :=
  {| backend := backend_new parameters; interfaces := ∅; interface_peer_ids := ∅;
     event_streams := []; filter_event_tx := new_channel; links := new_undirected; edges := ∅;
     heuristics_handle := new_channel; parameters := parameters; spawned := []; replies := [] |}.

Definition set_interface (i : InterfaceId) (info : InterfaceInfo) (o : Overseer) : Overseer :=
  with_interfaces (<[i := info]> (interfaces o)) o.

(** ** Interfaces and links *)

(** The node is added to the graph before the filter is created, and stays
    there when the executor refuses the code of the filter. *)
Definition create_interface (address : SocketAddr) (code : string) (poll_interval : Duration)
    (preinit : option string) (o : Overseer) : outcome (Overseer * result InterfaceId Error) :=
  params ← match preinit with
           | Some code =>
               r ← initialize_interface code (parameters o);
               mret match r with Ok params => Ok (Some params) | Err e => Err e end
           | None => mret (Ok None)
           end;
  match params with
  | Err e => mret (o, Err e)
  | Ok params =>
      '(b, spawned_interface) ← spawn_interface (backend o) address Masquerade params;
      let o := with_backend b o in
      match spawned_interface with
      | Err e => mret (o, Err e)
      | Ok (handle, stream) =>
          match interfaces o !! handle_interface_id handle with
          | Some _ => mret (o, Err InterfaceAlreadyExists)
          | None =>
              let interface_id := handle_interface_id handle in
              let peer_id := handle_peer_id handle in
              let '(g, node_index) := add_node (links o) interface_id in
              let o := with_links g o in
              f ← Filter.new interface_id code poll_interval (filter_event_tx o) (heuristics_handle o);
              match f with
              | Err e => mret (o, Err e)
              | Ok (f, filter_handle) =>
                  mret ({| backend := backend o;
                      interfaces :=
                        <[interface_id :=
                            InterfaceInfo_new node_index peer_id handle filter_handle]>
                          (interfaces o);
                      interface_peer_ids := <[peer_id := interface_id]> (interface_peer_ids o);
                      event_streams := event_streams o ++ [stream];
                      filter_event_tx := filter_event_tx o; links := links o; edges := edges o;
                      heuristics_handle := heuristics_handle o; parameters := parameters o;
                      spawned := spawned o ++ [f]; replies := replies o |}, Ok interface_id)
              end
          end
      end
  end.

Definition link_interfaces (first second : InterfaceId) (o : Overseer) :
    outcome (Overseer * result unit Error) :=
  match interfaces o !! first, interfaces o !! second with
  | Some first_info, Some second_info =>
      '(g, edge) ← add_edge (links o) (index first_info) (index second_info);
      let o := with_edges (<[(first, second) := edge]> (edges o)) (with_links g o) in
      h ← h_link_interfaces first second (heuristics_handle o);
      mret (with_heuristics h o, Ok tt)
  | _, _ => mret (o, Err InterfaceDoesntExist)
  end.

(** The heuristics are told that the interfaces were linked. *)
Definition unlink_interfaces (first second : InterfaceId) (o : Overseer) :
    outcome (Overseer * result unit Error) :=
  match edges o !! (first, second) with
  | None => mret (o, Err LinkDoesntExist)
  | Some edge =>
      let o := with_edges (delete (first, second) (edges o)) o in
      h ← h_link_interfaces first second (heuristics_handle o);
      let '(g, removed) := remove_edge (links o) edge in
      let o := with_links g (with_heuristics h o) in
      mret (o, match removed with Some _ => Ok tt | None => Err LinkDoesntExist end)
  end.

(** ** Peers *)
Definition register_peer (interface : InterfaceId) (peer : PeerId) (prs : list Protocol)
    (s : sink) (o : Overseer) : outcome (Overseer * result unit Error) :=
  match interface_peer_ids o !! peer with
  | Some _ => mret (o, Ok tt)
  | None =>
      match interfaces o !! interface with
      | None => mret (o, Err InterfaceDoesntExist)
      | Some info =>
          let info :=
            with_ii_peers (<[peer := {| protocols := list_to_set prs |}]> (ii_peers info)) info in
          f ← fh_register_peer peer s (filter info);
          let o := set_interface interface (with_filter f info) o in
          h ← h_register_peer interface peer (heuristics_handle o);
          mret (with_heuristics h o, Ok tt)
      end
  end.

Definition unregister_peer (interface : InterfaceId) (peer : PeerId) (o : Overseer) :
    outcome (Overseer * result unit Error) :=
  match interface_peer_ids o !! peer with
  | Some _ => mret (o, Ok tt)
  | None =>
      match interfaces o !! interface with
      | None => mret (o, Err InterfaceDoesntExist)
      | Some info =>
          match ii_peers info !! peer with
          | None => mret (o, Err PeerDoesntExist)
          | Some _ =>
              let info := with_ii_peers (delete peer (ii_peers info)) info in
              f ← fh_unregister_peer peer (filter info);
              let o := set_interface interface (with_filter f info) o in
              h ← h_unregister_peer interface peer (heuristics_handle o);
              mret (with_heuristics h o, Ok tt)
          end
      end
  end.

(** [match self.interfaces.get_mut(&interface) { None => Err(..), Some(info) =>
    { info.filter.command(..).await; Ok(()) } }]. *)
Definition command (interface : InterfaceId) (send_command : FilterHandle → outcome FilterHandle)
    (o : Overseer) : outcome (Overseer * result unit Error) :=
  match interfaces o !! interface with
  | None => mret (o, Err InterfaceDoesntExist)
  | Some info =>
      f ← send_command (filter info);
      mret (set_interface interface (with_filter f info) o, Ok tt)
  end.

Definition install_notification_filter (interface : InterfaceId) (protocol : Protocol)
    (filter_code context : string) : Overseer → outcome (Overseer * result unit Error) :=
  command interface (fh_install_notification_filter protocol filter_code (Some context)).

Definition install_request_response_filter (interface : InterfaceId) (protocol : Protocol)
    (filter_code context : string) : Overseer → outcome (Overseer * result unit Error) :=
  command interface (fh_install_request_response_filter protocol filter_code (Some context)).

(** Pass a notification on to one linked interface. *)
Definition inject_into (peer : PeerId) (protocol : Protocol) (notification : Message)
    (o : Overseer) (interface : InterfaceId) : outcome Overseer :=
  info ← expect (interfaces o !! interface);
  f ← fh_inject_notification protocol peer notification (filter info);
  mret (set_interface interface (with_filter f info) o).

Definition inject_notification (interface : InterfaceId) (peer : PeerId) (protocol : Protocol)
    (notification : Message) (o : Overseer) : outcome (Overseer * result unit Error) :=
  match interfaces o !! interface with
  | None => mret (o, Err InterfaceDoesntExist)
  | Some info =>
      linked_interfaces ← for_each (λ l nx,
          i ← expect (node_weight (links o) nx); mret (l ++ [i]))
        (dfs (links o) (index info)) [];
      o ← for_each (inject_into peer protocol notification) linked_interfaces o;
      mret (o, Ok tt)
  end.

Definition inject_request (interface : InterfaceId) (peer : PeerId) (protocol : Protocol)
    (request : Request) : Overseer → outcome (Overseer * result unit Error) :=
  command interface (fh_inject_request protocol peer request).

Definition inject_response (interface : InterfaceId) (peer : PeerId) (protocol : Protocol)
    (response : Response) : Overseer → outcome (Overseer * result unit Error) :=
  command interface (fh_inject_response protocol peer response).

(** Announce one protocol of a [ConnectionUpgrade] to the filter and to the
    heuristics. *)
Definition upgrade_protocol (interface : InterfaceId)
    (to_filter : Protocol → FilterHandle → outcome FilterHandle)
    (to_heuristics : Protocol → HeuristicsHandle → outcome HeuristicsHandle)
    (o : Overseer) (protocol : Protocol) : outcome Overseer :=
  info ← expect (interfaces o !! interface);
  f ← to_filter protocol (filter info);
  let o := set_interface interface (with_filter f info) o in
  h ← to_heuristics protocol (heuristics_handle o);
  mret (with_heuristics h o).

Definition apply_connection_upgrade (interface : InterfaceId) (peer : PeerId)
    (upgrade : ConnectionUpgrade) (o : Overseer) : outcome (Overseer * result unit Error) :=
  _ ← expect (interfaces o !! interface);
  o ← match upgrade with
      | UpProtocolOpened prs =>
          for_each (upgrade_protocol interface (fh_protocol_opened peer)
                      (register_protocol_opened interface peer)) (hash_keys prs) o
      | UpProtocolClosed prs =>
          for_each (upgrade_protocol interface (fh_protocol_closed peer)
                      (register_protocol_closed interface peer)) (hash_keys prs) o
      end;
  mret (o, Ok tt).

(** [if info.discovered.insert(peer) { info.filter.discover_peer(peer).await }]. *)
Definition discover_at (peer : PeerId) (o : Overseer) (interface : InterfaceId) :
    outcome Overseer :=
  match interfaces o !! interface with
  | None => mret o
  | Some info =>
      if decide (peer ∈ discovered info) then mret o
      else
        let info := with_discovered ({[peer]} ∪ discovered info) info in
        f ← fh_discover_peer peer (filter info);
        mret (set_interface interface (with_filter f info) o)
  end.

Definition discover_peer (peer : PeerId) (o : Overseer) : outcome (Overseer * result unit Error) :=
  match interface_peer_ids o !! peer with
  | Some _ => mret (o, Ok tt)
  | None =>
      o ← for_each (discover_at peer) (hash_keys (dom (interfaces o))) o;
      mret (o, Ok tt)
  end.

Definition connect_to_peer (interface : InterfaceId) (peer : PeerId) (o : Overseer) :
    outcome (Overseer * result unit Error) :=
  match interfaces o !! interface with
  | None => mret (o, Err InterfaceDoesntExist)
  | Some info =>
      '(h, r) ← handle_connect (handle info) peer;
      mret (set_interface interface (with_handle h info) o, r)
  end.

(** ** The event loop *)
Inductive input :=
  | FromRpc (event : OverseerEvent)
  | FromInterface (event : InterfaceEvent)
  | FromFilter (event : FilterEvent).

(** [result.send(..).expect("channel to stay open")]. *)
Definition reply_with (reply : oneshot) (answer : result (option InterfaceId) Error)
    (o : Overseer) : outcome Overseer :=
  if waiting reply then mret (with_replies (replies o ++ [(reply_to reply, answer)]) o)
  else Panicked ExpectFailed.

Definition no_id (r : result unit Error) : result (option InterfaceId) Error :=
  match r with Ok _ => Ok None | Err e => Err e end.

Definition handle_rpc (event : OverseerEvent) (o : Overseer) : outcome Overseer :=
  match event with
  | CreateInterface address code poll_interval preinit reply =>
      '(o, r) ← create_interface address code poll_interval preinit o;
      reply_with reply (match r with Ok i => Ok (Some i) | Err e => Err e end) o
  | LinkInterface first second reply =>
      '(o, r) ← link_interfaces first second o;
      reply_with reply (no_id r) o
  | UnlinkInterface first second reply =>
      '(o, r) ← unlink_interfaces first second o;
      reply_with reply (no_id r) o
  | OvInstallNotificationFilter interface protocol filter_code context reply =>
      '(o, r) ← install_notification_filter interface protocol filter_code context o;
      reply_with reply (no_id r) o
  | OvInstallRequestResponseFilter interface protocol filter_code context reply =>
      '(o, r) ← install_request_response_filter interface protocol filter_code context o;
      reply_with reply (no_id r) o
  end.

Definition handle_interface_event (event : InterfaceEvent) (o : Overseer) :
    outcome (Overseer * result unit Error) :=
  match event with
  | PeerConnected interface peer prs s => register_peer interface peer prs s o
  | PeerDisconnected interface peer => unregister_peer interface peer o
  | MessageReceived interface peer protocol message =>
      inject_notification interface peer protocol message o
  | RequestReceived interface peer protocol request =>
      inject_request interface peer protocol request o
  | ResponseReceived interface peer protocol _ response =>
      inject_response interface peer protocol response o
  | ConnectionUpgraded interface peer upgrade =>
      apply_connection_upgrade interface peer upgrade o
  | PeerDiscovered peer => discover_peer peer o
  end.

(** One iteration; the errors of the handlers are logged. *)
Definition step (o : Overseer) (i : input) : outcome Overseer :=
  match i with
  | FromRpc event => handle_rpc event o
  | FromInterface event => fst <$> handle_interface_event event o
  | FromFilter (FConnect interface peer) => fst <$> connect_to_peer interface peer o
  end.

Definition run (inputs : list input) (o : Overseer) : outcome Overseer := for_each step inputs o.
End overseer.
