(* ===== verification/OverseerFacts.v ===== *)
(** * The overseer: invariant and lemmas

    An invariant of the overseer (the graph has a node for every interface and
    only links interfaces; what an interface knows of its peers is what its
    filter was told), that every event preserves it without a panic, the
    traversal of the links, and the peers a filter knows after the commands it
    was sent. *)

From S2P Require Import Prelude Backend Heuristics Filter FilterTheorems LinkGraph Overseer.

Section invariant.
Context `{HB : NetworkBackend} `{HE : !Executor} `{HS : !PacketSink} `{HI : !Interfaces}.
Context `{HG : !LinkGraph InterfaceId} `{HGL : !LinkGraphLaws InterfaceId}.
Context `{HO : !HashOrder InterfaceId} `{HP : !HashOrder Protocol}.
Context `{HER : !ExecutorRuns} `{HIR : !InterfacesRun}.
Implicit Types (o : Overseer) (i j : InterfaceId) (info : InterfaceInfo) (p : PeerId).

(** ** What a filter was told *)

(** The peers registered by a sequence of commands. *)
Definition registry_step (s : gset PeerId) (c : FilterCommand) : gset PeerId :=
  match c with
  | CRegisterPeer p _ => {[p]} ∪ s
  | CUnregisterPeer p => s ∖ {[p]}
  | _ => s
  end.
Definition registered_by (cs : list FilterCommand) : gset PeerId := fold_left registry_step cs ∅.

(** How often a peer was announced as discovered. *)
Definition announces p (c : FilterCommand) : bool :=
  match c with CDiscoverPeer p' => bool_decide (p' = p) | _ => false end.
Definition announced p (cs : list FilterCommand) : nat :=
  length (base.filter (λ c, announces p c = true) cs).

Lemma registered_by_snoc cs c : registered_by (cs ++ [c]) = registry_step (registered_by cs) c.
Proof. unfold registered_by. by rewrite fold_left_app. Qed.

Lemma announced_snoc p cs c :
  announced p (cs ++ [c]) = (announced p cs + if announces p c then 1 else 0)%nat.
Proof.
  unfold announced. rewrite filter_app, length_app, filter_cons, filter_nil.
  by destruct (announces p c).
Qed.

(** A command about neither registration nor discovery. *)
Definition quiet (c : FilterCommand) : Prop :=
  match c with CRegisterPeer _ _ | CUnregisterPeer _ | CDiscoverPeer _ => False | _ => True end.

(** ** The invariant *)
Record local_ok info : Prop := {
  lo_alive : receiver_alive (filter info) = true;
  lo_peers : dom (ii_peers info) = registered_by (queue (filter info));
  lo_discovered p :
    announced p (queue (filter info)) = if decide (p ∈ discovered info) then 1%nat else 0%nat;
}.

(** The node of an interface. *)
Definition is_node o (a : nat) : Prop :=
  ∃ i info, interfaces o !! i = Some info ∧ index info = a.

Record inv o : Prop := {
  inv_heuristics : receiver_alive (heuristics_handle o) = true;
  inv_local i info : interfaces o !! i = Some info → local_ok info;
  inv_index i info : interfaces o !! i = Some info → node_weight (links o) (index info) = Some i;
  inv_edges e a b : edge_endpoints (links o) e = Some (a, b) → is_node o a ∧ is_node o b;
}.

Lemma inv_new params : inv (new params).
Proof.
  split; simpl; [done|..].
  - intros i info. by rewrite lookup_empty.
  - intros i info. by rewrite lookup_empty.
  - intros e a b. by rewrite new_no_edges.
Qed.

(** Operations that leave interfaces and links alone. *)
Lemma inv_frame o o' :
  inv o → receiver_alive (heuristics_handle o') = true →
  interfaces o' = interfaces o → links o' = links o → inv o'.
Proof.
  intros [] Hh Hi Hl. split; [done|unfold is_node; rewrite ?Hi, ?Hl; eauto..].
Qed.

Lemma inv_set_interface o i info info' :
  inv o → interfaces o !! i = Some info → index info' = index info → local_ok info' →
  inv (set_interface i info' o).
Proof.
  intros [] Hi Hidx Hl.
  assert (∀ a, is_node o a → is_node (set_interface i info' o) a) as Hnode.
  { intros a (j & infoj & Hj & <-). unfold is_node. simpl. destruct (decide (i = j)) as [<-|Hne].
    - exists i, info'. rewrite lookup_insert_eq. split; [done|]. congruence.
    - exists j, infoj. by rewrite lookup_insert_ne. }
  split; simpl; [done|..].
  - intros j infoj [[<- <-]|[Hne Hj]]%lookup_insert_Some; eauto.
  - intros j infoj [[<- <-]|[Hne Hj]]%lookup_insert_Some; [|eauto]. rewrite Hidx. eauto.
  - intros e a b He. destruct (inv_edges0 e a b He). auto.
Qed.

(** ** Sending commands *)
Definition sent info c : FilterHandle := mkChannel (queue (filter info) ++ [c]) true.

Lemma local_ok_quiet info c : local_ok info → quiet c → local_ok (with_filter (sent info c) info).
Proof.
  intros [Ha Hp Hd] Hq. split; simpl; [done| |].
  - rewrite registered_by_snoc, Hp. by destruct c.
  - intros p. rewrite announced_snoc, Hd. destruct c; done || (simpl; lia).
Qed.

Lemma local_ok_register info p s ph :
  local_ok info →
  local_ok (with_filter (sent info (CRegisterPeer p s))
              (with_ii_peers (<[p := ph]> (ii_peers info)) info)).
Proof.
  intros [Ha Hp Hd]. split; simpl; [done| |].
  - by rewrite registered_by_snoc, dom_insert_L, Hp.
  - intros p'. rewrite announced_snoc, Hd. simpl. lia.
Qed.

Lemma local_ok_unregister info p :
  local_ok info →
  local_ok (with_filter (sent info (CUnregisterPeer p))
              (with_ii_peers (delete p (ii_peers info)) info)).
Proof.
  intros [Ha Hp Hd]. split; simpl; [done| |].
  - by rewrite registered_by_snoc, dom_delete_L, Hp.
  - intros p'. rewrite announced_snoc, Hd. simpl. lia.
Qed.

Lemma local_ok_discover info p :
  local_ok info → p ∉ discovered info →
  local_ok (with_filter (sent info (CDiscoverPeer p))
              (with_discovered ({[p]} ∪ discovered info) info)).
Proof.
  intros [Ha Hp Hd] Hnew. split; simpl; [done| |].
  - by rewrite registered_by_snoc, Hp.
  - intros p'. rewrite announced_snoc, Hd. simpl. case_bool_decide; subst.
    + rewrite decide_False, decide_True by set_solver. lia.
    + destruct (decide (p' ∈ discovered info)); [rewrite decide_True by set_solver|
        rewrite decide_False by set_solver]; lia.
Qed.

Lemma runs_command info c (Q : FilterHandle → Prop) :
  local_ok info → Q (sent info c) → runs (send c (filter info)) Q.
Proof. intros [Ha _ _] HQ. by apply runs_send. Qed.

Lemma command_inv o i c :
  inv o → quiet c → runs (command i (send c) o) (λ r, inv r.1).
Proof.
  intros Hinv Hq. unfold command. destruct (interfaces o !! i) as [info|] eqn:Hi; [|done].
  pose proof (inv_local _ Hinv i info Hi) as Hl.
  apply runs_bind, runs_command; [done|]. simpl.
  eapply inv_set_interface; [done..|]. by apply local_ok_quiet.
Qed.

(** ** Every handler keeps the invariant *)
Lemma runs_heuristics o e (Q : HeuristicsHandle → Prop) :
  inv o → (∀ h, receiver_alive h = true → Q h) → runs (send e (heuristics_handle o)) Q.
Proof. intros Hinv HQ. apply runs_send; [apply Hinv|]. by apply HQ. Qed.

Lemma register_peer_inv i p prs s o : inv o → runs (register_peer i p prs s o) (λ r, inv r.1).
Proof.
  intros Hinv. unfold register_peer. destruct (interface_peer_ids o !! p); [done|].
  destruct (interfaces o !! i) as [info|] eqn:Hi; [|done].
  pose proof (inv_local _ Hinv i info Hi) as Hl.
  apply runs_bind, runs_send; [apply Hl|]. cbv zeta.
  set (info' := with_filter _ _).
  assert (inv (set_interface i info' o)) as Hinv'.
  { eapply inv_set_interface; [done..|]. exact (local_ok_register info p s _ Hl). }
  apply runs_bind, (runs_heuristics (set_interface i info' o)); [done|].
  intros h Hh. by eapply inv_frame.
Qed.

Lemma unregister_peer_inv i p o : inv o → runs (unregister_peer i p o) (λ r, inv r.1).
Proof.
  intros Hinv. unfold unregister_peer. destruct (interface_peer_ids o !! p); [done|].
  destruct (interfaces o !! i) as [info|] eqn:Hi; [|done].
  destruct (ii_peers info !! p); [|done].
  pose proof (inv_local _ Hinv i info Hi) as Hl.
  apply runs_bind, runs_send; [apply Hl|]. cbv zeta.
  set (info' := with_filter _ _).
  assert (inv (set_interface i info' o)) as Hinv'.
  { eapply inv_set_interface; [done..|]. exact (local_ok_unregister info p Hl). }
  apply runs_bind, (runs_heuristics (set_interface i info' o)); [done|].
  intros h Hh. by eapply inv_frame.
Qed.

Lemma link_interfaces_inv i j o : inv o → runs (link_interfaces i j o) (λ r, inv r.1).
Proof.
  intros Hinv. unfold link_interfaces. destruct (interfaces o !! i) as [infoi|] eqn:Hi; [|done].
  destruct (interfaces o !! j) as [infoj|] eqn:Hj; [|done]. pose proof Hinv as [].
  destruct (add_edge_ok (links o) (index infoi) (index infoj))
    as (g & e & -> & _ & Hedges & Hnodes & _); [eauto..|]. simpl.
  apply runs_bind, (runs_heuristics o); [done|]. intros h Hh. split; simpl; [done|done| |].
  - intros k infok Hk. rewrite Hnodes. eauto.
  - intros e' a b He'. rewrite Hedges in He'. case_decide; [|by eapply inv_edges0].
    simplify_eq. split; eexists _, _; eauto.
Qed.

Lemma unlink_interfaces_inv i j o : inv o → runs (unlink_interfaces i j o) (λ r, inv r.1).
Proof.
  intros Hinv. unfold unlink_interfaces. destruct (edges o !! (i, j)) as [e|]; [|done].
  pose proof Hinv as []. apply runs_bind, (runs_heuristics o); [done|]. intros h Hh. simpl.
  destruct (edge_endpoints (links o) e) as [ab|] eqn:He.
  - destruct (remove_edge_ok (links o) e) as (g & l & -> & (Hl & Hl' & Hel & Hne) & _ & Hnodes);
      [eauto|]. split; simpl; [done|done| |].
    + intros k infok Hk. rewrite Hnodes. eauto.
    + intros e' a b He'. destruct (decide (e' = l)) as [->|]; [congruence|].
      destruct (decide (e' = e)) as [->|]; [rewrite Hel in He' by done|rewrite Hne in He' by done];
        by eapply inv_edges0.
  - rewrite remove_edge_missing by done. by eapply inv_frame.
Qed.

Lemma create_interface_inv address code d preinit o :
  inv o → runs (create_interface address code d preinit o) (λ r, inv r.1).
Proof.
  intros Hinv. unfold create_interface. apply runs_bind.
  eapply (runs_mono _ (λ _, True)).
  { destruct preinit; [|done]. apply runs_bind. eapply runs_mono; [apply initialize_interface_runs|done]. }
  intros [params|e] _; [|done]. apply runs_bind. eapply runs_mono; [apply spawn_runs|].
  intros [b [[handle stream]|e]] _; simpl; [|by eapply inv_frame; [done|apply Hinv|..]].
  set (i := handle_interface_id handle).
  destruct (interfaces o !! i) eqn:Hi; [by eapply inv_frame; [done|apply Hinv|..]|].
  destruct (add_node (links o) i) as [g n] eqn:Hadd.
  pose proof (add_node_fresh (links o) i) as Hfresh. rewrite Hadd in Hfresh. simpl in Hfresh.
  assert (∀ m, node_weight g m = if decide (m = n) then Some i else node_weight (links o) m) as Hw.
  { intros m. pose proof (add_node_weight (links o) i m) as Hm. by rewrite Hadd in Hm. }
  assert (∀ e, edge_endpoints g e = edge_endpoints (links o) e) as He.
  { intros e. pose proof (add_node_edges (links o) i e) as Hm. by rewrite Hadd in Hm. }
  pose proof Hinv as [].
  assert (∀ j infoj, interfaces o !! j = Some infoj → node_weight g (index infoj) = Some j) as Hold.
  { intros j infoj Hj. rewrite Hw. case_decide as Hn; [|eauto].
    pose proof (inv_index0 j infoj Hj). congruence. }
  apply runs_bind. unfold Filter.new. simpl. apply runs_bind.
  eapply runs_mono; [apply executor_new_runs|]. intros [ex|e] _; simpl.
  - split; simpl; [done|..].
    + intros j infoj [[<- <-]|[Hne Hj]]%lookup_insert_Some; [|eauto]. by split.
    + intros j infoj [[<- <-]|[Hne Hj]]%lookup_insert_Some; [|auto]. simpl.
      by rewrite Hw, decide_True.
    + intros e a b' Hab. rewrite He in Hab. destruct (inv_edges0 e a b' Hab) as [Ha Hb].
      assert (∀ c, is_node o c → ∃ j infoj,
        <[i:=InterfaceInfo_new n (handle_peer_id handle) handle new_channel]> (interfaces o) !! j =
          Some infoj ∧ index infoj = c) as Hnode.
      { intros c (j & infoj & Hj & <-). exists j, infoj. split; [|done].
        rewrite lookup_insert_ne; [done|]. congruence. }
      split; [by apply Hnode|by apply Hnode].
  - split; simpl; [done|done|done|]. intros e' a b' Hab. rewrite He in Hab. eauto.
Qed.

Lemma upgrade_protocol_inv i c h o pr :
  (∀ pr', quiet (c pr')) → inv o → is_Some (interfaces o !! i) →
  runs (upgrade_protocol i (λ pr, send (c pr)) (λ pr, send (h pr)) o pr)
    (λ o', inv o' ∧ is_Some (interfaces o' !! i)).
Proof.
  intros Hq Hinv [info Hi]. unfold upgrade_protocol. rewrite Hi. simpl.
  pose proof (inv_local _ Hinv i info Hi) as Hl.
  apply runs_bind, runs_command; [done|]. cbv zeta.
  set (info' := with_filter _ _).
  assert (inv (set_interface i info' o)) as Hinv'.
  { eapply inv_set_interface; [done..|]. by apply local_ok_quiet. }
  apply runs_bind, (runs_heuristics (set_interface i info' o)); [done|].
  intros hh Hh. split; [by eapply inv_frame|]. simpl. rewrite lookup_insert_eq. eauto.
Qed.

Lemma apply_connection_upgrade_inv i p u o :
  inv o → is_Some (interfaces o !! i) →
  runs (apply_connection_upgrade i p u o) (λ r, inv r.1).
Proof.
  intros Hinv Hi. pose proof Hi as [info Hinfo]. unfold apply_connection_upgrade. rewrite Hinfo.
  simpl. apply runs_bind. eapply (runs_mono _ (λ o', inv o' ∧ is_Some (interfaces o' !! i)));
    [|by intros o' [Ho' _]].
  destruct u as [prs|prs]; (apply runs_for_each_inv; [done|]); intros pr o' _ [Hinv' Hi'].
  - by apply (upgrade_protocol_inv i (CProtocolOpened p) (HOpenProtocol i p)).
  - by apply (upgrade_protocol_inv i (CProtocolClosed p) (HCloseProtocol i p)).
Qed.

Lemma discover_at_inv p o i : inv o → runs (discover_at p o i) inv.
Proof.
  intros Hinv. unfold discover_at. destruct (interfaces o !! i) as [info|] eqn:Hi; [|done].
  case_decide as Hnew; [done|]. pose proof (inv_local _ Hinv i info Hi) as Hl.
  apply runs_bind, runs_send; [apply Hl|]. simpl.
  eapply inv_set_interface; [done..|]. exact (local_ok_discover info p Hl Hnew).
Qed.

Lemma discover_peer_inv p o : inv o → runs (discover_peer p o) (λ r, inv r.1).
Proof.
  intros Hinv. unfold discover_peer. destruct (interface_peer_ids o !! p); [done|].
  apply runs_bind. eapply runs_mono; [apply (runs_for_each_inv _ inv)|]; try done.
  intros i o' _. apply discover_at_inv.
Qed.

Lemma connect_to_peer_inv i p o : inv o → runs (connect_to_peer i p o) (λ r, inv r.1).
Proof.
  intros Hinv. unfold connect_to_peer. destruct (interfaces o !! i) as [info|] eqn:Hi; [|done].
  apply runs_bind. eapply runs_mono; [apply connect_runs|]. intros [h r] _. simpl.
  pose proof (inv_local _ Hinv i info Hi) as []. by eapply inv_set_interface.
Qed.

(** ** Routing of notifications *)

(** Interfaces connected by a chain of links. *)
Definition linked o i j : Prop :=
  ∃ infoi infoj, interfaces o !! i = Some infoi ∧ interfaces o !! j = Some infoj ∧
    reachable (links o) (index infoi) (index infoj).

Lemma reachable_is_node o a b :
  inv o → is_node o a → reachable (links o) a b → is_node o b.
Proof.
  intros Hinv Ha Hr. revert Ha. induction Hr as [|a b c [e Hab] _ IH]; [done|]. intros _.
  apply IH. destruct Hab as [He|He]; destruct (inv_edges _ Hinv _ _ _ He); done.
Qed.

Lemma collect_weights o l acc :
  Forall (is_node o) l → inv o →
  for_each (λ l nx, i ← expect (node_weight (links o) nx); mret (l ++ [i])) l acc =
  Done (acc ++ omap (node_weight (links o)) l).
Proof.
  intros Hl Hinv. revert acc. induction Hl as [|nx l (i & info & Hi & <-) Hl IH]; intros acc; simpl.
  - by rewrite app_nil_r.
  - rewrite (inv_index _ Hinv i info Hi). simpl. rewrite IH. by rewrite <- (assoc_L (++)).
Qed.

Lemma NoDup_omap {A B} (f : A → option B) (l : list A) :
  (∀ x y b, x ∈ l → y ∈ l → f x = Some b → f y = Some b → x = y) → NoDup l → NoDup (omap f l).
Proof.
  intros Hinj Hnd. induction Hnd as [|x l Hx Hnd IH]; [constructor|]. simpl.
  destruct (f x) as [b|] eqn:Hb; [constructor|].
  - intros (y & Hy & Hyb)%list_elem_of_omap. apply Hx.
    rewrite (Hinj x y b); [done|set_solver..|done|done].
  - apply IH. intros; eapply Hinj; eauto; set_solver.
  - apply IH. intros; eapply Hinj; eauto; set_solver.
Qed.

(** The interfaces the traversal finds. *)
Definition linked_list o info : list InterfaceId :=
  omap (node_weight (links o)) (dfs (links o) (index info)).

Section traversal.
Context o (Hinv : inv o) i info (Hi : interfaces o !! i = Some info).

Lemma dfs_nodes : Forall (is_node o) (dfs (links o) (index info)).
Proof.
  apply Forall_forall. intros m Hm. apply dfs_reachable in Hm.
  - eapply reachable_is_node; [done| |done]. by exists i, info.
  - rewrite (inv_index _ Hinv i info Hi). eauto.
Qed.

Lemma linked_list_nodup : NoDup (linked_list o info).
Proof.
  apply NoDup_omap; [|apply dfs_nodup]. intros x y j Hx Hy Hxj Hyj.
  pose proof dfs_nodes as Hn. rewrite Forall_forall in Hn.
  destruct (Hn x Hx) as (k & infok & Hk & <-). destruct (Hn y Hy) as (k' & infok' & Hk' & <-).
  rewrite (inv_index _ Hinv k infok Hk) in Hxj. rewrite (inv_index _ Hinv k' infok' Hk') in Hyj.
  simplify_eq. done.
Qed.

Lemma elem_of_linked_list j : j ∈ linked_list o info ↔ linked o i j.
Proof.
  assert (is_Some (node_weight (links o) (index info))) as Hw.
  { rewrite (inv_index _ Hinv i info Hi). eauto. }
  unfold linked_list, linked. rewrite list_elem_of_omap. split.
  - intros (m & Hm & Hmj). pose proof dfs_nodes as Hn. rewrite Forall_forall in Hn.
    destruct (Hn m Hm) as (k & infok & Hk & <-). rewrite (inv_index _ Hinv k infok Hk) in Hmj.
    simplify_eq. exists info, infok. split_and!; [done..|]. by apply dfs_reachable.
  - intros (infoi & infoj & Hi' & Hj & Hr). simplify_eq. exists (index infoj).
    split; [by apply dfs_reachable|]. by apply inv_index.
Qed.
End traversal.

Lemma inject_all_runs p pr n l o :
  inv o → NoDup l → Forall (λ j, is_Some (interfaces o !! j)) l →
  runs (for_each (inject_into p pr n) l o) (λ o', inv o' ∧ ∃ m, o' = with_interfaces m o ∧
    ∀ j, m !! j =
      if decide (j ∈ l)
      then (λ info, with_filter (sent info (CInjectNotification pr p n)) info) <$> interfaces o !! j
      else interfaces o !! j).
Proof.
  intros Hinv Hnd. revert o Hinv. induction Hnd as [|i l Hi Hnd IH]; intros o Hinv Hl.
  { simpl. split; [done|]. exists (interfaces o). split; [by destruct o|].
    done. }
  apply Forall_cons in Hl as [[info Hinfo] Hl]. cbn [for_each]. apply runs_bind.
  unfold inject_into at 1. rewrite Hinfo. simpl. apply runs_bind, runs_command;
    [by eapply inv_local|]. simpl.
  set (info' := with_filter (sent info (CInjectNotification pr p n)) info).
  assert (inv (set_interface i info' o)) as Hinv'.
  { eapply inv_set_interface; [done..|]. apply local_ok_quiet; [by eapply inv_local|done]. }
  eapply runs_mono.
  { apply IH; [done|]. eapply Forall_impl; [exact Hl|]. intros j [infoj Hj]. simpl.
    destruct (decide (i = j)) as [<-|]; [rewrite lookup_insert_eq|rewrite lookup_insert_ne by done];
      eauto. }
  intros o' (Ho' & m & -> & Hm). split; [done|]. exists m. split; [done|]. intros j.
  rewrite Hm. simpl. destruct (decide (i = j)) as [<-|Hne].
  - rewrite decide_False, decide_True, lookup_insert_eq, Hinfo by set_solver. done.
  - rewrite lookup_insert_ne by done.
    destruct (decide (j ∈ l)); [rewrite decide_True by set_solver|rewrite decide_False by set_solver];
      done.
Qed.

Lemma inject_notification_runs i p pr n o info :
  inv o → interfaces o !! i = Some info →
  runs (inject_notification i p pr n o) (λ r, r.2 = Ok tt ∧ inv r.1 ∧
    ∃ m, r.1 = with_interfaces m o ∧
    ∀ j, m !! j =
      if decide (j ∈ linked_list o info)
      then (λ info, with_filter (sent info (CInjectNotification pr p n)) info) <$> interfaces o !! j
      else interfaces o !! j).
Proof.
  intros Hinv Hi. unfold inject_notification. rewrite Hi.
  rewrite (collect_weights o) by (try done; by eapply dfs_nodes). cbn [mbind outcome_bind app].
  fold (linked_list o info). apply runs_bind. eapply runs_mono; [apply inject_all_runs|].
  - done.
  - by eapply linked_list_nodup.
  - apply Forall_forall. intros j Hj. apply (elem_of_linked_list o Hinv i info Hi) in Hj.
    destruct Hj as (_ & infoj & _ & Hj & _). eauto.
  - intros o' (Hinv' & m & -> & Hm). simpl. eauto 10.
Qed.

(** ** The event loop *)

(** Inputs the environment produces: the requester of an RPC waits for the
    answer, and a connection is upgraded on an interface that exists. Without
    the first the overseer panics when it answers ([lost_caller_stops_overseer]
    of [RpcTheorems]); without the second it panics on the upgrade. *)
Definition input_ok o (x : input) : Prop :=
  match x with
  | FromRpc (CreateInterface _ _ _ _ reply) | FromRpc (LinkInterface _ _ reply)
  | FromRpc (UnlinkInterface _ _ reply) | FromRpc (OvInstallNotificationFilter _ _ _ _ reply)
  | FromRpc (OvInstallRequestResponseFilter _ _ _ _ reply) => waiting reply = true
  | FromInterface (ConnectionUpgraded i _ _) => is_Some (interfaces o !! i)
  | _ => True
  end.

Lemma reply_with_inv reply answer o :
  waiting reply = true → inv o → runs (reply_with reply answer o) inv.
Proof.
  intros Hw Hinv. unfold reply_with. rewrite Hw. simpl. eapply inv_frame; [done| |done..].
  apply Hinv.
Qed.

Lemma then_reply (m : outcome (Overseer * result unit Error)) reply :
  waiting reply = true → runs m (λ r, inv r.1) →
  runs ('(o, r) ← m; reply_with reply (no_id r) o) inv.
Proof.
  intros Hw Hm. apply runs_bind. eapply runs_mono; [done|]. intros [o r] Ho.
  by apply reply_with_inv.
Qed.

Lemma step_inv o x : inv o → input_ok o x → runs (step o x) inv.
Proof.
  intros Hinv Hok. destruct x as [[]|[]|[i p]]; simpl in *;
    try (apply runs_fmap); try (apply then_reply; [done|]).
  - apply runs_bind. eapply runs_mono; [by apply create_interface_inv|]. intros [o' r] Ho'. by apply reply_with_inv.
  - by apply link_interfaces_inv.
  - by apply unlink_interfaces_inv.
  - by apply command_inv.
  - by apply command_inv.
  - by apply register_peer_inv.
  - by apply unregister_peer_inv.
  - by apply apply_connection_upgrade_inv.
  - destruct (interfaces o !! interface) as [info|] eqn:Hi.
    + eapply runs_mono; [by eapply inject_notification_runs|]. by intros [] (_ & ? & _).
    + unfold inject_notification. by rewrite Hi.
  - by apply command_inv.
  - by apply command_inv.
  - by apply discover_peer_inv.
  - by apply connect_to_peer_inv.
Qed.

(** The states of a running overseer. *)
Inductive reaches (params : NetworkParameters) : Overseer → Prop :=
  | reaches_new : reaches params (new params)
  | reaches_step o x o' :
      reaches params o → input_ok o x → step o x = Done o' → reaches params o'.

Lemma reaches_inv params o : reaches params o → inv o.
Proof.
  induction 1 as [|o x o' _ Hinv Hok Hstep]; [apply inv_new|].
  pose proof (step_inv o x Hinv Hok) as Hrun. by rewrite Hstep in Hrun.
Qed.

(** Inputs that are fine in every state. *)
Definition always_ok (x : input) : bool :=
  match x with
  | FromRpc (CreateInterface _ _ _ _ reply) | FromRpc (LinkInterface _ _ reply)
  | FromRpc (UnlinkInterface _ _ reply) | FromRpc (OvInstallNotificationFilter _ _ _ _ reply)
  | FromRpc (OvInstallRequestResponseFilter _ _ _ _ reply) => waiting reply
  | FromInterface (ConnectionUpgraded _ _ _) => false
  | _ => true
  end.

Lemma always_ok_input o x : always_ok x = true → input_ok o x.
Proof. by destruct x as [[]|[]|[]]. Qed.

Lemma reaches_run params xs o o' :
  reaches params o → forallb always_ok xs = true → run xs o = Done o' → reaches params o'.
Proof.
  revert o; induction xs as [|x xs IH]; intros o Hr Hok Hrun;
    [by injection Hrun as <-|].
  simpl in Hok. apply andb_true_iff in Hok as [Hx Hxs]. unfold run in Hrun. cbn [for_each] in Hrun.
  destruct (step o x) as [o1|] eqn:Hstep; [|done].
  apply (IH o1); [|done|done]. eapply reaches_step; [done| |done]. by apply always_ok_input.
Qed.

(** ** Links *)
Lemma reachable_add (g g' : graph) e x y :
  edge_endpoints g e = None →
  (∀ k, edge_endpoints g' k = if decide (k = e) then Some (x, y) else edge_endpoints g k) →
  ∀ a b, reachable g' a b ↔
    reachable g a b ∨ (reachable g a x ∧ reachable g y b) ∨ (reachable g a y ∧ reachable g x b).
Proof.
  intros He Hg'.
  assert (∀ a b, adjacent g a b → adjacent g' a b) as Hmono.
  { intros a b [k Hk]. exists k. rewrite !Hg'. case_decide; [|done]. subst. rewrite He in Hk.
    by destruct Hk. }
  assert (∀ a b, reachable g a b → reachable g' a b) as Hmono'.
  { intros a b. by apply rtc_subrel. }
  assert (adjacent g' x y) as Hxy.
  { exists e. rewrite Hg', decide_True by done. auto. }
  intros a b. split.
  - induction 1 as [a|a c b [k Hac] _ IH]; [by left|].
    rewrite !Hg' in Hac. case_decide as Hke.
    + assert (a = x ∧ c = y ∨ a = y ∧ c = x) as Hends by (destruct Hac; simplify_eq; auto).
      destruct Hends as [[-> ->]|[-> ->]].
      * destruct IH as [IH|[[_ IH]|[_ IH]]]; [right; left|right; left|by left];
          (split; [apply rtc_refl|done]).
      * destruct IH as [IH|[[_ IH]|[_ IH]]]; [right; right|by left|right; right];
          (split; [apply rtc_refl|done]).
    + assert (reachable g a c) as Hr by (apply rtc_once; by exists k).
      destruct IH as [IH|[[IH1 IH2]|[IH1 IH2]]]; [left; by etrans|right; left|right; right];
        (split; [by etrans|done]).
  - intros [Hr|[[H1 H2]|[H1 H2]]]; [auto| |].
    + etrans; [by apply Hmono'|]. eapply rtc_l; [exact Hxy|]. by apply Hmono'.
    + etrans; [by apply Hmono'|]. eapply rtc_l; [by apply adjacent_sym, Hxy|].
      by apply Hmono'.
Qed.

Lemma reachable_same (g g' : graph) :
  (∀ a b, adjacent g a b ↔ adjacent g' a b) → ∀ a b, reachable g a b ↔ reachable g' a b.
Proof. intros Hadj a b. split; apply rtc_subrel; intros ??; apply Hadj. Qed.

Lemma link_interfaces_ok i j o infoi infoj :
  inv o → interfaces o !! i = Some infoi → interfaces o !! j = Some infoj →
  ∃ o' e, link_interfaces i j o = Done (o', Ok tt) ∧ interfaces o' = interfaces o ∧
    edges o' !! (i, j) = Some e ∧
    edge_endpoints (links o) e = None ∧
    (∀ k, edge_endpoints (links o') k =
       if decide (k = e) then Some (index infoi, index infoj) else edge_endpoints (links o) k) ∧
    (∀ k, is_Some (edge_endpoints (links o) k) → (k < e)%nat).
Proof.
  intros Hinv Hi Hj. pose proof Hinv as []. unfold link_interfaces. rewrite Hi, Hj.
  destruct (add_edge_ok (links o) (index infoi) (index infoj))
    as (g & e & -> & Hfresh & Hedges & _ & Hlast); [eauto..|]. simpl.
  unfold h_link_interfaces. rewrite send_alive by done. simpl.
  eexists _, e. split_and!; [done|done| |done..]. simpl. by rewrite lookup_insert_eq.
Qed.

Lemma linked_frame o o' :
  interfaces o' = interfaces o → (∀ a b, reachable (links o') a b ↔ reachable (links o) a b) →
  ∀ a b, linked o' a b ↔ linked o a b.
Proof. intros Hi Hr a b. unfold linked. rewrite Hi. by setoid_rewrite Hr. Qed.

(** ** The filter's view of the peers *)
Context `{HOP : !HashOrder PeerId}.

Lemma next_sinks_registry (x : option FilterCommand) f :
  (∀ st p, accepts st p = true) →
  dom (next_sinks x f) = from_option (registry_step (dom (sinks f))) (dom (sinks f)) x.
Proof.
  intros Hacc. destruct x as [[]|]; try done; simpl.
  - rewrite Hacc. case_decide as Hp; [|by rewrite dom_insert_L].
    unfold sinks. rewrite dom_fmap_L. set_solver.
  - by rewrite dom_delete_L.
Qed.

Lemma run_registry xs f :
  (∀ st p, accepts st p = true) → channels_open f →
  runs (Filter.run xs f) (λ f',
    dom (sinks f') = fold_left registry_step (omap id xs) (dom (sinks f))).
Proof.
  intros Hacc. revert f. induction xs as [|x xs IH]; intros f Ho; [done|].
  unfold Filter.run. cbn [for_each]. apply runs_bind, runs_fmap.
  eapply runs_mono; [by apply handle_handled|]. intros [f1 r] [Ho1 _ Hs _]. simpl in *.
  eapply runs_mono; [by apply IH|]. intros f2 ->. rewrite Hs, next_sinks_registry by done.
  by destruct x.
Qed.

(** ** Discovery *)
Lemma discover_all_runs p l o :
  inv o → runs (for_each (discover_at p) l o) (λ o', inv o' ∧
    dom (interfaces o') = dom (interfaces o) ∧
    ∀ i info', interfaces o' !! i = Some info' →
      (i ∈ l ∨ ∃ info, interfaces o !! i = Some info ∧ p ∈ discovered info) →
      p ∈ discovered info').
Proof.
  revert o; induction l as [|i l IH]; intros o Hinv; simpl.
  { split_and!; [done..|]. intros i info' Hi [?|(info & Hi' & Hp)]; [set_solver|].
    rewrite Hi in Hi'. by simplify_eq. }
  apply runs_bind. pose proof (discover_at_inv p o i Hinv) as Hd.
  assert (runs (discover_at p o i) (λ o1, dom (interfaces o1) = dom (interfaces o) ∧
    ∀ j infoj, interfaces o1 !! j = Some infoj →
      (j = i ∨ ∃ info, interfaces o !! j = Some info ∧ p ∈ discovered info) →
      p ∈ discovered infoj)) as Hd'.
  { unfold discover_at in *. destruct (interfaces o !! i) as [info|] eqn:Hi; simpl.
    2: { split; [done|]. intros j infoj Hj [->|(info & Hj' & Hp)]; simplify_eq; done. }
    case_decide as Hdec; simpl.
    { split; [done|]. intros j infoj Hj [->|(info' & Hj' & Hp)]; simplify_eq; done. }
    apply runs_bind, runs_send; [by eapply inv_local|]. simpl. split.
    - rewrite dom_insert_lookup_L; [done|]. eauto.
    - intros j infoj [[<- <-]|[Hne Hj]]%lookup_insert_Some; simpl; [set_solver|].
      intros [->|(info' & Hj' & Hp)]; simplify_eq; done. }
  eapply runs_mono; [by apply runs_conj; [exact Hd|exact Hd']|].
  intros o1 (Hinv1 & Hdom1 & H1). eapply runs_mono; [by apply IH|].
  intros o2 (Hinv2 & Hdom2 & H2). split_and!; [done|congruence|].
  intros j infoj Hj Hcase. apply (H2 j infoj Hj).
  destruct (decide (j ∈ l)) as [|Hl]; [by left|right].
  assert (is_Some (interfaces o1 !! j)) as [info1 Hj1].
  { apply elem_of_dom. rewrite <- Hdom2. apply elem_of_dom. eauto. }
  exists info1. split; [done|]. apply (H1 j info1 Hj1). set_solver.
Qed.
End invariant.
