(* ===== verification/OverseerTheorems.v ===== *)
(** * Correctness of the overseer

    Theorems on the states a running overseer reaches: it does not panic, it
    routes notifications along the links, links and unlinks interfaces, and
    keeps the filters informed of their peers. *)

From S2P Require Import Prelude Backend Heuristics Filter FilterTheorems LinkGraph.
From S2P Require Import Overseer OverseerFacts.

Section theorems.
Context `{HB : NetworkBackend} `{HE : !Executor} `{HS : !PacketSink} `{HI : !Interfaces}.
Context `{HG : !LinkGraph InterfaceId} `{HGL : !LinkGraphLaws InterfaceId}.
Context `{HO : !HashOrder InterfaceId} `{HP : !HashOrder Protocol} `{HOP : !HashOrder PeerId}.
Context `{HER : !ExecutorRuns} `{HIR : !InterfacesRun}.
Implicit Types (o : Overseer) (i j : InterfaceId) (info : InterfaceInfo) (p : PeerId).

(** The overseer does not panic: in every state it reaches from its
    start, it handles any request of the RPC whose sender waits for the
    answer, any event of an interface (an upgrade only for an interface that
    exists) and any request of a filter, whatever the executor, the backend
    and the graph library answer, as long as they do not panic themselves. The [expect]s on the nodes and interfaces
    found by the traversal of the links never fail. *)
Theorem overseer_never_panics params o (x : input) :
  reaches params o → input_ok o x → ∃ o', step o x = Done o' ∧ reaches params o'.
Proof.
  intros Hr Hok. pose proof (step_inv o x (reaches_inv _ _ Hr) Hok) as Hrun.
  apply runs_Done in Hrun as (o' & Hstep & _). exists o'. split; [done|].
  by eapply reaches_step.
Qed.

(** C38: A notification received by an interface is injected exactly once into
    the filter of every interface connected to it by a chain of links, itself
    included, and into no other filter; nothing else changes. *)
Theorem notification_routed_along_links params o i info p pr n :
  reaches params o → interfaces o !! i = Some info →
  ∃ m, inject_notification i p pr n o = Done (with_interfaces m o, Ok tt) ∧
    ∀ j, (linked o i j → ∃ infoj, interfaces o !! j = Some infoj ∧
            m !! j = Some (with_filter (mkChannel (queue (filter infoj) ++
                                          [CInjectNotification pr p n]) true) infoj)) ∧
         (¬ linked o i j → m !! j = interfaces o !! j).
Proof.
  intros Hr Hi. pose proof (reaches_inv _ _ Hr) as Hinv.
  pose proof (inject_notification_runs i p pr n o info Hinv Hi) as Hrun.
  apply runs_Done in Hrun as ([o' r] & Hrun & Hok & _ & m & Ho' & Hm). simpl in *. subst.
  exists m. split; [done|]. intros j. rewrite Hm. split.
  - intros Hl. rewrite decide_True by (by apply (elem_of_linked_list o Hinv i info Hi)).
    destruct Hl as (_ & infoj & _ & Hj & _). exists infoj. rewrite Hj. done.
  - intros Hl. rewrite decide_False; [done|].
    by rewrite (elem_of_linked_list o Hinv i info Hi).
Qed.

(** Linking two existing interfaces succeeds and joins what they were
    connected to: afterwards two interfaces are connected exactly if they were
    before or each was connected to one of the two. *)
Theorem link_joins params o i j :
  reaches params o → is_Some (interfaces o !! i) → is_Some (interfaces o !! j) →
  ∃ o', link_interfaces i j o = Done (o', Ok tt) ∧ ∀ a b,
    linked o' a b ↔
      linked o a b ∨ (linked o a i ∧ linked o j b) ∨ (linked o a j ∧ linked o i b).
Proof.
  intros Hr [infoi Hi] [infoj Hj]. pose proof (reaches_inv _ _ Hr) as Hinv.
  destruct (link_interfaces_ok i j o infoi infoj Hinv Hi Hj)
    as (o' & e & Hlink & Hio & _ & Hfresh & Hedges & _).
  exists o'. split; [done|]. intros a b. unfold linked. rewrite Hio.
  setoid_rewrite (reachable_add (links o) (links o') e _ _ Hfresh Hedges). naive_solver.
Qed.

(** C39: Unlinking undoes linking: when two interfaces have just been linked,
    unlinking them succeeds and restores who is connected to whom. *)
Theorem unlink_undoes_link params o i j :
  reaches params o → is_Some (interfaces o !! i) → is_Some (interfaces o !! j) →
  ∃ o1 o2, link_interfaces i j o = Done (o1, Ok tt) ∧
    unlink_interfaces i j o1 = Done (o2, Ok tt) ∧ ∀ a b, linked o2 a b ↔ linked o a b.
Proof.
  intros Hr [infoi Hi] [infoj Hj]. pose proof (reaches_inv _ _ Hr) as Hinv.
  destruct (link_interfaces_ok i j o infoi infoj Hinv Hi Hj)
    as (o1 & e & Hlink & Hio & He & Hfresh & Hedges & Hlast).
  pose proof (link_interfaces_inv i j o Hinv) as Hinv1. rewrite Hlink in Hinv1. simpl in Hinv1.
  destruct (remove_edge_ok (links o1) e) as (g & l & Hrem & (Hl & Hl' & _ & Hne) & Hmax & _).
  { rewrite Hedges, decide_True by done. eauto. }
  assert (l = e) as ->.
  { assert (e ≤ l)%nat by (apply Hmax; rewrite Hedges, decide_True by done; eauto).
    rewrite Hedges in Hl. case_decide; [done|]. apply Hlast in Hl. lia. }
  exists o1. unfold unlink_interfaces. rewrite He. simpl. unfold h_link_interfaces.
  rewrite send_alive by apply Hinv1. simpl. rewrite Hrem. eexists. split_and!; [done..|].
  apply linked_frame; simpl; [done|]. apply reachable_same. intros a b. unfold adjacent.
  assert (∀ k, edge_endpoints g k = edge_endpoints (links o) k) as Hg; [|by setoid_rewrite Hg].
  intros k. destruct (decide (k = e)) as [->|Hke]; [congruence|].
  rewrite Hne, Hedges, decide_False by done. done.
Qed.

(** The overseer and the filters agree on who is connected: when the
    filter of an interface, started with an executor that accepts
    registrations, has received the commands the overseer sent it, in any
    interleaving with its poll timer, the peers it knows are the peers of the
    interface. *)
Theorem filter_knows_the_peers params o i info code d etx hh f0 h (xs : list (option FilterCommand)) :
  reaches params o → interfaces o !! i = Some info →
  (∀ st p, accepts st p = true) →
  Filter.new i code d etx hh = Done (Ok (f0, h)) →
  receiver_alive etx = true → receiver_alive hh = true →
  omap id xs = queue (filter info) →
  ∃ f, Filter.run xs f0 = Done f ∧ dom (peers f) = dom (ii_peers info).
Proof.
  intros Hr Hi Hacc Hnew He Hh Hxs. pose proof (reaches_inv _ _ Hr) as Hinv.
  destruct (new_channels _ _ _ _ _ _ _ Hnew He Hh) as (Ho & _ & Hp & _).
  pose proof (run_registry xs f0 Hacc Ho) as Hrun. apply runs_Done in Hrun as (f & Hf & Hdom).
  exists f. split; [done|]. unfold sinks in Hdom. rewrite !dom_fmap_L, Hp, dom_empty_L, Hxs in Hdom.
  rewrite Hdom. symmetry. apply (inv_local _ Hinv i info Hi).
Qed.

(** Discovery: a discovered peer that is not itself an interface is
    announced to the filter of every interface; over the whole execution each
    filter hears of a peer at most once, and exactly of those recorded as
    discovered. *)
Theorem discovered_peer_announced_once params o p :
  reaches params o → interface_peer_ids o !! p = None →
  ∃ o', discover_peer p o = Done (o', Ok tt) ∧ dom (interfaces o') = dom (interfaces o) ∧
    ∀ i info, interfaces o' !! i = Some info →
      announced p (queue (filter info)) = 1%nat ∧
      ∀ q, announced q (queue (filter info)) = if decide (q ∈ discovered info) then 1%nat else 0%nat.
Proof.
  intros Hr Hp. pose proof (reaches_inv _ _ Hr) as Hinv. unfold discover_peer. rewrite Hp.
  pose proof (discover_all_runs p (hash_keys (dom (interfaces o))) o Hinv) as Hrun.
  apply runs_Done in Hrun as (o' & -> & Hinv' & Hdom & Hdisc). simpl. exists o'.
  split_and!; [done..|]. intros i info Hi. pose proof (inv_local _ Hinv' i info Hi) as [_ _ Ha].
  split; [|done]. rewrite Ha, decide_True; [done|]. apply (Hdisc i info Hi). left.
  apply elem_of_hash_keys. rewrite <- Hdom. apply elem_of_dom. eauto.
Qed.

(** Unlinking is reported to the heuristics as linking: the event sent
    when a link is removed is the one of [link_interfaces]. *)
Theorem unlink_reported_as_link params o i j e :
  reaches params o → edges o !! (i, j) = Some e →
  ∃ o' r, unlink_interfaces i j o = Done (o', r) ∧
    queue (heuristics_handle o') = queue (heuristics_handle o) ++ [HLinkInterfaces i j].
Proof.
  intros Hr He. pose proof (reaches_inv _ _ Hr) as Hinv. unfold unlink_interfaces. rewrite He.
  simpl. unfold h_link_interfaces. rewrite send_alive by apply Hinv. simpl.
  destruct (remove_edge (links o) e) as [g removed]. eauto.
Qed.
End theorems.

(** ** Concrete runs *)
Section examples.
#[local] Existing Instances numbers_backend script_executor script_executor_runs numbered_sinks peers_order.

(** Interfaces are numbered in the order they are created; the peer id of
    interface [n] is [100 + n]. *)
#[local] Instance numbered_interfaces : Interfaces := {|
  backend_state := Z;
  event_stream := unit;
  backend_new _ := 1;
  spawn_interface n _ _ _ := Done (n + 1, Ok (n : @InterfaceHandle numbers_backend, tt));
  handle_interface_id h := h;
  handle_peer_id h := 100 + h;
  handle_connect h _ := Done (h, Ok tt);
|}.
#[local] Instance numbered_interfaces_run : InterfacesRun.
Proof. by split. Qed.

#[local] Instance interface_order : HashOrder InterfaceId := canonical_order InterfaceId.
#[local] Instance protocol_order : HashOrder Protocol := canonical_order Protocol.

#[local] Abbreviation nPeerId := (@PeerId numbers_backend) (only parsing).
#[local] Abbreviation nProtocol := (@Protocol numbers_backend) (only parsing).
#[local] Abbreviation nMessage := (@Message numbers_backend) (only parsing).
#[local] Abbreviation nInterfaceId := (@InterfaceId numbers_backend) (only parsing).
#[local] Abbreviation nSink := (@sink numbers_backend numbered_sinks) (only parsing).

Definition no_parameters : @NetworkParameters numbers_backend := tt.

Definition create : input :=
  FromRpc (CreateInterface (SocketAddrV4 0 8888) "" 0 None (mkOneshot 0 true)).
Definition link (i j : Z) : input :=
  FromRpc (LinkInterface (i : nInterfaceId) (j : nInterfaceId) (mkOneshot 1 true)).
Definition unlink (i j : Z) : input :=
  FromRpc (UnlinkInterface (i : nInterfaceId) (j : nInterfaceId) (mkOneshot 2 true)).
Definition connected (i p : Z) : input :=
  FromInterface (PeerConnected (i : nInterfaceId) (p : nPeerId) [] (1 : nSink)).
Definition message (i p : Z) : input :=
  FromInterface (MessageReceived (i : nInterfaceId) (p : nPeerId) (3 : nProtocol)
                   ((42, 10) : nMessage)).

(** Four interfaces, the first three linked in a row, peer 7 at the first. *)
Definition example_history : list input :=
  [create; create; create; create; link 1 2; link 3 2; connected 1 7].

Definition example_overseer : Overseer :=
  match run example_history (new no_parameters) with Done o => o | Panicked _ => new no_parameters end.

Lemma example_reached : reaches no_parameters example_overseer.
Proof.
  unfold example_overseer. destruct (run example_history (new no_parameters)) as [o|why] eqn:Hrun.
  - by eapply (reaches_run no_parameters example_history); [apply reaches_new| |exact Hrun].
  - apply reaches_new.
Qed.

Definition example_info (i : Z) : InterfaceInfo :=
  default (InterfaceInfo_new 0 (0 : nPeerId) (0 : @InterfaceHandle numbers_backend) new_channel)
    (interfaces example_overseer !! (i : nInterfaceId)).

Example overseer_never_panics_witness :
  ∃ o', step example_overseer (message 1 7) = Done o' ∧ reaches no_parameters o'.
Proof.
  apply (overseer_never_panics no_parameters example_overseer (message 1 7)); [apply example_reached|done].
Defined.

Example notification_routed_along_links_witness :
  ∃ m, inject_notification (1 : nInterfaceId) (7 : nPeerId) (3 : nProtocol) ((42, 10) : nMessage)
         example_overseer = Done (with_interfaces m example_overseer, Ok tt) ∧
    ∀ j, (linked example_overseer (1 : nInterfaceId) j → ∃ infoj,
            interfaces example_overseer !! j = Some infoj ∧
            m !! j = Some (with_filter (mkChannel (queue (filter infoj) ++
              [CInjectNotification (3 : nProtocol) (7 : nPeerId) ((42, 10) : nMessage)]) true)
              infoj)) ∧
         (¬ linked example_overseer (1 : nInterfaceId) j →
            m !! j = interfaces example_overseer !! j).
Proof.
  apply (notification_routed_along_links no_parameters example_overseer (1 : nInterfaceId) (example_info 1));
    [apply example_reached|by vm_compute].
Defined.

Example link_joins_witness :
  ∃ o', link_interfaces (3 : nInterfaceId) (4 : nInterfaceId) example_overseer = Done (o', Ok tt) ∧
    ∀ a b, linked o' a b ↔
      linked example_overseer a b ∨
      (linked example_overseer a (3 : nInterfaceId) ∧ linked example_overseer (4 : nInterfaceId) b) ∨
      (linked example_overseer a (4 : nInterfaceId) ∧ linked example_overseer (3 : nInterfaceId) b).
Proof.
  apply (link_joins no_parameters example_overseer (3 : nInterfaceId) (4 : nInterfaceId));
    [apply example_reached|exists (example_info 3); by vm_compute|exists (example_info 4); by vm_compute].
Defined.

Example unlink_undoes_link_witness :
  ∃ o1 o2, link_interfaces (3 : nInterfaceId) (4 : nInterfaceId) example_overseer = Done (o1, Ok tt) ∧
    unlink_interfaces (3 : nInterfaceId) (4 : nInterfaceId) o1 = Done (o2, Ok tt) ∧
    ∀ a b, linked o2 a b ↔ linked example_overseer a b.
Proof.
  apply (unlink_undoes_link no_parameters example_overseer (3 : nInterfaceId) (4 : nInterfaceId));
    [apply example_reached|exists (example_info 3); by vm_compute|exists (example_info 4); by vm_compute].
Defined.

Example filter_knows_the_peers_witness :
  ∃ f, Filter.run (None :: (Some <$> queue (filter (example_info 1)))) example_new = Done f ∧
    dom (peers f) = dom (ii_peers (example_info 1)).
Proof.
  apply (filter_knows_the_peers no_parameters example_overseer (1 : nInterfaceId) (example_info 1) "" 0
           new_channel new_channel example_new new_channel);
    [apply example_reached|by vm_compute|done|by vm_compute|done|done|by vm_compute].
Defined.

Example discovered_peer_announced_once_witness :
  ∃ o', discover_peer (9 : nPeerId) example_overseer = Done (o', Ok tt) ∧
    dom (interfaces o') = dom (interfaces example_overseer) ∧
    ∀ i info, interfaces o' !! i = Some info →
      announced (9 : nPeerId) (queue (filter info)) = 1%nat ∧
      ∀ q, announced q (queue (filter info)) = if decide (q ∈ discovered info) then 1%nat else 0%nat.
Proof.
  apply (discovered_peer_announced_once no_parameters example_overseer (9 : nPeerId));
    [apply example_reached|by vm_compute].
Defined.

Example unlink_reported_as_link_witness :
  ∃ o' r, unlink_interfaces (1 : nInterfaceId) (2 : nInterfaceId) example_overseer = Done (o', r) ∧
    queue (heuristics_handle o') =
      queue (heuristics_handle example_overseer) ++
      [HLinkInterfaces (1 : nInterfaceId) (2 : nInterfaceId)].
Proof.
  apply (unlink_reported_as_link no_parameters example_overseer (1 : nInterfaceId) (2 : nInterfaceId) 0);
    [apply example_reached|by vm_compute].
Defined.

(** Edge indices go stale: of the two links 1-2 and 3-4, removing the
    first moves the second to its index, so that removing the second is
    answered with [LinkDoesntExist] and notifications keep flowing from 3 to
    4; asking again does not help, as the entry is gone. *)
Theorem unlinked_interfaces_stay_linked :
  (o ← run [create; create; create; create; link 1 2; link 3 4; unlink 1 2; unlink 3 4;
            unlink 3 4; message 3 7] (new no_parameters);
   info ← expect (interfaces o !! (4 : nInterfaceId));
   mret (drop 6 (replies o), queue (filter info))) =
  Done ([(2%nat, Ok None); (2%nat, Err LinkDoesntExist); (2%nat, Err LinkDoesntExist)],
        [CInjectNotification (3 : nProtocol) (7 : nPeerId) ((42, 10) : nMessage)]).
Proof. by vm_compute. Qed.
End examples.
