(* ===== verification/System.v ===== *)
(** * The overseer with its filters

    The composition of [Overseer.v] and [Filter.v] as [tokio] runs them: the
    task of the overseer and one task per filter ([tokio::spawn(filter.run())]),
    which take the commands the overseer sent from their channels, one by one,
    and whose requests for connections the overseer takes in turn. The tasks
    are interleaved in any order. A filter that panics ends its task: the
    receiver of its commands is dropped, and the next command the overseer
    sends it fails. *)

From S2P Require Import Prelude Backend Heuristics Filter LinkGraph Overseer.

Module System.
Section system.
Context `{HB : NetworkBackend} `{HE : !Executor} `{HS : !PacketSink} `{HI : !Interfaces}.
Context `{HG : !LinkGraph InterfaceId} `{HO : !HashOrder InterfaceId} `{HP : !HashOrder Protocol}.
Context `{HOP : !HashOrder PeerId}.

(** The task of a filter: how many of its commands it has taken, and how many
    of its events the overseer has. *)
Record Task := mkTask {
  t_filter : Filter;
  t_taken : nat;
  t_heard : nat;
  t_running : bool;
}.

Record System := mkSystem { overseer : Overseer; tasks : gmap InterfaceId Task }.

Definition system_new (parameters : NetworkParameters) : System := mkSystem (Overseer.new parameters) ∅.

(** [tokio::spawn(filter.run())]. *)
Definition start_tasks (fs : list Filter) (ts : gmap InterfaceId Task) : gmap InterfaceId Task :=
  foldl (λ ts f, <[Filter.interface f := mkTask f 0 0 true]> ts) ts fs.

(** The receiver of the commands of a filter is dropped. *)
Definition close_commands (i : InterfaceId) (o : Overseer) : Overseer :=
  match interfaces o !! i with
  | Some info => set_interface i (with_filter (mkChannel (queue (filter info)) false) info) o
  | None => o
  end.

(** An event of the RPC or of an interface; a filter takes its next command, or
    polls its executor; the overseer takes the next event of a filter. *)
Inductive SystemInput :=
  | External (x : input)
  | Take (i : InterfaceId)
  | Tick (i : InterfaceId)
  | Deliver (i : InterfaceId).

(** One iteration of the loop of a filter. An executor that panics does so
    before its events are carried out. *)
Definition run_task (i : InterfaceId) (x : option FilterCommand) (taken : nat) (t : Task) (s : System) : System :=
  match Filter.handle x (t_filter t) with
  | Done (f, _) => mkSystem (overseer s) (<[i := mkTask f taken (t_heard t) true]> (tasks s))
  | Panicked _ =>
      mkSystem (close_commands i (overseer s)) (<[i := mkTask (t_filter t) (t_taken t) (t_heard t) false]> (tasks s))
  end.

Definition system_step (s : System) (x : SystemInput) : outcome System :=
  match x with
  | External x =>
      o ← Overseer.step (overseer s) x;
      mret (mkSystem o (start_tasks (drop (length (spawned (overseer s))) (spawned o)) (tasks s)))
  | Take i =>
      match tasks s !! i, interfaces (overseer s) !! i with
      | Some t, Some info =>
          match queue (filter info) !! t_taken t with
          | Some c => mret (if t_running t then run_task i (Some c) (S (t_taken t)) t s else s)
          | None => mret s
          end
      | _, _ => mret s
      end
  | Tick i =>
      match tasks s !! i with
      | Some t => mret (if t_running t then run_task i None (t_taken t) t s else s)
      | None => mret s
      end
  | Deliver i =>
      match tasks s !! i with
      | Some t =>
          match queue (event_tx (t_filter t)) !! t_heard t with
          | Some ev =>
              o ← Overseer.step (overseer s) (FromFilter ev);
              mret (mkSystem o (<[i := mkTask (t_filter t) (t_taken t) (S (t_heard t)) (t_running t)]> (tasks s)))
          | None => mret s
          end
      | None => mret s
      end
  end.

Definition system_run (xs : list SystemInput) (s : System) : outcome System := for_each system_step xs s.
End system.
End System.
