(* ===== verification/SystemTheorems.v ===== *)
(** * Correctness of the overseer with its filters

    In every interleaving of the overseer and its filters no task panics, as
    long as the executor does not; every filter has processed the commands it
    was sent, in order, up to some point, and can catch up; and what becomes of
    the whole when an executor does panic. *)

From S2P Require Import Prelude Backend Python PyExecutor PyExecutorTheorems Heuristics Filter FilterTheorems.
From S2P Require Import PyFilter PyFilterTheorems LinkGraph.
From S2P Require Import Overseer OverseerFacts OverseerTheorems System.
Import System.

Section theorems.
Context `{HB : NetworkBackend} `{HE : !Executor} `{HS : !PacketSink} `{HI : !Interfaces}.
Context `{HG : !LinkGraph InterfaceId} `{HGL : !LinkGraphLaws InterfaceId}.
Context `{HO : !HashOrder InterfaceId} `{HP : !HashOrder Protocol} `{HOP : !HashOrder PeerId}.
Implicit Types (o : Overseer) (s : System) (i j : InterfaceId) (info : InterfaceInfo) (p : PeerId) (f : Filter).

(** ** How the overseer changes what the filters are sent *)

(** Commands are only added, and no filter is started. *)
Record grows o o' : Prop := {
  g_spawned : spawned o' = spawned o;
  g_events : filter_event_tx o' = filter_event_tx o;
  g_interfaces i :
    match interfaces o !! i, interfaces o' !! i with
    | Some info, Some info' => queue (filter info) `prefix_of` queue (filter info')
    | None, None => True
    | _, _ => False
    end;
}.

#[local] Instance grows_preorder : PreOrder grows.
Proof.
  split.
  - intros o. split; [done..|]. intros i. by destruct (interfaces o !! i).
  - intros o1 o2 o3 [S1 E1 I1] [S2 E2 I2]. split; [congruence..|]. intros i. specialize (I1 i). specialize (I2 i).
    destruct (interfaces o1 !! i), (interfaces o2 !! i), (interfaces o3 !! i); try done. by etrans.
Qed.

Lemma grows_frame o o' :
  spawned o' = spawned o → filter_event_tx o' = filter_event_tx o → interfaces o' = interfaces o → grows o o'.
Proof. intros HS' HE' HI'. split; [done..|]. intros i. rewrite HI'. by destruct (interfaces o !! i). Qed.

Lemma grows_set o i info info' :
  interfaces o !! i = Some info → queue (filter info) `prefix_of` queue (filter info') →
  grows o (set_interface i info' o).
Proof.
  intros Hi Hq. split; [done..|]. intros j. simpl. destruct (decide (i = j)) as [<-|Hne].
  - by rewrite lookup_insert_eq, Hi.
  - rewrite lookup_insert_ne by done. by destruct (interfaces o !! j).
Qed.

Lemma ensures_send {A} (a : A) c (Q : channel A → Prop) :
  (∀ c', queue c' = queue c ++ [a] → Q c') → ensures (send a c) Q.
Proof. intros HQ. unfold send. destruct (receiver_alive c); [|done]. by apply HQ. Qed.

(** A command was sent to the filter of an interface. *)
Lemma grows_sent o i info info' c ch :
  interfaces o !! i = Some info → queue ch = queue (filter info) ++ [c] →
  grows o (set_interface i (with_filter ch info') o).
Proof. intros Hi Hch. apply (grows_set o i info); [done|]. simpl. rewrite Hch. by eexists. Qed.

Lemma grows_reported o i info info' c ch h :
  interfaces o !! i = Some info → queue ch = queue (filter info) ++ [c] →
  grows o (with_heuristics h (set_interface i (with_filter ch info') o)).
Proof. intros Hi Hch. transitivity (set_interface i (with_filter ch info') o); [by eapply grows_sent|by apply grows_frame]. Qed.

Lemma command_grows i c o : ensures (command i (send c) o) (λ r, grows o r.1).
Proof.
  unfold command. destruct (interfaces o !! i) as [info|] eqn:Hi; [|simpl; reflexivity].
  apply ensures_bind, ensures_send. intros ch Hch. by eapply grows_sent.
Qed.

Lemma each_grows {A} (g : Overseer → A → outcome Overseer) l o :
  (∀ o a, ensures (g o a) (grows o)) → ensures (for_each g l o) (grows o).
Proof.
  intros Hg. apply ensures_for_each; [reflexivity|]. intros a o1 H1.
  eapply ensures_mono; [apply Hg|]. intros o2 H2. by etrans.
Qed.

Lemma upgrade_grows i c g o pr :
  ensures (upgrade_protocol i (λ pr, send (c pr)) g o pr) (grows o).
Proof.
  unfold upgrade_protocol. destruct (interfaces o !! i) as [info|] eqn:Hi; [|done]. cbn [expect mbind outcome_bind].
  apply ensures_bind, ensures_send. intros ch Hch. apply ensures_bind, ensures_true. intros h. simpl.
  by eapply grows_reported.
Qed.

Lemma discover_grows p o i : ensures (discover_at p o i) (grows o).
Proof.
  unfold discover_at. destruct (interfaces o !! i) as [info|] eqn:Hi; [|simpl; reflexivity].
  case_decide; [simpl; reflexivity|]. apply ensures_bind, ensures_send. intros ch Hch.
  by eapply grows_sent.
Qed.

Lemma inject_grows p pr n o i : ensures (inject_into p pr n o i) (grows o).
Proof.
  unfold inject_into. destruct (interfaces o !! i) as [info|] eqn:Hi; [|done]. cbn [expect mbind outcome_bind].
  apply ensures_bind, ensures_send. intros ch Hch. by eapply grows_sent.
Qed.

Lemma event_grows e o : ensures (handle_interface_event e o) (λ r, grows o r.1).
Proof.
  destruct e; simpl; try apply command_grows.
  - unfold register_peer. case_match; [simpl; reflexivity|].
    destruct (interfaces o !! interface) as [info|] eqn:Hi; [|simpl; reflexivity].
    apply ensures_bind, ensures_send. intros ch Hch. apply ensures_bind, ensures_true. intros h. simpl.
    by eapply grows_reported.
  - unfold unregister_peer. case_match; [simpl; reflexivity|].
    destruct (interfaces o !! interface) as [info|] eqn:Hi; [|simpl; reflexivity].
    case_match; [|simpl; reflexivity].
    apply ensures_bind, ensures_send. intros ch Hch. apply ensures_bind, ensures_true. intros h. simpl.
    by eapply grows_reported.
  - unfold apply_connection_upgrade. apply ensures_bind, ensures_true. intros _. apply ensures_bind.
    destruct upgrade; (eapply ensures_mono; [apply each_grows, upgrade_grows|done]).
  - unfold inject_notification. case_match; [|simpl; reflexivity]. apply ensures_bind, ensures_true. intros l.
    apply ensures_bind. eapply ensures_mono; [apply each_grows, inject_grows|done].
  - unfold discover_peer. case_match; [simpl; reflexivity|]. apply ensures_bind.
    eapply ensures_mono; [apply each_grows, discover_grows|done].
Qed.

(** One interface is created, and its filter started. *)
Record starts o o' i f : Prop := {
  st_spawned : spawned o' = spawned o ++ [f];
  st_events : filter_event_tx o' = filter_event_tx o;
  st_vacant : interfaces o !! i = None;
  st_created : ∃ info, interfaces o' = <[i := info]> (interfaces o) ∧ queue (filter info) = [];
  st_new : ∃ code d h, Filter.new i code d (filter_event_tx o) (heuristics_handle o) = Done (Ok (f, h));
}.

Lemma create_grows a code d preinit o :
  ensures (create_interface a code d preinit o) (λ r, grows o r.1 ∨ ∃ i f, starts o r.1 i f).
Proof.
  unfold create_interface. apply ensures_bind, ensures_true. intros [params|e]; [|left; reflexivity].
  apply ensures_bind, ensures_true. intros [b [[hd stream]|e]]; [|by left; apply grows_frame].
  cbn [interfaces with_backend]. destruct (interfaces o !! handle_interface_id hd) eqn:Hi; [by left; apply grows_frame|].
  destruct (add_node _ _) as [g ix]. simpl.
  destruct (Filter.new _ _ _ _ _) as [[[f h]|e]|] eqn:Hnew; [|by left; apply grows_frame|done]. simpl.
  right. exists (handle_interface_id hd), f. split; try done.
  - eexists. split; [done|]. simpl. unfold Filter.new in Hnew.
    destruct (executor_new _ _ _) as [[ex|e]|]; simpl in Hnew; [|done..]. by injection Hnew as _ <-.
  - by eexists _, _, _.
Qed.

Lemma reply_frames reply r o (P : Overseer → Prop) :
  (∀ l, P (with_replies l o)) → ensures (reply_with reply r o) P.
Proof. intros HP'. unfold reply_with. destruct (waiting reply); [|done]. apply HP'. Qed.

Lemma grows_replied o o' l : grows o o' → grows o (with_replies l o').
Proof. intros Hg. transitivity o'; [done|by apply grows_frame]. Qed.

Lemma replied_grows reply (m : outcome (Overseer * result unit Error)) o :
  ensures m (λ r, grows o r.1) → ensures ('(o', r) ← m; reply_with reply (no_id r) o') (grows o).
Proof.
  intros Hm. apply ensures_bind. eapply ensures_mono; [exact Hm|]. intros [o' r] Hg. apply reply_frames.
  intros l. by apply grows_replied.
Qed.

Lemma link_grows i j o : ensures (link_interfaces i j o) (λ r, grows o r.1).
Proof.
  unfold link_interfaces. repeat case_match; try (simpl; reflexivity). apply ensures_bind, ensures_true.
  intros [g e]. apply ensures_bind, ensures_true. intros h. by apply grows_frame.
Qed.
Lemma unlink_grows i j o : ensures (unlink_interfaces i j o) (λ r, grows o r.1).
Proof.
  unfold unlink_interfaces. case_match; [|simpl; reflexivity]. apply ensures_bind, ensures_true. intros h.
  simpl. destruct (remove_edge _ _). by apply grows_frame.
Qed.

Lemma rpc_grows ev o :
  ensures (handle_rpc ev o) (λ o', grows o o' ∨ ∃ i f, starts o o' i f).
Proof.
  destruct ev; simpl.
  1: { apply ensures_bind. eapply ensures_mono; [apply create_grows|]. intros [o' r] Ho'. apply reply_frames.
       intros l. destruct Ho' as [Hg|(i & f & [])]; [left; by apply grows_replied|right]. by exists i, f. }
  all: eapply ensures_mono; [apply replied_grows; first [apply link_grows|apply unlink_grows|apply command_grows]|by left].
Qed.

Lemma connect_grows i p o : ensures (connect_to_peer i p o) (λ r, grows o r.1).
Proof.
  unfold connect_to_peer. destruct (interfaces o !! i) as [info|] eqn:Hi; [|simpl; reflexivity].
  apply ensures_bind, ensures_true. intros [h r]. by apply (grows_set o i info).
Qed.

Lemma step_grows x o : ensures (Overseer.step o x) (λ o', grows o o' ∨ ∃ i f, starts o o' i f).
Proof.
  destruct x as [ev|ev|[i p]]; simpl; [apply rpc_grows|..]; apply ensures_fmap;
    (eapply ensures_mono; [first [apply event_grows|apply connect_grows]|by left]).
Qed.

(** ** The invariant of the whole *)
Context `{HER : !ExecutorRuns} `{HIR : !InterfacesRun}.

(** The filter of an interface runs, and is what its loop makes of the commands
    it has taken, in order and interleaved with its poll timer. *)
Record task_ok i info (t : Task) : Prop := {
  to_running : t_running t = true;
  to_open : channels_open (t_filter t);
  to_taken : (t_taken t ≤ length (queue (filter info)))%nat;
  to_history : ∃ code d hh h f0 xs,
    Filter.new i code d new_channel hh = Done (Ok (f0, h)) ∧ receiver_alive hh = true ∧
    omap id xs = take (t_taken t) (queue (filter info)) ∧ Filter.run xs f0 = Done (t_filter t);
}.

Record sys_ok params s : Prop := {
  so_reaches : reaches params (overseer s);
  so_events : filter_event_tx (overseer s) = new_channel;
  so_tasks i :
    match interfaces (overseer s) !! i, tasks s !! i with
    | Some info, Some t => task_ok i info t
    | None, None => True
    | _, _ => False
    end;
}.

Lemma sys_ok_new params : sys_ok params (system_new params).
Proof. split; [apply reaches_new|done|]. intros i. simpl. by rewrite !lookup_empty. Qed.

Lemma task_ok_grows i info info' t :
  queue (filter info) `prefix_of` queue (filter info') → task_ok i info t → task_ok i info' t.
Proof.
  intros [cs Hcs] [Hr Ho Ht Hh]. split; [done..| |].
  - rewrite Hcs, length_app. lia.
  - destruct Hh as (code & d & hh & h & f0 & xs & ? & ? & Hxs & ?). exists code, d, hh, h, f0, xs.
    split_and!; [done..| |done]. by rewrite Hxs, Hcs, take_app_le.
Qed.

(** The loop of a filter goes on. *)
Lemma run_snoc xs x f0 f f1 r :
  Filter.run xs f0 = Done f → Filter.handle x f = Done (f1, r) → Filter.run (xs ++ [x]) f0 = Done f1.
Proof.
  revert f0; induction xs as [|y xs IH]; intros f0; unfold Filter.run; simpl.
  - intros [= ->] ->. done.
  - destruct (Filter.handle y f0) as [[f2 r2]|]; [|done]. simpl. intros Hrun Hx. by apply (IH f2).
Qed.

Lemma task_ok_handled i info t x taken f1 r heard :
  task_ok i info t → Filter.handle x (t_filter t) = Done (f1, r) → channels_open f1 →
  (taken ≤ length (queue (filter info)))%nat →
  take (t_taken t) (queue (filter info)) ++ option_list x = take taken (queue (filter info)) →
  task_ok i info (mkTask f1 taken heard true).
Proof.
  intros [_ _ _ (code & d & hh & h & f0 & xs & Hnew & Hhh & Hxs & Hrun)] Hx Ho Hle Htake.
  split; [done..|]. simpl. exists code, d, hh, h, f0, (xs ++ [x]). split_and!; [done..| |by eapply run_snoc].
  rewrite omap_app, Hxs, <- Htake. by destruct x.
Qed.

(** A running filter takes its next input. *)
Lemma run_task_done i info t x taken s :
  interfaces (overseer s) !! i = Some info → task_ok i info t →
  (taken ≤ length (queue (filter info)))%nat →
  take (t_taken t) (queue (filter info)) ++ option_list x = take taken (queue (filter info)) →
  ∃ f1, run_task i x taken t s = mkSystem (overseer s) (<[i := mkTask f1 taken (t_heard t) true]> (tasks s)) ∧
    task_ok i info (mkTask f1 taken (t_heard t) true).
Proof.
  intros Hi Ht Hle Htake. pose proof (handle_handled x (t_filter t) (to_open _ _ _ Ht)) as Hrun.
  apply runs_Done in Hrun as ([f1 r] & Hrun & [Ho1 _ _ _]). exists f1. unfold run_task. rewrite Hrun.
  split; [done|]. by eapply task_ok_handled.
Qed.

Lemma sys_ok_task params s i info t :
  sys_ok params s → interfaces (overseer s) !! i = Some info → task_ok i info t →
  sys_ok params (mkSystem (overseer s) (<[i := t]> (tasks s))).
Proof.
  intros [Hr He Ht] Hi Hti. split; [done..|]. intros j. simpl. specialize (Ht j).
  destruct (decide (i = j)) as [<-|Hne]; [by rewrite lookup_insert_eq, Hi|by rewrite lookup_insert_ne].
Qed.

Lemma sys_ok_lookup params s i t :
  sys_ok params s → tasks s !! i = Some t → ∃ info, interfaces (overseer s) !! i = Some info ∧ task_ok i info t.
Proof. intros [_ _ Ht] Hi. specialize (Ht i). rewrite Hi in Ht. destruct (interfaces (overseer s) !! i); naive_solver. Qed.

Lemma sys_ok_interface params s i info :
  sys_ok params s → interfaces (overseer s) !! i = Some info → ∃ t, tasks s !! i = Some t ∧ task_ok i info t.
Proof. intros [_ _ Ht] Hi. specialize (Ht i). rewrite Hi in Ht. destruct (tasks s !! i); naive_solver. Qed.

(** The overseer sent commands to the filters. *)
Lemma sys_ok_grows params s o' ts :
  sys_ok params s → reaches params o' → grows (overseer s) o' →
  (∀ i t, tasks s !! i = Some t → ∃ t', ts !! i = Some t' ∧ t_filter t' = t_filter t ∧
     t_taken t' = t_taken t ∧ t_running t' = t_running t) →
  (∀ i, tasks s !! i = None → ts !! i = None) →
  sys_ok params (mkSystem o' ts).
Proof.
  intros [Hr He Ht] Hr' [_ Hev Hg] Hsome Hnone. split; [done|by rewrite <- He|]. intros i. simpl.
  specialize (Ht i). specialize (Hg i). specialize (Hsome i). specialize (Hnone i).
  destruct (interfaces (overseer s) !! i), (interfaces o' !! i), (tasks s !! i) as [t|]; try done.
  - destruct (Hsome t eq_refl) as ([f' taken' heard' running'] & -> & ? & ? & ?). simpl in *. subst.
    apply (task_ok_grows _ _ _ t Hg) in Ht as []. by split.
  - by rewrite Hnone.
Qed.

(** The overseer created an interface and started its filter. *)
Lemma sys_ok_starts params s o' i f :
  sys_ok params s → reaches params o' → starts (overseer s) o' i f →
  sys_ok params (mkSystem o' (<[i := mkTask f 0 0 true]> (tasks s))).
Proof.
  intros [Hr He Ht] Hr' [_ Hev Hv (info & Hio & Hq) (code & d & h & Hnew)]. split; [done|by rewrite <- He|].
  intros j. simpl. rewrite Hio. destruct (decide (i = j)) as [<-|Hne].
  - rewrite !lookup_insert_eq. pose proof (inv_heuristics _ (reaches_inv _ _ Hr)) as Hh. rewrite He in Hnew.
    destruct (new_channels _ _ _ _ _ _ _ Hnew eq_refl Hh) as (Ho & _).
    split; [done..|simpl; lia|]. by exists code, d, (Overseer.heuristics_handle (overseer s)), h, f, [].
  - rewrite !lookup_insert_ne by done. apply Ht.
Qed.

Lemma starts_interface o o' i f :
  filter_event_tx o = new_channel → receiver_alive (Overseer.heuristics_handle o) = true →
  starts o o' i f → Filter.interface f = i.
Proof.
  intros He Hh [_ _ _ _ (code & d & h & Hnew)]. rewrite He in Hnew.
  by destruct (new_channels _ _ _ _ _ _ _ Hnew eq_refl Hh) as (_ & ? & _).
Qed.

(** What the environment may do: events of the RPC and of the interfaces, as
    for the overseer alone (callers wait, upgrades name interfaces that exist),
    and any choice of the next task. *)
Definition system_input_ok s (x : SystemInput) : Prop :=
  match x with
  | External (FromFilter _) => False
  | External x => input_ok (overseer s) x
  | _ => True
  end.

Lemma external_ok params s x :
  sys_ok params s → input_ok (overseer s) x → runs (system_step s (External x)) (sys_ok params).
Proof.
  intros Hs Hok. pose proof (so_reaches _ _ Hs) as Hr. simpl.
  pose proof (step_inv (overseer s) x (reaches_inv _ _ Hr) Hok) as Hrun.
  apply runs_Done in Hrun as (o' & Hstep & _). rewrite Hstep. simpl.
  assert (reaches params o') as Hr' by (by eapply reaches_step).
  destruct (ensures_Done _ _ _ (step_grows x (overseer s)) Hstep) as [Hg|(i & f & Hst)].
  - rewrite (g_spawned _ _ Hg), drop_all. simpl. apply (sys_ok_grows params s); eauto.
  - rewrite (st_spawned _ _ _ _ Hst), drop_app_length. simpl.
    rewrite (starts_interface _ _ _ _ (so_events _ _ Hs) (inv_heuristics _ (reaches_inv _ _ Hr)) Hst).
    by apply sys_ok_starts.
Qed.

Lemma deliver_ok params s i : sys_ok params s → runs (system_step s (Deliver i)) (sys_ok params).
Proof.
  intros Hs. pose proof (so_reaches _ _ Hs) as Hr. cbn [system_step]. destruct (tasks s !! i) as [t|] eqn:Hi; [|done].
  destruct (queue _ !! _) as [[j p]|] eqn:Hev; [|done].
  pose proof (step_inv (overseer s) (FromFilter (FConnect j p)) (reaches_inv _ _ Hr) I) as Hrun.
  apply runs_Done in Hrun as (o' & Hstep & _). rewrite Hstep.
  assert (grows (overseer s) o') as Hg.
  { cbn [step] in Hstep. eapply (ensures_Done (fst <$> _)); [|exact Hstep]. apply ensures_fmap, connect_grows. }
  apply (sys_ok_grows params s); [done|by apply (reaches_step params (overseer s) (FromFilter (FConnect j p)))|done|..]; intros j'.
  - intros t' Ht'. destruct (decide (i = j')) as [<-|Hne]; [rewrite lookup_insert_eq|rewrite lookup_insert_ne by done; eauto].
    simplify_eq. eexists. split; [done|]. done.
  - intros Hn. rewrite lookup_insert_ne; [done|]. congruence.
Qed.

(** A filter takes the next of its commands, if there is one. *)
Lemma take_step params s i :
  sys_ok params s → runs (system_step s (Take i)) (λ s', sys_ok params s' ∧ overseer s' = overseer s ∧
    (∀ j, j ≠ i → tasks s' !! j = tasks s !! j) ∧
    ∀ info, interfaces (overseer s) !! i = Some info → ∃ t t', tasks s !! i = Some t ∧ tasks s' !! i = Some t' ∧
      t_taken t' = (length (queue (filter info)) `min` S (t_taken t))%nat).
Proof.
  intros Hs. simpl. pose proof (so_tasks _ _ Hs i) as Hti.
  destruct (tasks s !! i) as [t|] eqn:Ht, (interfaces (overseer s) !! i) as [info|] eqn:Hi; try done; simpl.
  destruct (queue (filter info) !! t_taken t) as [c|] eqn:Hc; simpl.
  - rewrite (to_running _ _ _ Hti). pose proof (lookup_lt_Some _ _ _ Hc) as Hlt.
    destruct (run_task_done i info t (Some c) (S (t_taken t)) s) as (f1 & -> & Hok); [done..| |].
    { simpl. symmetry. by apply take_S_r. }
    split_and!; [by eapply sys_ok_task|done|by intros j Hne; simpl; rewrite lookup_insert_ne|].
    intros info' [= <-]. eexists t, _. cbn [tasks]. rewrite lookup_insert_eq. split_and!; [done..|]. cbn [t_taken]. lia.
  - split_and!; [done..|]. intros info' [= <-]. exists t, t. split_and!; [done..|].
    apply lookup_ge_None in Hc. pose proof (to_taken _ _ _ Hti). lia.
Qed.

Lemma tick_ok params s i : sys_ok params s → runs (system_step s (Tick i)) (sys_ok params).
Proof.
  intros Hs. simpl. destruct (tasks s !! i) as [t|] eqn:Ht; [|done].
  destruct (sys_ok_lookup _ _ _ _ Hs Ht) as (info & Hi & Hti). rewrite (to_running _ _ _ Hti). simpl.
  destruct (run_task_done i info t None (t_taken t) s) as (f1 & -> & Hok); [done..|apply Hti| |].
  { simpl. by rewrite app_nil_r. }
  by eapply sys_ok_task.
Qed.

Lemma system_step_ok params s x : sys_ok params s → system_input_ok s x → runs (system_step s x) (sys_ok params).
Proof.
  intros Hs Hx. destruct x as [x|i|i|i]; [|..|by apply deliver_ok].
  - apply external_ok; [done|]. by destruct x.
  - eapply runs_mono; [by apply (take_step params)|]. by intros s' [Hs' _].
  - by apply tick_ok.
Qed.

(** The states of the running program. *)
Inductive system_reaches (params : NetworkParameters) : System → Prop :=
  | system_reaches_new : system_reaches params (system_new params)
  | system_reaches_step s x s' :
      system_reaches params s → system_input_ok s x → system_step s x = Done s' → system_reaches params s'.

Lemma system_reaches_ok params s : system_reaches params s → sys_ok params s.
Proof.
  induction 1 as [|s x s' _ IH Hok Hstep]; [apply sys_ok_new|].
  pose proof (system_step_ok params s x IH Hok) as Hrun. by rewrite Hstep in Hrun.
Qed.

(** ** Catching up *)

(** How often a filter is scheduled. *)
Definition turns i (schedule : list InterfaceId) : nat := length (base.filter (i =.) schedule).

Lemma takes_run params schedule s :
  sys_ok params s → runs (system_run (Take <$> schedule) s) (λ s', sys_ok params s' ∧ overseer s' = overseer s ∧
    ∀ i info, interfaces (overseer s) !! i = Some info → ∃ t t', tasks s !! i = Some t ∧ tasks s' !! i = Some t' ∧
      t_taken t' = (length (queue (filter info)) `min` (turns i schedule + t_taken t))%nat).
Proof.
  revert s; induction schedule as [|j schedule IH]; intros s Hs.
  { simpl. split_and!; [done..|]. intros i info Hi. destruct (sys_ok_interface _ _ _ _ Hs Hi) as (t & Ht & Hti).
    exists t, t. split_and!; [done..|]. pose proof (to_taken _ _ _ Hti). unfold turns. simpl. lia. }
  unfold system_run. cbn [fmap list_fmap for_each]. apply runs_bind.
  eapply runs_mono; [by apply (take_step params)|]. intros s1 (Hs1 & Ho1 & Hne & He).
  eapply runs_mono; [by apply IH|]. intros s2 (Hs2 & Ho2 & Hi2). rewrite Ho1 in Ho2, Hi2.
  split_and!; [done..|]. intros i info Hi. destruct (Hi2 i info Hi) as (t1 & t2 & Ht1 & Ht2 & Htk2).
  unfold turns. rewrite filter_cons. destruct (decide (i = j)) as [<-|Hij].
  - destruct (He info Hi) as (t & t1' & Ht & Ht1' & Htk). simplify_eq. exists t, t2. split_and!; [done..|].
    rewrite Htk2, Htk. simpl. unfold turns. lia.
  - rewrite Hne in Ht1 by done. by exists t1, t2.
Qed.

(** A filter that has taken all its commands knows the peers of its interface. *)
Lemma caught_up_peers params s i info t :
  sys_ok params s → interfaces (overseer s) !! i = Some info → tasks s !! i = Some t →
  (∀ st p, accepts st p = true) → t_taken t = length (queue (filter info)) →
  dom (peers (t_filter t)) = dom (ii_peers info).
Proof.
  intros Hs Hi Ht Hacc Htk. destruct (sys_ok_lookup _ _ _ _ Hs Ht) as (info' & Hi' & Hti). simplify_eq.
  destruct (to_history _ _ _ Hti) as (code & d & hh & h & f0 & xs & Hnew & Hhh & Hxs & Hrun).
  destruct (new_channels _ _ _ _ _ _ _ Hnew eq_refl Hhh) as (Ho & _ & Hp & _).
  pose proof (runs_eq _ _ _ (run_registry xs f0 Hacc Ho) Hrun) as Hdom. simpl in Hdom.
  unfold sinks in Hdom. rewrite !dom_fmap_L, Hp, dom_empty_L, Hxs, Htk, take_ge in Hdom by done.
  rewrite Hdom. symmetry. apply (inv_local _ (reaches_inv _ _ (so_reaches _ _ Hs)) i info Hi).
Qed.

(** ** Theorems *)

(** C9: The overseer and its filters run side by side without a panic, as long
    as neither the executor nor the backend panics, the callers of the RPC wait
    for their answers (the overseer panics when one does not, see
    [lost_caller_stops_overseer]) and connections are upgraded on interfaces
    that exist: in every interleaving of events of the RPC and of the
    interfaces, of filters taking commands and polling their executors, and of
    the overseer taking the requests of the filters, the next step completes,
    every interface has a running filter and there are no others, and the state
    of each filter is what its loop made of the first commands sent to it, in
    the order they were sent. *)
Theorem system_never_panics params s x :
  system_reaches params s → system_input_ok s x →
  ∃ s', system_step s x = Done s' ∧ dom (tasks s') = dom (interfaces (overseer s')) ∧
    ∀ i t, tasks s' !! i = Some t → ∃ info, interfaces (overseer s') !! i = Some info ∧ task_ok i info t.
Proof.
  intros Hr Hok. pose proof (system_step_ok params s x (system_reaches_ok _ _ Hr) Hok) as Hrun.
  apply runs_Done in Hrun as (s' & Hstep & Hs'). exists s'. split_and!; [done| |by intros; eapply sys_ok_lookup].
  apply set_eq. intros i. rewrite !elem_of_dom. pose proof (so_tasks _ _ Hs' i).
  destruct (interfaces (overseer s') !! i), (tasks s' !! i); try done; by split.
Qed.

(** C10: Filters catch up with the overseer. In every state the program reaches
    while neither the executor nor the backend panics (a filter whose executor
    panics takes no more commands), the callers of the RPC wait for their
    answers and connections are upgraded on interfaces that exist: once every
    filter has been scheduled as often as it has commands waiting, in whatever
    order, each has taken all its commands and, with an executor that accepts
    registrations, knows exactly the peers the overseer knows at its
    interface. *)
Theorem filters_catch_up params s schedule :
  system_reaches params s → (∀ st p, accepts st p = true) →
  (∀ i t info, tasks s !! i = Some t → interfaces (overseer s) !! i = Some info →
     length (queue (filter info)) ≤ turns i schedule + t_taken t)%nat →
  ∃ s', system_run (Take <$> schedule) s = Done s' ∧ overseer s' = overseer s ∧
    ∀ i info, interfaces (overseer s) !! i = Some info → ∃ t, tasks s' !! i = Some t ∧
      t_taken t = length (queue (filter info)) ∧ dom (peers (t_filter t)) = dom (ii_peers info).
Proof.
  intros Hr Hacc Hfair. pose proof (takes_run params schedule s (system_reaches_ok _ _ Hr)) as Hrun.
  apply runs_Done in Hrun as (s' & Hrun & Hs' & Ho & Hi'). exists s'. split_and!; [done..|]. intros i info Hi.
  destruct (Hi' i info Hi) as (t & t' & Ht & Ht' & Htk). exists t'. pose proof (Hfair i t info Ht Hi).
  assert (t_taken t' = length (queue (filter info))) as Hall by lia. split_and!; [done..|].
  eapply caught_up_peers; [done|by rewrite Ho|done..].
Qed.
End theorems.

(** ** An executor that panics *)
Section panic.
Context `{HB : NetworkBackend} `{HE : !Executor} `{HS : !PacketSink} `{HI : !Interfaces}.
Context `{HG : !LinkGraph InterfaceId} `{HO : !HashOrder InterfaceId} `{HP : !HashOrder Protocol}.
Context `{HOP : !HashOrder PeerId}.
Implicit Types (s : System) (i : InterfaceId) (info : InterfaceInfo).

(** The iteration of the loop of filter [i] that [x] starts panics. *)
Definition panics_at i info (t : Task) (x : SystemInput) : Prop :=
  (x = Tick i ∧ ∃ why, Filter.handle None (t_filter t) = Panicked why) ∨
  (x = Take i ∧ ∃ c why, queue (filter info) !! t_taken t = Some c ∧ Filter.handle (Some c) (t_filter t) = Panicked why).

Lemma panicked_step s i info t x :
  interfaces (overseer s) !! i = Some info → tasks s !! i = Some t → t_running t = true → panics_at i info t x →
  ∃ s', system_step s x = Done s' ∧ interface_peer_ids (overseer s') = interface_peer_ids (overseer s) ∧
    interfaces (overseer s') !! i = Some (with_filter (mkChannel (queue (filter info)) false) info).
Proof.
  intros Hi Ht Hrun [(-> & why & Hp)|(-> & c & why & Hc & Hp)]; simpl; rewrite Ht, ?Hi, ?Hc, Hrun;
    (eexists; split; [done|]); unfold run_task; rewrite Hp; unfold close_commands; rewrite Hi; simpl;
    by rewrite lookup_insert_eq.
Qed.

(** C11: The code of one filter can end the program. When the executor of a
    filter panics, in a poll or while a command is handled, the task of the
    filter ends and the overseer is not told: the next thing that happens at
    the interface, a peer that connects, a request that arrives or a filter
    that is installed, panics the overseer, which serves all interfaces. *)
Theorem panicking_filter_ends_the_overseer s i info t x :
  interfaces (overseer s) !! i = Some info → tasks s !! i = Some t → t_running t = true → panics_at i info t x →
  ∃ s', system_step s x = Done s' ∧
    (∀ p prs sk, interface_peer_ids (overseer s) !! p = None →
       system_step s' (External (FromInterface (PeerConnected i p prs sk))) = Panicked ExpectFailed) ∧
    (∀ p pr r, system_step s' (External (FromInterface (RequestReceived i p pr r))) = Panicked ExpectFailed) ∧
    (∀ pr code context reply,
       system_step s' (External (FromRpc (OvInstallNotificationFilter i pr code context reply))) = Panicked ExpectFailed).
Proof.
  intros Hi Ht Hrun Hp. destruct (panicked_step s i info t x Hi Ht Hrun Hp) as (s' & Hstep & Hids & Hi').
  exists s'. split_and!; [done|..].
  - intros p prs sk Hnot. simpl. unfold register_peer. by rewrite Hids, Hnot, Hi'.
  - intros p pr r. simpl. unfold inject_request, command. by rewrite Hi'.
  - intros pr code context reply. simpl. unfold install_notification_filter, command. by rewrite Hi'.
Qed.
End panic.

(** ** Concrete runs *)
Section examples.
#[local] Existing Instances numbers_backend script_executor script_executor_runs numbered_sinks peers_order.
#[local] Existing Instances numbered_interfaces numbered_interfaces_run interface_order protocol_order.

#[local] Abbreviation nPeerId := (@PeerId numbers_backend) (only parsing).
#[local] Abbreviation nInterfaceId := (@InterfaceId numbers_backend) (only parsing).

(** The history of the overseer, with the first filter busy in between. *)
Definition system_history : list SystemInput :=
  (External <$> example_history) ++ [Take (1 : nInterfaceId); Tick (1 : nInterfaceId); External (message 1 7)].
Definition example_system : System :=
  match system_run system_history (system_new no_parameters) with Done s => s | Panicked _ => system_new no_parameters end.

(** Inputs that are fine in every state. *)
Definition system_always_ok (x : SystemInput) : bool :=
  match x with External (FromFilter _) => false | External x => always_ok x | _ => true end.

Lemma system_reaches_run xs s s' :
  system_reaches no_parameters s → forallb system_always_ok xs = true → system_run xs s = Done s' →
  system_reaches no_parameters s'.
Proof.
  revert s; induction xs as [|x xs IH]; intros s Hr Hok Hrun; [by injection Hrun as <-|].
  simpl in Hok. apply andb_true_iff in Hok as [Hx Hxs]. unfold system_run in Hrun. cbn [for_each] in Hrun.
  destruct (system_step s x) as [s1|] eqn:Hstep; [|done]. apply (IH s1); [|done|done].
  eapply system_reaches_step; [done| |done]. destruct x as [[| |]| | |]; try done; by apply always_ok_input.
Qed.

Lemma example_system_reached : system_reaches no_parameters example_system.
Proof.
  unfold example_system. destruct (system_run system_history (system_new no_parameters)) as [s|] eqn:Hrun.
  - by eapply (system_reaches_run system_history); [apply system_reaches_new| |exact Hrun].
  - apply system_reaches_new.
Qed.

Example system_never_panics_witness :
  ∃ s', system_step example_system (Take (1 : nInterfaceId)) = Done s' ∧ dom (tasks s') = dom (interfaces (overseer s')) ∧
    ∀ i t, tasks s' !! i = Some t → ∃ info, interfaces (overseer s') !! i = Some info ∧ task_ok i info t.
Proof.
  apply (system_never_panics no_parameters example_system (Take (1 : nInterfaceId))); [apply example_system_reached|done].
Defined.

(** Two commands were sent to the first filter, which has taken one. *)
Definition example_schedule : list nInterfaceId := [3; 1; 2; 4].

Lemma example_outstanding :
  map_Forall (λ i t, default O ((λ info, length (queue (filter info))) <$> interfaces (overseer example_system) !! i) ≤
    turns i example_schedule + t_taken t)%nat (tasks example_system).
Proof. apply (bool_decide_eq_true_1 _ (Decision0 := map_Forall_dec _ (H7 := λ i t, Compare_dec.le_dec _ _) _)). by vm_compute. Qed.

Example filters_catch_up_witness :
  ∃ s', system_run (Take <$> example_schedule) example_system = Done s' ∧ overseer s' = overseer example_system ∧
    ∀ i info, interfaces (overseer example_system) !! i = Some info → ∃ t, tasks s' !! i = Some t ∧
      t_taken t = length (queue (filter info)) ∧ dom (peers (t_filter t)) = dom (ii_peers info).
Proof.
  apply (filters_catch_up no_parameters example_system example_schedule); [apply example_system_reached|done|].
  intros i t info Ht Hi. pose proof (example_outstanding i t Ht) as Hle. cbv beta in Hle. by rewrite Hi in Hle.
Defined.
End examples.

(** A Python filter whose [poll] returns a number. *)
Section number_filter.
#[local] Existing Instances numbers_backend number_objects number_objects_laws numbered_sinks peers_order.
#[local] Existing Instances numbered_interfaces interface_order protocol_order.

#[local] Instance number_python : Python PyValue string nat := {|
  py_from_code code _ w := (Ok code, S w);
  py_getattr _ name w := (Ok (PyStr name), w);
  py_call1 f _ w := (Ok match f with PyStr name => if String.eqb name "poll" then PyInt 1 else PyNone | _ => PyNone end, w);
|}.
#[local] Instance number_executor : Executor := PyFilter.pyo3_executor (Obj := PyValue) demo_debug Z.of_nat O.

#[local] Abbreviation nPeerId := (@PeerId numbers_backend) (only parsing).
#[local] Abbreviation nInterfaceId := (@InterfaceId numbers_backend) (only parsing).
#[local] Abbreviation nSink := (@sink numbers_backend numbered_sinks) (only parsing).

Definition number_system : System :=
  match system_run [External create; External (connected 1 7)] (system_new no_parameters) with
  | Done s => s
  | Panicked _ => system_new no_parameters
  end.

Definition number_info : InterfaceInfo :=
  default (InterfaceInfo_new 0 (0 : nPeerId) (0 : @InterfaceHandle numbers_backend) new_channel)
    (interfaces (overseer number_system) !! (1 : nInterfaceId)).

(** The next command of a running filter panics. *)
Definition next_panics (s : System) (i : nInterfaceId) (info : InterfaceInfo) : bool :=
  match tasks s !! i with
  | Some t =>
      t_running t &&
      match queue (filter info) !! t_taken t with
      | Some c => match Filter.handle (Some c) (t_filter t) with Panicked _ => true | Done _ => false end
      | None => false
      end
  | None => false
  end.

Lemma next_panics_at s i info :
  next_panics s i info = true → ∃ t, tasks s !! i = Some t ∧ t_running t = true ∧ panics_at i info t (Take i).
Proof.
  unfold next_panics. destruct (tasks s !! i) as [t|]; [|done]. intros [Hr Hp]%andb_true_iff. exists t.
  split_and!; [done..|]. right. split; [done|].
  destruct (queue (filter info) !! t_taken t) as [c|]; [|done]. exists c.
  destruct (Filter.handle (Some c) (t_filter t)) as [|why] eqn:Hh; [done|]. by exists why.
Qed.

(** The overseer is gone when the second peer connects. *)
Example panicking_filter_ends_the_overseer_witness :
  ∃ s', system_step number_system (Take (1 : nInterfaceId)) = Done s' ∧
    system_step s' (External (connected 1 8)) = Panicked ExpectFailed.
Proof.
  destruct (next_panics_at number_system (1 : nInterfaceId) number_info) as (t & Ht & Hr & Hp); [by vm_compute|].
  destruct (panicking_filter_ends_the_overseer number_system (1 : nInterfaceId) number_info t (Take (1 : nInterfaceId)))
    as (s' & Hstep & Hconn & _); [by vm_compute|done..|].
  exists s'. split; [exact Hstep|]. by apply Hconn.
Defined.
End number_filter.
