(* ===== verification/MockSystem.v ===== *)
(** * The overseer with the mock chain

    [MockchainBackend] as the backend of [Overseer.v] and [System.v]: the
    implementation of [Interfaces] by the operations of [Mockchain.v], and two
    defects that show when the parts are put together. *)

From S2P Require Import Prelude PeersState Peerset Notifications Wire Scale Backend Python PyExecutor MockTypes Mockchain MockchainTheorems.
From S2P Require Import Heuristics Filter FilterTheorems LinkGraph Overseer OverseerTheorems System.
Import System.

(** ** Creating interfaces, whatever the backend *)
Section create.
Context `{HB : NetworkBackend} `{HE : !Executor} `{HS : !PacketSink} `{HI : !Interfaces} `{HG : !LinkGraph InterfaceId}.

Lemma create_refused_filter o address code d b h stream e :
  spawn_interface (backend o) address Masquerade None = Done (b, Ok (h, stream)) →
  interfaces o !! handle_interface_id h = None → executor_new (handle_interface_id h) code None = Done (Err e) →
  create_interface address code d None o =
    Done (with_links (add_node (links o) (handle_interface_id h)).1 (with_backend b o), Err e).
Proof.
  intros Hs Hi He. unfold create_interface. cbn [mbind outcome_bind mret outcome_ret]. rewrite Hs.
  cbn [mbind outcome_bind interfaces with_backend]. rewrite Hi. cbn [links with_backend].
  destruct (add_node (links o) _) as [g n]. unfold Filter.new. by rewrite He.
Qed.

Lemma create_refused_interface o address code d e :
  spawn_interface (backend o) address Masquerade None = Done (backend o, Err e) →
  create_interface address code d None o = Done (o, Err e).
Proof. intros Hs. unfold create_interface. cbn [mbind outcome_bind mret outcome_ret]. rewrite Hs. by destruct o. Qed.
End create.

(** ** The mock chain *)
Section mock.
Context `{Scale} (digest : bytes → Z).
#[local] Instance mock_backend : NetworkBackend := Mockchain.mockchain_network digest.
(** What [TcpListener::bind] returns. *)
Context (bound : Mockchain.MockchainBackend → SocketAddr → result unit string).

(** [impl NetworkBackend for MockchainBackend] and [impl Interface for
    MockchainHandle]; the stream of events is known by the number of its
    interface. *)
Definition mockchain_interfaces : Interfaces (H := mock_backend) := {|
  backend_state := Mockchain.MockchainBackend;
  event_stream := Z;
  backend_new _ := Mockchain.new;
  spawn_interface b address interface_type _ :=
    '(r, b') ← Mockchain.spawn_interface address interface_type (bound b address) b;
    Done (b', match r with Ok h => Ok (h : @InterfaceHandle mock_backend, Mockchain.mh_id h) | Err e => Err e end);
  handle_interface_id h := Mockchain.handle_interface_id h;
  handle_peer_id h := Mockchain.handle_peer_id h;
  handle_connect h p := r ← Mockchain.handle_connect h p; Done (h, r);
|}.
#[local] Existing Instance mockchain_interfaces.

Context `{HE : !Executor} `{HS : !PacketSink} `{HG : !LinkGraph InterfaceId}.
Context `{HO : !HashOrder InterfaceId} `{HP : !HashOrder Protocol} `{HOP : !HashOrder PeerId}.
Implicit Types (o : Overseer) (s : System) (i : InterfaceId).

(** A filter that asks for a connection ends the overseer: the mock chain does
    not implement [connect]. *)
Theorem mock_connect_ends_the_overseer s i t j info p :
  tasks s !! i = Some t → queue (event_tx (t_filter t)) !! t_heard t = Some (FConnect j p) →
  interfaces (overseer s) !! j = Some info →
  system_step s (Deliver i) = Panicked NotYetImplemented.
Proof. intros Ht Hq Hj. cbn [system_step]. rewrite Ht, Hq. cbn [step]. unfold connect_to_peer. by rewrite Hj. Qed.

Lemma mock_spawned (b : Mockchain.MockchainBackend) address params :
  address ∉ dom (Mockchain.interfaces b) → bound b address = Ok tt → 0 ≤ Mockchain.next_iface_id b < u64_max →
  let id := Mockchain.next_iface_id b in
  spawn_interface (Interfaces := mockchain_interfaces) b address Masquerade params =
    Done (Mockchain.mkMockchainBackend (id + 1) (<[address := id]> (Mockchain.interfaces b)),
          Ok (Mockchain.mkMockchainHandle id id : @InterfaceHandle mock_backend, id)).
Proof.
  intros Hfree Hbound Hnext. cbn [spawn_interface mockchain_interfaces]. unfold Mockchain.spawn_interface.
  rewrite decide_False by done. unfold Mockchain.next_interface_id, u64_add. rewrite (proj2 (Z.leb_le _ _)) by lia.
  by rewrite Hbound.
Qed.

Lemma mock_address_in_use (b : Mockchain.MockchainBackend) address params :
  address ∈ dom (Mockchain.interfaces b) →
  spawn_interface (Interfaces := mockchain_interfaces) b address Masquerade params = Done (b, Err (AddressInUse address)).
Proof.
  intros Hin. cbn [spawn_interface mockchain_interfaces]. unfold Mockchain.spawn_interface. by rewrite decide_True.
Qed.

(** An interface whose filter is refused blocks its address: the caller gets the
    error of the filter, but the backend has the interface, and creating it
    again with another filter is refused. *)
Theorem refused_filter_blocks_the_address o address code d e :
  address ∉ dom (Mockchain.interfaces (backend o : Mockchain.MockchainBackend)) →
  bound (backend o) address = Ok tt →
  0 ≤ Mockchain.next_iface_id (backend o : Mockchain.MockchainBackend) < u64_max →
  interfaces o !! (Mockchain.next_iface_id (backend o : Mockchain.MockchainBackend) : InterfaceId) = None →
  executor_new (Mockchain.next_iface_id (backend o : Mockchain.MockchainBackend) : InterfaceId) code None = Done (Err e) →
  ∃ o', create_interface address code d None o = Done (o', Err e) ∧
    ∀ code' d', create_interface address code' d' None o' = Done (o', Err (AddressInUse address)).
Proof.
  intros Hfree Hbound Hnext Hnew Hex. eexists. split.
  - eapply create_refused_filter; [by apply mock_spawned|done|done].
  - intros code' d'. apply create_refused_interface, mock_address_in_use. cbn [backend with_links with_backend].
    cbn [Mockchain.interfaces]. rewrite dom_insert_L. set_solver.
Qed.
End mock.

(** ** A concrete run *)
Section examples.
#[local] Existing Instance scale_le.
Definition no_digest (b : bytes) : Z := 0.
#[local] Instance demo_backend : NetworkBackend := Mockchain.mockchain_network no_digest.
#[local] Instance demo_interfaces : Interfaces := mockchain_interfaces no_digest (λ _ _, Ok tt).

(** An executor that wants to be connected to every peer it hears of, and
    refuses empty code. *)
#[local] Instance eager_executor : Executor := {|
  executor_state := unit;
  initialize_interface _ _ := Done (Ok 0);
  executor_new _ code _ := Done (if String.eqb code "" then Err (Custom "SyntaxError") else Ok tt);
  executor_poll st := Done (st, Ok []);
  executor_register_peer st _ := Done (st, Ok []);
  executor_discover_peer st p := Done (st, Ok [EvConnect p]);
  executor_unregister_peer st _ := Done (st, Ok []);
  executor_protocol_opened st _ _ := Done (st, Ok []);
  executor_protocol_closed st _ _ := Done (st, Ok []);
  executor_install_notification_filter st _ _ := Done (st, Ok tt);
  executor_install_request_response_filter st _ _ := Done (st, Ok tt);
  executor_inject_notification st _ _ _ := Done (st, Ok []);
  executor_inject_request st _ _ _ := Done (st, Ok []);
  executor_inject_response st _ _ _ := Done (st, Ok []);
|}.
#[local] Instance silent_sinks : PacketSink := {| sink := unit; sink_answer _ _ _ := Ok tt |}.
#[local] Instance demo_interface_order : HashOrder InterfaceId := canonical_order InterfaceId.
#[local] Instance demo_protocol_order : HashOrder Protocol := canonical_order Protocol.
#[local] Instance demo_peer_order : HashOrder PeerId := canonical_order PeerId.

Definition create_at (code : string) : SystemInput :=
  External (FromRpc (CreateInterface (demo_addr 80) code 0 None (mkOneshot 0 true))).

(** The refused filter, the blocked address, and a peer that is discovered. *)
Definition panic_of {A} (m : outcome A) : option panic := match m with Panicked why => Some why | Done _ => None end.

Example mock_run :
  match system_run [create_at ""; create_at "code"] (system_new (tt : @NetworkParameters demo_backend)) with
  | Done s => (replies (overseer s)).*2
  | Panicked _ => []
  end = [Err (Custom "SyntaxError"); Err (AddressInUse (demo_addr 80))] ∧
  panic_of (system_run [create_at "code"; External (FromInterface (PeerDiscovered (9 : @PeerId demo_backend)));
              Take (0 : @InterfaceId demo_backend); Deliver (0 : @InterfaceId demo_backend)]
    (system_new (tt : @NetworkParameters demo_backend))) = Some NotYetImplemented.
Proof. split; vm_compute; reflexivity. Qed.
End examples.
