(* ===== verification/Rpc.v ===== *)
(** * The RPC server and the main program

    Models of [rpc.rs] and [main.rs]: the five methods, which read their
    parameters, send an event with a [oneshot] channel to the overseer and wait
    for the answer; the texts of [error.rs], which the callers see; the
    arguments the main program starts the overseer and the server with; and the
    host as a whole: the overseer with its filters, as [System.v] composes them,
    with the calls made to it. When the overseer panics its task ends, and with
    it the channels it holds; a filter that panics ends its own task only.

    The parameters of a call ([jsonrpsee]'s [ParamsSequence]) are an interface,
    as is [hex]. *)

From stdpp Require Import pretty.
From S2P Require Import Prelude Wire Backend SocketText Filter LinkGraph Overseer System Substrate.

Module Rpc.

(** ** [error.rs] *)

(** The texts of values of other crates, and that of an IPv6 socket address,
    which differs between releases of the standard library. *)
Class ErrorTexts := {
  io_text : string → string;
  cbor_text : string → string;
  socket_v6_text : Z → Z → Z → Z → string;
}.

Section errors.
Context `{ErrorTexts}.

Definition socket_to_string (a : SocketAddr) : string :=
  match a with
  | SocketAddrV4 ip port => SocketText.v4_to_string ip port
  | SocketAddrV6 ip port flowinfo scope_id => socket_v6_text ip port flowinfo scope_id
  end.

Definition executor_error_to_string (e : ExecutorError) : string :=
  match e with
  | RuntimeError why => "Runtime error: `" +:+ why +:+ "`"
  | ExecutorDoesntExist => "Executor does not exist"
  | ExecutorFilterDoesntExist => "Filter does not exist"
  end.

Definition filter_error_to_string (e : FilterError) : string :=
  match e with InvalidFilter why => "Invalid filter code: `" +:+ why +:+ "`" end.

Definition error_to_string (e : Error) : string :=
  match e with
  | InvalidAddress address => "Invalid address: `" +:+ address +:+ "`"
  | AddressInUse address => "Address already in use: `" +:+ socket_to_string address +:+ "`"
  | Io kind => "I/O error: `" +:+ io_text kind +:+ "`"
  | SerdeCbor category => "Serde CBOR error: `" +:+ cbor_text category +:+ "`"
  | InterfaceAlreadyExists => "Interface already exists"
  | PeerAlreadyExists => "Peer already exists"
  | InterfaceDoesntExist => "Interface does not exist"
  | PeerDoesntExist => "Peer does not exist"
  | LinkDoesntExist => "Link does not exist"
  | FilterAlreadyExists => "Filter already exists"
  | FilterDoesntExist => "Filter does not exit"
  | RequestDoesntExist => "Request does not exist"
  | Backend.Substrate why => "Substrate error: `" +:+ why +:+ "`"
  | Custom why => "Custom error: `" +:+ why +:+ "`"
  | EFilterError e => "Filter error: `" +:+ filter_error_to_string e +:+ "`"
  | EExecutorError e => "Executor error: `" +:+ executor_error_to_string e +:+ "`"
  end.
End errors.

(** ** [rpc.rs] *)

(** [ParamsSequence::next] at the types it is used at: the next parameter, if
    there is one and it has the type, and those that follow. *)
Class RpcParams `{NetworkBackend} (Seq : Type) := {
  next_string : Seq → option (string * Seq);
  next_u64 : Seq → option (Z * Seq);
  next_interface : Seq → option (InterfaceId * Seq);
  next_protocol : Seq → option (Protocol * Seq);
}.

(** [.map_err(|_| Error::Custom(String::from(why)))?]. *)
Definition param {A Seq R} (o : option (A * Seq)) (why : string)
    (k : A → Seq → result R string) : result R string :=
  match o with Some (a, rest) => k a rest | None => Err why end.

Definition from_millis (ms : Z) : Duration := ms * 1000000.

Section methods.
Context `{HB : NetworkBackend} {Seq : Type} `{HR : !RpcParams Seq} `{HT : !ErrorTexts}.

Definition create_interface (params : Seq) : result (oneshot → OverseerEvent) string :=
  param (next_string params) "RPC bind address missing" (λ text params,
  match SocketText.from_str text with
  | None => Err "Invalid socket address"
  | Some address =>
      param (next_string params) "Filter missing" (λ filter params,
      param (next_u64 params) "RPC bind address missing" (λ poll_interval params,
      Ok (CreateInterface address filter (from_millis poll_interval) (fst <$> next_string params))))
  end)%string.

Definition link_interface (params : Seq) : result (oneshot → OverseerEvent) string :=
  param (next_interface params) "RPC bind address missing" (λ first params,
  param (next_interface params) "RPC bind address missing" (λ second _,
  Ok (LinkInterface first second)))%string.

Definition unlink_interface (params : Seq) : result (oneshot → OverseerEvent) string :=
  param (next_interface params) "RPC bind address missing" (λ first params,
  param (next_interface params) "RPC bind address missing" (λ second _,
  Ok (UnlinkInterface first second)))%string.

Definition install_notification_filter (params : Seq) : result (oneshot → OverseerEvent) string :=
  param (next_interface params) "Interface ID missing" (λ interface params,
  param (next_protocol params) "Protocol missing" (λ protocol params,
  param (next_string params) "Filter code missing" (λ filter_code params,
  param (next_string params) "Context missing" (λ context _,
  Ok (OvInstallNotificationFilter interface protocol filter_code context)))))%string.

Definition install_request_response_filter (params : Seq) : result (oneshot → OverseerEvent) string :=
  param (next_interface params) "Interface ID missing" (λ interface params,
  param (next_protocol params) "Protocol missing" (λ protocol params,
  param (next_string params) "Filter code missing" (λ filter_code params,
  param (next_string params) "Context missing" (λ context _,
  Ok (OvInstallRequestResponseFilter interface protocol filter_code context)))))%string.

(** The methods registered with the server. *)
Inductive Method :=
  | MCreateInterface
  | MLinkInterface
  | MUnlinkInterface
  | MInstallNotificationFilter
  | MInstallRequestResponseFilter.

Definition register_async_method (name : string) : option Method :=
  if decide (name = "create_interface"%string) then Some MCreateInterface
  else if decide (name = "link_interface"%string) then Some MLinkInterface
  else if decide (name = "unlink_interface"%string) then Some MUnlinkInterface
  else if decide (name = "install_notification_filter"%string) then Some MInstallNotificationFilter
  else if decide (name = "install_request_response_filter"%string) then Some MInstallRequestResponseFilter
  else None.

Definition read_params (m : Method) : Seq → result (oneshot → OverseerEvent) string :=
  match m with
  | MCreateInterface => create_interface
  | MLinkInterface => link_interface
  | MUnlinkInterface => unlink_interface
  | MInstallNotificationFilter => install_notification_filter
  | MInstallRequestResponseFilter => install_request_response_filter
  end.

(** What the caller is told: [sent] is whether the overseer takes events,
    [received] what arrives on the [oneshot] channel unless it is closed. *)
Definition respond {A} (sent : bool) (received : option (result A Error)) : result A string :=
  if sent then
    match received with
    | Some (Ok a) => Ok a
    | Some (Err e) => Err (error_to_string e)
    | None => Err "Essential task closed"%string
    end
  else Err "Essential task closed"%string.
End methods.

(** ** The host *)
Section host.
Context `{HB : NetworkBackend} `{HE : !Executor} `{HS : !PacketSink} `{HI : !Interfaces}.
Context `{HG : !LinkGraph InterfaceId} `{HO : !HashOrder InterfaceId} `{HP : !HashOrder Protocol}.
Context `{HOP : !HashOrder PeerId}.
Context {Seq : Type} `{HR : !RpcParams Seq} `{HT : !ErrorTexts}.

(** The overseer and its filters, unless the task of the overseer has ended,
    the number of the next call, and the answers the callers were given. *)
Record Host := mkHost {
  program : option System.System;
  next_call : nat;
  answers : list (nat * result (option InterfaceId) string);
}.

Definition host_new (parameters : NetworkParameters) : Host := mkHost (Some (System.system_new parameters)) 0 [].

(** What was sent on the channel with a number. *)
Definition received (n : nat) (o : Overseer) : option (result (option InterfaceId) Error) :=
  list_to_map (M := gmap nat _) (replies o) !! n.

(** A call, whose caller may go away before the overseer answers, in the order
    in which the overseer takes them from its channel; an event of an interface;
    a filter takes its next command or polls its executor; the overseer takes
    the next event of a filter. *)
Inductive HostInput :=
  | Call (m : Method) (params : Seq) (listening : bool)
  | Event (event : InterfaceEvent)
  | FilterTakes (i : InterfaceId)
  | FilterPolls (i : InterfaceId)
  | FilterHeard (i : InterfaceId).

(** A panic of the overseer ends it; the step of the whole is a panic then. *)
Definition run_program (p : option System.System) (x : System.SystemInput) : option System.System :=
  match p with
  | Some s => match System.system_step s x with Done s' => Some s' | Panicked _ => None end
  | None => None
  end.

Definition host_run (h : Host) (x : System.SystemInput) : Host :=
  mkHost (run_program (program h) x) (next_call h) (answers h).

Definition host_step (h : Host) (x : HostInput) : Host :=
  match x with
  | Call m params listening =>
      let n := next_call h in
      let '(p, answer) :=
        match read_params m params with
        | Err why => (program h, Err why)
        | Ok event =>
            let p := run_program (program h) (System.External (FromRpc (event (mkOneshot n listening)))) in
            (p, respond (bool_decide (is_Some (program h))) (p ≫= λ s, received n (System.overseer s)))
        end in
      mkHost p (S n) (if listening then answers h ++ [(n, answer)] else answers h)
  | Event event => host_run h (System.External (FromInterface event))
  | FilterTakes i => host_run h (System.Take i)
  | FilterPolls i => host_run h (System.Tick i)
  | FilterHeard i => host_run h (System.Deliver i)
  end.
End host.

(** ** [main.rs] *)

(** [hex::decode]. *)
Class Hex := { hex_decode : string → option bytes }.

Section main.
Context `{Hex}.

(** [&s[n..]]: [n] must be a boundary between characters, which a byte of the
    form [0b10xxxxxx] does not begin. *)
Definition slice_from (n : nat) (s : string) : outcome string :=
  match String.get n s with
  | Some c =>
      let b := Z.of_N (Ascii.N_of_ascii c) in
      if (128 <=? b) && (b <? 192) then Panicked IndexOutOfBounds
      else Done (String.substring n (String.length s - n) s)
  | None => if decide (n = String.length s) then Done ""%string else Panicked IndexOutOfBounds
  end.

(** The switch for the heuristics and the parameters [Overseer::new] gets, and
    the address of the RPC server. *)
Definition run_substrate_backend (rpc_port : Z) (disable_heuristics : option bool) (genesis_hash : string) :
    outcome (bool * Substrate.SubstrateParameters * SocketAddr) :=
  let disable_heuristics := default false disable_heuristics in
  digits ← slice_from 2 genesis_hash;
  genesis_hash ← expect (hex_decode digits);
  let parameters := Substrate.mkSubstrateParameters genesis_hash in
  address ← expect (SocketText.from_str ("127.0.0.1:" +:+ pretty rpc_port)%string);
  Done (disable_heuristics, parameters, address).
End main.
End Rpc.
