(* ===== verification/RpcTheorems.v ===== *)
(** * Correctness of the host

    The calls of the RPC and the overseer together: every call is answered
    once, with the result of the operation it asks for, and a call whose
    parameters cannot be read does not reach the overseer; what happens when a
    caller goes away; and that the texts the host is given are read as they
    are meant. *)

From stdpp Require Import pretty.
From S2P Require Import Prelude Wire Backend SocketText Heuristics Filter FilterTheorems LinkGraph.
From S2P Require Import Overseer OverseerFacts OverseerTheorems System SystemTheorems Substrate Rpc.
Import System Rpc.

Section theorems.
Context `{HB : NetworkBackend} `{HE : !Executor} `{HS : !PacketSink} `{HI : !Interfaces}.
Context `{HG : !LinkGraph InterfaceId} `{HGL : !LinkGraphLaws InterfaceId}.
Context `{HO : !HashOrder InterfaceId} `{HP : !HashOrder Protocol} `{HOP : !HashOrder PeerId}.
Context `{HER : !ExecutorRuns} `{HIR : !InterfacesRun}.
Context {Seq : Type} `{HR : !RpcParams Seq} `{HT : !ErrorTexts}.
Implicit Types (o : Overseer) (s : System) (h : Host) (m : Method) (ps : Seq) (n : nat).

(** ** Only requests of the RPC are replied to *)

(** The result leaves the replies of [o] as they are. *)
Definition same_replies {R} o (x : Overseer * R) : Prop := replies x.1 = replies o.

Lemma command_replies i c o : ensures (command i c o) (same_replies o).
Proof. unfold command. case_match; [|done]. apply ensures_bind, ensures_true. done. Qed.

Lemma link_replies i j o : ensures (link_interfaces i j o) (same_replies o).
Proof.
  unfold link_interfaces. repeat case_match; try done. apply ensures_bind, ensures_true. intros [g e].
  apply ensures_bind, ensures_true. done.
Qed.
Lemma unlink_replies i j o : ensures (unlink_interfaces i j o) (same_replies o).
Proof.
  unfold unlink_interfaces. case_match; [|done]. apply ensures_bind, ensures_true. intros h.
  simpl. by destruct (remove_edge _ _).
Qed.
Lemma create_replies a c d p o : ensures (Overseer.create_interface a c d p o) (same_replies o).
Proof.
  unfold Overseer.create_interface. apply ensures_bind, ensures_true. intros [params|]; [|done].
  apply ensures_bind, ensures_true. intros [b [[h stream]|]]; [|done]. simpl. case_match; [done|].
  destruct (add_node _ _). apply ensures_bind, ensures_true. intros [[f fh]|]; done.
Qed.

Lemma each_replies {A} (f : Overseer → A → outcome Overseer) l o :
  (∀ o a, ensures (f o a) (λ o', replies o' = replies o)) →
  ensures (for_each f l o) (λ o', replies o' = replies o).
Proof.
  intros Hf. apply ensures_for_each; [done|]. intros a o1 H1.
  eapply ensures_mono; [apply Hf|]. simpl. intros ? ->. done.
Qed.

Lemma upgrade_replies i f g o pr :
  ensures (upgrade_protocol i f g o pr) (λ o', replies o' = replies o).
Proof.
  unfold upgrade_protocol. do 2 (apply ensures_bind, ensures_true; intros ?).
  apply ensures_bind, ensures_true. done.
Qed.
Lemma discover_replies p o i : ensures (discover_at p o i) (λ o', replies o' = replies o).
Proof. unfold discover_at. repeat case_match; try done. apply ensures_bind, ensures_true. done. Qed.
Lemma inject_replies p pr msg o i : ensures (inject_into p pr msg o i) (λ o', replies o' = replies o).
Proof. unfold inject_into. do 2 (apply ensures_bind, ensures_true; intros ?). done. Qed.

Lemma event_replies e o : ensures (handle_interface_event e o) (same_replies o).
Proof.
  destruct e; simpl; try apply command_replies.
  - unfold register_peer. repeat case_match; try done. do 2 (apply ensures_bind, ensures_true; intros ?). done.
  - unfold unregister_peer. repeat case_match; try done. do 2 (apply ensures_bind, ensures_true; intros ?). done.
  - unfold apply_connection_upgrade. apply ensures_bind, ensures_true. intros _. apply ensures_bind.
    destruct upgrade; (eapply ensures_mono; [apply each_replies, upgrade_replies|done]).
  - unfold inject_notification. case_match; [|done]. apply ensures_bind, ensures_true. intros l.
    apply ensures_bind. eapply ensures_mono; [apply each_replies, inject_replies|done].
  - unfold discover_peer. case_match; [done|]. apply ensures_bind.
    eapply ensures_mono; [apply each_replies, discover_replies|done].
Qed.

(** ** One call *)
Lemma param_Ok {A R} (x : option (A * Seq)) why (k : A → Seq → result R string) r :
  param x why k = Ok r → ∃ a rest, x = Some (a, rest) ∧ k a rest = Ok r.
Proof. destruct x as [[a rest]|]; simpl; [eauto|done]. Qed.

Ltac read_ok H :=
  repeat (apply param_Ok in H as (? & ? & ? & H); try (case_match; [|done])); injection H as <-.

(** The event a call sends is one of the five, whatever its channel. *)
Lemma read_params_event m ps ev :
  read_params m ps = Ok ev →
  (∃ a f d p, ev = CreateInterface a f d p) ∨ (∃ i j, ev = LinkInterface i j) ∨
  (∃ i j, ev = UnlinkInterface i j) ∨ (∃ i pr f c, ev = OvInstallNotificationFilter i pr f c) ∨
  (∃ i pr f c, ev = OvInstallRequestResponseFilter i pr f c).
Proof.
  destruct m; simpl; intros H;
    [unfold Rpc.create_interface in H|unfold link_interface in H|unfold unlink_interface in H
    |unfold Rpc.install_notification_filter in H|unfold Rpc.install_request_response_filter in H];
    read_ok H; naive_solver.
Qed.

Lemma call_input_ok m ps ev o reply :
  read_params m ps = Ok ev → waiting reply = true → input_ok o (FromRpc (ev reply)).
Proof. intros H Hw. apply read_params_event in H. naive_solver. Qed.

Lemma reply_with_replies reply r o :
  ensures (reply_with reply r o) (λ o', waiting reply = true ∧ replies o' = replies o ++ [(reply_to reply, r)]).
Proof. unfold reply_with. by destruct (waiting reply) eqn:?. Qed.

Lemma then_reply_replies {A} reply (answer : result A Error → result (option InterfaceId) Error)
    (x : outcome (Overseer * result A Error)) o :
  ensures x (same_replies o) →
  ensures ('(o', r) ← x; reply_with reply (answer r) o')
    (λ o', waiting reply = true ∧ ∃ r, replies o' = replies o ++ [(reply_to reply, r)]).
Proof.
  intros Hx. apply ensures_bind. eapply ensures_mono; [exact Hx|]. intros [o1 r] Hsame.
  eapply ensures_mono; [apply reply_with_replies|]. unfold same_replies in Hsame. simpl in *.
  intros o' [? ->]. rewrite Hsame. eauto.
Qed.

(** The overseer answers on the channel of the call, once, or panics; it does
    if nobody listens. *)
Lemma call_replies m ps ev o reply :
  read_params m ps = Ok ev →
  ensures (Overseer.step o (FromRpc (ev reply)))
    (λ o', waiting reply = true ∧ ∃ r, replies o' = replies o ++ [(reply_to reply, r)]).
Proof.
  intros H. apply read_params_event in H.
  destruct H as [(a & f & d & p & ->)|[(i & j & ->)|[(i & j & ->)|[(i & pr & f & c & ->)|(i & pr & f & c & ->)]]]];
    simpl; (apply (then_reply_replies reply no_id) ||
            apply (then_reply_replies reply (λ r, match r with Ok i => Ok (Some i) | Err e => Err e end)));
    first [apply create_replies|apply link_replies|apply unlink_replies|apply command_replies].
Qed.

(** ** A host that serves *)

(** What the environment does: callers wait for their answers, and a
    connection is upgraded on an interface that exists. *)
Definition host_input_ok h (x : HostInput (Seq := Seq)) : Prop :=
  match x with
  | Call _ _ listening => listening = true
  | Event e => ∀ s, program h = Some s → input_ok (overseer s) (FromInterface e)
  | FilterTakes _ | FilterPolls _ | FilterHeard _ => True
  end.

Inductive serves (params : NetworkParameters) : Host → Prop :=
  | serves_new : serves params (host_new params)
  | serves_step h x : serves params h → host_input_ok h x → serves params (host_step h x).

(** An answer is the error found in the parameters or what the overseer sent
    for it. *)
Definition answered_from o (a : nat * result (option InterfaceId) string) : Prop :=
  (is_ok a.2 = false ∧ a.1 ∉ (replies o).*1) ∨ (∃ r, (a.1, r) ∈ replies o ∧ a.2 = respond true (Some r)).

Record served params h s : Prop := {
  served_alive : program h = Some s;
  served_ok : sys_ok params s;
  served_numbered : ∀ k, k ∈ (replies (overseer s)).*1 → (k < next_call h)%nat;
  served_once : NoDup (replies (overseer s)).*1;
  served_answers : (answers h).*1 = seq 0 (next_call h);
  served_from : Forall (answered_from (overseer s)) (answers h);
}.

Lemma received_last n o o' r :
  (∀ k, k ∈ (replies o).*1 → (k < n)%nat) → replies o' = replies o ++ [(n, r)] → received n o' = Some r.
Proof.
  intros Hn Hrep. unfold received. rewrite Hrep, list_to_map_app. apply lookup_union_Some_raw. right. split.
  - apply not_elem_of_list_to_map. intros H%Hn. lia.
  - simpl. by rewrite lookup_insert_eq.
Qed.

(** Nothing but the answers to calls is sent to callers. *)
Lemma task_replies i x taken t s : replies (overseer (run_task i x taken t s)) = replies (overseer s).
Proof.
  unfold run_task. destruct (Filter.handle x (t_filter t)) as [[f r]|]; [done|]. simpl. unfold close_commands.
  by destruct (interfaces (overseer s) !! i).
Qed.

Lemma filter_event_replies ev o : ensures (Overseer.step o (FromFilter ev)) (λ o', replies o' = replies o).
Proof.
  destruct ev as [i p]. simpl. apply ensures_fmap. unfold connect_to_peer.
  case_match; [|done]. by apply ensures_bind, ensures_true; intros [].
Qed.

Lemma step_replies s x :
  match x with External (FromRpc _) => False | _ => True end →
  ensures (system_step s x) (λ s', replies (overseer s') = replies (overseer s)).
Proof.
  destruct x as [[ev|ev|ev]|i|i|i]; intros Hx; [done|..]; cbn [system_step].
  - apply ensures_bind. eapply ensures_mono; [|intros o' Ho'; exact Ho']. simpl. apply ensures_fmap.
    eapply ensures_mono; [apply event_replies|]. done.
  - apply ensures_bind. eapply ensures_mono; [apply filter_event_replies|]. done.
  - repeat case_match; simpl; try done. apply task_replies.
  - repeat case_match; simpl; try done. apply task_replies.
  - repeat case_match; simpl; try done. apply ensures_bind. eapply ensures_mono; [apply filter_event_replies|]. done.
Qed.

(** The operation of the overseer a call asks for, if its parameters can be
    read. *)
Definition operation := Overseer → outcome (Overseer * result (option InterfaceId) Error).

Definition answering {A} (answer : result A Error → result (option InterfaceId) Error)
    (f : Overseer → outcome (Overseer * result A Error)) : operation := λ o,
  '(o, r) ← f o; Done (o, answer r).
Definition with_id (r : result InterfaceId Error) : result (option InterfaceId) Error :=
  match r with Ok i => Ok (Some i) | Err e => Err e end.

Definition asked m ps : option operation :=
  match m with
  | MCreateInterface =>
      '(text, ps) ← next_string ps; address ← SocketText.from_str text;
      '(code, ps) ← next_string ps; '(ms, ps) ← next_u64 ps;
      Some (answering with_id (Overseer.create_interface address code (ms * 1000000) (fst <$> next_string ps)))
  | MLinkInterface =>
      '(first, ps) ← next_interface ps; '(second, _) ← next_interface ps;
      Some (answering no_id (link_interfaces first second))
  | MUnlinkInterface =>
      '(first, ps) ← next_interface ps; '(second, _) ← next_interface ps;
      Some (answering no_id (unlink_interfaces first second))
  | MInstallNotificationFilter =>
      '(interface, ps) ← next_interface ps; '(protocol, ps) ← next_protocol ps;
      '(code, ps) ← next_string ps; '(context, _) ← next_string ps;
      Some (answering no_id (Overseer.install_notification_filter interface protocol code context))
  | MInstallRequestResponseFilter =>
      '(interface, ps) ← next_interface ps; '(protocol, ps) ← next_protocol ps;
      '(code, ps) ← next_string ps; '(context, _) ← next_string ps;
      Some (answering no_id (Overseer.install_request_response_filter interface protocol code context))
  end.

(** What the overseer does with the event of a call is the operation, followed
    by the answer on the channel. *)
Definition performs (ev : oneshot → OverseerEvent) (op : operation) : Prop :=
  ∀ n o, Overseer.step o (FromRpc (ev (mkOneshot n true))) =
         ('(o1, r) ← op o; Done (with_replies (replies o1 ++ [(n, r)]) o1)) ∧ ensures (op o) (same_replies o).

Lemma performs_answering {A} (ev : oneshot → OverseerEvent) answer (f : Overseer → outcome (Overseer * result A Error)) :
  (∀ n o, Overseer.step o (FromRpc (ev (mkOneshot n true))) =
          ('(o1, r) ← f o; reply_with (mkOneshot n true) (answer r) o1)) →
  (∀ o, ensures (f o) (same_replies o)) → performs ev (answering answer f).
Proof.
  intros Hstep Hm n o. rewrite Hstep. specialize (Hm o). unfold answering.
  destruct (f o) as [[o1 r]|]; done.
Qed.

(** Reading one parameter, in the code and in the operation asked for. *)
Lemma read_one {A} (x : option (A * Seq)) why (k : A → Seq → result (oneshot → OverseerEvent) string)
    (f : A → Seq → option operation) (Q : _ → _ → Prop) :
  (∀ e, Q (Err e) None) → (∀ a rest, Q (k a rest) (f a rest)) →
  Q (param x why k) ('(a, rest) ← x; f a rest).
Proof. destruct x as [[a rest]|]; simpl; auto. Qed.

Definition reads (r : result (oneshot → OverseerEvent) string) (op : option operation) : Prop :=
  match r, op with Ok ev, Some op => performs ev op | Err _, None => True | _, _ => False end.

Lemma asked_read m ps : reads (read_params m ps) (asked m ps).
Proof.
  destruct m; simpl;
    [unfold Rpc.create_interface|unfold link_interface|unfold unlink_interface
    |unfold Rpc.install_notification_filter|unfold Rpc.install_request_response_filter];
    repeat (apply read_one; [done|]; intros ??); simpl;
    try (apply performs_answering; [done|]; intros ?;
         first [apply link_replies|apply unlink_replies|apply command_replies]).
  destruct (SocketText.from_str a); [|done]. cbn [mbind option_bind].
  repeat (apply read_one; [done|]; intros ??). apply performs_answering; [done|]. intros ?. apply create_replies.
Qed.

(** What a call does to a host that serves. *)
Definition call_done params h s m ps s' (a : result (option InterfaceId) string) : Prop :=
  host_step h (Call m ps true) = mkHost (Some s') (S (next_call h)) (answers h ++ [(next_call h, a)]) ∧
  match asked m ps with
  | None => s' = s ∧ is_ok a = false
  | Some op => ∃ o1 r, op (overseer s) = Done (o1, r) ∧ replies o1 = replies (overseer s) ∧
      overseer s' = with_replies (replies (overseer s) ++ [(next_call h, r)]) o1 ∧ reaches params (overseer s') ∧
      a = match r with Ok i => Ok i | Err e => Err (error_to_string e) end
  end.

Lemma call_served params h s m ps :
  served params h s → ∃ s' a, sys_ok params s' ∧ call_done params h s m ps s' a.
Proof.
  intros [Halive Hsys Hn _ _ _]. unfold call_done. pose proof (asked_read m ps) as Hread.
  unfold host_step. rewrite Halive.
  destruct (read_params m ps) as [ev|why] eqn:Hm, (asked m ps) as [op|]; try done; [|by eexists _, _].
  destruct (Hread (next_call h) (overseer s)) as [Hperf Hsame].
  pose proof (call_input_ok m ps ev (overseer s) (mkOneshot (next_call h) true) Hm eq_refl) as Hok.
  pose proof (external_ok params s _ Hsys Hok) as Hrun. apply runs_Done in Hrun as (s' & Hstep & Hs').
  cbn [run_program]. rewrite Hstep. cbn [system_step] in Hstep. rewrite Hperf in Hstep.
  destruct (op (overseer s)) as [[o1 r]|]; [|done]. cbn [mbind outcome_bind mret outcome_ret] in Hstep.
  unfold same_replies in Hsame. simpl in Hsame. rewrite Hsame in Hstep.
  assert (overseer s' = with_replies (replies (overseer s) ++ [(next_call h, r)]) o1) as Ho' by (by injection Hstep as <-).
  exists s', (respond true (Some r)). split; [done|]. cbn [mbind option_bind].
  rewrite (received_last _ (overseer s) _ r Hn) by (by rewrite Ho').
  rewrite bool_decide_eq_true_2 by eauto. split; [done|]. exists o1, r.
  split_and!; [done..|apply (so_reaches _ _ Hs')|by destruct r].
Qed.

Lemma answered_more o o' a :
  (∃ l, replies o' = replies o ++ l ∧ ∀ k, k ∈ l.*1 → k ≠ a.1) → answered_from o a → answered_from o' a.
Proof.
  intros (l & Hrep & Hl) [[Herr Hnot]|(r & Hr & Ha)]; [left|right].
  - split; [done|]. rewrite Hrep, fmap_app. intros [?|Hin]%elem_of_app; [done|]. by apply Hl in Hin.
  - exists r. rewrite Hrep. split; [set_solver|done].
Qed.

Lemma answered_number h s params a : served params h s → a ∈ answers h → (a.1 < next_call h)%nat.
Proof.
  intros Hs Ha. assert (a.1 ∈ (answers h).*1) as Hin by (by apply list_elem_of_fmap_2).
  rewrite (served_answers _ _ _ Hs) in Hin. apply elem_of_seq in Hin. lia.
Qed.

Lemma served_call params h s m ps :
  served params h s → ∃ s', served params (host_step h (Call m ps true)) s'.
Proof.
  intros Hs. destruct (call_served _ _ _ m ps Hs) as (s' & a & Hsys' & Hstep & Hcall). exists s'. rewrite Hstep.
  pose proof Hs as [Halive Hsys Hn Honce Hans Hfrom].
  assert (0%nat :: seq 1 (next_call h) = seq 0 (next_call h) ++ [next_call h]) as Hseq by exact (seq_S (next_call h) 0).
  destruct (asked m ps) as [op|].
  - destruct Hcall as (o1 & r & _ & _ & Ho' & _ & ->).
    assert (replies (overseer s') = replies (overseer s) ++ [(next_call h, r)]) as Hrep by (by rewrite Ho').
    split; simpl; rewrite ?Hrep, ?fmap_app; simpl.
    + done.
    + done.
    + intros k [Hk%Hn|Hk]%elem_of_app; set_unfold; lia.
    + apply NoDup_app. split_and!; [done| |apply NoDup_singleton]. intros k Hk%Hn ?. set_unfold. lia.
    + by rewrite Hans, Hseq.
    + apply Forall_app. split.
      * apply Forall_forall. intros b Hb.
        apply (answered_more (overseer s)); [|by rewrite Forall_forall in Hfrom; apply Hfrom].
        exists [(next_call h, r)]. split; [done|]. pose proof (answered_number _ _ _ _ Hs Hb).
        simpl. intros k ->%list_elem_of_singleton. lia.
      * apply Forall_singleton. right. exists r. simpl. split; [rewrite Hrep; set_solver|by destruct r].
  - destruct Hcall as [-> Herr]. split; simpl; rewrite ?fmap_app; simpl; try done.
    + intros k Hk%Hn. lia.
    + by rewrite Hans, Hseq.
    + apply Forall_app. split; [done|]. apply Forall_singleton. left. simpl. split; [done|].
      intros H%Hn. lia.
Qed.

Lemma served_other params h s x :
  served params h s → system_input_ok s x → match x with External (FromRpc _) => False | _ => True end →
  ∃ s', served params (host_run h x) s'.
Proof.
  intros [Halive Hsys Hn Honce Hans Hfrom] Hok Hx. pose proof (step_replies s x Hx) as Hrep.
  pose proof (system_step_ok params s x Hsys Hok) as Hrun. apply runs_Done in Hrun as (s' & Hstep & Hsys').
  rewrite Hstep in Hrep. simpl in Hrep. exists s'. unfold host_run. rewrite Halive. simpl. rewrite Hstep.
  split; simpl; rewrite ?Hrep; try done.
  eapply Forall_impl; [exact Hfrom|]. intros a. apply answered_more. exists [].
  rewrite app_nil_r. split; [done|]. set_solver.
Qed.

Lemma serves_served params h : serves params h → ∃ s, served params h s.
Proof.
  induction 1 as [|h x _ [s Hs] Hok].
  { exists (system_new params). split; simpl; try done; [apply sys_ok_new|set_solver|apply NoDup_nil_2]. }
  destruct x as [m ps l|e|i|i|i]; simpl in Hok.
  - subst l. by eapply served_call.
  - eapply served_other; [exact Hs| |done]. by apply Hok, Hs.
  - by eapply served_other.
  - by eapply served_other.
  - by eapply served_other.
Qed.

(** Calls whose callers wait can be made in any state. *)
Lemma serves_calls params (calls : list (Method * Seq)) h :
  serves params h → serves params (fold_left host_step ((λ c, Call c.1 c.2 true) <$> calls) h).
Proof.
  revert h. induction calls as [|c calls IH]; intros h Hs; [done|]. apply IH. by apply serves_step.
Qed.

(** C40: The RPC server and the overseer answer every call, and answer it
    right. As long as callers wait for their answers (see
    [lost_caller_stops_overseer]), neither the executors of the filters nor the
    backend panic (see [panicking_filter_ends_the_overseer]) and connections are
    upgraded on interfaces that exist, in every interleaving of calls, events of
    interfaces and turns of the filters: the overseer runs; the calls made so
    far have exactly one answer each; and a further call with parameters that
    can be read is answered with the one result the overseer sends for the
    operation it asks for, an error as its text, while one with parameters that
    cannot be read is answered with an error and does not reach the overseer. *)
Theorem rpc_calls_answered params h m ps :
  serves params h →
  ∃ s, program h = Some s ∧ (answers h).*1 = seq 0 (next_call h) ∧ Forall (answered_from (overseer s)) (answers h) ∧
    NoDup (replies (overseer s)).*1 ∧ ∃ s' a, call_done params h s m ps s' a.
Proof.
  intros Hs. destruct (serves_served _ _ Hs) as (s & Ho). exists s.
  pose proof Ho as [Halive _ _ Honce Hans Hfrom]. split_and!; [done..|].
  destruct (call_served _ _ _ m ps Ho) as (s' & a & _ & ?). eauto.
Qed.

(** A program that has ended stays so, and tells every well-formed call. *)
Lemma ended_for_good xs h : program h = None → program (fold_left host_step xs h) = None.
Proof.
  revert h. induction xs as [|[m1 ps1 l1|e|i|i|i] l IH]; intros h1 Hh1; [done|..]; apply IH; simpl; rewrite Hh1; [|done..].
  by destruct (read_params m1 ps1).
Qed.
Lemma ended_answer h m ps ev :
  program h = None → read_params m ps = Ok ev →
  answers (host_step h (Call m ps true)) = answers h ++ [(next_call h, Err "Essential task closed"%string)].
Proof. intros Hh Hm. simpl. by rewrite Hm, Hh. Qed.

(** A caller that goes away before the overseer answers stops it: the
    [expect] on the channel fails, and from then on every well-formed call is
    told that an essential task has closed. *)
Theorem lost_caller_stops_overseer params h m ps ev xs m' ps' ev' :
  serves params h → read_params m ps = Ok ev → read_params m' ps' = Ok ev' →
  let h' := fold_left host_step xs (host_step h (Call m ps false)) in
  program h' = None ∧
  answers (host_step h' (Call m' ps' true)) =
    answers h' ++ [(next_call h', Err "Essential task closed"%string)].
Proof.
  intros Hs Hm Hm' h'. destruct (serves_served _ _ Hs) as (s & Ho).
  assert (program h' = None) as Hnone.
  { apply ended_for_good. unfold host_step. rewrite Hm, (served_alive _ _ _ Ho).
    cbn [program run_program system_step].
    pose proof (call_replies m ps ev (overseer s) (mkOneshot (next_call h) false) Hm) as Hrep.
    destruct (Overseer.step (overseer s) (FromRpc _)); [|done]. by destruct Hrep. }
  split; [done|]. by eapply ended_answer.
Qed.
End theorems.

(** ** A filter that ends *)
Section ended.
Context `{HB : NetworkBackend} `{HE : !Executor} `{HS : !PacketSink} `{HI : !Interfaces}.
Context `{HG : !LinkGraph InterfaceId} `{HO : !HashOrder InterfaceId} `{HP : !HashOrder Protocol}.
Context `{HOP : !HashOrder PeerId}.
Context {Seq : Type} `{HR : !RpcParams Seq} `{HT : !ErrorTexts}.

(** When the executor of a filter panics in a poll, the callers are not told;
    but the next request that arrives at its interface ends the overseer, and
    from then on every well-formed call is refused, although all callers wait. *)
Theorem panicking_filter_stops_host (h : Host) s i info t why p pr r xs m' (ps' : Seq) ev' :
  program h = Some s → interfaces (overseer s) !! i = Some info → tasks s !! i = Some t → t_running t = true →
  Filter.handle None (t_filter t) = Panicked why → read_params m' ps' = Ok ev' →
  let h' := fold_left host_step ([FilterPolls i; Event (RequestReceived i p pr r)] ++ xs) h in
  program h' = None ∧
  answers (host_step h' (Call m' ps' true)) =
    answers h' ++ [(next_call h', Err "Essential task closed"%string)].
Proof.
  intros Hh Hi Ht Hrun Hp Hm' h'.
  destruct (panicked_step s i info t (Tick i) Hi Ht Hrun ltac:(left; eauto)) as (s' & Hstep & _ & Hi').
  assert (program h' = None) as Hnone.
  { unfold h'. rewrite fold_left_app. apply ended_for_good. cbn [fold_left host_step].
    unfold host_run at 2. rewrite Hh. cbn [run_program]. rewrite Hstep.
    unfold host_run. cbn [program run_program system_step Overseer.step handle_interface_event].
    unfold inject_request, command. by rewrite Hi'. }
  split; [done|]. by eapply ended_answer.
Qed.
End ended.

Section calls.
Context `{HB : NetworkBackend}.
Context {Seq : Type} `{HR : !RpcParams Seq}.

(** The address a caller writes is the one the interface is created at:
    a call of create_interface whose first parameter is the text of any IPv4
    socket address is read as the request for an interface at this address,
    with the code, the interval in milliseconds and the optional code that
    initialises the interface. *)
Theorem create_call_read ip port code ms ps ps1 ps2 ps3 :
  0 ≤ ip ≤ u32_max → 0 ≤ port ≤ 65535 →
  next_string ps = Some (SocketText.v4_to_string ip port, ps1) →
  next_string ps1 = Some (code, ps2) → next_u64 ps2 = Some (ms, ps3) →
  read_params MCreateInterface ps =
    Ok (CreateInterface (SocketAddrV4 ip port) code (from_millis ms) (fst <$> next_string ps3)).
Proof.
  intros Hip Hport H1 H2 H3. simpl. unfold Rpc.create_interface. rewrite H1. simpl.
  rewrite v4_from_to_string by done. rewrite H2. simpl. by rewrite H3.
Qed.
End calls.

(** ** The main program *)

(** [hex::decode] accepts hexadecimal digits only. *)
Class HexLaws `{Hex} := {
  hex_decode_digits s b :
    hex_decode s = Some b → match s with String c _ => is_Some (SocketText.to_digit 16 c) | EmptyString => True end;
}.

Section main.
Context `{HX : Hex, !HexLaws}.

Lemma hex_digit_ascii c : is_Some (SocketText.to_digit 16 c) → Z.of_N (Ascii.N_of_ascii c) < 128.
Proof.
  unfold SocketText.to_digit. intros [d Hd]. apply Z.nle_gt. intros Hc.
  rewrite (proj2 (Z.leb_gt (Z.of_N (Ascii.N_of_ascii c)) 57)),
    (proj2 (Z.leb_gt (Z.of_N (Ascii.N_of_ascii c)) 122)),
    (proj2 (Z.leb_gt (Z.of_N (Ascii.N_of_ascii c)) 90)), !andb_false_r in Hd by lia. done.
Qed.

Lemma substring_whole s : String.substring 0 (String.length s) s = s.
Proof. induction s as [|c s IH]; [done|]. simpl. by rewrite IH. Qed.

(** The host starts on every port, with the genesis hash that was written: the
    [expect]s and the slice of the text succeed for a prefix of two
    characters followed by hexadecimal digits. *)
Theorem main_starts port disable digits b :
  0 ≤ port ≤ 65535 → hex_decode digits = Some b →
  run_substrate_backend port disable ("0x" +:+ digits) =
    Done (default false disable, Substrate.mkSubstrateParameters b, SocketAddrV4 2130706433 port).
Proof.
  intros Hport Hb. unfold run_substrate_backend.
  assert (slice_from 2 ("0x" +:+ digits) = Done digits) as ->.
  { unfold slice_from. pose proof (hex_decode_digits _ _ Hb) as Hd. destruct digits as [|c s]; [done|].
    apply hex_digit_ascii in Hd. simpl. rewrite (proj2 (Z.leb_gt 128 _)) by done. simpl.
    by rewrite substring_whole. }
  cbn [mbind outcome_bind]. rewrite Hb. cbn [mbind outcome_bind expect].
  pose proof (v4_from_to_string 2130706433 port ltac:(unfold u32_max; lia) Hport) as Haddr.
  change (SocketText.v4_to_string 2130706433 port) with ("127.0.0.1:" +:+ pretty port)%string in Haddr.
  by rewrite Haddr.
Qed.
End main.

(** ** Concrete calls *)
Section examples.
#[local] Existing Instances numbers_backend script_executor script_executor_runs numbered_sinks.
#[local] Existing Instances numbered_interfaces numbered_interfaces_run.
#[local] Existing Instances interface_order protocol_order peers_order.

Inductive Json := JStr (s : string) | JNum (z : Z).
Definition json_next {A} (f : Json → option A) (l : list Json) : option (A * list Json) :=
  match l with j :: l => a ← f j; Some (a, l) | [] => None end.
Definition json_num (j : Json) : option Z := match j with JNum z => Some z | _ => None end.
Definition json_str (j : Json) : option string := match j with JStr s => Some s | _ => None end.

#[local] Instance json_params : RpcParams (list Json) := {|
  next_string := json_next json_str;
  next_u64 := json_next json_num;
  next_interface := json_next (json_num : Json → option (@InterfaceId numbers_backend));
  next_protocol := json_next (json_num : Json → option (@Protocol numbers_backend));
|}.
#[local] Instance plain_texts : ErrorTexts := {|
  io_text s := s; cbor_text s := s; socket_v6_text _ _ _ _ := "::"%string
|}.

Definition demo_create : list Json := [JStr "127.0.0.1:8888"; JStr "code"; JNum 100].
Definition demo_calls : list (Method * list Json) :=
  [(MCreateInterface, demo_create); (MCreateInterface, demo_create); (MLinkInterface, [JNum 1; JNum 2]);
   (MLinkInterface, [JNum 1]); (MUnlinkInterface, [JNum 2; JNum 5])].
Definition demo_host : Host := fold_left host_step ((λ c, Call c.1 c.2 true) <$> demo_calls) (host_new no_parameters).

Example demo_answers :
  answers demo_host =
    [(0%nat, Ok (Some (1 : @InterfaceId numbers_backend))); (1%nat, Ok (Some (2 : @InterfaceId numbers_backend)));
     (2%nat, Ok None); (3%nat, Err "RPC bind address missing"%string); (4%nat, Err "Link does not exist"%string)].
Proof. vm_compute. reflexivity. Qed.

Lemma demo_serves : serves no_parameters demo_host.
Proof. apply (serves_calls no_parameters demo_calls), serves_new. Qed.

Lemma rpc_calls_answered_witness :
  ∃ s, program demo_host = Some s ∧ (answers demo_host).*1 = seq 0 (next_call demo_host) ∧
    Forall (answered_from (overseer s)) (answers demo_host) ∧ NoDup (replies (overseer s)).*1 ∧
    ∃ s' a, call_done no_parameters demo_host s MLinkInterface [JNum 2; JNum 1] s' a.
Proof. apply (rpc_calls_answered no_parameters demo_host MLinkInterface [JNum 2; JNum 1]), demo_serves. Defined.

Lemma create_call_read_witness :
  read_params MCreateInterface demo_create =
    Ok (CreateInterface (SocketAddrV4 2130706433 8888) "code" 100000000 None).
Proof.
  etrans; [apply (create_call_read 2130706433 8888 "code" 100 demo_create [JStr "code"; JNum 100] [JNum 100] [])|];
    done.
Defined.

Example demo_lost_caller :
  let h := host_step demo_host (Call MCreateInterface demo_create false) in
  bool_decide (is_Some (program h)) = false ∧
  last (answers (host_step h (Call MLinkInterface [JNum 1; JNum 2] true))) =
    Some (6%nat, Err "Essential task closed"%string).
Proof. vm_compute. done. Qed.
End examples.
